(* ===== verification/_CoqProject ===== *)
-Q . S2P
Prelude.v
Bytes.v
Text.v
Manifest.v
UpdatePlan.v
PingPong.v
FileIO.v
Redb.v
Storage.v
StorageSpec.v
StorageBatch.v
StorageLive.v
StorageCompact.v
SchedDb.v
SchedDbSpec.v
SchedControl.v
SchedControlSpec.v
Download.v
Upload.v
UploadSpec.v
DataPath.v
DataPathSpec.v
DataPathLive.v
Keepalive.v
KeepaliveSpec.v
KeepaliveLive.v
SchedHttp.v
SchedInv.v
SchedHttpSpec.v
SchedVersions.v
System.v
Tools.v
ToolsSpec.v
CafeStore.v
CafeSpec.v
Merge.v
MergeSpec.v
MergeLive.v
Configs.v
AgentControl.v
Services.v
ServicesSpec.v
Executor.v
ExecutorSpec.v
ExecutorTasks.v
ExecutorLive.v
CafeLive.v
SchedLive.v
Delivery.v
ExecutorExamples.v
ConfigsSpec.v
Entry.v
Producer.v
ProducerSpec.v
ProducerPublish.v
ProducerLive.v
ProducerExamples.v
Directory.v
