(* ===== verification/Prelude.v ===== *)
(** * BlazeNet: a verification development

    BlazeNet distributes the files of games.  A producer cuts a version into
    chunks named by their BLAKE3 hash, writes a manifest and publishes both to an
    origin; the origin keeps the chunks in pack files and announces the version
    to the scheduler; the scheduler hands tasks to the agents (an IDC keeps
    chunks, a cafe keeps the real files); agents fetch chunks from the origin and
    from one another, check them, store or merge them, and report.  All paths
    below are relative to src/crates.

    ** Parts, and where they are modelled

    - blaze-common.  manifest.rs: Manifest ([build], [encode], [decode],
      [chunk_set]); update_plan.rs: UpdatePlan ([compute]); keepalive.rs: PingPong;
      compio_io.rs and the positioned reads and writes of storage.rs: FileIO.
    - origin.  storage.rs: Storage (one definition per operation of [GameStore]),
      with its guarantees in StorageSpec, StorageBatch, StorageLive and
      StorageCompact; server.rs: Upload and UploadSpec; datapath.rs, with the client
      of agent/src/fetch.rs: DataPath, DataPathSpec and DataPathLive; bin/inspect.rs:
      Tools.
    - scheduler.  db.rs: SchedDb and SchedDbSpec; server.rs (gRPC): SchedControl and
      SchedControlSpec; http.rs: SchedHttp, with the invariant of the whole
      scheduler in SchedInv and SchedHttpSpec, and the versions it has announced in
      SchedVersions; keepalive.rs: Keepalive, KeepaliveSpec and KeepaliveLive.
    - agent.  download.rs: Download; cafe_store.rs: CafeStore and CafeSpec;
      update.rs: Merge, MergeSpec and MergeLive; control.rs, stun.rs and the
      addresses of lib.rs: AgentControl; executor.rs: Executor, ExecutorSpec,
      ExecutorTasks, ExecutorLive, CafeLive and ExecutorExamples; bin/: Tools and
      ToolsSpec.
    - producer.  chunker.rs, lib.rs and upload.rs: Producer, ProducerSpec,
      ProducerPublish, ProducerLive and ProducerExamples.
    - config.rs of the four programs: Configs and ConfigsSpec.  lib.rs: how each
      process starts and the loops it spawns, with the relay's echo service: Services
      and ServicesSpec.  main.rs, and the relay's configuration and start: Entry.
    - The scheduler and the origin together, over uploads, commits, scheduler calls
      and restarts in any order: System.  The scheduler as an agent meets it, when its
      database does not fail: SchedLive.  The way of a version over scheduler, origin,
      IDC and cafe: Delivery; the way of a directory from the producer on: Directory.

    Definitions keep the names of the source.  A struct is a record, an enum an
    inductive type, a method a function of its receiver; a handler is a
    computation of the monad [M S E] of this file, which passes the state [S] and
    keeps it on an error, so an early return leaves what was done so far.
    [anyhow::Error] is the chain of its messages, [tonic::Status] a code and a text.
    Machine integers are [N] with the wrap-around, saturation or truncation of the
    source written out ([add_u64], [as_u32], ...).  A [HashMap] is a gmap; where the
    code iterates over one, the order is a function of which only that it is a
    permutation is known ([MapIter], [SetIter]).

    ** How the parts interact

    Upload runs Storage on the packs of an origin and calls the scheduler through
    [SchedulerClient]; [control_client] puts the handlers of SchedControl behind it.
    DataPath serves any [ChunkSource]: the stores of Storage and the cafe store of
    CafeStore are instances that satisfy [ChunkSourceLaws].  Executor reaches
    the scheduler through [ControlRpc] and peers through [Dial], and drives
    Download, DataPath's client, Storage and Merge.  Producer reaches an origin
    through [UploadRpc]; [OriginBehind] puts the handlers of Upload behind it, and
    ProducerExamples runs a directory through producer, origin and scheduler.

    ** What is outside, and what is assumed of it

    Third-party code and the operating system are classes of operations with a
    class of laws that state documented behaviour: redb ([RedbOps], [RedbLaws]: a
    transaction is a snapshot and commits all or nothing), serde_json ([JsonOps],
    [JsonLaws]: a record reads back), positioned and asynchronous files
    ([FileOps], [CompioOps] and their laws: a call may be short or fail, a write
    changes a prefix of what it was given), opening stores ([OpenOps], [OpenLaws]),
    directories ([DirOps], [DirLaws], [PublishFs], [ProducerFs]), FastCDC ([Cdc],
    [CdcLaws]: chunks tile the input and respect the maximum), parsers of
    addresses ([NetParse], [SockAddr]).  BLAKE3 is a function of which nothing is
    assumed: where a theorem needs two contents with one hash to be equal it says
    so, and most say instead that the data has the hash.  [RedbHealthy], [healthy],
    [Quiet], [RpcLive] and [origin_healthy] say that no call fails; only the statements that
    something succeeds use them.  Every class has an instance in memory and every
    theorem with hypotheses a witness that runs the code on it.

    ** What the theorems show

    - The manifest: encoding and decoding are inverse on both sides, and every
      malformed input is refused with the error of the source.
    - A store implements a finite map: append, batched append (equal to appending
      one by one), read, reopening after a crash, and compaction, on success and on
      each failure; what happens at the 4 GiB bound of an index entry.
    - Transfers: a client accepts from an arbitrary peer only data that hashes to
      what it asked for; a server answers with the frames it holds, in order.
    - The multi-source download: only verified, requested chunks reach the sink,
      whatever peers answer and however transfers interleave; when it returns,
      every missing chunk has reached it.  An IDC then holds, a cafe then has on
      disk, what the task reports.
    - Merging: only files of the two manifests change, a file reported as merged
      has the hash of its entry, and the conditions under which all are merged.
    - Tasks: when scheduler and disk are healthy, the task of an IDC whose origin has
      the version completes whatever the peers answer ([idc_task_completes]), and a
      cafe installs, updates to or repairs a version its peers serve, keeping the blocks
      of an interrupted download ([cafe_task_completes]).
    - The scheduler: identifiers are never reused, records change only as the
      operation says, queued events describe recorded tasks, events arrive in order
      and once, peers returned for a chunk are online holders, a published version
      reads back, an address is unavailable exactly after enough failures, and an
      agent that started is pinged, answers, and is available.
    - Publishing: a run holds the lock, its manifest is that of the directory, and
      when it returns the origin serves the manifest and has all of its chunks; a run
      in which nothing fails returns ([run_publishes]).
    - The whole: in every state the system can reach, each version the scheduler
      announces decodes under its hash and is complete at an origin, which serves all
      of it ([system_invariant], [announced_downloads]); it reaches a cafe by way of
      an IDC, both run by the tasks of one scheduler ([version_delivered]), so that a
      directory given to the producer is in the end the directory of the cafe
      ([directory_delivered]).
    - Around it: the command-line tools, the cleaner, the backups, the data plane's
      accept loop, and which configurations load.

    ** Bounds and fuel

    The read, write and copy loops take one unit of fuel per byte, and each turn
    moves at least one or ends; [run_transfers] takes one per chunk still to be
    transferred and one per join ([all_left]); [wait_for_direct_path] ends at the
    first reading of the clock after its deadline; [connect_control] makes the 30
    attempts of the source and a download its two rounds.  A pack below 4 GiB is a
    hypothesis of the theorems that need it, and [pack_overflow] shows what
    happens above; counters and identifiers are 64 bits wide.

    ** Modelling choices

    A handler, a turn of a loop and an upload stream are one step: the source
    holds a lock over them, or the state between its awaits is not shared; two
    places where that is not so, the transfers of a download and the turns of the
    watch stream, are modelled as sequences of smaller steps in any order.  A task
    of an agent has its node to itself.  The producer's task that reads blocks is
    run to its end before the reply to the upload is read.  Paths are names
    separated by slashes; a path that leaves its directory is outside.

    ** Not modelled

    The servers of the relay (iroh's), signals and the order of a shutdown, the
    benchmarks and prototypes, and generated gRPC code are glue or third-party code.
    Also left out: transports (gRPC, QUIC, HTTP, UDP sockets), the construction of an
    endpoint, timers and sleeps, static files, log and progress messages, the
    semaphores of the executor, and the fixed Windows path of the configuration.

    ** Left out of the composition

    Two tasks that run at once on one node: a theorem about them would need the
    transfers of both as one sequence of steps.  The data plane serves one connection
    at a time (it holds the map of its stores to the end of a connection) and nothing
    calls [compact] while a process runs, so those two have no interleavings to model.
    In [version_delivered] and [directory_delivered] the cafe starts after the IDC has
    reported. *)

From Stdlib Require Export NArith Lia Ascii String.
From Stdlib Require Export Init.Byte.
From Stdlib Require Strings.Byte.
From stdpp Require Export prelude gmap strings list fin_maps fin_sets sorting.


#[global] Open Scope N_scope.
#[global] Open Scope list_scope.
#[global] Set Default Goal Selector "!".
#[global] Unset Printing Records.

(** ** Errors and the two monads

    [anyhow::Error] is a chain of messages, the outermost context first:
    [.context(msg)] pushes a message, [{err}] shows the head of the chain and
    [{err:#}] the whole chain joined by a colon. *)

Definition error := list string.

Inductive result (E A : Type) : Type :=
| Ok (a : A)
| Err (e : E).
Arguments Ok {E A} a.
Arguments Err {E A} e.

#[global] Instance result_ret {E} : MRet (result E) := λ A a, Ok a.
#[global] Instance result_bind {E} : MBind (result E) := λ A B f m,
  match m with Ok a => f a | Err e => Err e end.
#[global] Instance result_fmap {E} : FMap (result E) := λ A B f m,
  match m with Ok a => Ok (f a) | Err e => Err e end.

Definition is_ok {E A} (r : result E A) : bool :=
  match r with Ok _ => true | Err _ => false end.

Definition map_err {E F A} (f : E → F) (r : result E A) : result F A :=
  match r with Ok a => Ok a | Err e => Err (f e) end.

(** [bail!(msg)] and [.context(msg)]. *)
Definition bail {A} (msg : string) : result error A := Err [msg].

Definition with_context {A} (msg : string) (r : result error A) : result error A :=
  map_err (cons msg) r.

(** [{err}]: the outermost message; [{err:#}]: the chain. *)
Definition err_display (e : error) : string := default ""%string (head e).

Fixpoint err_display_chain (e : error) : string :=
  match e with
  | [] => ""
  | [m] => m
  | m :: e => (m ++ ": " ++ err_display_chain e)%string
  end.

(** Option to result: [.ok_or(e)]. *)
Definition ok_or {E A} (e : E) (o : option A) : result E A :=
  match o with Some a => Ok a | None => Err e end.

(** Result to option: [.ok()]. *)
Definition ok {E A} (r : result E A) : option A :=
  match r with Ok a => Some a | Err _ => None end.

Lemma bind_Ok_inv {E A B} (m : result E A) (f : A → result E B) b :
  m ≫= f = Ok b → ∃ a, m = Ok a ∧ f a = Ok b.
Proof. destruct m as [a|e]; [by exists a | done]. Qed.

Lemma bind_Err_inv {E A B} (m : result E A) (f : A → result E B) e :
  m ≫= f = Err e → m = Err e ∨ ∃ a, m = Ok a ∧ f a = Err e.
Proof. destruct m as [a|e']; [right; by exists a | left; simplify_eq/=; done]. Qed.

Lemma with_context_Ok_inv {A} msg (r : result error A) a :
  with_context msg r = Ok a → r = Ok a.
Proof. destruct r; simpl; congruence. Qed.

Lemma map_err_Ok_inv {E F A} (f : E → F) (r : result E A) a :
  map_err f r = Ok a → r = Ok a.
Proof. destruct r; simpl; congruence. Qed.

(** The state-and-error monad of the operations that mutate a component:
    the state survives an error, as the fields of a [&mut self] do. *)
Definition M (S E A : Type) : Type := S → S * result E A.

#[global] Instance M_ret {S E} : MRet (M S E) := λ A a s, (s, Ok a).
#[global] Instance M_bind {S E} : MBind (M S E) := λ A B f m s,
  match m s with
  | (s', Ok a) => f a s'
  | (s', Err e) => (s', Err e)
  end.

Definition get {S E} : M S E S := λ s, (s, Ok s).
Definition put {S E} (s : S) : M S E () := λ _, (s, Ok ()).
Definition modify {S E} (f : S → S) : M S E () := λ s, (f s, Ok ()).
Definition lift {S E A} (r : result E A) : M S E A := λ s, (s, r).
Definition throw {S E A} (e : E) : M S E A := λ s, (s, Err e).
(** Run and keep the error as a value: [match op { Ok.. Err.. }]. *)
Definition attempt {S E F A} (m : M S E A) : M S F (result E A) := λ s,
  match m s with (s', r) => (s', Ok r) end.
(** [let _ = op;] *)
Definition ignore {S E F A} (m : M S E A) : M S F () := λ s, ((m s).1, Ok ()).
Definition map_err_m {S E F A} (f : E → F) (m : M S E A) : M S F A := λ s,
  match m s with (s', r) => (s', map_err f r) end.

(** Run [m] on a part of the state. *)
Definition zoom {S T E A} (getp : S → T) (setp : T → S → S) (m : M T E A) : M S E A :=
  λ s, match m (getp s) with (t, r) => (setp t s, r) end.

Lemma M_bind_Ok_inv {S E A B} (m : M S E A) (f : A → M S E B) s s' b :
  (m ≫= f) s = (s', Ok b) →
  ∃ s1 a, m s = (s1, Ok a) ∧ f a s1 = (s', Ok b).
Proof.
  unfold mbind, M_bind. destruct (m s) as [s1 [a|e]] eqn:Hm; [|done].
  intros. by exists s1, a.
Qed.

Lemma M_bind_ok {S E A B} (m : M S E A) (f : A → M S E B) s s1 a :
  m s = (s1, Ok a) → (m ≫= f) s = f a s1.
Proof. unfold mbind, M_bind. by intros ->. Qed.

Lemma M_bind_err {S E A B} (m : M S E A) (f : A → M S E B) s s1 e :
  m s = (s1, Err e) → (m ≫= f) s = (s1, Err e).
Proof. unfold mbind, M_bind. by intros ->. Qed.

Lemma lift_Ok_inv {S E A} (r : result E A) (s s' : S) a :
  lift r s = (s', Ok a) → s' = s ∧ r = Ok a.
Proof. unfold lift. naive_solver. Qed.

Lemma mret_Ok_inv {S E A} (b : A) (s s' : S) a :
  (mret b : M S E A) s = (s', Ok a) → s' = s ∧ a = b.
Proof. unfold mret, M_ret. naive_solver. Qed.

Lemma attempt_inv {S E F A} (m : M S E A) s s' (r : result F (result E A)) :
  attempt m s = (s', r) → ∃ r', r = Ok r' ∧ m s = (s', r').
Proof. unfold attempt. destruct (m s) as [s1 r1]. intros [= <- <-]. by exists r1. Qed.

(** An invariant that an operation keeps on success and on failure alike. *)
Definition preserves {S E A} (I : S → Prop) (m : M S E A) : Prop :=
  ∀ s, I s → I (m s).1.

Section preserves.
Context {S E : Type} (I : S → Prop).

Lemma preserves_ret {A} (a : A) : preserves I (mret a : M S E A).
Proof. by intros s Hs. Qed.
Lemma preserves_lift {A} (r : result E A) : preserves I (lift r : M S E A).
Proof. by intros s Hs. Qed.
Lemma preserves_throw {A} (e : E) : preserves I (throw e : M S E A).
Proof. by intros s Hs. Qed.
Lemma preserves_get : preserves I (get : M S E S).
Proof. by intros s Hs. Qed.
Lemma preserves_modify (f : S → S) :
  (∀ s, I s → I (f s)) → preserves I (modify f : M S E ()).
Proof. intros Hf s Hs. by apply Hf. Qed.
Lemma preserves_bind {A B} (m : M S E A) (f : A → M S E B) :
  preserves I m → (∀ a, preserves I (f a)) → preserves I (m ≫= f).
Proof.
  intros Hm Hf s Hs. specialize (Hm s Hs). unfold mbind, M_bind.
  destruct (m s) as [s1 [a|e]]; simpl in *; [by apply Hf | done].
Qed.
Lemma preserves_map_err {F A} (f : E → F) (m : M S E A) :
  preserves I m → preserves I (map_err_m f m).
Proof.
  intros Hm s Hs. specialize (Hm s Hs). unfold map_err_m. by destruct (m s).
Qed.
Lemma preserves_attempt {F A} (m : M S E A) :
  preserves I m → preserves I (attempt m : M S F _).
Proof. intros Hm s Hs. specialize (Hm s Hs). unfold attempt. by destruct (m s). Qed.
Lemma preserves_ignore {F A} (m : M S E A) :
  preserves I m → preserves I (ignore m : M S F _).
Proof. intros Hm s Hs. by apply Hm. Qed.
End preserves.

Create HintDb blaze discriminated.
#[export] Hint Resolve preserves_ret preserves_lift preserves_throw preserves_get
  preserves_modify preserves_bind preserves_map_err preserves_attempt
  preserves_ignore : blaze.

(** Decompose every monadic hypothesis that ran to success. *)
Ltac inv_ok :=
  repeat match goal with
  | H : with_context _ _ = Ok _ |- _ => apply with_context_Ok_inv in H
  | H : map_err _ _ = Ok _ |- _ => apply map_err_Ok_inv in H
  | H : (_ ≫= _) _ = (_, Ok _) |- _ =>
      apply M_bind_Ok_inv in H as (? & ? & ? & H); cbn beta in H
  | H : _ ≫= _ = Ok _ |- _ => apply bind_Ok_inv in H as (? & ? & H); cbn beta in H
  | H : lift _ _ = (_, Ok _) |- _ => apply lift_Ok_inv in H as [? H]; subst
  | H : mret _ _ = (_, Ok _) |- _ => apply mret_Ok_inv in H as [? ?]; simplify_eq
  | H : mret _ = Ok _ |- _ => unfold mret, result_ret in H; simplify_eq
  | H : get _ = (_, Ok _) |- _ => unfold get in H; simplify_eq
  | H : put _ _ = (_, Ok _) |- _ => unfold put in H; simplify_eq
  | H : modify _ _ = (_, Ok _) |- _ => unfold modify in H; simplify_eq
  end.

(** Run the first operation of a monadic computation: two goals, one where it
    returned [a] in state [s1], one where it failed (and so did the whole). *)
Tactic Notation "m_step" hyp(H) "as" simple_intropattern(s1) simple_intropattern(a)
    simple_intropattern(e) ident(E) :=
  match type of H with
  | (?m ≫= ?f) ?s = _ =>
    destruct (m s) as [s1 [a|e]] eqn:E;
    [ apply (eq_trans (eq_sym (M_bind_ok m f _ _ _ E))) in H; cbn beta in H
    | apply (eq_trans (eq_sym (M_bind_err m f _ _ _ E))) in H; simplify_eq ]
  end.

(** Split the first [match]/[if] of a hypothesis that is not yet decided. *)
Ltac split_hyp H :=
  match type of H with
  | context [match ?x with _ => _ end] =>
      lazymatch x with
      | context [match _ with _ => _ end] => fail
      | _ => destruct x eqn:?; simplify_eq/=
      end
  end.

(** ** Machine integers: [N] with the wrap-around of the width written out *)

Definition u8_max : N := 2^8.
Definition u16_max : N := 2^16.
Definition u32_max : N := 2^32.
Definition u64_max : N := 2^64.
(** [x as u16], [x as u32], [x as u64] of a wider integer *)
Definition as_u16 (n : N) : N := n mod 2^16.
Definition as_u32 (n : N) : N := n mod 2^32.
Definition as_u64 (n : N) : N := n mod 2^64.
(** [a + b] at width 64 and 32, in a release build (wrap-around). *)
Definition add_u64 (a b : N) : N := (a + b) mod 2^64.
Definition add_u32 (a b : N) : N := (a + b) mod 2^32.
(** [usize] is 64 bits wide; list lengths as machine integers. *)
Definition lenN {A} (l : list A) : N := N.of_nat (length l).

#[global] Arguments lenN : simpl never.
#[global] Arguments as_u16 : simpl never.
#[global] Arguments as_u32 : simpl never.
#[global] Arguments as_u64 : simpl never.
#[global] Arguments add_u64 : simpl never.
#[global] Arguments add_u32 : simpl never.

Lemma lenN_app {A} (l k : list A) : lenN (l ++ k) = lenN l + lenN k.
Proof. unfold lenN. rewrite length_app. lia. Qed.
Lemma lenN_cons {A} (x : A) l : lenN (x :: l) = 1 + lenN l.
Proof. unfold lenN. simpl. lia. Qed.
Lemma lenN_nil {A} : lenN (@nil A) = 0.
Proof. done. Qed.
Lemma lenN_take {A} n (l : list A) : n ≤ lenN l → lenN (take (N.to_nat n) l) = n.
Proof. unfold lenN. intros. rewrite length_take. lia. Qed.

Lemma as_u16_small n : n < 2^16 → as_u16 n = n.
Proof. apply N.mod_small. Qed.
Lemma as_u32_small n : n < 2^32 → as_u32 n = n.
Proof. apply N.mod_small. Qed.
Lemma as_u64_small n : n < 2^64 → as_u64 n = n.
Proof. apply N.mod_small. Qed.
Lemma add_u64_small a b : a + b < 2^64 → add_u64 a b = a + b.
Proof. apply N.mod_small. Qed.
Lemma add_u32_small a b : a + b < 2^32 → add_u32 a b = a + b.
Proof. apply N.mod_small. Qed.

Create Rewrite HintDb blaze_len.
Create Rewrite HintDb blaze_int.
#[export] Hint Rewrite @lenN_app @lenN_cons @lenN_nil : blaze_len.
#[export] Hint Rewrite as_u16_small as_u32_small as_u64_small add_u64_small
  add_u32_small using lia : blaze_int.

(** ** Stable sorting by a boolean comparison

    [slice::sort_by_key] and [slice::sort_by] are stable: equal elements keep
    their order. *)

Section sort_by.
Context {A : Type} (leb : A → A → bool).

Fixpoint insert_by (x : A) (l : list A) : list A :=
  match l with
  | [] => [x]
  | y :: l' => if leb x y then x :: l else y :: insert_by x l'
  end.

Definition sort_by (l : list A) : list A := foldr insert_by [] l.

Lemma insert_by_perm x l : insert_by x l ≡ₚ x :: l.
Proof.
  induction l as [|y l IH]; cbn; [done|]. destruct (leb x y); [done|].
  rewrite IH. apply Permutation_swap.
Qed.

Lemma sort_by_perm l : sort_by l ≡ₚ l.
Proof. induction l as [|x l IH]; cbn; [done|]. by rewrite insert_by_perm, IH. Qed.

Context (R : A → A → Prop) `{!Transitive R}.
Hypothesis leb_R : ∀ x y, leb x y = true → R x y.
Hypothesis leb_total : ∀ x y, leb x y = false → R y x.

Lemma insert_by_sorted x l : StronglySorted R l → StronglySorted R (insert_by x l).
Proof.
  induction l as [|y l IH]; cbn; [repeat constructor|].
  intros Hs. apply StronglySorted_inv in Hs as [Hs Hall].
  destruct (leb x y) eqn:Hle.
  - apply leb_R in Hle. constructor; [by constructor|]. constructor; [done|].
    eapply Forall_impl; [exact Hall|]. intros z Hz. by trans y.
  - apply leb_total in Hle. constructor; [by apply IH|].
    rewrite insert_by_perm. by constructor.
Qed.

Lemma sort_by_sorted l : StronglySorted R (sort_by l).
Proof. induction l; cbn; [constructor|]. by apply insert_by_sorted. Qed.

End sort_by.

Lemma Forall2_impl_elem {A B} (P Q : A → B → Prop) l k :
  Forall2 P l k → (∀ x y, x ∈ l → P x y → Q x y) → Forall2 Q l k.
Proof.
  induction 1 as [|x y l k Hxy _ IH]; intros HPQ; constructor.
  - apply HPQ; [apply list_elem_of_here|done].
  - apply IH. intros x' y' Hx'. apply HPQ. by apply list_elem_of_further.
Qed.

Lemma filter_ext_elem {A} (P Q : A → Prop) `{∀ x, Decision (P x), ∀ x, Decision (Q x)} (l : list A) :
  (∀ x, x ∈ l → P x ↔ Q x) → filter P l = filter Q l.
Proof.
  induction l as [|x l IH]; intros HPQ; [done|]. rewrite !filter_cons.
  rewrite IH by (intros y Hy; apply HPQ; by right).
  rewrite (decide_ext (P x) (Q x)); [done|]. apply HPQ. left.
Qed.

(** ** Iteration over hash maps and hash sets: any order *)

Class MapIter := { map_iter {K V} `{Countable K} : gmap K V → list (K * V) }.
Class MapIterLaws `{!MapIter} : Prop := {
  map_iter_perm {K V} `{Countable K} (m : gmap K V) : map_iter m ≡ₚ map_to_list m
}.
Class SetIter := { set_iter {K} `{Countable K} : gset K → list K }.
Class SetIterLaws `{!SetIter} : Prop := {
  set_iter_perm {K} `{Countable K} (X : gset K) : set_iter X ≡ₚ elements X
}.

Lemma elem_of_map_iter `{MapIterLaws} {K V} `{Countable K} (m : gmap K V) k v :
  (k, v) ∈ map_iter m ↔ m !! k = Some v.
Proof. rewrite map_iter_perm. apply elem_of_map_to_list. Qed.

Lemma elem_of_set_iter `{SetIterLaws} {K} `{Countable K} (X : gset K) k :
  k ∈ set_iter X ↔ k ∈ X.
Proof. rewrite set_iter_perm. apply elem_of_elements. Qed.

(** The order of the examples. *)
#[global] Instance Map_to_list_iter : MapIter := {| map_iter K V _ _ := map_to_list |}.
#[global] Instance Map_to_list_laws : MapIterLaws.
Proof. by split. Qed.
#[global] Instance Set_elements : SetIter := {| set_iter K _ _ := elements |}.
#[global] Instance Set_elements_laws : SetIterLaws.
Proof. by split. Qed.
