(* ===== verification/Bytes.v ===== *)
(** * Bytes: byte strings, 32-byte hashes, little- and big-endian integers,
    hexadecimal text and UTF-8 validity.

    These are the parts of Rust's standard library every component uses:
    [uN::to_le_bytes]/[from_le_bytes], [[u8; 32]] and its ordering,
    [format!] with [02x], [u8::from_str_radix] and [String::from_utf8]. *)

From S2P Require Import Prelude.
From Stdlib Require Strings.Byte.

(** ** Bytes *)

Abbreviation byte_val := Strings.Byte.to_N.

Definition byte_of (n : N) : byte := default x00 (Strings.Byte.of_N (n mod 256)).

Lemma byte_val_bound b : byte_val b < 256.
Proof. pose proof (Strings.Byte.to_N_bounded b). lia. Qed.

Lemma byte_val_of n : byte_val (byte_of n) = n mod 256.
Proof.
  unfold byte_of. pose proof (N.mod_lt n 256 ltac:(done)).
  destruct (Strings.Byte.of_N (n mod 256)) eqn:Hb; simpl.
  - by apply Strings.Byte.to_of_N.
  - apply Strings.Byte.of_N_None_iff in Hb. lia.
Qed.

Lemma byte_of_val b : byte_of (byte_val b) = b.
Proof.
  unfold byte_of. rewrite N.mod_small by apply byte_val_bound.
  by rewrite Strings.Byte.of_to_N.
Qed.

#[export] Instance byte_val_inj : Inj (=) (=) byte_val.
Proof. intros a b H. by rewrite <- (byte_of_val a), <- (byte_of_val b), H. Qed.

#[export] Instance byte_eq_dec : EqDecision byte := Strings.Byte.byte_eq_dec.
#[export] Program Instance byte_countable : Countable byte :=
  inj_countable' byte_val byte_of _.
Next Obligation. apply byte_of_val. Qed.

(** ** Little-endian integers *)

Fixpoint le_encode (k : nat) (n : N) : list byte :=
  match k with
  | O => []
  | S k => byte_of n :: le_encode k (n / 256)
  end.

Fixpoint le_decode (bs : list byte) : N :=
  match bs with
  | [] => 0
  | b :: bs => byte_val b + 256 * le_decode bs
  end.

Lemma le_encode_length k n : length (le_encode k n) = k.
Proof. revert n. induction k; simpl; auto. Qed.

Lemma le_decode_encode k n : le_decode (le_encode k n) = n mod 256 ^ N.of_nat k.
Proof.
  revert n. induction k as [|k IH]; intros n.
  - simpl. by rewrite N.mod_1_r.
  - cbn [le_encode le_decode]. rewrite IH, byte_val_of.
    rewrite Nat2N.inj_succ, N.pow_succ_r'.
    by rewrite N.Div0.mod_mul_r.
Qed.

Lemma le_decode_encode_small k n :
  n < 256 ^ N.of_nat k → le_decode (le_encode k n) = n.
Proof. intros. rewrite le_decode_encode. by apply N.mod_small. Qed.

Lemma le_decode_bound bs : le_decode bs < 256 ^ lenN bs.
Proof.
  induction bs as [|b bs IH]; [done|]. cbn [le_decode].
  rewrite lenN_cons, N.pow_add_r. pose proof (byte_val_bound b). lia.
Qed.

Lemma le_encode_decode bs : le_encode (length bs) (le_decode bs) = bs.
Proof.
  induction bs as [|b bs IH]; [done|]. cbn [length le_encode le_decode].
  pose proof (byte_val_bound b) as Hb. f_equal.
  - rewrite <- (byte_of_val b) at 2. unfold byte_of. do 2 f_equal.
    rewrite (N.mul_comm 256), N.Div0.mod_add. done.
  - rewrite (N.mul_comm 256), N.div_add by done.
    by rewrite N.div_small.
Qed.

Lemma le_encode_decode_k k bs : length bs = k → le_encode k (le_decode bs) = bs.
Proof. intros <-. apply le_encode_decode. Qed.

(** Big-endian: tokio's [write_u32]/[read_u64] use network order. *)
Definition be_encode (k : nat) (n : N) : list byte := reverse (le_encode k n).
Definition be_decode (bs : list byte) : N := le_decode (reverse bs).

Lemma be_encode_length k n : length (be_encode k n) = k.
Proof. unfold be_encode. by rewrite length_reverse, le_encode_length. Qed.

Lemma be_decode_encode_small k n :
  n < 256 ^ N.of_nat k → be_decode (be_encode k n) = n.
Proof.
  intros. unfold be_decode, be_encode. rewrite reverse_involutive.
  by apply le_decode_encode_small.
Qed.

#[export] Hint Rewrite le_encode_length be_encode_length : blaze_len.

#[global] Arguments le_encode : simpl never.
#[global] Arguments le_decode : simpl never.

(** ** 32-byte hashes: the type [[u8; 32]] *)

Definition HASH_LEN : nat := 32.

Record hash32 := Hash32 {
  hash_bytes : list byte;
  hash_len : bool_decide (length hash_bytes = HASH_LEN)
}.

Lemma hash_bytes_length h : length (hash_bytes h) = HASH_LEN.
Proof. destruct h as [bs Hbs]. simpl. by apply bool_decide_unpack in Hbs. Qed.

#[export] Instance hash_bytes_inj : Inj (=) (=) hash_bytes.
Proof.
  intros [b1 H1] [b2 H2]. simpl. intros ->. f_equal. apply proof_irrel.
Qed.

(** [<[u8; 32]>::try_from(slice)] *)
Definition hash_of (bs : list byte) : option hash32 :=
  match decide (length bs = HASH_LEN) with
  | left H => Some (Hash32 bs (bool_decide_pack _ H))
  | right _ => None
  end.

Lemma hash_of_Some bs h : hash_of bs = Some h ↔ hash_bytes h = bs.
Proof.
  unfold hash_of. destruct (decide _) as [Hl|Hl]; split; intros H.
  - by simplify_eq.
  - f_equal. by apply (inj hash_bytes).
  - done.
  - subst. pose proof (hash_bytes_length h). done.
Qed.

Lemma hash_of_bytes h : hash_of (hash_bytes h) = Some h.
Proof. by apply hash_of_Some. Qed.

Lemma hash_of_None bs : hash_of bs = None ↔ length bs ≠ HASH_LEN.
Proof. unfold hash_of. by destruct (decide _). Qed.

Lemma hash_of_is_Some bs : is_Some (hash_of bs) ↔ length bs = HASH_LEN.
Proof.
  unfold hash_of. destruct (decide _); split; intros H; try done; by destruct H.
Qed.

#[export] Instance hash32_eq_dec : EqDecision hash32.
Proof.
  refine (λ h1 h2, cast_if (decide (hash_bytes h1 = hash_bytes h2)));
    [by apply (inj hash_bytes) | congruence].
Defined.

#[export] Program Instance hash32_countable : Countable hash32 :=
  inj_countable hash_bytes hash_of _.
Next Obligation. intros h. apply hash_of_bytes. Qed.

(** [[b; 32]] *)
Definition hash_rep (b : byte) : hash32 := Hash32 (replicate HASH_LEN b) I.

(** The derived order on byte arrays and strings: lexicographic. *)
Fixpoint bytes_leb (xs ys : list byte) : bool :=
  match xs, ys with
  | [], _ => true
  | _ :: _, [] => false
  | x :: xs, y :: ys =>
      (byte_val x <? byte_val y) || ((byte_val x =? byte_val y) && bytes_leb xs ys)
  end.

Definition hash_le (h1 h2 : hash32) : Prop := bytes_leb (hash_bytes h1) (hash_bytes h2).
#[export] Instance hash_le_dec : RelDecision hash_le.
Proof. intros h1 h2. unfold hash_le. apply _. Defined.

Lemma bytes_leb_total xs ys : bytes_leb xs ys ∨ bytes_leb ys xs.
Proof.
  revert ys. induction xs as [|x xs IH]; intros [|y ys]; simpl; auto.
  destruct (N.ltb_spec (byte_val x) (byte_val y)); [by left|].
  destruct (N.ltb_spec (byte_val y) (byte_val x)); [by right|].
  assert (byte_val x = byte_val y) as -> by lia.
  rewrite N.eqb_refl. simpl. apply IH.
Qed.

Lemma bytes_leb_antisym xs ys : bytes_leb xs ys → bytes_leb ys xs → xs = ys.
Proof.
  revert ys. induction xs as [|x xs IH]; intros [|y ys]; simpl; try done.
  destruct (N.ltb_spec (byte_val x) (byte_val y)) as [|Hxy];
  destruct (N.ltb_spec (byte_val y) (byte_val x)) as [|Hyx]; simpl.
  - lia.
  - destruct (N.eqb_spec (byte_val y) (byte_val x)); simpl; [lia|done].
  - destruct (N.eqb_spec (byte_val x) (byte_val y)); simpl; [lia|done].
  - assert (x = y) as -> by (apply (inj byte_val); lia).
    rewrite N.eqb_refl. simpl. intros. f_equal. auto.
Qed.

Lemma bytes_leb_trans xs ys zs : bytes_leb xs ys → bytes_leb ys zs → bytes_leb xs zs.
Proof.
  revert ys zs. induction xs as [|x xs IH]; intros [|y ys] [|z zs]; simpl; try done.
  destruct (N.ltb_spec (byte_val x) (byte_val y));
  destruct (N.ltb_spec (byte_val y) (byte_val z));
  destruct (N.ltb_spec (byte_val x) (byte_val z));
  destruct (N.eqb_spec (byte_val x) (byte_val y));
  destruct (N.eqb_spec (byte_val y) (byte_val z));
  destruct (N.eqb_spec (byte_val x) (byte_val z)); simpl; try done; try lia.
  apply IH.
Qed.

#[export] Instance hash_le_total : Total hash_le.
Proof. intros h1 h2. apply bytes_leb_total. Qed.
#[export] Instance hash_le_trans : Transitive hash_le.
Proof. intros h1 h2 h3. apply bytes_leb_trans. Qed.
#[export] Instance hash_le_antisym : AntiSymm (=) hash_le.
Proof. intros h1 h2 ??. apply (inj hash_bytes). by apply bytes_leb_antisym. Qed.
#[export] Instance hash_le_refl : Reflexive hash_le.
Proof. intros h. by destruct (bytes_leb_total (hash_bytes h) (hash_bytes h)). Qed.

(** [hashes.sort()] *)
Definition sort_hashes (l : list hash32) : list hash32 := merge_sort hash_le l.

Lemma sort_hashes_perm l : sort_hashes l ≡ₚ l.
Proof. apply merge_sort_Permutation. Qed.
Lemma sort_hashes_sorted l : StronglySorted hash_le (sort_hashes l).
Proof. apply (StronglySorted_merge_sort _). Qed.
Lemma elem_of_sort_hashes l h : h ∈ sort_hashes l ↔ h ∈ l.
Proof. by rewrite sort_hashes_perm. Qed.
Lemma NoDup_sort_hashes l : NoDup (sort_hashes l) ↔ NoDup l.
Proof. by rewrite sort_hashes_perm. Qed.
Lemma length_sort_hashes l : length (sort_hashes l) = length l.
Proof. by rewrite sort_hashes_perm. Qed.

(** Sorting a set gives one list whatever the iteration order was. *)
Lemma sort_hashes_unique l k : l ≡ₚ k → sort_hashes l = sort_hashes k.
Proof.
  intros H. apply (StronglySorted_unique hash_le); try apply sort_hashes_sorted.
  by rewrite !sort_hashes_perm.
Qed.

(** ** Text as bytes *)

Definition str_bytes (s : string) : list byte := list_byte_of_string s.
Definition bytes_str (bs : list byte) : string := string_of_list_byte bs.

#[global] Arguments str_bytes : simpl never.
#[global] Arguments bytes_str : simpl never.

Lemma bytes_str_bytes s : bytes_str (str_bytes s) = s.
Proof. apply string_of_list_byte_of_string. Qed.
Lemma str_bytes_str bs : str_bytes (bytes_str bs) = bs.
Proof. apply list_byte_of_string_of_list_byte. Qed.
#[export] Instance str_bytes_inj : Inj (=) (=) str_bytes.
Proof. intros a b H. by rewrite <- (bytes_str_bytes a), <- (bytes_str_bytes b), H. Qed.

(** The order of [String] and of redb's [String] keys: bytewise. *)
Definition str_le (a b : string) : Prop := bytes_leb (str_bytes a) (str_bytes b).
#[export] Instance str_le_dec : RelDecision str_le.
Proof. intros a b. unfold str_le. apply _. Defined.
#[export] Instance str_le_total : Total str_le.
Proof. intros a b. apply bytes_leb_total. Qed.
#[export] Instance str_le_trans : Transitive str_le.
Proof. intros a b c. apply bytes_leb_trans. Qed.
#[export] Instance str_le_antisym : AntiSymm (=) str_le.
Proof. intros a b ??. apply (inj str_bytes). by apply bytes_leb_antisym. Qed.

Definition sort_strings (l : list string) : list string := merge_sort str_le l.

Lemma sort_strings_perm l : sort_strings l ≡ₚ l.
Proof. apply merge_sort_Permutation. Qed.
Lemma sort_strings_sorted l : StronglySorted str_le (sort_strings l).
Proof. apply (StronglySorted_merge_sort _). Qed.

(** ** UTF-8 validity, as [String::from_utf8] checks it *)

Definition in_range (lo hi : N) (b : byte) : bool :=
  (lo <=? byte_val b) && (byte_val b <=? hi).
Definition utf8_cont (b : byte) : bool := in_range 0x80 0xBF b.

Fixpoint utf8_valid (bs : list byte) : bool :=
  match bs with
  | [] => true
  | b0 :: bs =>
    if byte_val b0 <? 0x80 then utf8_valid bs
    else if in_range 0xC2 0xDF b0 then
      match bs with
      | b1 :: bs => utf8_cont b1 && utf8_valid bs
      | _ => false
      end
    else if in_range 0xE0 0xEF b0 then
      match bs with
      | b1 :: b2 :: bs =>
        (if byte_val b0 =? 0xE0 then in_range 0xA0 0xBF b1
         else if byte_val b0 =? 0xED then in_range 0x80 0x9F b1
         else utf8_cont b1) && utf8_cont b2 && utf8_valid bs
      | _ => false
      end
    else if in_range 0xF0 0xF4 b0 then
      match bs with
      | b1 :: b2 :: b3 :: bs =>
        (if byte_val b0 =? 0xF0 then in_range 0x90 0xBF b1
         else if byte_val b0 =? 0xF4 then in_range 0x80 0x8F b1
         else utf8_cont b1) && utf8_cont b2 && utf8_cont b3 && utf8_valid bs
      | _ => false
      end
    else false
  end.

Example utf8_valid_cjk : utf8_valid (str_bytes "目录/b.bin") = true.
Proof. reflexivity. Qed.
Example utf8_invalid_ff : utf8_valid [xff] = false.
Proof. reflexivity. Qed.
Example utf8_invalid_surrogate : utf8_valid [xed; xa0; x80] = false.
Proof. reflexivity. Qed.

(** ** Hexadecimal text: [format!("{b:02x}")] and [u8::from_str_radix(_, 16)] *)

Definition hex_digit (n : N) : ascii :=
  match n with
  | 0 => "0" | 1 => "1" | 2 => "2" | 3 => "3" | 4 => "4" | 5 => "5" | 6 => "6"
  | 7 => "7" | 8 => "8" | 9 => "9" | 10 => "a" | 11 => "b" | 12 => "c"
  | 13 => "d" | 14 => "e" | _ => "f"
  end%char.

Fixpoint hex (bs : list byte) : string :=
  match bs with
  | [] => EmptyString
  | b :: bs =>
      String (hex_digit (byte_val b / 16)) (String (hex_digit (byte_val b mod 16)) (hex bs))
  end.

(** [char::to_digit(16)] *)
Definition digit_val (c : ascii) : option N :=
  let n := N_of_ascii c in
  if (48 <=? n) && (n <=? 57) then Some (n - 48)
  else if (97 <=? n) && (n <=? 102) then Some (n - 87)
  else if (65 <=? n) && (n <=? 70) then Some (n - 55)
  else None.

Fixpoint radix16_loop (acc : N) (s : string) : option N :=
  match s with
  | EmptyString => Some acc
  | String c s =>
      d ← digit_val c;
      let acc := acc * 16 + d in
      if acc <? 256 then radix16_loop acc s else None
  end.

(** A lone sign is an error, a leading plus is skipped. *)
Definition u8_from_str_radix16 (s : string) : option N :=
  match s with
  | EmptyString => None
  | String c EmptyString => radix16_loop 0 s
  | String c s' => if ascii_dec c "+" then radix16_loop 0 s' else radix16_loop 0 s
  end.

Lemma digit_val_hex n : n < 16 → digit_val (hex_digit n) = Some n.
Proof.
  intros Hn. destruct n as [|p]; [done|].
  do 4 (destruct p as [p|p|]; try reflexivity; try lia).
Qed.

Lemma from_str_radix16_hex b :
  u8_from_str_radix16 (hex [b]) = Some (byte_val b).
Proof. destruct b; vm_compute; reflexivity. Qed.

Lemma hex_length bs : String.length (hex bs) = (2 * length bs)%nat.
Proof. induction bs as [|b bs IH]; simpl; lia. Qed.

Lemma hex_inj bs1 bs2 : hex bs1 = hex bs2 → bs1 = bs2.
Proof.
  revert bs2. induction bs1 as [|b1 bs1 IH]; intros [|b2 bs2]; simpl; try done.
  intros H. injection H as H1 H2 H3. f_equal; [|by apply IH].
  assert (hex [b1] = hex [b2]) as Hb by (simpl; congruence).
  apply (f_equal u8_from_str_radix16) in Hb.
  rewrite !from_str_radix16_hex in Hb. by simplify_eq.
Qed.
Lemma hex_app a b : hex (a ++ b) = (hex a ++ hex b)%string.
Proof. induction a as [|x a IH]; [done|]. simpl. by rewrite IH. Qed.
#[export] Instance hex_Inj : Inj (=) (=) hex := hex_inj.

(** [{n:016x}]: at least sixteen hexadecimal digits, exactly sixteen below 2^64. *)
Definition hex16 (n : N) : string := hex (be_encode 8 n).

Lemma hex16_inj a b : a < 2^64 → b < 2^64 → hex16 a = hex16 b → a = b.
Proof.
  intros Ha Hb H%hex_inj%(f_equal be_decode).
  by rewrite !be_decode_encode_small in H.
Qed.

(** [&text[i..j]]: [None] is the panic of a slice out of range or inside a
    character. *)
Definition char_boundary (bs : list byte) (i : nat) : bool :=
  match bs !! i with
  | Some b => negb (utf8_cont b)
  | None => Nat.eqb i (length bs)
  end.

Definition str_slice (s : string) (i j : nat) : option string :=
  let bs := str_bytes s in
  if Nat.leb i j && char_boundary bs i && char_boundary bs j
  then Some (bytes_str (take (j - i) (drop i bs))) else None.

(** A concrete digest for the witnesses: a polynomial of the bytes in 32
    little-endian bytes.  The theorems take BLAKE3 as a parameter. *)
Definition toy_digest (bs : list byte) : N :=
  foldr (λ b acc, acc * 257 + byte_val b + 1) 0 bs.

Definition toy_hash (bs : list byte) : hash32 :=
  Hash32 (le_encode HASH_LEN (toy_digest bs))
    (bool_decide_pack _ (le_encode_length HASH_LEN (toy_digest bs))).
