(* ===== verification/Text.v ===== *)
(** * Text: decimal numbers and prefixes of strings

    [u64::to_string], [str::parse::<u64>] and [str::strip_prefix] of Rust's
    standard library, with their round trips. *)

From stdpp Require Import pretty.
From S2P Require Import Prelude Bytes.

(** [n.to_string()] *)
Definition dec (n : N) : string := pretty n.

(** A decimal digit. *)
Definition digit10 (c : ascii) : option N :=
  let n := N_of_ascii c in
  if (48 <=? n) && (n <=? 57) then Some (n - 48) else None.

(** Reading digits into an accumulator: [None] on another character or past [max]. *)
Fixpoint read_digits (max acc : N) (s : string) : option N :=
  match s with
  | EmptyString => Some acc
  | String c s =>
    d ← digit10 c;
    let acc := acc * 10 + d in
    if acc <? max then read_digits max acc s else None
  end.

(** [s.parse::<uN>()]: one leading plus is accepted, a lone sign is not. *)
Definition parse_uint (max : N) (s : string) : option N :=
  match s with
  | EmptyString => None
  | String "+" EmptyString => None
  | String "+" s' => read_digits max 0 s'
  | _ => read_digits max 0 s
  end.

Definition parse_u64 : string → option N := parse_uint (2^64).
Definition parse_u16 : string → option N := parse_uint (2^16).

(** [s.strip_prefix(p)] *)
Fixpoint strip_prefix (p s : string) {struct p} : option string :=
  match p, s with
  | EmptyString, _ => Some s
  | String c p, String d s => if ascii_dec c d then strip_prefix p s else None
  | String _ _, EmptyString => None
  end.

Lemma strip_prefix_app p s : strip_prefix p (p ++ s)%string = Some s.
Proof.
  induction p as [|c p IH]; simpl; [by destruct s|]. by destruct (ascii_dec c c).
Qed.

Lemma strip_prefix_Some p s r : strip_prefix p s = Some r → s = (p ++ r)%string.
Proof.
  revert s. induction p as [|c p IH]; intros [|d s]; simpl; try (intros; simplify_eq; done).
  destruct (ascii_dec c d) as [->|]; [|done]. intros Hs. by rewrite (IH _ Hs).
Qed.

Lemma string_app_inj_l (p a b : string) : (p ++ a = p ++ b)%string → a = b.
Proof. induction p as [|c p IH]; simpl; [done|]. intros [= H]. auto. Qed.

Lemma string_length_app (a b : string) :
  String.length (a ++ b) = (String.length a + String.length b)%nat.
Proof. induction a as [|x a IH]; [done|]. exact (f_equal S IH). Qed.

Lemma string_app_inj_r (p a b : string) : (a ++ p = b ++ p)%string → a = b.
Proof.
  revert b. induction a as [|x a IH]; intros [|y b] Heq; [done| | |].
  - apply (f_equal String.length) in Heq. rewrite !string_length_app in Heq. cbn in Heq. lia.
  - apply (f_equal String.length) in Heq. rewrite !string_length_app in Heq. cbn in Heq. lia.
  - injection Heq as -> Heq. by rewrite (IH b Heq).
Qed.

Lemma string_app_assoc (a b c : string) : ((a ++ b) ++ c = a ++ b ++ c)%string.
Proof. induction a as [|x a IH]; cbn; [done|]. exact (f_equal (String x) IH). Qed.

(** ** Decimal round trip *)

Lemma div10 n : n ≠ 0 → n / 10 < n ∧ n mod 10 < 10 ∧ n / 10 * 10 + n mod 10 = n.
Proof.
  intros Hn. split_and!.
  - apply N.div_lt; lia.
  - by apply N.mod_lt.
  - rewrite N.mul_comm. symmetry. by apply N.div_mod.
Qed.

Lemma digit10_pretty d : d < 10 → digit10 (pretty_N_char d) = Some d.
Proof.
  intros Hd. destruct d as [|p]; [done|].
  do 4 (destruct p as [p|p|]; try reflexivity; try lia).
Qed.

Lemma read_digits_pretty max n s :
  n < max → read_digits max 0 (pretty_N_go n s) = read_digits max n s.
Proof.
  revert s. induction (N.lt_wf_0 n) as [n _ IH]; intros s Hn.
  destruct (decide (n = 0)) as [->|Hz]; [by rewrite pretty_N_go_0|].
  rewrite pretty_N_go_step by lia.
  destruct (div10 n Hz) as (Hlt & Hm & Heq).
  rewrite IH; [|done|by trans n]. simpl. rewrite digit10_pretty by done. simpl. rewrite Heq.
  by rewrite (proj2 (N.ltb_lt n max)).
Qed.

(** The head of a decimal is a digit, never a sign. *)
Lemma pretty_N_go_head n c s :
  is_Some (digit10 c) → ∃ d s', pretty_N_go n (String c s) = String d s' ∧ is_Some (digit10 d).
Proof.
  revert c s. induction (N.lt_wf_0 n) as [n _ IH]; intros c s Hc.
  destruct (decide (n = 0)) as [->|Hz]; [rewrite pretty_N_go_0; eauto|].
  rewrite pretty_N_go_step by lia. destruct (div10 n Hz) as (Hlt & Hm & _).
  apply IH; [done|]. rewrite digit10_pretty by done. eauto.
Qed.

Lemma dec_head n : ∃ d s, dec n = String d s ∧ is_Some (digit10 d).
Proof.
  unfold dec, pretty, pretty_N. case_decide as Hn; [by eexists _, _|].
  rewrite pretty_N_go_step by lia. apply pretty_N_go_head.
  rewrite digit10_pretty; [eauto|]. apply N.mod_lt. lia.
Qed.

Lemma parse_uint_dec max n : n < max → parse_uint max (dec n) = Some n.
Proof.
  intros Hn. assert (read_digits max 0 (dec n) = Some n) as Hr.
  { unfold dec, pretty, pretty_N. case_decide as Hz.
    - subst. by destruct max.
    - by rewrite read_digits_pretty. }
  destruct (dec_head n) as (d & s & Hd & [x Hx]). rewrite Hd in *.
  destruct (ascii_dec d "+") as [->|Hp]; [done|].
  unfold parse_uint. destruct d as [[] [] [] [] [] [] [] []]; try exact Hr. done.
Qed.

Lemma parse_u64_dec n : n < 2^64 → parse_u64 (dec n) = Some n.
Proof. apply parse_uint_dec. Qed.

Lemma dec_inj a b : dec a = dec b → a = b.
Proof. unfold dec. intros H. by apply (inj pretty). Qed.
#[global] Instance dec_Inj : Inj (=) (=) dec := dec_inj.

Lemma read_digits_lt max acc s n : acc < max → read_digits max acc s = Some n → n < max.
Proof.
  revert acc. induction s as [|c s IH]; intros acc Ha; simpl; [congruence|].
  destruct (digit10 c) as [d|]; simpl; [|done].
  destruct (N.ltb_spec (acc * 10 + d) max); [|done]. by apply IH.
Qed.

Lemma parse_uint_lt max s n : 0 < max → parse_uint max s = Some n → n < max.
Proof.
  intros Hm. unfold parse_uint. destruct s as [|c s]; [done|].
  intros Hp. destruct c as [[] [] [] [] [] [] [] []]; try (by eapply read_digits_lt).
  destruct s; [done|]. by eapply read_digits_lt.
Qed.

(** No decimal contains a separator. *)
Fixpoint has_char (c : ascii) (s : string) : bool :=
  match s with EmptyString => false | String d s => bool_decide (c = d) || has_char c s end.

Lemma pretty_N_go_no_char n c s :
  digit10 c = None → has_char c (pretty_N_go n s) = has_char c s.
Proof.
  intros Hc. revert s. induction (N.lt_wf_0 n) as [n _ IH]; intros s.
  destruct (decide (n = 0)) as [->|Hz]; [by rewrite pretty_N_go_0|].
  rewrite pretty_N_go_step by lia. destruct (div10 n Hz) as (Hlt & Hm & _).
  rewrite IH by done. simpl. rewrite bool_decide_eq_false_2; [done|].
  intros ->. by rewrite digit10_pretty in Hc by done.
Qed.

Lemma dec_no_char n c : digit10 c = None → has_char c (dec n) = false.
Proof.
  intros Hc. unfold dec, pretty, pretty_N. case_decide as Hz.
  - simpl. rewrite bool_decide_eq_false_2; [done|]. by intros ->.
  - by rewrite pretty_N_go_no_char.
Qed.

(** A separator splits a string in one way. *)
Lemma split_at_inj c a1 a2 b1 b2 :
  has_char c a1 = false → has_char c a2 = false →
  (a1 ++ String c b1 = a2 ++ String c b2)%string → a1 = a2 ∧ b1 = b2.
Proof.
  revert a2. induction a1 as [|d a1 IH]; intros [|e a2]; simpl; intros H1 H2 [= Heq].
  - done.
  - subst. rewrite bool_decide_eq_true_2 in H2 by done. done.
  - subst. rewrite bool_decide_eq_true_2 in H1 by done. done.
  - subst. apply orb_false_iff in H1 as [_ H1], H2 as [_ H2].
    destruct (IH a2 H1 H2 ltac:(done)) as [-> ->]. done.
Qed.
