(* ===== verification/Manifest.v ===== *)
(** * Manifest: the version manifest (.gameindex), crates/blaze-common/src/manifest.rs

    [GameIndex] with its byte format: [build], [encode], [decode],
    [chunk_set].  BLAKE3 is third-party code: a parameter of the section. *)

From S2P Require Import Prelude Bytes.

(** ** Data *)

Definition MAGIC : list byte := str_bytes "BLZGI".
Definition FORMAT_VERSION : N := 1.

Record ChunkMeta := mkChunk { ck_hash : hash32; ck_len : N }.

Record FileEntry := mkFile {
  fe_name : string;
  fe_file_hash : hash32;
  fe_chunks : list ChunkMeta
}.

Record GameIndex := mkIndex {
  gi_format_version : N;
  gi_files : list FileEntry;
  gi_manifest_hash : hash32
}.

#[export] Instance ChunkMeta_eq_dec : EqDecision ChunkMeta.
Proof. solve_decision. Defined.
#[export] Instance FileEntry_eq_dec : EqDecision FileEntry.
Proof. solve_decision. Defined.
#[export] Instance GameIndex_eq_dec : EqDecision GameIndex.
Proof. solve_decision. Defined.

(** The values the Rust types hold: a [u32] length, a [String] name; and the
    counts that fit the format's length fields. *)
Definition wf_chunk (c : ChunkMeta) : Prop := ck_len c < 2^32.
Definition wf_file (f : FileEntry) : Prop :=
  utf8_valid (str_bytes (fe_name f)) = true ∧
  lenN (str_bytes (fe_name f)) < 2^16 ∧
  lenN (fe_chunks f) < 2^32 ∧ Forall wf_chunk (fe_chunks f).
Definition wf_files (fs : list FileEntry) : Prop :=
  lenN fs < 2^32 ∧ Forall wf_file fs.

(** ** Encoding *)

Definition encode_chunk (c : ChunkMeta) : list byte :=
  hash_bytes (ck_hash c) ++ le_encode 4 (ck_len c).

Definition encode_file (f : FileEntry) : list byte :=
  let name := str_bytes (fe_name f) in
  le_encode 2 (as_u16 (lenN name)) ++ name ++ hash_bytes (fe_file_hash f) ++
  le_encode 4 (as_u32 (lenN (fe_chunks f))) ++
  concat (map encode_chunk (fe_chunks f)).

Definition encode_body (i : GameIndex) : list byte :=
  MAGIC ++ le_encode 2 (gi_format_version i) ++ le_encode 2 0 ++
  le_encode 4 (as_u32 (lenN (gi_files i))) ++
  concat (map encode_file (gi_files i)).

Definition encode (i : GameIndex) : list byte :=
  encode_body i ++ hash_bytes (gi_manifest_hash i).

(** ** Decoding: a cursor over the bytes not read yet *)

Abbreviation cursor := (M (list byte) error).

Definition read_exact (n : nat) : cursor (list byte) := λ s,
  if Nat.leb n (length s) then (drop n s, Ok (take n s))
  else ([], Err ["failed to fill whole buffer"%string]).

Definition read_u16 : cursor N := buf ← read_exact 2; mret (le_decode buf).
Definition read_u32 : cursor N := buf ← read_exact 4; mret (le_decode buf).

(** [let mut hash = [0u8; 32]; cursor.read_exact(&mut hash)?] *)
Definition read_hash : cursor hash32 :=
  buf ← read_exact HASH_LEN; lift (ok_or [] (hash_of buf)).

Definition read_chunk_meta : cursor ChunkMeta :=
  hash ← read_hash;
  len ← read_u32;
  mret (mkChunk hash len).

(** [for _ in 0..count { out.push(body) }] *)
Fixpoint read_many {A} (p : cursor A) (count : nat) : cursor (list A) :=
  match count with
  | O => mret []
  | S count => x ← p; xs ← read_many p count; mret (x :: xs)
  end.

Definition from_utf8 (bs : list byte) : result error string :=
  if utf8_valid bs then Ok (bytes_str bs) else bail "文件名不是 UTF-8".

Definition read_file_entry : cursor FileEntry :=
  name_len ← read_u16;
  name_bytes ← read_exact (N.to_nat name_len);
  name ← lift (from_utf8 name_bytes);
  file_hash ← read_hash;
  chunk_count ← read_u32;
  chunks ← read_many read_chunk_meta (N.to_nat chunk_count);
  mret (mkFile name file_hash chunks).

Definition decode_body : cursor (N * N * list FileEntry) :=
  magic ← read_exact (length MAGIC);
  (if decide (magic = MAGIC) then mret () else throw ["清单 magic 错误"%string]);;
  format_version ← read_u16;
  flags ← read_u16;
  file_count ← read_u32;
  files ← read_many read_file_entry (N.to_nat file_count);
  mret (format_version, flags, files).

Definition MIN_LEN : nat := length MAGIC + 2 + 2 + 4 + HASH_LEN.

Section blake3.
Context (blake3 : list byte → hash32).

Definition build (files : list FileEntry) : GameIndex :=
  let index := mkIndex FORMAT_VERSION files (hash_rep x00) in
  mkIndex FORMAT_VERSION files (blake3 (encode_body index)).

(** [decode] after [split_at]: parse the body, then check the tail. *)
Definition decode_parts (body tail : list byte) : result error GameIndex :=
  match decode_body body with
  | (_, Err e) => Err e
  | (rest, Ok (format_version, _, files)) =>
    if decide (rest ≠ []) then bail "清单存在多余数据" else
    manifest_hash ← ok_or [] (hash_of tail);
    if decide (blake3 body ≠ manifest_hash) then bail "清单哈希校验失败" else
    mret (mkIndex format_version files manifest_hash)
  end.

Definition decode (bytes : list byte) : result error GameIndex :=
  if Nat.ltb (length bytes) MIN_LEN then bail "清单长度不足" else
  decode_parts (take (length bytes - HASH_LEN) bytes)
    (drop (length bytes - HASH_LEN) bytes).

End blake3.

(** The set of chunk hashes a manifest refers to. *)
Definition chunk_list (i : GameIndex) : list hash32 :=
  flat_map (λ f, map ck_hash (fe_chunks f)) (gi_files i).
Definition chunk_set (i : GameIndex) : gset hash32 := list_to_set (chunk_list i).

Lemma elem_of_chunk_set i h : h ∈ chunk_set i ↔ h ∈ chunk_list i.
Proof. apply elem_of_list_to_set. Qed.

Lemma elem_of_chunk_list i h :
  h ∈ chunk_list i ↔ ∃ f c, f ∈ gi_files i ∧ c ∈ fe_chunks f ∧ h = ck_hash c.
Proof.
  unfold chunk_list. rewrite list_elem_of_In, in_flat_map.
  setoid_rewrite in_map_iff. setoid_rewrite list_elem_of_In.
  naive_solver.
Qed.

(** ** A parser and its printer are inverse to each other *)

Record codec {A} (p : cursor A) (enc : A → list byte) (wf : A → Prop) : Prop := {
  codec_parse x rest : wf x → p (enc x ++ rest) = (rest, Ok x);
  codec_print s s' x : p s = (s', Ok x) → wf x ∧ s = enc x ++ s'
}.

Lemma read_exact_app n bs rest :
  length bs = n → read_exact n (bs ++ rest) = (rest, Ok bs).
Proof.
  intros <-. unfold read_exact. rewrite length_app.
  rewrite (proj2 (Nat.leb_le _ _)) by lia.
  by rewrite drop_app_length, take_app_length.
Qed.

Lemma read_exact_inv n s s' bs :
  read_exact n s = (s', Ok bs) → length bs = n ∧ s = bs ++ s'.
Proof.
  unfold read_exact. destruct (Nat.leb_spec n (length s)); intros; simplify_eq.
  by rewrite length_take, take_drop, Nat.min_l by lia.
Qed.

Lemma codec_exact n : codec (read_exact n) id (λ bs, length bs = n).
Proof.
  split; [intros; by apply read_exact_app | intros; by apply read_exact_inv].
Qed.

Lemma read_uint_parse k n rest :
  n < 256 ^ N.of_nat k →
  (buf ← read_exact k; mret (le_decode buf)) (le_encode k n ++ rest) = (rest, Ok n).
Proof.
  intros. erewrite M_bind_ok by (apply read_exact_app, le_encode_length).
  cbn. by rewrite le_decode_encode_small.
Qed.

Lemma read_uint_print k s s' n :
  (buf ← read_exact k; mret (le_decode buf)) s = (s', Ok n) →
  n < 256 ^ N.of_nat k ∧ s = le_encode k n ++ s'.
Proof.
  intros H. inv_ok. apply read_exact_inv in H0 as [<- ->].
  split; [apply le_decode_bound | by rewrite le_encode_decode].
Qed.

Lemma codec_u16 : codec read_u16 (le_encode 2) (λ n, n < 2^16).
Proof. split; [apply (read_uint_parse 2) | apply (read_uint_print 2)]. Qed.
Lemma codec_u32 : codec read_u32 (le_encode 4) (λ n, n < 2^32).
Proof. split; [apply (read_uint_parse 4) | apply (read_uint_print 4)]. Qed.

Lemma codec_hash : codec read_hash hash_bytes (λ _, True).
Proof.
  split; unfold read_hash.
  - intros h rest _. erewrite M_bind_ok by (apply read_exact_app, hash_bytes_length).
    unfold lift. by rewrite hash_of_bytes.
  - intros s s' h H. inv_ok. apply read_exact_inv in H0 as [_ ->].
    unfold ok_or in H. destruct (hash_of x0) eqn:Hh; simplify_eq.
    by apply hash_of_Some in Hh as <-.
Qed.

Lemma codec_chunk : codec read_chunk_meta encode_chunk wf_chunk.
Proof.
  split; unfold read_chunk_meta, encode_chunk.
  - intros [h n] rest Hwf. rewrite <- app_assoc.
    rewrite (M_bind_ok _ _ _ _ _ (codec_parse _ _ _ codec_hash h _ I)). cbn.
    by rewrite (M_bind_ok _ _ _ _ _ (codec_parse _ _ _ codec_u32 n _ Hwf)).
  - intros s s' c H. inv_ok.
    apply (codec_print _ _ _ codec_hash) in H0 as [_ ->].
    apply (codec_print _ _ _ codec_u32) in H1 as [Hn ->].
    split; [done|]. simpl. by rewrite <- app_assoc.
Qed.

Section codec_many.
Context {A} (p : cursor A) (enc : A → list byte) (wf : A → Prop).
Hypothesis Hp : codec p enc wf.

Lemma read_many_parse xs rest :
  Forall wf xs → read_many p (length xs) (concat (map enc xs) ++ rest) = (rest, Ok xs).
Proof.
  intros Hxs. induction Hxs as [|x xs Hx _ IH]; [done|]. simpl.
  rewrite <- app_assoc, (M_bind_ok _ _ _ _ _ (codec_parse _ _ _ Hp x _ Hx)).
  by rewrite (M_bind_ok _ _ _ _ _ IH).
Qed.

Lemma read_many_print n s s' xs :
  read_many p n s = (s', Ok xs) →
  length xs = n ∧ Forall wf xs ∧ s = concat (map enc xs) ++ s'.
Proof.
  revert s s' xs. induction n as [|n IH]; intros s s' xs H; simpl in H; inv_ok.
  - done.
  - apply (codec_print _ _ _ Hp) in H0 as [Hx ->].
    apply IH in H1 as (<- & Hxs & ->). simpl. rewrite <- app_assoc. auto.
Qed.
End codec_many.

Lemma from_utf8_Ok bs name :
  from_utf8 bs = Ok name ↔ utf8_valid bs = true ∧ str_bytes name = bs.
Proof.
  unfold from_utf8. destruct (utf8_valid bs); split; intros H; try done.
  - simplify_eq. by rewrite str_bytes_str.
  - destruct H as [_ <-]. by rewrite bytes_str_bytes.
  - by destruct H.
Qed.

Lemma codec_file : codec read_file_entry encode_file wf_file.
Proof.
  split; unfold read_file_entry, encode_file.
  - intros [name h chunks] rest (Hutf & Hname & Hcount & Hchunks). cbn in *.
    rewrite as_u16_small, as_u32_small by done. rewrite <- !app_assoc.
    rewrite (M_bind_ok _ _ _ _ _ (codec_parse _ _ _ codec_u16 _ _ Hname)).
    erewrite M_bind_ok by (apply read_exact_app; unfold lenN; lia).
    erewrite M_bind_ok by (unfold lift; by rewrite (proj2 (from_utf8_Ok _ name))).
    rewrite (M_bind_ok _ _ _ _ _ (codec_parse _ _ _ codec_hash h _ I)).
    rewrite (M_bind_ok _ _ _ _ _ (codec_parse _ _ _ codec_u32 _ _ Hcount)).
    unfold lenN at 1. rewrite Nat2N.id.
    by rewrite (M_bind_ok _ _ _ _ _ (read_many_parse _ _ _ codec_chunk _ _ Hchunks)).
  - intros s s' f H. inv_ok.
    apply (codec_print _ _ _ codec_u16) in H0 as [Hn ->].
    apply read_exact_inv in H1 as [Hlen ->].
    match goal with Hu : from_utf8 _ = Ok ?n |- _ =>
      rename n into name; apply from_utf8_Ok in Hu as [Hutf <-] end.
    apply (codec_print _ _ _ codec_hash) in H3 as [_ ->].
    apply (codec_print _ _ _ codec_u32) in H4 as [Hc ->].
    apply (read_many_print _ _ _ codec_chunk) in H5 as (Hk & Hcs & ->).
    assert (lenN (str_bytes name) = x0) as Hn' by (unfold lenN; lia).
    match type of Hcs with Forall _ ?cs =>
      assert (lenN cs = x8) as Hk' by (unfold lenN; lia) end.
    unfold wf_file. cbn. rewrite Hn', Hk', as_u16_small, as_u32_small by done.
    by rewrite <- !app_assoc.
Qed.

Lemma decode_body_parse v fs h rest :
  v < 2^16 → wf_files fs →
  decode_body (encode_body (mkIndex v fs h) ++ rest) = (rest, Ok (v, 0, fs)).
Proof.
  intros Hv [Hn Hfs]. unfold decode_body, encode_body. simpl gi_format_version.
  simpl gi_files. rewrite <- !app_assoc, as_u32_small by done.
  erewrite M_bind_ok by (by apply read_exact_app).
  rewrite decide_True by done. erewrite M_bind_ok by done.
  rewrite (M_bind_ok _ _ _ _ _ (codec_parse _ _ _ codec_u16 _ _ Hv)).
  rewrite (M_bind_ok _ _ _ _ _ (codec_parse _ _ _ codec_u16 0 _ ltac:(done))).
  rewrite (M_bind_ok _ _ _ _ _ (codec_parse _ _ _ codec_u32 _ _ Hn)).
  unfold lenN at 1. rewrite Nat2N.id.
  by rewrite (M_bind_ok _ _ _ _ _ (read_many_parse _ _ _ codec_file _ _ Hfs)).
Qed.

Lemma decode_body_print s s' v flags fs :
  decode_body s = (s', Ok (v, flags, fs)) →
  v < 2^16 ∧ flags < 2^16 ∧ wf_files fs ∧
  s = MAGIC ++ le_encode 2 v ++ le_encode 2 flags ++ le_encode 4 (lenN fs) ++
      concat (map encode_file fs) ++ s'.
Proof.
  unfold decode_body. intros H. inv_ok.
  apply read_exact_inv in H0 as [_ ->].
  destruct (decide (x0 = MAGIC)) as [->|]; [|done]. inv_ok.
  apply (codec_print _ _ _ codec_u16) in H2 as [Hv ->].
  apply (codec_print _ _ _ codec_u16) in H3 as [Hf ->].
  apply (codec_print _ _ _ codec_u32) in H4 as [Hc ->].
  apply (read_many_print _ _ _ codec_file) in H5 as (Hk & Hfs & ->).
  match type of Hfs with Forall _ ?fs =>
    assert (lenN fs = x8) as Hk' by (unfold lenN; lia) end.
  unfold wf_files. by rewrite Hk'.
Qed.

Lemma encode_body_length i : (length (encode_body i) ≥ MIN_LEN - HASH_LEN)%nat.
Proof.
  unfold encode_body. rewrite !length_app, !le_encode_length.
  unfold MIN_LEN. simpl. lia.
Qed.

(** The cut of [decode]: everything but the last 32 bytes is the body. *)
Lemma decode_app (bl : list byte → hash32) body tail :
  (MIN_LEN - HASH_LEN ≤ length body)%nat →
  decode bl (body ++ hash_bytes tail) = decode_parts bl body (hash_bytes tail).
Proof.
  intros Hb. unfold decode.
  pose proof (hash_bytes_length tail) as Ht. rewrite length_app, Ht.
  rewrite (proj2 (Nat.ltb_ge _ _)) by (unfold MIN_LEN, HASH_LEN in *; lia).
  replace (length body + HASH_LEN - HASH_LEN)%nat with (length body) by lia.
  by rewrite take_app_length, drop_app_length.
Qed.

Section theorems.
Context (blake3 : list byte → hash32).

(** What [decode] accepts, with the two parts of the file named. *)
Lemma decode_Ok_inv bytes i :
  decode blake3 bytes = Ok i →
  ∃ body flags,
    bytes = body ++ hash_bytes (gi_manifest_hash i) ∧
    gi_manifest_hash i = blake3 body ∧
    gi_format_version i < 2^16 ∧ flags < 2^16 ∧ wf_files (gi_files i) ∧
    body = MAGIC ++ le_encode 2 (gi_format_version i) ++ le_encode 2 flags ++
      le_encode 4 (lenN (gi_files i)) ++ concat (map encode_file (gi_files i)).
Proof.
  unfold decode. destruct (Nat.ltb_spec (length bytes) MIN_LEN) as [|Hlen]; [done|].
  unfold decode_parts.
  set (body := take _ bytes). set (tail := drop _ bytes).
  assert (bytes = body ++ tail) as Hsplit by (symmetry; apply take_drop).
  destruct (decode_body body) as [rest [[[v flags] fs]|e]] eqn:Hd; [|done].
  destruct (decide (rest ≠ [])) as [|Hrest]; [done|]. intros H.
  apply dec_stable in Hrest as ->. inv_ok.
  destruct (hash_of tail) as [h|] eqn:Hh; simplify_eq/=.
  destruct (decide (blake3 body ≠ x)) as [|Hb]; [done|].
  apply dec_stable in Hb. inv_ok. apply hash_of_Some in Hh.
  apply decode_body_print in Hd as (Hv & Hf & Hfs & Hbody).
  exists body, flags. rewrite app_nil_r in Hbody. cbn. rewrite Hh. auto 10.
Qed.

Lemma decode_encode_index i :
  gi_format_version i < 2^16 → wf_files (gi_files i) →
  gi_manifest_hash i = blake3 (encode_body i) →
  decode blake3 (encode i) = Ok i.
Proof.
  intros Hv Hfs Hh. unfold encode. rewrite decode_app by apply encode_body_length.
  unfold decode_parts. destruct i as [v fs h]. cbn [gi_format_version gi_files
    gi_manifest_hash] in *. rewrite <- (app_nil_r (encode_body _)), decode_body_parse by done.
  rewrite decide_False, hash_of_bytes, app_nil_r by auto. cbn.
  by rewrite decide_False by (rewrite Hh; auto).
Qed.

(** C1: every manifest built from file entries whose names and counts fit the
    format's length fields is read back from its encoding unchanged. *)
Theorem decode_encode_build files :
  wf_files files →
  decode blake3 (encode (build blake3 files)) = Ok (build blake3 files).
Proof. intros. by apply decode_encode_index. Qed.

(** The flags field of a manifest file: bytes 7 and 8. *)
Definition flags_of (bytes : list byte) : N := le_decode (take 2 (drop 7 bytes)).

(** C29: decoding is the inverse of encoding on the accepted files: re-encoding
    what was read gives the same bytes, provided the reserved flags field, which
    [decode] ignores, holds zero.  In particular an accepted manifest has one
    reading and no two accepted zero-flag files read alike. *)
Theorem encode_decode bytes i :
  decode blake3 bytes = Ok i → flags_of bytes = 0 →
  encode i = bytes ∧ wf_files (gi_files i) ∧
  gi_manifest_hash i = blake3 (encode_body i).
Proof.
  intros (body & flags & -> & Hh & Hv & Hf & [Hn Hfs] & Hbody)%decode_Ok_inv Hz.
  assert (flags = 0) as ->.
  { revert Hz. rewrite Hbody. unfold flags_of.
    rewrite <- !app_assoc.
    change (MAGIC ++ ?x) with (MAGIC ++ x). rewrite (app_assoc MAGIC).
    rewrite drop_app_length' by (by rewrite length_app, le_encode_length).
    rewrite take_app_length' by (by rewrite le_encode_length).
    by rewrite le_decode_encode_small. }
  assert (encode_body i = body) as Hbi
    by (unfold encode_body; rewrite as_u32_small by done; by rewrite Hbody).
  unfold encode. rewrite Hbi, Hh. done.
Qed.

(** C39: the error branches of [decode].  Too few bytes, a wrong magic, bytes
    after the last file entry and a wrong trailing hash are each reported by
    their own message, whatever else the file holds. *)
Theorem decode_errors :
  (∀ bytes, (length bytes < MIN_LEN)%nat →
     decode blake3 bytes = bail "清单长度不足") ∧
  (∀ bytes, (MIN_LEN ≤ length bytes)%nat → take (length MAGIC) bytes ≠ MAGIC →
     decode blake3 bytes = bail "清单 magic 错误") ∧
  (∀ i extra tail, gi_format_version i < 2^16 → wf_files (gi_files i) →
     extra ≠ [] →
     decode blake3 (encode_body i ++ extra ++ hash_bytes tail) =
     bail "清单存在多余数据") ∧
  (∀ i tail, gi_format_version i < 2^16 → wf_files (gi_files i) →
     blake3 (encode_body i) ≠ tail →
     decode blake3 (encode_body i ++ hash_bytes tail) = bail "清单哈希校验失败").
Proof.
  split_and!.
  - intros bytes Hlen. unfold decode. by rewrite (proj2 (Nat.ltb_lt _ _)).
  - intros bytes Hlen Hmagic. unfold decode.
    rewrite (proj2 (Nat.ltb_ge _ _)) by done.
    unfold decode_parts, decode_body, MIN_LEN, HASH_LEN in *.
    erewrite M_bind_ok.
    2:{ unfold read_exact. rewrite length_take, (proj2 (Nat.leb_le _ _)) by lia. done. }
    rewrite take_take, Nat.min_l by lia. by rewrite decide_False.
  - intros i extra tail Hv Hfs Hextra.
    rewrite app_assoc, decode_app
      by (rewrite length_app; pose proof (encode_body_length i); lia).
    destruct i as [v fs h]. unfold decode_parts.
    by rewrite decode_body_parse, decide_True.
  - intros i tail Hv Hfs Htail. rewrite decode_app by apply encode_body_length.
    destruct i as [v fs h]. unfold decode_parts.
    rewrite <- (app_nil_r (encode_body _)), decode_body_parse by done.
    rewrite decide_False, hash_of_bytes, app_nil_r by auto. cbn.
    by rewrite decide_True.
Qed.

(** Two accepted files with the same trailing hash are the same file, unless
    their bodies are a BLAKE3 collision. *)
Lemma decode_hash_binds b1 b2 i1 i2 :
  decode blake3 b1 = Ok i1 → decode blake3 b2 = Ok i2 →
  gi_manifest_hash i1 = gi_manifest_hash i2 →
  (∀ x y, x ++ hash_bytes (blake3 x) = b1 → y ++ hash_bytes (blake3 y) = b2 →
     blake3 x = blake3 y → x = y) →
  b1 = b2.
Proof.
  intros (x & f1 & -> & Hx & _)%decode_Ok_inv (y & f2 & -> & Hy & _)%decode_Ok_inv Hh Hcol.
  rewrite <- Hh. f_equal. apply Hcol; congruence.
Qed.

End theorems.

(** ** Witnesses *)

Definition wit_files : list FileEntry :=
  [ mkFile "a.bin" (hash_rep x01) [mkChunk (hash_rep x02) 10; mkChunk (hash_rep x03) 20];
    mkFile "目录/b.bin" (hash_rep x04) [mkChunk (hash_rep x02) 10] ].

Lemma wit_files_wf : wf_files wit_files.
Proof. split; [done|]. repeat constructor; done. Qed.

Lemma decode_encode_build_witness :
  wf_files wit_files ∧
  decode toy_hash (encode (build toy_hash wit_files)) = Ok (build toy_hash wit_files).
Proof.
  split; [exact wit_files_wf | exact (decode_encode_build toy_hash _ wit_files_wf)].
Defined.

Lemma encode_decode_witness :
  let bytes := encode (build toy_hash wit_files) in
  flags_of bytes = 0 ∧ encode (build toy_hash wit_files) = bytes ∧
  wf_files (gi_files (build toy_hash wit_files)) ∧
  gi_manifest_hash (build toy_hash wit_files) =
    toy_hash (encode_body (build toy_hash wit_files)).
Proof.
  cbv zeta. split; [vm_compute; reflexivity|].
  apply (encode_decode toy_hash);
    [apply decode_encode_index; [done | exact wit_files_wf | done]
    |vm_compute; reflexivity].
Defined.

Lemma decode_errors_witness :
  decode toy_hash (replicate 10 x00) = bail "清单长度不足" ∧
  decode toy_hash (replicate 60 x00) = bail "清单 magic 错误" ∧
  decode toy_hash (encode_body (build toy_hash wit_files) ++ [x00] ++
    hash_bytes (hash_rep x00)) = bail "清单存在多余数据" ∧
  decode toy_hash (encode_body (build toy_hash wit_files) ++
    hash_bytes (hash_rep x00)) = bail "清单哈希校验失败".
Proof.
  destruct (decode_errors toy_hash) as (H1 & H2 & H3 & H4). split_and!.
  - apply H1. vm_compute. lia.
  - apply H2; [vm_compute; lia | by vm_compute].
  - apply H3; [done | exact wit_files_wf | done].
  - apply H4; [done | exact wit_files_wf |].
    apply (bool_decide_unpack _). by vm_compute.
Defined.
