(* ===== verification/UpdatePlan.v ===== *)
(** * UpdatePlan: the difference of two versions, crates/blaze-common/src/update_plan.rs

    [compute] and its specification: the file classification, the chunks to
    download with their order and total size. *)

From S2P Require Import Prelude Bytes Manifest.

Record UpdatePlan := mkPlan {
  files_to_download : list string;
  files_to_update : list string;
  files_to_delete : list string;
  chunks_to_download : list hash32;
  download_bytes : N
}.

(** [o.files.iter().map(|f| (f.name, f)).collect()]: the last of equal names stays. *)
Definition file_map (files : list FileEntry) : gmap string FileEntry :=
  foldl (λ m f, <[fe_name f := f]> m) ∅ files.

Definition file_names (files : list FileEntry) : gset string :=
  list_to_set (map fe_name files).

(** The loop over the new files: (to download, to update). *)
Definition classify_step (old_files : gmap string FileEntry)
    (acc : list string * list string) (file : FileEntry) : list string * list string :=
  match old_files !! fe_name file with
  | None => (acc.1 ++ [fe_name file], acc.2)
  | Some prev =>
    if decide (fe_file_hash prev ≠ fe_file_hash file)
    then (acc.1, acc.2 ++ [fe_name file]) else acc
  end.

(** The loop over the new chunks: (seen, to download, bytes). *)
Record chunk_acc := mkAcc { ca_seen : gset hash32; ca_out : list hash32; ca_bytes : N }.

Definition chunk_step (old_chunks temp_chunks : gset hash32)
    (acc : chunk_acc) (chunk : ChunkMeta) : chunk_acc :=
  if decide (ck_hash chunk ∈ old_chunks ∨ ck_hash chunk ∈ temp_chunks) then acc
  else if decide (ck_hash chunk ∈ ca_seen acc) then acc
  else mkAcc ({[ck_hash chunk]} ∪ ca_seen acc) (ca_out acc ++ [ck_hash chunk])
         (add_u64 (ca_bytes acc) (ck_len chunk)).

Definition compute (new : GameIndex) (old : option GameIndex)
    (temp_chunks : gset hash32) : UpdatePlan :=
  let old_files := default ∅ (file_map ∘ gi_files <$> old) in
  let old_names := dom old_files in
  let fs := foldl (classify_step old_files) ([], []) (gi_files new) in
  let new_names := file_names (gi_files new) in
  let to_delete := sort_strings (elements (old_names ∖ new_names)) in
  let old_chunks := default ∅ (chunk_set <$> old) in
  let cs := foldl
    (λ acc file, foldl (chunk_step old_chunks temp_chunks) acc (fe_chunks file))
    (mkAcc ∅ [] 0) (gi_files new) in
  mkPlan fs.1 fs.2 to_delete (ca_out cs) (ca_bytes cs).

(** ** Specification *)

(** The first occurrences of the elements of [l] that are not in [seen]. *)
Fixpoint firsts (seen : gset hash32) (l : list ChunkMeta) : list ChunkMeta :=
  match l with
  | [] => []
  | c :: l => if decide (ck_hash c ∈ seen) then firsts seen l
              else c :: firsts ({[ck_hash c]} ∪ seen) l
  end.

Definition all_chunks (i : GameIndex) : list ChunkMeta := flat_map fe_chunks (gi_files i).

(** Chunks neither the old version nor the temporary directory has. *)
Definition missing_chunks (new : GameIndex) (old : option GameIndex)
    (temp : gset hash32) : list ChunkMeta :=
  filter (λ c, ck_hash c ∉ default ∅ (chunk_set <$> old) ∧ ck_hash c ∉ temp)
    (all_chunks new).

Definition total_len (cs : list ChunkMeta) : N := foldr (λ c n, ck_len c + n) 0 cs.

Lemma map_all_chunks i : map ck_hash (all_chunks i) = chunk_list i.
Proof.
  unfold all_chunks, chunk_list. induction (gi_files i) as [|f fs IH]; [done|].
  simpl. by rewrite map_app, IH.
Qed.

Lemma elem_of_firsts seen l h :
  h ∈ map ck_hash (firsts seen l) ↔ h ∈ map ck_hash l ∧ h ∉ seen.
Proof.
  revert seen. induction l as [|c l IH]; intros seen; simpl.
  - split; [by intros ?%not_elem_of_nil|by intros [?%not_elem_of_nil _]].
  - case_decide as Hc; [rewrite IH|simpl; rewrite elem_of_cons, IH];
      rewrite elem_of_cons; [naive_solver|].
    rewrite not_elem_of_union, not_elem_of_singleton.
    destruct (decide (h = ck_hash c)) as [->|]; naive_solver.
Qed.

Lemma NoDup_firsts seen l : NoDup (map ck_hash (firsts seen l)).
Proof.
  revert seen. induction l as [|c l IH]; intros seen; simpl; [constructor|].
  case_decide; [apply IH|]. simpl. constructor; [|apply IH].
  rewrite elem_of_firsts. intros [_ Hn]. apply Hn. by apply elem_of_union_l, elem_of_singleton.
Qed.

Lemma chunk_loop_spec old temp acc cs :
  let new := firsts (ca_seen acc)
    (filter (λ c, ck_hash c ∉ old ∧ ck_hash c ∉ temp) cs) in
  let acc' := foldl (chunk_step old temp) acc cs in
  ca_out acc' = ca_out acc ++ map ck_hash new ∧
  (ca_bytes acc < 2^64 → ca_bytes acc' = (ca_bytes acc + total_len new) mod 2^64) ∧
  (ca_bytes acc < 2^64 → ca_bytes acc' < 2^64).
Proof.
  cbv zeta. revert acc. induction cs as [|c cs IH]; intros acc; simpl.
  - rewrite app_nil_r, N.add_0_r. split_and!; [done|..]; intros; [|done].
    by rewrite N.mod_small.
  - rewrite filter_cons. unfold chunk_step at 2 4 6.
    destruct (decide (ck_hash c ∈ old ∨ ck_hash c ∈ temp)) as [Hin|Hout];
      destruct (decide (ck_hash c ∉ old ∧ ck_hash c ∉ temp)) as [Hw|Hw];
      [naive_solver | apply IH | | naive_solver].
    simpl. case_decide as Hseen; [apply IH|]. simpl.
    destruct (IH (mkAcc ({[ck_hash c]} ∪ ca_seen acc) (ca_out acc ++ [ck_hash c])
      (add_u64 (ca_bytes acc) (ck_len c)))) as (Hout' & Hb & Hb2).
    simpl in *. assert (add_u64 (ca_bytes acc) (ck_len c) < 2^64)
      by (by apply N.mod_lt).
    rewrite Hout'. split_and!; [by rewrite <- app_assoc| |auto].
    intros _. rewrite Hb by done. unfold add_u64.
    rewrite N.Div0.add_mod_idemp_l. f_equal. lia.
Qed.

Lemma foldl_flat_map {A B S} (f : S → B → S) (g : A → list B) s l :
  foldl (λ acc x, foldl f acc (g x)) s l = foldl f s (flat_map g l).
Proof.
  revert s. induction l as [|x l IH]; intros s; [done|].
  simpl. by rewrite IH, foldl_app.
Qed.

Lemma compute_chunks_eq new old temp :
  chunks_to_download (compute new old temp) =
    map ck_hash (firsts ∅ (missing_chunks new old temp)) ∧
  download_bytes (compute new old temp) =
    total_len (firsts ∅ (missing_chunks new old temp)) mod 2^64.
Proof.
  unfold compute. simpl. rewrite foldl_flat_map.
  destruct (chunk_loop_spec (default ∅ (chunk_set <$> old)) temp (mkAcc ∅ [] 0)
    (all_chunks new)) as (Hout & Hbytes & _). simpl in *.
  unfold all_chunks in *. by rewrite Hout, Hbytes.
Qed.

Lemma elem_of_compute_chunks new old temp h :
  h ∈ chunks_to_download (compute new old temp) ↔
  h ∈ chunk_set new ∧ h ∉ default ∅ (chunk_set <$> old) ∧ h ∉ temp.
Proof.
  rewrite (proj1 (compute_chunks_eq _ _ _)), elem_of_firsts, elem_of_chunk_set,
    <- map_all_chunks, !list_elem_of_fmap.
  unfold missing_chunks. setoid_rewrite list_elem_of_filter. split.
  - intros [(c & -> & (Ho & Ht) & Hc) _]. eauto.
  - intros ((c & -> & Hc) & Ho & Ht). split; [eauto 10|apply not_elem_of_empty].
Qed.

(** the chunk list of a plan is the list of the new version's chunks that
    neither the old version nor the temporary directory holds, each hash once
    and in the order the new manifest first names it; [download_bytes] is the
    sum of their lengths (at width 64). *)
Theorem compute_chunks new old temp :
  let wanted := firsts ∅ (missing_chunks new old temp) in
  let plan := compute new old temp in
  chunks_to_download plan = map ck_hash wanted ∧
  NoDup (chunks_to_download plan) ∧
  (∀ h, h ∈ chunks_to_download plan ↔
     h ∈ chunk_set new ∧ h ∉ default ∅ (chunk_set <$> old) ∧ h ∉ temp) ∧
  download_bytes plan = total_len wanted mod 2^64.
Proof.
  cbv zeta. destruct (compute_chunks_eq new old temp) as [Hc Hb].
  split_and!; [done| |apply elem_of_compute_chunks|done].
  rewrite Hc. apply NoDup_firsts.
Qed.


(** *** File classification *)

Lemma file_map_snoc fs f : file_map (fs ++ [f]) = <[fe_name f := f]> (file_map fs).
Proof. unfold file_map. by rewrite foldl_app. Qed.

Lemma file_map_lookup_Some fs n f :
  file_map fs !! n = Some f → f ∈ fs ∧ fe_name f = n.
Proof.
  induction fs as [|f' fs IH] using rev_ind; [done|].
  rewrite file_map_snoc, elem_of_app, lookup_insert_Some, list_elem_of_singleton.
  naive_solver.
Qed.

Lemma dom_file_map fs : dom (file_map fs) = file_names fs.
Proof.
  unfold file_names. induction fs as [|f fs IH] using rev_ind; [done|].
  rewrite file_map_snoc, dom_insert_L, IH, map_app, list_to_set_app_L. simpl.
  set_solver.
Qed.

Definition is_new (old : gmap string FileEntry) (f : FileEntry) : Prop :=
  old !! fe_name f = None.
Definition is_changed (old : gmap string FileEntry) (f : FileEntry) : Prop :=
  ∃ prev, old !! fe_name f = Some prev ∧ fe_file_hash prev ≠ fe_file_hash f.
#[export] Instance is_new_dec old f : Decision (is_new old f).
Proof. unfold is_new. apply _. Defined.
#[export] Instance is_changed_dec old f : Decision (is_changed old f).
Proof.
  refine (match old !! fe_name f as o return old !! fe_name f = o → _ with
          | Some prev => λ H, cast_if_not (decide (fe_file_hash prev = fe_file_hash f))
          | None => λ H, right _
          end eq_refl); unfold is_changed; naive_solver.
Defined.

Lemma classify_loop_spec old acc fs :
  foldl (classify_step old) acc fs =
  (acc.1 ++ map fe_name (filter (is_new old) fs),
   acc.2 ++ map fe_name (filter (is_changed old) fs)).
Proof.
  revert acc. induction fs as [|f fs IH]; intros [dl up]; simpl.
  { by rewrite !app_nil_r. }
  rewrite IH, !filter_cons. unfold classify_step.
  destruct (decide (is_new old f)) as [Hn|Hn], (decide (is_changed old f)) as [Hc|Hc];
    unfold is_new, is_changed in Hn, Hc;
    destruct (old !! fe_name f) as [prev|]; try case_decide;
    simpl; rewrite <- ?app_assoc; naive_solver.
Qed.

(** the file lists of a plan.  A new-version file is to be downloaded when
    the old version has no file of its name, updated when it has one with
    another content hash, and left alone otherwise; the files to delete are,
    sorted and without repetition, the old names the new version lacks. *)
Theorem compute_files new old temp :
  let old_files := default ∅ (file_map ∘ gi_files <$> old) in
  let plan := compute new old temp in
  files_to_download plan = map fe_name (filter (is_new old_files) (gi_files new)) ∧
  files_to_update plan = map fe_name (filter (is_changed old_files) (gi_files new)) ∧
  (∀ n, n ∈ files_to_delete plan ↔
     n ∈ default ∅ (file_names ∘ gi_files <$> old) ∧ n ∉ file_names (gi_files new)) ∧
  NoDup (files_to_delete plan) ∧ StronglySorted str_le (files_to_delete plan).
Proof.
  cbv zeta. unfold compute. simpl. rewrite classify_loop_spec. split_and!; [done..| | |].
  - intros n. rewrite sort_strings_perm, elem_of_elements, elem_of_difference.
    destruct old as [o|]; simpl; [by rewrite dom_file_map|by rewrite dom_empty].
  - rewrite sort_strings_perm. apply NoDup_elements.
  - apply sort_strings_sorted.
Qed.

