(* ===== verification/PingPong.v ===== *)
(** * PingPong: the keep-alive datagrams, crates/blaze-common/src/keepalive.rs,
    and the agent's answer to them, crates/agent/src/keepalive.rs. *)

From S2P Require Import Prelude Bytes.

Definition PING_MAGIC : list byte := str_bytes "BLZPNG".
Definition PONG_MAGIC : list byte := str_bytes "BLZPONG".
Definition PING_LEN : nat := 22.
Definition PONG_LEN : nat := 11.

Definition build_ping (seq node_id addr_index : N) : list byte :=
  PING_MAGIC ++ le_encode 4 seq ++ le_encode 8 node_id ++ le_encode 4 addr_index.

Definition build_pong (seq : N) : list byte := PONG_MAGIC ++ le_encode 4 seq.

(** [&packet[i..j]] of a packet that is long enough. *)
Definition slice (i j : nat) (bs : list byte) : list byte := take (j - i) (drop i bs).

Definition parse_ping (packet : list byte) : option (N * N * N) :=
  if decide (length packet ≠ PING_LEN ∨ slice 0 6 packet ≠ PING_MAGIC) then None
  else Some (le_decode (slice 6 10 packet), le_decode (slice 10 18 packet),
             le_decode (slice 18 22 packet)).

Definition parse_pong (packet : list byte) : option N :=
  if decide (length packet ≠ PONG_LEN ∨ slice 0 7 packet ≠ PONG_MAGIC) then None
  else Some (le_decode (slice 7 11 packet)).

(** One turn of the agent's [serve_pong]: a datagram cut to the receive buffer
    of [PING_LEN] bytes, and the reply sent to its source, if any. *)
Definition serve_pong_step (datagram : list byte) : option (list byte) :=
  match parse_ping (take PING_LEN datagram) with
  | Some (seq, _, _) => Some (build_pong seq)
  | None => None
  end.

(** ** Lemmas *)

Lemma slice_app_skip i j n pre bs :
  length pre = n → (n ≤ i)%nat → slice i j (pre ++ bs) = slice (i - n) (j - n) bs.
Proof.
  intros <- Hi. unfold slice. rewrite drop_app_ge by done. f_equal. lia.
Qed.

Lemma slice_app_here n pre bs : length pre = n → slice 0 n (pre ++ bs) = pre.
Proof. intros <-. unfold slice. rewrite Nat.sub_0_r, drop_0. apply take_app_length. Qed.

Lemma slice_all n bs : length bs = n → slice 0 n bs = bs.
Proof. intros <-. unfold slice. rewrite Nat.sub_0_r, drop_0. apply firstn_all. Qed.

Lemma slice_length i j bs : (j ≤ length bs)%nat → length (slice i j bs) = (j - i)%nat.
Proof. intros. unfold slice. rewrite length_take, length_drop. lia. Qed.

Lemma slice_join i j k bs :
  (i ≤ j)%nat → (j ≤ k)%nat → slice i j bs ++ slice j k bs = slice i k bs.
Proof.
  intros. unfold slice. replace (drop j bs) with (drop (j - i) (drop i bs))
    by (rewrite drop_drop; f_equal; lia).
  replace (k - i)%nat with ((j - i) + (k - j))%nat by lia.
  by rewrite <- take_take_drop.
Qed.

Lemma parse_build_ping seq node_id addr_index :
  seq < 2^32 → node_id < 2^64 → addr_index < 2^32 →
  parse_ping (build_ping seq node_id addr_index) = Some (seq, node_id, addr_index).
Proof.
  intros Hs Hn Ha. unfold parse_ping, build_ping.
  rewrite decide_False.
  2:{ rewrite slice_app_here by done. rewrite !length_app, !le_encode_length.
      intros [H|H]; by apply H. }
  rewrite !(slice_app_skip _ _ 6 PING_MAGIC) by (done || lia). simpl Nat.sub.
  rewrite (slice_app_here 4) by apply le_encode_length.
  rewrite !(slice_app_skip _ _ 4 (le_encode 4 _)) by (apply le_encode_length || lia). simpl Nat.sub.
  rewrite (slice_app_here 8) by apply le_encode_length.
  rewrite !(slice_app_skip _ _ 8 (le_encode 8 _)) by (apply le_encode_length || lia). simpl Nat.sub.
  rewrite (slice_all 4) by apply le_encode_length.
  by rewrite !le_decode_encode_small.
Qed.

Lemma build_parse_ping packet seq node_id addr_index :
  parse_ping packet = Some (seq, node_id, addr_index) →
  build_ping seq node_id addr_index = packet ∧
  seq < 2^32 ∧ node_id < 2^64 ∧ addr_index < 2^32.
Proof.
  unfold parse_ping. case_decide as H; [done|]. intros; simplify_eq.
  assert (length packet = PING_LEN) as Hl by (apply dec_stable; tauto).
  assert (slice 0 6 packet = PING_MAGIC) as Hm by (apply dec_stable; tauto).
  unfold PING_LEN in *.
  pose proof (slice_length 6 10 packet ltac:(lia)) as H1.
  pose proof (slice_length 10 18 packet ltac:(lia)) as H2.
  pose proof (slice_length 18 22 packet ltac:(lia)) as H3.
  pose proof (le_decode_bound (slice 6 10 packet)) as B1.
  pose proof (le_decode_bound (slice 10 18 packet)) as B2.
  pose proof (le_decode_bound (slice 18 22 packet)) as B3.
  unfold lenN in B1, B2, B3. rewrite H1 in B1. rewrite H2 in B2. rewrite H3 in B3.
  split_and!; [|done..]. unfold build_ping.
  rewrite !le_encode_decode_k by done. rewrite <- Hm.
  rewrite !slice_join by lia. by apply slice_all.
Qed.

Lemma parse_build_pong seq : seq < 2^32 → parse_pong (build_pong seq) = Some seq.
Proof.
  intros Hs. unfold parse_pong, build_pong. rewrite decide_False.
  2:{ rewrite slice_app_here by done. rewrite !length_app, !le_encode_length.
      intros [H|H]; by apply H. }
  rewrite !(slice_app_skip _ _ 7 PONG_MAGIC) by (done || lia). simpl Nat.sub.
  rewrite (slice_all 4) by apply le_encode_length. by rewrite le_decode_encode_small.
Qed.

Lemma build_parse_pong packet seq :
  parse_pong packet = Some seq → build_pong seq = packet ∧ seq < 2^32.
Proof.
  unfold parse_pong. case_decide as H; [done|]. intros; simplify_eq.
  assert (length packet = PONG_LEN) as Hl by (apply dec_stable; tauto).
  assert (slice 0 7 packet = PONG_MAGIC) as Hm by (apply dec_stable; tauto).
  unfold PONG_LEN in *.
  pose proof (slice_length 7 11 packet ltac:(lia)) as H1.
  pose proof (le_decode_bound (slice 7 11 packet)) as B1.
  unfold lenN in B1. rewrite H1 in B1.
  split; [|done]. unfold build_pong. rewrite le_encode_decode_k by done.
  rewrite <- Hm, slice_join by lia. by apply slice_all.
Qed.

Lemma build_ping_length s n a : length (build_ping s n a) = PING_LEN.
Proof. unfold build_ping. by rewrite !length_app, !le_encode_length. Qed.

(** the ping and pong formats are read back exactly: a parser accepts a
    datagram iff the builder makes it from values of the field widths, and
    then returns those values. *)
Theorem keepalive_codec :
  (∀ packet s n a, parse_ping packet = Some (s, n, a) ↔
     build_ping s n a = packet ∧ s < 2^32 ∧ n < 2^64 ∧ a < 2^32) ∧
  (∀ packet s, parse_pong packet = Some s ↔ build_pong s = packet ∧ s < 2^32).
Proof.
  split; intros; split.
  - apply build_parse_ping.
  - intros (<- & ? & ? & ?). by apply parse_build_ping.
  - apply build_parse_pong.
  - intros [<- ?]. by apply parse_build_pong.
Qed.

(** one keep-alive round: the agent answers the scheduler's ping with a
    pong from which the scheduler reads the sequence number it sent; it answers
    nothing else but datagrams that begin with a well-formed ping. *)
Theorem serve_pong_roundtrip :
  (∀ seq node_id addr_index, seq < 2^32 → node_id < 2^64 → addr_index < 2^32 →
     (serve_pong_step (build_ping seq node_id addr_index) ≫= parse_pong) = Some seq) ∧
  (∀ datagram reply, serve_pong_step datagram = Some reply →
     ∃ seq node_id addr_index rest,
       datagram = build_ping seq node_id addr_index ++ rest ∧ reply = build_pong seq).
Proof.
  split.
  - intros s n a Hs Hn Ha. unfold serve_pong_step.
    rewrite take_ge by (by rewrite build_ping_length).
    rewrite parse_build_ping by done. simpl. by apply parse_build_pong.
  - intros dg reply. unfold serve_pong_step.
    destruct (parse_ping _) as [[[s n] a]|] eqn:Hp; [|done]. intros; simplify_eq.
    apply build_parse_ping in Hp as (Hp & _).
    exists s, n, a, (drop PING_LEN dg). by rewrite Hp, take_drop.
Qed.

Lemma keepalive_codec_witness :
  parse_ping (build_ping 42 7 3) = Some (42, 7, 3) ∧
  parse_pong (build_pong 42) = Some 42.
Proof. split; [apply keepalive_codec | apply keepalive_codec]; by split_and!. Defined.

Lemma serve_pong_roundtrip_witness :
  (serve_pong_step (build_ping 7 1 0) ≫= parse_pong) = Some 7.
Proof. by apply serve_pong_roundtrip. Defined.
