(* ===== verification/FileIO.v ===== *)
(** * FileIO: positioned file I/O

    Rust's [File::read_at]/[write_at] and compio's asynchronous file operations
    are interfaces: a class of operations and a class of laws that state their
    documented behaviour (short reads and writes included).  On top of them,
    translated from the source: the read-exactly and write-everything loops of
    crates/origin/src/storage.rs and [copy_ranges] of
    crates/blaze-common/src/compio_io.rs. *)

From S2P Require Import Prelude Bytes.

(** The bytes of [data] from [off], at most [len] of them. *)
Definition span (off len : N) (data : list byte) : list byte :=
  take (N.to_nat len) (drop (N.to_nat off) data).

(** Overwrite [data] at [off] with [bs]; a gap past the end reads as zeros. *)
Definition patch (off : N) (bs data : list byte) : list byte :=
  let o := N.to_nat off in
  take o data ++ replicate (o - length data) x00 ++ bs ++ drop (o + length bs) data.

(** ** Interfaces *)

Class FileOps (F : Type) := {
  (** [file.read_at(buf, off)] with a buffer of the given length: the bytes read *)
  f_read : F → N → N → result error (list byte);
  (** [file.write_at(buf, off)]: the number of bytes written *)
  f_write : F → list byte → N → F * result error N;
  (** the file's contents: what the laws speak about, not an operation *)
  f_data : F → list byte;
  (** no operation on this file meets an I/O error *)
  f_healthy : F → Prop
}.

Class FileLaws (F : Type) `{!FileOps F} : Prop := {
  f_read_ok f len off bs : f_read f len off = Ok bs →
    lenN bs ≤ len ∧ bs = span off (lenN bs) (f_data f) ∧
    (bs = [] → len = 0 ∨ lenN (f_data f) ≤ off);
  f_write_ok f bs off f' n : f_write f bs off = (f', Ok n) →
    n ≤ lenN bs ∧ f_data f' = patch off (take (N.to_nat n) bs) (f_data f);
  f_write_err f bs off f' e : f_write f bs off = (f', Err e) → f_data f' = f_data f;
  f_read_healthy f len off : f_healthy f → is_ok (f_read f len off);
  f_write_healthy f bs off : f_healthy f →
    ∃ f' n, f_write f bs off = (f', Ok n) ∧ f_healthy f' ∧ (bs ≠ [] → 0 < n)
}.

(** compio: open, create (truncating), read exactly, write everything, sync. *)
Class CompioOps (F : Type) := {
  cp_open : F → result error ();
  cp_create : result error F;
  cp_read_exact : F → N → N → result error (list byte);
  cp_write_all : F → list byte → N → result error F;
  cp_sync : F → result error ();
  cp_close : F → result error ()
}.

Class CompioLaws (F : Type) `{!FileOps F, !CompioOps F} : Prop := {
  cp_create_ok f : cp_create = Ok f → f_data f = [];
  cp_read_ok f len off bs : cp_read_exact f len off = Ok bs →
    lenN bs = len ∧ bs = span off len (f_data f);
  cp_write_ok f bs off f' : cp_write_all f bs off = Ok f' →
    f_data f' = patch off bs (f_data f)
}.

(** ** The loops of storage.rs *)

Section loops.
Context {F : Type} `{!FileOps F}.

(** [read_exact_at]: the buffer still to fill has length [len]; one byte of
    fuel per byte of the buffer is enough, since every turn reads one at least. *)
Fixpoint read_exact_at_loop (fuel : nat) (file : F) (len off : N) (acc : list byte)
    : result error (list byte) :=
  match fuel with
  | O => Ok acc
  | S fuel =>
    if len =? 0 then Ok acc else
    bs ← f_read file len off;
    if lenN bs =? 0 then bail "读取块数据遇到文件末尾" else
    read_exact_at_loop fuel file (len - lenN bs) (off + lenN bs) (acc ++ bs)
  end.

Definition read_exact_at (file : F) (len off : N) : result error (list byte) :=
  read_exact_at_loop (N.to_nat len) file len off [].

(** [write_exact_at_impl]: generic in the write function, as in the source. *)
Fixpoint write_exact_at_impl_loop {S} (fuel : nat)
    (write : list byte → N → M S error N) (buf : list byte) (off : N) : M S error () :=
  match fuel with
  | O => mret ()
  | S fuel =>
    if lenN buf =? 0 then mret () else
    n ← write buf off;
    if n =? 0 then throw ["写入失败"%string] else
    write_exact_at_impl_loop fuel write (drop (N.to_nat n) buf) (off + n)
  end.

Definition write_exact_at_impl {S} (write : list byte → N → M S error N)
    (buf : list byte) (off : N) : M S error () :=
  write_exact_at_impl_loop (length buf) write buf off.

Definition write_at (buf : list byte) (off : N) : M F error N := λ f, f_write f buf off.

Definition write_exact_at (buf : list byte) (off : N) : M F error () :=
  write_exact_at_impl write_at buf off.

End loops.

(** ** compio_io.rs: the sequential writer and copy_ranges *)

(** [CompioWriter]: the file under construction and the offset written so far. *)
Record CompioWriter (F : Type) := mkWriter { cw_file : F; cw_offset : N }.
Arguments mkWriter {F}. Arguments cw_file {F}. Arguments cw_offset {F}.

Section writer.
Context {F : Type} `{!FileOps F, !CompioOps F}.

Definition writer_create : result error (CompioWriter F) :=
  file ← with_context "创建目标文件失败" cp_create;
  mret (mkWriter file 0).

Definition write_owned (w : CompioWriter F) (data : list byte) : result error (CompioWriter F) :=
  let len := lenN data in
  file ← with_context "写入目标文件失败" (cp_write_all (cw_file w) data (cw_offset w));
  mret (mkWriter file (add_u64 (cw_offset w) len)).

Definition sync_all (w : CompioWriter F) : result error () :=
  with_context "同步目标文件失败" (cp_sync (cw_file w)).

Definition close (w : CompioWriter F) : result error () :=
  with_context "关闭目标文件失败" (cp_close (cw_file w)).

End writer.

Definition COPY_CHUNK : N := 1024 * 1024.

Section copy.
Context {F : Type} `{!FileOps F, !CompioOps F}.

(** The inner [while remaining > 0]: state (destination, out_offset). *)
Fixpoint copy_range_loop (fuel : nat) (src : F) (remaining pos : N)
    (dst : F) (out_offset : N) : result error (F * N) :=
  match fuel with
  | O => Ok (dst, out_offset)
  | S fuel =>
    if remaining =? 0 then Ok (dst, out_offset) else
    let want := N.min remaining COPY_CHUNK in
    data ← with_context "读取源块失败" (cp_read_exact src want pos);
    dst ← with_context "写入目标块失败" (cp_write_all dst data out_offset);
    copy_range_loop fuel src (remaining - want) (pos + want) dst (out_offset + want)
  end.

Fixpoint copy_ranges_loop (src : F) (ranges : list (N * N)) (dst : F) (out_offset : N)
    : result error (F * N) :=
  match ranges with
  | [] => Ok (dst, out_offset)
  | (start, len) :: ranges =>
    r ← copy_range_loop (N.to_nat len) src len start dst out_offset;
    copy_ranges_loop src ranges r.1 r.2
  end.

(** The new file and the number of bytes copied ([total] equals [out_offset]). *)
Definition copy_ranges (src : F) (ranges : list (N * N)) : result error (F * N) :=
  with_context "打开源文件失败" (cp_open src);;
  dst ← with_context "创建目标文件失败" cp_create;
  r ← copy_ranges_loop src ranges dst 0;
  with_context "同步目标文件失败" (cp_sync r.1);;
  mret r.

End copy.

#[global] Arguments write_at : simpl never.

(** ** Spans and patches *)

Lemma lookup_span off len data i :
  span off len data !! i =
  if decide (i < N.to_nat len)%nat then data !! (N.to_nat off + i)%nat else None.
Proof.
  unfold span. case_decide.
  - by rewrite lookup_take_lt, lookup_drop.
  - by rewrite lookup_take_ge by lia.
Qed.

Lemma lenN_span off len data :
  off + len ≤ lenN data → lenN (span off len data) = len.
Proof. unfold span, lenN. intros. rewrite length_take, length_drop. lia. Qed.

Lemma lenN_span_le off len data : lenN (span off len data) ≤ len.
Proof. unfold span, lenN. rewrite length_take. lia. Qed.

Lemma span_0 off data : span off 0 data = [].
Proof. done. Qed.

Lemma span_all data : span 0 (lenN data) data = data.
Proof. unfold span, lenN. rewrite Nat2N.id, drop_0. apply firstn_all. Qed.

Lemma span_split off a b data :
  span off a data ++ span (off + a) b data = span off (a + b) data.
Proof.
  unfold span. rewrite !N2Nat.inj_add, <- drop_drop, take_take_drop. done.
Qed.

Lemma lookup_patch off bs data i :
  let o := N.to_nat off in
  patch off bs data !! i =
  if decide (i < o)%nat then
    (if decide (i < length data)%nat then data !! i else Some x00)
  else if decide (i < o + length bs)%nat then bs !! (i - o)%nat
  else data !! i.
Proof.
  cbv zeta. unfold patch. set (o := N.to_nat off).
  assert (length (take o data) = min o (length data)) as Hl by apply length_take.
  repeat case_decide.
  - rewrite lookup_app_l by lia. by rewrite lookup_take_lt.
  - rewrite lookup_app_r by lia. rewrite lookup_app_l by (rewrite length_replicate; lia).
    rewrite lookup_replicate_2; [done|lia].
  - rewrite lookup_app_r by lia. rewrite lookup_app_r by (rewrite length_replicate; lia).
    rewrite length_replicate, lookup_app_l by lia. f_equal. lia.
  - rewrite lookup_app_r by lia. rewrite lookup_app_r by (rewrite length_replicate; lia).
    rewrite length_replicate, lookup_app_r by lia. rewrite lookup_drop. f_equal. lia.
Qed.

Lemma lenN_patch off bs data :
  lenN (patch off bs data) = N.max (lenN data) (off + lenN bs) ∨
  lenN bs = 0.
Proof.
  destruct (decide (lenN bs = 0)) as [|Hb]; [by right|left].
  unfold patch, lenN in *. rewrite !length_app, length_take, length_replicate, length_drop.
  lia.
Qed.

Lemma lenN_patch_app off bs data :
  off ≤ lenN data → lenN (patch off bs data) = N.max (lenN data) (off + lenN bs).
Proof.
  unfold patch, lenN. rewrite !length_app, length_take, length_replicate, length_drop.
  lia.
Qed.

Lemma patch_end bs data : patch (lenN data) bs data = data ++ bs.
Proof.
  apply list_eq. intros i. rewrite lookup_patch. unfold lenN. rewrite Nat2N.id.
  repeat case_decide; try lia.
  - by rewrite lookup_app_l.
  - by rewrite lookup_app_r by lia.
  - rewrite lookup_app_r by lia. rewrite !lookup_ge_None_2 by lia. done.
Qed.

Lemma patch_nil off data : off ≤ lenN data → patch off [] data = data.
Proof.
  intros. apply list_eq. intros i. rewrite lookup_patch. unfold lenN in *. simpl.
  repeat case_decide; try lia; done.
Qed.

(** Writing a prefix and then the rest is one write. *)
Lemma patch_patch off n bs data :
  (n ≤ length bs)%nat → off ≤ lenN data →
  patch (off + N.of_nat n) (drop n bs) (patch off (take n bs) data) = patch off bs data.
Proof.
  intros Hn Hoff. apply list_eq. intros i. rewrite !lookup_patch.
  assert (lenN (patch off (take n bs) data) = N.max (lenN data) (off + N.of_nat n)) as Hl.
  { rewrite lenN_patch_app by done. unfold lenN at 2. rewrite length_take. f_equal. lia. }
  unfold lenN in Hl, Hoff. rewrite length_drop, length_take.
  replace (N.to_nat (off + N.of_nat n)) with (N.to_nat off + n)%nat by lia.
  repeat case_decide; try lia; try done.
  - rewrite lookup_take_lt by lia. done.
  - rewrite lookup_drop. f_equal. lia.
Qed.

(** A span outside the patched range is unchanged; the patched range reads back. *)
Lemma span_patch_before off len o bs data :
  off + len ≤ o → off + len ≤ lenN data →
  span off len (patch o bs data) = span off len data.
Proof.
  intros H1 H2. apply list_eq. intros i. rewrite !lookup_span. case_decide; [|done].
  rewrite lookup_patch. unfold lenN in *. repeat case_decide; (lia || done).
Qed.

Lemma span_patch_here o bs data : span o (lenN bs) (patch o bs data) = bs.
Proof.
  apply list_eq. intros i. rewrite lookup_span. unfold lenN. rewrite Nat2N.id.
  case_decide.
  - rewrite lookup_patch. repeat case_decide; try lia. f_equal. lia.
  - by rewrite lookup_ge_None_2 by lia.
Qed.

Lemma span_app_l off len d1 d2 :
  off + len ≤ lenN d1 → span off len (d1 ++ d2) = span off len d1.
Proof.
  intros. apply list_eq. intros i. rewrite !lookup_span. case_decide; [|done].
  unfold lenN in *. by rewrite lookup_app_l by lia.
Qed.

Lemma span_app_r off len d1 d2 :
  span (lenN d1 + off) len (d1 ++ d2) = span off len d2.
Proof.
  unfold span, lenN. rewrite N2Nat.inj_add, Nat2N.id, <- drop_drop.
  by rewrite drop_app_length.
Qed.

(** ** The loops meet their specification *)

Section loop_specs.
Context {F : Type} `{FileLaws F}.

(** What is read is the span, whatever the sizes of the short reads. *)
Lemma read_exact_at_loop_ok fuel f len off acc bs :
  (N.to_nat len ≤ fuel)%nat →
  read_exact_at_loop fuel f len off acc = Ok bs →
  bs = acc ++ span off len (f_data f) ∧ lenN (span off len (f_data f)) = len.
Proof.
  revert len off acc. induction fuel as [|fuel IH]; intros len off acc Hf; simpl.
  - assert (len = 0) as -> by lia. intros [= <-]. by rewrite span_0, app_nil_r.
  - destruct (N.eqb_spec len 0) as [->|Hlen].
    { intros [= <-]. by rewrite span_0, app_nil_r. }
    intros Hr. apply bind_Ok_inv in Hr as (x & Hx & Hr). cbn beta in Hr.
    apply f_read_ok in Hx as (Hle & Hx & _).
    destruct (N.eqb_spec (lenN x) 0); [done|].
    apply IH in Hr as [-> Hlen']; [|lia].
    replace len with (lenN x + (len - lenN x)) by lia.
    rewrite <- span_split, <- Hx, lenN_app, <- app_assoc.
    split; [do 3 f_equal; lia|]. replace (lenN x + (len - lenN x) - lenN x)
      with (len - lenN x) in Hlen' by lia. lia.
Qed.

Lemma read_exact_at_ok f len off bs :
  read_exact_at f len off = Ok bs →
  bs = span off len (f_data f) ∧ lenN bs = len.
Proof.
  intros Hr. apply read_exact_at_loop_ok in Hr as [-> Hl]; [|done].
  by rewrite app_nil_l.
Qed.

Lemma read_exact_at_loop_healthy fuel f len off acc :
  f_healthy f → off + len ≤ lenN (f_data f) → is_ok (read_exact_at_loop fuel f len off acc).
Proof.
  intros Hh. revert len off acc. induction fuel as [|fuel IH]; intros len off acc Hb; [done|].
  simpl. destruct (N.eqb_spec len 0); [done|].
  pose proof (f_read_healthy f len off Hh) as Hok.
  destruct (f_read f len off) as [bs|e] eqn:Hr; [|done]. simpl.
  apply f_read_ok in Hr as (Hle & _ & Heof).
  destruct (N.eqb_spec (lenN bs) 0) as [Hz|].
  - destruct Heof; [|lia..]. unfold lenN in Hz. by destruct bs.
  - apply IH. lia.
Qed.

(** Enough bytes and no I/O error: the loop returns the span. *)
Lemma read_exact_at_spec f len off :
  f_healthy f → off + len ≤ lenN (f_data f) →
  read_exact_at f len off = Ok (span off len (f_data f)).
Proof.
  intros Hh Hb. unfold read_exact_at.
  pose proof (read_exact_at_loop_healthy (N.to_nat len) f len off [] Hh Hb) as Hok.
  destruct (read_exact_at_loop _ _ _ _ _) as [bs|] eqn:Hr; [|done].
  by apply read_exact_at_loop_ok in Hr as [-> _].
Qed.

(** Writing: [write_exact_at] is one patch of the file, however the writes split. *)
Lemma write_loop_ok fuel buf off (f f' : F) :
  (length buf ≤ fuel)%nat → off ≤ lenN (f_data f) →
  write_exact_at_impl_loop fuel write_at buf off f = (f', Ok ()) →
  f_data f' = patch off buf (f_data f).
Proof.
  revert buf off f. induction fuel as [|fuel IH]; intros buf off f Hf Hoff; cbn.
  { destruct buf; simpl in Hf; [|lia]. intros [= ->]. by rewrite patch_nil. }
  destruct (N.eqb_spec (lenN buf) 0) as [Hz|Hz].
  { unfold lenN in Hz. destruct buf; [|done]. intros [= ->]. by rewrite patch_nil. }
  intros Hr. apply M_bind_Ok_inv in Hr as (f1 & n & Hw & Hr). cbn beta in Hr.
  apply f_write_ok in Hw as [Hn Hd].
  destruct (N.eqb_spec n 0) as [->|Hn0]; [done|].
  assert (lenN (f_data f1) = N.max (lenN (f_data f)) (off + n)) as Hl.
  { rewrite Hd, lenN_patch_app, lenN_take by done. lia. }
  apply IH in Hr; [|rewrite length_drop; unfold lenN in *; lia|lia].
  rewrite Hr, Hd. unfold lenN in Hn. rewrite <- (N2Nat.id n) at 1.
  apply patch_patch; [lia|done].
Qed.

Lemma write_exact_at_ok buf off (f f' : F) :
  off ≤ lenN (f_data f) → write_exact_at buf off f = (f', Ok ()) →
  f_data f' = patch off buf (f_data f).
Proof. intros. by eapply write_loop_ok. Qed.

(** A failed write may leave a partial write, never a change below its offset. *)
Lemma write_loop_below fuel buf off (f : F) :
  off ≤ lenN (f_data f) →
  let f' := (write_exact_at_impl_loop fuel write_at buf off f).1 in
  lenN (f_data f) ≤ lenN (f_data f') ∧
  take (N.to_nat off) (f_data f') = take (N.to_nat off) (f_data f).
Proof.
  cbv zeta. revert buf off f. induction fuel as [|fuel IH]; intros buf off f Hoff; [done|].
  cbn. destruct (lenN buf =? 0); [done|]. unfold mbind, M_bind.
  destruct (write_at buf off f) as [f1 [n|e]] eqn:Hw; cbn; last first.
  { by rewrite (f_write_err _ _ _ _ _ Hw). }
  apply f_write_ok in Hw as [Hn Hd].
  assert (lenN (f_data f1) = N.max (lenN (f_data f)) (off + n)) as Hl.
  { rewrite Hd, lenN_patch_app, lenN_take by done. lia. }
  assert (take (N.to_nat off) (f_data f1) = take (N.to_nat off) (f_data f)) as Ht.
  { rewrite Hd. unfold patch, lenN in *. rewrite take_app_le by (rewrite length_take; lia).
    rewrite take_take. f_equal. lia. }
  destruct (n =? 0); cbn; [by split; [lia|]|].
  destruct (IH (drop (N.to_nat n) buf) (off + n) f1) as [IHl IHt]; [lia|].
  split; [lia|]. rewrite <- Ht.
  apply (f_equal (take (N.to_nat off))) in IHt. rewrite !take_take in IHt.
  by replace (min (N.to_nat off) (N.to_nat (off + n))) with (N.to_nat off) in IHt by lia.
Qed.

Lemma write_exact_at_below buf off (f : F) :
  off ≤ lenN (f_data f) →
  let f' := (write_exact_at buf off f).1 in
  lenN (f_data f) ≤ lenN (f_data f') ∧
  take (N.to_nat off) (f_data f') = take (N.to_nat off) (f_data f).
Proof. apply write_loop_below. Qed.

(** No I/O error: the write succeeds. *)
Lemma write_loop_healthy fuel buf off (f : F) :
  f_healthy f → ∃ f', write_exact_at_impl_loop fuel write_at buf off f = (f', Ok ()) ∧
    f_healthy f'.
Proof.
  revert buf off f. induction fuel as [|fuel IH]; intros buf off f Hh; [by eexists|].
  cbn. destruct (N.eqb_spec (lenN buf) 0) as [|Hz]; [by eexists|].
  destruct (f_write_healthy f buf off Hh) as (f1 & n & Hw & Hh1 & Hn).
  rewrite (M_bind_ok (write_at buf off) _ f f1 n) by exact Hw.
  destruct (N.eqb_spec n 0); [|by apply IH].
  assert (0 < n); [|lia]. apply Hn. by intros ->.
Qed.

Lemma write_exact_at_spec buf off (f : F) :
  f_healthy f → off ≤ lenN (f_data f) →
  ∃ f', write_exact_at buf off f = (f', Ok ()) ∧ f_healthy f' ∧
    f_data f' = patch off buf (f_data f).
Proof.
  intros Hh Hoff. destruct (write_loop_healthy (length buf) buf off f Hh) as (f' & Hw & Hh').
  exists f'. split_and!; [done..|]. by eapply write_exact_at_ok.
Qed.

End loop_specs.

(** [copy_ranges] concatenates the spans, in megabyte pieces or not. *)
Section copy_specs.
Context {F : Type} `{CompioLaws F}.

Definition spans (ranges : list (N * N)) (data : list byte) : list byte :=
  mjoin ((λ r : N * N, span r.1 r.2 data) <$> ranges).

Lemma copy_range_loop_ok fuel src remaining pos dst out_offset dst' out' :
  (N.to_nat remaining ≤ fuel)%nat → out_offset = lenN (f_data dst) →
  copy_range_loop fuel src remaining pos dst out_offset = Ok (dst', out') →
  f_data dst' = f_data dst ++ span pos remaining (f_data src) ∧
  lenN (span pos remaining (f_data src)) = remaining ∧
  out' = lenN (f_data dst').
Proof.
  revert remaining pos dst out_offset. induction fuel as [|fuel IH];
    intros remaining pos dst out Hf Hout; cbn [copy_range_loop].
  { assert (remaining = 0) as -> by lia. intros [= -> ->]. by rewrite span_0, app_nil_r. }
  destruct (N.eqb_spec remaining 0) as [->|Hr].
  { intros [= -> ->]. by rewrite span_0, app_nil_r. }
  intros Hc. apply bind_Ok_inv in Hc as (data & Hread & Hc). cbn beta in Hc.
  apply bind_Ok_inv in Hc as (dst1 & Hw & Hc). cbn beta in Hc.
  apply with_context_Ok_inv, cp_read_ok in Hread as [Hl Hd].
  apply with_context_Ok_inv, cp_write_ok in Hw.
  rewrite Hout, patch_end in Hw.
  assert (0 < COPY_CHUNK) by done. set (want := N.min remaining COPY_CHUNK) in *.
  apply IH in Hc as (Hd' & Hl' & ->); [|lia|rewrite Hw, lenN_app; lia].
  replace remaining with (want + (remaining - want)) by lia.
  rewrite <- span_split, Hd', Hw, <- Hd, <- app_assoc.
  split_and!; [do 3 f_equal; lia| |done].
  rewrite lenN_app, Hl. replace (want + (remaining - want) - want) with (remaining - want)
    in Hl' by lia. lia.
Qed.

Lemma copy_ranges_loop_ok src ranges dst out_offset dst' out' :
  out_offset = lenN (f_data dst) →
  copy_ranges_loop src ranges dst out_offset = Ok (dst', out') →
  f_data dst' = f_data dst ++ spans ranges (f_data src) ∧ out' = lenN (f_data dst') ∧
  Forall (λ r : N * N, lenN (span r.1 r.2 (f_data src)) = r.2) ranges.
Proof.
  revert dst out_offset. induction ranges as [|[start len] ranges IH]; intros dst out Hout;
    cbn [copy_ranges_loop].
  { intros [= -> ->]. unfold spans; cbn. rewrite app_nil_r. auto. }
  intros Hc. apply bind_Ok_inv in Hc as ([dst1 out1] & Hr & Hc). cbn beta in Hc.
  apply copy_range_loop_ok in Hr as (Hd1 & Hl & Ho1); [|done..].
  apply IH in Hc as (Hd' & Ho' & Hall); [|done].
  split_and!; [|done|by constructor].
  cbn [fst] in Hd'. rewrite Hd', Hd1. unfold spans. cbn. by rewrite app_assoc.
Qed.

Lemma copy_ranges_ok src ranges dst total :
  copy_ranges src ranges = Ok (dst, total) →
  f_data dst = spans ranges (f_data src) ∧ total = lenN (f_data dst) ∧
  Forall (λ r : N * N, lenN (span r.1 r.2 (f_data src)) = r.2) ranges.
Proof.
  unfold copy_ranges. intros Hc. inv_ok.
  match goal with H : cp_create = Ok _ |- _ => apply cp_create_ok in H as Hnil end.
  match goal with H : copy_ranges_loop _ _ _ _ = Ok _ |- _ =>
    apply copy_ranges_loop_ok in H as (-> & -> & ?); [|by rewrite Hnil] end.
  by rewrite Hnil.
Qed.

End copy_specs.

(** The sequential writer appends: its file is what has been written, in order. *)
Definition writer_ok {F} `{!FileOps F} (w : CompioWriter F) : Prop :=
  cw_offset w = lenN (f_data (cw_file w)).

Section writer_specs.
Context {F : Type} `{CompioLaws F}.

Lemma writer_create_ok w : writer_create = Ok w → writer_ok w ∧ f_data (cw_file w) = [].
Proof.
  unfold writer_create, writer_ok. intros Hc. inv_ok.
  match goal with H : cp_create = Ok _ |- _ => apply cp_create_ok in H as Hnil end.
  cbn. by rewrite Hnil.
Qed.

Lemma write_owned_ok w data w' :
  writer_ok w → lenN (f_data (cw_file w)) + lenN data < 2^64 →
  write_owned w data = Ok w' →
  writer_ok w' ∧ f_data (cw_file w') = f_data (cw_file w) ++ data.
Proof.
  unfold write_owned, writer_ok. intros Hw Hb Hc. inv_ok.
  match goal with H : cp_write_all _ _ _ = Ok _ |- _ => apply cp_write_ok in H as Hd end.
  rewrite Hw, patch_end in Hd. cbn. rewrite Hd, lenN_app, Hw, add_u64_small by done. done.
Qed.

End writer_specs.

(** ** Spans below a bound only depend on the bytes below it *)

Lemma span_take_bound n off len data :
  off + len ≤ n → span off len (take (N.to_nat n) data) = span off len data.
Proof.
  intros Hb. apply list_eq. intros i. rewrite !lookup_span. case_decide; [|done].
  rewrite lookup_take_lt by lia. done.
Qed.

Lemma span_agree n off len d1 d2 :
  off + len ≤ n → take (N.to_nat n) d1 = take (N.to_nat n) d2 →
  span off len d1 = span off len d2.
Proof.
  intros Hb Ht. by rewrite <- (span_take_bound n off len d1), Ht, span_take_bound.
Qed.

Lemma take_agree_le (n k : N) (d1 d2 : list byte) :
  n ≤ k → take (N.to_nat k) d1 = take (N.to_nat k) d2 →
  take (N.to_nat n) d1 = take (N.to_nat n) d2.
Proof.
  intros Hn Ht. apply (f_equal (take (N.to_nat n))) in Ht. rewrite !take_take in Ht.
  by replace (min (N.to_nat n) (N.to_nat k)) with (N.to_nat n) in Ht by lia.
Qed.

Lemma take_patch off bs data :
  off ≤ lenN data → take (N.to_nat off) (patch off bs data) = take (N.to_nat off) data.
Proof.
  intros Ho. unfold patch, lenN in *. rewrite take_app_le by (rewrite length_take; lia).
  rewrite take_take. f_equal. lia.
Qed.

(** ** A file in memory

    [mf_limit] bounds the bytes one call moves, so that reads and writes come in
    pieces; a limit of zero is a device that fails every transfer. *)
Record MemFile := mkFile { mf_data : list byte; mf_limit : N }.

#[global] Instance MemFile_ops : FileOps MemFile := {
  f_read f len off :=
    if mf_limit f =? 0 then bail "I/O 错误"
    else Ok (span off (N.min len (mf_limit f)) (mf_data f));
  f_write f bs off :=
    if mf_limit f =? 0 then (f, bail "I/O 错误")
    else let n := N.min (lenN bs) (mf_limit f) in
      (mkFile (patch off (take (N.to_nat n) bs) (mf_data f)) (mf_limit f), Ok n);
  f_data := mf_data;
  f_healthy f := 0 < mf_limit f
}.

#[global] Instance MemFile_compio : CompioOps MemFile := {
  cp_open f := if mf_limit f =? 0 then bail "I/O 错误" else Ok ();
  cp_create := Ok (mkFile [] 3);
  cp_read_exact f len off :=
    if (mf_limit f =? 0) || (lenN (mf_data f) <? off + len) then bail "I/O 错误"
    else Ok (span off len (mf_data f));
  cp_write_all f bs off :=
    if mf_limit f =? 0 then bail "I/O 错误" else Ok (mkFile (patch off bs (mf_data f)) (mf_limit f));
  cp_sync f := Ok ();
  cp_close f := Ok ()
}.

#[global] Instance MemFile_laws : FileLaws MemFile.
Proof.
  split; cbn.
  - intros f len off bs. destruct (N.eqb_spec (mf_limit f) 0); [done|]. intros [= <-].
    pose proof (lenN_span_le off (N.min len (mf_limit f)) (mf_data f)) as Hle.
    split_and!; [lia| |].
    + set (bs := span _ _ _) in *. apply list_eq. intros i. rewrite lookup_span.
      unfold bs in *. rewrite lookup_span. case_decide as H1; case_decide as H2; try done.
      * apply lookup_ge_None_2. unfold lenN, span in H2.
        rewrite Nat2N.id, length_take, length_drop in H2. lia.
      * exfalso. apply H1. unfold lenN in Hle, H2. lia.
    + intros Hnil. assert (lenN (span off (N.min len (mf_limit f)) (mf_data f)) = 0) as Hz
        by (by rewrite Hnil).
      unfold lenN, span in Hz |- *. rewrite length_take, length_drop in Hz. lia.
  - intros f bs off f' n. destruct (N.eqb_spec (mf_limit f) 0); [done|].
    intros [= <- <-]. split; [lia|done].
  - intros f bs off f' e. destruct (N.eqb_spec (mf_limit f) 0); [by intros [= <- _]|done].
  - intros f len off Hl. destruct (N.eqb_spec (mf_limit f) 0); [lia|done].
  - intros f bs off Hl. destruct (N.eqb_spec (mf_limit f) 0); [lia|].
    eexists _, _. split; [done|]. split; [done|]. intros Hbs.
    assert (lenN bs ≠ 0); [|lia]. unfold lenN. by destruct bs.
Qed.

#[global] Instance MemFile_compio_laws : CompioLaws MemFile.
Proof.
  split; cbn.
  - by intros f [= <-].
  - intros f len off bs. destruct ((mf_limit f =? 0) || _) eqn:Hc; [done|]. intros [= <-].
    apply orb_false_iff in Hc as [_ Hc%N.ltb_ge]. split; [by apply lenN_span|done].
  - intros f bs off f'. destruct (mf_limit f =? 0); [done|]. by intros [= <-].
Qed.
