(* ===== verification/Redb.v ===== *)
(** * Redb: the embedded database and the JSON records kept in it

    redb and serde_json are third-party crates: this file states them as
    interfaces.  [RedbOps] lists the calls the program makes on a database, on a
    read transaction and on a write transaction, every one fallible; [RedbLaws]
    their documented behaviour (a transaction sees a snapshot, a table is a
    finite map, iteration is in key order).  [read_txn] and [write_txn] are the
    two shapes in which the program uses them.  A concrete in-memory database
    instantiates the interface for the examples. *)

From S2P Require Import Prelude Bytes.

(** ** Table definitions *)

(** The key and value types the program stores: [u64] and [String]. *)
Inductive ty := U64 | Str.

Definition ty_car (t : ty) : Type := match t with U64 => N | Str => string end.

#[global] Instance ty_eq_dec : EqDecision ty.
Proof. solve_decision. Defined.
#[global] Instance ty_car_eq_dec t : EqDecision (ty_car t).
Proof. destruct t; apply _. Defined.
#[global] Instance ty_car_countable t : Countable (ty_car t).
Proof. destruct t; apply _. Defined.

(** The order of the keys of a table: numeric, or bytewise on strings. *)
Definition ty_le (t : ty) : relation (ty_car t) :=
  match t with U64 => N.le | Str => str_le end.

(** [TableDefinition::new(name)] *)
Record TableDefinition := mkTable { td_name : string; td_key : ty; td_val : ty }.

#[global] Instance table_eq_dec : EqDecision TableDefinition.
Proof. solve_decision. Defined.

Notation Key t := (ty_car (td_key t)).
Notation Val t := (ty_car (td_val t)).

(** ** The interface *)

(** [D] is a database as a value: what is committed, the snapshot a read
    transaction sees, or the state a write transaction is building. *)
Class RedbOps (D : Type) := {
  begin_read : D → result error D;
  begin_write : D → result error D;
  (** [read_txn.open_table]: fails when the table was never created *)
  open_read : D → TableDefinition → result error ();
  (** [write_txn.open_table]: creates the table when it is missing *)
  open_write : D → TableDefinition → result error D;
  tbl_get : D → ∀ t, Key t → result error (option (Val t));
  tbl_iter : D → ∀ t, result error (list (result error (Key t * Val t)));
  tbl_insert : D → ∀ t, Key t → Val t → result error D;
  tbl_remove : D → ∀ t, Key t → result error (D * option (Val t));
  commit : D → result error D;
  (** what the laws speak about: the tables, and which of them exist *)
  contents : D → ∀ t, gmap (Key t) (Val t);
  has_table : D → TableDefinition → Prop;
  db_healthy : D → Prop
}.

(** Two databases with the same tables and the same contents. *)
Definition db_equiv {D} `{!RedbOps D} (d1 d2 : D) : Prop :=
  ∀ t, contents d1 t = contents d2 t ∧ (has_table d1 t ↔ has_table d2 t).

#[global] Instance db_equiv_equivalence {D} `{!RedbOps D} : Equivalence (@db_equiv D _).
Proof.
  split.
  - intros d t; done.
  - intros d1 d2 H t. destruct (H t); split; [done|tauto].
  - intros d1 d2 d3 H1 H2 t. destruct (H1 t), (H2 t). split; [congruence|tauto].
Qed.

(** The entries of a table in key order. *)
Definition sorted_entries {t} (l : list (Key t * Val t)) (m : gmap (Key t) (Val t)) : Prop :=
  l ≡ₚ map_to_list m ∧ StronglySorted (ty_le (td_key t)) l.*1.

Class RedbLaws (D : Type) `{!RedbOps D} : Prop := {
  begin_read_ok d s : begin_read d = Ok s → db_equiv s d;
  begin_write_ok d w : begin_write d = Ok w → db_equiv w d;
  open_write_ok w t w' : open_write w t = Ok w' →
    (∀ t', contents w' t' = contents w t') ∧
    (∀ t', has_table w' t' ↔ t' = t ∨ has_table w t');
  get_ok d t k v : tbl_get d t k = Ok v → v = contents d t !! k;
  iter_ok d t l kvs : tbl_iter d t = Ok l → mapM id l = Ok kvs →
    sorted_entries kvs (contents d t);
  insert_ok w t k v w' : tbl_insert w t k v = Ok w' →
    contents w' t = <[k := v]> (contents w t) ∧
    (∀ t', t' ≠ t → contents w' t' = contents w t') ∧
    (∀ t', has_table w' t' ↔ has_table w t');
  remove_ok w t k w' v : tbl_remove w t k = Ok (w', v) →
    v = contents w t !! k ∧ contents w' t = delete k (contents w t) ∧
    (∀ t', t' ≠ t → contents w' t' = contents w t') ∧
    (∀ t', has_table w' t' ↔ has_table w t');
  commit_ok w d : commit w = Ok d → db_equiv d w
}.

(** A healthy database meets no storage error. *)
Class RedbHealthy (D : Type) `{!RedbOps D} : Prop := {
  begin_read_healthy d : db_healthy d → ∃ s, begin_read d = Ok s ∧ db_healthy s;
  begin_write_healthy d : db_healthy d → ∃ w, begin_write d = Ok w ∧ db_healthy w;
  open_read_healthy d t : db_healthy d → has_table d t → open_read d t = Ok ();
  open_write_healthy d t : db_healthy d → ∃ w, open_write d t = Ok w ∧ db_healthy w;
  get_healthy d t k : db_healthy d → ∃ v, tbl_get d t k = Ok v;
  iter_healthy d t : db_healthy d → ∃ l kvs, tbl_iter d t = Ok l ∧ mapM id l = Ok kvs;
  insert_healthy d t k v : db_healthy d → ∃ w, tbl_insert d t k v = Ok w ∧ db_healthy w;
  remove_healthy d t k : db_healthy d → ∃ w v, tbl_remove d t k = Ok (w, v) ∧ db_healthy w;
  commit_healthy d : db_healthy d → ∃ w, commit d = Ok w ∧ db_healthy w
}.

(** ** Transactions *)

(** How the body of a write transaction ends: it falls through to the commit,
    or returns early and drops the transaction, which rolls it back. *)
Inductive txn_end (D A : Type) := Commit (w : D) (a : A) | Rollback (a : A).
Arguments Commit {D A}. Arguments Rollback {D A}.

Section transactions.
Context {D : Type} `{!RedbOps D}.

(** [let read_txn = db.begin_read()?; let table = read_txn.open_table(T)?; ..] *)
Definition read_txn {A} (open_msg : string) (t : TableDefinition)
    (body : D → result error A) (d : D) : result error A :=
  snap ← with_context "开始只读事务失败" (begin_read d);
  with_context open_msg (open_read snap t);;
  body snap.

(** [let write_txn = db.begin_write()?; { open_table(T)?; .. } write_txn.commit()?] *)
Definition write_txn {A} (begin_msg open_msg commit_msg : string) (t : TableDefinition)
    (body : D → result error (txn_end D A)) : M D error A := λ d,
  match
    w ← with_context begin_msg (begin_write d);
    w ← with_context open_msg (open_write w t);
    r ← body w;
    match r with
    | Commit w a => d' ← with_context commit_msg (commit w); mret (d', a)
    | Rollback a => mret (d, a)
    end
  with
  | Ok (d', a) => (d', Ok a)
  | Err e => (d, Err e)
  end.

(** [for item in table.iter()? { let (k, v) = item?; .. }] *)
Definition iter_all (iter_msg item_msg : string) (t : TableDefinition) (d : D) :
    result error (list (Key t * Val t)) :=
  items ← with_context iter_msg (tbl_iter d t);
  mapM (with_context item_msg) items.

(** The same loop when its body can fail too, item by item. *)
Definition iter_map {A} (iter_msg item_msg : string) (t : TableDefinition)
    (f : Key t * Val t → result error A) (d : D) : result error (list A) :=
  items ← with_context iter_msg (tbl_iter d t);
  mapM (λ item, kv ← with_context item_msg item; f kv) items.

End transactions.

(** ** serde_json *)

Class JsonOps (A : Type) := {
  to_string : A → result error string;
  from_str : string → result error A
}.
Class JsonLaws (A : Type) `{!JsonOps A} : Prop := {
  json_total a : is_ok (to_string a);
  json_roundtrip a s : to_string a = Ok s → from_str s = Ok a
}.

(** [encode]/[decode] of crates/scheduler/src/db.rs. *)
Definition encode {A} `{!JsonOps A} (value : A) : result error string :=
  with_context "序列化记录失败" (to_string value).
Definition decode {A} `{!JsonOps A} (text : string) : result error A :=
  with_context "反序列化记录失败" (from_str text).

Section json.
Context {A : Type} `{JsonLaws A}.

Lemma encode_total (a : A) : ∃ s, encode a = Ok s ∧ decode (A:=A) s = Ok a.
Proof.
  pose proof (json_total a) as Ht. unfold encode, decode.
  destruct (to_string a) as [s|e] eqn:Hs; [|done].
  exists s. split; [done|]. by rewrite (json_roundtrip _ _ Hs).
Qed.

Lemma encode_ok (a : A) s : encode a = Ok s → decode (A:=A) s = Ok a.
Proof.
  intros Hs%with_context_Ok_inv%json_roundtrip. unfold decode. by rewrite Hs.
Qed.

End json.

(** ** What the transactions do *)

Lemma mapM_context_Ok {A} msg (l : list (result error A)) xs :
  mapM (with_context msg) l = Ok xs → mapM id l = Ok xs.
Proof.
  revert xs. induction l as [|r l IH]; intros xs; [done|]. cbn.
  destruct r as [a|e]; [|done]. cbn.
  destruct (mapM (with_context msg) l) as [ys|] eqn:Hl; [|done]. cbn.
  intros [= <-]. by rewrite (IH ys).
Qed.

Lemma mapM_context_id {A} msg (l : list (result error A)) xs :
  mapM id l = Ok xs → mapM (with_context msg) l = Ok xs.
Proof.
  revert xs. induction l as [|r l IH]; intros xs; [done|]. cbn.
  destruct r as [a|e]; [|done]. cbn.
  destruct (mapM id l) as [ys|] eqn:Hl; [|done]. cbn.
  intros [= <-]. by rewrite (IH ys).
Qed.

Lemma mapM_Forall2 {E A B} (f : A → result E B) l ys :
  mapM f l = Ok ys ↔ Forall2 (λ x y, f x = Ok y) l ys.
Proof.
  split.
  - revert ys. induction l as [|x l IH]; intros ys; cbn; [intros [= <-]; constructor|].
    intros Hm. apply bind_Ok_inv in Hm as (y & Hy & Hm).
    apply bind_Ok_inv in Hm as (ys' & Hys & Hm). injection Hm as <-.
    constructor; [done|by apply IH].
  - induction 1 as [|x y l ys Hx _ IH]; [done|]. cbn. rewrite Hx. cbn. by rewrite IH.
Qed.

Lemma mapM_map_Ok {A B} (msg : string) (f : A → result error B) items ys :
  mapM (λ item, x ← with_context msg item; f x) items = Ok ys →
  ∃ xs, mapM id items = Ok xs ∧ mapM f xs = Ok ys.
Proof.
  intros Hm%mapM_Forall2. induction Hm as [|item y items ys Hx _ (xs & Hxs & Hys)].
  { by exists []. }
  apply bind_Ok_inv in Hx as (x & Hi%with_context_Ok_inv & Hx). exists (x :: xs). cbn.
  subst. split; cbn.
  - by rewrite Hxs.
  - rewrite Hx. cbn. by rewrite Hys.
Qed.

Lemma mapM_map_id {A B} (msg : string) (f : A → result error B) items xs :
  mapM id items = Ok xs →
  mapM (λ item, x ← with_context msg item; f x) items = mapM f xs.
Proof.
  revert xs. induction items as [|item items IH]; intros xs; cbn; [by intros [= <-]|].
  intros Hm. apply bind_Ok_inv in Hm as (x & Hx & Hm). unfold id in Hx. subst item.
  apply bind_Ok_inv in Hm as (xs' & Hxs & Hm). injection Hm as <-. cbn.
  destruct (f x) as [y|e]; cbn; [|done]. by rewrite (IH xs').
Qed.

Section txn_lemmas.
Context {D : Type} `{RedbLaws D}.

Lemma read_txn_Ok_inv {A} msg t (body : D → result error A) d a :
  read_txn msg t body d = Ok a → ∃ s, db_equiv s d ∧ body s = Ok a.
Proof.
  unfold read_txn. intros Hr. apply bind_Ok_inv in Hr as (s & Hs & Hr).
  apply with_context_Ok_inv, begin_read_ok in Hs.
  apply bind_Ok_inv in Hr as (_ & _ & Hr). by exists s.
Qed.

(** A failed write transaction leaves the database as it was. *)
Lemma write_txn_Err_inv {A} m1 m2 m3 t (body : D → result error (txn_end D A)) d d' e :
  write_txn m1 m2 m3 t body d = (d', Err e) → d' = d.
Proof.
  unfold write_txn. destruct (begin_write d ) as [w|]; cbn; [|by intros [= <-]].
  destruct (open_write w t) as [w2|]; cbn; [|by intros [= <-]].
  destruct (body w2) as [[w3 a|a]|]; cbn; [|done|by intros [= <-]].
  destruct (commit w3) as [d3|]; cbn; [done|by intros [= <-]].
Qed.

Lemma write_txn_Ok_inv {A} m1 m2 m3 t (body : D → result error (txn_end D A)) d d' a :
  write_txn m1 m2 m3 t body d = (d', Ok a) →
  ∃ w, (∀ t', contents w t' = contents d t') ∧
    (∀ t', has_table w t' ↔ t' = t ∨ has_table d t') ∧
    ((∃ w', body w = Ok (Commit w' a) ∧ db_equiv d' w') ∨
     (body w = Ok (Rollback a) ∧ d' = d)).
Proof.
  unfold write_txn. destruct (begin_write d ) as [w|] eqn:Hb; cbn; [|done].
  destruct (open_write w t) as [w2|] eqn:Ho; cbn; [|done].
  apply begin_write_ok in Hb. apply open_write_ok in Ho as [Hc Ht].
  intros Hr. exists w2. split_and!.
  - intros t'. by rewrite Hc, (proj1 (Hb t')).
  - intros t'. rewrite Ht. by rewrite (proj2 (Hb t')).
  - destruct (body w2) as [[w3 b|b]|]; cbn in Hr; [|by right; simplify_eq|done].
    destruct (commit w3) as [d3|] eqn:Hcm; cbn in Hr; [|done]. simplify_eq.
    left. exists w3. split; [done|]. by apply commit_ok.
Qed.

Lemma iter_all_ok m1 m2 t d kvs :
  iter_all m1 m2 t d = Ok kvs → sorted_entries kvs (contents d t).
Proof.
  unfold iter_all. intros Hi. apply bind_Ok_inv in Hi as (l & Hl & Hi).
  apply with_context_Ok_inv in Hl. apply mapM_context_Ok in Hi. by eapply iter_ok.
Qed.

Lemma iter_map_ok {A} m1 m2 t (f : _ → result error A) d ys :
  iter_map m1 m2 t f d = Ok ys →
  ∃ kvs, sorted_entries kvs (contents d t) ∧ mapM f kvs = Ok ys.
Proof.
  unfold iter_map. intros Hi. apply bind_Ok_inv in Hi as (l & Hl & Hi).
  apply with_context_Ok_inv in Hl. apply mapM_map_Ok in Hi as (kvs & Hk & Hy).
  exists kvs. split; [by eapply iter_ok|done].
Qed.

Context `{!RedbHealthy D}.

Lemma iter_map_healthy {A} m1 m2 t (f : _ → result error A) d :
  db_healthy d → ∃ kvs, sorted_entries kvs (contents d t) ∧ iter_map m1 m2 t f d = mapM f kvs.
Proof.
  intros Hd. destruct (iter_healthy d t Hd) as (l & kvs & Hl & Hk). exists kvs.
  split; [by eapply iter_ok|]. unfold iter_map. rewrite Hl. cbn. by apply mapM_map_id.
Qed.

Lemma read_txn_healthy {A} msg t (body : D → result error A) d :
  db_healthy d → has_table d t →
  ∃ s, db_equiv s d ∧ db_healthy s ∧ read_txn msg t body d = body s.
Proof.
  intros Hd Ht. destruct (begin_read_healthy d Hd) as (s & Hs & Hh).
  exists s. pose proof (begin_read_ok d s Hs) as He. split_and!; [done..|].
  unfold read_txn. rewrite Hs. cbn.
  rewrite open_read_healthy; [done..|]. by apply (He t).
Qed.

Lemma write_txn_healthy {A} m1 m2 m3 t (body : D → result error (txn_end D A)) d :
  db_healthy d →
  (∀ w, db_healthy w → (∀ t', contents w t' = contents d t') →
     ∃ w' a, body w = Ok (Commit w' a) ∧ db_healthy w') →
  ∃ d' a, write_txn m1 m2 m3 t body d = (d', Ok a) ∧ db_healthy d'.
Proof.
  intros Hd Hbody. destruct (begin_write_healthy d Hd) as (w & Hw & Hwh).
  destruct (open_write_healthy w t Hwh) as (w2 & Hw2 & Hw2h).
  destruct (Hbody w2 Hw2h) as (w3 & a & Hb & Hw3h).
  { intros t'. rewrite (proj1 (open_write_ok _ _ _ Hw2)). by apply begin_write_ok. }
  destruct (commit_healthy w3 Hw3h) as (d' & Hc & Hd').
  exists d', a. split; [|done]. unfold write_txn.
  rewrite Hw. cbn. rewrite Hw2. cbn. rewrite Hb. cbn. by rewrite Hc.
Qed.

Lemma iter_all_healthy m1 m2 t d :
  db_healthy d → ∃ kvs, iter_all m1 m2 t d = Ok kvs.
Proof.
  intros Hd. destruct (iter_healthy d t Hd) as (l & kvs & Hl & Hk). exists kvs.
  unfold iter_all. rewrite Hl. cbn. by apply mapM_context_id.
Qed.

End txn_lemmas.

(** ** An in-memory database *)

(** The tables as a function; [mem_broken] makes every commit fail. *)
Record MemDb := mkMem {
  mem_tables : ∀ t, gmap (Key t) (Val t);
  mem_exists : list TableDefinition;
  mem_broken : bool
}.

Definition mem_empty : MemDb := mkMem (λ _, ∅) [] false.

Definition mem_update (d : MemDb) t (m : gmap (Key t) (Val t)) : MemDb :=
  mkMem (λ t', match decide (t = t') with
               | left e => eq_rect t (λ t, gmap (Key t) (Val t)) m t' e
               | right _ => mem_tables d t'
               end) (mem_exists d) (mem_broken d).

Definition ty_leb (t : ty) : ty_car t → ty_car t → bool :=
  match t with
  | U64 => N.leb
  | Str => λ a b, bytes_leb (str_bytes a) (str_bytes b)
  end.

Fixpoint insert_entry {t} (kv : Key t * Val t) (l : list (Key t * Val t)) :=
  match l with
  | [] => [kv]
  | kv' :: l' => if ty_leb (td_key t) kv.1 kv'.1 then kv :: l else kv' :: insert_entry kv l'
  end.

Definition sort_entries {t} (l : list (Key t * Val t)) : list (Key t * Val t) :=
  foldr insert_entry [] l.

#[global] Instance MemDb_ops : RedbOps MemDb := {
  begin_read d := Ok d;
  begin_write d := Ok d;
  open_read d t := if decide (t ∈ mem_exists d) then Ok () else bail "表不存在";
  open_write d t := Ok (mkMem (mem_tables d) (t :: mem_exists d) (mem_broken d));
  tbl_get d t k := Ok (mem_tables d t !! k);
  tbl_iter d t := Ok (Ok <$> sort_entries (map_to_list (mem_tables d t)));
  tbl_insert d t k v := Ok (mem_update d t (<[k := v]> (mem_tables d t)));
  tbl_remove d t k := Ok (mem_update d t (delete k (mem_tables d t)), mem_tables d t !! k);
  commit d := if mem_broken d then bail "提交失败" else Ok d;
  contents d t := mem_tables d t;
  has_table d t := t ∈ mem_exists d;
  db_healthy d := mem_broken d = false
}.

Lemma mem_update_same d t m : mem_tables (mem_update d t m) t = m.
Proof.
  cbn. destruct (decide (t = t)) as [e|]; [|done].
  by rewrite (proof_irrel e eq_refl).
Qed.

Lemma mem_update_other d t t' m : t' ≠ t → mem_tables (mem_update d t m) t' = mem_tables d t'.
Proof. intros Ht. cbn. by destruct (decide (t = t')). Qed.

Lemma ty_leb_spec t a b : ty_leb t a b ↔ ty_le t a b.
Proof.
  destruct t; cbn; [|done]. split; intros Hab.
  - by apply N.leb_le, Is_true_true.
  - by apply Is_true_true, N.leb_le.
Qed.

Lemma ty_le_total t (a b : ty_car t) : ty_le t a b ∨ ty_le t b a.
Proof. destruct t; cbn; [lia|apply (total str_le)]. Qed.

#[global] Instance ty_le_trans t : Transitive (ty_le t).
Proof. destruct t; cbn; apply _. Qed.

Lemma insert_entry_perm {t} (kv : Key t * Val t) l : insert_entry kv l ≡ₚ kv :: l.
Proof.
  induction l as [|kv' l IH]; cbn; [done|]. destruct (ty_leb _ _ _); [done|].
  rewrite IH. apply Permutation_swap.
Qed.

Lemma sort_entries_perm {t} (l : list (Key t * Val t)) : sort_entries l ≡ₚ l.
Proof. induction l as [|kv l IH]; cbn; [done|]. by rewrite insert_entry_perm, IH. Qed.

Lemma insert_entry_sorted {t} (kv : Key t * Val t) l :
  StronglySorted (ty_le (td_key t)) l.*1 →
  StronglySorted (ty_le (td_key t)) (insert_entry kv l).*1.
Proof.
  induction l as [|kv' l IH]; cbn; [repeat constructor|].
  intros Hs. apply StronglySorted_inv in Hs as [Hs Hall].
  destruct (ty_leb _ _ _) eqn:Hle; cbn.
  - apply Is_true_true, ty_leb_spec in Hle. constructor; [by constructor|].
    constructor; [done|]. eapply Forall_impl; [exact Hall|]. cbn. intros k Hk. by trans kv'.1.
  - constructor; [by apply IH|]. rewrite insert_entry_perm. constructor; [|done].
    destruct (ty_le_total (td_key t) kv.1 kv'.1) as [H|H]; [|done].
    apply ty_leb_spec, Is_true_true in H. by rewrite H in Hle.
Qed.

Lemma sort_entries_sorted {t} (l : list (Key t * Val t)) :
  StronglySorted (ty_le (td_key t)) (sort_entries l).*1.
Proof. induction l; cbn; [constructor|]. by apply insert_entry_sorted. Qed.

Lemma mapM_id_Ok {E A} (l : list A) : mapM id (Ok (E:=E) <$> l) = Ok l.
Proof. induction l as [|a l IH]; [done|]. cbn in *. by rewrite IH. Qed.

#[global] Instance MemDb_laws : RedbLaws MemDb.
Proof.
  split.
  - by intros d s [= ->].
  - by intros d s [= ->].
  - intros w t w' [= <-]. split; [done|]. intros t'. cbn. by rewrite elem_of_cons.
  - by intros d t k v [= <-].
  - intros d t l kvs [= <-] Hk. rewrite mapM_id_Ok in Hk. injection Hk as <-.
    split; [apply sort_entries_perm|apply sort_entries_sorted].
  - intros w t k v w' [= <-]. split_and!; [apply mem_update_same| |done].
    intros t' Ht. by apply mem_update_other.
  - intros w t k w' v [= <- <-]. split_and!; [done|apply mem_update_same| |done].
    intros t' Ht. by apply mem_update_other.
  - intros w d. cbn. destruct (mem_broken w); [done|]. by intros [= ->].
Qed.

#[global] Instance MemDb_healthy : RedbHealthy MemDb.
Proof.
  split; cbn.
  - eauto.
  - eauto.
  - intros d t _ Ht. by rewrite decide_True.
  - intros d t Hd. eexists. split; [done|]. done.
  - eauto.
  - intros d t _. eexists _, _. split; [done|]. apply mapM_id_Ok.
  - intros d t k v Hd. eexists. split; [done|]. done.
  - intros d t k Hd. eexists _, _. split; [done|]. done.
  - intros d Hd. rewrite Hd. eauto.
Qed.

(** A JSON codec for the examples: the digits of the value's [Countable] code. *)
Fixpoint pos_text (p : positive) : string :=
  match p with
  | xH => EmptyString
  | xO p => String "0" (pos_text p)
  | xI p => String "1" (pos_text p)
  end.

Fixpoint text_pos (s : string) : positive :=
  match s with
  | EmptyString => xH
  | String c s => if Ascii.eqb c "0" then xO (text_pos s) else xI (text_pos s)
  end.

Lemma text_pos_text p : text_pos (pos_text p) = p.
Proof. induction p; cbn; congruence. Qed.

Definition countable_json {A} `{Countable A} : JsonOps A := {|
  to_string a := Ok (pos_text (countable.encode a));
  from_str s := ok_or ["非法 JSON"%string] (countable.decode (text_pos s))
|}.

Lemma countable_json_laws {A} `{Countable A} : @JsonLaws A countable_json.
Proof.
  split; [done|]. intros a s [= <-]. cbn. by rewrite text_pos_text, decode_encode.
Qed.
