(* ===== verification/Storage.v ===== *)
(** * Storage: the chunk store of one game (crates/origin/src/storage.rs)

    A [GameStore] is an append-only pack file and a redb index that maps a
    chunk's key to its offset and length packed in one [u64].  The file holds
    the store's operations as the code has them; that they implement a finite
    map from hashes to bytes is shown in StorageSpec, StorageBatch and
    StorageCompact. *)

From Stdlib Require Import SpecFloat.
From S2P Require Import Prelude Bytes FileIO Redb.

(** ** Index keys and packed positions *)

Definition TABLE : TableDefinition := mkTable "chunks" Str U64.
Definition LEN_MASK : N := 0xffffffff.

Definition key (game_id : N) (hash : hash32) : string :=
  (hex16 game_id ++ hex (hash_bytes hash))%string.

Definition unpack (value : N) : N * N :=
  (N.shiftr value 32, as_u32 (N.land value LEN_MASK)).

(** [(offset << 32) | u64::from(len)]: the shift drops what exceeds 64 bits. *)
Definition pack (offset len : N) : N :=
  N.lor (as_u64 (N.shiftl offset 32)) len.

#[global] Arguments unpack : simpl never.
#[global] Arguments pack : simpl never.

(** ** The interface the data plane uses *)

(** [trait ChunkSource]; the laws say that both methods read one finite map. *)
Class ChunkSource (S : Type) := {
  read_chunk : S → hash32 → result error (option (list byte));
  contains : S → hash32 → result error bool
}.

Class ChunkSourceLaws (S : Type) `{!ChunkSource S} := {
  holds : S → gmap hash32 (list byte) → Prop;
  read_chunk_holds s m h r : holds s m → read_chunk s h = Ok r → r = m !! h;
  contains_holds s m h b : holds s m → contains s h = Ok b → b = bool_decide (is_Some (m !! h))
}.

(** [NodeStore]: a pack store (IDC, origin) or any other source (cafe). *)
Inductive NodeStore (P C : Type) := Pack (store : P) | Cafe (store : C).
Arguments Pack {P C}. Arguments Cafe {P C}.

Definition NodeStore_read_chunk {P C} `{!ChunkSource P, !ChunkSource C}
    (s : NodeStore P C) (hash : hash32) : result error (option (list byte)) :=
  match s with
  | Pack store => read_chunk store hash
  | Cafe store => read_chunk store hash
  end.

Definition NodeStore_contains {P C} `{!ChunkSource P, !ChunkSource C}
    (s : NodeStore P C) (hash : hash32) : result error bool :=
  match s with
  | Pack store => contains store hash
  | Cafe store => contains store hash
  end.

#[global] Instance NodeStore_source {P C} `{!ChunkSource P, !ChunkSource C} :
  ChunkSource (NodeStore P C) := {|
  read_chunk := NodeStore_read_chunk;
  contains := NodeStore_contains
|}.

(** ** The store *)

(** [pack_path] and [pack_file] name one file until a rename replaces the path
    and reopening fails; then the handle is the detached old file. *)
Record GameStore (D F : Type) := mkStore {
  gs_game_id : N;
  gs_db : D;
  gs_path : F;
  gs_detached : option F;
  gs_size : N
}.
Arguments mkStore {D F}. Arguments gs_game_id {D F}. Arguments gs_db {D F}.
Arguments gs_path {D F}. Arguments gs_detached {D F}. Arguments gs_size {D F}.

(** Opening a game directory: redb's [Database::create] and the file options. *)
Class OpenOps (D F : Type) := {
  dir_create : result error ();
  db_create : option D → result error D;
  file_open_create : option F → result error F;
  file_len : F → result error N;
  (** [std::fs::rename(tmp, pack)] and reopening the path *)
  file_rename : result error ();
  file_reopen : F → result error ()
}.

Class OpenLaws (D F : Type) `{!RedbOps D, !FileOps F, !OpenOps D F} : Prop := {
  db_create_ok o d : db_create o = Ok d →
    match o with Some d0 => db_equiv d d0 | None => ∀ t, contents d t = ∅ end;
  file_open_ok o f : file_open_create o = Ok f →
    f_data f = match o with Some f0 => f_data f0 | None => [] end;
  file_len_ok f n : file_len f = Ok n → n = lenN (f_data f)
}.

Section store.
Context {D F : Type} `{!RedbOps D, !FileOps F, !CompioOps F, !OpenOps D F}.
Implicit Types (s : GameStore D F).

Definition pack_file s : F := default (gs_path s) (gs_detached s).

Definition set_pack_file (f : F) s : GameStore D F :=
  match gs_detached s with
  | None => mkStore (gs_game_id s) (gs_db s) f None (gs_size s)
  | Some _ => mkStore (gs_game_id s) (gs_db s) (gs_path s) (Some f) (gs_size s)
  end.

Definition set_db (d : D) s : GameStore D F :=
  mkStore (gs_game_id s) d (gs_path s) (gs_detached s) (gs_size s).

Definition set_size (n : N) s : GameStore D F :=
  mkStore (gs_game_id s) (gs_db s) (gs_path s) (gs_detached s) n.

Definition on_file {A} (m : M F error A) : M (GameStore D F) error A :=
  zoom pack_file set_pack_file m.
Definition on_db {A} (m : M D error A) : M (GameStore D F) error A :=
  zoom gs_db set_db m.

(** [GameStore::open]: the game directory may already hold the database and the
    pack file; the second component is what is on disk afterwards. *)
Definition open (dir : option D * option F) (game_id : N) : result error (GameStore D F) :=
  with_context "创建游戏目录失败" dir_create;;
  db ← with_context "创建本地索引失败" (db_create dir.1);
  db ← (w ← with_context "开始建表事务失败" (begin_write db);
        w ← with_context "创建索引表失败" (open_write w TABLE);
        with_context "提交建表事务失败" (commit w));
  pack_file ← with_context "打开块文件失败" (file_open_create dir.2);
  size ← with_context "读取块文件大小失败" (file_len pack_file);
  mret (mkStore game_id db pack_file None size).

(** The index read shared by the operations. *)
Definition lookup_index s (hash : hash32) : result error (option N) :=
  read_txn "打开索引表失败" TABLE
    (λ snap, with_context "查询索引失败" (tbl_get snap TABLE (key (gs_game_id s) hash)))
    (gs_db s).

Definition insert_entries (game_id : N) (msg : string) (es : list (hash32 * (N * N))) (w : D) :
    result error D :=
  foldr (λ e next (w : D),
    w ← with_context msg (tbl_insert w TABLE (key game_id e.1) (pack e.2.1 e.2.2));
    next w) mret es w.

(** The write transaction with which both append operations publish. *)
Definition write_index (game_id : N) (es : list (hash32 * (N * N))) :
    M (GameStore D F) error () :=
  on_db (write_txn "开始写事务失败" "打开索引表失败" "提交索引事务失败" TABLE (λ w,
    w ← insert_entries game_id "写入索引失败" es w;
    mret (Commit w ()))).

Definition append_chunk (hash : hash32) (data : list byte) :
    M (GameStore D F) error (N * N) :=
  s ← get;
  found ← lift (lookup_index s hash);
  match found with
  | Some value => mret (unpack value)
  | None =>
    let offset := gs_size s in
    let len := as_u32 (lenN data) in
    map_err_m (cons "追加写入块失败"%string) (on_file (write_exact_at data offset));;
    modify (λ s, set_size (add_u64 (gs_size s) (lenN data)) s);;
    write_index (gs_game_id s) [(hash, (offset, len))];;
    mret (offset, len)
  end.

(** ** append_chunks_batch *)

(** The accumulators of the first loop: [out], [new_data] with [new_pos],
    [seen_new] and [dup_of_new]. *)
Record batch := mkBatch {
  b_out : list (N * N);
  b_new_data : list (hash32 * list byte);
  b_new_pos : list nat;
  b_seen_new : gmap hash32 nat;
  b_dup_of_new : list (nat * nat)
}.

Definition batch0 : batch := mkBatch [] [] [] ∅ [].

Definition batch_step s (snap : D) (b : batch) (idx : nat) (hash : hash32) (data : list byte) :
    result error batch :=
  match b_seen_new b !! hash with
  | Some first =>
    Ok (mkBatch (b_out b ++ [(0, 0)]) (b_new_data b) (b_new_pos b) (b_seen_new b)
          (b_dup_of_new b ++ [(idx, first)]))
  | None =>
    found ← with_context "查询索引失败" (tbl_get snap TABLE (key (gs_game_id s) hash));
    match found with
    | Some value =>
      Ok (mkBatch (b_out b ++ [unpack value]) (b_new_data b) (b_new_pos b) (b_seen_new b)
            (b_dup_of_new b))
    | None =>
      Ok (mkBatch (b_out b ++ [(0, 0)]) (b_new_data b ++ [(hash, data)])
            (b_new_pos b ++ [idx]) (<[hash := idx]> (b_seen_new b)) (b_dup_of_new b))
    end
  end.

Fixpoint batch_scan s (snap : D) (b : batch) (idx : nat) (chunks : list (hash32 * list byte)) :
    result error batch :=
  match chunks with
  | [] => Ok b
  | (hash, data) :: chunks =>
    b ← batch_step s snap b idx hash data;
    batch_scan s snap b (S idx) chunks
  end.

(** The write loop: state is the store, the result [out] and [offset]. *)
Fixpoint batch_write (new_data : list (hash32 * list byte)) (new_pos : list nat)
    (out : list (N * N)) (offset : N) : M (GameStore D F) error (list (N * N) * N) :=
  match new_data, new_pos with
  | (_, data) :: new_data, pos :: new_pos =>
    map_err_m (cons "批量追加写入块失败"%string) (on_file (write_exact_at data offset));;
    let len := as_u32 (lenN data) in
    batch_write new_data new_pos (<[pos := (offset, len)]> out) (add_u64 offset len)
  | _, _ => mret (out, offset)
  end.

Definition out_at (out : list (N * N)) (idx : nat) : N * N := default (0, 0) (out !! idx).

Definition resolve_dups (out : list (N * N)) (dups : list (nat * nat)) : list (N * N) :=
  foldl (λ out d, <[d.1 := out_at out d.2]> out) out dups.

Definition append_chunks_batch (chunks : list (hash32 * list byte)) :
    M (GameStore D F) error (list (N * N)) :=
  s ← get;
  b ← lift (read_txn "打开索引表失败" TABLE
              (λ snap, batch_scan s snap batch0 0 chunks) (gs_db s));
  r ← batch_write (b_new_data b) (b_new_pos b) (b_out b) (gs_size s);
  let out := resolve_dups r.1 (b_dup_of_new b) in
  modify (set_size r.2);;
  (if bool_decide (b_new_data b = []) then mret ()
   else write_index (gs_game_id s) (zip (b_new_data b).*1 (out_at out <$> b_new_pos b)));;
  mret out.

(** ** Reading *)

Definition GameStore_read_chunk s (hash : hash32) : result error (option (list byte)) :=
  found ← lookup_index s hash;
  match found with
  | None => mret None
  | Some value =>
    let '(offset, len) := unpack value in
    buf ← with_context "读取块数据失败" (read_exact_at (pack_file s) len offset);
    mret (Some buf)
  end.

Definition GameStore_contains s (hash : hash32) : result error bool :=
  found ← lookup_index s hash;
  mret (bool_decide (is_Some found)).

#[global] Instance GameStore_source : ChunkSource (GameStore D F) := {|
  read_chunk := GameStore_read_chunk;
  contains := GameStore_contains
|}.

Definition read_entries (s : GameStore D F) : result error (list (string * N)) :=
  read_txn "打开索引表失败" TABLE
    (iter_all "遍历索引失败" "读取索引项失败" TABLE) (gs_db s).

Definition entries s : result error (list (string * N * N)) :=
  kvs ← read_entries s;
  mret (map (λ kv : string * N, (kv.1, (unpack kv.2).1, (unpack kv.2).2)) kvs).

Definition size s : N := gs_size s.

(** ** Compaction *)

(** [x as f64] of a [u64], and the arithmetic of binary64. *)
Definition f64_of (n : N) : spec_float := binary_normalize 53 1024 (Z.of_N n) 0 false.
Definition f64_sub : spec_float → spec_float → spec_float := SFsub 53 1024.
Definition f64_div : spec_float → spec_float → spec_float := SFdiv 53 1024.

(** [1.0 - live_bytes as f64 / self.size as f64] *)
Definition garbage_ratio (live_bytes size : N) : spec_float :=
  f64_sub (f64_of 1) (f64_div (f64_of live_bytes) (f64_of size)).

(** The scan over [live] (a [HashSet], in the order [live] lists it). *)
Fixpoint find_live (game_id : N) (es : list (string * N)) (live : list hash32) :
    list (hash32 * (N * N)) :=
  match live with
  | [] => []
  | hash :: live =>
    match find (λ kv : string * N, String.eqb kv.1 (key game_id hash)) es with
    | Some kv => (hash, unpack kv.2) :: find_live game_id es live
    | None => find_live game_id es live
    end
  end.

Definition sum_u64 (l : list N) : N := foldl add_u64 0 l.

(** [live_locations.sort()]: by hash, then offset, then length. *)
Definition loc_le (a b : hash32 * (N * N)) : Prop :=
  (a.1 ≠ b.1 ∧ hash_le a.1 b.1) ∨
  (a.1 = b.1 ∧ (a.2.1 < b.2.1 ∨ (a.2.1 = b.2.1 ∧ a.2.2 ≤ b.2.2))).
#[global] Instance loc_le_dec : RelDecision loc_le.
Proof. intros a b. unfold loc_le. apply _. Defined.

Definition sort_locations (l : list (hash32 * (N * N))) : list (hash32 * (N * N)) :=
  merge_sort loc_le l.

Fixpoint new_locations (new_offset : N) (l : list (hash32 * (N * N))) :
    list (hash32 * (N * N)) * N :=
  match l with
  | [] => ([], new_offset)
  | (hash, (_, len)) :: l =>
    let r := new_locations (add_u64 new_offset len) l in
    ((hash, (new_offset, len)) :: r.1, r.2)
  end.

Definition ensure_copy_size (copied expected : N) : result error () :=
  if copied =? expected then mret () else bail "压缩重写字节数不一致".

Definition remove_entries (es : list (string * N)) (w : D) : result error D :=
  foldr (λ e next (w : D),
    r ← with_context "删除索引项失败" (tbl_remove w TABLE e.1);
    next r.1) mret es w.

(** [self.pack_path] now names the rewritten file; [self.pack_file] still the old. *)
Definition rename_pack (tmp : F) s : GameStore D F :=
  mkStore (gs_game_id s) (gs_db s) tmp (Some (pack_file s)) (gs_size s).
Definition reopen_pack s : GameStore D F :=
  mkStore (gs_game_id s) (gs_db s) (gs_path s) None (gs_size s).

(** The write transaction that replaces the index. *)
Definition reindex (game_id : N) (es : list (string * N)) (news : list (hash32 * (N * N))) :
    M (GameStore D F) error () :=
  on_db (write_txn "开始写事务失败" "打开索引表失败" "提交压缩事务失败" TABLE (λ w,
    w ← remove_entries es w;
    w ← insert_entries game_id "更新索引失败" news w;
    mret (Commit w ()))).

Definition compact (live : list hash32) (threshold : spec_float) (available_space : N) :
    M (GameStore D F) error bool :=
  s ← get;
  kvs ← lift (read_entries s);
  let es := filter (λ kv : string * N, String.prefix (hex16 (gs_game_id s)) kv.1) kvs in
  let live_locations := find_live (gs_game_id s) es live in
  let live_bytes := sum_u64 (live_locations.*2).*2 in
  if gs_size s =? 0 then mret false else
  if SFltb (garbage_ratio live_bytes (gs_size s)) threshold then mret false else
  if available_space <? live_bytes then mret false else
  let locs := sort_locations live_locations in
  let '(news, new_offset) := new_locations 0 locs in
  r ← lift (with_context "compio 重写块文件失败" (copy_ranges (gs_path s) (locs.*2)));
  lift (ensure_copy_size r.2 live_bytes);;
  lift (with_context "替换块文件失败" file_rename);;
  modify (rename_pack r.1);;
  lift (with_context "重新打开块文件失败" (file_reopen r.1));;
  modify reopen_pack;;
  modify (set_size new_offset);;
  reindex (gs_game_id s) es news;;
  mret true.

End store.

(** ** The in-memory store of the examples *)

#[global] Instance Mem_open : OpenOps MemDb MemFile := {
  dir_create := Ok ();
  db_create o := Ok (default mem_empty o);
  file_open_create o := Ok (default (mkFile [] 3) o);
  file_len f := Ok (lenN (mf_data f));
  file_rename := Ok ();
  file_reopen _ := Ok ()
}.

#[global] Instance Mem_open_laws : OpenLaws MemDb MemFile.
Proof.
  split; cbn.
  - intros [d0|] d [= <-]; done.
  - intros [f0|] f [= <-]; done.
  - by intros f n [= <-].
Qed.

(** A fresh store for game 7. *)
Definition mem_store : GameStore MemDb MemFile :=
  mkStore 7 (mkMem (λ _, ∅) [TABLE] false) (mkFile [] 3) None 0.
