(* ===== verification/StorageSpec.v ===== *)
(** * StorageSpec: the chunk store implements a finite map

    [represents s m] relates a [GameStore] to the map from hashes to bytes it
    stands for.  The operations of Storage.v are shown to implement insertion
    of absent chunks, lookup, and restriction to the live chunks, on success
    and on failure. *)

From Stdlib Require Import SpecFloat.
From S2P Require Import Prelude Bytes FileIO Redb Storage.

(** ** Packed positions *)

Lemma unpack_pack offset len :
  len < 2^32 → unpack (pack offset len) = (offset mod 2^32, len).
Proof.
  intros Hl. unfold unpack, pack, LEN_MASK, as_u64, as_u32.
  change 0xffffffff with (N.ones 32). rewrite N.land_ones.
  rewrite N.shiftl_mul_pow2.
  replace (offset * 2^32) with (2^32 * offset) by lia.
  assert ((2^32 * offset) mod 2^64 = (offset mod 2^32) * 2^32) as ->.
  { change (2^64) with (2^32 * 2^32). rewrite N.Div0.mul_mod_distr_l. lia. }
  assert (N.land ((offset mod 2^32) * 2^32) len = 0) as Hdis.
  { rewrite <- N.shiftl_mul_pow2. apply N.bits_inj_iff. intros i.
    rewrite N.land_spec, N.bits_0. destruct (N.lt_ge_cases i 32).
    - rewrite N.shiftl_spec_low by done. done.
    - rewrite (N.bits_above_log2 len), andb_false_r; [done|].
      destruct (decide (len = 0)) as [->|]; [cbn; lia|].
      assert (N.log2 len < 32); [|lia]. by apply N.log2_lt_pow2; [lia|]. }
  rewrite <- N.lxor_lor, <- N.add_nocarry_lxor by done.
  rewrite N.shiftr_div_pow2, N.div_add_l by done.
  rewrite (N.div_small len) by done. rewrite N.add_0_r.
  rewrite N.add_comm, N.Div0.mod_add, N.Div0.mod_mod. by rewrite (N.mod_small len).
Qed.

Lemma unpack_pack_small offset len :
  offset < 2^32 → len < 2^32 → unpack (pack offset len) = (offset, len).
Proof. intros Ho Hl. by rewrite unpack_pack, N.mod_small. Qed.

Lemma unpack_len_bound v : (unpack v).2 < 2^32.
Proof. unfold unpack, as_u32. cbn. by apply N.mod_lt. Qed.

Lemma key_inj g1 h1 g2 h2 :
  g1 < 2^64 → g2 < 2^64 → key g1 h1 = key g2 h2 → g1 = g2 ∧ h1 = h2.
Proof.
  unfold key, hex16. intros Hg1 Hg2 Hk. rewrite <- !hex_app in Hk.
  apply hex_inj in Hk.
  apply app_inj_1 in Hk as [Hg Hh]; [|by rewrite !be_encode_length].
  split; [|by apply (inj hash_bytes)].
  apply (f_equal be_decode) in Hg. by rewrite !be_decode_encode_small in Hg.
Qed.

Lemma key_prefix g h : String.prefix (hex16 g) (key g h) = true.
Proof.
  unfold key. generalize (hex16 g). intros a. induction a as [|c a IH].
  { simpl. by destruct (hex (hash_bytes h)). }
  simpl. by destruct (ascii_dec c c).
Qed.

(** ** The abstraction *)

(** Total size of the chunks of a map. *)
Definition total (m : gmap hash32 (list byte)) : N :=
  map_fold (λ _ d acc, lenN d + acc) 0 m.

Lemma total_empty : total ∅ = 0.
Proof. done. Qed.

Lemma total_insert m h d : m !! h = None → total (<[h := d]> m) = lenN d + total m.
Proof.
  intros Hm. unfold total. rewrite map_fold_insert_L; [done| |done].
  intros. lia.
Qed.

(** The index [t], the bytes of the pack file and its logical size stand for [m]. *)
Definition loc_in (gid : N) (t : gmap string N) (h : hash32) : option (N * N) :=
  unpack <$> t !! key gid h.

Record index_ok (gid : N) (t : gmap string N) (data : list byte) (size : N)
    (m : gmap hash32 (list byte)) : Prop := {
  ix_total : total m ≤ size;
  ix_keys k v : t !! k = Some v → ∃ h, k = key gid h;
  ix_bound h l : loc_in gid t h = Some l → l.1 + l.2 ≤ size;
  ix_map h : (λ l : N * N, span l.1 l.2 data) <$> loc_in gid t h = m !! h
}.

(** More bytes and a larger size do not matter. *)
Lemma index_ok_frame gid t data data' size size' m :
  index_ok gid t data size m → size ≤ size' →
  take (N.to_nat size) data' = take (N.to_nat size) data →
  index_ok gid t data' size' m.
Proof.
  intros [Ht Hk Hb Hm] Hs Htake. split; [lia|done|..].
  - intros h l Hl%Hb. lia.
  - intros h. rewrite <- Hm. destruct (loc_in gid t h) as [l|] eqn:Hl; [|done]. cbn. f_equal.
    apply (span_agree size); [by apply Hb in Hl|done].
Qed.

Lemma loc_in_insert gid t h off len :
  off < 2^32 → len < 2^32 →
  loc_in gid (<[key gid h := pack off len]> t) h = Some (off, len).
Proof. intros. unfold loc_in. rewrite lookup_insert_eq. cbn. by rewrite unpack_pack_small. Qed.

Lemma loc_in_insert_ne gid t h h' v :
  gid < 2^64 → h' ≠ h → loc_in gid (<[key gid h := v]> t) h' = loc_in gid t h'.
Proof.
  intros Hg Hne. unfold loc_in. rewrite lookup_insert_ne; [done|].
  intros Hk. by apply key_inj in Hk as [_ ?].
Qed.

(** A new entry for bytes that are in the file. *)
Lemma index_ok_insert gid t data size m h off bs :
  gid < 2^64 → index_ok gid t data size m → m !! h = None →
  total m + lenN bs ≤ size → off + lenN bs ≤ size → off < 2^32 → lenN bs < 2^32 →
  span off (lenN bs) data = bs →
  index_ok gid (<[key gid h := pack off (lenN bs)]> t) data size (<[h := bs]> m).
Proof.
  intros Hg [Ht Hk Hb Hm] Hh Htot Hoff Ho Hl Hspan. split.
  - rewrite total_insert by done. lia.
  - intros k v [[<- _]|[_ Hkv]]%lookup_insert_Some; [by eexists|]. by eapply Hk.
  - intros h' l. destruct (decide (h' = h)) as [->|Hne].
    + rewrite loc_in_insert by done. intros [= <-]. done.
    + rewrite loc_in_insert_ne by done. apply Hb.
  - intros h'. destruct (decide (h' = h)) as [->|Hne].
    + rewrite loc_in_insert, lookup_insert_eq by done. cbn. by rewrite Hspan.
    + by rewrite loc_in_insert_ne, lookup_insert_ne by done.
Qed.

Section abstraction.
Context {D F : Type} `{RedbLaws D, FileLaws F}.
Implicit Types (s : GameStore D F) (m : gmap hash32 (list byte)).

(** Where the index says a chunk is. *)
Definition location s (h : hash32) : option (N * N) :=
  loc_in (gs_game_id s) (contents (gs_db s) TABLE) h.

Record represents s m : Prop := {
  rep_id : gs_game_id s < 2^64;
  rep_table : has_table (gs_db s) TABLE;
  rep_attached : gs_detached s = None;
  rep_size : gs_size s ≤ lenN (f_data (pack_file s));
  rep_index : index_ok (gs_game_id s) (contents (gs_db s) TABLE)
                (f_data (pack_file s)) (gs_size s) m
}.

Lemma rep_bound s m h l :
  represents s m → location s h = Some l → l.1 + l.2 ≤ gs_size s.
Proof. intros Hr. apply (ix_bound _ _ _ _ _ (rep_index _ _ Hr)). Qed.

Lemma rep_map s m h :
  represents s m →
  (λ l : N * N, span l.1 l.2 (f_data (pack_file s))) <$> location s h = m !! h.
Proof. intros Hr. apply (ix_map _ _ _ _ _ (rep_index _ _ Hr)). Qed.

Lemma represents_location s m h :
  represents s m → is_Some (location s h) ↔ is_Some (m !! h).
Proof. intros Hr. rewrite <- (rep_map _ _ h Hr). by rewrite fmap_is_Some. Qed.

Lemma represents_loc_len s m h l d :
  represents s m → location s h = Some l → m !! h = Some d → lenN d = l.2.
Proof.
  intros Hr Hl Hd. rewrite <- (rep_map _ _ h Hr), Hl in Hd. cbn in Hd. simplify_eq.
  apply lenN_span. pose proof (rep_bound _ _ _ _ Hr Hl). pose proof (rep_size _ _ Hr). lia.
Qed.

(** A state that agrees on the index and on the bytes below the size. *)
Lemma represents_frame s s' m :
  represents s m → gs_game_id s' = gs_game_id s →
  contents (gs_db s') TABLE = contents (gs_db s) TABLE → has_table (gs_db s') TABLE →
  gs_detached s' = None → gs_size s ≤ gs_size s' →
  gs_size s' ≤ lenN (f_data (pack_file s')) →
  take (N.to_nat (gs_size s)) (f_data (pack_file s')) =
    take (N.to_nat (gs_size s)) (f_data (pack_file s)) →
  represents s' m.
Proof.
  intros Hr Hid Hc Ht Hd Hsz Hlen Htake. split; try done.
  - rewrite Hid. apply Hr.
  - rewrite Hid, Hc. eapply index_ok_frame; [apply Hr|done..].
Qed.

End abstraction.

(** ** The specification: absent chunks are added, present ones kept *)

Definition add_chunk (m : gmap hash32 (list byte)) (c : hash32 * list byte) :
    gmap hash32 (list byte) :=
  match m !! c.1 with Some _ => m | None => <[c.1 := c.2]> m end.

Definition add_chunks (m : gmap hash32 (list byte)) (cs : list (hash32 * list byte)) :=
  foldl add_chunk m cs.

Section operations.
Context {D F : Type} `{RedbLaws D, FileLaws F, !CompioOps F, !OpenOps D F}.
Implicit Types (s : GameStore D F) (m : gmap hash32 (list byte)).

Lemma lookup_index_ok s h found :
  lookup_index s h = Ok found → location s h = unpack <$> found.
Proof.
  unfold lookup_index. intros Hl. apply read_txn_Ok_inv in Hl as (snap & He & Hg).
  apply with_context_Ok_inv, (get_ok snap TABLE) in Hg as ->. unfold location, loc_in.
  by rewrite (proj1 (He TABLE)).
Qed.

Lemma lookup_index_represents s m h found :
  represents s m → lookup_index s h = Ok found →
  match found with
  | Some v => location s h = Some (unpack v) ∧ is_Some (m !! h)
  | None => m !! h = None
  end.
Proof.
  intros Hr Hl%lookup_index_ok. pose proof (represents_location s m h Hr) as Hm.
  destruct found as [v|]; cbn in Hl; rewrite Hl in Hm.
  - split; [done|]. apply Hm. by eexists.
  - apply eq_None_not_Some. rewrite <- Hm. by intros [].
Qed.

(** A write past the logical size, complete or not, keeps the map. *)
Lemma on_file_write_represents s m data off s' r :
  represents s m → gs_size s ≤ off → off ≤ lenN (f_data (pack_file s)) →
  on_file (write_exact_at data off) s = (s', r) →
  represents s' m ∧ gs_db s' = gs_db s ∧ gs_game_id s' = gs_game_id s ∧
  gs_size s' = gs_size s ∧
  take (N.to_nat off) (f_data (pack_file s')) = take (N.to_nat off) (f_data (pack_file s)) ∧
  (r = Ok () → f_data (pack_file s') = patch off data (f_data (pack_file s))).
Proof.
  intros Hr Hlow Hoff Hw. unfold on_file, zoom in Hw.
  pose proof (rep_attached _ _ Hr) as Ha. pose proof (rep_size _ _ Hr) as Hs.
  pose proof (write_exact_at_below data off (pack_file s) Hoff) as [Hlen Htake].
  destruct (write_exact_at data off (pack_file s)) as [f r'] eqn:Hwr.
  injection Hw as <- <-. cbn in Hlen, Htake.
  assert (set_pack_file f s = mkStore (gs_game_id s) (gs_db s) f None (gs_size s)) as ->.
  { unfold set_pack_file. by rewrite Ha. }
  unfold pack_file at 1 3. cbn. split_and!; try done.
  - apply (represents_frame s); try done; [apply Hr|cbn; lia|].
    cbn. by apply (take_agree_le _ off).
  - intros ->. by apply write_exact_at_ok in Hwr.
Qed.

Lemma insert_entries_ok game_id msg es (w w' : D) :
  insert_entries game_id msg es w = Ok w' →
  contents w' TABLE = foldl (λ t e, <[key game_id e.1 := pack e.2.1 e.2.2]> t)
                            (contents w TABLE) es ∧
  (has_table w TABLE → has_table w' TABLE).
Proof.
  unfold insert_entries. revert w. induction es as [|e es IH]; intros w.
  { by intros [= <-]. }
  cbn. intros Hb. apply bind_Ok_inv in Hb as (w1 & Hi & Hb).
  apply with_context_Ok_inv, (insert_ok w TABLE) in Hi as (Hc & _ & Ht).
  apply IH in Hb as [Hb Ht']. rewrite Hb, Hc. split; [done|].
  intros. apply Ht'. by apply Ht.
Qed.

(** The write transaction that publishes index entries, as the store runs it. *)
Lemma write_index_ok s s' game_id es r :
  write_index game_id es s = (s', r) →
  gs_game_id s' = gs_game_id s ∧ gs_path s' = gs_path s ∧
  gs_detached s' = gs_detached s ∧ gs_size s' = gs_size s ∧
  match r with
  | Ok _ => contents (gs_db s') TABLE =
      foldl (λ t e, <[key game_id e.1 := pack e.2.1 e.2.2]> t) (contents (gs_db s) TABLE) es ∧
      has_table (gs_db s') TABLE
  | Err _ => gs_db s' = gs_db s
  end.
Proof.
  unfold write_index, on_db, zoom. intros Hw.
  destruct (write_txn _ _ _ _ _ (gs_db s)) as [d r'] eqn:Ht.
  injection Hw as <- <-. cbn. split_and!; try done. destruct r' as [[]|e]; last first.
  { by apply write_txn_Err_inv in Ht. }
  apply write_txn_Ok_inv in Ht as (w & Hc & Hh & [(w' & Hb & He)|[Hb _]]).
  - apply bind_Ok_inv in Hb as (w1 & Hi & Hb). injection Hb as ->.
    apply insert_entries_ok in Hi as [Hi Ht]. destruct (He TABLE) as [-> Hex].
    rewrite Hi, Hc. split; [done|]. apply Hex, Ht, Hh. by left.
  - apply bind_Ok_inv in Hb as (w1 & _ & Hb). done.
Qed.

Lemma set_size_represents s m n :
  represents s m → gs_size s ≤ n → n ≤ lenN (f_data (pack_file s)) →
  represents (set_size n s) m.
Proof.
  intros Hr Hn Hl. apply (represents_frame s); try done; apply Hr.
Qed.

(** [append_chunk] implements [add_chunk]; a failure changes nothing. *)
Lemma append_chunk_refines s m h data s' r :
  represents s m → gs_size s + lenN data < 2^32 →
  append_chunk h data s = (s', r) →
  match r with
  | Ok l => represents s' (add_chunk m (h, data)) ∧ location s' h = Some l
  | Err _ => represents s' m
  end.
Proof.
  intros Hr Hb Ha. unfold append_chunk in Ha.
  rewrite (M_bind_ok get _ s s s) in Ha by done. cbn beta in Ha.
  destruct (lookup_index s h) as [found|e] eqn:Hl; last first.
  { rewrite (M_bind_err (lift _) _ s s e) in Ha by done. by simplify_eq. }
  rewrite (M_bind_ok (lift _) _ s s found) in Ha by done. cbn beta in Ha.
  pose proof (lookup_index_represents _ _ _ _ Hr Hl) as Hf. unfold add_chunk. cbn [fst snd].
  destruct found as [v|].
  { injection Ha as <- <-. destruct Hf as [Hloc [d Hd]]. by rewrite Hd. }
  rewrite Hf. cbv zeta in Ha. rewrite as_u32_small in Ha by lia.
  destruct (on_file (write_exact_at data (gs_size s)) s) as [s1 r1] eqn:Hw.
  apply (on_file_write_represents _ _ _ _ _ _ Hr) in Hw as Hw';
    [|done|apply Hr]. destruct Hw' as (Hr1 & Hdb1 & Hid1 & Hsz1 & Htake & Hok).
  unfold map_err_m in Ha. unfold mbind at 1, M_bind at 1 in Ha. rewrite Hw in Ha.
  destruct r1 as [[]|e1]; [|by simplify_eq/=]. cbn [map_err] in Ha.
  specialize (Hok eq_refl).
  rewrite (M_bind_ok (modify _) _ s1 (set_size (gs_size s + lenN data) s1) ()) in Ha;
    last first.
  { unfold modify. rewrite Hsz1, add_u64_small by lia. done. }
  set (s2 := set_size _ s1) in Ha.
  assert (lenN (f_data (pack_file s1)) = N.max (lenN (f_data (pack_file s)))
    (gs_size s + lenN data)) as Hlen.
  { rewrite Hok, lenN_patch_app; [done|]. apply Hr. }
  assert (represents s2 m) as Hr2.
  { apply set_size_represents; [done|lia|lia]. }
  m_step Ha as s3 [] e3 Ht; apply write_index_ok in Ht as (Hid3 & Hpath & Hdet & Hsz3 & Hres);
    last first.
  { apply (represents_frame s2); try done.
    - by rewrite Hres. - rewrite Hres. apply Hr2.
    - rewrite Hdet. apply Hr2. - by rewrite Hsz3.
    - rewrite Hsz3. unfold pack_file. rewrite Hdet, Hpath. apply Hr2.
    - unfold pack_file. by rewrite Hdet, Hpath. }
  injection Ha as <- <-. destruct Hres as [Hc Hh]. cbn in Hc.
  assert (pack_file s3 = pack_file s1) as Hf3.
  { unfold pack_file. by rewrite Hdet, Hpath. }
  change (gs_db s2) with (gs_db s1) in Hc. rewrite Hdb1 in Hc.
  change (gs_game_id s2) with (gs_game_id s1) in Hid3. rewrite Hid1 in Hid3.
  cbn in Hsz3. split.
  - split; [rewrite Hid3; apply Hr|done|rewrite Hdet; apply Hr1|rewrite Hsz3, Hf3; lia|].
    rewrite Hid3, Hc, Hsz3, Hf3. pose proof (ix_total _ _ _ _ _ (rep_index _ _ Hr)).
    apply index_ok_insert; try done; [apply Hr| |lia..|].
    + eapply index_ok_frame; [apply Hr|lia|done].
    + rewrite Hok. apply span_patch_here.
  - unfold location. rewrite Hid3, Hc. apply loc_in_insert; lia.
Qed.

(** Reading returns the map's bytes, and [None] exactly where it has none. *)
Lemma read_chunk_represents s m h r :
  represents s m → GameStore_read_chunk s h = Ok r → r = m !! h.
Proof.
  intros Hr. unfold GameStore_read_chunk. intros Hc.
  apply bind_Ok_inv in Hc as (found & Hl & Hc).
  apply (lookup_index_represents _ _ _ _ Hr) in Hl as Hf. destruct found as [v|].
  - destruct Hf as [Hloc _]. destruct (unpack v) as [off len] eqn:Hu.
    apply bind_Ok_inv in Hc as (buf & Hb & Hc). injection Hc as <-.
    apply with_context_Ok_inv, read_exact_at_ok in Hb as [-> _].
    rewrite <- (rep_map _ _ h Hr). by rewrite Hloc.
  - by injection Hc as <-.
Qed.

Lemma contains_represents s m h b :
  represents s m → GameStore_contains s h = Ok b → b = bool_decide (is_Some (m !! h)).
Proof.
  intros Hr. unfold GameStore_contains. intros Hc.
  apply bind_Ok_inv in Hc as (found & Hl & Hc). injection Hc as <-.
  apply (lookup_index_represents _ _ _ _ Hr) in Hl as Hf. apply bool_decide_ext.
  destruct found; [by destruct Hf|]. rewrite Hf. by split; intros [].
Qed.

#[global] Instance GameStore_laws : ChunkSourceLaws (GameStore D F) := {|
  holds := represents;
  read_chunk_holds := read_chunk_represents;
  contains_holds := contains_represents
|}.

(** ** Nothing fails on a healthy disk *)

Definition healthy s : Prop := db_healthy (gs_db s) ∧ f_healthy (pack_file s).

Context `{!RedbHealthy D}.

Lemma lookup_index_healthy s m h :
  represents s m → healthy s → ∃ found, lookup_index s h = Ok found.
Proof.
  intros Hr [Hd _]. unfold lookup_index.
  destruct (read_txn_healthy "打开索引表失败" TABLE (λ snap, with_context "查询索引失败"
    (tbl_get snap TABLE (key (gs_game_id s) h))) (gs_db s)) as (snap & _ & Hs & ->);
    [done|apply Hr|].
  destruct (get_healthy snap TABLE (key (gs_game_id s) h) Hs) as [v ->]. by exists v.
Qed.

Lemma read_chunk_healthy s m h :
  represents s m → healthy s → GameStore_read_chunk s h = Ok (m !! h).
Proof.
  intros Hr Hh. destruct (lookup_index_healthy s m h Hr Hh) as [found Hl].
  assert (is_ok (GameStore_read_chunk s h)) as Hok.
  { unfold GameStore_read_chunk. rewrite Hl. cbn.
    apply (lookup_index_represents _ _ _ _ Hr) in Hl. destruct found as [v|]; [|done].
    destruct Hl as [Hloc _]. destruct (unpack v) as [off len] eqn:Hu.
    apply (rep_bound _ _ _ _ Hr) in Hloc. cbn in Hloc. pose proof (rep_size _ _ Hr).
    rewrite read_exact_at_spec; [done|apply Hh|lia]. }
  destruct (GameStore_read_chunk s h) as [r|] eqn:Hc; [|done].
  f_equal. by eapply read_chunk_represents.
Qed.

Lemma write_index_healthy s game_id es :
  healthy s → ∃ s', write_index game_id es s = (s', Ok ()) ∧ healthy s'.
Proof.
  intros [Hd Hf]. unfold write_index, on_db, zoom.
  edestruct (write_txn_healthy (A:=()) "开始写事务失败" "打开索引表失败" "提交索引事务失败" TABLE)
    as (d' & [] & -> & Hd'); [exact Hd| |by eexists; split].
  intros w Hw _. cbn.
  assert (∃ w', insert_entries game_id "写入索引失败" es w = Ok w' ∧ db_healthy w')
    as (w' & -> & Hw').
  { unfold insert_entries. revert w Hw. induction es as [|e es IH]; intros w Hw.
    - by exists w.
    - cbn. destruct (insert_healthy w TABLE (key game_id e.1) (pack e.2.1 e.2.2) Hw)
        as (w1 & -> & Hw1). by apply IH. }
  by eexists _, _.
Qed.

Lemma on_file_write_healthy s m data :
  represents s m → healthy s → ∃ s',
    on_file (write_exact_at data (gs_size s)) s = (s', Ok ()) ∧ healthy s'.
Proof.
  intros Hr [Hd Hf]. unfold on_file, zoom.
  destruct (write_exact_at_spec data (gs_size s) (pack_file s) Hf) as (f & -> & Hh & _).
  { apply Hr. }
  eexists. split; [done|]. unfold healthy, set_pack_file, pack_file.
  by rewrite (rep_attached _ _ Hr).
Qed.

Lemma append_chunk_healthy s m h data :
  represents s m → healthy s →
  ∃ s' l, append_chunk h data s = (s', Ok l) ∧ healthy s'.
Proof.
  intros Hr Hh. destruct (lookup_index_healthy s m h Hr Hh) as [found Hl].
  unfold append_chunk. rewrite (M_bind_ok get _ s s s) by done.
  rewrite (M_bind_ok (lift _) _ s s found) by (unfold lift; by rewrite Hl).
  destruct found as [v|]; [by eexists _, _|]. cbv zeta.
  destruct (on_file_write_healthy s m data Hr Hh) as (s1 & Hw & Hh1).
  rewrite (M_bind_ok (map_err_m _ _) _ s s1 ()) by (unfold map_err_m; by rewrite Hw).
  rewrite (M_bind_ok (modify _) _ s1 (set_size (add_u64 (gs_size s1) (lenN data)) s1) ())
    by done.
  destruct (write_index_healthy (set_size (add_u64 (gs_size s1) (lenN data)) s1)
    (gs_game_id s) [(h, (gs_size s, as_u32 (lenN data)))]) as (s2 & Hi & Hh2); [done|].
  rewrite (M_bind_ok _ _ _ _ _ Hi). by eexists _, _.
Qed.

End operations.

(** ** Opening *)

Section opening.
Context {D F : Type} `{RedbLaws D, FileLaws F, !CompioOps F, !OpenOps D F, !OpenLaws D F}.
Implicit Types (s : GameStore D F) (m : gmap hash32 (list byte)).

Lemma open_ok dir gid s :
  open dir gid = Ok s →
  gs_game_id s = gid ∧ gs_detached s = None ∧ has_table (gs_db s) TABLE ∧
  gs_size s = lenN (f_data (gs_path s)) ∧
  contents (gs_db s) TABLE =
    match dir.1 with Some d => contents d TABLE | None => ∅ end ∧
  f_data (gs_path s) = match dir.2 with Some f => f_data f | None => [] end.
Proof.
  unfold open. intros Ho. inv_ok. cbn.
  repeat match goal with
  | H : db_create _ = Ok _ |- _ => apply db_create_ok in H
  | H : begin_write _ = Ok _ |- _ => apply begin_write_ok in H; specialize (H TABLE)
  | H : open_write _ _ = Ok _ |- _ => apply open_write_ok in H as [? Hopen]
  | H : commit _ = Ok _ |- _ => apply commit_ok in H; specialize (H TABLE)
  | H : file_open_create _ = Ok _ |- _ => apply file_open_ok in H
  | H : file_len _ = Ok _ |- _ => apply file_len_ok in H
  end.
  split_and!; try done.
  - apply H3. apply Hopen. by left.
  - rewrite (proj1 H3), H7, (proj1 H6). destruct dir.1 as [d0|]; [exact (proj1 (H2 TABLE))|exact (H2 TABLE)].
Qed.

Lemma open_fresh gid s :
  gid < 2^64 → open (None, None) gid = Ok s → represents s ∅.
Proof.
  intros Hg Ho. apply open_ok in Ho as (Hid & Hdet & Ht & Hsz & Hc & Hd). cbn in Hc, Hd.
  assert (pack_file s = gs_path s) as Hf by (unfold pack_file; by rewrite Hdet).
  rewrite Hd in Hsz. split; [by rewrite Hid|done|done|rewrite Hsz, lenN_nil; lia|].
  rewrite Hc. split; [rewrite total_empty; lia|done| |].
  - intros h l. unfold loc_in. by rewrite lookup_empty.
  - intros h. unfold loc_in. by rewrite !lookup_empty.
Qed.

Lemma open_again s m s' :
  represents s m → open (Some (gs_db s), Some (gs_path s)) (gs_game_id s) = Ok s' →
  represents s' m ∧ gs_size s ≤ gs_size s'.
Proof.
  intros Hr Ho. apply open_ok in Ho as (Hid & Hdet & Ht & Hsz & Hc & Hd). cbn in Hc, Hd.
  assert (pack_file s' = gs_path s') as Hf' by (unfold pack_file; by rewrite Hdet).
  assert (pack_file s = gs_path s) as Hf.
  { unfold pack_file. by rewrite (rep_attached _ _ Hr). }
  pose proof (rep_size _ _ Hr) as Hs. rewrite Hf, <- Hd in Hs.
  split; [|by rewrite Hsz]. apply (represents_frame s); try done.
  - by rewrite Hsz.
  - by rewrite Hsz, Hf'.
  - by rewrite Hf', Hf, Hd.
Qed.

End opening.

(** ** Properties *)

Lemma mem_store_empty : represents mem_store ∅.
Proof.
  assert (open (D:=MemDb) (F:=MemFile) (None, None) 7 = Ok mem_store) as Ho by done.
  by apply open_fresh in Ho.
Qed.

Lemma mem_store_healthy : healthy mem_store.
Proof. done. Qed.

Section properties.
Context {D F : Type} `{RedbLaws D, FileLaws F, !CompioOps F, !OpenOps D F}.
Implicit Types (s : GameStore D F) (m : gmap hash32 (list byte)).

(** C2: Whatever the sizes of the short writes and whichever call fails,
    [append_chunk] either fails and every chunk the store had is still there
    with its bytes, or returns the position the index now gives for the hash;
    the store then holds the chunk that was already under the hash, else the new
    one, and no other chunk has changed.  On a disk without I/O errors it does
    not fail. *)
Theorem append_chunk_spec s m h data s' r :
  represents s m → gs_size s + lenN data < 2^32 →
  append_chunk h data s = (s', r) →
  match r with
  | Ok l => represents s' (match m !! h with Some _ => m | None => <[h := data]> m end) ∧
      location s' h = Some l ∧ span l.1 l.2 (f_data (pack_file s')) = default data (m !! h)
  | Err _ => represents s' m
  end ∧ (RedbHealthy D → healthy s → is_ok r).
Proof.
  intros Hr Hb Ha. pose proof (append_chunk_refines _ _ _ _ _ _ Hr Hb Ha) as Hres. split.
  - destruct r as [l|e]; [|done]. destruct Hres as [Hr' Hl]. split_and!; [done..|].
    pose proof (rep_map _ _ h Hr') as Hm. rewrite Hl in Hm. unfold add_chunk in Hm. cbn in Hm.
    destruct (m !! h) as [d|] eqn:Hmh; [rewrite Hmh in Hm|rewrite lookup_insert_eq in Hm].
    all: by simplify_eq/=.
  - intros Hlaws Hh. destruct (append_chunk_healthy s m h data Hr Hh) as (s2 & l & Ha2 & _).
    rewrite Ha in Ha2. by simplify_eq.
Qed.

(** Reading a hash returns exactly the bytes the store holds under it, or
    [None] when it holds none, in reads of any size; [contains] agrees; and on a
    disk without I/O errors both succeed. *)
Theorem read_chunk_spec s m h :
  represents s m →
  (∀ r, GameStore_read_chunk s h = Ok r → r = m !! h) ∧
  (∀ b, GameStore_contains s h = Ok b → b = bool_decide (is_Some (m !! h))) ∧
  (RedbHealthy D → healthy s → GameStore_read_chunk s h = Ok (m !! h)).
Proof.
  intros Hr. split_and!.
  - intros r. by apply read_chunk_represents.
  - intros b. by apply contains_represents.
  - intros Hl. by apply read_chunk_healthy.
Qed.

(** C34: Opening an empty directory gives the empty store, and reopening the
    files of a store (after a crash in the middle of an append included: the
    pack file may be longer than the index knows) gives all its chunks back. *)
Theorem open_spec `{!OpenLaws D F} s m :
  (∀ gid s0, gid < 2^64 → open (None, None) gid = Ok s0 → represents s0 ∅) ∧
  (∀ s', represents s m → open (Some (gs_db s), Some (gs_path s)) (gs_game_id s) = Ok s' →
     represents s' m).
Proof.
  split.
  - intros. by eapply open_fresh.
  - intros s' Hr Ho. by apply (open_again s m s').
Qed.

(** C40: The packed index entry is faithful exactly for offsets below 4 GiB:
    an appended chunk that starts at or above 2^32 is returned at its offset
    but indexed, and so read back, at the offset modulo 2^32. *)
Theorem pack_overflow s h data s' off len :
  lenN data < 2^32 →
  (unpack (pack (gs_size s) (lenN data)) = (gs_size s, lenN data) ↔ gs_size s < 2^32) ∧
  (location s h = None → append_chunk h data s = (s', Ok (off, len)) →
   off = gs_size s ∧ location s' h = Some (gs_size s mod 2^32, len)).
Proof.
  intros Hd. split.
  - rewrite unpack_pack by done. split.
    + intros [= Heq]. rewrite <- Heq. by apply N.mod_lt.
    + intros Hs. by rewrite N.mod_small.
  - intros Hloc Ha. unfold append_chunk in Ha.
    rewrite (M_bind_ok get _ s s s) in Ha by done.
    m_step Ha as s0 found e Hl; unfold lift in Hl. injection Hl as <- Hl.
    apply lookup_index_ok in Hl. rewrite Hloc in Hl. destruct found as [v|]; [done|].
    cbv zeta in Ha. rewrite as_u32_small in Ha by done.
    m_step Ha as s1 [] e Hw. unfold map_err_m, on_file, zoom in Hw.
    destruct (write_exact_at _ _ _) as [f wr]. injection Hw as <- _.
    rewrite (M_bind_ok (modify _) _ _ (set_size (add_u64 (gs_size (set_pack_file f s))
      (lenN data)) (set_pack_file f s)) ()) in Ha by done.
    m_step Ha as s3 u e Hx; apply write_index_ok in Hx as (Hid & _ & _ & _ & [Hc _]).
    injection Ha as <- <- <-. split; [done|]. unfold location.
    assert (gs_game_id s3 = gs_game_id s) as ->.
    { rewrite Hid. cbn. unfold set_pack_file. by destruct (gs_detached s). }
    rewrite Hc. unfold loc_in. cbn. rewrite lookup_insert_eq. cbn. by rewrite unpack_pack.
Qed.

End properties.

Definition wit_hash : hash32 := hash_rep x01.
Definition wit_data : list byte := [x68; x65; x6c; x6c; x6f].

Lemma append_chunk_spec_witness :
  ∃ s' l, append_chunk wit_hash wit_data mem_store = (s', Ok l) ∧
    represents s' {[ wit_hash := wit_data ]} ∧ l = (0, 5).
Proof.
  destruct (append_chunk wit_hash wit_data mem_store) as [s' r] eqn:Ha.
  destruct (append_chunk_spec mem_store ∅ wit_hash wit_data s' r mem_store_empty
    ltac:(vm_compute; reflexivity) Ha) as [Hres _].
  assert (r = Ok (0, 5)) as ->.
  { change r with (s', r).2. rewrite <- Ha. vm_compute. reflexivity. }
  exists s', (0, 5). split; [done|]. split; [apply Hres|done].
Defined.

Lemma read_chunk_spec_witness : GameStore_read_chunk mem_store wit_hash = Ok None.
Proof.
  destruct (read_chunk_spec mem_store ∅ wit_hash mem_store_empty) as (_ & _ & Hh).
  apply Hh; [apply _|exact mem_store_healthy].
Defined.

Lemma open_spec_witness : represents mem_store ∅.
Proof.
  apply (proj1 (open_spec (D:=MemDb) (F:=MemFile) mem_store ∅) 7); [reflexivity|reflexivity].
Defined.

(** The store of game 7 when its pack file has grown to 4 GiB. *)
Lemma pack_overflow_witness :
  ¬ (unpack (pack (2^32) 5) = (2^32, 5)).
Proof.
  assert (lenN wit_data < 2^32) as Hl by (vm_compute; reflexivity).
  destruct (pack_overflow (set_size (2^32) mem_store) wit_hash wit_data mem_store 0 0 Hl)
    as [Hiff _].
  intros Heq. apply Hiff in Heq. vm_compute in Heq. done.
Defined.
