(* ===== verification/StorageBatch.v ===== *)
(** * StorageBatch: the batched append implements the same insertion

    The scan of [append_chunks_batch] is summarised by [scan_inv]: which chunks
    are new, where each result goes, and which results are copies of another.
    The write loop lays the new chunks out one after the other. *)

From S2P Require Import Prelude Bytes FileIO Redb Storage StorageSpec.

(** The map with the listed chunks inserted. *)
Definition insert_all (m : gmap hash32 (list byte)) (cs : list (hash32 * list byte)) :=
  foldl (λ m c, <[c.1 := c.2]> m) m cs.

Lemma insert_all_app m cs1 cs2 : insert_all m (cs1 ++ cs2) = insert_all (insert_all m cs1) cs2.
Proof. unfold insert_all. by rewrite foldl_app. Qed.

Lemma insert_all_lookup_None m cs h :
  h ∉ cs.*1 → insert_all m cs !! h = m !! h.
Proof.
  revert m. induction cs as [|c cs IH]; intros m; [done|]. cbn. rewrite not_elem_of_cons.
  intros [Hne Hn]. change (foldl _ _ cs) with (insert_all (<[c.1:=c.2]> m) cs).
  by rewrite IH, lookup_insert_ne by done.
Qed.

Lemma insert_all_is_Some m cs h :
  h ∈ cs.*1 → is_Some (insert_all m cs !! h).
Proof.
  revert m. induction cs as [|c cs IH]; intros m; [by intros ?%elem_of_nil|]. cbn.
  change (foldl _ _ cs) with (insert_all (<[c.1:=c.2]> m) cs).
  destruct (decide (h ∈ cs.*1)) as [Hin|Hn]; [by intros _; apply IH|].
  rewrite elem_of_cons. intros [->|?]; [|done].
  rewrite insert_all_lookup_None, lookup_insert_eq by done. by eexists.
Qed.

(** Sizes of the new chunks, and where the write loop puts them. *)
Fixpoint sizes (cs : list (hash32 * list byte)) : N :=
  match cs with [] => 0 | c :: cs => lenN c.2 + sizes cs end.

Fixpoint layout (off : N) (cs : list (hash32 * list byte)) : list (N * N) :=
  match cs with
  | [] => []
  | c :: cs => (off, lenN c.2) :: layout (off + lenN c.2) cs
  end.

Lemma layout_length off cs : length (layout off cs) = length cs.
Proof. revert off. induction cs; intros; cbn; auto. Qed.

Lemma sizes_app cs1 cs2 : sizes (cs1 ++ cs2) = sizes cs1 + sizes cs2.
Proof. induction cs1 as [|c cs1 IH]; cbn; [done|]. rewrite IH. lia. Qed.

Lemma total_insert_all m cs :
  NoDup cs.*1 → (∀ h, h ∈ cs.*1 → m !! h = None) → total (insert_all m cs) = total m + sizes cs.
Proof.
  revert m. induction cs as [|[h d] cs IH]; intros m Hnd Hnew; cbn; [lia|].
  cbn in Hnd, Hnew. apply NoDup_cons in Hnd as [Hn Hnd].
  change (foldl _ _ cs) with (insert_all (<[h := d]> m) cs). rewrite IH; [|done|].
  - rewrite total_insert by (apply Hnew; by left). lia.
  - intros h' Hh'. rewrite lookup_insert_ne by (by intros ->). apply Hnew. by right.
Qed.

Lemma total_add_chunks m cs : total (add_chunks m cs) ≤ total m + sizes cs.
Proof.
  revert m. induction cs as [|c cs IH]; intros m; cbn; [lia|]. etrans; [apply IH|].
  unfold add_chunk. destruct (m !! c.1) eqn:Hm; [lia|]. rewrite total_insert by done. lia.
Qed.

(** ** The scan *)

Record scan_inv (loc : hash32 → option (N * N)) (m : gmap hash32 (list byte))
    (cs : list (hash32 * list byte)) (b : batch) : Prop := {
  si_len : length (b_out b) = length cs;
  si_pos : Forall2 (λ c i, cs !! i = Some c) (b_new_data b) (b_new_pos b);
  si_nodup : NoDup (b_new_data b).*1;
  si_new h : h ∈ (b_new_data b).*1 → m !! h = None;
  si_seen h i : b_seen_new b !! h = Some i ↔
    ∃ j, (b_new_data b).*1 !! j = Some h ∧ b_new_pos b !! j = Some i;
  si_old i h d : cs !! i = Some (h, d) → is_Some (m !! h) → b_out b !! i = loc h;
  si_rest i h d : cs !! i = Some (h, d) → m !! h = None →
    ∃ f, b_seen_new b !! h = Some f ∧ (f = i ∨ (i, f) ∈ b_dup_of_new b);
  si_dups i f : (i, f) ∈ b_dup_of_new b → i ≠ f ∧
    ∃ h d, cs !! i = Some (h, d) ∧ m !! h = None ∧ b_seen_new b !! h = Some f;
  si_dups_nodup : NoDup (b_dup_of_new b).*1;
  si_map : add_chunks m cs = insert_all m (b_new_data b);
  si_sizes : sizes (b_new_data b) ≤ sizes cs
}.

Lemma scan_inv_0 loc m : scan_inv loc m [] batch0.
Proof.
  split; cbn; try done.
  - constructor.
  - by intros h ?%elem_of_nil.
  - intros h i. split; [done|]. by intros (j & ? & _).
  - by intros i f ?%elem_of_nil.
  - constructor.
Qed.

Lemma lookup_snoc_inv {A} (l : list A) x i y :
  (l ++ [x]) !! i = Some y → l !! i = Some y ∨ (i = length l ∧ x = y).
Proof.
  intros Hl. destruct (decide (i < length l)%nat).
  - left. by rewrite lookup_app_l in Hl by lia.
  - right. rewrite lookup_app_r in Hl by lia.
    destruct (i - length l)%nat eqn:He; [|done]. simplify_eq/=. split; [lia|done].
Qed.

Lemma lookup_snoc {A} (l : list A) x : (l ++ [x]) !! length l = Some x.
Proof. rewrite lookup_app_r by lia. by rewrite Nat.sub_diag. Qed.

Lemma lookup_snoc_l {A} (l : list A) x i y : l !! i = Some y → (l ++ [x]) !! i = Some y.
Proof. intros Hl. rewrite lookup_app_l; [done|]. by eapply lookup_lt_Some. Qed.

Lemma scan_seen_new loc m cs b h i :
  scan_inv loc m cs b → b_seen_new b !! h = Some i → m !! h = None ∧ h ∈ (b_new_data b).*1.
Proof.
  intros Hi Hs. apply (si_seen _ _ _ _ Hi) in Hs as (j & Hj & _).
  assert (h ∈ (b_new_data b).*1) by by eapply list_elem_of_lookup_2.
  split; [by eapply si_new|done].
Qed.

Lemma scan_pos_lookup loc m cs b j i :
  scan_inv loc m cs b → b_new_pos b !! j = Some i →
  ∃ c, b_new_data b !! j = Some c ∧ cs !! i = Some c.
Proof.
  intros Hi Hj. eapply Forall2_lookup_r in Hj as (c & Hc & Hd); [|apply Hi]. by exists c.
Qed.

(** A new chunk sits at the position the scan remembers for its hash. *)
Lemma scan_seen_lookup loc m cs b h i :
  scan_inv loc m cs b → b_seen_new b !! h = Some i →
  ∃ j d, b_new_data b !! j = Some (h, d) ∧ b_new_pos b !! j = Some i ∧ cs !! i = Some (h, d).
Proof.
  intros Hi Hs. apply (si_seen _ _ _ _ Hi) in Hs as (j & Hh & Hj).
  destruct (scan_pos_lookup _ _ _ _ _ _ Hi Hj) as ([h' d] & Hd & Hc).
  rewrite list_lookup_fmap, Hd in Hh. cbn in Hh. simplify_eq. by exists j, d.
Qed.

(** A chunk whose hash was already met among the new ones. *)
Lemma scan_step_dup loc m cs b h data first :
  scan_inv loc m cs b → b_seen_new b !! h = Some first →
  scan_inv loc m (cs ++ [(h, data)])
    (mkBatch (b_out b ++ [(0, 0)]) (b_new_data b) (b_new_pos b) (b_seen_new b)
       (b_dup_of_new b ++ [(length cs, first)])).
Proof.
  intros Hi Hs. destruct (scan_seen_new _ _ _ _ _ _ Hi Hs) as [Hm Hin].
  pose proof (si_len _ _ _ _ Hi) as Hl.
  assert (first < length cs)%nat as Hfirst.
  { destruct (scan_seen_lookup _ _ _ _ _ _ Hi Hs) as (j & d & _ & _ & Hc).
    by eapply lookup_lt_Some. }
  split; cbn [b_out b_new_data b_new_pos b_seen_new b_dup_of_new].
  - by rewrite !length_app, Hl.
  - eapply Forall2_impl; [apply Hi|]. intros c i. apply lookup_snoc_l.
  - apply Hi.
  - apply Hi.
  - apply Hi.
  - intros i h' d [Hc|[-> [= -> ->]]]%lookup_snoc_inv Hsome.
    + rewrite lookup_app_l by (apply lookup_lt_Some in Hc; lia). by eapply si_old.
    + rewrite Hm in Hsome. by destruct Hsome.
  - intros i h' d [Hc|[-> [= <- <-]]]%lookup_snoc_inv Hnone.
    + destruct (si_rest _ _ _ _ Hi _ _ _ Hc Hnone) as (f & Hf & [->|Hd]); [by eauto|].
      exists f. split; [done|]. right. apply elem_of_app. by left.
    + exists first. split; [done|]. right. apply elem_of_app. by right; left.
  - intros i f [Hd|[= -> ->]%list_elem_of_singleton]%elem_of_app.
    + destruct (si_dups _ _ _ _ Hi _ _ Hd) as (Hne & h' & d & Hc & Hn & Hf).
      split; [done|]. exists h', d. split; [by apply lookup_snoc_l|done].
    + split; [lia|]. exists h, data. by rewrite lookup_snoc.
  - rewrite fmap_app. apply NoDup_app. split_and!; [apply Hi| |apply NoDup_singleton].
    cbn. intros i Hin'. apply list_elem_of_fmap in Hin' as ([i' f] & -> & Hd).
    rewrite list_elem_of_singleton. cbn.
    destruct (si_dups _ _ _ _ Hi _ _ Hd) as (_ & h' & d & Hc & _).
    apply lookup_lt_Some in Hc. lia.
  - unfold add_chunks. rewrite foldl_app. change (foldl add_chunk m cs) with (add_chunks m cs).
    rewrite (si_map _ _ _ _ Hi). cbn. unfold add_chunk. cbn.
    destruct (insert_all_is_Some m (b_new_data b) h Hin) as [d Hd]. by rewrite Hd.
  - rewrite sizes_app. pose proof (si_sizes _ _ _ _ Hi). lia.
Qed.

(** A chunk the index already has. *)
Lemma scan_step_old loc m cs b h data l :
  scan_inv loc m cs b → b_seen_new b !! h = None → is_Some (m !! h) → loc h = Some l →
  scan_inv loc m (cs ++ [(h, data)])
    (mkBatch (b_out b ++ [l]) (b_new_data b) (b_new_pos b) (b_seen_new b) (b_dup_of_new b)).
Proof.
  intros Hi Hs Hm Hl0. pose proof (si_len _ _ _ _ Hi) as Hl.
  split; cbn [b_out b_new_data b_new_pos b_seen_new b_dup_of_new].
  - by rewrite !length_app, Hl.
  - eapply Forall2_impl; [apply Hi|]. intros c i. apply lookup_snoc_l.
  - apply Hi.
  - apply Hi.
  - apply Hi.
  - intros i h' d [Hc|[-> [= <- <-]]]%lookup_snoc_inv Hsome.
    + rewrite lookup_app_l by (apply lookup_lt_Some in Hc; lia). by eapply si_old.
    + by rewrite <- Hl, lookup_snoc.
  - intros i h' d [Hc|[-> [= <- <-]]]%lookup_snoc_inv Hnone.
    + by eapply si_rest.
    + rewrite Hnone in Hm. by destruct Hm.
  - intros i f Hd. destruct (si_dups _ _ _ _ Hi _ _ Hd) as (Hne & h' & d & Hc & Hn & Hf).
    split; [done|]. exists h', d. split; [by apply lookup_snoc_l|done].
  - apply Hi.
  - unfold add_chunks. rewrite foldl_app. change (foldl add_chunk m cs) with (add_chunks m cs).
    rewrite (si_map _ _ _ _ Hi). cbn. unfold add_chunk. cbn.
    assert (h ∉ (b_new_data b).*1) as Hn.
    { intros Hn%(si_new _ _ _ _ Hi). rewrite Hn in Hm. by destruct Hm. }
    rewrite insert_all_lookup_None by done. by destruct Hm as [d ->].
  - rewrite sizes_app. pose proof (si_sizes _ _ _ _ Hi). lia.
Qed.

(** A chunk met for the first time. *)
Lemma scan_step_new loc m cs b h data :
  scan_inv loc m cs b → b_seen_new b !! h = None → m !! h = None →
  scan_inv loc m (cs ++ [(h, data)])
    (mkBatch (b_out b ++ [(0, 0)]) (b_new_data b ++ [(h, data)])
       (b_new_pos b ++ [length cs]) (<[h := length cs]> (b_seen_new b)) (b_dup_of_new b)).
Proof.
  intros Hi Hs Hm. pose proof (si_len _ _ _ _ Hi) as Hl.
  assert (length (b_new_data b) = length (b_new_pos b)) as Hlen.
  { eapply Forall2_length, Hi. }
  assert (h ∉ (b_new_data b).*1) as Hn.
  { intros [j Hj]%list_elem_of_lookup_1.
    destruct (lookup_lt_is_Some_2 (b_new_pos b) j) as [i Hp].
    { rewrite <- Hlen. apply lookup_lt_Some in Hj. by rewrite length_fmap in Hj. }
    assert (b_seen_new b !! h = Some i) as Hx by (apply (si_seen _ _ _ _ Hi); eauto).
    by rewrite Hs in Hx. }
  assert (∀ h' f, b_seen_new b !! h' = Some f →
    <[h := length cs]> (b_seen_new b) !! h' = Some f) as Hkeep.
  { intros h' f Hf. rewrite lookup_insert_ne; [done|]. intros ->. by rewrite Hs in Hf. }
  split; cbn [b_out b_new_data b_new_pos b_seen_new b_dup_of_new].
  - by rewrite !length_app, Hl.
  - apply Forall2_app; [eapply Forall2_impl; [apply Hi|]; intros c i; apply lookup_snoc_l|].
    constructor; [apply lookup_snoc|constructor].
  - rewrite fmap_app. apply NoDup_app. split_and!; [apply Hi| |apply NoDup_singleton].
    cbn. intros h' Hh' ->%list_elem_of_singleton. done.
  - intros h'. rewrite fmap_app, elem_of_app. intros [?|Hx]; [by eapply si_new|].
    by apply list_elem_of_singleton in Hx as ->.
  - intros h' i. rewrite lookup_insert_Some, (si_seen _ _ _ _ Hi), fmap_app. cbn. split.
    + intros [[<- <-]|(Hne & j & Hj & Hp)].
      * exists (length (b_new_data b)). rewrite Hlen at 2. rewrite lookup_snoc. split; [|done].
        rewrite <- (length_fmap fst (b_new_data b)). apply lookup_snoc.
      * exists j. split; by apply lookup_snoc_l.
    + intros (j & [Hj|[-> <-]]%lookup_snoc_inv & [Hp|[Hj' <-]]%lookup_snoc_inv).
      * right. split; [|by exists j]. intros ->. apply Hn. by eapply list_elem_of_lookup_2.
      * apply lookup_lt_Some in Hj. rewrite length_fmap in Hj. lia.
      * apply lookup_lt_Some in Hp. rewrite length_fmap in Hp. lia.
      * by left.
  - intros i h' d [Hc|[-> [= <- <-]]]%lookup_snoc_inv Hsome.
    + rewrite lookup_app_l by (apply lookup_lt_Some in Hc; lia). by eapply si_old.
    + rewrite Hm in Hsome. by destruct Hsome.
  - intros i h' d [Hc|[-> [= <- <-]]]%lookup_snoc_inv Hnone.
    + destruct (si_rest _ _ _ _ Hi _ _ _ Hc Hnone) as (f & Hf & Hr). eauto.
    + exists (length cs). rewrite lookup_insert_eq. auto.
  - intros i f Hd. destruct (si_dups _ _ _ _ Hi _ _ Hd) as (Hne & h' & d & Hc & Hnn & Hf).
    split; [done|]. exists h', d. split_and!; [by apply lookup_snoc_l|done|by apply Hkeep].
  - apply Hi.
  - unfold add_chunks. rewrite foldl_app. change (foldl add_chunk m cs) with (add_chunks m cs).
    rewrite (si_map _ _ _ _ Hi), insert_all_app. cbn. unfold add_chunk. cbn.
    by rewrite insert_all_lookup_None, Hm by done.
  - rewrite !sizes_app. pose proof (si_sizes _ _ _ _ Hi). cbn. lia.
Qed.

(** ** The writes and the copies *)

Lemma out_at_lookup out i x : out !! i = Some x → out_at out i = x.
Proof. unfold out_at. by intros ->. Qed.

Lemma resolve_dups_lookup out dups i :
  NoDup dups.*1 → (∀ i f, (i, f) ∈ dups → (i < length out)%nat ∧ f ∉ dups.*1) →
  resolve_dups out dups !! i =
  match list_find (λ d : nat * nat, d.1 = i) dups with
  | Some (_, (_, f)) => Some (out_at out f)
  | None => out !! i
  end.
Proof.
  unfold resolve_dups. revert out. induction dups as [|[a f] dups IH]; intros out Hnd Hd; [done|].
  cbn [foldl fst snd]. apply NoDup_cons in Hnd as [Ha Hnd].
  destruct (Hd a f) as [Hlt Hf]; [by left|].
  rewrite IH; [|done|]; last first.
  { intros a' f' Hin. rewrite length_insert. destruct (Hd a' f') as [? Hf']; [by right|].
    split; [done|]. intros ?. apply Hf'. by right. }
  cbn [list_find]. destruct (decide ((a, f).1 = i)) as [Hi|Hi]; cbn in Hi.
  - subst i. destruct (list_find _ dups) as [[j [a' f']]|] eqn:Hfd.
    + exfalso. apply list_find_Some in Hfd as (Hj & Hj' & _). cbn in Hj'. subst a'.
      apply Ha. apply list_elem_of_fmap. exists (a, f'). split; [done|].
      by eapply list_elem_of_lookup_2.
    + by rewrite list_lookup_insert_eq by done.
  - destruct (list_find _ dups) as [[j [a' f']]|] eqn:Hfd; cbn.
    + f_equal. unfold out_at. rewrite list_lookup_insert_ne; [done|].
      intros <-. apply list_find_Some in Hfd as (Hj & _ & _).
      apply (Hd a' a); [right; by eapply list_elem_of_lookup_2|]. by left.
    + by rewrite list_lookup_insert_ne by done.
Qed.

(** Publishing a whole layout in the index. *)
Definition publish (gid : N) (t : gmap string N) (es : list (hash32 * (N * N))) : gmap string N :=
  foldl (λ t e, <[key gid e.1 := pack e.2.1 e.2.2]> t) t es.

Lemma publish_loc_other gid t es h :
  gid < 2^64 → h ∉ es.*1 → loc_in gid (publish gid t es) h = loc_in gid t h.
Proof.
  intros Hg. revert t. induction es as [|e es IH]; intros t; [done|]. cbn.
  rewrite not_elem_of_cons. intros [Hne Hn].
  change (foldl _ _ es) with (publish gid (<[key gid e.1 := pack e.2.1 e.2.2]> t) es).
  by rewrite IH, loc_in_insert_ne.
Qed.

Lemma layout_bound off nd l : l ∈ layout off nd → l.1 + l.2 ≤ off + sizes nd.
Proof.
  revert off. induction nd as [|c nd IH]; intros off; [by intros ?%elem_of_nil|]. cbn.
  rewrite elem_of_cons. intros [->|Hl%IH]; cbn; lia.
Qed.

Lemma zip_fst nd off : (zip nd.*1 (layout off nd)).*1 = nd.*1.
Proof.
  revert off. induction nd as [|c nd IH]; intros off; [done|]. cbn. f_equal. apply IH.
Qed.

Lemma publish_layout_loc gid t nd off j h :
  gid < 2^64 → NoDup nd.*1 → off + sizes nd < 2^32 → nd.*1 !! j = Some h →
  loc_in gid (publish gid t (zip nd.*1 (layout off nd))) h = layout off nd !! j.
Proof.
  intros Hg. revert t off j. induction nd as [|c nd IH]; intros t off j Hnd Hb Hj; [done|].
  cbn in Hnd, Hb, Hj. apply NoDup_cons in Hnd as [Hn Hnd].
  change (publish gid t (zip (c :: nd).*1 (layout off (c :: nd)))) with
    (publish gid (<[key gid c.1 := pack off (lenN c.2)]> t)
       (zip nd.*1 (layout (off + lenN c.2) nd))).
  destruct j as [|j]; cbn in Hj |- *; [|apply IH; [done|lia|done]].
  injection Hj as <-. rewrite publish_loc_other by (rewrite ?zip_fst; done).
  apply loc_in_insert; lia.
Qed.

Lemma index_ok_publish gid t data size m nd off :
  gid < 2^64 → index_ok gid t data size m → NoDup nd.*1 →
  (∀ h, h ∈ nd.*1 → m !! h = None) → total m + sizes nd ≤ size →
  off + sizes nd ≤ size → off + sizes nd < 2^32 →
  Forall2 (λ c l, span l.1 l.2 data = c.2) nd (layout off nd) →
  index_ok gid (publish gid t (zip nd.*1 (layout off nd))) data size (insert_all m nd).
Proof.
  intros Hg. revert t m off.
  induction nd as [|[h bs] nd IH]; intros t m off Hi Hnd Hnew Htot Hoff Hb Hspan; [done|].
  cbn in Hnd, Htot, Hoff, Hb, Hspan. apply NoDup_cons in Hnd as [Hn Hnd].
  apply Forall2_cons in Hspan as [Hbs Hspan]. cbn in Hbs.
  change (insert_all m ((h, bs) :: nd)) with (insert_all (<[h := bs]> m) nd).
  change (publish gid t (zip ((h, bs) :: nd).*1 (layout off ((h, bs) :: nd)))) with
    (publish gid (<[key gid h := pack off (lenN bs)]> t)
       (zip nd.*1 (layout (off + lenN bs) nd))).
  assert (m !! h = None) as Hm by (apply Hnew; by left).
  apply IH; [|done| |rewrite total_insert by done; lia|lia..|done].
  - apply index_ok_insert; try done; lia.
  - intros h' Hh'. rewrite lookup_insert_ne; [|by intros ->]. apply Hnew. by right.
Qed.

Section batch.
Context {D F : Type} `{RedbLaws D, FileLaws F, !CompioOps F, !OpenOps D F}.
Implicit Types (s : GameStore D F) (m : gmap hash32 (list byte)).

Lemma batch_step_ok s m snap cs b h data b' :
  represents s m → db_equiv snap (gs_db s) → scan_inv (location s) m cs b →
  batch_step s snap b (length cs) h data = Ok b' →
  scan_inv (location s) m (cs ++ [(h, data)]) b'.
Proof.
  intros Hr He Hi. unfold batch_step. destruct (b_seen_new b !! h) as [first|] eqn:Hs.
  { intros [= <-]. by apply scan_step_dup. }
  intros Hb. apply bind_Ok_inv in Hb as (found & Hg & Hb).
  apply with_context_Ok_inv, (get_ok snap TABLE) in Hg.
  rewrite (proj1 (He TABLE)) in Hg.
  assert (location s h = unpack <$> found) as Hloc by (unfold location, loc_in; by rewrite Hg).
  pose proof (represents_location s m h Hr) as Hm. rewrite Hloc in Hm.
  destruct found as [v|]; injection Hb as <-.
  - apply scan_step_old; [done..| |done]. apply Hm. by eexists.
  - apply scan_step_new; [done..|]. apply eq_None_not_Some. rewrite <- Hm. by intros [].
Qed.

Lemma batch_scan_ok s m snap cs b chunks b' :
  represents s m → db_equiv snap (gs_db s) → scan_inv (location s) m cs b →
  batch_scan s snap b (length cs) chunks = Ok b' →
  scan_inv (location s) m (cs ++ chunks) b'.
Proof.
  intros Hr He. revert cs b. induction chunks as [|[h data] chunks IH]; intros cs b Hi.
  { intros [= <-]. by rewrite app_nil_r. }
  cbn. intros Hb. apply bind_Ok_inv in Hb as (b1 & Hs & Hb).
  apply (batch_step_ok _ m _ _ _ _ _ _ Hr He Hi) in Hs.
  rewrite (cons_middle (h, data)), app_assoc. apply (IH _ b1); [done|].
  by rewrite length_app, Nat.add_comm.
Qed.

(** The write loop: the new chunks end up in the file, one after the other. *)
Lemma batch_write_ok nd np out off s m s' r :
  represents s m → gs_size s ≤ off → off ≤ lenN (f_data (pack_file s)) →
  Forall2 (λ _ i, (i < length out)%nat) nd np → NoDup np → off + sizes nd < 2^32 →
  batch_write nd np out off s = (s', r) →
  represents s' m ∧ gs_db s' = gs_db s ∧ gs_game_id s' = gs_game_id s ∧
  gs_size s' = gs_size s ∧
  take (N.to_nat off) (f_data (pack_file s')) = take (N.to_nat off) (f_data (pack_file s)) ∧
  match r with
  | Ok (out', off') => off' = off + sizes nd ∧ off' ≤ lenN (f_data (pack_file s')) ∧
      length out' = length out ∧ (∀ i, i ∉ np → out' !! i = out !! i) ∧
      (∀ j i, np !! j = Some i → out' !! i = layout off nd !! j) ∧
      Forall2 (λ c l, span l.1 l.2 (f_data (pack_file s')) = c.2) nd (layout off nd)
  | Err _ => True
  end.
Proof.
  revert np out off s.
  induction nd as [|[h data] nd IH]; intros np out off s Hr Hlow Hoff Hpos Hnd Hb Hw.
  { apply Forall2_nil_inv_l in Hpos as ->. injection Hw as <- <-. cbn.
    split_and!; try done. lia. }
  apply Forall2_cons_inv_l in Hpos as (pos & np' & Hlt & Hpos & ->).
  apply NoDup_cons in Hnd as [Hnotin Hnd]. cbn in Hw, Hb.
  unfold mbind at 1, M_bind at 1, map_err_m at 1 in Hw.
  destruct (on_file (write_exact_at data off) s) as [s1 r1] eqn:Hw1.
  apply (on_file_write_represents _ _ _ _ _ _ Hr Hlow Hoff) in Hw1
    as (Hr1 & Hdb1 & Hid1 & Hsz1 & Htake1 & Hok).
  destruct r1 as [[]|e]; cbn in Hw; [|by simplify_eq].
  specialize (Hok eq_refl). rewrite as_u32_small, add_u64_small in Hw by lia.
  assert (lenN (f_data (pack_file s1)) =
    N.max (lenN (f_data (pack_file s))) (off + lenN data)) as Hlen.
  { by rewrite Hok, lenN_patch_app. }
  apply IH in Hw as (Hr' & Hdb & Hid & Hsz & Htake & Hres); [|done|lia|lia| |done|lia];
    last first.
  { eapply Forall2_impl; [done|]. intros c i ?. by rewrite length_insert. }
  split_and!; [done|congruence..|lia| |].
  { rewrite <- Htake1. by apply (take_agree_le _ (off + lenN data)); [lia|]. }
  destruct r as [[out' off']|]; [|done].
  destruct Hres as (-> & Hoff' & Hl & Hnotp & Hp & Hspans). cbn. split_and!.
  - lia.
  - done.
  - by rewrite Hl, length_insert.
  - intros i. rewrite not_elem_of_cons. intros [Hne Hi].
    rewrite Hnotp, list_lookup_insert_ne by done. done.
  - intros [|j] i; cbn; [|apply Hp]. intros [= <-].
    rewrite Hnotp, list_lookup_insert_eq by done. done.
  - constructor; [|done]. cbn.
    rewrite (span_agree (off + lenN data) _ _ _ (f_data (pack_file s1))) by done.
    rewrite Hok. apply span_patch_here.
Qed.

Lemma scan_new_pos_nodup loc m cs b : scan_inv loc m cs b → NoDup (b_new_pos b).
Proof.
  intros Hi. apply NoDup_alt. intros j1 j2 i H1 H2.
  destruct (scan_pos_lookup _ _ _ _ _ _ Hi H1) as (c1 & Hc1 & Hi1).
  destruct (scan_pos_lookup _ _ _ _ _ _ Hi H2) as (c2 & Hc2 & Hi2).
  assert (c1 = c2) as -> by congruence.
  apply (NoDup_lookup (b_new_data b).*1 j1 j2 c2.1); [apply Hi|..];
    rewrite list_lookup_fmap; [by rewrite Hc1|by rewrite Hc2].
Qed.

Lemma scan_dup_target loc m cs b i f :
  scan_inv loc m cs b → (i, f) ∈ b_dup_of_new b →
  (i < length cs)%nat ∧ f ∉ (b_dup_of_new b).*1.
Proof.
  intros Hi Hd. destruct (si_dups _ _ _ _ Hi _ _ Hd) as (_ & h & d & Hc & _ & Hf).
  split; [by eapply lookup_lt_Some|]. intros Hin. apply list_elem_of_fmap in Hin as ([f' f2] & -> & Hd2).
  destruct (si_dups _ _ _ _ Hi _ _ Hd2) as (Hne & h2 & d2 & Hc2 & _ & Hf2). cbn in *.
  destruct (scan_seen_lookup _ _ _ _ _ _ Hi Hf) as (_ & d3 & _ & _ & Hc3).
  simplify_eq.
Qed.

(** Every result the batch returns is where the published index has its chunk. *)
Lemma batch_out_ok loc m cs b (out nd_layout : list (N * N)) i h d :
  scan_inv loc m cs b → cs !! i = Some (h, d) → length out = length cs →
  (∀ i, i ∉ b_new_pos b → out !! i = b_out b !! i) →
  (∀ j i, b_new_pos b !! j = Some i → out !! i = nd_layout !! j) →
  let out' := resolve_dups out (b_dup_of_new b) in
  (is_Some (m !! h) ∧ out' !! i = loc h) ∨
  (∃ j f, (b_new_data b).*1 !! j = Some h ∧ b_new_pos b !! j = Some f ∧
     (f < length cs)%nat ∧ out' !! i = Some (out_at out f)).
Proof.
  intros Hi Hc Hlen Hold Hnew out'.
  pose proof (λ i f Hd, scan_dup_target _ _ _ _ i f Hi Hd) as Hdt.
  assert (out' !! i = match list_find (λ d : nat * nat, d.1 = i) (b_dup_of_new b) with
    | Some (_, (_, f)) => Some (out_at out f) | None => out !! i end) as Hout'.
  { apply resolve_dups_lookup; [apply Hi|]. by rewrite Hlen. }
  assert (is_Some (out !! i)) as [x Hx].
  { apply lookup_lt_is_Some_2. rewrite Hlen. by eapply lookup_lt_Some. }
  destruct (list_find _ _) as [[k [i' f]]|] eqn:Hfind.
  - apply list_find_Some in Hfind as (Hk & Hi' & _). cbn in Hi'. subst i'.
    assert ((i, f) ∈ b_dup_of_new b) as Hd by by eapply list_elem_of_lookup_2.
    destruct (si_dups _ _ _ _ Hi _ _ Hd) as (_ & h' & d' & Hc' & _ & Hf). simplify_eq.
    destruct (scan_seen_lookup _ _ _ _ _ _ Hi Hf) as (j & d2 & Hj & Hp & Hcf).
    right. exists j, f. split_and!; [by rewrite list_lookup_fmap, Hj|done| |done].
    by eapply lookup_lt_Some.
  - destruct (m !! h) as [bs|] eqn:Hm.
    + left. split; [by eexists|]. rewrite Hout', Hold.
      * eapply si_old; [done..|]. by rewrite Hm.
      * intros [j Hj]%list_elem_of_lookup_1.
        destruct (scan_pos_lookup _ _ _ _ _ _ Hi Hj) as (c & Hcd & Hci). simplify_eq.
        assert (h ∈ (b_new_data b).*1) as Hin.
        { apply list_elem_of_fmap. exists (h, d). split; [done|].
          by eapply list_elem_of_lookup_2. }
        apply (si_new _ _ _ _ Hi) in Hin. by rewrite Hm in Hin.
    + right. destruct (si_rest _ _ _ _ Hi _ _ _ Hc Hm) as (f & Hf & [->|Hd]).
      * destruct (scan_seen_lookup _ _ _ _ _ _ Hi Hf) as (j & d2 & Hj & Hp & _).
        exists j, i. split_and!; [by rewrite list_lookup_fmap, Hj|done|by eapply lookup_lt_Some|].
        rewrite Hout', Hx. by rewrite (out_at_lookup _ _ _ Hx).
      * apply list_find_None in Hfind. rewrite Forall_forall in Hfind.
        by destruct (Hfind _ Hd).
Qed.

(** After the writes: the size moves up and, when there is something new, the
    index is published. *)
Lemma batch_finish s s1 m b off s' r :
  scan_inv (location s) m off b → represents s1 m →
  gs_size s1 + sizes (b_new_data b) < 2^32 →
  gs_size s1 + sizes (b_new_data b) ≤ lenN (f_data (pack_file s1)) →
  Forall2 (λ c l, span l.1 l.2 (f_data (pack_file s1)) = c.2) (b_new_data b)
    (layout (gs_size s1) (b_new_data b)) →
  (if bool_decide (b_new_data b = []) then mret ()
   else write_index (gs_game_id s1) (zip (b_new_data b).*1 (layout (gs_size s1) (b_new_data b))))
    (set_size (gs_size s1 + sizes (b_new_data b)) s1) = (s', r) →
  match r with
  | Ok _ => represents s' (insert_all m (b_new_data b)) ∧
      gs_game_id s' = gs_game_id s1 ∧
      contents (gs_db s') TABLE = publish (gs_game_id s1) (contents (gs_db s1) TABLE)
        (zip (b_new_data b).*1 (layout (gs_size s1) (b_new_data b)))
  | Err _ => represents s' m
  end.
Proof.
  intros Hi Hr Hb Hlen Hspans Hw.
  assert (represents (set_size (gs_size s1 + sizes (b_new_data b)) s1) m) as Hr2.
  { apply set_size_represents; [done|lia|done]. }
  case_bool_decide as Hnil.
  { injection Hw as <- <-. rewrite Hnil in *. by split_and!. }
  apply write_index_ok in Hw as (Hid & Hpath & Hdet & Hsz & Hres).
  cbn in Hid, Hpath, Hdet, Hsz, Hres.
  assert (pack_file s' = pack_file s1) as Hf.
  { unfold pack_file. by rewrite Hdet, Hpath. }
  destruct r as [u|e]; last first.
  { apply (represents_frame (set_size (gs_size s1 + sizes (b_new_data b)) s1)); try done.
    - by rewrite Hres. - rewrite Hres. apply Hr. - rewrite Hdet. apply Hr.
    - by rewrite Hsz. - by rewrite Hsz, Hf. - by rewrite Hf. }
  destruct Hres as [Hc Ht]. split_and!; [|done|done].
  split; [rewrite Hid; apply Hr|done|rewrite Hdet; apply Hr|by rewrite Hsz, Hf|].
  rewrite Hid, Hc, Hsz, Hf. pose proof (ix_total _ _ _ _ _ (rep_index _ _ Hr)).
  apply index_ok_publish; try done; [apply Hr| |apply Hi|apply Hi|lia].
  eapply index_ok_frame; [apply Hr|lia|done].
Qed.

Lemma fmap_out_layout (out : list (N * N)) np lay :
  length np = length lay → (∀ j i, np !! j = Some i → out !! i = lay !! j) →
  out_at out <$> np = lay.
Proof.
  intros Hl Hp. apply list_eq. intros j. rewrite list_lookup_fmap.
  destruct (np !! j) as [i|] eqn:Hj; cbn.
  - specialize (Hp _ _ Hj). destruct (lay !! j) as [x|] eqn:Hx.
    + f_equal. by apply out_at_lookup.
    + apply lookup_ge_None_1 in Hx. apply lookup_lt_Some in Hj. lia.
  - symmetry. apply lookup_ge_None_2. apply lookup_ge_None_1 in Hj. lia.
Qed.

(** Copies do not touch the positions of new chunks. *)
Lemma resolve_new_pos loc m cs b (out : list (N * N)) j i :
  scan_inv loc m cs b → length out = length cs → b_new_pos b !! j = Some i →
  resolve_dups out (b_dup_of_new b) !! i = out !! i.
Proof.
  intros Hi Hlen Hj. rewrite resolve_dups_lookup; [|apply Hi|]; last first.
  { intros i' f Hd. rewrite Hlen. by eapply scan_dup_target. }
  destruct (list_find _ _) as [[k [i' f]]|] eqn:Hfind; [|done].
  apply list_find_Some in Hfind as (Hk & Hi' & _). cbn in Hi'. subst i'.
  assert ((i, f) ∈ b_dup_of_new b) as Hd by by eapply list_elem_of_lookup_2.
  destruct (si_dups _ _ _ _ Hi _ _ Hd) as (Hne & h & d & Hc & _ & Hf).
  destruct (scan_pos_lookup _ _ _ _ _ _ Hi Hj) as ([h' d'] & Hnd & Hc').
  simplify_eq. assert (b_seen_new b !! h = Some i) as Hs.
  { apply (si_seen _ _ _ _ Hi). exists j. by rewrite list_lookup_fmap, Hnd. }
  congruence.
Qed.

Lemma resolve_dups_length (out : list (N * N)) dups :
  length (resolve_dups out dups) = length out.
Proof.
  unfold resolve_dups. revert out. induction dups as [|d dups IH]; intros; [done|].
  cbn. by rewrite IH, length_insert.
Qed.

(** After the publication every result is the location of its chunk. *)
Lemma batch_locations s s' m chunks b (out : list (N * N)) :
  scan_inv (location s) m chunks b → gs_game_id s < 2^64 →
  gs_size s + sizes (b_new_data b) < 2^32 → length out = length chunks →
  (∀ i, i ∉ b_new_pos b → out !! i = b_out b !! i) →
  (∀ j i, b_new_pos b !! j = Some i → out !! i = layout (gs_size s) (b_new_data b) !! j) →
  gs_game_id s' = gs_game_id s →
  contents (gs_db s') TABLE = publish (gs_game_id s) (contents (gs_db s) TABLE)
    (zip (b_new_data b).*1 (layout (gs_size s) (b_new_data b))) →
  Forall2 (λ c l, location s' c.1 = Some l) chunks (resolve_dups out (b_dup_of_new b)).
Proof.
  intros Hi Hid Hb Hlen Hold Hnew Hid2 Hc2.
  apply Forall2_same_length_lookup. rewrite resolve_dups_length. split; [done|].
  intros i [h d] l Hc Hl. cbn. unfold location. rewrite Hid2, Hc2.
  destruct (batch_out_ok _ _ _ _ _ _ _ _ _ Hi Hc Hlen Hold Hnew)
    as [[Hm Hout]|(j & f & Hj & Hp & Hf & Hout)]; cbv zeta in Hout; rewrite Hl in Hout.
  - rewrite publish_loc_other; [by symmetry|done|]. rewrite zip_fst.
    intros Hin%(si_new _ _ _ _ Hi). rewrite Hin in Hm. by destruct Hm.
  - rewrite (publish_layout_loc _ _ _ _ j); [|done|apply Hi|done|done].
    rewrite <- (Hnew _ _ Hp), Hout. unfold out_at.
    destruct (lookup_lt_is_Some_2 out f) as [x ->]; [by rewrite Hlen|done].
Qed.

(** [append_chunks_batch] implements a sequence of [add_chunk]s, all or nothing. *)
Lemma append_chunks_batch_refines s m chunks s' r :
  represents s m → gs_size s + sizes chunks < 2^32 →
  append_chunks_batch chunks s = (s', r) →
  match r with
  | Ok out => represents s' (add_chunks m chunks) ∧
      Forall2 (λ c l, location s' c.1 = Some l) chunks out
  | Err _ => represents s' m
  end.
Proof.
  intros Hr Hb Ha. unfold append_chunks_batch in Ha.
  rewrite (M_bind_ok get _ s s s) in Ha by done.
  m_step Ha as s0 b e Hscan; unfold lift in Hscan; [|by injection Hscan as <- _].
  injection Hscan as <- Hscan. apply read_txn_Ok_inv in Hscan as (snap & He & Hscan).
  apply (batch_scan_ok s m snap [] batch0 chunks b Hr He (scan_inv_0 _ _)) in Hscan as Hi.
  cbn [app] in Hi. pose proof (si_sizes _ _ _ _ Hi) as Hsz.
  assert (Forall2 (λ _ i, (i < length (b_out b))%nat) (b_new_data b) (b_new_pos b)) as Hpos.
  { eapply Forall2_impl; [apply Hi|]. intros c i Hc. cbn in Hc.
    rewrite (si_len _ _ _ _ Hi). by eapply lookup_lt_Some. }
  assert (gs_size s + sizes (b_new_data b) < 2^32) as Hbb by lia.
  m_step Ha as s1 [out off'] e Hw; apply (batch_write_ok _ _ _ _ _ _ _ _ Hr (N.le_refl _)
    (rep_size _ _ Hr) Hpos (scan_new_pos_nodup _ _ _ _ Hi) Hbb) in Hw; [|by destruct Hw].
  destruct Hw as (Hr1 & Hdb1 & Hid1 & Hsz1 & _ & -> & Hoff' & Hlen & Hold & Hnew & Hspans).
  rewrite (si_len _ _ _ _ Hi) in Hlen. cbn [fst snd] in Ha. cbv zeta in Ha.
  rewrite (M_bind_ok (modify _) _ s1 (set_size (gs_size s + sizes (b_new_data b)) s1) ())
    in Ha by done.
  assert (out_at (resolve_dups out (b_dup_of_new b)) <$> b_new_pos b =
    layout (gs_size s) (b_new_data b)) as Hlay.
  { apply fmap_out_layout.
    - rewrite layout_length. symmetry. eapply Forall2_length, Hi.
    - intros j i Hj. rewrite <- (Hnew _ _ Hj). by eapply resolve_new_pos. }
  rewrite Hlay, <- Hid1, <- Hsz1 in Ha. rewrite <- Hsz1 in *.
  m_step Ha as s2 u e2 Hfin; apply (batch_finish s _ m _ chunks) in Hfin; try done; try lia.
  injection Ha as <- <-. destruct Hfin as (Hr2 & Hid2 & Hc2).
  rewrite (si_map _ _ _ _ Hi). split; [done|]. rewrite Hdb1, Hid1 in Hc2. rewrite Hid1 in Hid2.
  rewrite Hsz1 in Hbb, Hnew, Hc2. eapply batch_locations; try done. apply Hr.
Qed.

(** The end of the pack moves by the bytes of the new chunks. *)
Lemma append_chunks_batch_total s m chunks s' out :
  represents s m → gs_size s + sizes chunks < 2^32 →
  append_chunks_batch chunks s = (s', Ok out) →
  gs_size s' + total m = gs_size s + total (add_chunks m chunks).
Proof.
  intros Hr Hb Ha. unfold append_chunks_batch in Ha.
  rewrite (M_bind_ok get _ s s s) in Ha by done.
  m_step Ha as s0 b e Hscan; unfold lift in Hscan. injection Hscan as <- Hscan.
  apply read_txn_Ok_inv in Hscan as (snap & He & Hscan).
  apply (batch_scan_ok s m snap [] batch0 chunks b Hr He (scan_inv_0 _ _)) in Hscan as Hi.
  cbn [app] in Hi. pose proof (si_sizes _ _ _ _ Hi) as Hsz.
  assert (Forall2 (λ _ i, (i < length (b_out b))%nat) (b_new_data b) (b_new_pos b)) as Hpos.
  { eapply Forall2_impl; [apply Hi|]. intros c i Hc. cbn in Hc.
    rewrite (si_len _ _ _ _ Hi). by eapply lookup_lt_Some. }
  assert (gs_size s + sizes (b_new_data b) < 2^32) as Hbb by lia.
  m_step Ha as s1 [out1 off'] e Hw. apply (batch_write_ok _ _ _ _ _ _ _ _ Hr (N.le_refl _)
    (rep_size _ _ Hr) Hpos (scan_new_pos_nodup _ _ _ _ Hi) Hbb) in Hw.
  destruct Hw as (_ & _ & _ & _ & _ & -> & _). cbn [fst snd] in Ha. cbv zeta in Ha.
  rewrite (M_bind_ok (modify _) _ s1 (set_size (gs_size s + sizes (b_new_data b)) s1) ()) in Ha by done.
  assert (gs_size s' = gs_size s + sizes (b_new_data b)) as ->.
  { m_step Ha as s2 u e2 Hfin. injection Ha as <- _. case_bool_decide.
    - by injection Hfin as <- _.
    - by apply write_index_ok in Hfin as (_ & _ & _ & -> & _). }
  rewrite (si_map _ _ _ _ Hi), total_insert_all by apply Hi. lia.
Qed.

Lemma append_chunks_batch_size s m chunks s' out :
  represents s m → gs_size s + sizes chunks < 2^32 →
  append_chunks_batch chunks s = (s', Ok out) → gs_size s' ≤ gs_size s + sizes chunks.
Proof.
  intros Hr Hb Ha. pose proof (append_chunks_batch_total _ _ _ _ _ Hr Hb Ha).
  pose proof (total_add_chunks m chunks). lia.
Qed.

(** One [append_chunk] after the other. *)
Fixpoint append_each (chunks : list (hash32 * list byte)) :
    M (GameStore D F) error (list (N * N)) :=
  match chunks with
  | [] => mret []
  | c :: chunks =>
    l ← append_chunk c.1 c.2;
    ls ← append_each chunks;
    mret (l :: ls)
  end.

Lemma append_chunk_size s m h data s' l :
  represents s m → gs_size s + lenN data < 2^32 →
  append_chunk h data s = (s', Ok l) → gs_size s' ≤ gs_size s + lenN data.
Proof.
  intros Hr Hb Ha. unfold append_chunk in Ha.
  rewrite (M_bind_ok get _ s s s) in Ha by done.
  m_step Ha as s0 found e Hl. unfold lift in Hl. injection Hl as <- Hl.
  destruct found as [v|]; [injection Ha as <- _; lia|]. cbv zeta in Ha.
  m_step Ha as s1 [] e Hw. unfold map_err_m in Hw.
  destruct (on_file _ s) as [s1' r1] eqn:Hw'. injection Hw as -> Hr1.
  apply (on_file_write_represents _ _ _ _ _ _ Hr) in Hw' as (_ & _ & _ & Hsz & _);
    [|done|apply Hr].
  rewrite (M_bind_ok (modify _) _ s1 (set_size (add_u64 (gs_size s1) (lenN data)) s1) ())
    in Ha by done.
  m_step Ha as s3 u e Hx; apply write_index_ok in Hx as (_ & _ & _ & Hsz3 & _).
  injection Ha as <- _. rewrite Hsz3. cbn. rewrite Hsz, add_u64_small; lia.
Qed.

Lemma append_each_refines s m chunks s' ls :
  represents s m → gs_size s + sizes chunks < 2^32 →
  append_each chunks s = (s', Ok ls) → represents s' (add_chunks m chunks).
Proof.
  revert s m ls. induction chunks as [|[h data] chunks IH]; intros s m ls Hr Hb Ha.
  { by injection Ha as <- <-. }
  cbn in Ha, Hb. m_step Ha as s1 l e H1. m_step Ha as s2 ls' e H2. injection Ha as <- <-.
  assert (gs_size s + lenN data < 2^32) as Hb1 by lia.
  pose proof (append_chunk_size _ _ _ _ _ _ Hr Hb1 H1).
  apply (append_chunk_refines _ _ _ _ _ _ Hr) in H1 as [Hr1 _]; [|lia].
  apply (IH s1 (add_chunk m (h, data)) ls'); [done|lia|done].
Qed.

(** C3: [append_chunks_batch] is one all-or-nothing step for what a loop of
    [append_chunk] does chunk by chunk: when both succeed the two stores hold the
    same chunks, duplicates inside the batch included; every result of the batch
    is where the index finds that chunk; and a failing batch, wherever it fails,
    leaves every chunk of the store as it was. *)
Theorem append_chunks_batch_spec s m chunks s' r :
  represents s m → gs_size s + sizes chunks < 2^32 →
  append_chunks_batch chunks s = (s', r) →
  match r with
  | Ok out => Forall2 (λ c l, location s' c.1 = Some l) chunks out ∧
      ∀ s2 ls, append_each chunks s = (s2, Ok ls) → ∃ m', represents s' m' ∧ represents s2 m' ∧
        (∀ h, is_Some (m' !! h) ↔ is_Some (m !! h) ∨ h ∈ chunks.*1)
  | Err _ => represents s' m
  end.
Proof.
  intros Hr Hb Ha. pose proof (append_chunks_batch_refines _ _ _ _ _ Hr Hb Ha) as Hres.
  destruct r as [out|e]; [|done]. destruct Hres as [Hr' Hout]. split; [done|].
  intros s2 ls Hs2. exists (add_chunks m chunks).
  split_and!; [done|by eapply append_each_refines|]. clear. intros h. revert m.
  induction chunks as [|c chunks IH]; intros m; cbn; [rewrite elem_of_nil; tauto|].
  rewrite IH, elem_of_cons. unfold add_chunk. destruct (m !! c.1) as [d|] eqn:Hm.
  - assert (h = c.1 → is_Some (m !! h)) by (intros ->; by eexists). tauto.
  - rewrite lookup_insert_is_Some'. rewrite (symmetry_iff (=) c.1 h). tauto.
Qed.

End batch.

Definition wit_batch : list (hash32 * list byte) :=
  [(hash_rep x01, [x68; x69]); (hash_rep x02, [x6a; x6b; x6c; x6d]); (hash_rep x01, [x6e])].

Lemma append_chunks_batch_spec_witness :
  ∃ s', append_chunks_batch wit_batch mem_store = (s', Ok [(0, 2); (2, 4); (0, 2)]) ∧
    location s' (hash_rep x02) = Some (2, 4).
Proof.
  destruct (append_chunks_batch wit_batch mem_store) as [s' r] eqn:Ha.
  pose proof (append_chunks_batch_spec mem_store ∅ wit_batch s' r mem_store_empty
    ltac:(vm_compute; reflexivity) Ha) as Hres.
  assert (r = Ok [(0, 2); (2, 4); (0, 2)]) as ->.
  { change r with (s', r).2. rewrite <- Ha. vm_compute. reflexivity. }
  destruct Hres as [Hout _]. exists s'. split; [done|].
  inversion Hout as [|c1 l1 cs ls _ Hout1]. inversion Hout1 as [|c2 l2 cs2 ls2 Hl _]. exact Hl.
Defined.
