(* ===== verification/StorageLive.v ===== *)
(** * StorageLive: a batch on a healthy disk

    The batched append succeeds when the database and the pack file do not fail,
    and it moves the end of the pack by the bytes of the new chunks only: chunks
    the store has, and copies inside the batch, take no room. *)

From S2P Require Import Prelude Bytes FileIO Redb Storage StorageSpec StorageBatch.

(** ** The bytes of a map *)

Lemma total_union m1 m2 : m1 ##ₘ m2 → total (m1 ∪ m2) = total m1 + total m2.
Proof.
  induction m1 as [|h d m1 Hh IH] using map_ind; intros Hd.
  { by rewrite map_empty_union, total_empty. }
  apply map_disjoint_insert_l in Hd as [Hh2 Hd]. rewrite <- insert_union_l, !total_insert; [|done|].
  - rewrite IH by done. lia.
  - by apply lookup_union_None.
Qed.

Lemma total_le_size m B : map_Forall (λ _ d, lenN d ≤ B) m → total m ≤ B * N.of_nat (base.size m).
Proof.
  induction m as [|h d m Hh IH] using map_ind; intros Hm; [rewrite total_empty; lia|].
  apply map_Forall_insert in Hm as [Hd Hm]; [|done]. rewrite total_insert, map_size_insert_None by done.
  specialize (IH Hm). lia.
Qed.

(** What was added: at most [B] bytes for each hash of [X]. *)
Lemma total_added m m' (X : gset hash32) B :
  m ⊆ m' → (∀ h d, m' !! h = Some d → m !! h = None → h ∈ X ∧ lenN d ≤ B) →
  total m' ≤ total m + B * N.of_nat (base.size X).
Proof.
  intros Hsub Hnew. rewrite <- (map_difference_union m m' Hsub), total_union
    by (apply map_disjoint_difference_r1; reflexivity).
  assert (total (m' ∖ m) ≤ B * N.of_nat (base.size (m' ∖ m))) as Ht.
  { apply total_le_size. intros h d [Hd Hn]%lookup_difference_Some. by apply (Hnew h). }
  assert (base.size (m' ∖ m) ≤ base.size X)%nat as Hs.
  { rewrite <- size_dom. apply subseteq_size. intros h Hin.
    apply elem_of_dom in Hin as [d [Hd Hn]%lookup_difference_Some]. by apply (Hnew h d). }
  etrans; [apply N.add_le_mono_l, Ht|]. apply N.add_le_mono_l, N.mul_le_mono_l. lia.
Qed.

Section live.
Context {D F : Type} `{RedbLaws D, FileLaws F, !CompioOps F, !OpenOps D F}.
Implicit Types (s : GameStore D F) (m : gmap hash32 (list byte)).

(** ** Nothing fails *)

Context `{!RedbHealthy D}.

Lemma batch_scan_healthy s snap b idx chunks :
  db_healthy snap → ∃ b', batch_scan s snap b idx chunks = Ok b'.
Proof.
  intros Hs. revert b idx. induction chunks as [|[h d] chunks IH]; intros b idx; cbn; [by eexists|].
  assert (∃ b1, batch_step s snap b idx h d = Ok b1) as [b1 ->]; [|apply IH].
  unfold batch_step. destruct (b_seen_new b !! h); [by eexists|].
  destruct (get_healthy snap TABLE (key (gs_game_id s) h) Hs) as [v ->]. cbn.
  destruct v; by eexists.
Qed.

Lemma batch_write_healthy nd np out off s m :
  represents s m → healthy s → gs_size s ≤ off → off ≤ lenN (f_data (pack_file s)) →
  off + sizes nd < 2^32 →
  ∃ s' x, batch_write nd np out off s = (s', Ok x) ∧ healthy s'.
Proof.
  revert np out off s. induction nd as [|[h data] nd IH]; intros np out off s Hr Hs Hlow Hoff Hb; [by eexists _, _|].
  destruct np as [|pos np]; [by eexists _, _|]. cbn [batch_write sizes snd] in *.
  unfold map_err_m at 1, mbind at 1, M_bind at 1.
  destruct (on_file (write_exact_at data off) s) as [s1 r1] eqn:Hw.
  assert (r1 = Ok () ∧ healthy s1) as [-> Hs1].
  { revert Hw. unfold on_file, zoom. destruct Hs as [Hd Hf].
    destruct (write_exact_at_spec data off (pack_file s) Hf Hoff) as (f & -> & Hh & _).
    intros [= <- <-]. split; [done|]. unfold healthy, set_pack_file, pack_file.
    by rewrite (rep_attached _ _ Hr). }
  apply (on_file_write_represents _ _ _ _ _ _ Hr Hlow Hoff) in Hw as (Hr1 & _ & _ & Hsz1 & _ & Hok).
  specialize (Hok eq_refl). cbn [map_err]. rewrite as_u32_small, add_u64_small by lia.
  apply IH; [done|done|lia| |lia]. rewrite Hok, lenN_patch_app by done. lia.
Qed.

Lemma append_chunks_batch_healthy s m chunks :
  represents s m → healthy s → gs_size s + sizes chunks < 2^32 →
  ∃ s' out, append_chunks_batch chunks s = (s', Ok out) ∧ healthy s'.
Proof.
  intros Hr Hs Hb. unfold append_chunks_batch. rewrite (M_bind_ok get _ s s s) by done.
  destruct (read_txn_healthy "打开索引表失败" TABLE (λ snap, batch_scan s snap batch0 0 chunks)
    (gs_db s)) as (snap & He & Hsnap & Hread); [apply Hs|apply Hr|].
  destruct (batch_scan_healthy s snap batch0 0 chunks Hsnap) as [b Hscan].
  rewrite (M_bind_ok (lift _) _ s s b) by (unfold lift; by rewrite Hread, Hscan).
  apply (batch_scan_ok s m snap [] batch0 chunks b Hr He (scan_inv_0 _ _)) in Hscan as Hi.
  pose proof (si_sizes _ _ _ _ Hi) as Hsz.
  destruct (batch_write_healthy (b_new_data b) (b_new_pos b) (b_out b) (gs_size s) s m Hr Hs)
    as (s1 & x & Hw & Hs1); [lia|apply Hr|cbn [app] in Hsz; lia|].
  rewrite (M_bind_ok _ _ _ _ _ Hw). cbv zeta.
  rewrite (M_bind_ok (modify _) _ s1 (set_size x.2 s1) ()) by done.
  assert (∃ s2, (if bool_decide (b_new_data b = []) then mret () else
    write_index (gs_game_id s) (zip (b_new_data b).*1
      (out_at (resolve_dups x.1 (b_dup_of_new b)) <$> b_new_pos b))) (set_size x.2 s1) = (s2, Ok ()) ∧
    healthy s2) as (s2 & Hi2 & Hs2).
  { case_bool_decide; [by eexists|]. by apply write_index_healthy. }
  rewrite (M_bind_ok _ _ _ _ _ Hi2). by eexists _, _.
Qed.

End live.
