(* ===== verification/StorageCompact.v ===== *)
(** * StorageCompact: compaction keeps exactly the live chunks

    [compact] rewrites the pack file with the live chunks in hash order and
    replaces the index.  The theorem covers every outcome; the failures after
    the rename are the ones that can leave the index and the file apart. *)

From Stdlib Require Import SpecFloat.
From S2P Require Import Prelude Bytes FileIO Redb Storage StorageSpec StorageBatch.

(** ** Sums *)

Fixpoint sum_N (l : list N) : N := match l with [] => 0 | x :: l => x + sum_N l end.

Lemma sum_u64_small l : sum_N l < 2^64 → sum_u64 l = sum_N l.
Proof.
  unfold sum_u64. assert (∀ acc, acc + sum_N l < 2^64 → foldl add_u64 acc l = acc + sum_N l)
    as Hg; [|intros; by rewrite Hg].
  induction l as [|x l IH]; intros acc Hb; cbn in *; [lia|].
  rewrite add_u64_small, IH by lia. lia.
Qed.

Lemma sum_N_perm l k : l ≡ₚ k → sum_N l = sum_N k.
Proof. induction 1; cbn; lia. Qed.

(** ** Restriction to the live chunks *)

Definition keep (live : list hash32) (m : gmap hash32 (list byte)) : gmap hash32 (list byte) :=
  filter (λ kv : hash32 * list byte, kv.1 ∈ live) m.

Lemma total_keep live m : total (keep live m) ≤ total m.
Proof.
  unfold keep. induction m as [|h d m Hm IH] using map_ind; [done|].
  rewrite total_insert by done. destruct (decide (h ∈ live)) as [Hl|Hl].
  - rewrite map_filter_insert_True by done. rewrite total_insert; [lia|].
    apply map_lookup_filter_None. by left.
  - rewrite map_filter_insert_False by done. rewrite delete_id by done. lia.
Qed.

Lemma insert_all_lookup m nd h d :
  NoDup nd.*1 → insert_all m nd !! h = Some d ↔
  (h, d) ∈ nd ∨ (h ∉ nd.*1 ∧ m !! h = Some d).
Proof.
  revert m. induction nd as [|[h' d'] nd IH]; intros m Hnd.
  { cbn. split; [intros ?; right; split; [apply not_elem_of_nil|done]|].
    by intros [?%elem_of_nil|[_ ?]]. }
  cbn in Hnd. apply NoDup_cons in Hnd as [Hn Hnd].
  change (insert_all m ((h', d') :: nd)) with (insert_all (<[h' := d']> m) nd).
  rewrite IH by done. cbn. rewrite elem_of_cons, not_elem_of_cons. split.
  - intros [?|[Hh [[-> ->]|[Hne Hm]]%lookup_insert_Some]]; [by auto..|].
    right. split_and!; [done..|]. done.
  - intros [[[= -> ->]|Hin]|[[Hne Hh] Hm]]; [|by auto|].
    + right. split; [done|]. by rewrite lookup_insert_eq.
    + right. split; [done|]. by rewrite lookup_insert_ne.
Qed.

(** ** The live scan *)

Section compact.
Context {D F : Type} `{RedbLaws D, FileLaws F, !CompioOps F, !CompioLaws F, !OpenOps D F}.
Implicit Types (s : GameStore D F) (m : gmap hash32 (list byte)).

Definition live_locs s (live : list hash32) : list (hash32 * (N * N)) :=
  omap (λ h, (λ l, (h, l)) <$> location s h) live.

Lemma read_entries_ok s m kvs :
  represents s m → read_entries s = Ok kvs →
  filter (λ kv : string * N, String.prefix (hex16 (gs_game_id s)) kv.1) kvs = kvs ∧
  kvs ≡ₚ map_to_list (contents (gs_db s) TABLE).
Proof.
  intros Hr Hk. unfold read_entries in Hk. apply read_txn_Ok_inv in Hk as (snap & He & Hk).
  apply (iter_all_ok _ _ TABLE snap) in Hk as [Hp _]. rewrite (proj1 (He TABLE)) in Hp.
  split; [|done]. assert (Forall (λ kv : string * N, String.prefix (hex16 (gs_game_id s)) kv.1) kvs)
    as Hall.
  { rewrite Hp. apply Forall_forall. intros [k v] Hin%elem_of_map_to_list.
    apply (ix_keys _ _ _ _ _ (rep_index _ _ Hr)) in Hin as [h ->]. cbn.
    by rewrite key_prefix. }
  clear Hp. induction Hall as [|kv kvs Hkv Hall IH]; [done|].
  rewrite filter_cons_True by done. by rewrite IH.
Qed.

Lemma find_live_ok s m kvs live :
  represents s m → kvs ≡ₚ map_to_list (contents (gs_db s) TABLE) →
  find_live (gs_game_id s) kvs live = live_locs s live.
Proof.
  intros Hr Hp. induction live as [|h live IH]; [done|]. cbn [find_live]. rewrite IH.
  change (live_locs s (h :: live)) with (match (λ l, (h, l)) <$> location s h with
    | Some y => y :: live_locs s live | None => live_locs s live end).
  destruct (find _ kvs) as [[k v]|] eqn:Hf.
  - apply find_some in Hf as [Hin Heq]. cbn in Heq. apply String.eqb_eq in Heq as ->.
    apply list_elem_of_In in Hin. rewrite Hp in Hin. apply elem_of_map_to_list in Hin.
    assert (location s h = Some (unpack v)) as -> by exact (f_equal (fmap unpack) Hin). done.
  - destruct (location s h) as [l|] eqn:Hl; [|done].
    apply fmap_Some in Hl as (v & Hv & _).
    apply elem_of_map_to_list in Hv. rewrite <- Hp in Hv.
    apply list_elem_of_In in Hv. eapply find_none in Hf; [|exact Hv].
    cbn in Hf. by rewrite String.eqb_refl in Hf.
Qed.

Lemma live_locs_elem s live h l :
  (h, l) ∈ live_locs s live ↔ h ∈ live ∧ location s h = Some l.
Proof.
  unfold live_locs. rewrite list_elem_of_omap. split.
  - intros (h' & Hin & Hl). destruct (location s h') eqn:He; [|done]. by simplify_eq/=.
  - intros [Hin Hl]. exists h. by rewrite Hl.
Qed.

Lemma live_locs_nodup s live : NoDup live → NoDup (live_locs s live).*1.
Proof.
  induction 1 as [|h live Hn Hnd IH]; [constructor|]. cbn.
  destruct (location s h) as [l|] eqn:Hl; cbn; [|done].
  constructor; [|done]. intros ([h' l'] & Heq & Hin)%list_elem_of_fmap. cbn in Heq. subst h'.
  by apply live_locs_elem in Hin as [Hin _].
Qed.

(** The chunks behind a list of locations. *)
Definition chunks_at (data : list byte) (locs : list (hash32 * (N * N))) :
    list (hash32 * list byte) :=
  (λ e, (e.1, span e.2.1 e.2.2 data)) <$> locs.

Lemma chunks_at_keep s m live locs :
  represents s m → NoDup live → locs ≡ₚ live_locs s live →
  let nd := chunks_at (f_data (pack_file s)) locs in
  NoDup nd.*1 ∧ insert_all ∅ nd = keep live m.
Proof.
  intros Hr Hnd Hp nd. assert (nd.*1 = locs.*1) as Hfst.
  { unfold nd, chunks_at. rewrite <- list_fmap_compose. done. }
  assert (NoDup nd.*1) as Hnd'.
  { rewrite Hfst, Hp. by apply live_locs_nodup. }
  split; [done|]. apply map_eq. intros h. apply option_eq. intros d.
  rewrite insert_all_lookup by done. unfold keep. rewrite map_lookup_filter_Some. cbn.
  unfold nd, chunks_at. rewrite list_elem_of_fmap. setoid_rewrite Hp. split.
  - intros [([h' l] & Heq & Hin)|[_ Hx]]; [|by rewrite lookup_empty in Hx].
    cbn in Heq. simplify_eq. apply live_locs_elem in Hin as [Hin Hl].
    split; [|done]. rewrite <- (rep_map _ _ h' Hr). by rewrite Hl.
  - intros [Hm Hin]. rewrite <- (rep_map _ _ h Hr) in Hm.
    destruct (location s h) as [l|] eqn:Hl; [|done]. cbn in Hm. simplify_eq.
    left. exists (h, l). split; [done|]. by apply live_locs_elem.
Qed.

(** ** The rewritten file and the new index *)

Lemma spans_chunks_at data locs : spans locs.*2 data = mjoin (chunks_at data locs).*2.
Proof.
  unfold spans, chunks_at. f_equal. rewrite <- !list_fmap_compose. done.
Qed.

Lemma chunks_at_sizes data locs :
  Forall (λ r : N * N, lenN (span r.1 r.2 data) = r.2) locs.*2 →
  sizes (chunks_at data locs) = sum_N (locs.*2).*2 ∧
  lenN (spans locs.*2 data) = sum_N (locs.*2).*2.
Proof.
  unfold spans. induction locs as [|[h [o l]] locs IH]; cbn; [done|].
  intros [Hl Hall]%Forall_cons. cbn in Hl. destruct (IH Hall) as [IH1 IH2].
  rewrite Hl, lenN_app, Hl. unfold chunks_at in IH1. split; [by rewrite IH1|].
  f_equal. exact IH2.
Qed.

(** In the concatenation every chunk is where [layout] puts it. *)
Lemma layout_spans pre nd :
  Forall2 (λ c l, span l.1 l.2 (pre ++ mjoin nd.*2) = c.2) nd (layout (lenN pre) nd).
Proof.
  revert pre. induction nd as [|[h d] nd IH]; intros pre; cbn; [constructor|].
  constructor.
  - cbn. rewrite <- (N.add_0_r (lenN pre)), span_app_r, span_app_l by lia. apply span_all.
  - specialize (IH (pre ++ d)). rewrite lenN_app, <- app_assoc in IH. exact IH.
Qed.

Lemma new_locations_layout data locs off :
  Forall (λ r : N * N, lenN (span r.1 r.2 data) = r.2) locs.*2 →
  off + sum_N (locs.*2).*2 < 2^64 →
  new_locations off locs =
    (zip (chunks_at data locs).*1 (layout off (chunks_at data locs)),
     off + sum_N (locs.*2).*2).
Proof.
  revert off. induction locs as [|[h [o l]] locs IH]; intros off; cbn.
  { intros _ _. by rewrite N.add_0_r. }
  intros [Hl Hall]%Forall_cons Hb. cbn in Hl. rewrite add_u64_small by lia.
  rewrite IH by (done || lia). cbn. rewrite Hl. f_equal. lia.
Qed.

Lemma remove_entries_ok (es : list (string * N)) (w w' : D) :
  remove_entries es w = Ok w' →
  contents w' TABLE = foldl (λ (t : gmap string N) e, delete e.1 t) (contents w TABLE) es ∧
  (has_table w TABLE → has_table w' TABLE).
Proof.
  unfold remove_entries. revert w. induction es as [|e es IH]; intros w.
  { by intros [= <-]. }
  cbn. intros Hb. apply bind_Ok_inv in Hb as ([w1 v] & Hi & Hb).
  apply with_context_Ok_inv, (remove_ok w TABLE) in Hi as (_ & Hc & _ & Ht).
  apply IH in Hb as [Hb Ht']. cbn in Hb, Ht'. rewrite Hb, Hc. split; [done|].
  intros. apply Ht'. by apply Ht.
Qed.

(** Deleting every entry of a table empties it. *)
Lemma delete_all (t : gmap string N) es :
  es ≡ₚ map_to_list t → foldl (λ (t : gmap string N) e, delete e.1 t) t es = ∅.
Proof.
  intros Hp. apply map_empty. intros k.
  assert (∀ t' : gmap string N, (t' !! k = None ∨ k ∈ es.*1) →
    foldl (λ (t : gmap string N) e, delete e.1 t) t' es !! k = None) as Hg.
  { clear Hp. induction es as [|e es IH]; cbn; intros t' [Hk|Hk]; auto.
    - by apply not_elem_of_nil in Hk.
    - apply IH. left. apply lookup_delete_None. by right.
    - apply elem_of_cons in Hk as [->|Hk]; apply IH; [|by right].
      left. apply lookup_delete_eq. }
  apply Hg. destruct (t !! k) as [v|] eqn:Hk; [right|by left].
  rewrite Hp. apply list_elem_of_fmap. exists (k, v). split; [done|].
  by apply elem_of_map_to_list.
Qed.

(** The transaction of the rewrite: the index is exactly the new entries. *)
Lemma reindex_ok s s' game_id es news r :
  es ≡ₚ map_to_list (contents (gs_db s) TABLE) →
  reindex game_id es news s = (s', r) →
  gs_game_id s' = gs_game_id s ∧ gs_path s' = gs_path s ∧
  gs_detached s' = gs_detached s ∧ gs_size s' = gs_size s ∧
  match r with
  | Ok _ => contents (gs_db s') TABLE = publish game_id ∅ news ∧ has_table (gs_db s') TABLE
  | Err _ => gs_db s' = gs_db s
  end.
Proof.
  unfold reindex, on_db, zoom. intros Hp Hw.
  destruct (write_txn _ _ _ _ _ (gs_db s)) as [d r'] eqn:Ht.
  injection Hw as <- <-. cbn. split_and!; try done. destruct r' as [[]|e]; last first.
  { by apply write_txn_Err_inv in Ht. }
  apply write_txn_Ok_inv in Ht as (w & Hc & Hh & [(w' & Hb & He)|[Hb _]]).
  - apply bind_Ok_inv in Hb as (w1 & Hrm & Hb). apply bind_Ok_inv in Hb as (w2 & Hi & Hb).
    injection Hb as ->. apply remove_entries_ok in Hrm as [Hrm Ht1].
    apply insert_entries_ok in Hi as [Hi Ht2]. destruct (He TABLE) as [-> Hex].
    rewrite Hi, Hrm, Hc, delete_all by done. split; [done|].
    apply Hex, Ht2, Ht1, Hh. by left.
  - apply bind_Ok_inv in Hb as (w1 & _ & Hb). apply bind_Ok_inv in Hb as (w2 & _ & Hb). done.
Qed.

Lemma live_spans s m live locs :
  represents s m → locs ≡ₚ live_locs s live →
  Forall (λ r : N * N, lenN (span r.1 r.2 (f_data (pack_file s))) = r.2) locs.*2.
Proof.
  intros Hr Hp. apply Forall_forall. intros l Hl.
  apply list_elem_of_fmap in Hl as ([h l'] & -> & Hin). cbn. rewrite Hp in Hin.
  apply live_locs_elem in Hin as [_ Hloc]. pose proof (rep_bound _ _ _ _ Hr Hloc).
  pose proof (rep_size _ _ Hr). apply lenN_span. lia.
Qed.

(** What the scan of the live set computes: the total size of what is kept. *)
Lemma live_total s m live locs :
  represents s m → NoDup live → locs ≡ₚ live_locs s live →
  sum_N (locs.*2).*2 = total (keep live m).
Proof.
  intros Hr Hnd Hp. destruct (chunks_at_keep s m live locs Hr Hnd Hp) as [Hnd' Hk].
  rewrite <- Hk, total_insert_all, total_empty; [|done|by intros; apply lookup_empty].
  symmetry. rewrite N.add_0_l. apply chunks_at_sizes. by eapply live_spans.
Qed.

(** A store whose file is the concatenation of the kept chunks. *)
Lemma compacted_index s m live locs data :
  represents s m → NoDup live → locs ≡ₚ live_locs s live → gs_size s < 2^32 →
  data = spans locs.*2 (f_data (pack_file s)) →
  index_ok (gs_game_id s) (publish (gs_game_id s) ∅ (new_locations 0 locs).1) data
    (new_locations 0 locs).2 (keep live m) ∧
  (new_locations 0 locs).2 = total (keep live m) ∧ lenN data = total (keep live m).
Proof.
  intros Hr Hnd Hp Hb ->. pose proof (live_spans _ _ _ _ Hr Hp) as Hspan.
  pose proof (live_total _ _ _ _ Hr Hnd Hp) as Htot.
  destruct (chunks_at_sizes _ _ Hspan) as [Hsz Hlen].
  destruct (chunks_at_keep s m live locs Hr Hnd Hp) as [Hnd' Hk].
  pose proof (total_keep live m). pose proof (ix_total _ _ _ _ _ (rep_index _ _ Hr)).
  rewrite (new_locations_layout (f_data (pack_file s))) by (done || lia). cbn [fst snd].
  rewrite N.add_0_l, Htot. split_and!; [|done|congruence]. rewrite <- Hk.
  apply index_ok_publish; try done.
  - apply Hr.
  - split; [rewrite total_empty; lia|done| |].
    + intros h l. unfold loc_in. by rewrite lookup_empty.
    + intros h. unfold loc_in. by rewrite !lookup_empty.
  - rewrite Hk, total_empty. lia.
  - rewrite Hk. lia.
  - lia.
  - rewrite spans_chunks_at. apply (layout_spans []).
Qed.

(** What a failure after the rename leaves: the old index, and the rewritten
    file at the path (the handle still reads the old one until it is reopened). *)
Definition half_compacted s (live : list hash32) m s' : Prop :=
  gs_db s' = gs_db s ∧ lenN (f_data (gs_path s')) = total (keep live m) ∧
  (gs_detached s' = Some (pack_file s) ∨
   gs_detached s' = None ∧ gs_size s' = total (keep live m)).

(** C22: A compaction that reports success leaves exactly the live chunks, every
    one with its bytes, in a file of exactly their total size; one that declines
    changes nothing; one that fails before the rename changes nothing; and the
    only other failure leaves the rewritten file in place with the old index. *)
Theorem compact_spec s m live threshold available s' r :
  represents s m → NoDup live → gs_size s < 2^32 →
  compact live threshold available s = (s', r) →
  match r with
  | Ok true => represents s' (keep live m) ∧ size s' = total (keep live m)
  | Ok false => s' = s
  | Err _ => s' = s ∨ half_compacted s live m s'
  end.
Proof.
  intros Hr Hnd Hb Hc. unfold compact in Hc.
  rewrite (M_bind_ok get _ s s s) in Hc by done.
  m_step Hc as s0 kvs e Hk; unfold lift in Hk; injection Hk as <- Hk; [|by left].
  destruct (read_entries_ok s m kvs Hr Hk) as [Hfilter Hperm]. rewrite Hfilter in Hc.
  rewrite (find_live_ok s m kvs live Hr Hperm) in Hc. cbv zeta in Hc.
  destruct (gs_size s =? 0); [by injection Hc as <- <-|].
  destruct (SFltb _ _); [by injection Hc as <- <-|].
  destruct (available <? _); [by injection Hc as <- <-|].
  assert (sort_locations (live_locs s live) ≡ₚ live_locs s live) as Hp.
  { apply merge_sort_Permutation. }
  set (locs := sort_locations (live_locs s live)) in Hc, Hp.
  destruct (new_locations 0 locs) as [news off] eqn:Hnews.
  m_step Hc as s0 [f copied] e Hcp; unfold lift in Hcp; injection Hcp as <- Hcp; [|by left].
  apply with_context_Ok_inv, copy_ranges_ok in Hcp as (Hf & Hcopied & _).
  change (gs_path s) with (default (gs_path s) None) in Hf.
  rewrite <- (rep_attached _ _ Hr) in Hf. fold (pack_file s) in Hf.
  destruct (compacted_index s m live locs (f_data f) Hr Hnd Hp Hb Hf) as (Hix & Hoff & Hlen).
  rewrite Hnews in Hix, Hoff. cbn [fst snd] in Hix, Hoff.
  m_step Hc as s0 u e Hen; unfold lift in Hen; injection Hen as <- Hen; [|by left].
  m_step Hc as s0 u' e Hren; unfold lift in Hren; injection Hren as <- Hren; [|by left].
  rewrite (M_bind_ok (modify _) _ s (rename_pack f s) ()) in Hc by done.
  m_step Hc as s0 u'' e Hre; unfold lift in Hre; injection Hre as <- Hre;
    [|right; by split_and!; [..|by left]].
  rewrite (M_bind_ok (modify reopen_pack) _ (rename_pack f s) (reopen_pack (rename_pack f s)) ())
    in Hc by done.
  rewrite (M_bind_ok (modify (set_size off)) _ _ (set_size off (reopen_pack (rename_pack f s))) ())
    in Hc by done.
  m_step Hc as s3 v e Hx; apply reindex_ok in Hx as (Hid & Hpath & Hdet & Hsz & Hres); try done;
    cbn in Hid, Hpath, Hdet, Hsz.
  - injection Hc as <- <-. destruct Hres as [Hcont Ht].
    assert (pack_file s3 = f) as Hpf by (unfold pack_file; by rewrite Hdet, Hpath).
    unfold size. rewrite Hsz. split; [|done].
    split; [rewrite Hid; apply Hr|done|done|rewrite Hsz, Hpf; lia|].
    by rewrite Hid, Hcont, Hsz, Hpf.
  - right. split_and!; [done|by rewrite Hpath|]. right. split; [done|]. by rewrite Hsz.
Qed.

End compact.

Lemma compact_spec_witness :
  ∃ s1 s2, append_chunks_batch wit_batch mem_store = (s1, Ok [(0, 2); (2, 4); (0, 2)]) ∧
    compact [hash_rep x02] (f64_of 0) 100 s1 = (s2, Ok true) ∧
    represents s2 (keep [hash_rep x02] (add_chunks ∅ wit_batch)).
Proof.
  destruct (append_chunks_batch wit_batch mem_store) as [s1 r] eqn:Ha.
  assert (r = Ok [(0, 2); (2, 4); (0, 2)]) as ->.
  { change r with (s1, r).2. rewrite <- Ha. vm_compute. reflexivity. }
  assert (represents s1 (add_chunks ∅ wit_batch)) as Hr.
  { apply (append_chunks_batch_refines mem_store ∅ wit_batch s1 (Ok [(0, 2); (2, 4); (0, 2)]));
      [exact mem_store_empty|vm_compute; reflexivity|exact Ha]. }
  assert (s1 = (append_chunks_batch wit_batch mem_store).1) as Hs1 by (rewrite Ha; reflexivity).
  destruct (compact [hash_rep x02] (f64_of 0) 100 s1) as [s2 r] eqn:Hc.
  assert (r = Ok true) as ->.
  { change r with (s2, r).2. rewrite <- Hc, Hs1. vm_compute. reflexivity. }
  exists s1, s2. split; [exact eq_refl|]. split; [exact Hc|].
  apply (compact_spec s1 _ [hash_rep x02] (f64_of 0) 100 s2 (Ok true) Hr);
    [apply NoDup_singleton|rewrite Hs1; vm_compute; reflexivity|exact Hc].
Defined.
