(* ===== verification/SchedDb.v ===== *)
(** * SchedDb: the scheduler's database (crates/scheduler/src/db.rs)

    Records, tables and every operation of [Store], in the order of the source.
    The store is its database: an operation that writes is a state computation
    on it, an operation that reads a function of it.  The theorems are in
    SchedDbSpec.v. *)

From S2P Require Import Prelude Bytes Text Redb.

(** ** Tables *)

Definition NODES := mkTable "nodes" U64 Str.
Definition TASKS := mkTable "tasks" U64 Str.
Definition COUNTERS := mkTable "counters" Str U64.
Definition CHUNKS := mkTable "chunks" Str Str.
Definition HEAT := mkTable "heat" Str U64.
Definition USERS := mkTable "users" U64 Str.
Definition PLACES := mkTable "places" U64 Str.
Definition GROUPS := mkTable "groups" U64 Str.
Definition BINDINGS := mkTable "bindings" Str U64.
Definition GAMES := mkTable "games" U64 Str.
Definition VERSIONS := mkTable "versions" Str Str.
Definition AUDITS := mkTable "audits" U64 Str.

Definition NEXT_NODE_ID : string := "next_node_id".
Definition NEXT_TASK_ID : string := "next_task_id".
Definition NEXT_USER_ID : string := "next_user_id".
Definition NEXT_PLACE_ID : string := "next_place_id".
Definition NEXT_GROUP_ID : string := "next_group_id".
Definition NEXT_GAME_ID : string := "next_game_id".
Definition NEXT_AUDIT_ID : string := "next_audit_id".

Definition BIND_UP : string := "user_place".
Definition BIND_UG : string := "user_group".
Definition BIND_GP : string := "group_place".

(** ** Records *)

Record AddrRecord := mkAddr { ad_addr : string; ad_kind : string; ad_link : string }.

Record NodeRecord := mkNode {
  nd_id : N;
  nd_node_type : string;
  nd_endpoint_id : string;
  nd_token : string;
  nd_addrs : list AddrRecord;
  nd_status : string;
  nd_last_heartbeat_ms : N
}.

Record TaskRecord := mkTask {
  tk_id : N;
  tk_node_id : N;
  tk_game_id : N;
  tk_version : N;
  tk_kind : string;
  tk_assigned_chunks : list (list byte);
  tk_status : string;
  tk_error : string
}.

Record UserRecord := mkUser {
  us_id : N;
  us_username : string;
  us_password_hash : string;
  us_salt : string
}.

Record PlaceRecord := mkPlace { pl_id : N; pl_name : string; pl_region : string }.

Record GroupRecord := mkGroup { gr_id : N; gr_name : string }.

Record GameRecord := mkGame {
  gm_id : N;
  gm_name : string;
  gm_status : string;
  gm_current_version : N;
  gm_latest_version : N
}.

Record AuditRecord := mkAudit {
  au_id : N;
  au_time_ms : N;
  au_actor : string;
  au_action : string;
  au_detail : string
}.

(** The JSON codecs that serde derives for the records. *)
Class SchedJson := {
  json_node :: JsonOps NodeRecord;
  json_task :: JsonOps TaskRecord;
  json_user :: JsonOps UserRecord;
  json_place :: JsonOps PlaceRecord;
  json_group :: JsonOps GroupRecord;
  json_game :: JsonOps GameRecord;
  json_audit :: JsonOps AuditRecord;
  json_ids :: JsonOps (list N);
  json_bytes :: JsonOps (list byte)
}.

Class SchedJsonLaws `{!SchedJson} : Prop := {
  json_node_laws :: JsonLaws NodeRecord;
  json_task_laws :: JsonLaws TaskRecord;
  json_user_laws :: JsonLaws UserRecord;
  json_place_laws :: JsonLaws PlaceRecord;
  json_group_laws :: JsonLaws GroupRecord;
  json_game_laws :: JsonLaws GameRecord;
  json_audit_laws :: JsonLaws AuditRecord;
  json_ids_laws :: JsonLaws (list N);
  json_bytes_laws :: JsonLaws (list byte)
}.

(** [blake3::hash(..).to_string()] is the digest in hexadecimal. *)
Definition hash_password (blake3 : list byte → hash32) (password salt : string) : string :=
  hex (hash_bytes (blake3 (str_bytes (salt ++ ":" ++ password)%string))).

Definition chunk_key (game_id : N) (hash : list byte) : string :=
  (hex16 game_id ++ hex hash)%string.

Definition TABLES : list (TableDefinition * string) :=
  [(NODES, "创建 nodes 表失败"%string); (TASKS, "创建 tasks 表失败"%string);
   (COUNTERS, "创建 counters 表失败"%string); (CHUNKS, "创建 chunks 表失败"%string);
   (HEAT, "创建 heat 表失败"%string); (USERS, "创建 users 表失败"%string);
   (PLACES, "创建 places 表失败"%string); (GROUPS, "创建 groups 表失败"%string);
   (BINDINGS, "创建 bindings 表失败"%string); (GAMES, "创建 games 表失败"%string);
   (VERSIONS, "创建 versions 表失败"%string); (AUDITS, "创建 audits 表失败"%string)].

(** What [json!] collects for a backup. *)
Record Snapshot := mkSnapshot {
  sn_nodes : list NodeRecord;
  sn_tasks : list TaskRecord;
  sn_users : list UserRecord;
  sn_places : list PlaceRecord;
  sn_groups : list GroupRecord;
  sn_bindings : list (string * N);
  sn_games : list GameRecord;
  sn_versions : list (string * string);
  sn_chunks : list (string * string);
  sn_heat : list (string * N);
  sn_counters : list (string * N);
  sn_audits : list AuditRecord
}.

Section store.
Context {D : Type} `{!RedbOps D, !SchedJson}.

Definition ensure_tables (db : D) : result error D :=
  w ← with_context "开始建表事务失败" (begin_write db);
  w ← foldl (λ acc t, w ← acc; with_context t.2 (open_write w t.1)) (Ok w) TABLES;
  with_context "提交建表事务失败" (commit w).

(** [Store::open] on a database that [Database::create] opened or created. *)
Definition open (dir_created : result error ()) (created : result error D) : result error D :=
  with_context "创建数据目录失败" dir_created;;
  db ← with_context "创建数据库失败" created;
  ensure_tables db.

Definition next_id (counter : string) : M D error N :=
  write_txn "开始写事务失败" "打开计数表失败" "提交计数事务失败" COUNTERS (λ w,
    v ← with_context "读取计数失败" (tbl_get w COUNTERS counter);
    let next := match v with Some v => add_u64 v 1 | None => 1 end in
    w ← with_context "写入计数失败" (tbl_insert w COUNTERS counter next);
    mret (Commit w next)).

Definition next_node_id : M D error N := next_id NEXT_NODE_ID.
Definition next_task_id : M D error N := next_id NEXT_TASK_ID.
Definition next_user_id : M D error N := next_id NEXT_USER_ID.
Definition next_place_id : M D error N := next_id NEXT_PLACE_ID.
Definition next_group_id : M D error N := next_id NEXT_GROUP_ID.
Definition next_game_id : M D error N := next_id NEXT_GAME_ID.

(** The write transaction of one insertion, shared by the [insert] operations. *)
Definition insert_one (open_msg msg commit_msg : string) (t : TableDefinition)
    (k : Key t) (v : Val t) : M D error () :=
  write_txn "开始写事务失败" open_msg commit_msg t (λ w,
    w ← with_context msg (tbl_insert w t k v);
    mret (Commit w ())).

(** One lookup in a read transaction. *)
Definition get_one (open_msg msg : string) (t : TableDefinition) (k : Key t) (db : D) :
    result error (option (Val t)) :=
  read_txn open_msg t (λ snap, with_context msg (tbl_get snap t k)) db.

(** ** Nodes *)

Definition insert_node (node : NodeRecord) : M D error () :=
  value ← lift (encode node);
  insert_one "打开 nodes 表失败" "写入节点失败" "提交节点事务失败" NODES (nd_id node) value.

Definition get_node (db : D) (id : N) : result error (option NodeRecord) :=
  v ← get_one "打开 nodes 表失败" "查询节点失败" NODES id db;
  match v with
  | None => mret None
  | Some text => node ← decode text; mret (Some node)
  end.

Definition list_nodes (db : D) : result error (list NodeRecord) :=
  read_txn "打开 nodes 表失败" NODES
    (iter_map "遍历节点失败" "读取节点项失败" NODES (λ kv, decode kv.2)) db.

(** ** Tasks *)

Definition insert_task (task : TaskRecord) : M D error () :=
  value ← lift (encode task);
  insert_one "打开 tasks 表失败" "写入任务失败" "提交任务事务失败" TASKS (tk_id task) value.

Definition set_status (status err : string) (t : TaskRecord) : TaskRecord :=
  mkTask (tk_id t) (tk_node_id t) (tk_game_id t) (tk_version t) (tk_kind t)
    (tk_assigned_chunks t) status err.

Definition update_task_status (id : N) (status err : string) : M D error bool :=
  write_txn "开始写事务失败" "打开 tasks 表失败" "提交任务事务失败" TASKS (λ w,
    v ← with_context "查询任务失败" (tbl_get w TASKS id);
    match v with
    | None => mret (Rollback false)
    | Some text =>
      task ← decode text;
      value ← encode (set_status status err task);
      w ← with_context "更新任务失败" (tbl_insert w TASKS id value);
      mret (Commit w true)
    end).

Definition list_tasks (db : D) : result error (list TaskRecord) :=
  read_txn "打开 tasks 表失败" TASKS
    (iter_map "遍历任务失败" "读取任务项失败" TASKS (λ kv, decode kv.2)) db.

(** The same loop, keeping the tasks of one node. *)
Definition tasks_for_node (db : D) (node_id : N) : result error (list TaskRecord) :=
  tasks ← list_tasks db;
  mret (filter (λ t, tk_node_id t = node_id) tasks).

(** [now_ms.saturating_sub(last) > timeout_ms]: subtraction on [N] saturates. *)
Definition is_offline (now_ms timeout_ms : N) (n : NodeRecord) : bool :=
  timeout_ms <? now_ms - nd_last_heartbeat_ms n.

Definition offline_nodes (db : D) (now_ms timeout_ms : N) : result error (list N) :=
  nodes ← list_nodes db;
  mret (map nd_id (filter (λ n, is_offline now_ms timeout_ms n = true) nodes)).

(** ** The chunk ledger *)

Definition record_chunk_holder (node_id game_id : N) (hash : list byte) : M D error () :=
  let key := chunk_key game_id hash in
  write_txn "开始写事务失败" "打开 chunks 表失败" "提交块账本事务失败" CHUNKS (λ w,
    v ← with_context "查询块账本失败" (tbl_get w CHUNKS key);
    let holders : list N :=
      match v with Some text => default [] (ok (from_str text)) | None => [] end in
    if bool_decide (node_id ∈ holders) then mret (Commit w ()) else
    value ← encode (holders ++ [node_id]);
    w ← with_context "写入块账本失败" (tbl_insert w CHUNKS key value);
    mret (Commit w ())).

Definition chunk_holders (db : D) (game_id : N) (hash : list byte) : result error (list N) :=
  v ← get_one "打开 chunks 表失败" "查询块账本失败" CHUNKS (chunk_key game_id hash) db;
  match v with
  | None => mret []
  | Some text => with_context "解析块账本失败" (from_str text)
  end.

(** ** Heat *)

Definition add_launch (game_id count : N) : M D error N :=
  let key := dec game_id in
  write_txn "开始写事务失败" "打开 heat 表失败" "提交热度事务失败" HEAT (λ w,
    v ← with_context "读取热度失败" (tbl_get w HEAT key);
    let next := match v with Some v => add_u64 v count | None => count end in
    w ← with_context "写入热度失败" (tbl_insert w HEAT key next);
    mret (Commit w next)).

Definition parse_game_id (key : string) : result error N :=
  ok_or ["解析游戏 ID 失败"%string; "invalid digit found in string"%string] (parse_u64 key).

(** [sort_by_key(|a| Reverse(a.1))]: stable, by decreasing heat. *)
Definition hotter (a b : N * N) : bool := b.2 <=? a.2.

Definition top_games (db : D) (limit : nat) : result error (list N) :=
  games ← read_txn "打开 heat 表失败" HEAT
    (iter_map "遍历热度失败" "读取热度项失败" HEAT
      (λ kv : string * N, game_id ← parse_game_id kv.1; mret (game_id, kv.2))) db;
  mret (map fst (take limit (sort_by hotter games))).

(** ** The generic JSON tables *)

Definition insert_json (table : TableDefinition) (id : Key table) (value : Val table) :
    M D error () :=
  insert_one "打开表失败" "写入记录失败" "提交事务失败" table id value.

Definition get_json (table : TableDefinition) (db : D) (id : Key table) :
    result error (option (Val table)) :=
  get_one "打开表失败" "查询记录失败" table id db.

Definition list_json (table : TableDefinition) (db : D) : result error (list (Val table)) :=
  kvs ← read_txn "打开表失败" table (iter_all "遍历记录失败" "读取记录失败" table) db;
  mret (map snd kvs).

Definition delete_json (table : TableDefinition) (id : Key table) : M D error bool :=
  write_txn "开始写事务失败" "打开表失败" "提交事务失败" table (λ w,
    r ← with_context "删除记录失败" (tbl_remove w table id);
    mret (Commit r.1 (bool_decide (is_Some r.2)))).

(** ** Audits: the clock is an argument *)

Definition add_audit (time_ms : N) (actor action detail : string) : M D error N :=
  id ← next_id NEXT_AUDIT_ID;
  value ← lift (encode (mkAudit id time_ms actor action detail));
  insert_json AUDITS id value;;
  mret id.

(** [self.list_json(T)?.iter().map(decode).collect()] and the get/insert pairs. *)
Definition list_records {A} `{!JsonOps A} (table : TableDefinition)
    (text_of : Val table → string) (db : D) : result error (list A) :=
  texts ← list_json table db;
  mapM (λ v, decode (text_of v)) texts.

Definition list_audits (db : D) : result error (list AuditRecord) := list_records AUDITS id db.

Definition insert_user (user : UserRecord) : M D error () :=
  value ← lift (encode user); insert_json USERS (us_id user) value.
Definition get_user (db : D) (id : N) : result error (option UserRecord) :=
  v ← get_json USERS db id;
  match v with None => mret None | Some text => r ← decode text; mret (Some r) end.
Definition list_users (db : D) : result error (list UserRecord) := list_records USERS id db.
Definition delete_user (id : N) : M D error bool := delete_json USERS id.

Definition insert_place (place : PlaceRecord) : M D error () :=
  value ← lift (encode place); insert_json PLACES (pl_id place) value.
Definition get_place (db : D) (id : N) : result error (option PlaceRecord) :=
  v ← get_json PLACES db id;
  match v with None => mret None | Some text => r ← decode text; mret (Some r) end.
Definition list_places (db : D) : result error (list PlaceRecord) := list_records PLACES id db.
Definition delete_place (id : N) : M D error bool := delete_json PLACES id.

Definition insert_group (group : GroupRecord) : M D error () :=
  value ← lift (encode group); insert_json GROUPS (gr_id group) value.
Definition get_group (db : D) (id : N) : result error (option GroupRecord) :=
  v ← get_json GROUPS db id;
  match v with None => mret None | Some text => r ← decode text; mret (Some r) end.
Definition list_groups (db : D) : result error (list GroupRecord) := list_records GROUPS id db.
Definition delete_group (id : N) : M D error bool := delete_json GROUPS id.

Definition insert_game (game : GameRecord) : M D error () :=
  value ← lift (encode game); insert_json GAMES (gm_id game) value.
Definition get_game (db : D) (id : N) : result error (option GameRecord) :=
  v ← get_json GAMES db id;
  match v with None => mret None | Some text => r ← decode text; mret (Some r) end.
Definition list_games (db : D) : result error (list GameRecord) := list_records GAMES id db.
Definition delete_game (id : N) : M D error bool := delete_json GAMES id.

(** ** Versions *)

Definition version_key (game_id version : N) : string :=
  (dec game_id ++ ":" ++ dec version)%string.

Definition save_version (game_id version : N) (manifest : list byte) : M D error () :=
  value ← lift (encode manifest);
  insert_one "打开 versions 表失败" "写入版本清单失败" "提交版本事务失败" VERSIONS
    (version_key game_id version) value.

Definition get_version (db : D) (game_id version : N) : result error (option (list byte)) :=
  v ← get_one "打开 versions 表失败" "查询版本清单失败" VERSIONS (version_key game_id version) db;
  match v with
  | None => mret None
  | Some text => m ← decode text; mret (Some m)
  end.

(** ** Full listings and the backup *)

Definition list_pairs (open_msg iter_msg item_msg : string) (t : TableDefinition) (db : D) :
    result error (list (Key t * Val t)) :=
  read_txn open_msg t (iter_all iter_msg item_msg t) db.

Definition list_versions (db : D) : result error (list (string * string)) :=
  list_pairs "打开 versions 表失败" "遍历版本失败" "读取版本项失败" VERSIONS db.
Definition list_bindings (db : D) : result error (list (string * N)) :=
  list_pairs "打开绑定表失败" "遍历绑定失败" "读取绑定项失败" BINDINGS db.
Definition list_chunks (db : D) : result error (list (string * string)) :=
  list_pairs "打开块账本表失败" "遍历块账本失败" "读取块账本项失败" CHUNKS db.
Definition list_heat (db : D) : result error (list (string * N)) :=
  list_pairs "打开热度表失败" "遍历热度失败" "读取热度项失败" HEAT db.
Definition list_counters (db : D) : result error (list (string * N)) :=
  list_pairs "打开计数器表失败" "遍历计数器失败" "读取计数器项失败" COUNTERS db.

Definition snapshot (db : D) : result error Snapshot :=
  nodes ← list_nodes db;
  tasks ← list_tasks db;
  users ← list_users db;
  places ← list_places db;
  groups ← list_groups db;
  bindings ← list_bindings db;
  games ← list_games db;
  versions ← list_versions db;
  chunks ← list_chunks db;
  heat ← list_heat db;
  counters ← list_counters db;
  audits ← list_audits db;
  mret (mkSnapshot nodes tasks users places groups bindings games versions chunks heat
    counters audits).

(** The path written and the bytes written there; [secs] is the clock. *)
Definition backup_to `{!JsonOps Snapshot} (dir_created : result error ())
    (write_file : string → string → result error ()) (dir : string) (secs : N) (db : D) :
    result error string :=
  with_context "创建备份目录失败" dir_created;;
  snap ← snapshot db;
  let path := (dir ++ "/scheduler-" ++ dec secs ++ ".json")%string in
  text ← to_string snap;
  with_context "写入备份失败" (write_file path text);;
  mret path.

(** ** Bindings *)

Definition bind_key (kind : string) (a b : N) : string :=
  (kind ++ "/" ++ dec a ++ "/" ++ dec b)%string.

Definition bind (kind : string) (a b : N) : M D error () :=
  insert_one "打开绑定表失败" "写入绑定失败" "提交绑定事务失败" BINDINGS (bind_key kind a b) 1.

Definition binding_id (prefix : string) (kv : string * N) : option N :=
  match strip_prefix prefix kv.1 with Some rest => parse_u64 rest | None => None end.

Definition binding_ids (db : D) (kind : string) (a : N) : result error (list N) :=
  let prefix := (kind ++ "/" ++ dec a ++ "/")%string in
  kvs ← read_txn "打开绑定表失败" BINDINGS (iter_all "遍历绑定失败" "读取绑定失败" BINDINGS) db;
  mret (omap (M:=list) (binding_id prefix) kvs).

(** A [HashSet] collected and sorted: the sorted list of the distinct ids. *)
Definition places_of_user (db : D) (user_id : N) : result error (list N) :=
  direct ← binding_ids db BIND_UP user_id;
  groups ← binding_ids db BIND_UG user_id;
  via ← mapM (λ group, binding_ids db BIND_GP group) groups;
  mret (merge_sort N.le (elements (list_to_set (direct ++ mjoin via) : gset N))).

End store.

(** ** A concrete JSON codec for the examples

    The records are countable, so the codec of Redb.v applies to them. *)

#[global] Instance AddrRecord_eq_dec : EqDecision AddrRecord.
Proof. solve_decision. Defined.
#[global] Instance AddrRecord_countable : Countable AddrRecord.
Proof.
  refine (inj_countable' (λ r, (ad_addr r, ad_kind r, ad_link r))
    (λ '(a0, k1, l2), mkAddr a0 k1 l2) _).
  by intros [].
Defined.

#[global] Instance NodeRecord_eq_dec : EqDecision NodeRecord.
Proof. solve_decision. Defined.
#[global] Instance NodeRecord_countable : Countable NodeRecord.
Proof.
  refine (inj_countable' (λ r, (nd_id r, nd_node_type r, nd_endpoint_id r, nd_token r, nd_addrs r, nd_status r, nd_last_heartbeat_ms r))
    (λ '(i0, n1, e2, t3, a4, s5, l6), mkNode i0 n1 e2 t3 a4 s5 l6) _).
  by intros [].
Defined.

#[global] Instance TaskRecord_eq_dec : EqDecision TaskRecord.
Proof. solve_decision. Defined.
#[global] Instance TaskRecord_countable : Countable TaskRecord.
Proof.
  refine (inj_countable' (λ r, (tk_id r, tk_node_id r, tk_game_id r, tk_version r, tk_kind r, tk_assigned_chunks r, tk_status r, tk_error r))
    (λ '(i0, n1, g2, v3, k4, a5, s6, e7), mkTask i0 n1 g2 v3 k4 a5 s6 e7) _).
  by intros [].
Defined.

#[global] Instance UserRecord_eq_dec : EqDecision UserRecord.
Proof. solve_decision. Defined.
#[global] Instance UserRecord_countable : Countable UserRecord.
Proof.
  refine (inj_countable' (λ r, (us_id r, us_username r, us_password_hash r, us_salt r))
    (λ '(i0, u1, p2, s3), mkUser i0 u1 p2 s3) _).
  by intros [].
Defined.

#[global] Instance PlaceRecord_eq_dec : EqDecision PlaceRecord.
Proof. solve_decision. Defined.
#[global] Instance PlaceRecord_countable : Countable PlaceRecord.
Proof.
  refine (inj_countable' (λ r, (pl_id r, pl_name r, pl_region r))
    (λ '(i0, n1, r2), mkPlace i0 n1 r2) _).
  by intros [].
Defined.

#[global] Instance GroupRecord_eq_dec : EqDecision GroupRecord.
Proof. solve_decision. Defined.
#[global] Instance GroupRecord_countable : Countable GroupRecord.
Proof.
  refine (inj_countable' (λ r, (gr_id r, gr_name r))
    (λ '(i0, n1), mkGroup i0 n1) _).
  by intros [].
Defined.

#[global] Instance GameRecord_eq_dec : EqDecision GameRecord.
Proof. solve_decision. Defined.
#[global] Instance GameRecord_countable : Countable GameRecord.
Proof.
  refine (inj_countable' (λ r, (gm_id r, gm_name r, gm_status r, gm_current_version r, gm_latest_version r))
    (λ '(i0, n1, s2, c3, l4), mkGame i0 n1 s2 c3 l4) _).
  by intros [].
Defined.

#[global] Instance AuditRecord_eq_dec : EqDecision AuditRecord.
Proof. solve_decision. Defined.
#[global] Instance AuditRecord_countable : Countable AuditRecord.
Proof.
  refine (inj_countable' (λ r, (au_id r, au_time_ms r, au_actor r, au_action r, au_detail r))
    (λ '(i0, t1, a2, a3, d4), mkAudit i0 t1 a2 a3 d4) _).
  by intros [].
Defined.

Definition sched_json : SchedJson := {|
  json_node := countable_json;
  json_task := countable_json;
  json_user := countable_json;
  json_place := countable_json;
  json_group := countable_json;
  json_game := countable_json;
  json_audit := countable_json;
  json_ids := countable_json;
  json_bytes := countable_json
|}.

Lemma sched_json_laws : @SchedJsonLaws sched_json.
Proof. split; apply countable_json_laws. Qed.

(** An empty scheduler database with its tables created. *)
Definition mem_sched : MemDb := mkMem (λ _, ∅) (map fst TABLES) false.
