(* ===== verification/SchedDbSpec.v ===== *)
(** * SchedDbSpec: what the scheduler's database guarantees

    Each write is one atomic change of one table; identifiers are never handed
    out twice, whatever operations run in between; records read back as
    written; the chunk ledger is a set per chunk; the places of a user are the
    sorted union of the direct and the group bindings. *)

From S2P Require Import Prelude Bytes Text Redb SchedDb.

Lemma chunk_key_app g1 h1 g2 h2 :
  (hex16 g1 ++ hex h1 = hex16 g2 ++ hex h2)%string → g1 < 2^64 → g2 < 2^64 →
  g1 = g2 ∧ h1 = h2.
Proof.
  unfold hex16. intros Hk Hg1 Hg2. rewrite <- !hex_app in Hk.
  apply hex_inj in Hk. apply app_inj_1 in Hk as [Hg Hh]; [|by rewrite !be_encode_length].
  split; [|done]. apply (f_equal be_decode) in Hg. by rewrite !be_decode_encode_small in Hg.
Qed.

(** Sorted without duplicates is strictly increasing. *)
Lemma sorted_lt_of_le (l : list N) : StronglySorted N.le l → NoDup l → StronglySorted N.lt l.
Proof.
  induction 1 as [|x l Hs IH Hall]; [constructor|]. intros [Hn Hnd]%NoDup_cons.
  constructor; [by apply IH|]. rewrite Forall_forall in Hall |- *. intros y Hy.
  specialize (Hall y Hy). assert (x ≠ y) by by intros ->. lia.
Qed.

Section store.
Context {D : Type} `{RedbLaws D, SchedJsonLaws}.

(** ** The shape of every write *)

(** A write changes table [t] to [m] and nothing else. *)
Definition writes (t : TableDefinition) (m : gmap (Key t) (Val t)) (d d' : D) : Prop :=
  contents d' t = m ∧ ∀ t', t' ≠ t → contents d' t' = contents d t'.

Lemma write_txn_commit {A} m1 m2 m3 t (body : D → result error (txn_end D A)) d d' a :
  write_txn m1 m2 m3 t body d = (d', Ok a) →
  ∃ w, (∀ t', contents w t' = contents d t') ∧
    ((∃ w', body w = Ok (Commit w' a) ∧ ∀ t', contents d' t' = contents w' t') ∨
     (body w = Ok (Rollback a) ∧ d' = d)).
Proof.
  intros Hw. apply write_txn_Ok_inv in Hw as (w & Hc & _ & Hb). exists w. split; [done|].
  destruct Hb as [(w' & Hb & He)|Hb]; [left|by right].
  exists w'. split; [done|]. intros t'. apply (He t').
Qed.

Lemma insert_one_ok m1 m2 m3 t k v d d' r :
  insert_one m1 m2 m3 t k v d = (d', r) →
  match r with
  | Ok _ => writes t (<[k := v]> (contents d t)) d d'
  | Err _ => d' = d
  end.
Proof.
  intros Hi. destruct r as [[]|e]; [|by eapply write_txn_Err_inv].
  apply write_txn_commit in Hi as (w & Hw & [(w' & Hb & Hc)|[Hb _]]).
  - apply bind_Ok_inv in Hb as (w1 & Hins%with_context_Ok_inv & Hb). injection Hb as ->.
    apply insert_ok in Hins as (Ht & Ho & _). split.
    + by rewrite Hc, Ht, Hw.
    + intros t' Hne. by rewrite Hc, Ho, Hw.
  - apply bind_Ok_inv in Hb as (w1 & _ & Hb). done.
Qed.

Lemma get_one_ok m1 m2 t k d v : get_one m1 m2 t k d = Ok v → v = contents d t !! k.
Proof.
  intros Hg. apply read_txn_Ok_inv in Hg as (s & He & Hg).
  apply with_context_Ok_inv, get_ok in Hg as ->. by rewrite (proj1 (He t)).
Qed.

Lemma iter_txn_ok m1 m2 m3 t d kvs :
  read_txn m1 t (iter_all m2 m3 t) d = Ok kvs → sorted_entries kvs (contents d t).
Proof.
  intros Hi. apply read_txn_Ok_inv in Hi as (s & He & Hi).
  apply iter_all_ok in Hi. by rewrite (proj1 (He t)) in Hi.
Qed.

Lemma iter_map_txn_ok {A} m1 m2 m3 t (f : _ → result error A) d ys :
  read_txn m1 t (iter_map m2 m3 t f) d = Ok ys →
  ∃ kvs, sorted_entries kvs (contents d t) ∧ mapM f kvs = Ok ys.
Proof.
  intros Hi. apply read_txn_Ok_inv in Hi as (s & He & Hi).
  apply iter_map_ok in Hi. by rewrite (proj1 (He t)) in Hi.
Qed.

(** A write of an encoded value after the encoding. *)
Lemma encode_then_ok {A} `{!JsonOps A, !JsonLaws A} (a : A) (f : string → M D error ()) d d' r :
  (value ← lift (encode a); f value) d = (d', r) →
  ∃ text, encode a = Ok text ∧ decode (A:=A) text = Ok a ∧ f text d = (d', r).
Proof.
  intros Hf. destruct (encode_total a) as (text & He & Hd). exists text.
  split_and!; [done..|]. unfold mbind, M_bind, lift in Hf. by rewrite He in Hf.
Qed.

(** ** Identifiers *)

Definition counter_of (d : D) (c : string) : N := default 0 (contents d COUNTERS !! c).

Lemma next_id_ok c d d' r :
  next_id c d = (d', r) →
  match r with
  | Ok n => n = add_u64 (counter_of d c) 1 ∧
      writes COUNTERS (<[c := n]> (contents d COUNTERS)) d d'
  | Err _ => d' = d
  end.
Proof.
  intros Hi. destruct r as [n|e]; [|by eapply write_txn_Err_inv].
  apply write_txn_commit in Hi as (w & Hw & [(w' & Hb & Hc)|[Hb _]]).
  - apply bind_Ok_inv in Hb as (v & Hg & Hb). apply bind_Ok_inv in Hb as (w1 & Hins & Hb).
    injection Hb as -> Hn. apply with_context_Ok_inv, (get_ok w COUNTERS) in Hg.
    apply with_context_Ok_inv, (insert_ok w COUNTERS) in Hins as (Ht & Ho & _).
    rewrite Hw in Hg.
    assert (counter_of d c = default 0 v) as -> by exact (f_equal (default 0) (eq_sym Hg)).
    split; [by destruct v|].
    split; [by rewrite Hc, Ht, Hw, Hn|]. intros t' Hne. by rewrite Hc, Ho, Hw.
  - apply bind_Ok_inv in Hb as (v & _ & Hb). apply bind_Ok_inv in Hb as (w1 & _ & Hb). done.
Qed.

Lemma next_id_counter c c' d d' r :
  next_id c d = (d', r) →
  counter_of d' c' = match r with
    | Ok n => if decide (c = c') then n else counter_of d c' | Err _ => counter_of d c' end.
Proof.
  intros Hi%next_id_ok. destruct r as [n|e]; [|by subst].
  destruct Hi as [_ [Hc _]]. unfold counter_of. rewrite Hc. cbn.
  case_decide as Hne; [subst; by rewrite lookup_insert_eq|].
  by rewrite lookup_insert_ne.
Qed.

(** A change of another table keeps every counter. *)
Lemma writes_counter t m d d' c :
  t ≠ COUNTERS → writes t m d d' → counter_of d' c = counter_of d c.
Proof. intros Hne [_ Ho]. unfold counter_of. by rewrite Ho by congruence. Qed.

Lemma insert_one_counter m1 m2 m3 t k v d d' r c :
  t ≠ COUNTERS → insert_one m1 m2 m3 t k v d = (d', r) → counter_of d' c = counter_of d c.
Proof.
  intros Hne Hi%insert_one_ok. destruct r; [|by subst]. by eapply writes_counter.
Qed.

(** ** The other writes *)

Lemma delete_json_ok t k d d' r :
  delete_json t k d = (d', r) →
  match r with
  | Ok found => found = bool_decide (is_Some (contents d t !! k)) ∧
      writes t (delete k (contents d t)) d d'
  | Err _ => d' = d
  end.
Proof.
  intros Hi. destruct r as [b|e]; [|by eapply write_txn_Err_inv].
  apply write_txn_commit in Hi as (w & Hw & [(w' & Hb & Hc)|[Hb _]]).
  - apply bind_Ok_inv in Hb as ([w1 v] & Hr%with_context_Ok_inv & Hb). injection Hb as -> <-.
    apply remove_ok in Hr as (-> & Ht & Ho & _). rewrite <- Hw. split; [done|]. split.
    + by rewrite Hc, Ht.
    + intros t' Hne. by rewrite Hc, Ho.
  - apply bind_Ok_inv in Hb as (w1 & _ & Hb). done.
Qed.

Lemma update_task_status_ok id status err d d' r :
  update_task_status id status err d = (d', r) →
  match r with
  | Ok true => ∃ old new task, contents d TASKS !! id = Some old ∧ decode old = Ok task ∧
      encode (set_status status err task) = Ok new ∧
      writes TASKS (<[id := new]> (contents d TASKS)) d d'
  | Ok false => contents d TASKS !! id = None ∧ d' = d
  | Err _ => d' = d
  end.
Proof.
  intros Hi. destruct r as [b|e]; [|by eapply write_txn_Err_inv].
  apply write_txn_commit in Hi as (w & Hw & Hb).
  assert (∀ x, (v ← with_context "查询任务失败" (tbl_get w TASKS id);
    match v with
    | None => mret (Rollback false)
    | Some text =>
      task ← decode text;
      value ← encode (set_status status err task);
      w ← with_context "更新任务失败" (tbl_insert w TASKS id value);
      mret (Commit w true)
    end) = Ok x →
    (contents d TASKS !! id = None ∧ x = Rollback false) ∨
    ∃ old new task w', contents d TASKS !! id = Some old ∧ decode old = Ok task ∧
      encode (set_status status err task) = Ok new ∧ x = Commit w' true ∧
      writes TASKS (<[id := new]> (contents d TASKS)) d w') as Hbody.
  { intros x Hx. apply bind_Ok_inv in Hx as (v & Hg & Hx).
    apply with_context_Ok_inv, (get_ok w TASKS) in Hg. rewrite Hw in Hg.
    destruct v as [old|]; [|left; by injection Hx as <-].
    apply bind_Ok_inv in Hx as (task & Hd & Hx). apply bind_Ok_inv in Hx as (new & He & Hx).
    apply bind_Ok_inv in Hx as (w' & Hins & Hx). injection Hx as <-.
    apply with_context_Ok_inv, (insert_ok w TASKS) in Hins as (Ht & Ho & _).
    right. exists old, new, task, w'. split_and!; [done..|]. split.
    - by rewrite Ht, Hw.
    - intros t' Hne. by rewrite Ho, Hw. }
  destruct Hb as [(w' & Hb & Hc)|[Hb ->]]; apply Hbody in Hb as
    [[Hn Hx]|(old & new & task & w2 & Ho & Hd & He & Hx & Ht & Hot)]; simplify_eq.
  - exists old, new, task. split_and!; [done..|]. split; [by rewrite Hc|].
    intros t' Hne. by rewrite Hc, Hot.
  - done.
Qed.

(** The holders the ledger has for a key; unreadable entries count as none. *)
Definition ledger (d : D) (key : string) : list N :=
  match contents d CHUNKS !! key with
  | Some text => default [] (ok (from_str text))
  | None => []
  end.

Lemma record_chunk_holder_ok n g h d d' r :
  record_chunk_holder n g h d = (d', r) →
  match r with
  | Ok _ => let holders := ledger d (chunk_key g h) in
      (n ∈ holders ∧ ∀ t, contents d' t = contents d t) ∨
      (n ∉ holders ∧ ∃ text, encode (holders ++ [n]) = Ok text ∧
         writes CHUNKS (<[chunk_key g h := text]> (contents d CHUNKS)) d d')
  | Err _ => d' = d
  end.
Proof.
  intros Hi. destruct r as [[]|e]; [|by eapply write_txn_Err_inv].
  apply write_txn_commit in Hi as (w & Hw & Hb). cbv zeta.
  destruct Hb as [(w' & Hb & Hc)|[Hb _]]; apply bind_Ok_inv in Hb as (v & Hg & Hb);
    apply with_context_Ok_inv, (get_ok w CHUNKS) in Hg; rewrite Hw in Hg;
    assert (ledger d (chunk_key g h) =
      match v with Some text => default [] (ok (from_str text)) | None => [] end) as Hl
      by exact (f_equal (λ v : option string, match v with
        | Some text => default [] (ok (from_str text)) | None => [] end) (eq_sym Hg));
    cbv zeta in Hb; rewrite <- Hl in Hb; case_bool_decide as Hin.
  - left. injection Hb as ->. split; [done|]. intros t. by rewrite Hc, Hw.
  - right. apply bind_Ok_inv in Hb as (text & He & Hb). apply bind_Ok_inv in Hb as (w1 & Hins & Hb).
    injection Hb as ->. apply with_context_Ok_inv, (insert_ok w CHUNKS) in Hins as (Ht & Ho & _).
    split; [done|]. exists text. split; [done|]. split; [by rewrite Hc, Ht, Hw|].
    intros t' Hne. by rewrite Hc, Ho, Hw.
  - done.
  - apply bind_Ok_inv in Hb as (text & _ & Hb). by apply bind_Ok_inv in Hb as (w1 & _ & Hb).
Qed.

Definition heat_of (d : D) (g : N) : N := default 0 (contents d HEAT !! dec g).

Lemma add_launch_ok g n d d' r :
  add_launch g n d = (d', r) →
  match r with
  | Ok total =>
      total = match contents d HEAT !! dec g with Some v => add_u64 v n | None => n end ∧
      writes HEAT (<[dec g := total]> (contents d HEAT)) d d'
  | Err _ => d' = d
  end.
Proof.
  intros Hi. destruct r as [total|e]; [|by eapply write_txn_Err_inv].
  apply write_txn_commit in Hi as (w & Hw & [(w' & Hb & Hc)|[Hb _]]);
    apply bind_Ok_inv in Hb as (v & Hg & Hb); apply bind_Ok_inv in Hb as (w1 & Hins & Hb); [|done].
  injection Hb as -> Hn. apply with_context_Ok_inv, (get_ok w HEAT) in Hg.
  apply with_context_Ok_inv, (insert_ok w HEAT) in Hins as (Ht & Ho & _).
  rewrite Hw in Hg. cbn in Hg. subst v. rewrite <- Hn. split; [done|]. split.
  - by rewrite Hc, Ht, Hw, Hn.
  - intros t' Hne. by rewrite Hc, Ho, Hw.
Qed.

(** Every state-changing operation of [Store]. *)
Inductive store_op :=
| OpNextId (counter : string)
| OpInsertNode (node : NodeRecord)
| OpInsertTask (task : TaskRecord)
| OpUpdateTask (id : N) (status err : string)
| OpRecordHolder (node_id game_id : N) (hash : list byte)
| OpAddLaunch (game_id count : N)
| OpInsertJson (t : TableDefinition) (k : Key t) (v : Val t) (Hjson : t ≠ COUNTERS)
| OpDeleteJson (t : TableDefinition) (k : Key t) (Hjson : t ≠ COUNTERS)
| OpAddAudit (time_ms : N) (actor action detail : string)
| OpSaveVersion (game_id version : N) (manifest : list byte)
| OpBind (kind : string) (a b : N).

(** Run one operation; the result is the identifier it handed out, if any. *)
Definition run_op (op : store_op) (d : D) : D * option (string * N) :=
  match op with
  | OpNextId c =>
    ((next_id c d).1, (λ n, (c, n)) <$> ok (next_id c d).2)
  | OpInsertNode node => ((insert_node node d).1, None)
  | OpInsertTask task => ((insert_task task d).1, None)
  | OpUpdateTask id status err => ((update_task_status id status err d).1, None)
  | OpRecordHolder n g h => ((record_chunk_holder n g h d).1, None)
  | OpAddLaunch g n => ((add_launch g n d).1, None)
  | OpInsertJson t k v _ => ((insert_json t k v d).1, None)
  | OpDeleteJson t k _ => ((delete_json t k d).1, None)
  | OpAddAudit time a b c =>
    ((add_audit time a b c d).1, (λ n, (NEXT_AUDIT_ID, n)) <$> ok (add_audit time a b c d).2)
  | OpSaveVersion g v m => ((save_version g v m d).1, None)
  | OpBind kind a b => ((bind kind a b d).1, None)
  end.

Fixpoint run_ops (ops : list store_op) (d : D) : D * list (string * N) :=
  match ops with
  | [] => (d, [])
  | op :: ops =>
    let '(d1, o) := run_op op d in
    let '(d2, ids) := run_ops ops d1 in
    (d2, match o with Some i => i :: ids | None => ids end)
  end.

(** The identifiers of one counter in a trace. *)
Definition ids_of (c : string) (ids : list (string * N)) : list N :=
  map snd (filter (λ i, i.1 = c) ids).

Definition steps_counter (c : string) (d d' : D) (o : option (string * N)) : Prop :=
  counter_of d c ≤ counter_of d' c ≤ counter_of d c + 1 ∧
  match o with
  | Some (c', n) => c' = c → n = counter_of d c + 1 ∧ counter_of d' c = n
  | None => True
  end.

Lemma steps_same c d d' : counter_of d' c = counter_of d c → steps_counter c d d' None.
Proof. unfold steps_counter. lia. Qed.

Lemma next_id_steps c c' d :
  counter_of d c + 1 < 2^64 → counter_of d c' + 1 < 2^64 →
  steps_counter c d (next_id c' d).1 ((λ n, (c', n)) <$> ok (next_id c' d).2).
Proof.
  intros Hb Hb'. destruct (next_id c' d) as [d' r] eqn:Hi. cbn.
  pose proof (next_id_counter _ c _ _ _ Hi) as Hc. apply next_id_ok in Hi.
  unfold steps_counter. destruct r as [n|e]; cbn; [|lia].
  destruct Hi as [Hn _]. rewrite add_u64_small in Hn by done.
  case_decide as Hcc; [subst; lia|]. split; [lia|by intros].
Qed.

Lemma add_audit_steps c d t a1 a2 a3 :
  counter_of d c + 1 < 2^64 → counter_of d NEXT_AUDIT_ID + 1 < 2^64 →
  steps_counter c d (add_audit t a1 a2 a3 d).1
    ((λ n, (NEXT_AUDIT_ID, n)) <$> ok (add_audit t a1 a2 a3 d).2).
Proof.
  intros Hb Hb'. pose proof (next_id_steps c NEXT_AUDIT_ID d Hb Hb') as Hs.
  destruct (add_audit t a1 a2 a3 d) as [d' r] eqn:Ha. cbn. unfold add_audit in Ha.
  m_step Ha as d1 n e Hi; cbn in Hs; [|done].
  m_step Ha as d2 text e He; unfold lift in He; injection He as <- He.
  - m_step Ha as d3 u e Hj; apply (insert_one_counter _ _ _ _ _ _ _ _ _ c) in Hj; try done.
    + injection Ha as <- <-. cbn. unfold steps_counter in *. by rewrite Hj.
    + unfold steps_counter in *. cbn. rewrite Hj. by destruct Hs.
  - unfold steps_counter in *. cbn. by destruct Hs.
Qed.

Lemma run_op_steps c op d :
  (∀ c', counter_of d c' + 1 < 2^64) →
  steps_counter c d (run_op op d).1 (run_op op d).2.
Proof.
  intros Hb. destruct op; cbn [run_op fst snd].
  all: try (by apply next_id_steps); try (by apply add_audit_steps); apply steps_same.
  - destruct (insert_node node d) as [d' r] eqn:Hi. apply encode_then_ok in Hi as (? & _ & _ & Hi).
    by eapply insert_one_counter; [|exact Hi].
  - destruct (insert_task task d) as [d' r] eqn:Hi. apply encode_then_ok in Hi as (? & _ & _ & Hi).
    by eapply insert_one_counter; [|exact Hi].
  - destruct (update_task_status id status err d) as [d' r] eqn:Hi.
    apply update_task_status_ok in Hi. destruct r as [[]|].
    + destruct Hi as (? & ? & ? & _ & _ & _ & Hw). by eapply writes_counter; [|exact Hw].
    + by destruct Hi as [_ ->].
    + by subst.
  - destruct (record_chunk_holder node_id game_id hash d) as [d' r] eqn:Hi.
    apply record_chunk_holder_ok in Hi. destruct r as [u|]; [|by subst].
    destruct Hi as [[_ Hc]|(_ & text & _ & Hw)]; [|by eapply writes_counter; [|exact Hw]].
    unfold counter_of. cbn. by rewrite Hc.
  - destruct (add_launch game_id count d) as [d' r] eqn:Hi. apply add_launch_ok in Hi.
    destruct r as [total|]; [|by subst]. destruct Hi as [_ Hw]. by eapply writes_counter; [|exact Hw].
  - destruct (insert_json t k v d) as [d' r] eqn:Hi. by eapply insert_one_counter; [|exact Hi].
  - destruct (delete_json t k d) as [d' r] eqn:Hi. apply delete_json_ok in Hi.
    destruct r as [b|]; [|by subst]. destruct Hi as [_ Hw]. by eapply writes_counter; [|exact Hw].
  - destruct (save_version game_id version manifest d) as [d' r] eqn:Hi.
    apply encode_then_ok in Hi as (? & _ & _ & Hi). by eapply insert_one_counter; [|exact Hi].
  - destruct (bind kind a b d) as [d' r] eqn:Hi. by eapply insert_one_counter; [|exact Hi].
Qed.

Lemma run_ops_ids ops d c :
  (∀ c', counter_of d c' + N.of_nat (length ops) < 2^64) →
  StronglySorted N.lt (ids_of c (run_ops ops d).2) ∧
  Forall (λ n, counter_of d c < n) (ids_of c (run_ops ops d).2).
Proof.
  revert d. induction ops as [|op ops IH]; intros d Hb; [split; constructor|]. cbn.
  assert (∀ c', counter_of d c' + 1 < 2^64) as Hb1.
  { intros c'. specialize (Hb c'). cbn in Hb. lia. }
  pose proof (λ c', run_op_steps c' op d Hb1) as Hs.
  destruct (run_op op d) as [d1 o]. cbn in Hs.
  destruct (IH d1) as [IHs IHf].
  { intros c'. destruct (Hs c') as [[_ Hle] _]. specialize (Hb c'). cbn in Hb. lia. }
  destruct (run_ops ops d1) as [d2 ids]. cbn in IHs, IHf |- *.
  destruct (Hs c) as [[Hlo _] Ho].
  assert (Forall (λ n, counter_of d c < n) (ids_of c ids)) as Hf.
  { eapply Forall_impl; [exact IHf|]. cbn. intros. lia. }
  destruct o as [[c' n]|]; [|done]. unfold ids_of in *.
  destruct (decide (c' = c)) as [Hc|Hc].
  - rewrite filter_cons_True by done. cbn. destruct (Ho Hc) as [-> Hn].
    split; constructor; [done| |lia|done].
    eapply Forall_impl; [exact IHf|]. cbn. intros. lia.
  - by rewrite filter_cons_False by done.
Qed.

(** ** Typed views *)

(** The records a table holds, by identifier. *)
Definition view {A} `{!JsonOps A} (t : TableDefinition) (text_of : Val t → string) (d : D) :
    gmap (Key t) A :=
  omap (λ v, ok (decode (text_of v))) (contents d t).

(** The views the control plane speaks about. *)
Definition nodes (d : D) : gmap N NodeRecord := view NODES id d.
Definition tasks (d : D) : gmap N TaskRecord := view TASKS id d.
Definition games (d : D) : gmap N GameRecord := view GAMES id d.

(** Any record kept in a JSON table: insert, get and delete behave as on a map. *)
Lemma get_one_view {A} `{!JsonOps A} m1 m2 (t : TableDefinition) (text_of : Val t → string) d k
    (r : option A) :
  (v ← get_one m1 m2 t k d;
   match v with None => mret None | Some v => r ← decode (text_of v); mret (Some r) end) = Ok r →
  r = view t text_of d !! k.
Proof.
  intros Hg. apply bind_Ok_inv in Hg as (v & Hg%get_one_ok & Hr).
  unfold view. rewrite lookup_omap, <- Hg. destruct v as [text|]; [|by injection Hr as <-].
  apply bind_Ok_inv in Hr as (a & Ha & Hr). injection Hr as <-. cbn. by rewrite Ha.
Qed.

Lemma insert_json_view {A} `{!JsonOps A, !JsonLaws A} (t : TableDefinition) (k : Key t) (a : A)
    (of_text : string → Val t) (text_of : Val t → string) m1 m2 m3 d d' :
  (∀ x, text_of (of_text x) = x) →
  (value ← lift (encode a); insert_one m1 m2 m3 t k (of_text value)) d = (d', Ok ()) →
  view t text_of d' = <[k := a]> (view t text_of d) ∧
  (∀ t', t' ≠ t → contents d' t' = contents d t').
Proof.
  intros Ht Hi. apply (encode_then_ok a (λ v, insert_one m1 m2 m3 t k (of_text v))) in Hi as (text & _ & Hd & Hi).
  apply insert_one_ok in Hi as [Hc Ho]. split; [|done]. unfold view. rewrite Hc.
  apply map_eq. intros k'. rewrite lookup_omap. destruct (decide (k' = k)) as [->|Hne].
  - rewrite !lookup_insert_eq. cbn. by rewrite Ht, Hd.
  - by rewrite !lookup_insert_ne, lookup_omap by done.
Qed.

Lemma delete_json_view {A} `{!JsonOps A} (t : TableDefinition) (text_of : Val t → string)
    (k : Key t) d d' found :
  delete_json t k d = (d', Ok found) →
  view (A:=A) t text_of d' = delete k (view t text_of d) ∧
  found = bool_decide (is_Some (contents d t !! k)).
Proof.
  intros [Hf [Hc _]]%delete_json_ok. split; [|done]. unfold view. rewrite Hc.
  apply map_eq. intros k'. rewrite lookup_omap. destruct (decide (k' = k)) as [->|Hne].
  - by rewrite !lookup_delete_eq.
  - by rewrite !lookup_delete_ne, lookup_omap by done.
Qed.

(** The records of a table listed in the order of their identifiers. *)
Definition listing {A} (t : TableDefinition) (m : gmap (Key t) A) (l : list A) : Prop :=
  ∃ ks, StronglySorted (ty_le (td_key t)) ks ∧ NoDup ks ∧
    Forall2 (λ k a, m !! k = Some a) ks l ∧ (∀ k, is_Some (m !! k) → k ∈ ks).

Lemma mapM_listing {A} `{!JsonOps A} (t : TableDefinition) (text_of : Val t → string) d kvs l :
  sorted_entries kvs (contents d t) →
  mapM (λ kv, decode (text_of kv.2)) kvs = Ok l → listing t (view t text_of d) l.
Proof.
  intros [Hp Hs] Hm%mapM_Forall2. exists kvs.*1. split_and!.
  - done.
  - rewrite Hp. apply NoDup_fst_map_to_list.
  - assert (Forall (λ kv, contents d t !! kv.1 = Some kv.2) kvs) as Hall.
    { rewrite Hp. apply Forall_forall. intros [k v] Hin. by apply elem_of_map_to_list in Hin. }
    clear Hp Hs. induction Hm as [|[k v] a kvs l Ha _ IH]; [constructor|].
    apply Forall_cons in Hall as [Hkv Hall]. cbn. constructor; [|by apply IH].
    cbn in Hkv, Ha. unfold view. rewrite lookup_omap, Hkv. cbn. by rewrite Ha.
  - intros k [a Ha]. unfold view in Ha. rewrite lookup_omap in Ha.
    destruct (contents d t !! k) as [v|] eqn:Hv; [|done]. rewrite Hp.
    apply list_elem_of_fmap. exists (k, v). split; [done|]. by apply elem_of_map_to_list.
Qed.

Lemma list_records_listing {A} `{!JsonOps A} (t : TableDefinition) (text_of : Val t → string) d
    (l : list A) :
  list_records t text_of d = Ok l → listing t (view t text_of d) l.
Proof.
  unfold list_records, list_json. intros Hl. apply bind_Ok_inv in Hl as (texts & Ht & Hl).
  apply bind_Ok_inv in Ht as (kvs & Hk & Ht). injection Ht as <-.
  apply iter_txn_ok in Hk. eapply mapM_listing; [done|].
  apply mapM_Forall2 in Hl. apply mapM_Forall2. by apply Forall2_fmap_l in Hl.
Qed.

(** A table of records behaves as a finite map under its four operations. *)
Definition record_table {A} `{!JsonOps A} (t : TableDefinition) (text_of : Val t → string)
    (key : A → Key t) (insert : A → M D error ()) (get : D → Key t → result error (option A))
    (list_all : D → result error (list A)) (delete : Key t → M D error bool) : Prop :=
  ∀ d d',
    (∀ a, insert a d = (d', Ok ()) → view t text_of d' = <[key a := a]> (view t text_of d)) ∧
    (∀ a e, insert a d = (d', Err e) → d' = d) ∧
    (∀ k r, get d k = Ok r → r = view t text_of d !! k) ∧
    (∀ l, list_all d = Ok l → listing t (view t text_of d) l) ∧
    (∀ k b, delete k d = (d', Ok b) →
       view (A:=A) t text_of d' = base.delete k (view t text_of d) ∧
       b = bool_decide (is_Some (contents d t !! k))) ∧
    (∀ k e, delete k d = (d', Err e) → d' = d).

Lemma insert_json_err {A} `{!JsonOps A, !JsonLaws A} (t : TableDefinition) (k : Key t) (a : A)
    (of_text : string → Val t) d d' e :
  (value ← lift (encode a); insert_json t k (of_text value)) d = (d', Err e) → d' = d.
Proof.
  intros Hi. apply (encode_then_ok a (λ v, insert_json t k (of_text v))) in Hi as (x & _ & _ & Hi).
  by apply insert_one_ok in Hi.
Qed.

Lemma record_table_json {A} `{!JsonOps A, !JsonLaws A} (t : TableDefinition)
    (of_text : string → Val t) (text_of : Val t → string) key insert get list_all delete :
  (∀ x, text_of (of_text x) = x) →
  (∀ a : A, insert a = (value ← lift (encode a); insert_json t (key a) (of_text value))) →
  (∀ d k, get d k = (v ← get_json t d k;
    match v with None => mret None | Some v => r ← decode (text_of v); mret (Some r) end)) →
  (∀ d, list_all d = list_records t text_of d) → (∀ k, delete k = delete_json t k) →
  record_table t text_of key insert get list_all delete.
Proof.
  intros Hid Hi Hg Hl Hdel d d'. split_and!.
  - intros a Ha. rewrite Hi in Ha. by apply (insert_json_view _ _ a of_text text_of) in Ha as [? _].
  - intros a e Ha. rewrite Hi in Ha. by apply (insert_json_err _ _ a of_text) in Ha.
  - intros k r Hr. rewrite Hg in Hr. by apply (get_one_view _ _ _ text_of) in Hr.
  - intros l Hr. rewrite Hl in Hr. by apply list_records_listing in Hr.
  - intros k b Hr. rewrite Hdel in Hr. by apply delete_json_view.
  - intros k e Hr. rewrite Hdel in Hr. by apply delete_json_ok in Hr.
Qed.

(** ** Bindings *)

Definition bound (d : D) (kind : string) (a b : N) : Prop :=
  is_Some (contents d BINDINGS !! bind_key kind a b).

(** Every key was written by [bind] with one of the three kinds. *)
Definition bindings_wf (d : D) : Prop :=
  ∀ k, is_Some (contents d BINDINGS !! k) →
    ∃ kind a b, kind ∈ [BIND_UP; BIND_UG; BIND_GP] ∧ b < 2^64 ∧ k = bind_key kind a b.

Lemma kind_no_slash kind : kind ∈ [BIND_UP; BIND_UG; BIND_GP] → has_char "/" kind = false.
Proof. rewrite !elem_of_cons, elem_of_nil. by intros [->|[->|[->|[]]]]. Qed.

Lemma bind_key_prefix kind a kind' a' b' r :
  has_char "/" kind = false → has_char "/" kind' = false →
  strip_prefix (kind ++ "/" ++ dec a ++ "/")%string (bind_key kind' a' b') = Some r ↔
  kind = kind' ∧ a = a' ∧ r = dec b'.
Proof.
  intros Hk Hk'. split.
  - intros Hs%strip_prefix_Some. unfold bind_key in Hs. rewrite !string_app_assoc in Hs.
    symmetry in Hs. apply split_at_inj in Hs as [-> Hs]; [|done..].
    apply split_at_inj in Hs as [Ha <-]; [|by apply dec_no_char..].
    apply dec_inj in Ha as ->. done.
  - intros (-> & -> & ->). unfold bind_key.
    replace (kind' ++ "/" ++ dec a' ++ "/" ++ dec b')%string
      with ((kind' ++ "/" ++ dec a' ++ "/") ++ dec b')%string by by rewrite !string_app_assoc.
    apply strip_prefix_app.
Qed.

Lemma binding_ids_ok d kind a ids b :
  bindings_wf d → kind ∈ [BIND_UP; BIND_UG; BIND_GP] → binding_ids d kind a = Ok ids →
  b ∈ ids ↔ bound d kind a b ∧ b < 2^64.
Proof.
  intros Hwf Hkind Hb. apply bind_Ok_inv in Hb as (kvs & Hk & Hb). injection Hb as <-.
  apply (iter_txn_ok _ _ _ BINDINGS d) in Hk as [Hp _].
  assert (∀ k, (∃ v, (k, v) ∈ kvs) ↔ is_Some (contents d BINDINGS !! k)) as Hin.
  { intros k. split.
    - intros [v Hv]. rewrite Hp in Hv. apply elem_of_map_to_list in Hv. by eexists.
    - intros [v Hv]. exists v. rewrite Hp. by apply elem_of_map_to_list. }
  apply kind_no_slash in Hkind as Hns. rewrite list_elem_of_omap. split.
  - intros ([k v] & Hkv & Hid). unfold binding_id in Hid. cbn in Hid.
    destruct (Hwf k) as (kind' & a' & b' & Hkind' & Hlt & ->); [apply Hin; by eexists|].
    destruct (strip_prefix _ _) as [r|] eqn:Hs; [|done].
    apply bind_key_prefix in Hs as (<- & <- & ->); [|done|by apply kind_no_slash].
    rewrite parse_u64_dec in Hid by done. injection Hid as <-.
    split; [|done]. apply Hin. by exists v.
  - intros [Hbd Hlt]. apply Hin in Hbd as [v Hv]. exists (bind_key kind a b, v).
    split; [done|]. unfold binding_id. cbn.
    rewrite (proj2 (bind_key_prefix kind a kind a b (dec b) Hns Hns)) by done.
    by apply parse_u64_dec.
Qed.

Lemma bind_wf d kind a b d' r :
  bindings_wf d → kind ∈ [BIND_UP; BIND_UG; BIND_GP] → b < 2^64 →
  bind kind a b d = (d', r) → bindings_wf d'.
Proof.
  intros Hwf Hk Hb Hi%insert_one_ok. destruct r as [u|]; [|by subst].
  destruct Hi as [Hc _]. intros k Hin. rewrite Hc in Hin.
  apply lookup_insert_is_Some' in Hin as [<-|Hin]; [by exists kind, a, b|]. by apply Hwf.
Qed.

(** ** Properties *)

(** No identifier is handed out twice: in any run of the store's operations,
    interleaved in any order and failing anywhere, the identifiers obtained from
    one counter are strictly increasing, and all above what the counter held
    (as long as no counter reaches 2^64). *)
Theorem ids_unique (ops : list store_op) (d : D) (c : string) :
  (∀ c', counter_of d c' + N.of_nat (length ops) < 2^64) →
  StronglySorted N.lt (ids_of c (run_ops ops d).2) ∧
  Forall (λ n, counter_of d c < n) (ids_of c (run_ops ops d).2).
Proof. apply run_ops_ids. Qed.

(** The tables of users, places, groups and games are finite maps from
    identifiers to records: an insertion that succeeds sets one entry, a deletion
    that succeeds removes one and says whether it was there, a failed one changes
    nothing, a lookup returns the record of the map, and the listing is the
    records of the map in the order of their identifiers. *)
Theorem record_tables :
  record_table USERS id us_id insert_user get_user list_users delete_user ∧
  record_table PLACES id pl_id insert_place get_place list_places delete_place ∧
  record_table GROUPS id gr_id insert_group get_group list_groups delete_group ∧
  record_table GAMES id gm_id insert_game get_game list_games delete_game.
Proof.
  split_and!; [apply (record_table_json USERS id id)|apply (record_table_json PLACES id id)|
    apply (record_table_json GROUPS id id)|apply (record_table_json GAMES id id)]; done.
Qed.

(** Updating a task's status: it fails without effect, or says that the task
    does not exist and changes nothing, or rewrites exactly that task's status and
    error, whatever the status was, and leaves every other record of every table. *)
Theorem update_task_status_spec tid status err d d' r :
  update_task_status tid status err d = (d', r) →
  match r with
  | Ok true => ∃ task, view TASKS id d !! tid = Some task ∧
      view TASKS id d' = <[tid := set_status status err task]> (view TASKS id d) ∧
      ∀ t, t ≠ TASKS → contents d' t = contents d t
  | Ok false => contents d TASKS !! tid = None ∧ d' = d
  | Err _ => d' = d
  end.
Proof.
  intros Hu%update_task_status_ok. destruct r as [[]|e]; [|done..].
  destruct Hu as (old & new & task & Hold & Hd & He & Hc & Ho). exists task.
  assert (view TASKS id d !! tid = Some task) as Hv.
  { unfold view. rewrite lookup_omap. exact (eq_trans (f_equal (λ o : option string, o ≫= _) Hold)
      (f_equal ok Hd)). }
  split_and!; [done| |done]. unfold view. rewrite Hc. apply map_eq. intros k.
  rewrite lookup_omap. destruct (decide (k = tid)) as [->|Hne].
  - rewrite !lookup_insert_eq. cbn. by rewrite (encode_ok _ _ He).
  - by rewrite !lookup_insert_ne, lookup_omap by done.
Qed.

(** The chunk ledger keeps a duplicate-free list of holders per chunk.
    Recording a holder is idempotent, adds it at the end when it is new, and
    touches no other chunk; the query returns the list. *)
Theorem chunk_ledger n g h d d' :
  g < 2^64 →
  (∀ u, record_chunk_holder n g h d = (d', Ok u) →
     ledger d' (chunk_key g h) =
       (if decide (n ∈ ledger d (chunk_key g h)) then ledger d (chunk_key g h)
        else ledger d (chunk_key g h) ++ [n]) ∧
     (NoDup (ledger d (chunk_key g h)) → NoDup (ledger d' (chunk_key g h))) ∧
     ∀ g' h', g' < 2^64 → (g', h') ≠ (g, h) →
       ledger d' (chunk_key g' h') = ledger d (chunk_key g' h')) ∧
  (∀ e, record_chunk_holder n g h d = (d', Err e) → d' = d) ∧
  (∀ hs, chunk_holders d g h = Ok hs → hs = ledger d (chunk_key g h)).
Proof.
  intros Hg. split_and!.
  - intros u Hr%record_chunk_holder_ok. destruct Hr as [[Hin Hc]|[Hn (text & He & Hc & _)]].
    + assert (∀ k, ledger d' k = ledger d k) as Hl by (intros k; unfold ledger; by rewrite Hc).
      rewrite !Hl. split_and!; [by rewrite decide_True|done|by intros; apply Hl].
    + assert (∀ k, ledger d' k = if decide (k = chunk_key g h) then ledger d (chunk_key g h) ++ [n]
        else ledger d k) as Hl.
      { intros k. unfold ledger at 1. rewrite Hc. destruct (decide (k = _)) as [->|Hne].
        - cbn. rewrite lookup_insert_eq.
          apply with_context_Ok_inv, json_roundtrip in He. by rewrite He.
        - cbn. by rewrite lookup_insert_ne by done. }
      rewrite Hl, decide_True, decide_False by done. split_and!; [done| |].
      * intros Hnd. apply NoDup_app. split_and!; [done| |apply NoDup_singleton].
        intros x Hx ->%list_elem_of_singleton. done.
      * intros g' h' Hg' Hne. rewrite Hl, decide_False; [done|]. intros Hk. apply Hne.
        unfold chunk_key in Hk. apply chunk_key_app in Hk as [-> ->]; done.
  - intros e Hr. by eapply write_txn_Err_inv.
  - intros hs Hh. apply bind_Ok_inv in Hh as (v & Hv%(get_one_ok _ _ CHUNKS) & Hh).
    unfold ledger.
    assert (contents d CHUNKS !! chunk_key g h = v) as -> by (symmetry; exact Hv).
    destruct v as [text|]; [|by injection Hh as <-]. apply with_context_Ok_inv in Hh.
    by rewrite Hh.
Qed.

(** A user sees exactly the places bound to it or to one of its groups, each
    once and in increasing order; binding keeps the table well formed. *)
Theorem places_of_user_spec d user ps :
  bindings_wf d → places_of_user d user = Ok ps →
  StronglySorted N.lt ps ∧
  (∀ p, p ∈ ps ↔ p < 2^64 ∧ (bound d BIND_UP user p ∨
     ∃ g, g < 2^64 ∧ bound d BIND_UG user g ∧ bound d BIND_GP g p)) ∧
  (∀ kind a b d' r, kind ∈ [BIND_UP; BIND_UG; BIND_GP] → b < 2^64 →
     bind kind a b d = (d', r) → bindings_wf d').
Proof.
  intros Hwf Hp. unfold places_of_user in Hp.
  apply bind_Ok_inv in Hp as (direct & Hd & Hp). apply bind_Ok_inv in Hp as (groups & Hg & Hp).
  apply bind_Ok_inv in Hp as (via & Hv & Hp). injection Hp as <-.
  assert (BIND_UP ∈ [BIND_UP; BIND_UG; BIND_GP]) as Hup by by left.
  assert (BIND_UG ∈ [BIND_UP; BIND_UG; BIND_GP]) as Hug by by right; left.
  assert (BIND_GP ∈ [BIND_UP; BIND_UG; BIND_GP]) as Hgp by by right; right; left.
  pose proof (λ b, binding_ids_ok d BIND_UP user direct b Hwf Hup Hd) as Hdir.
  pose proof (λ b, binding_ids_ok d BIND_UG user groups b Hwf Hug Hg) as Hgrp.
  assert (∀ p, p ∈ mjoin via ↔ ∃ g, g ∈ groups ∧ bound d BIND_GP g p ∧ p < 2^64) as Hvia.
  { intros p. apply mapM_Forall2 in Hv. clear -Hv Hwf Hgp H. induction Hv as [|g ids groups via Hg _ IH].
    - cbn. rewrite elem_of_nil. split; [done|]. by intros (g & ?%elem_of_nil & _).
    - cbn. rewrite elem_of_app, IH, (binding_ids_ok d BIND_GP g ids p Hwf Hgp Hg).
      split.
      + intros [[Hb Hp]|(g' & Hg' & Hb)]; [exists g|exists g']; rewrite elem_of_cons; tauto.
      + intros (g' & [->|Hg']%elem_of_cons & Hb); [by left|right; by exists g']. }
  split_and!.
  - apply sorted_lt_of_le.
    + apply StronglySorted_merge_sort; apply _.
    + rewrite merge_sort_Permutation. apply NoDup_elements.
  - intros p. rewrite merge_sort_Permutation, elem_of_elements, elem_of_list_to_set, elem_of_app,
      Hdir, Hvia. split.
    + intros [[Hb Hp]|(g & [Hb Hg']%Hgrp & Hb' & Hp)]; [by auto|].
      split; [done|]. right. by exists g.
    + intros [Hp [Hb|(g & Hg' & Hb & Hb')]]; [by left|]. right. exists g.
      rewrite Hgrp. tauto.
  - intros. by eapply bind_wf.
Qed.

(** A saved version manifest reads back byte for byte, no other version of
    any game is affected, and a failed save changes nothing. *)
Theorem version_roundtrip g v manifest d d' :
  (save_version g v manifest d = (d', Ok ()) →
     (∀ r, get_version d' g v = Ok r → r = Some manifest) ∧
     (∀ g' v' r r', (g', v') ≠ (g, v) →
        get_version d g' v' = Ok r → get_version d' g' v' = Ok r' → r' = r)) ∧
  (∀ e, save_version g v manifest d = (d', Err e) → d' = d).
Proof.
  assert (∀ d g v r, get_version d g v = Ok r → r = view VERSIONS id d !! version_key g v)
    as Hget.
  { intros d0 g0 v0 r Hr. by apply (get_one_view _ _ VERSIONS id) in Hr. }
  split.
  - intros Hs. apply (insert_json_view VERSIONS _ manifest id id) in Hs as [Hv _]; [|done].
    split.
    + intros r ->%Hget. by rewrite Hv, lookup_insert_eq.
    + intros g' v' r r' Hne ->%Hget ->%Hget. rewrite Hv, lookup_insert_ne; [done|].
      intros Hk. apply Hne. unfold version_key in Hk.
      apply split_at_inj in Hk as [Hg Hv']; [|by apply dec_no_char..].
      apply dec_inj in Hg, Hv'. by subst.
  - intros e Hs. apply (encode_then_ok manifest) in Hs as (x & _ & _ & Hs).
    by apply insert_one_ok in Hs.
Qed.

End store.

(** ** Examples: the in-memory database *)

#[local] Existing Instance sched_json.
#[local] Existing Instance sched_json_laws.

Definition wit_task : TaskRecord := mkTask 5 1 7 2 "pull" [] "cancelled" "".
Definition wit_run : list (store_op) :=
  [OpNextId NEXT_TASK_ID; OpInsertTask wit_task; OpNextId NEXT_NODE_ID;
   OpAddAudit 0 "admin" "create" "task"; OpNextId NEXT_TASK_ID].

Lemma ids_unique_witness :
  ids_of NEXT_TASK_ID (run_ops wit_run mem_sched).2 = [1; 2] ∧
  StronglySorted N.lt (ids_of NEXT_TASK_ID (run_ops wit_run mem_sched).2).
Proof.
  split; [vm_compute; reflexivity|]. apply (ids_unique wit_run mem_sched NEXT_TASK_ID).
  intros c'. unfold counter_of. cbn. rewrite lookup_empty. cbn. lia.
Defined.

Definition sched_with_task : MemDb := (insert_task wit_task mem_sched).1.

(** A cancelled task that is reported as done is done again. *)
Lemma update_task_status_spec_witness :
  view TASKS id (update_task_status 5 "done" "" sched_with_task).1 !! 5 =
  Some (set_status "done" "" wit_task).
Proof.
  pose proof (update_task_status_spec 5 "done" "" sched_with_task _ _
    (surjective_pairing (update_task_status 5 "done" "" sched_with_task))) as Hs.
  assert ((update_task_status 5 "done" "" sched_with_task).2 = Ok true) as Hr
    by (vm_compute; reflexivity).
  rewrite Hr in Hs. destruct Hs as (task & Ht & -> & _).
  assert (task = wit_task) as ->.
  { assert (view TASKS id sched_with_task !! 5 = Some wit_task) as Hw by (vm_compute; reflexivity).
    congruence. }
  apply lookup_insert_eq.
Defined.

Lemma chunk_ledger_witness :
  ledger (record_chunk_holder 3 7 [x01] mem_sched).1 (chunk_key 7 [x01]) = [3].
Proof.
  destruct (chunk_ledger 3 7 [x01] mem_sched (record_chunk_holder 3 7 [x01] mem_sched).1)
    as [Hc _]; [reflexivity|].
  destruct (Hc tt) as [-> _]; [vm_compute; reflexivity|]. vm_compute. reflexivity.
Defined.

Definition sched_with_bindings : MemDb :=
  (bind BIND_GP 4 9 (bind BIND_UG 1 4 (bind BIND_UP 1 12 mem_sched).1).1).1.

Lemma places_of_user_spec_witness :
  places_of_user sched_with_bindings 1 = Ok [9; 12] ∧ StronglySorted N.lt [9; 12].
Proof.
  assert (bindings_wf mem_sched) as H0 by by intros k [x Hx].
  assert (bindings_wf (bind BIND_UP 1 12 mem_sched).1) as H1.
  { eapply bind_wf; [exact H0|by left| |apply surjective_pairing]. reflexivity. }
  assert (bindings_wf (bind BIND_UG 1 4 (bind BIND_UP 1 12 mem_sched).1).1) as H2.
  { eapply bind_wf; [exact H1|by right; left| |apply surjective_pairing]. reflexivity. }
  assert (bindings_wf sched_with_bindings) as H3.
  { eapply bind_wf; [exact H2|by right; right; left| |apply surjective_pairing]. reflexivity. }
  assert (places_of_user sched_with_bindings 1 = Ok [9; 12]) as Hp by (vm_compute; reflexivity).
  split; [exact Hp|]. apply (places_of_user_spec sched_with_bindings 1 [9; 12] H3 Hp).
Defined.

Lemma version_roundtrip_witness :
  get_version (save_version 7 2 [x01; x02] mem_sched).1 7 2 = Ok (Some [x01; x02]).
Proof.
  destruct (version_roundtrip 7 2 [x01; x02] mem_sched (save_version 7 2 [x01; x02] mem_sched).1)
    as [Hs _].
  destruct Hs as [Hg _]; [vm_compute; reflexivity|].
  destruct (get_version (save_version 7 2 [x01; x02] mem_sched).1 7 2) as [r|e] eqn:Hr.
  - by rewrite (Hg r eq_refl).
  - vm_compute in Hr. discriminate.
Defined.

Definition wit_user : UserRecord := mkUser 3 "ann" "" "salt".

Lemma record_tables_witness :
  view USERS id (insert_user wit_user mem_sched).1 = <[3 := wit_user]> (view USERS id mem_sched).
Proof.
  destruct (record_tables (D:=MemDb)) as [Hu _].
  destruct (Hu mem_sched (insert_user wit_user mem_sched).1) as [Hi _].
  apply (Hi wit_user). vm_compute. reflexivity.
Defined.
