(* ===== verification/SchedControl.v ===== *)
(** * SchedControl: the scheduler's control plane (crates/scheduler/src/server.rs)

    Messages of control.proto as records, the state of [ControlService] (the
    database, the queue of events per node, the broadcast log) and one
    definition per handler.  The clock readings are arguments, in the order in
    which the handler takes them. *)

From S2P Require Import Prelude Bytes Text Redb SchedDb.

(** ** Messages *)

Inductive code := InvalidArgument | NotFound | Internal.

(** [tonic::Status] *)
Record Status := mkStatus { st_code : code; st_message : string }.

Definition invalid_argument (msg : string) : Status := mkStatus InvalidArgument msg.
Definition not_found (msg : string) : Status := mkStatus NotFound msg.
(** [Status::internal(format!(prefix, err))]: [{err}] is the outermost message. *)
Definition internal (prefix : string) (err : error) : Status :=
  mkStatus Internal (prefix ++ err_display err)%string.

Record Addr := mkPAddr { pa_addr : string; pa_kind : string; pa_link : string }.
Record Task := mkPTask {
  pt_id : N; pt_game_id : N; pt_version : N; pt_kind : N; pt_assigned_chunks : list (list byte)
}.
Record RegisterRequest := mkRegister {
  rq_node_type : string; rq_endpoint_id : string; rq_addrs : list Addr; rq_token : string
}.
Record RegisterReply := mkRegistered {
  rp_node_id : N; rp_token : string; rp_initial_tasks : list Task
}.
Record HeartbeatReply := mkHeartbeat { hb_server_time : N; hb_task_ids : list N }.
Record TaskReport := mkReport {
  tr_node_id : N; tr_task_id : N; tr_status : string; tr_error : string
}.
Record ChunkDone := mkDone { cd_node_id : N; cd_game_id : N; cd_chunk_hash : list byte }.
Record PeerQuery := mkQuery { pq_game_id : N; pq_chunk_hash : list byte; pq_limit : N }.
Record Peer := mkPeer {
  pe_node_id : N; pe_endpoint_id : string; pe_addrs : list Addr; pe_direct_only : bool
}.
Record VersionInfo := mkVersionInfo { vi_found : bool; vi_version : N; vi_manifest : list byte }.
Record PublishVersionRequest := mkPublish {
  pv_game_id : N; pv_version : N; pv_manifest : list byte
}.
Record PublishVersionReply := mkPublished { pr_ok : bool; pr_error : string }.

(** Only the task branch of the [oneof] is ever sent. *)
Inductive TaskEvent := EvTask (task : Task) | EvCancel (task_id : N) (reason : string).

(** What is broadcast to the HTTP event stream. *)
Inductive Event :=
| TaskPushed (id node_id game_id : N)
| TaskStatus (task_id : N) (status : string).

(** ** Small functions *)

Definition valid_node_type (node_type : string) : bool :=
  bool_decide (node_type ∈ ["origin"; "idc"; "cafe"]%string).

Definition task_kind (kind : string) : N :=
  if decide (kind = "DOWNLOAD"%string) then 0
  else if decide (kind = "UPDATE"%string) then 1
  else if decide (kind = "ROLLBACK"%string) then 2
  else 0.

Definition to_proto_task (task : TaskRecord) : Task :=
  mkPTask (tk_id task) (tk_game_id task) (tk_version task) (task_kind (tk_kind task))
    (tk_assigned_chunks task).

Definition bad_node_type : Status := invalid_argument "node_type 必须为 origin/idc/cafe".
Definition node_not_found : Status := not_found "节点未注册".
Definition version_query_error : error → Status := internal "查询版本清单失败: ".
Definition version_save_error : error → Status := internal "保存版本清单失败: ".
Definition alloc_node_id_error : error → Status := internal "分配节点 ID 失败: ".
Definition write_node_error : error → Status := internal "写入节点失败: ".
Definition query_tasks_error : error → Status := internal "查询任务失败: ".
Definition query_node_error : error → Status := internal "查询节点失败: ".
Definition update_node_error : error → Status := internal "更新节点失败: ".
Definition update_task_error : error → Status := internal "更新任务失败: ".
Definition chunk_ledger_error : error → Status := internal "块账本操作失败: ".
Definition write_task_error : error → Status := internal "写入任务失败: ".

(** ** The service *)

Record ControlService (D : Type) := mkControl {
  cs_store : D;
  cs_pending : gmap N (list TaskEvent);
  cs_events : list Event
}.
Arguments mkControl {D}. Arguments cs_store {D}. Arguments cs_pending {D}.
Arguments cs_events {D}.

Section control.
Context {D : Type} `{!RedbOps D, !SchedJson}.
Abbreviation handler := (M (ControlService D) Status).

Definition ControlService_new (store : D) : ControlService D := mkControl store ∅ [].

Definition set_store (d : D) (s : ControlService D) : ControlService D :=
  mkControl d (cs_pending s) (cs_events s).
Definition set_pending (p : gmap N (list TaskEvent)) (s : ControlService D) : ControlService D :=
  mkControl (cs_store s) p (cs_events s).
Definition emit (e : Event) (s : ControlService D) : ControlService D :=
  mkControl (cs_store s) (cs_pending s) (cs_events s ++ [e]).

(** A database operation with its error mapped to a status. *)
Definition on_store {A} (to_status : error → Status) (m : M D error A) : handler A :=
  zoom cs_store set_store (map_err_m to_status m).
Definition read_store {A} (to_status : error → Status) (f : D → result error A) : handler A :=
  s ← get; lift (map_err to_status (f (cs_store s))).

Definition push_task (task : TaskRecord) : handler () :=
  on_store write_task_error (insert_task task);;
  modify (λ s, set_pending (<[tk_node_id task :=
    default [] (cs_pending s !! tk_node_id task) ++ [EvTask (to_proto_task task)]]>
    (cs_pending s)) s);;
  modify (emit (TaskPushed (tk_id task) (tk_node_id task) (tk_game_id task))).

(** One turn of [watch_loop]: the queue is drained, then sent; [sent] events go
    through before the receiver is gone ([None]: all of them). *)
Definition watch_step (node_id : N) (sent : option nat) :
    handler (list TaskEvent) :=
  s ← get;
  let events := default [] (cs_pending s !! node_id) in
  modify (set_pending (<[node_id := []]> (cs_pending s)));;
  mret (match sent with Some n => take n events | None => events end).

Definition queued (t : TaskRecord) : bool := bool_decide (tk_status t = "queued"%string).

Definition to_addr_record (a : Addr) : AddrRecord := mkAddr (pa_addr a) (pa_kind a) (pa_link a).
Definition of_addr_record (a : AddrRecord) : Addr := mkPAddr (ad_addr a) (ad_kind a) (ad_link a).

Definition register (now_token now_heartbeat : N) (req : RegisterRequest) : handler RegisterReply :=
  if negb (valid_node_type (rq_node_type req)) then throw bad_node_type else
  id ← on_store alloc_node_id_error next_node_id;
  let token := (dec now_token ++ "-" ++ dec id)%string in
  let node := mkNode id (rq_node_type req) (rq_endpoint_id req) token
                (map to_addr_record (rq_addrs req)) "online" now_heartbeat in
  on_store write_node_error (insert_node node);;
  tasks ← read_store query_tasks_error (λ d, tasks_for_node d id);
  mret (mkRegistered id token (map to_proto_task (filter queued tasks))).

Definition set_heartbeat (now : N) (n : NodeRecord) : NodeRecord :=
  mkNode (nd_id n) (nd_node_type n) (nd_endpoint_id n) (nd_token n) (nd_addrs n) "online" now.

Definition heartbeat (now_heartbeat now_reply node_id : N) : handler HeartbeatReply :=
  found ← read_store query_node_error (λ d, get_node d node_id);
  node ← lift (ok_or node_not_found found);
  on_store update_node_error (insert_node (set_heartbeat now_heartbeat node));;
  tasks ← read_store query_tasks_error (λ d, tasks_for_node d node_id);
  mret (mkHeartbeat now_reply (map tk_id (filter queued tasks))).

Definition report_task (report : TaskReport) : handler () :=
  on_store update_task_error
    (update_task_status (tr_task_id report) (tr_status report) (tr_error report));;
  modify (emit (TaskStatus (tr_task_id report) (tr_status report))).

Definition report_chunk (done : ChunkDone) : handler () :=
  on_store chunk_ledger_error
    (record_chunk_holder (cd_node_id done) (cd_game_id done) (cd_chunk_hash done)).

(** The loop body: holders that are gone or not online are skipped. *)
Definition peer_of (node : NodeRecord) : Peer :=
  mkPeer (nd_id node) (nd_endpoint_id node) (map of_addr_record (nd_addrs node))
    (bool_decide (nd_node_type node = "cafe"%string)).

Fixpoint collect_peers (d : D) (holders : list N) : result Status (list Peer) :=
  match holders with
  | [] => Ok []
  | id :: holders =>
    found ← map_err query_node_error (get_node d id);
    match found with
    | None => collect_peers d holders
    | Some node =>
      if negb (bool_decide (nd_status node = "online"%string)) then collect_peers d holders
      else peers ← collect_peers d holders; mret (peer_of node :: peers)
    end
  end.

Definition query_peers (query : PeerQuery) : handler (list Peer) :=
  s ← get;
  holders ← lift (map_err chunk_ledger_error
    (chunk_holders (cs_store s) (pq_game_id query) (pq_chunk_hash query)));
  let holders := if pq_limit query =? 0 then holders else take (N.to_nat (pq_limit query)) holders in
  lift (collect_peers (cs_store s) holders).

Definition control_get_version (game_id version : N) : handler VersionInfo :=
  manifest ← read_store version_query_error (λ d, get_version d game_id version);
  mret (match manifest with
        | None => mkVersionInfo false version []
        | Some manifest => mkVersionInfo true version manifest
        end).

Definition set_latest (version : N) (g : GameRecord) : GameRecord :=
  mkGame (gm_id g) (gm_name g) (gm_status g) (gm_current_version g) version.

Definition publish_version (req : PublishVersionRequest) : handler PublishVersionReply :=
  if (pv_game_id req =? 0) || (pv_version req =? 0) then
    throw (invalid_argument "game_id 与 version 必须大于 0") else
  if bool_decide (pv_manifest req = []) then throw (invalid_argument "版本清单不能为空") else
  on_store version_save_error (save_version (pv_game_id req) (pv_version req) (pv_manifest req));;
  s ← get;
  match get_game (cs_store s) (pv_game_id req) with
  | Ok (Some game) =>
    if gm_latest_version game <? pv_version req
    then ignore (on_store write_node_error (insert_game (set_latest (pv_version req) game)))
    else mret ()
  | _ => mret ()
  end;;
  mret (mkPublished true "").

End control.
