(* ===== verification/SchedControlSpec.v ===== *)
(** * SchedControlSpec: what the control plane guarantees

    Task events reach a node in the order they were pushed, each exactly once;
    registration hands out fresh identifiers; a heartbeat refreshes exactly one
    node; the peers returned for a chunk are online holders; a published version
    can be read back and never lowers the latest version of a game. *)

From S2P Require Import Prelude Bytes Text Redb SchedDb SchedDbSpec SchedControl.

Section control.
Context {D : Type} `{RedbLaws D, SchedJsonLaws}.
Implicit Types (s : ControlService D).

(** ** Database calls inside a handler *)

Lemma on_store_inv {A} f (m : M D error A) s s' r :
  on_store f m s = (s', r) →
  ∃ r', m (cs_store s) = (cs_store s', r') ∧ s' = set_store (cs_store s') s ∧ r = map_err f r'.
Proof.
  unfold on_store, zoom, map_err_m. destruct (m (cs_store s)) as [d r'] eqn:Hm.
  intros [= <- <-]. by exists r'.
Qed.

Lemma read_store_inv {A} f (g : D → result error A) s s' r :
  read_store f g s = (s', r) → s' = s ∧ r = map_err f (g (cs_store s)).
Proof. unfold read_store, get, lift, mbind, M_bind. by intros [= <- <-]. Qed.

(** ** The queue of task events *)

Definition queue s (n : N) : list TaskEvent := default [] (cs_pending s !! n).

Lemma push_task_ok task s s' r :
  push_task task s = (s', r) →
  match r with
  | Ok _ => (∀ n, queue s' n = queue s n ++
        (if decide (tk_node_id task = n) then [EvTask (to_proto_task task)] else [])) ∧
      tasks (cs_store s') = <[tk_id task := task]> (tasks (cs_store s)) ∧
      cs_events s' = cs_events s ++ [TaskPushed (tk_id task) (tk_node_id task) (tk_game_id task)]
  | Err _ => s' = s
  end.
Proof.
  intros Hp. unfold push_task in Hp.
  m_step Hp as s1 [] e Hi; apply on_store_inv in Hi as (r' & Hi & Hs1 & Hr).
  - injection Hp as <- <-. destruct r' as [[]|]; [|done].
    apply (insert_json_view TASKS _ task id id) in Hi as [Hv _]; [|done].
    rewrite Hs1. cbn. split_and!; [|done|done].
    intros n. unfold queue. cbn. case_decide as Hn.
    + subst n. by rewrite lookup_insert_eq.
    + rewrite lookup_insert_ne by done. by rewrite app_nil_r.
  - destruct r' as [|e']; [done|].
    apply (encode_then_ok task) in Hi as (x & _ & _ & Hi). apply insert_one_ok in Hi.
    rewrite Hs1, Hi. by destruct s.
Qed.

Lemma watch_step_ok n sent s s' r :
  watch_step n sent s = (s', r) →
  ∃ events, r = Ok events ∧ (∃ k, events = take k (queue s n)) ∧
    (sent = None → events = queue s n) ∧
    queue s' n = [] ∧ (∀ n', n' ≠ n → queue s' n' = queue s n') ∧ cs_store s' = cs_store s.
Proof.
  unfold watch_step, get, modify, mbind, M_bind, mret, M_ret. intros [= <- <-].
  eexists. split; [done|]. split_and!.
  - destruct sent as [k|]; [by exists k|]. exists (length (queue s n)). by rewrite firstn_all.
  - by intros ->.
  - unfold queue. cbn. by rewrite lookup_insert_eq.
  - intros n' Hne. unfold queue. cbn. by rewrite lookup_insert_ne.
  - done.
Qed.

(** The steps of the service that concern the queues, in any interleaving. *)
Inductive qstep := Push (task : TaskRecord) | Watch (n : N) (sent : option nat).

(** State after the step, what it enqueued and what it delivered, with nodes. *)
Definition run_qstep (q : qstep) s : ControlService D * list (N * TaskEvent) * list (N * TaskEvent) :=
  match q with
  | Push task =>
    let r := push_task task s in
    (r.1, if is_ok r.2 then [(tk_node_id task, EvTask (to_proto_task task))] else [], [])
  | Watch n sent =>
    let r := watch_step n sent s in
    (r.1, [], match r.2 with Ok es => map (pair n) es | Err _ => [] end)
  end.

Fixpoint run_qsteps (qs : list qstep) s :
    ControlService D * list (N * TaskEvent) * list (N * TaskEvent) :=
  match qs with
  | [] => (s, [], [])
  | q :: qs =>
    let '(s1, pushed1, got1) := run_qstep q s in
    let '(s2, pushed2, got2) := run_qsteps qs s1 in
    (s2, pushed1 ++ pushed2, got1 ++ got2)
  end.

Definition events_of (n : N) (l : list (N * TaskEvent)) : list TaskEvent :=
  map snd (filter (λ e, e.1 = n) l).

Lemma events_of_app n l k : events_of n (l ++ k) = events_of n l ++ events_of n k.
Proof. unfold events_of. by rewrite filter_app, map_app. Qed.

Lemma events_of_nil n : events_of n [] = [].
Proof. done. Qed.

Lemma events_of_pair n n' es :
  events_of n (map (pair n') es) = if decide (n' = n) then es else [].
Proof.
  unfold events_of. induction es as [|e es IH]; [by case_decide|]. cbn [map].
  destruct (decide (n' = n)) as [->|Hne].
  - rewrite filter_cons_True by done. cbn [map snd]. by rewrite IH.
  - by rewrite filter_cons_False by done.
Qed.

Lemma run_qstep_queue q s n :
  let '(s', pushed, got) := run_qstep q s in
  events_of n got `sublist_of` queue s n ∧
  (∀ rest, queue s' n = rest → events_of n got ++ rest `sublist_of` queue s n ++ events_of n pushed) ∧
  (match q with Watch _ (Some _) => False | _ => True end →
   queue s n ++ events_of n pushed = events_of n got ++ queue s' n).
Proof.
  destruct q as [task|n' sent]; cbn [run_qstep].
  - destruct (push_task task s) as [s' r] eqn:Hp. apply push_task_ok in Hp. cbn [fst snd].
    rewrite events_of_nil. destruct r as [[]|e]; cbn [is_ok].
    + destruct Hp as [Hq _]. rewrite !Hq.
      change [(tk_node_id task, EvTask (to_proto_task task))] with
        (map (pair (tk_node_id task)) [EvTask (to_proto_task task)]).
      rewrite events_of_pair. split_and!; [apply sublist_nil_l| |done].
      by intros rest <-.
    + subst s'. rewrite events_of_nil, app_nil_r.
      split_and!; [apply sublist_nil_l|by intros rest <-|done].
  - destruct (watch_step n' sent s) as [s' r] eqn:Hw.
    apply watch_step_ok in Hw as (es & -> & [k Hk] & Hall & Hq & Ho & _). cbn [fst snd].
    rewrite events_of_pair, events_of_nil, app_nil_r.
    destruct (decide (n' = n)) as [->|Hne].
    + rewrite Hq. split_and!.
      * subst es. apply sublist_take.
      * intros rest <-. rewrite app_nil_r. subst es. apply sublist_take.
      * destruct sent; [done|]. intros _. rewrite app_nil_r. symmetry. by apply Hall.
    + rewrite Ho by done. split_and!; [apply sublist_nil_l|by intros rest <-|done].
Qed.

(** C23: Task events are delivered in order, at most once and only after a
    successful push: what a node receives, followed by what is still queued for
    it, is a subsequence of what was queued and pushed; and when every send goes
    through it is exactly that sequence, so nothing is lost.  (Events drained
    for a receiver that has gone are the ones that can be missing.) *)
Theorem task_events_fifo qs s n :
  let '(s', pushed, got) := run_qsteps qs s in
  (events_of n got ++ queue s' n `sublist_of` queue s n ++ events_of n pushed) ∧
  (Forall (λ q, match q with Watch _ (Some _) => False | _ => True end) qs →
   events_of n got ++ queue s' n = queue s n ++ events_of n pushed).
Proof.
  revert s. induction qs as [|q qs IH]; intros s; cbn [run_qsteps].
  { by rewrite events_of_nil, app_nil_r. }
  pose proof (run_qstep_queue q s n) as Hq. destruct (run_qstep q s) as [[s1 p1] g1].
  destruct Hq as (_ & Hsub & Heq). specialize (IH s1).
  destruct (run_qsteps qs s1) as [[s2 p2] g2]. destruct IH as [IHs IHe].
  rewrite !events_of_app, <- !app_assoc. split.
  - trans (events_of n g1 ++ queue s1 n ++ events_of n p2); [by apply sublist_app|].
    rewrite !app_assoc. apply sublist_app; [|done]. by apply Hsub.
  - intros [Hq Hqs]%Forall_cons. rewrite IHe by done.
    rewrite app_assoc, <- Heq, <- app_assoc by done. done.
Qed.

(** ** Registration and heartbeats *)

Lemma tasks_for_node_ok d n ts :
  tasks_for_node d n = Ok ts → ∃ all, listing TASKS (tasks d) all ∧
    ts = filter (λ t, tk_node_id t = n) all.
Proof.
  intros Ht. apply bind_Ok_inv in Ht as (all & Hl & Ht). injection Ht as <-.
  exists all. split; [|done]. apply (iter_map_txn_ok _ _ _ TASKS) in Hl as (kvs & Hs & Hm).
  by apply (mapM_listing TASKS id d kvs all).
Qed.

Lemma get_node_view d k r : get_node d k = Ok r → r = nodes d !! k.
Proof. intros Hg. by apply (get_one_view _ _ NODES id) in Hg. Qed.

Lemma insert_node_ok (node : NodeRecord) d d' r :
  insert_node node d = (d', r) →
  match r with
  | Ok _ => nodes d' = <[nd_id node := node]> (nodes d) ∧
      ∀ t, t ≠ NODES → contents d' t = contents d t
  | Err _ => d' = d
  end.
Proof.
  intros Hi. destruct r as [[]|e].
  - by apply (insert_json_view NODES _ node id id) in Hi.
  - apply (encode_then_ok node) in Hi as (x & _ & _ & Hi). by apply insert_one_ok in Hi.
Qed.

Lemma get_game_view d k r : get_game d k = Ok r → r = games d !! k.
Proof. intros Hg. by apply (get_one_view _ _ GAMES id) in Hg. Qed.

Lemma get_version_view d g v r :
  get_version d g v = Ok r → r = view VERSIONS id d !! version_key g v.
Proof. intros Hg. by apply (get_one_view _ _ VERSIONS id) in Hg. Qed.

Lemma insert_game_ok (game : GameRecord) d d' r :
  insert_game game d = (d', r) →
  match r with
  | Ok _ => games d' = <[gm_id game := game]> (games d) ∧
      ∀ t, t ≠ GAMES → contents d' t = contents d t
  | Err _ => d' = d
  end.
Proof.
  intros Hi. destruct r as [[]|e].
  - by apply (insert_json_view GAMES _ game id id) in Hi.
  - by apply (insert_json_err GAMES _ game id) in Hi.
Qed.

Lemma chunk_holders_ledger d g h hs :
  chunk_holders d g h = Ok hs → hs = ledger d (chunk_key g h).
Proof.
  intros Hh. apply bind_Ok_inv in Hh as (v & Hv%(get_one_ok _ _ CHUNKS) & Hh). unfold ledger.
  assert (contents d CHUNKS !! chunk_key g h = v) as -> by (symmetry; exact Hv).
  destruct v as [text|]; [|by injection Hh as <-]. apply with_context_Ok_inv in Hh.
  by rewrite Hh.
Qed.

Lemma omap_length_le {A B} (f : A → option B) l : (length (omap f l) ≤ length l)%nat.
Proof. induction l as [|x l IH]; cbn; [lia|]. destruct (f x); cbn; lia. Qed.

Definition queued_for s (n : N) (ids : list N) : Prop :=
  ∃ all, listing TASKS (tasks (cs_store s)) all ∧
    ids = map tk_id (filter queued (filter (λ t, tk_node_id t = n) all)).

(** Registration: a node of another type than origin, idc and cafe is refused
    and nothing changes; a reply carries an identifier one above the last one of
    the counter, under which exactly the announced node is stored, online, with the
    token of the reply; no other node changes, and the initial tasks are the
    queued tasks recorded for that identifier, in order. *)
Theorem register_spec t1 t2 req s s' r :
  register t1 t2 req s = (s', r) →
  (valid_node_type (rq_node_type req) = false → s' = s ∧ r = Err bad_node_type) ∧
  (∀ reply, r = Ok reply →
     rp_node_id reply = add_u64 (counter_of (cs_store s) NEXT_NODE_ID) 1 ∧
     nodes (cs_store s') =
       <[rp_node_id reply := mkNode (rp_node_id reply) (rq_node_type req) (rq_endpoint_id req)
           (rp_token reply) (map to_addr_record (rq_addrs req)) "online" t2]>
         (nodes (cs_store s)) ∧
     cs_pending s' = cs_pending s ∧
     ∃ ids, queued_for s' (rp_node_id reply) ids ∧ map pt_id (rp_initial_tasks reply) = ids).
Proof.
  intros Hr. unfold register in Hr. destruct (valid_node_type _); cbn in Hr; last first.
  { injection Hr as <- <-. done. }
  split; [done|]. intros reply ->.
  m_step Hr as s1 nid e Hid. apply on_store_inv in Hid as (r1 & Hid & Hs1 & Hr1).
  destruct r1 as [nid'|]; [|done]. injection Hr1 as ->. apply next_id_ok in Hid as [Hn [_ Ho]].
  m_step Hr as s2 [] e Hin. apply on_store_inv in Hin as (r2 & Hin & Hs2 & Hr2).
  destruct r2 as [[]|]; [|done]. apply insert_node_ok in Hin as [Hv Hoth].
  m_step Hr as s3 ts e Ht. apply read_store_inv in Ht as [-> Ht]. injection Hr as <- <-. cbn.
  split_and!.
  - done.
  - rewrite Hv. cbn. f_equal. unfold nodes, view. by rewrite Ho.
  - rewrite Hs2, Hs1. done.
  - symmetry in Ht. apply map_err_Ok_inv, tasks_for_node_ok in Ht as (all & Hl & ->).
    eexists. split; [by exists all|]. rewrite map_map. done.
Qed.

(** A heartbeat of an unknown node is answered with NotFound and changes
    nothing; an accepted one stores the same node, online, with the new time, and
    changes no other record; it returns the identifiers of the node's queued
    tasks in order.  Whatever fails, no other node changes. *)
Theorem heartbeat_spec t1 t2 n s s' r :
  heartbeat t1 t2 n s = (s', r) →
  (∀ reply, r = Ok reply → ∃ node,
     nodes (cs_store s) !! n = Some node ∧
     nodes (cs_store s') =
       <[nd_id node := set_heartbeat t1 node]> (nodes (cs_store s)) ∧
     (∀ t, t ≠ NODES → contents (cs_store s') t = contents (cs_store s) t) ∧
     queued_for s' n (hb_task_ids reply)) ∧
  (∀ e, r = Err e → st_code e = NotFound → nodes (cs_store s) !! n = None ∧ s' = s) ∧
  (nodes (cs_store s) !! n = None → s' = s ∧ ¬ is_ok r).
Proof.
  intros Hh. unfold heartbeat in Hh.
  m_step Hh as s1 found e Hg; apply read_store_inv in Hg as [-> Hg]; symmetry in Hg; last first.
  { destruct (get_node (cs_store s) n) as [x|e0]; [done|]. injection Hg as <-.
    split_and!; [done| |by intros _; split; [|intros []]]. by intros e [= <-]. }
  apply map_err_Ok_inv, get_node_view in Hg. subst found.
  destruct (nodes (cs_store s) !! n) as [node|] eqn:Hv; last first.
  { injection Hh as <- <-. split_and!; [done|by intros|]. by intros _; split; [|intros []]. }
  rewrite (M_bind_ok (lift _) _ s s node) in Hh by done.
  m_step Hh as s3 [] e Hi; apply on_store_inv in Hi as (r' & Hi & Hs3 & Hr');
    destruct r' as [[]|e']; try done; last first.
  { injection Hr' as ->. split_and!; [done|by intros e0 [= <-]|done]. }
  apply insert_node_ok in Hi as [Hview Hoth].
  m_step Hh as s4 ts e Ht; apply read_store_inv in Ht as [-> Ht]; symmetry in Ht.
  - injection Hh as <- <-. split_and!; [|done|done]. intros reply [= <-].
    exists node. split_and!; [done..|].
    apply map_err_Ok_inv, tasks_for_node_ok in Ht as (all & Hall & ->). by exists all.
  - destruct (tasks_for_node (cs_store s3) n); [done|]. injection Ht as <-.
    split_and!; [done|by intros e1 [= <-]|done].
Qed.

(** ** Candidate peers *)

(** The records of the holders that are online, in the order of the list. *)
Definition online_of (m : gmap N NodeRecord) (ids : list N) : list NodeRecord :=
  omap (λ i, match m !! i with
             | Some n => if bool_decide (nd_status n = "online"%string) then Some n else None
             | None => None
             end) ids.

Lemma collect_peers_ok d ids ps :
  collect_peers d ids = Ok ps → ps = map peer_of (online_of (nodes d) ids).
Proof.
  revert ps. induction ids as [|i ids IH]; intros ps; cbn; [by intros [= <-]|].
  intros Hc. apply bind_Ok_inv in Hc as (found & Hg & Hc).
  apply map_err_Ok_inv, get_node_view in Hg. rewrite <- Hg.
  destruct found as [node|]; [|by apply IH].
  destruct (bool_decide _); cbn in Hc; [|by apply IH].
  apply bind_Ok_inv in Hc as (ps' & Hps & Hc). injection Hc as <-. cbn. by rewrite (IH ps').
Qed.

(** The peers returned for a chunk are, in ledger order, the online nodes
    among the holders that fall under the limit, with the addresses they
    registered and direct-only exactly for cafes.  The limit counts holders
    before the online test, so offline holders use it up. *)
Theorem query_peers_spec q s s' ps :
  query_peers q s = (s', Ok ps) →
  s' = s ∧
  ps = map peer_of (online_of (nodes (cs_store s))
         (let hs := ledger (cs_store s) (chunk_key (pq_game_id q) (pq_chunk_hash q)) in
          if pq_limit q =? 0 then hs else take (N.to_nat (pq_limit q)) hs)) ∧
  (∀ p, p ∈ ps → ∃ i node, i ∈ ledger (cs_store s) (chunk_key (pq_game_id q) (pq_chunk_hash q)) ∧
     nodes (cs_store s) !! i = Some node ∧ nd_status node = "online"%string ∧ p = peer_of node) ∧
  (pq_limit q ≠ 0 → lenN ps ≤ pq_limit q).
Proof.
  intros Hq. unfold query_peers in Hq.
  rewrite (M_bind_ok get _ s s s) in Hq by done.
  m_step Hq as s1 holders e Hh. unfold lift in Hh. injection Hh as <- Hh.
  apply map_err_Ok_inv in Hh.
  assert (holders = ledger (cs_store s) (chunk_key (pq_game_id q) (pq_chunk_hash q))) as Hhs.
  { by apply chunk_holders_ledger. }
  injection Hq as <- Hc. apply collect_peers_ok in Hc as ->. rewrite Hhs. cbv zeta.
  set (hs := ledger _ _). set (ids := if _ =? 0 then hs else _).
  assert (∀ i, i ∈ ids → i ∈ hs) as Hids.
  { unfold ids. destruct (pq_limit q =? 0); [done|]. intros i Hi.
    rewrite <- (take_drop (N.to_nat (pq_limit q)) hs), elem_of_app. by left. }
  split_and!; [done|done| |].
  - intros p Hp. apply list_elem_of_In, in_map_iff in Hp as (node & <- & Hin).
    apply list_elem_of_In, list_elem_of_omap in Hin as (i & Hi & Hn).
    destruct (nodes (cs_store s) !! i) as [node'|] eqn:Hl; [|done].
    case_bool_decide; [|done]. simplify_eq. exists i, node. auto.
  - intros Hl. unfold lenN. rewrite length_map. unfold ids.
    destruct (N.eqb_spec (pq_limit q) 0); [done|].
    assert (length (online_of (nodes (cs_store s)) (take (N.to_nat (pq_limit q)) hs)) ≤
      length (take (N.to_nat (pq_limit q)) hs))%nat as Hle by apply omap_length_le.
    rewrite length_take in Hle. lia.
Qed.

(** ** Publication of versions *)

(** Publishing: an empty manifest or a zero identifier is refused without
    effect; an accepted publication stores the manifest under its version, and
    the latest version of a known game becomes the maximum of the old one and the
    published one (or stays, if that last write fails); no game's latest version
    ever decreases and nothing else of a game changes. *)
Theorem publish_version_spec req s s' r :
  publish_version req s = (s', r) →
  (pv_game_id req = 0 ∨ pv_version req = 0 ∨ pv_manifest req = [] → s' = s ∧ ¬ is_ok r) ∧
  (is_ok r → ∀ res, get_version (cs_store s') (pv_game_id req) (pv_version req) = Ok res →
     res = Some (pv_manifest req)) ∧
  (∀ g, (∀ k h, games (cs_store s) !! k = Some h → gm_id h = k) →
     match games (cs_store s) !! g, games (cs_store s') !! g with
     | Some old, Some new => new = old ∨
         g = pv_game_id req ∧ gm_latest_version old < pv_version req ∧
         new = set_latest (pv_version req) old
     | None, None => True
     | _, _ => False
     end).
Proof.
  intros Hp. unfold publish_version in Hp.
  destruct ((pv_game_id req =? 0) || (pv_version req =? 0)) eqn:Hz.
  { injection Hp as <- <-. split_and!; [by intros _; split; [|intros []]|done|].
    intros g _. destruct (games _ !! g); auto. }
  apply orb_false_iff in Hz as [Hz1%N.eqb_neq Hz2%N.eqb_neq].
  case_bool_decide as Hnil.
  { injection Hp as <- <-. split_and!; [by intros _; split; [|intros []]|done|].
    intros g _. destruct (games _ !! g); auto. }
  m_step Hp as s1 [] e Hsv; apply on_store_inv in Hsv as (r1 & Hsv & Hs1 & Hr1); last first.
  { destruct r1 as [|e1]; [done|]. apply (encode_then_ok (pv_manifest req)) in Hsv as (x & _ & _ & Hsv).
    apply insert_one_ok in Hsv.
    assert (s' = s) as -> by (rewrite Hs1, Hsv; by destruct s).
    split_and!; [naive_solver|done|]. intros g _. destruct (games _ !! g); auto. }
  destruct r1 as [[]|]; [|done].
  apply (insert_json_view VERSIONS _ (pv_manifest req) id id) in Hsv as [Hv Ho]; [|done].
  assert (games (cs_store s1) = games (cs_store s)) as Hg1.
  { unfold games, view. by rewrite Ho. }
  rewrite (M_bind_ok get _ s1 s1 s1) in Hp by done.
  assert (∃ s2, s' = s2 ∧ r = Ok (mkPublished true "") ∧
    (s2 = s1 ∨ ∃ game, games (cs_store s1) !! pv_game_id req = Some game ∧
       gm_latest_version game < pv_version req ∧
       ((contents (cs_store s2) VERSIONS = contents (cs_store s1) VERSIONS ∧
         games (cs_store s2) = <[gm_id game := set_latest (pv_version req) game]>
           (games (cs_store s1)))))) as (s2 & -> & -> & Hs2).
  { destruct (get_game (cs_store s1) (pv_game_id req)) as [[game|]|e] eqn:Hgame.
    - apply get_game_view in Hgame. destruct (N.ltb_spec (gm_latest_version game) (pv_version req)).
      + unfold ignore, mbind, M_bind, mret, M_ret in Hp.
        destruct (on_store _ _ s1) as [s2 r2] eqn:Hi. injection Hp as <- <-. cbn.
        exists s2. split_and!; [done..|]. apply on_store_inv in Hi as (r' & Hi & Hs2 & _).
        apply insert_game_ok in Hi. destruct r' as [u|e'].
        * right. exists game. destruct Hi as [Hi1 Hi2]. split_and!; [done..| |done].
          by rewrite Hi2.
        * left. rewrite Hs2, Hi. by destruct s1.
      + injection Hp as <- <-. exists s1. auto.
    - injection Hp as <- <-. exists s1. auto.
    - injection Hp as <- <-. exists s1. auto. }
  split_and!; [naive_solver| |].
  - intros _ res Hres. apply get_version_view in Hres. rewrite Hres.
    assert (view VERSIONS id (cs_store s2) = view (A:=list byte) VERSIONS id (cs_store s1)) as ->.
    { unfold view. destruct Hs2 as [->|(game & _ & _ & -> & _)]; done. }
    rewrite Hv. apply lookup_insert_eq.
  - intros g Hids. rewrite <- Hg1 in Hids |- *. destruct Hs2 as [->|(game & Hgm & Hlt & _ & Hg2)].
    + destruct (games (cs_store s1) !! g); auto.
    + rewrite Hg2. specialize (Hids _ _ Hgm) as ->.
      destruct (decide (g = pv_game_id req)) as [->|Hne].
      * rewrite Hgm, lookup_insert_eq. auto.
      * rewrite lookup_insert_ne by done. destruct (games (cs_store s1) !! g); auto.
Qed.

End control.

(** ** Examples: the in-memory database *)

#[local] Existing Instance sched_json.
#[local] Existing Instance sched_json_laws.

Definition ctl0 : ControlService MemDb := ControlService_new mem_sched.
Definition task_a : TaskRecord := mkTask 1 4 7 2 "UPDATE" [] "queued" "".
Definition task_b : TaskRecord := mkTask 2 4 7 3 "DOWNLOAD" [] "queued" "".

Lemma task_events_fifo_witness :
  events_of 4 (run_qsteps [Push task_a; Push task_b; Watch 4 None] ctl0).2 =
  [EvTask (to_proto_task task_a); EvTask (to_proto_task task_b)].
Proof.
  pose proof (task_events_fifo [Push task_a; Push task_b; Watch 4 None] ctl0 4) as Hf.
  destruct (run_qsteps [Push task_a; Push task_b; Watch 4 None] ctl0) as [[s' pushed] got] eqn:Hr.
  destruct Hf as [_ Hf]. cbn [snd].
  assert (queue s' 4 = []) as Hq.
  { change s' with (s', pushed, got).1.1. rewrite <- Hr. vm_compute. reflexivity. }
  assert (events_of 4 pushed = [EvTask (to_proto_task task_a); EvTask (to_proto_task task_b)]) as Hp.
  { change pushed with (s', pushed, got).1.2. rewrite <- Hr. vm_compute. reflexivity. }
  rewrite Hq, app_nil_r, Hp in Hf. apply Hf. repeat constructor.
Defined.

Definition reg_req : RegisterRequest :=
  mkRegister "cafe" "endpoint-1" [mkPAddr "10.0.0.1:1" "config" "wan"] "".

Lemma register_spec_witness :
  nodes (cs_store (register 100 100 reg_req ctl0).1) !! 1 =
  Some (mkNode 1 "cafe" "endpoint-1" "100-1" [mkAddr "10.0.0.1:1" "config" "wan"] "online" 100).
Proof.
  destruct (register 100 100 reg_req ctl0) as [s' r] eqn:Hr.
  destruct (register_spec 100 100 reg_req ctl0 s' r Hr) as [_ Hs].
  assert (r = Ok (mkRegistered 1 "100-1" [])) as Hok.
  { change r with (s', r).2. rewrite <- Hr. vm_compute. reflexivity. }
  destruct (Hs _ Hok) as (_ & Hn & _). cbn [fst]. rewrite Hn. cbn. apply lookup_insert_eq.
Defined.

Definition ctl1 : ControlService MemDb := (register 100 100 reg_req ctl0).1.

Lemma heartbeat_spec_witness :
  (heartbeat 250 250 9 ctl1).1 = ctl1 ∧ ¬ is_ok (heartbeat 250 250 9 ctl1).2 ∧
  is_ok (heartbeat 250 250 1 ctl1).2.
Proof.
  destruct (heartbeat_spec 250 250 9 ctl1 _ _ (surjective_pairing (heartbeat 250 250 9 ctl1)))
    as (_ & _ & Hn).
  destruct Hn as [Hs Hr]; [vm_compute; reflexivity|]. split_and!; [exact Hs|exact Hr|].
  vm_compute. done.
Defined.

(** Node 1 is offline and holds the chunk first; with a limit of one it hides
    node 2, which is online and holds the chunk too. *)
Definition ctl_peers : ControlService MemDb :=
  let node i st := mkNode i "idc" "ep" "" [] st 0 in
  set_store (record_chunk_holder 2 7 [x01] (record_chunk_holder 1 7 [x01]
    (insert_node (node 2 "online"%string) (insert_node (node 1 "offline"%string)
      mem_sched).1).1).1).1 ctl0.

Lemma query_peers_spec_witness :
  (∃ ps, query_peers (mkQuery 7 [x01] 1) ctl_peers = (ctl_peers, Ok ps) ∧ lenN ps ≤ 1 ∧ ps = []) ∧
  is_ok (query_peers (mkQuery 7 [x01] 0) ctl_peers).2 ∧
  length (default [] (ok (query_peers (mkQuery 7 [x01] 0) ctl_peers).2)) = 1%nat.
Proof.
  split; [|split; vm_compute; done].
  assert (query_peers (mkQuery 7 [x01] 1) ctl_peers = (ctl_peers, Ok [])) as Hq
    by (vm_compute; reflexivity).
  exists []. split; [exact Hq|]. split; [|reflexivity].
  destruct (query_peers_spec _ _ _ _ Hq) as (_ & _ & _ & Hl). apply Hl. discriminate.
Defined.

Definition ctl_game : ControlService MemDb :=
  set_store (insert_game (mkGame 7 "g" "on" 1 1) mem_sched).1 ctl0.

Lemma publish_version_spec_witness :
  get_version (cs_store (publish_version (mkPublish 7 3 [x01]) ctl_game).1) 7 3 = Ok (Some [x01]) ∧
  games (cs_store (publish_version (mkPublish 7 3 [x01]) ctl_game).1) !! 7 =
    Some (mkGame 7 "g" "on" 1 3).
Proof.
  destruct (publish_version_spec (mkPublish 7 3 [x01]) ctl_game _ _
    (surjective_pairing (publish_version (mkPublish 7 3 [x01]) ctl_game))) as (_ & Hv & _).
  split; [|vm_compute; reflexivity].
  destruct (get_version (cs_store (publish_version (mkPublish 7 3 [x01]) ctl_game).1) 7 3)
    as [res|e] eqn:Hg.
  - f_equal. apply Hv; [vm_compute; done|exact Hg].
  - exfalso. vm_compute in Hg. discriminate.
Defined.
