(* ===== verification/Download.v ===== *)
(** * Download: the download manager (crates/agent/src/download.rs)

    Which chunks are still to fetch and which peer has which: the unique
    round-robin assignment, the refill after a peer fails, the removal of
    finished chunks, and the stable ordering of candidate sources. *)

From S2P Require Import Prelude Bytes.

(** [peers.sort_by_key(|(_, rtt)| *rtt)] *)
Definition sort_by_rtt {T} (peers : list (T * N)) : list (T * N) :=
  sort_by (λ a b : T * N, a.2 <=? b.2) peers.

Record DownloadManager := mkManager {
  dm_pending : gset hash32;
  dm_assigned : gmap nat (list hash32)
}.

Definition new (chunks : list hash32) : DownloadManager :=
  mkManager (list_to_set chunks) ∅.

Definition pending (s : DownloadManager) : gset hash32 := dm_pending s.

(** The [for (index, hash) in sorted.enumerate()] loop; [index % 0] panics. *)
Fixpoint assign_loop (peer_count index : nat) (sorted : list hash32)
    (plan : gmap nat (list hash32)) : option (gmap nat (list hash32)) :=
  match sorted with
  | [] => Some plan
  | hash :: sorted =>
    if (peer_count =? 0)%nat then None else
    let peer := (index mod peer_count)%nat in
    assign_loop peer_count (S index) sorted
      (<[peer := default [] (plan !! peer) ++ [hash]]> plan)
  end.

(** [None] is the panic; the plan is returned and remembered. *)
Definition assign (peer_count : nat) (s : DownloadManager) :
    option (DownloadManager * gmap nat (list hash32)) :=
  match assign_loop peer_count 0 (sort_hashes (elements (dm_pending s))) ∅ with
  | None => None
  | Some plan => Some (mkManager ∅ plan, plan)
  end.

Definition peer_failed (peer : nat) (s : DownloadManager) : DownloadManager :=
  match dm_assigned s !! peer with
  | Some chunks => mkManager (dm_pending s ∪ list_to_set chunks) (delete peer (dm_assigned s))
  | None => s
  end.

Definition chunk_done (hash : hash32) (s : DownloadManager) : DownloadManager :=
  mkManager (dm_pending s) (filter (λ h, h ≠ hash) <$> dm_assigned s).

(** ** The assignment *)

(** The elements of [l] at the indices congruent to [p], counting from [i]. *)
Fixpoint every (n p i : nat) (l : list hash32) : list hash32 :=
  match l with
  | [] => []
  | h :: l => if decide ((i mod n)%nat = p) then h :: every n p (S i) l else every n p (S i) l
  end.

Lemma assign_loop_spec n i l plan :
  n ≠ 0%nat →
  ∃ plan', assign_loop n i l plan = Some plan' ∧
    (∀ p, default [] (plan' !! p) = default [] (plan !! p) ++ every n p i l) ∧
    (∀ p, is_Some (plan' !! p) → is_Some (plan !! p) ∨ (p < n)%nat).
Proof.
  intros Hn. revert i plan. induction l as [|h l IH]; intros i plan; cbn.
  { exists plan. split_and!; [done| |by left]. intros p. by rewrite app_nil_r. }
  destruct (Nat.eqb_spec n 0); [done|].
  destruct (IH (S i) (<[(i mod n)%nat := default [] (plan !! (i mod n)%nat) ++ [h]]> plan))
    as (plan' & -> & Hp & Hk).
  exists plan'. split_and!; [done| |].
  - intros p. rewrite Hp. case_decide as Hi; subst.
    + rewrite lookup_insert_eq. cbn. by rewrite <- app_assoc.
    + by rewrite lookup_insert_ne.
  - intros p Hs%Hk. rewrite lookup_insert_is_Some' in Hs.
    destruct Hs as [[<-|?]|?]; [right|by left|by right].
    by apply Nat.mod_upper_bound.
Qed.

Lemma elem_of_every n p i l h :
  h ∈ every n p i l ↔ ∃ j, l !! j = Some h ∧ ((i + j) mod n = p)%nat.
Proof.
  revert i. induction l as [|x l IH]; intros i; cbn.
  { rewrite elem_of_nil. split; [done|]. by intros (j & ? & _). }
  assert ((∃ j, (x :: l) !! j = Some h ∧ ((i + j) mod n = p)%nat) ↔
    (x = h ∧ (i mod n = p)%nat) ∨ ∃ j, l !! j = Some h ∧ ((S i + j) mod n = p)%nat) as ->.
  { split.
    - intros ([|j] & Hj & Hm); cbn in Hj.
      + left. rewrite Nat.add_0_r in Hm. split; [congruence|done].
      + right. exists j. split; [done|]. by rewrite <- plus_n_Sm in Hm.
    - intros [[-> Hm]|(j & Hj & Hm)].
      + exists 0%nat. by rewrite Nat.add_0_r.
      + exists (S j). split; [done|]. by rewrite <- plus_n_Sm. }
  case_decide as Hd.
  - rewrite elem_of_cons, IH. assert (h = x ↔ x = h) as -> by (split; congruence). tauto.
  - rewrite IH. tauto.
Qed.

Lemma every_sublist n p i l : every n p i l `sublist_of` l.
Proof.
  revert i. induction l as [|x l IH]; intros i; cbn; [done|].
  case_decide; [by constructor|by apply sublist_cons].
Qed.

Lemma every_NoDup n p i l : NoDup l → NoDup (every n p i l).
Proof. intros. eapply sublist_NoDup; [|apply every_sublist]. done. Qed.

(** How many of [len] consecutive indices, from 0, a residue gets. *)
Lemma every_length n p i l :
  (p < n)%nat →
  (length (every n p i l) + i / n + (if decide (p < i mod n) then 1 else 0) =
   (i + length l) / n + (if decide (p < (i + length l) mod n) then 1 else 0))%nat.
Proof.
  intros Hp. revert i. induction l as [|x l IH]; intros i; cbn [every length].
  { by rewrite Nat.add_0_r. }
  specialize (IH (S i)). replace (i + S (length l))%nat with (S i + length l)%nat by lia.
  rewrite <- IH. clear IH.
  assert ((S i) / n = i / n + (if decide (S (i mod n) = n) then 1 else 0) ∧
    (S i) mod n = if decide (S (i mod n) = n) then 0 else S (i mod n))%nat as [-> ->].
  { pose proof (Nat.div_mod_eq i n) as He. pose proof (Nat.mod_upper_bound i n ltac:(lia)).
    case_decide as Hs.
    - assert (S i = n * (i / n + 1) + 0)%nat as Hsi by lia.
      split; [symmetry; apply (Nat.div_unique _ _ _ 0); lia|
              symmetry; apply (Nat.mod_unique _ _ (i / n + 1)); lia].
    - split; [rewrite Nat.add_0_r; symmetry; apply (Nat.div_unique _ _ _ (S (i mod n))); lia|
              symmetry; apply (Nat.mod_unique _ _ (i / n)); lia]. }
  pose proof (Nat.mod_upper_bound i n ltac:(lia)).
  repeat case_decide; cbn [length]; lia.
Qed.

Lemma every_balanced n p q l :
  (p < n)%nat → (q < n)%nat →
  (length (every n p 0 l) ≤ S (length (every n q 0 l)))%nat.
Proof.
  intros Hp Hq. pose proof (every_length n p 0 l Hp). pose proof (every_length n q 0 l Hq).
  rewrite Nat.Div0.div_0_l, Nat.Div0.mod_0_l in *. repeat case_decide; lia.
Qed.

Lemma assign_spec n s :
  n ≠ 0%nat → ∃ plan, assign n s = Some (mkManager ∅ plan, plan) ∧
    (∀ p, default [] (plan !! p) = every n p 0 (sort_hashes (elements (dm_pending s)))) ∧
    (∀ p, is_Some (plan !! p) → (p < n)%nat).
Proof.
  intros Hn. destruct (assign_loop_spec n 0 (sort_hashes (elements (dm_pending s))) ∅ Hn)
    as (plan & Hl & Hp & Hk).
  exists plan. unfold assign. rewrite Hl. split_and!; [done| |].
  - intros p. by rewrite Hp, lookup_empty.
  - intros p Hs%Hk. rewrite lookup_empty in Hs. by destruct Hs as [[]|].
Qed.

(** An assignment among at least one peer gives every pending chunk to exactly
    one peer, at exactly one place of its list, uses only the peers there are, and
    loads any two peers equally up to one chunk; nothing stays pending.  With no
    peer it panics exactly when something is pending. *)
Theorem assign_partition n s :
  (n ≠ 0%nat → ∃ plan, assign n s = Some (mkManager ∅ plan, plan) ∧
     (∀ p, is_Some (plan !! p) → (p < n)%nat) ∧
     (∀ h, h ∈ dm_pending s ↔ ∃ p, h ∈ default [] (plan !! p)) ∧
     (∀ p q i j h, default [] (plan !! p) !! i = Some h → default [] (plan !! q) !! j = Some h →
        p = q ∧ i = j) ∧
     (∀ p q, (p < n)%nat → (q < n)%nat →
        (length (default [] (plan !! p)) ≤ S (length (default [] (plan !! q))))%nat)) ∧
  (n = 0%nat → assign n s = None ↔ dm_pending s ≠ ∅).
Proof.
  set (l := sort_hashes (elements (dm_pending s))).
  assert (NoDup l) as Hnd by apply NoDup_sort_hashes, NoDup_elements.
  assert (∀ h, h ∈ l ↔ h ∈ dm_pending s) as Hl.
  { intros h. unfold l. by rewrite elem_of_sort_hashes, elem_of_elements. }
  split.
  - intros Hn. destruct (assign_spec n s Hn) as (plan & Ha & Hp & Hk). exists plan.
    fold l in Hp. split_and!; [done..| | |].
    + intros h. rewrite <- Hl. setoid_rewrite Hp. setoid_rewrite elem_of_every. split.
      * intros [j Hj]%list_elem_of_lookup_1. exists ((0 + j) mod n)%nat, j. done.
      * intros (p & j & Hj & _). by eapply list_elem_of_lookup_2.
    + intros p q i j h. rewrite !Hp. intros Hi Hj.
      apply list_elem_of_lookup_2 in Hi as Hi'. apply list_elem_of_lookup_2 in Hj as Hj'.
      apply elem_of_every in Hi' as (a & Ha1 & Ha2), Hj' as (b & Hb1 & Hb2).
      assert (a = b) as -> by by eapply NoDup_lookup. assert (p = q) as -> by congruence.
      split; [done|]. eapply NoDup_lookup; [|exact Hi|exact Hj]. by apply every_NoDup.
    + intros p q Hpn Hqn. rewrite !Hp. by apply every_balanced.
  - intros ->. unfold assign. fold l. destruct l as [|x l'] eqn:Heq; cbn.
    + split; [done|]. intros Hne. exfalso. apply Hne. apply set_eq. intros h.
      rewrite <- Hl. rewrite elem_of_nil. set_solver.
    + split; [|done]. intros _ He. assert (x ∈ dm_pending s) as Hx by (apply Hl; by left).
      rewrite He in Hx. set_solver.
Qed.

(** ** Accounting *)

(** The manager still knows of the chunk. *)
Definition held (s : DownloadManager) (h : hash32) : Prop :=
  h ∈ dm_pending s ∨ ∃ p l, dm_assigned s !! p = Some l ∧ h ∈ l.

Inductive event := Assign (peer_count : nat) | Failed (peer : nat) | Done (hash : hash32).

Definition step (e : event) (s : DownloadManager) : DownloadManager :=
  match e with
  | Assign n => match assign n s with Some (s', _) => s' | None => s end
  | Failed p => peer_failed p s
  | Done h => chunk_done h s
  end.

Definition run (es : list event) (s : DownloadManager) : DownloadManager :=
  foldl (λ s e, step e s) s es.

(** Every assignment comes when no peer has unfinished chunks. *)
Fixpoint well_timed (es : list event) (s : DownloadManager) : Prop :=
  match es with
  | [] => True
  | e :: es =>
    match e with
    | Assign n => ∀ p l, dm_assigned s !! p = Some l → l = []
    | _ => True
    end ∧ well_timed es (step e s)
  end.

Lemma held_peer_failed s p h : held (peer_failed p s) h ↔ held s h.
Proof.
  unfold peer_failed. destruct (dm_assigned s !! p) as [l|] eqn:Hp; [|done].
  unfold held. cbn. rewrite elem_of_union, elem_of_list_to_set. split.
  - intros [[Hh|Hh]|(q & l' & Hq & Hh)]; [by left|right; by exists p, l|].
    apply lookup_delete_Some in Hq as [_ Hq]. right. by exists q, l'.
  - intros [Hh|(q & l' & Hq & Hh)]; [by left; left|].
    destruct (decide (q = p)) as [->|Hne]; [left; right; congruence|].
    right. exists q, l'. split; [|done]. by rewrite lookup_delete_ne.
Qed.

Lemma held_chunk_done s h h' :
  held (chunk_done h' s) h ↔ held s h ∧ (h ≠ h' ∨ h ∈ dm_pending s).
Proof.
  unfold held, chunk_done. cbn. split.
  - intros [Hh|(p & l & Hp & Hh)]; [tauto|].
    rewrite lookup_fmap in Hp. destruct (dm_assigned s !! p) as [l'|] eqn:Hl; [|done].
    cbn in Hp. simplify_eq. apply list_elem_of_filter in Hh as [Hne Hh].
    split; [right; by exists p, l'|by left].
  - intros [[Hh|(p & l & Hp & Hh)] Hne]; [by left|]. destruct Hne as [Hne|Hh']; [|by left].
    right. exists p, (filter (λ h, h ≠ h') l). rewrite lookup_fmap, Hp.
    split; [done|]. by apply list_elem_of_filter.
Qed.

Lemma held_assign n s s' plan h :
  assign n s = Some (s', plan) → held s' h ↔ h ∈ dm_pending s.
Proof.
  intros Ha. set (l := sort_hashes (elements (dm_pending s))).
  assert (h ∈ dm_pending s ↔ h ∈ l) as ->.
  { unfold l. by rewrite elem_of_sort_hashes, elem_of_elements. }
  destruct (decide (n = 0%nat)) as [->|Hn].
  - unfold assign in Ha. fold l in Ha. destruct l as [|x l']; [|done].
    cbn in Ha. simplify_eq. unfold held. cbn. rewrite elem_of_nil. split; [|done].
    intros [Hh|(p & l & Hl & _)]; [by apply elem_of_empty in Hh|by rewrite lookup_empty in Hl].
  - destruct (assign_spec n s Hn) as (plan' & Ha' & Hp & _). rewrite Ha in Ha'. simplify_eq.
    fold l in Hp. unfold held. cbn. split.
    + intros [Hh|(p & l' & Hl & Hh)]; [by apply elem_of_empty in Hh|].
      specialize (Hp p). rewrite Hl in Hp. cbn in Hp. subst.
      apply elem_of_every in Hh as (j & Hj & _). by eapply list_elem_of_lookup_2.
    + intros [j Hj]%list_elem_of_lookup_1. right. specialize (Hp (j mod n)%nat).
      assert (h ∈ every n (j mod n) 0 l) as Hin.
      { apply elem_of_every. by exists j. }
      rewrite <- Hp in Hin. destruct (plan' !! (j mod n)%nat) as [l'|] eqn:Hl.
      * by exists (j mod n)%nat, l'.
      * by apply elem_of_nil in Hin.
Qed.

(** C32: No chunk is lost: as long as every assignment comes when no peer has
    unfinished chunks, a chunk the manager knows of is still pending or assigned
    after any sequence of assignments, failures and completions, unless it was
    completed.  An assignment, however, keeps exactly what was pending: what was
    assigned to a peer and is unfinished is forgotten. *)
Theorem no_chunk_lost (es : list event) s h :
  (well_timed es s → held s h → held (run es s) h ∨ Done h ∈ es) ∧
  (∀ n s' plan, assign n s = Some (s', plan) → held s' h ↔ h ∈ dm_pending s).
Proof.
  split; [|intros; by eapply held_assign].
  revert s. induction es as [|e es IH]; intros s; [by left|]. cbn. intros [He Hes] Hh.
  assert (held (step e s) h ∨ e = Done h) as Hor; cycle 1.
  { destruct Hor as [Hh'|Hdone]; [|subst e; right; by left].
    destruct (IH _ Hes Hh') as [?|?]; [by left|right; by right]. }
  destruct e as [n|p|h']; cbn.
  - left. destruct (assign n s) as [[s' plan]|] eqn:Ha; [|done].
    apply (held_assign n s s' plan); [done|]. destruct Hh as [Hh|(p & l & Hl & Hh)]; [done|].
    rewrite (He p l Hl) in Hh. by apply elem_of_nil in Hh.
  - left. by apply held_peer_failed.
  - destruct (decide (h = h')) as [->|Hne]; [by right|]. left. apply held_chunk_done. tauto.
Qed.

Definition wit_manager : DownloadManager := new [hash_rep x01; hash_rep x02; hash_rep x03].

Lemma assign_partition_witness :
  ∃ plan, assign 2 wit_manager = Some (mkManager ∅ plan, plan) ∧
    plan !! 0%nat = Some [hash_rep x01; hash_rep x03] ∧
    (length (default [] (plan !! 0%nat)) ≤ S (length (default [] (plan !! 1%nat))))%nat.
Proof.
  destruct (assign_partition 2 wit_manager) as [Ha _].
  destruct (Ha ltac:(lia)) as (plan & Hp & _ & _ & _ & Hb). exists plan.
  split; [exact Hp|]. split; [|apply Hb; lia].
  assert (plan = default ∅ (snd <$> assign 2 wit_manager)) as -> by (rewrite Hp; reflexivity).
  apply (proj1 (bool_decide_eq_true _)). vm_compute. reflexivity.
Defined.

(** A second assignment while peer 1 still has its chunk forgets that chunk. *)
Lemma no_chunk_lost_witness :
  let s := run [Assign 2; Failed 0] wit_manager in
  held s (hash_rep x02) ∧ ¬ held (run [Assign 1] s) (hash_rep x02) ∧
  held (run [Assign 2; Failed 0] wit_manager) (hash_rep x03).
Proof.
  assert (∀ h, bool_decide (h ∈ dm_pending wit_manager) = true → held wit_manager h) as Hpend.
  { intros h Hh. left. by apply bool_decide_eq_true in Hh. }
  assert (∀ h, bool_decide (h ∈ dm_pending wit_manager) = true →
    held (run [Assign 2; Failed 0] wit_manager) h) as Hs.
  { intros h Hh. destruct (no_chunk_lost [Assign 2; Failed 0] wit_manager h) as [Hl _].
    destruct Hl as [Hl|Hl]; [|by apply Hpend|exact Hl|].
    - split; [intros p l Hl; cbn in Hl; by rewrite lookup_empty in Hl|done].
    - exfalso. apply elem_of_cons in Hl as [[=]|[[=]|Hl%elem_of_nil]%elem_of_cons]. done. }
  split_and!; [by apply Hs| |by apply Hs].
  set (s := run [Assign 2; Failed 0] wit_manager).
  destruct (assign 1 s) as [[s' plan]|] eqn:Ha; [|vm_compute in Ha; discriminate].
  destruct (no_chunk_lost [] s (hash_rep x02)) as [_ Hf].
  assert (run [Assign 1] s = s') as ->.
  { change (match assign 1 s with Some (s', _) => s' | None => s end = s'). by rewrite Ha. }
  rewrite (Hf 1%nat s' plan Ha). assert (bool_decide (hash_rep x02 ∈ dm_pending s) = false) as Hb
    by (vm_compute; reflexivity).
  by apply bool_decide_eq_false in Hb.
Defined.
