(* ===== verification/Upload.v ===== *)
(** * Upload: the upload service of the origin node (crates/origin/src/server.rs)

    The state shared by the services of one origin process (the opened pack
    stores, the files of the data directory, the published manifests, the
    scheduler it talks to) and one definition per handler.  [append_chunk],
    [open] and [contains] are those of Storage, [decode] and [chunk_set] those
    of Manifest; BLAKE3, the transport to the scheduler and two calls of
    [std::fs] are parameters. *)

From S2P Require Import Prelude Bytes Text FileIO Redb Manifest Storage SchedControl.

(** ** Messages of upload.proto *)

Record ChunkQuery := mkChunkQuery { cq_game_id : N; cq_chunk_hashes : list (list byte) }.
Record ChunkExists := mkChunkExists { ce_existing_hashes : list (list byte) }.
Record UploadChunk := mkUploadChunk {
  uc_game_id : N; uc_chunk_hash : list byte; uc_data : list byte; uc_seq : N
}.
Record UploadAck := mkAck { ua_chunk_hash : list byte; ua_ok : bool; ua_error : string }.
Record CommitRequest := mkCommit {
  cr_game_id : N; cr_version : N; cr_manifest : list byte; cr_manifest_hash : list byte
}.
Record CommitReply := mkCommitReply { cp_published : bool; cp_error : string }.

(** ** Interfaces *)

(** [std::fs::create_dir_all] and [std::fs::write] of a published manifest; a
    write that fails may leave any file behind. *)
Class PublishFs := {
  create_dir_all : N → result error ();
  fs_write : option (list byte) → list byte → option (list byte) * result error ()
}.
Class PublishFsLaws `{!PublishFs} : Prop := {
  fs_write_ok old bs new : fs_write old bs = (new, Ok ()) → new = Some bs
}.

(** The scheduler as its client sees it: whether the n-th attempt to connect
    succeeds in time, and the remote call. *)
Class SchedulerClient (C : Type) := {
  sc_connect : C → string → nat → bool;
  sc_publish : string → PublishVersionRequest → M C error PublishVersionReply
}.

(** ** Errors *)

Definition ensure_publish_ok (ok : bool) (error : string) : result Prelude.error () :=
  if negb ok then bail ("调度中心拒绝发布: " ++ error)%string else Ok ().

Definition open_store_error : error → Status := internal "打开块库失败: ".
Definition query_chunk_error : error → Status := internal "查询块失败: ".
Definition create_publish_dir_error : error → Status := internal "创建发布目录失败: ".
Definition write_manifest_error : error → Status := internal "写入版本清单失败: ".
Definition bad_hash_len : Status := invalid_argument "块哈希必须为 32 字节".
Definition bad_manifest_hash_len : Status := invalid_argument "manifest_hash 必须为 32 字节".
Definition decode_manifest_error (err : error) : Status :=
  invalid_argument ("版本清单解析失败: " ++ err_display err)%string.
Definition bad_game_id : Status := invalid_argument "game_id 必须大于 0".

Definition append_ack (r : result error (N * N)) (hash : hash32) : UploadAck :=
  match r with
  | Ok _ => mkAck (hash_bytes hash) true ""
  | Err err => mkAck (hash_bytes hash) false (err_display err)
  end.

(** ** The state of an origin process

    [or_disk] is what the data directory held for a game when the process
    started, [or_packs] the handles that [UploadService] and the data plane
    share, [or_published] the files published/<version>.gameindex. *)
Record Origin (D F C : Type) := mkOrigin {
  or_disk : gmap N (option D * option F);
  or_packs : gmap N (GameStore D F);
  or_published : gmap (N * N) (list byte);
  or_sched : C
}.
Arguments mkOrigin {D F C}. Arguments or_disk {D F C}. Arguments or_packs {D F C}.
Arguments or_published {D F C}. Arguments or_sched {D F C}.

Section upload.
Context (blake3 : list byte → hash32).
Context {D F C : Type} `{!RedbOps D, !FileOps F, !CompioOps F, !OpenOps D F}.
Context `{!PublishFs, !SchedulerClient C, !SetIter}.
Abbreviation origin := (Origin D F C).
Abbreviation handler := (M origin Status).

Definition UploadService_new (disk : gmap N (option D * option F)) (sched : C) : origin :=
  mkOrigin disk ∅ ∅ sched.

Definition set_pack (g : N) (s : GameStore D F) (o : origin) : origin :=
  mkOrigin (or_disk o) (<[g := s]> (or_packs o)) (or_published o) (or_sched o).
Definition set_published (p : gmap (N * N) (list byte)) (o : origin) : origin :=
  mkOrigin (or_disk o) (or_packs o) p (or_sched o).
Definition set_sched (c : C) (o : origin) : origin :=
  mkOrigin (or_disk o) (or_packs o) (or_published o) c.

(** [stores.entry(game_id)]: the handle, opened the first time it is asked for. *)
Definition disk_of (o : origin) (g : N) : option D * option F :=
  default (None, None) (or_disk o !! g).
Definition pack_entry {E} (to_err : error → E) (g : N) : M origin E (GameStore D F) :=
  o ← get;
  match or_packs o !! g with
  | Some s => mret s
  | None =>
    s ← lift (map_err to_err (open (disk_of o g) g));
    modify (set_pack g s);;
    mret s
  end.

(** ** Publishing to the scheduler *)

Fixpoint connect_attempts (c : C) (addr : string) (attempt fuel : nat) : bool :=
  match fuel with
  | O => false
  | S fuel => if sc_connect c addr attempt then true else connect_attempts c addr (S attempt) fuel
  end.

Definition connect_control (addr : string) : M C error () :=
  c ← get;
  if connect_attempts c addr 0 30 then mret () else throw [("连接调度中心失败: " ++ addr)%string].

Definition publish_to_scheduler (addr : string) (game_id version : N) (manifest : list byte) :
    M C error () :=
  connect_control addr;;
  reply ← map_err_m (cons "发布版本失败"%string)
            (sc_publish addr (mkPublish game_id version manifest));
  lift (ensure_publish_ok (pr_ok reply) (pr_error reply)).

(** ** process_upload

    The state of the loop: the store, locked per chunk, and the acks sent. *)
Definition upload_step (chunk : result Status UploadChunk) :
    M (GameStore D F * list (result Status UploadAck)) Status () :=
  chunk ← lift chunk;
  hash ← lift (ok_or bad_hash_len (hash_of (uc_chunk_hash chunk)));
  let actual := blake3 (uc_data chunk) in
  ack ← (if decide (actual ≠ hash)
         then mret (mkAck (hash_bytes hash) false "块哈希校验失败")
         else r ← attempt (zoom fst (λ s t, (s, t.2)) (append_chunk hash (uc_data chunk)));
              mret (append_ack r hash));
  modify (λ t, (t.1, t.2 ++ [Ok ack])).

Fixpoint upload_loop (chunks : list (result Status UploadChunk)) :
    M (GameStore D F * list (result Status UploadAck)) Status () :=
  match chunks with
  | [] => mret ()
  | chunk :: chunks => upload_step chunk;; upload_loop chunks
  end.

(** The items of the request stream in order; the acks sent, and the result. *)
Definition process_upload (stream : list (result Status UploadChunk)) (o : origin) :
    origin * list (result Status UploadAck) * result Status () :=
  match stream with
  | [] => (o, [], Ok ())
  | Err e :: _ => (o, [], Err e)
  | Ok first :: rest =>
    if uc_game_id first =? 0 then (o, [Err bad_game_id], Ok ()) else
    match pack_entry open_store_error (uc_game_id first) o with
    | (o, Err e) => (o, [], Err e)
    | (o, Ok store) =>
      match upload_loop (Ok first :: rest) (store, []) with
      | (store, acks, r) => (set_pack (uc_game_id first) store o, acks, r)
      end
    end
  end.

(** The handler hands the stream to a task; an error of the task is printed. *)
Definition upload_chunks (stream : list (result Status UploadChunk)) :
    handler (list (result Status UploadAck)) := λ o,
  match process_upload stream o with (o, acks, _) => (o, Ok acks) end.

(** ** query_existing_chunks *)

Fixpoint existing_loop (store : GameStore D F) (hashes : list (list byte)) :
    result Status (list (list byte)) :=
  match hashes with
  | [] => Ok []
  | hash :: hashes =>
    hash ← ok_or bad_hash_len (hash_of hash);
    b ← map_err query_chunk_error (contains store hash);
    existing ← existing_loop store hashes;
    mret (if b : bool then hash_bytes hash :: existing else existing)
  end.

Definition query_existing_chunks (query : ChunkQuery) : handler ChunkExists :=
  if cq_game_id query =? 0 then throw bad_game_id else
  store ← pack_entry open_store_error (cq_game_id query);
  existing ← lift (existing_loop store (cq_chunk_hashes query));
  mret (mkChunkExists existing).

(** ** commit_version *)

(** At most five missing hashes are collected. *)
Fixpoint missing_loop (store : GameStore D F) (hashes missing : list hash32) :
    result Status (list hash32) :=
  match hashes with
  | [] => Ok missing
  | hash :: hashes =>
    b ← map_err query_chunk_error (contains store hash);
    if b : bool then missing_loop store hashes missing else
    let missing := missing ++ [hash] in
    if 5 <=? lenN missing then Ok missing else missing_loop store hashes missing
  end.

(** [.join(",")] *)
Fixpoint join_comma (l : list string) : string :=
  match l with
  | [] => ""
  | [x] => x
  | x :: l => (x ++ "," ++ join_comma l)%string
  end.

Definition missing_reply (missing : list hash32) : CommitReply :=
  mkCommitReply false ("版本清单引用的块未齐全，缺失示例: " ++
    join_comma (map (λ h, hex (hash_bytes h)) missing))%string.

Definition write_published (g v : N) (manifest : list byte) : handler () :=
  lift (map_err create_publish_dir_error (create_dir_all g));;
  o ← get;
  match fs_write (or_published o !! (g, v)) manifest with
  | (new, r) =>
    modify (set_published (partial_alter (λ _, new) (g, v) (or_published o)));;
    lift (map_err write_manifest_error r)
  end.

Definition check_commit (commit : CommitRequest) : result Status GameIndex :=
  if (cr_game_id commit =? 0) || (cr_version commit =? 0) then
    Err (invalid_argument "game_id 与 version 必须大于 0") else
  if lenN (cr_manifest commit) <? 32 then Err (invalid_argument "版本清单长度不足") else
  let body := take (length (cr_manifest commit) - 32) (cr_manifest commit) in
  let actual_hash := blake3 body in
  expected_hash ← ok_or bad_manifest_hash_len (hash_of (cr_manifest_hash commit));
  if decide (actual_hash ≠ expected_hash) then Err (invalid_argument "manifest_hash 校验失败") else
  map_err decode_manifest_error (Manifest.decode blake3 (cr_manifest commit)).

Definition commit_version (scheduler_addr : option string) (commit : CommitRequest) :
    handler CommitReply :=
  index ← lift (check_commit commit);
  store ← pack_entry open_store_error (cr_game_id commit);
  missing ← lift (missing_loop store (set_iter (chunk_set index)) []);
  if bool_decide (missing ≠ []) then mret (missing_reply missing) else
  write_published (cr_game_id commit) (cr_version commit) (cr_manifest commit);;
  match scheduler_addr with
  | None => mret (mkCommitReply true "")
  | Some addr =>
    r ← attempt (zoom or_sched set_sched (publish_to_scheduler addr (cr_game_id commit)
          (cr_version commit) (cr_manifest commit)));
    mret (match r with
          | Ok _ => mkCommitReply true ""
          | Err err => mkCommitReply false ("发布到调度中心失败: " ++ err_display_chain err)%string
          end)
  end.

End upload.

(** The scheduler of this repository behind the interface: its handler, with a
    status shown as the transport shows it. *)
Definition control_client {D : Type} `{!RedbOps D, !SchedDb.SchedJson}
    (status_display : Status → string) (reachable : bool) :
    SchedulerClient (ControlService D) := {|
  sc_connect _ _ _ := reachable;
  sc_publish _ req := map_err_m (λ st, [status_display st]) (publish_version req)
|}.

(** ** The interfaces in memory, for the examples *)

#[global] Instance Mem_publish : PublishFs := {|
  create_dir_all _ := Ok ();
  fs_write _ bs := (Some bs, Ok ())
|}.
#[global] Instance Mem_publish_laws : PublishFsLaws.
Proof. split. by intros old bs new [= <-]. Qed.
