(* ===== verification/UploadSpec.v ===== *)
(** * UploadSpec: what the upload service guarantees

    An origin process stands for one map from hashes to bytes per game.  Uploads
    add verified chunks only, queries answer what is stored, and a version is
    published only when the store holds every chunk of its manifest. *)

From S2P Require Import Prelude Bytes Text FileIO Redb Manifest.
From S2P Require Import Storage StorageSpec SchedControl Upload.

(** Both sides of a chunk's identity: every stored chunk hashes to its key. *)
Definition addressed (blake3 : list byte → hash32) (m : gmap hash32 (list byte)) : Prop :=
  map_Forall (λ h d, blake3 d = h) m.

Section append.
Context {D F : Type} `{RedbLaws D, FileLaws F, !CompioOps F, !OpenOps D F}.
Implicit Types (s : GameStore D F) (m : gmap hash32 (list byte)).

(** The size grows by the data at most and the game stays, failures included. *)
Lemma append_chunk_frame s m h data s' r :
  represents s m → gs_size s + lenN data < 2^32 → append_chunk h data s = (s', r) →
  gs_size s' ≤ gs_size s + lenN data ∧ gs_game_id s' = gs_game_id s.
Proof.
  intros Hr Hb Ha. unfold append_chunk in Ha.
  rewrite (M_bind_ok get _ s s s) in Ha by done.
  m_step Ha as s0 found e Hl; unfold lift in Hl; injection Hl as <- Hl; [|lia].
  destruct found as [v|]; [injection Ha as <- _; lia|]. cbv zeta in Ha.
  m_step Ha as s1 [] e Hw; unfold map_err_m in Hw;
    destruct (on_file _ s) as [s1' r1] eqn:Hw'; injection Hw as -> Hr1;
    apply (on_file_write_represents _ _ _ _ _ _ Hr) in Hw' as (_ & _ & Hid & Hsz & _);
    try done; try apply Hr; [|lia].
  rewrite (M_bind_ok (modify _) _ s1 (set_size (add_u64 (gs_size s1) (lenN data)) s1) ())
    in Ha by done.
  m_step Ha as s3 u e Hx; apply write_index_ok in Hx as (Hid3 & _ & _ & Hsz3 & _);
    [injection Ha as <- _|]; rewrite Hsz3, Hid3; cbn; rewrite Hsz, Hid, add_u64_small; lia.
Qed.

Lemma add_chunk_lookup m h data : is_Some (add_chunk m (h, data) !! h).
Proof.
  unfold add_chunk. cbn. destruct (m !! h) as [d|] eqn:Hm; [by rewrite Hm|].
  by rewrite lookup_insert_eq.
Qed.

Lemma add_chunk_mono m c : m ⊆ add_chunk m c.
Proof.
  unfold add_chunk. destruct (m !! c.1) eqn:Hm; [done|]. by apply insert_subseteq.
Qed.

Lemma add_chunks_mono m cs : m ⊆ add_chunks m cs.
Proof.
  revert m. induction cs as [|c cs IH]; intros m; [done|].
  cbn. etrans; [apply add_chunk_mono|apply IH].
Qed.

Lemma add_chunks_elem m cs c : c ∈ cs → is_Some (add_chunks m cs !! c.1).
Proof.
  revert m. induction cs as [|[h data] cs IH]; intros m; [by intros ?%elem_of_nil|].
  intros [->|Hc]%elem_of_cons; [|by apply IH]. cbn.
  destruct (add_chunk_lookup m h data) as [d Hd]. exists d.
  by eapply lookup_weaken, add_chunks_mono.
Qed.

Lemma add_chunks_addressed blake3 m cs :
  addressed blake3 m → Forall (λ c : hash32 * list byte, blake3 c.2 = c.1) cs →
  addressed blake3 (add_chunks m cs).
Proof.
  revert m. induction cs as [|c cs IH]; intros m Hm Hcs; [done|]. cbn.
  apply Forall_cons in Hcs as [Hc Hcs]. apply IH; [|done]. unfold add_chunk.
  destruct (m !! c.1); [done|]. by apply map_Forall_insert_2.
Qed.
End append.

Section upload.
Context (blake3 : list byte → hash32).
Context {D F C : Type} `{RedbLaws D, FileLaws F, !CompioOps F, !OpenOps D F, !OpenLaws D F}.
Context `{PublishFsLaws, !SchedulerClient C, SetIterLaws}.
Implicit Types (o : Origin D F C) (s : GameStore D F) (m : gmap hash32 (list byte)).
Implicit Types (ms : N → gmap hash32 (list byte)).

(** ** The abstraction of a process *)

Definition disk_ok (dir : option D * option F) (g : N) m : Prop :=
  match dir with
  | (None, None) => m = ∅
  | (Some d, Some f) => represents (mkStore g d f None (lenN (f_data f))) m
  | _ => False
  end.

Definition origin_ok o ms : Prop := ∀ g, g < 2^64 →
  match or_packs o !! g with
  | Some s => gs_game_id s = g ∧ represents s (ms g)
  | None => disk_ok (disk_of o g) g (ms g)
  end.

Lemma origin_ok_pack o ms g s :
  g < 2^64 → origin_ok o ms → or_packs o !! g = Some s →
  gs_game_id s = g ∧ represents s (ms g).
Proof. intros Hg Ho Hs. specialize (Ho g Hg). by rewrite Hs in Ho. Qed.

Definition update_at (g : N) m ms : N → gmap hash32 (list byte) :=
  λ g', if decide (g' = g) then m else ms g'.

Lemma origin_ok_set_pack o ms g s m :
  origin_ok o ms → gs_game_id s = g → represents s m →
  origin_ok (set_pack g s o) (update_at g m ms).
Proof.
  intros Ho Hid Hr g' Hg'. unfold update_at. cbn. destruct (decide (g' = g)) as [->|Hne].
  - by rewrite lookup_insert_eq.
  - rewrite lookup_insert_ne by done. exact (Ho g' Hg').
Qed.

Lemma origin_ok_set_pack_same o ms g s :
  origin_ok o ms → gs_game_id s = g → represents s (ms g) → origin_ok (set_pack g s o) ms.
Proof.
  intros Ho Hid Hr g' Hg'. specialize (origin_ok_set_pack o ms g s (ms g) Ho Hid Hr g' Hg').
  unfold update_at. by case_decide; subst.
Qed.

Lemma origin_ok_frame o o' ms :
  or_packs o' = or_packs o → or_disk o' = or_disk o → origin_ok o ms → origin_ok o' ms.
Proof. intros Hp Hd Ho g Hg. unfold disk_of. rewrite Hp, Hd. exact (Ho g Hg). Qed.

(** What the services of one origin keep: the other parts of the state. *)
Definition same_rest o o' : Prop :=
  or_disk o' = or_disk o ∧ or_published o' = or_published o ∧ or_sched o' = or_sched o.

Lemma disk_open dir g m s :
  g < 2^64 → disk_ok dir g m → open dir g = Ok s → gs_game_id s = g ∧ represents s m.
Proof.
  intros Hg Hd Hs. pose proof (open_ok _ _ _ Hs) as [Hid _]. split; [done|].
  destruct dir as [[d|] [f|]]; cbn in Hd; try done.
  - by apply (open_again _ _ _ Hd) in Hs as [? _].
  - subst m. by eapply open_fresh.
Qed.

Lemma pack_entry_ok {E} (f : error → E) g o ms o' r :
  origin_ok o ms → g < 2^64 → pack_entry f g o = (o', r) →
  origin_ok o' ms ∧ same_rest o o' ∧
  match r with
  | Ok s => or_packs o' !! g = Some s ∧ gs_game_id s = g ∧ represents s (ms g) ∧
      (∀ g', g' ≠ g → or_packs o' !! g' = or_packs o !! g')
  | Err _ => o' = o
  end.
Proof.
  intros Ho Hg Hp. unfold pack_entry in Hp. rewrite (M_bind_ok get _ o o o) in Hp by done.
  pose proof (Ho g Hg) as Hgo. destruct (or_packs o !! g) as [s|] eqn:Hs.
  { injection Hp as <- <-. destruct Hgo. by split_and!. }
  m_step Hp as o1 s e Hl; unfold lift in Hl; injection Hl as <- Hl; [|done].
  apply map_err_Ok_inv in Hl. rewrite (M_bind_ok (modify _) _ o (set_pack g s o) ()) in Hp by done.
  injection Hp as <- <-. apply (disk_open _ _ _ _ Hg Hgo) in Hl as [Hid Hr].
  split_and!; [by apply origin_ok_set_pack_same|done|cbn; by rewrite lookup_insert_eq|done..|].
  intros g' Hne. cbn. by rewrite lookup_insert_ne.
Qed.

(** ** Uploads *)

Implicit Types (item : result Status UploadChunk) (ack : result Status UploadAck).

Definition item_size item : N := match item with Ok c => lenN (uc_data c) | Err _ => 0 end.
Definition upload_size (items : list (result Status UploadChunk)) : N :=
  foldr (λ i n, item_size i + n) 0 items.

(** The ack a chunk receives: it repeats the hash and confirms only data that
    hashes to it; with [strict], data that does is always confirmed. *)
Definition acked (strict : Prop) item ack : Prop :=
  ∃ c h a, item = Ok c ∧ hash_of (uc_chunk_hash c) = Some h ∧ ack = Ok a ∧
    ua_chunk_hash a = hash_bytes h ∧
    (ua_ok a = true → blake3 (uc_data c) = h) ∧
    (strict → blake3 (uc_data c) = h → ua_ok a = true).

(** What ends an upload early. *)
Definition rejects item (e : Status) : Prop :=
  item = Err e ∨
  ∃ c, item = Ok c ∧ hash_of (uc_chunk_hash c) = None ∧ e = bad_hash_len.

(** The chunks confirmed by a sequence of acks, under the hash of their data. *)
Fixpoint confirmed (items : list (result Status UploadChunk))
    (acks : list (result Status UploadAck)) : list (hash32 * list byte) :=
  match items, acks with
  | Ok c :: items, Ok a :: acks =>
    if ua_ok a then (blake3 (uc_data c), uc_data c) :: confirmed items acks
    else confirmed items acks
  | _, _ => []
  end.

Lemma confirmed_addressed items acks :
  Forall (λ c : hash32 * list byte, blake3 c.2 = c.1) (confirmed items acks).
Proof.
  revert acks. induction items as [|[c|e] items IH]; intros [|[a|e'] acks]; cbn; try constructor.
  destruct (ua_ok a); [by constructor|done].
Qed.

Lemma upload_step_ok (strict : Prop) item s s' m acks acks' r :
  represents s m → gs_size s + item_size item < 2^32 →
  (strict → RedbHealthy D ∧ healthy s) →
  upload_step blake3 item (s, acks) = ((s', acks'), r) →
  match r with
  | Ok _ => ∃ ack, acks' = acks ++ [ack] ∧ acked strict item ack ∧
      represents s' (add_chunks m (confirmed [item] [ack])) ∧
      gs_size s' ≤ gs_size s + item_size item ∧ gs_game_id s' = gs_game_id s ∧
      (strict → healthy s')
  | Err e => s' = s ∧ acks' = acks ∧ rejects item e
  end.
Proof.
  intros Hr Hb Hstrict Hu. unfold upload_step in Hu.
  m_step Hu as t c e Hi; unfold lift in Hi; injection Hi as <- ->;
    [|split_and!; [done..|by left]].
  m_step Hu as t h e Hh; unfold lift, ok_or in Hh; destruct (hash_of (uc_chunk_hash c)) as [h0|]
    eqn:Hc; simplify_eq; [|split_and!; [done..|right; by exists c]].
  cbv zeta in Hu. cbn [item_size] in *. destruct (decide (blake3 (uc_data c) ≠ h)) as [Hne|Heq].
  - injection Hu as <- <- <-. eexists. split; [done|]. split_and!; try done; [|lia|by intros []%Hstrict].
    exists c, h, (mkAck (hash_bytes h) false "块哈希校验失败"). done.
  - apply dec_stable in Heq. unfold attempt, zoom, mbind, M_bind in Hu. cbn [fst snd] in Hu.
    destruct (append_chunk h (uc_data c) s) as [s1 r1] eqn:Ha. injection Hu as <- <- <-.
    pose proof (append_chunk_frame _ _ _ _ _ _ Hr Hb Ha) as [Hsz Hid].
    pose proof (append_chunk_refines _ _ _ _ _ _ Hr Hb Ha) as Href.
    eexists. split; [done|].
    assert (strict → is_ok r1 ∧ healthy s1) as Hh.
    { intros [? Hs]%Hstrict. destruct (append_chunk_healthy s m h (uc_data c) Hr Hs)
        as (s2 & l & Ha2 & ?). rewrite Ha in Ha2. by simplify_eq. }
    split_and!; [|destruct r1; cbn; [destruct Href; by subst h|done]|done..|by intros []%Hh].
    exists c, h, (append_ack r1 h). destruct r1; split_and!; try done.
    intros []%Hh; done.
Qed.

Lemma upload_loop_ok (strict : Prop) items s s' m acks acks' r :
  represents s m → gs_size s + upload_size items < 2^32 →
  (strict → RedbHealthy D ∧ healthy s) →
  upload_loop blake3 items (s, acks) = ((s', acks'), r) →
  ∃ dn new rest, items = dn ++ rest ∧ acks' = acks ++ new ∧ Forall2 (acked strict) dn new ∧
    represents s' (add_chunks m (confirmed dn new)) ∧ gs_game_id s' = gs_game_id s ∧
    match r with Ok _ => rest = [] | Err e => ∃ item rest', rest = item :: rest' ∧ rejects item e end.
Proof.
  revert s m acks. induction items as [|item items IH]; intros s m acks Hr Hb Hstrict Hu.
  { injection Hu as <- <- <-. exists [], [], []. split_and!; [done|by rewrite app_nil_r|constructor|done..]. }
  cbn in Hu. cbn [upload_size foldr] in Hb. fold (upload_size items) in Hb.
  m_step Hu as [s1 acks1] [] e Hs;
    apply (upload_step_ok strict _ _ _ _ _ _ _ Hr) in Hs; try done; try lia.
  - destruct Hs as (ack & -> & Hack & Hr1 & Hsz & Hid & Hh).
    apply IH with (m := add_chunks m (confirmed [item] [ack])) in Hu
      as (dn & new & rest & -> & -> & Hf & Hr' & Hid' & Hres); [|done|lia|].
    + exists (item :: dn), (ack :: new), rest. rewrite <- (assoc_L app). split_and!; try done.
      * by constructor.
      * destruct Hack as (c & h & a & -> & _ & -> & _). cbn in Hr' |- *.
        by destruct (ua_ok a).
      * by rewrite Hid'.
    + intros Hst. split; [by apply Hstrict|by apply Hh].
  - destruct Hs as (-> & -> & Hrej). exists [], [], (item :: items).
    split_and!; [done|by rewrite app_nil_r|constructor|done..|by eexists _, _].
Qed.

(** The upload leaves room below 4 GiB in the pack of the game. *)
Definition room o (g n : N) : Prop := ∀ o' s,
  pack_entry open_store_error g o = (o', Ok s) → gs_size s + n < 2^32.

(** ** Queries *)

Definition requested (hashes : list (list byte)) : list hash32 := omap hash_of hashes.

Lemma existing_loop_ok s m hashes :
  represents s m →
  match existing_loop s hashes with
  | Ok existing => Forall (λ bs, is_Some (hash_of bs)) hashes ∧
      existing = map hash_bytes (filter (λ h, is_Some (m !! h)) (requested hashes))
  | Err _ => True
  end ∧
  (Forall (λ bs, is_Some (hash_of bs)) hashes → RedbHealthy D → healthy s →
   is_ok (existing_loop s hashes)).
Proof.
  intros Hr. induction hashes as [|bs hashes [IH1 IH2]]; [by split|].
  cbn. destruct (hash_of bs) as [h|] eqn:Hh; cbn; [|split; [done|]; rewrite Forall_cons, Hh; by intros [[] _]].
  destruct (GameStore_contains s h) as [b|e] eqn:Hc; cbn.
  - apply (contains_represents _ _ _ _ Hr) in Hc.
    destruct (existing_loop s hashes) as [ex|e] eqn:Hex; cbn.
    + split; [|done]. destruct IH1 as [Hall ->]. split; [by constructor|].
      subst b. case_bool_decide; case_decide; try done.
    + split; [done|]. by intros [_ ?]%Forall_cons ? ?; apply IH2.
  - split; [done|]. intros _ ? Hhl. exfalso.
    destruct (lookup_index_healthy s m h Hr Hhl) as [found Hl].
    unfold GameStore_contains in Hc. by rewrite Hl in Hc.
Qed.

(** ** Commits *)

Lemma missing_loop_ok s m hashes missing out :
  represents s m → (length missing < 5)%nat →
  missing_loop s hashes missing = Ok out →
  out = missing ++ take (5 - length missing) (filter (λ h, m !! h = None) hashes).
Proof.
  intros Hr. revert missing. induction hashes as [|h hashes IH]; intros missing Hl Hm.
  { injection Hm as <-. by rewrite filter_nil, take_nil, app_nil_r. }
  cbn in Hm. apply bind_Ok_inv in Hm as (b & Hb & Hm). apply map_err_Ok_inv in Hb.
  apply (contains_represents _ _ _ _ Hr) in Hb. rewrite filter_cons.
  assert (b = false ↔ m !! h = None) as Hiff.
  { subst b. rewrite bool_decide_eq_false, <- eq_None_not_Some. done. }
  destruct b.
  - apply IH in Hm; [|done]. rewrite decide_False; [done|]. intros Hn%Hiff. done.
  - rewrite decide_True by (by apply Hiff). rewrite lenN_app, lenN_cons, lenN_nil in Hm.
    destruct (N.leb_spec 5 (lenN missing + (1 + 0))) as [H5|H5]; unfold lenN in H5.
    + injection Hm as <-. replace (5 - length missing)%nat with 1%nat by lia. done.
    + apply IH in Hm; [|rewrite length_app; cbn; lia]. rewrite Hm, length_app.
      replace (5 - length missing)%nat with (S (5 - (length missing + 1)))%nat by lia.
      cbn [firstn length]. by rewrite <- (assoc_L app).
Qed.

Lemma write_published_ok g v bs o o' r :
  write_published g v bs o = (o', r) →
  or_packs o' = or_packs o ∧ or_disk o' = or_disk o ∧ or_sched o' = or_sched o ∧
  (∀ gv, gv ≠ (g, v) → or_published o' !! gv = or_published o !! gv) ∧
  (is_ok r → or_published o' !! (g, v) = Some bs).
Proof.
  intros Hw. unfold write_published in Hw.
  m_step Hw as o1 [] e Hc; unfold lift in Hc; injection Hc as <- Hc; [|done].
  rewrite (M_bind_ok get _ o o o) in Hw by done.
  destruct (fs_write _ bs) as [new r'] eqn:Hf.
  unfold modify, lift, mbind, M_bind in Hw. injection Hw as <- <-. cbn. split_and!; try done.
  - intros gv Hne. by rewrite lookup_partial_alter_ne.
  - intros Hok. rewrite lookup_partial_alter_eq. destruct r' as [[]|]; [|done].
    by eapply fs_write_ok.
Qed.

End upload.

(** ** Properties *)

Section properties.
Context (blake3 : list byte → hash32).
Context {D F C : Type} `{RedbLaws D, FileLaws F, !CompioOps F, !OpenOps D F, !OpenLaws D F}.
Context `{PublishFsLaws, !SchedulerClient C, SetIterLaws}.
Implicit Types (o : Origin D F C) (ms : N → gmap hash32 (list byte)).

Lemma process_upload_ok o o' ms first rest acks r :
  let g := uc_game_id first in let items := Ok first :: rest in
  origin_ok o ms → g ≠ 0 → g < 2^64 → room o g (upload_size items) →
  process_upload blake3 items o = (o', acks, r) →
  (∃ e, pack_entry open_store_error g o = (o, Err e) ∧ acks = [] ∧ r = Err e ∧ o' = o) ∨
  ∃ dn tail m', items = dn ++ tail ∧
    Forall2 (acked blake3 (RedbHealthy D ∧
      ∀ o1 s, pack_entry open_store_error g o = (o1, Ok s) → healthy s)) dn acks ∧
    m' = add_chunks (ms g) (confirmed blake3 dn acks) ∧ origin_ok o' (update_at g m' ms) ∧
    Forall (λ c, is_Some (m' !! c.1)) (confirmed blake3 dn acks) ∧
    (addressed blake3 (ms g) → addressed blake3 m') ∧
    match r with
    | Ok _ => tail = []
    | Err e => ∃ item tail', tail = item :: tail' ∧ rejects item e
    end.
Proof.
  intros g items Ho Hg0 Hg Hroom Hu. unfold process_upload in Hu. subst items.
  cbn beta iota in Hu. change (uc_game_id first) with g in Hu. rewrite (proj2 (N.eqb_neq _ _) Hg0) in Hu.
  destruct (pack_entry open_store_error g o) as [o1 [s|e]] eqn:Hp;
    pose proof (pack_entry_ok _ _ _ _ _ _ Ho Hg Hp) as (Ho1 & _ & Hres); last first.
  { injection Hu as <- <- <-. left. exists e. by subst o1. }
  destruct Hres as (_ & Hid & Hr & _). specialize (Hroom _ _ Hp).
  destruct (upload_loop blake3 (Ok first :: rest) (s, [])) as [[s' acks'] r'] eqn:Hl.
  injection Hu as <- <- <-. right.
  eapply (upload_loop_ok blake3 (RedbHealthy D ∧ ∀ (o2 : Origin D F C) s0,
    (o1, Ok s : result Status _) = (o2, Ok s0) → healthy s0)) in Hl as
    (dn & new & tail & Hitems & -> & Hf & Hr' & Hid' & Hend); [|done..|].
  2: { intros [Hh Hs]. split; [done|]. by eapply Hs. }
  exists dn, tail, (add_chunks (ms g) (confirmed blake3 dn new)).
  cbn [app]. split_and!; try done.
  - eapply origin_ok_set_pack; [done|by rewrite Hid'|done].
  - apply Forall_forall. intros c Hc. by apply add_chunks_elem.
  - intros Ha. apply add_chunks_addressed; [done|apply confirmed_addressed].
Qed.

(** The rest of the process does not take part in an upload. *)
Lemma process_upload_rest stream o o' ms acks r :
  origin_ok o ms → (∀ c, head stream = Some (Ok c) → uc_game_id c < 2^64) →
  process_upload blake3 stream o = (o', acks, r) → same_rest o o'.
Proof.
  intros Ho Hg. unfold process_upload. destruct stream as [|[c|e] rest]; [by intros [= <- _ _]| |by intros [= <- _ _]].
  destruct (_ =? 0); [by intros [= <- _ _]|].
  destruct (pack_entry _ _ o) as [o1 [s|e]] eqn:Hp;
    apply (pack_entry_ok _ _ _ _ _ _ Ho (Hg _ eq_refl)) in Hp as (_ & Hsame & _);
    [|by intros [= <- _ _]].
  destruct (upload_loop _ _ _) as [[s' acks'] r']. by intros [= <- _ _].
Qed.

(** C20: An upload stream is handled chunk by chunk in order: each chunk up to
    the first malformed item gets one ack with its hash, a positive ack means
    that the data hashes to it and is in the store of the game of the first
    chunk (the game named by later chunks does not matter), nothing else enters
    any store, so a content-addressed store stays one, and without I/O errors
    every chunk whose data matches its hash is confirmed. *)
Theorem upload_chunks_spec o o' ms first rest acks r :
  let g := uc_game_id first in let items := Ok first :: rest in
  origin_ok o ms → g ≠ 0 → g < 2^64 → room o g (upload_size items) →
  process_upload blake3 items o = (o', acks, r) →
  (∃ e, pack_entry open_store_error g o = (o, Err e) ∧ acks = [] ∧ r = Err e ∧ o' = o) ∨
  ∃ dn tail m', items = dn ++ tail ∧
    Forall2 (acked blake3 (RedbHealthy D ∧
      ∀ o1 s, pack_entry open_store_error g o = (o1, Ok s) → healthy s)) dn acks ∧
    m' = add_chunks (ms g) (confirmed blake3 dn acks) ∧ origin_ok o' (update_at g m' ms) ∧
    Forall (λ c, is_Some (m' !! c.1)) (confirmed blake3 dn acks) ∧
    (addressed blake3 (ms g) → addressed blake3 m') ∧
    match r with
    | Ok _ => tail = []
    | Err e => ∃ item tail', tail = item :: tail' ∧ rejects item e
    end.
Proof. apply process_upload_ok. Qed.

(** A query answers, in the order asked, exactly the requested hashes the
    store of the game holds; it is refused when the game is 0 or a hash is not
    32 bytes long, it changes no store, and without I/O errors nothing else
    makes it fail. *)
Theorem query_existing_spec o o' ms q r :
  origin_ok o ms → cq_game_id q < 2^64 → query_existing_chunks q o = (o', r) →
  origin_ok o' ms ∧ same_rest o o' ∧
  match r with
  | Ok reply => cq_game_id q ≠ 0 ∧ Forall (λ bs, length bs = HASH_LEN) (cq_chunk_hashes q) ∧
      ce_existing_hashes reply = map hash_bytes
        (filter (λ h, is_Some (ms (cq_game_id q) !! h)) (requested (cq_chunk_hashes q)))
  | Err e => cq_game_id q = 0 ∧ e = bad_game_id ∨
      (∃ bs, bs ∈ cq_chunk_hashes q ∧ length bs ≠ HASH_LEN) ∨
      (∃ e', e = open_store_error e' ∧ o' = o) ∨
      ¬ (RedbHealthy D ∧ ∀ s, or_packs o' !! cq_game_id q = Some s → healthy s)
  end.
Proof.
  intros Ho Hg Hq. unfold query_existing_chunks in Hq.
  destruct (N.eqb_spec (cq_game_id q) 0) as [Hz|Hz]; [injection Hq as <- <-; split; [done|split; [done|by left]]|].
  m_step Hq as o1 s e Hp; pose proof (pack_entry_ok _ _ _ _ _ _ Ho Hg Hp) as (Ho1 & Hsame & Hres);
    last first.
  { split_and!; [done..|]. right; right; left. unfold pack_entry in Hp.
    rewrite (M_bind_ok get _ o o o) in Hp by done. destruct (or_packs o !! _); [done|].
    unfold lift, mbind, M_bind in Hp. destruct (open _ _) as [|e']; simplify_eq/=. by exists e'. }
  destruct Hres as (Hs & _ & Hr & _).
  pose proof (existing_loop_ok s _ (cq_chunk_hashes q) Hr) as [Hl1 Hl2].
  m_step Hq as o2 ex e He; unfold lift in He; injection He as <- He; rewrite He in Hl1, Hl2.
  - injection Hq as <- <-. destruct Hl1 as [Hall ->]. split_and!; try done.
    eapply Forall_impl; [exact Hall|]. intros bs. apply hash_of_is_Some.
  - split_and!; [done..|]. right.
    destruct (decide (Forall (λ bs, length bs = HASH_LEN) (cq_chunk_hashes q))) as [Hall|Hall].
    + right; right. intros [Hh Hs']. apply Hl2; [|done|by apply Hs'].
      eapply Forall_impl; [exact Hall|]. intros bs. apply hash_of_is_Some.
    + left. apply not_Forall_Exists in Hall; [|apply _]. apply Exists_exists in Hall. done.
Qed.

(** The outcomes of a commit. *)
Lemma commit_version_ok sched c o o' ms r :
  let g := cr_game_id c in let v := cr_version c in
  origin_ok o ms → g < 2^64 → commit_version blake3 sched c o = (o', r) →
  origin_ok o' ms ∧
  (∀ gv, gv ≠ (g, v) → or_published o' !! gv = or_published o !! gv) ∧
  (¬ is_ok (check_commit blake3 c) → o' = o ∧ ¬ is_ok r) ∧
  (is_ok r → g ≠ 0 ∧ v ≠ 0 ∧
     hash_of (cr_manifest_hash c) = Some (blake3 (take (length (cr_manifest c) - 32) (cr_manifest c)))) ∧
  match r with
  | Ok reply => ∃ i, Manifest.decode blake3 (cr_manifest c) = Ok i ∧
      let missing := filter (λ h, ms g !! h = None) (set_iter (chunk_set i)) in
      (reply = missing_reply (take 5 missing) ∧ missing ≠ [] ∧
         or_published o' = or_published o ∧ or_sched o' = or_sched o) ∨
      ((∀ h, h ∈ chunk_set i → is_Some (ms g !! h)) ∧
         or_published o' !! (g, v) = Some (cr_manifest c) ∧
         cp_published reply = match sched with
           | None => true
           | Some addr => is_ok (publish_to_scheduler addr g v (cr_manifest c) (or_sched o)).2
           end ∧
         or_sched o' = match sched with
           | None => or_sched o
           | Some addr => (publish_to_scheduler addr g v (cr_manifest c) (or_sched o)).1
           end)
  | Err _ => or_sched o' = or_sched o
  end.
Proof.
  intros g v Ho Hg Hc. unfold commit_version in Hc.
  m_step Hc as o1 i e Hck; unfold lift in Hck; injection Hck as <- Hck; last first.
  { rewrite Hck. by split_and!. }
  assert (g ≠ 0 ∧ v ≠ 0 ∧ hash_of (cr_manifest_hash c) =
    Some (blake3 (take (length (cr_manifest c) - 32) (cr_manifest c))) ∧
    Manifest.decode blake3 (cr_manifest c) = Ok i) as (Hg0 & Hv0 & Hhash & Hdec).
  { clear -Hck. unfold check_commit in Hck.
    destruct ((_ =? 0) || _) eqn:Hz; [done|]. apply orb_false_iff in Hz as [Hz1 Hz2].
    apply N.eqb_neq in Hz1, Hz2. destruct (_ <? 32); [done|].
    apply bind_Ok_inv in Hck as (h & Hh & Hck). case_decide; [done|].
    apply map_err_Ok_inv in Hck. split_and!; try done.
    destruct (hash_of _); simplify_eq/=. done. }
  rewrite Hck.
  m_step Hc as o1 s e Hp; pose proof (pack_entry_ok _ _ _ _ _ _ Ho Hg Hp) as (Ho1 & Hsame & Hres);
    [|rewrite Hres; by split_and!].
  destruct Hres as (Hs & _ & Hr & _), Hsame as (_ & Hpub & Hsch).
  m_step Hc as o2 missing e Hm; unfold lift in Hm; injection Hm as <- Hm;
    [|split_and!; try done; by intros gv _; rewrite Hpub].
  apply (missing_loop_ok s _ _ _ _ Hr) in Hm; [|cbn; lia]. cbn [length app] in Hm.
  change (5 - 0)%nat with 5%nat in Hm.
  case_bool_decide as Hmis.
  { injection Hc as <- <-. split_and!; try done; [by intros gv _; rewrite Hpub|].
    exists i. split; [done|]. cbv zeta. left. rewrite Hm. split_and!; try done.
    rewrite Hm in Hmis. by intros Hn; rewrite Hn in Hmis. }
  rewrite Hm in Hmis.
  assert (∀ h, h ∈ chunk_set i → is_Some (ms g !! h)) as Hall.
  { intros h Hh. destruct (ms g !! h) eqn:Hn; [by eexists|exfalso].
    assert (h ∈ filter (λ h, ms g !! h = None) (set_iter (chunk_set i))) as Hf.
    { apply list_elem_of_filter. split; [done|]. rewrite set_iter_perm. by apply elem_of_elements. }
    destruct (filter _ _); [by apply elem_of_nil in Hf|done]. }
  m_step Hc as o3 [] e Hw; apply write_published_ok in Hw as (Hk & Hd & Hsc & Hoth & Hnew);
    [|split_and!; try done;
      [by eapply origin_ok_frame|by intros gv Hgv; rewrite Hoth, Hpub|congruence]].
  assert (origin_ok o3 ms) as Ho3 by (by eapply origin_ok_frame).
  specialize (Hnew I).
  destruct sched as [addr|]; last first.
  { injection Hc as <- <-. split_and!; try done; [by intros gv Hgv; rewrite Hoth, Hpub|].
    exists i. split; [done|]. right. split_and!; [done..|congruence]. }
  unfold attempt, zoom, mbind, M_bind in Hc.
  rewrite Hsc, Hsch in Hc. change (cr_game_id c) with g in Hc. change (cr_version c) with v in Hc.
  destruct (publish_to_scheduler addr g v (cr_manifest c) (or_sched o)) as [c' rp].
  injection Hc as <- <-. split_and!; try done; [by intros gv Hgv; cbn; rewrite Hoth, Hpub|].
  exists i. split; [done|]. right. split_and!; [done..| |done]. by destruct rp.
Qed.

(** Chunks are at most as long as an index entry can say. *)
Lemma represents_short (st : GameStore D F) m : represents st m → map_Forall (λ _ d, lenN d < 2^32) m.
Proof.
  intros Hr h d Hd. assert (is_Some (location st h)) as [l Hl] by (by apply (represents_location _ m)).
  rewrite (represents_loc_len _ _ _ _ _ Hr Hl Hd). unfold location, loc_in in Hl.
  apply fmap_Some in Hl as (v & _ & ->).
  unfold unpack, as_u32. cbn. by apply N.mod_lt.
Qed.

Lemma origin_short ms o g : g < 2^64 → origin_ok o ms → map_Forall (λ _ d, lenN d < 2^32) (ms g).
Proof.
  intros Hg Ho. specialize (Ho g Hg). destruct (or_packs o !! g) as [st|].
  - destruct Ho as [_ Hr]. by eapply represents_short.
  - unfold disk_ok in Ho. destruct (disk_of o g) as [[d|] [f|]]; try done.
    + by eapply represents_short.
    + rewrite Ho. apply map_Forall_empty.
Qed.

(** ** When nothing fails *)

(** No call of the origin fails for this game. *)
Definition origin_healthy (g : N) o : Prop :=
  RedbHealthy D ∧ ∃ o1 s, pack_entry open_store_error g o = (o1, Ok s) ∧ healthy s.

Lemma origin_healthy_open (g : N) o :
  RedbHealthy D → match (pack_entry open_store_error g o).2 with Ok s => healthy s | Err _ => False end →
  origin_healthy g o.
Proof.
  intros Hd Hp. split; [done|]. destruct (pack_entry open_store_error g o) as [o1 [s|e]]; [|done]. by exists o1, s.
Qed.

Lemma upload_loop_healthy items s s' m acks acks' r :
  RedbHealthy D → healthy s → represents s m → gs_size s + upload_size items < 2^32 →
  upload_loop blake3 items (s, acks) = ((s', acks'), r) → healthy s'.
Proof.
  intros Hh. revert s m acks. induction items as [|item items IH]; intros s m acks Hs Hr Hb Hu.
  { by injection Hu as <- _ _. }
  cbn in Hu. cbn [upload_size foldr] in Hb. fold (upload_size items) in Hb.
  m_step Hu as [s1 acks1] [] e Hst; apply (upload_step_ok blake3 True _ _ _ m) in Hst; try done; try lia.
  - destruct Hst as (ack & _ & _ & Hr1 & Hsz & _ & Hh1).
    eapply IH; [by apply Hh1|exact Hr1|lia|exact Hu].
  - by destruct Hst as [-> _].
Qed.

(** The store of a game is opened once. *)
Lemma pack_entry_again g o o1 s :
  pack_entry open_store_error g o = (o1, Ok s) → pack_entry open_store_error g o1 = (o1, Ok s).
Proof.
  unfold pack_entry. rewrite (M_bind_ok get _ o o o), (M_bind_ok get _ o1 o1 o1) by done.
  destruct (or_packs o !! g) as [s0|] eqn:Hs; [by intros [= <- <-]; rewrite Hs|]. intros Hp.
  apply M_bind_Ok_inv in Hp as (o2 & s2 & [-> _]%lift_Ok_inv & Hp). injection Hp as <- <-. cbn.
  by rewrite lookup_insert_eq.
Qed.

Lemma pack_entry_found g o s : or_packs o !! g = Some s → pack_entry open_store_error g o = (o, Ok s).
Proof. intros Hs. unfold pack_entry. rewrite (M_bind_ok get _ o o o) by done. by rewrite Hs. Qed.

Lemma origin_healthy_found g o s :
  RedbHealthy D → or_packs o !! g = Some s → healthy s → origin_healthy g o.
Proof. intros Hd Hs Hh. split; [done|]. exists o, s. split; [by apply pack_entry_found|done]. Qed.

Lemma origin_healthy_opened g o o1 s :
  pack_entry open_store_error g o = (o1, Ok s) → origin_healthy g o → origin_healthy g o1.
Proof.
  intros Hp (Hh & o2 & s2 & Hp2 & Hs). split; [done|]. rewrite Hp in Hp2. injection Hp2 as <- <-.
  exists o1, s. split; [by eapply pack_entry_again|done].
Qed.

Lemma process_upload_healthy o o' ms first rest acks r :
  let g := uc_game_id first in let items := Ok first :: rest in
  origin_ok o ms → g ≠ 0 → g < 2^64 → room o g (upload_size items) → origin_healthy g o →
  process_upload blake3 items o = (o', acks, r) → origin_healthy g o'.
Proof.
  intros g items Ho Hg0 Hg Hroom (Hh & o1 & s & Hp & Hs) Hu. unfold process_upload in Hu. subst items.
  cbn beta iota in Hu. change (uc_game_id first) with g in Hu. rewrite (proj2 (N.eqb_neq _ _) Hg0), Hp in Hu.
  pose proof (pack_entry_ok _ _ _ _ _ _ Ho Hg Hp) as (_ & _ & _ & _ & Hr & _). specialize (Hroom _ _ Hp).
  destruct (upload_loop blake3 (Ok first :: rest) (s, [])) as [[s' acks'] r'] eqn:Hl.
  injection Hu as <- _ _. split; [done|]. eexists _, s'. split.
  - apply pack_entry_found. cbn. apply lookup_insert_eq.
  - by eapply upload_loop_healthy.
Qed.

(** A commit is answered, and published unless a chunk is missing or the scheduler
    refuses. *)
Lemma missing_loop_all s m hashes :
  RedbHealthy D → healthy s → represents s m → (∀ h, h ∈ hashes → is_Some (m !! h)) →
  missing_loop s hashes [] = Ok [].
Proof.
  intros Hh Hs Hr. induction hashes as [|h hashes IH]; intros Hall; [done|]. cbn.
  destruct (GameStore_contains s h) as [b|e] eqn:Hc.
  - apply (contains_represents _ _ _ _ Hr) in Hc as ->. cbn.
    rewrite bool_decide_true by (apply Hall; by left). apply IH. intros h' Hh'. apply Hall. by right.
  - exfalso. destruct (lookup_index_healthy s m h Hr Hs) as [found Hl].
    unfold GameStore_contains in Hc. by rewrite Hl in Hc.
Qed.

(** The files of the published manifests can be written. *)
Definition publish_ready : Prop :=
  (∀ g, create_dir_all g = Ok ()) ∧ ∀ old bs, is_ok (fs_write old bs).2.

(** A scheduler, if one is configured, takes the version. *)
Definition scheduler_takes (sched : option string) (g v : N) (manifest : list byte) o : Prop :=
  match sched with
  | None => True
  | Some addr => is_ok (publish_to_scheduler addr g v manifest (or_sched o)).2
  end.
Definition scheduler_after (sched : option string) (g v : N) (manifest : list byte) o : C :=
  match sched with
  | None => or_sched o
  | Some addr => (publish_to_scheduler addr g v manifest (or_sched o)).1
  end.

Lemma commit_version_live sched c o ms i :
  let g := cr_game_id c in let v := cr_version c in
  origin_ok o ms → g < 2^64 → origin_healthy g o → publish_ready → check_commit blake3 c = Ok i →
  (∀ h, h ∈ chunk_set i → is_Some (ms g !! h)) →
  scheduler_takes sched g v (cr_manifest c) o →
  ∃ o', commit_version blake3 sched c o = (o', Ok (mkCommitReply true "")) ∧ origin_healthy g o'.
Proof.
  intros g v Ho Hg (Hh & o1 & s & Hp & Hs) [Hdir Hwr] Hck Hall Hsched. unfold commit_version.
  rewrite (M_bind_ok _ _ o o i) by (unfold lift; by rewrite Hck).
  rewrite (M_bind_ok _ _ _ _ _ Hp).
  pose proof (pack_entry_ok _ _ _ _ _ _ Ho Hg Hp) as (_ & (_ & _ & Hsch) & Hin & _ & Hr & _).
  rewrite (M_bind_ok _ _ o1 o1 []); last first.
  { unfold lift. rewrite (missing_loop_all s (ms g)); [done..|]. intros h Hh'. apply Hall.
    rewrite set_iter_perm in Hh'. by apply elem_of_elements. }
  cbn [bool_decide]. rewrite bool_decide_false by (by intros []).
  destruct (write_published g v (cr_manifest c) o1) as [o2 rw] eqn:Hw.
  pose proof (write_published_ok _ _ _ _ _ _ Hw) as (Hpk & _ & Hsc & _).
  assert (∀ o', or_packs o' = or_packs o2 → origin_healthy g o') as Hend.
  { intros o' Ho'. apply (origin_healthy_found _ _ s); [done| |done]. by rewrite Ho', Hpk. }
  assert (rw = Ok ()) as ->.
  { revert Hw. unfold write_published. rewrite (M_bind_ok _ _ o1 o1 ()) by (unfold lift; by rewrite Hdir).
    rewrite (M_bind_ok get _ o1 o1 o1) by done. specialize (Hwr (or_published o1 !! (g, v)) (cr_manifest c)).
    destruct (fs_write _ _) as [new [[]|e]]; [|done]. unfold modify, lift, mbind, M_bind. by intros [= _ <-]. }
  rewrite (M_bind_ok _ _ _ _ _ Hw). destruct sched as [addr|]; [|eexists; by split; [|apply Hend]].
  unfold attempt, zoom, mbind, M_bind. rewrite Hsc, Hsch.
  destruct (publish_to_scheduler addr g v (cr_manifest c) (or_sched o)) as [c' rp] eqn:Hps.
  cbn [scheduler_takes] in Hsched. change (cr_game_id c) with g. change (cr_version c) with v.
  rewrite Hps in Hsched. rewrite Hps. destruct rp as [[]|e]; [|by destruct Hsched]. eexists. by split; [|apply Hend].
Qed.

(** C21: A commit that is answered at all was for a manifest that decodes, under
    the announced hash and a non-zero game and version.  When the store lacks a
    chunk of the manifest nothing is published and up to five of the missing
    hashes are named; otherwise the manifest is the file of its version, every
    chunk it refers to is stored, and the reply says published exactly when no
    scheduler is configured or the scheduler took the version.  A rejected
    request changes nothing; stores and the other versions never change. *)
Theorem commit_version_spec sched c o o' ms r :
  let g := cr_game_id c in let v := cr_version c in
  origin_ok o ms → g < 2^64 → commit_version blake3 sched c o = (o', r) →
  origin_ok o' ms ∧
  (∀ gv, gv ≠ (g, v) → or_published o' !! gv = or_published o !! gv) ∧
  (¬ is_ok (check_commit blake3 c) → o' = o ∧ ¬ is_ok r) ∧
  (is_ok r → g ≠ 0 ∧ v ≠ 0 ∧
     hash_of (cr_manifest_hash c) = Some (blake3 (take (length (cr_manifest c) - 32) (cr_manifest c)))) ∧
  match r with
  | Ok reply => ∃ i, Manifest.decode blake3 (cr_manifest c) = Ok i ∧
      let missing := filter (λ h, ms g !! h = None) (set_iter (chunk_set i)) in
      (reply = missing_reply (take 5 missing) ∧ missing ≠ [] ∧
         or_published o' = or_published o ∧ or_sched o' = or_sched o) ∨
      ((∀ h, h ∈ chunk_set i → is_Some (ms g !! h)) ∧
         or_published o' !! (g, v) = Some (cr_manifest c) ∧
         cp_published reply = match sched with
           | None => true
           | Some addr => is_ok (publish_to_scheduler addr g v (cr_manifest c) (or_sched o)).2
           end ∧
         or_sched o' = match sched with
           | None => or_sched o
           | Some addr => (publish_to_scheduler addr g v (cr_manifest c) (or_sched o)).1
           end)
  | Err _ => or_sched o' = or_sched o
  end.
Proof. apply commit_version_ok. Qed.

End properties.

(** ** Examples: an origin in memory with the scheduler of this repository *)

#[local] Existing Instance SchedDb.sched_json.
#[local] Instance mem_client : SchedulerClient (ControlService MemDb) :=
  control_client st_message true.

Definition origin0 : Origin MemDb MemFile (ControlService MemDb) :=
  UploadService_new ∅ (ControlService_new SchedDb.mem_sched).

Lemma origin0_ok : origin_ok origin0 (λ _, ∅).
Proof. intros g _. unfold disk_of. cbn. by rewrite !lookup_empty. Qed.

Definition up_data : list byte := [x68; x65; x6c; x6c; x6f].
Definition up_hash : hash32 := toy_hash up_data.
Definition up_chunk : UploadChunk := mkUploadChunk 7 (hash_bytes up_hash) up_data 0.
(** A second chunk whose data does not match its hash. *)
Definition up_bad : UploadChunk := mkUploadChunk 7 (hash_bytes up_hash) [x00] 1.
Definition up_stream : list (result Status UploadChunk) := [Ok up_chunk; Ok up_bad].
Definition origin1 : Origin MemDb MemFile (ControlService MemDb) :=
  (process_upload toy_hash up_stream origin0).1.1.
Definition up_ms : N → gmap hash32 (list byte) := update_at 7 {[ up_hash := up_data ]} (λ _, ∅).

Definition up_acks : list (result Status UploadAck) :=
  [Ok (mkAck (hash_bytes up_hash) true ""); Ok (mkAck (hash_bytes up_hash) false "块哈希校验失败")].

Lemma up_run : (process_upload toy_hash up_stream origin0).1.2 = up_acks ∧
  (process_upload toy_hash up_stream origin0).2 = Ok ().
Proof. vm_compute. done. Qed.

Lemma up_room : room origin0 7 (upload_size up_stream).
Proof.
  intros o1 s Hp. assert (gs_size s = 0) as ->.
  { change s with (default s (ok (o1, Ok s : result Status _).2)). rewrite <- Hp. reflexivity. }
  vm_compute. reflexivity.
Qed.

Lemma origin1_ok : origin_ok origin1 up_ms.
Proof.
  pose proof up_run as [Hacks Hok]. unfold origin1.
  destruct (process_upload toy_hash up_stream origin0) as [[o' acks] r] eqn:Hu. cbn in Hacks, Hok.
  subst acks r.
  destruct (process_upload_ok toy_hash origin0 o' (λ _, ∅) up_chunk [Ok up_bad] up_acks (Ok ())
    origin0_ok ltac:(vm_compute; discriminate) ltac:(vm_compute; reflexivity) up_room Hu)
    as [(e & _ & _ & He & _)|(dn & tail & m' & Hitems & Hf & -> & Ho & _ & _ & Hr)]; [discriminate He|].
  subst tail. rewrite app_nil_r in Hitems. subst dn. exact Ho.
Qed.

Lemma upload_chunks_spec_witness :
  ∃ m', origin_ok origin1 (update_at 7 m' (λ _, ∅)) ∧ is_Some (m' !! up_hash) ∧
    addressed toy_hash m'.
Proof.
  pose proof up_run as [Hacks Hok]. unfold origin1.
  destruct (process_upload toy_hash up_stream origin0) as [[o' acks] r] eqn:Hu. cbn in Hacks, Hok.
  subst acks r.
  destruct (upload_chunks_spec toy_hash origin0 o' (λ _, ∅) up_chunk [Ok up_bad] up_acks (Ok ())
    origin0_ok ltac:(vm_compute; discriminate) ltac:(vm_compute; reflexivity) up_room Hu)
    as [(e & _ & _ & He & _)|(dn & tail & m' & Hitems & Hf & _ & Ho & Hin & Ha & Hr)];
    [discriminate He|].
  subst tail. rewrite app_nil_r in Hitems. subst dn. exists m'. split_and!; [exact Ho| |].
  - inversion Hin as [|c cs Hc _]. exact Hc.
  - apply Ha. apply map_Forall_empty.
Defined.

Definition up_query : ChunkQuery :=
  mkChunkQuery 7 [hash_bytes (hash_rep x01); hash_bytes up_hash].

Lemma query_existing_spec_witness :
  ∃ o' reply, query_existing_chunks up_query origin1 = (o', Ok reply) ∧
    ce_existing_hashes reply = [hash_bytes up_hash].
Proof.
  assert (is_ok (query_existing_chunks up_query origin1).2) as Hok by (vm_compute; exact I).
  destruct (query_existing_chunks up_query origin1) as [o' r] eqn:Hq.
  pose proof (query_existing_spec origin1 o' up_ms up_query r origin1_ok eq_refl Hq) as (_ & _ & Hr).
  destruct r as [reply|]; [|done]. destruct Hr as (_ & _ & Hr). exists o', reply.
  split; [done|]. rewrite Hr. vm_compute. reflexivity.
Defined.

(** A manifest with one file that is the uploaded chunk. *)
Definition up_index : GameIndex :=
  build toy_hash [mkFile "game.exe" up_hash [mkChunk up_hash 5]].
Definition up_commit : CommitRequest :=
  mkCommit 7 1 (Manifest.encode up_index) (hash_bytes (gi_manifest_hash up_index)).

Lemma up_commit_run :
  (commit_version toy_hash (Some "scheduler"%string) up_commit origin1).2 =
  Ok (mkCommitReply true "").
Proof. vm_compute. reflexivity. Qed.

Lemma commit_version_spec_witness :
  ∃ o', commit_version toy_hash (Some "scheduler"%string) up_commit origin1 =
      (o', Ok (mkCommitReply true "")) ∧
    or_published o' !! (7, 1) = Some (Manifest.encode up_index) ∧
    SchedDb.get_version (cs_store (or_sched o')) 7 1 = Ok (Some (Manifest.encode up_index)).
Proof.
  pose proof up_commit_run as Hok.
  assert (SchedDb.get_version (cs_store (or_sched (commit_version toy_hash
    (Some "scheduler"%string) up_commit origin1).1)) 7 1 = Ok (Some (Manifest.encode up_index)))
    as Hv by (vm_compute; reflexivity).
  destruct (commit_version toy_hash (Some "scheduler"%string) up_commit origin1) as [o' r] eqn:Hc.
  cbn [fst snd] in Hok, Hv. subst r. exists o'. split; [done|].
  pose proof (commit_version_spec toy_hash (Some "scheduler"%string) up_commit origin1 o' up_ms
    (Ok (mkCommitReply true "")) origin1_ok eq_refl Hc) as (_ & _ & _ & _ & i & _ & Hr).
  cbv zeta in Hr. destruct Hr as [(Hr & _)|(_ & Hp & _ & _)]; [discriminate Hr|].
  split; [exact Hp|exact Hv].
Defined.
