(* ===== verification/DataPath.v ===== *)
(** * DataPath: serving and fetching chunks (crates/origin/src/datapath.rs,
    crates/agent/src/fetch.rs)

    Both ends of the data plane's wire protocol.  The server end works on the
    shared pack stores of Upload and on the data plane's own table of sources;
    the client end checks what it receives and hands it to a sink.  The QUIC
    transport is a parameter: a connection is the bytes of the request and the
    bytes of the reply that arrive before the stream ends. *)

From S2P Require Import Prelude Bytes Text FileIO Redb Manifest Storage SchedControl Upload.

(** ** The gate on the kind of path *)

Definition allow_data (has_direct has_relay : bool) : bool := has_direct.

(** Both arms of the source return [Ok(())]; one prints. *)
Definition reject_relay_only (has_direct has_relay : bool) : result error () :=
  if negb (allow_data has_direct has_relay) then Ok () else Ok ().

Definition gate_or_reject (ready : bool) : result error () :=
  if negb ready then reject_relay_only false true else Ok ().

(** The n-th turn sees [check n]; [late n] tells whether the deadline has passed
    by then. *)
Fixpoint wait_for_direct_path (check : nat → bool * bool) (late : nat → bool) (n fuel : nat) :
    option bool :=
  match fuel with
  | O => None
  | S fuel =>
    let '(has_direct, has_relay) := check n in
    if has_direct then Some true else
    if negb has_relay || late n then Some false else
    wait_for_direct_path check late (S n) fuel
  end.

(** ** Reading and writing big-endian integers (tokio's AsyncReadExt) *)

Definition read_be (k : nat) : cursor N := buf ← read_exact k; mret (be_decode buf).

(** One connection: what is left of the request, what was sent. *)
Record Conn := mkConn { cn_recv : list byte; cn_send : list byte }.

Definition recv {S A} (msg : string) (p : cursor A) (get : S → Conn) (set : Conn → S → S) :
    M S error A :=
  map_err_m (cons msg)
    (zoom (λ s, cn_recv (get s)) (λ r s, set (mkConn r (cn_send (get s))) s) p).
Definition send {S} (bs : list byte) (get : S → Conn) (set : Conn → S → S) : M S error () :=
  modify (λ s, set (mkConn (cn_recv (get s)) (cn_send (get s) ++ bs)) s).

(** ** The server end *)

(** The services of a process plus the data plane's table: a [Pack] entry is the
    handle under its game in the shared table, a [Cafe] entry any other source. *)
Record DataState (D F C K : Type) := mkData {
  ds_origin : Origin D F C;
  ds_nodes : gmap N (NodeStore () K);
  ds_conn : Conn
}.
Arguments mkData {D F C K}. Arguments ds_origin {D F C K}. Arguments ds_nodes {D F C K}.
Arguments ds_conn {D F C K}.

Section server.
Context {D F C K : Type} `{!RedbOps D, !FileOps F, !CompioOps F, !OpenOps D F, !ChunkSource K}.
Abbreviation state := (DataState D F C K).
Abbreviation handler := (M state error).

Definition set_origin (o : Origin D F C) (s : state) : state := mkData o (ds_nodes s) (ds_conn s).
Definition set_nodes (n : gmap N (NodeStore () K)) (s : state) : state :=
  mkData (ds_origin s) n (ds_conn s).
Definition set_conn (c : Conn) (s : state) : state := mkData (ds_origin s) (ds_nodes s) c.

Definition unmanaged (game_id : N) : error := [("游戏未纳管: " ++ dec game_id)%string].

(** [stores.entry(game_id)] and the handle behind it. *)
Definition pack_handle (game_id : N) : handler (NodeStore (GameStore D F) K) :=
  store ← zoom ds_origin set_origin (pack_entry id game_id);
  mret (Pack store).

Definition node_entry (pack_default : bool) (game_id : N) :
    handler (NodeStore (GameStore D F) K) :=
  s ← get;
  match ds_nodes s !! game_id with
  | Some (Pack _) => pack_handle game_id
  | Some (Cafe source) => mret (Cafe source)
  | None =>
    if negb pack_default then throw (unmanaged game_id) else
    store ← pack_handle game_id;
    modify (set_nodes (<[game_id := Pack ()]> (ds_nodes s)));;
    mret store
  end.

(** [for _ in 0..count] *)
Fixpoint serve_chunks (store : NodeStore (GameStore D F) K) (count : nat) : handler () :=
  match count with
  | O => mret ()
  | S count =>
    hash ← recv "读块哈希失败" read_hash ds_conn set_conn;
    found ← lift (read_chunk store hash);
    data ← lift (ok_or ["块不存在"%string] found);
    send (be_encode 4 (as_u32 (lenN data))) ds_conn set_conn;;
    send data ds_conn set_conn;;
    serve_chunks store count
  end.

Definition handle_conn (ready pack_default : bool) : handler () :=
  lift (gate_or_reject ready);;
  game_id ← recv "读 game_id 失败" (read_be 8) ds_conn set_conn;
  count ← recv "读块数失败" (read_be 4) ds_conn set_conn;
  store ← node_entry pack_default game_id;
  serve_chunks store (N.to_nat count).

End server.

(** ** The client end *)

(** [PeerTarget]; endpoint and socket addresses are opaque. *)
Record PeerTarget := mkTarget {
  pt_endpoint_id : string; pt_addr : option string; pt_relay_url : option string;
  pt_direct_only : bool
}.

(** iroh's connection attempts and the parser of relay URLs. *)
Class Dial := {
  dial_direct : string → string → result error ();
  parse_relay : string → result error string;
  dial_relay : string → string → result error ()
}.

Inductive path := Direct | ViaRelay.

Section connect.
Context `{!Dial}.

Definition connect_relay (target : PeerTarget) (last_err : option error) : result error path :=
  let failed e := Err (default ["peer 无可用连接地址"%string] e) in
  if negb (pt_direct_only target) then
    match pt_relay_url target with
    | Some url =>
      relay ← with_context "relay 地址非法" (parse_relay url);
      match dial_relay (pt_endpoint_id target) relay with
      | Ok _ => Ok ViaRelay
      | Err err => failed (Some err)
      end
    | None => failed last_err
    end
  else failed last_err.

Definition connect_peer (target : PeerTarget) : result error path :=
  match pt_addr target with
  | Some addr =>
    match dial_direct (pt_endpoint_id target) addr with
    | Ok _ => Ok Direct
    | Err err => connect_relay target (Some err)
    end
  | None => connect_relay target None
  end.
End connect.

Record FetchStats := mkStats { fs_downloaded : N; fs_bytes : N; fs_failed : list hash32 }.
Definition stats0 : FetchStats := mkStats 0 0 [].

Definition add_failed (h : hash32) (t : FetchStats) : FetchStats :=
  mkStats (fs_downloaded t) (fs_bytes t) (fs_failed t ++ [h]).
Definition add_done (len : N) (t : FetchStats) : FetchStats :=
  mkStats (fs_downloaded t + 1) (add_u64 (fs_bytes t) len) (fs_failed t).

Section client.
Context (blake3 : list byte → hash32).
Context {S : Type} (sink : hash32 → list byte → M S error ()).

Definition store_chunk (hash : hash32) (data : list byte) : M S error bool :=
  let actual := blake3 data in
  if decide (actual ≠ hash) then mret false else
  sink hash data;;
  mret true.

(** The bytes of the request. *)
Definition request (game_id : N) (hashes : list hash32) : list byte :=
  be_encode 8 game_id ++ be_encode 4 (as_u32 (lenN hashes)) ++ concat (map hash_bytes hashes).

(** The receiving loop over the bytes of the reply. *)
Fixpoint fetch_loop (hashes : list hash32) (stats : FetchStats) :
    M (list byte * S) error FetchStats :=
  match hashes with
  | [] => mret stats
  | hash :: hashes =>
    len ← attempt (zoom fst (λ r s, (r, s.2)) (read_be 4 : cursor N));
    match len : result error N with
    | Err _ => fetch_loop hashes (add_failed hash stats)
    | Ok len =>
      data ← map_err_m (cons "读取块数据失败"%string)
               (zoom fst (λ r s, (r, s.2)) (read_exact (N.to_nat len)));
      stored ← zoom snd (λ t s, (s.1, t)) (store_chunk hash data);
      if negb stored then fetch_loop hashes (add_failed hash stats)
      else fetch_loop hashes (add_done len stats)
    end
  end.

(** [exchange] sends the request on an open stream and gives the bytes that
    arrive until the stream ends, however it ends. *)
Definition fetch_chunks `{!Dial} (exchange : list byte → result error (list byte))
    (target : PeerTarget) (game_id : N) (hashes : list hash32) : M S error FetchStats := λ s,
  if bool_decide (hashes = []) then (s, Ok stats0) else
  match (connect_peer target;; exchange (request game_id hashes)) with
  | Err e => (s, Err e)
  | Ok reply =>
    match fetch_loop hashes stats0 (reply, s) with ((_, s), r) => (s, r) end
  end.

End client.
