(* ===== verification/DataPathSpec.v ===== *)
(** * DataPathSpec: what the data plane guarantees

    A server answers a request with the frames of the chunks it holds, in order,
    up to the first it cannot give; a client accepts from any peer only data that
    hashes to what it asked for; put together, a chunk that an upload stored
    reaches the client with its bytes. *)

From S2P Require Import Prelude Bytes Text FileIO Redb Manifest.
From S2P Require Import Storage StorageSpec SchedControl Upload UploadSpec DataPath.

Definition frame (data : list byte) : list byte := be_encode 4 (as_u32 (lenN data)) ++ data.

(** ** The gate *)

Lemma gate_or_reject_ok ready : gate_or_reject ready = Ok ().
Proof. by destruct ready. Qed.

(** The wait answers within the turns the deadline leaves. *)
Lemma wait_for_direct_path_ends check late n fuel :
  (∀ k, (n + fuel ≤ S k)%nat → late k = true) → (0 < fuel)%nat →
  ∃ b, wait_for_direct_path check late n fuel = Some b.
Proof.
  revert n. induction fuel as [|fuel IH]; intros n Hlate Hf; [lia|]. cbn.
  destruct (check n) as [d rl]. destruct d; [by eexists|].
  destruct (negb rl || late n) eqn:Hl; [by eexists|]. apply orb_false_iff in Hl as [_ Hl].
  destruct fuel; [rewrite Hlate in Hl by lia; done|]. apply IH; [|lia].
  intros k Hk. apply Hlate. lia.
Qed.

(** ** Integers on the wire *)

Lemma read_be_app k n rest :
  n < 256 ^ N.of_nat k → read_be k (be_encode k n ++ rest) = (rest, Ok n).
Proof.
  intros. unfold read_be. rewrite (M_bind_ok _ _ _ rest (be_encode k n)).
  - unfold mret, M_ret. by rewrite be_decode_encode_small.
  - apply read_exact_app, be_encode_length.
Qed.

Lemma read_hash_app h rest : read_hash (hash_bytes h ++ rest) = (rest, Ok h).
Proof. by apply (codec_parse _ _ _ codec_hash). Qed.

Lemma recv_ok {S A} msg (p : cursor A) (get : S → Conn) set s rest a :
  p (cn_recv (get s)) = (rest, Ok a) →
  recv msg p get set s = (set (mkConn rest (cn_send (get s))) s, Ok a).
Proof. intros Hp. unfold recv, map_err_m, zoom. by rewrite Hp. Qed.

Section server.
Context {D F C K : Type} `{RedbLaws D, FileLaws F, !CompioOps F, !OpenOps D F, !OpenLaws D F}.
Context `{ChunkSourceLaws K}.
Abbreviation state := (DataState D F C K).
Implicit Types (s : state) (ms : N → gmap hash32 (list byte)).

(** The reply to a list of hashes from a source read by [R]. *)
Fixpoint reply_to (R : hash32 → result error (option (list byte))) (hs : list hash32) :
    list byte * result error () :=
  match hs with
  | [] => ([], Ok ())
  | h :: hs =>
    match R h with
    | Ok (Some data) => let t := reply_to R hs in (frame data ++ t.1, t.2)
    | Ok None => ([], Err ["块不存在"%string])
    | Err e => ([], Err e)
    end
  end.

Lemma serve_chunks_reply store hs s :
  cn_recv (ds_conn s) = concat (map hash_bytes hs) →
  ∃ rest, serve_chunks store (length hs) s =
    (set_conn (mkConn rest (cn_send (ds_conn s) ++ (reply_to (read_chunk store) hs).1)) s,
     (reply_to (read_chunk store) hs).2).
Proof.
  revert s. induction hs as [|h hs IH]; intros s Hs.
  { exists (cn_recv (ds_conn s)). cbn. rewrite app_nil_r. by destruct s as [? ? []]. }
  cbn [serve_chunks length]. cbn in Hs.
  erewrite M_bind_ok by (apply recv_ok; rewrite Hs; apply read_hash_app).
  cbn [reply_to]. destruct (read_chunk store h) as [[data|]|e].
  - cbn -[serve_chunks reply_to frame]. unfold lift, ok_or, mbind, M_bind, send, modify.
    cbn -[serve_chunks reply_to frame].
    destruct (IH (set_conn (mkConn (concat (map hash_bytes hs))
      ((cn_send (ds_conn s) ++ be_encode 4 (as_u32 (lenN data))) ++ data)) s)) as [rest Hr]; [done|].
    exists rest. etrans; [exact Hr|]. cbn. unfold frame. by rewrite !(assoc_L app).
  - exists (concat (map hash_bytes hs)). by cbn; rewrite app_nil_r.
  - exists (concat (map hash_bytes hs)). by cbn; rewrite app_nil_r.
Qed.

(** What the data plane stands for: the table points to the pack stores or to
    sources that hold a map. *)
Definition source_ok s ms (g : N) (m : gmap hash32 (list byte)) : Prop :=
  match ds_nodes s !! g with Some (Cafe source) => holds source m | _ => m = ms g end.

Definition store_holds (store : NodeStore (GameStore D F) K) (m : gmap hash32 (list byte)) : Prop :=
  match store with Pack store => represents store m | Cafe source => holds source m end.

Lemma store_holds_read store m h r :
  store_holds store m → read_chunk store h = Ok r → r = m !! h.
Proof.
  destruct store; cbn; intros Hm Hr; [by eapply read_chunk_represents|by eapply read_chunk_holds].
Qed.

Lemma pack_handle_ok g s ms s' r :
  origin_ok (ds_origin s) ms → g < 2^64 → pack_handle g s = (s', r) →
  origin_ok (ds_origin s') ms ∧ ds_conn s' = ds_conn s ∧ ds_nodes s' = ds_nodes s ∧
  or_published (ds_origin s') = or_published (ds_origin s) ∧
  match r with
  | Ok store => store_holds store (ms g)
  | Err e => open (disk_of (ds_origin s) g) g = Err e
  end.
Proof.
  intros Ho Hg Hp. unfold pack_handle in Hp. m_step Hp as s2 store e Hz; unfold zoom in Hz;
    destruct (pack_entry id g (ds_origin s)) as [o2 rz] eqn:Hpe; injection Hz as <- ->;
    pose proof (pack_entry_ok _ _ _ _ _ _ Ho Hg Hpe) as (Ho2 & (_ & Hpub & _) & Hres).
  - injection Hp as <- <-. by destruct Hres as (_ & _ & Hr & _).
  - split_and!; try done. unfold pack_entry in Hpe.
    rewrite (M_bind_ok get _ _ _ _ eq_refl) in Hpe. destruct (or_packs _ !! g); [done|].
    unfold lift, mbind, M_bind in Hpe. destruct (open _ _); by simplify_eq/=.
Qed.

Lemma node_entry_ok pack_default g s ms m s' r :
  origin_ok (ds_origin s) ms → g < 2^64 → source_ok s ms g m →
  node_entry pack_default g s = (s', r) →
  origin_ok (ds_origin s') ms ∧ ds_conn s' = ds_conn s ∧
  or_published (ds_origin s') = or_published (ds_origin s) ∧ source_ok s' ms g m ∧
  match r with
  | Ok store => store_holds store m ∧ (ds_nodes s !! g = None → pack_default = true)
  | Err e => (ds_nodes s !! g = None ∧ pack_default = false ∧ e = unmanaged g) ∨
      open (disk_of (ds_origin s) g) g = Err e
  end.
Proof.
  intros Ho Hg Hsrc Hn. unfold node_entry in Hn. rewrite (M_bind_ok get _ s s s) in Hn by done.
  unfold source_ok in *. destruct (ds_nodes s !! g) as [[[]|source]|] eqn:Hnode.
  - subst m. apply (pack_handle_ok _ _ _ _ _ Ho Hg) in Hn as (Ho1 & Hc1 & Hn1 & Hp1 & Hr1). rewrite Hn1, Hnode.
    split_and!; try done. destruct r; [by split|by right].
  - injection Hn as <- <-. by rewrite Hnode.
  - destruct pack_default; cbn in Hn.
    + m_step Hn as s1 store e Hp; apply (pack_handle_ok _ _ _ _ _ Ho Hg) in Hp as (Ho1 & Hc1 & Hn1 & Hp1 & Hr1).
      * injection Hn as <- <-. cbn. rewrite lookup_insert_eq. subst m. by split_and!.
      * rewrite Hn1, Hnode. split_and!; try done. by right.
    + injection Hn as <- <-. rewrite Hnode. split_and!; try done. by left.
Qed.

(** The reply over a source that stands for a map. *)
Lemma reply_to_spec store m hs :
  store_holds store m →
  let t := reply_to (read_chunk store) hs in
  ∃ k ds, (λ h, m !! h) <$> take k hs = Some <$> ds ∧
    t.1 = concat (map frame ds) ∧
    match t.2 with
    | Ok _ => k = length hs
    | Err e => ∃ h, hs !! k = Some h ∧
        ((m !! h = None ∧ e = ["块不存在"%string]) ∨ read_chunk store h = Err e)
    end.
Proof.
  intros Hm. cbv zeta. induction hs as [|h hs (k & ds & Hds & Ht & Hend)].
  { by exists 0%nat, []. }
  cbn [reply_to]. destruct (read_chunk store h) as [[data|]|e] eqn:Hr; cbn [fst snd].
  - apply (store_holds_read _ _ _ _ Hm) in Hr. exists (S k), (data :: ds). split_and!; try done.
    + cbn. by rewrite <- Hr, Hds.
    + by rewrite Ht.
    + revert Hend. destruct (reply_to _ hs).2; [by intros ->|done].
  - apply (store_holds_read _ _ _ _ Hm) in Hr. exists 0%nat, []. split_and!; try done.
    exists h. split; [done|]. by left.
  - exists 0%nat, []. split_and!; try done. exists h. split; [done|]. by right.
Qed.

End server.

(** ** The client *)

Section client.
Context (blake3 : list byte → hash32).
Context {S : Type} (sink : hash32 → list byte → M S error ()).

(** Hand a list of chunks to the sink. *)
Fixpoint sink_all (cs : list (hash32 * list byte)) : M S error () :=
  match cs with
  | [] => mret ()
  | c :: cs => sink c.1 c.2;; sink_all cs
  end.

Lemma sink_all_cons_ok c cs s s1 :
  sink c.1 c.2 s = (s1, Ok ()) → sink_all (c :: cs) s = sink_all cs s1.
Proof. intros Hs. cbn. by rewrite (M_bind_ok _ _ _ _ _ Hs). Qed.

Definition verified (c : hash32 * list byte) : Prop := blake3 c.2 = c.1.
Definition got_bytes (cs : list (hash32 * list byte)) (n : N) : N :=
  foldl (λ n c, add_u64 n (lenN c.2)) n cs.

(** One turn of the receiving loop. *)
Inductive turn (h : hash32) (rs : list byte) (s : S) : list byte * S →
    result error (option (list byte)) → Prop :=
| turn_eof e : (read_be 4 rs).2 = Err e → turn h rs s ((read_be 4 rs).1, s) (Ok None)
| turn_short len rs1 rs2 e : read_be 4 rs = (rs1, Ok len) →
    read_exact (N.to_nat len) rs1 = (rs2, Err e) →
    turn h rs s (rs2, s) (Err ("读取块数据失败"%string :: e))
| turn_bad len rs1 rs2 data : read_be 4 rs = (rs1, Ok len) →
    read_exact (N.to_nat len) rs1 = (rs2, Ok data) → blake3 data ≠ h →
    turn h rs s (rs2, s) (Ok None)
| turn_sink len rs1 rs2 data s1 : read_be 4 rs = (rs1, Ok len) →
    read_exact (N.to_nat len) rs1 = (rs2, Ok data) → lenN data = len → blake3 data = h →
    sink h data s = (s1, Ok ()) → turn h rs s (rs2, s1) (Ok (Some data))
| turn_sink_err len rs1 rs2 data s1 e : read_be 4 rs = (rs1, Ok len) →
    read_exact (N.to_nat len) rs1 = (rs2, Ok data) → blake3 data = h →
    sink h data s = (s1, Err e) → turn h rs s (rs2, s1) (Err e).

Lemma fetch_loop_turn h hs stats rs s :
  ∃ t r, turn h rs s t r ∧
    fetch_loop blake3 sink (h :: hs) stats (rs, s) =
    match r with
    | Ok None => fetch_loop blake3 sink hs (add_failed h stats) t
    | Ok (Some data) => fetch_loop blake3 sink hs (add_done (lenN data) stats) t
    | Err e => (t, Err e)
    end.
Proof.
  cbn [fetch_loop]. unfold attempt, zoom, map_err_m, mbind, M_bind. cbn [fst snd].
  destruct (read_be 4 rs) as [rs1 [len|e]] eqn:Hlen; cbn [fst snd]; last first.
  { exists (rs1, s), (Ok None). split; [|done].
    replace (rs1, s) with ((read_be 4 rs).1, s) by (by rewrite Hlen).
    apply (turn_eof _ _ _ e). by rewrite Hlen. }
  destruct (read_exact (N.to_nat len) rs1) as [rs2 [data|e]] eqn:Hdata; cbn [fst snd map_err];
    [|eexists _, _; split; [by eapply turn_short|done]].
  unfold store_chunk, mbind, M_bind. destruct (decide (blake3 data ≠ h)) as [Hne|Heq].
  { eexists _, (Ok None). split; [by eapply turn_bad|done]. }
  apply dec_stable in Heq. destruct (sink h data s) as [s1 [[]|e]] eqn:Hs.
  - assert (lenN data = len) as Hl.
    { apply read_exact_inv in Hdata as [Hl _]. unfold lenN. rewrite Hl. lia. }
    eexists _, (Ok (Some data)). split; [by eapply turn_sink|]. by rewrite Hl.
  - eexists _, (Err e). split; [by eapply turn_sink_err|done].
Qed.

(** Whatever the reply is. *)
Lemma fetch_loop_safe hs stats rs s rs' s' r :
  fetch_loop blake3 sink hs stats (rs, s) = ((rs', s'), r) →
  ∃ got, Forall verified got ∧ got.*1 `sublist_of` hs ∧
    match r with
    | Ok t => sink_all got s = (s', Ok ()) ∧
        fs_downloaded t = fs_downloaded stats + lenN got ∧
        fs_bytes t = got_bytes got (fs_bytes stats) ∧
        ∃ failed, fs_failed t = fs_failed stats ++ failed ∧ failed ++ got.*1 ≡ₚ hs
    | Err _ => (sink_all got s).1 = s'
    end.
Proof.
  revert stats rs s. induction hs as [|h hs IH]; intros stats rs s Hf.
  { injection Hf as <- <- <-. exists []. split_and!; try done; [by rewrite lenN_nil, N.add_0_r|].
    exists []. by rewrite app_nil_r. }
  destruct (fetch_loop_turn h hs stats rs s) as ([rs1 s1] & r1 & Ht & Heq).
  rewrite Heq in Hf. destruct r1 as [[data|]|e].
  - apply IH in Hf as (got & Hv & Hsub & Hr). inversion Ht; subst.
    exists ((blake3 data, data) :: got). rewrite (sink_all_cons_ok _ _ _ s1) by done.
    split_and!; [by constructor|by apply sublist_skip|].
    destruct r as [t|e]; [|done]. destruct Hr as (Hs & Hd & Hb & failed & Hfl & Hperm).
    cbn in Hd, Hb, Hfl. split_and!; [done|rewrite Hd, lenN_cons; lia|done|].
    exists failed. split; [done|]. cbn. by rewrite <- Permutation_middle, Hperm.
  - assert (s1 = s) as -> by (by inversion Ht).
    apply IH in Hf as (got & Hv & Hsub & Hr). exists got.
    split_and!; [done|by apply sublist_cons|]. destruct r as [t|e]; [|done].
    destruct Hr as (Hs & Hd & Hb & failed & Hfl & Hperm). split_and!; [done..|].
    exists (h :: failed). rewrite Hfl. cbn. rewrite <- (assoc_L app). split; [done|]. by rewrite Hperm.
  - injection Hf as <- <- <-. inversion Ht; subst.
    + exists []. split_and!; [done|apply sublist_nil_l|done].
    + exists [(blake3 data, data)]. split_and!; [by repeat constructor| |].
      * apply sublist_skip, sublist_nil_l.
      * cbn. unfold mbind, M_bind. match goal with Hs : sink _ _ _ = _ |- _ => by rewrite Hs end.
Qed.

(** An honest reply: frames of the right data for the first chunks, then [tail]. *)
Lemma fetch_loop_honest cs tail hs stats s s' :
  Forall (λ c, verified c ∧ lenN c.2 < 2^32) cs → sink_all cs s = (s', Ok ()) →
  fetch_loop blake3 sink (cs.*1 ++ hs) stats (concat (map (frame ∘ snd) cs) ++ tail, s) =
  fetch_loop blake3 sink hs (mkStats (fs_downloaded stats + lenN cs)
    (got_bytes cs (fs_bytes stats)) (fs_failed stats)) (tail, s').
Proof.
  revert stats s. induction cs as [|[h data] cs IH]; intros [dl by_ fl] s Hcs Hs.
  { injection Hs as <-. cbn. by rewrite lenN_nil, N.add_0_r. }
  apply Forall_cons in Hcs as [[Hv Hl] Hcs]. cbn in Hv, Hl, Hs.
  m_step Hs as s1 [] e Hs1.
  cbn [fmap list_fmap app fst snd map concat compose fetch_loop].
  unfold attempt, zoom, map_err_m, mbind, M_bind. cbn [fst snd].
  unfold frame at 1. rewrite as_u32_small by done. rewrite <- !(assoc_L app), read_be_app by done.
  cbn [fst snd]. rewrite read_exact_app by (unfold lenN; lia). cbn [fst snd map_err].
  unfold store_chunk. rewrite decide_False by (by intros []).
  unfold mbind, M_bind. rewrite Hs1. cbn [fst snd negb].
  etrans; [apply (IH _ s1 Hcs Hs)|]. cbn [fs_downloaded fs_bytes fs_failed add_done].
  replace (dl + 1 + lenN cs) with (dl + lenN ((h, data) :: cs)) by (rewrite lenN_cons; lia).
  done.
Qed.

(** A reply that ends early: what is left to receive has failed. *)
Lemma fetch_loop_eof hs stats s :
  fetch_loop blake3 sink hs stats ([], s) =
  (([], s), Ok (mkStats (fs_downloaded stats) (fs_bytes stats) (fs_failed stats ++ hs))).
Proof.
  revert stats. induction hs as [|h hs IH]; intros [dl by_ fl].
  { cbn. by rewrite app_nil_r. }
  cbn [fetch_loop]. unfold attempt, zoom, mbind, M_bind. cbn [fst snd read_be].
  change ((read_be 4 : cursor N) []) with (@nil byte, @Err error N ["failed to fill whole buffer"%string]).
  cbn [fst snd]. etrans; [apply IH|]. cbn. by rewrite <- (assoc_L app).
Qed.

End client.

(** ** Properties *)

Section properties.
Context (blake3 : list byte → hash32).
Context {D F C K : Type} `{RedbLaws D, FileLaws F, !CompioOps F, !OpenOps D F, !OpenLaws D F}.
Context `{ChunkSourceLaws K}.
Implicit Types (s : DataState D F C K) (ms : N → gmap hash32 (list byte)).

(** The request as the server reads it. *)
Lemma handle_conn_request ready pack_default s g hs :
  g < 2^64 → lenN hs < 2^32 → ds_conn s = mkConn (request g hs) [] →
  handle_conn ready pack_default s =
  (store ← node_entry pack_default g; serve_chunks store (length hs))
    (set_conn (mkConn (concat (map hash_bytes hs)) []) s).
Proof.
  intros Hg Hl Hc. unfold handle_conn.
  rewrite (M_bind_ok _ _ s s ()) by (unfold lift; by rewrite gate_or_reject_ok).
  erewrite M_bind_ok by (apply recv_ok; rewrite Hc; apply read_be_app; exact Hg).
  erewrite M_bind_ok; last first.
  { apply recv_ok. apply read_be_app. rewrite as_u32_small by done. exact Hl. }
  rewrite as_u32_small by done. unfold lenN at 1. rewrite Nat2N.id. cbn. by rewrite Hc.
Qed.

Lemma handle_conn_ok ready pack_default s ms g m hs s' r :
  g < 2^64 → lenN hs < 2^32 → origin_ok (ds_origin s) ms → source_ok s ms g m →
  ds_conn s = mkConn (request g hs) [] → handle_conn ready pack_default s = (s', r) →
  origin_ok (ds_origin s') ms ∧
  or_published (ds_origin s') = or_published (ds_origin s) ∧
  ∃ k ds, (λ h, m !! h) <$> take k hs = Some <$> ds ∧
    cn_send (ds_conn s') = concat (map frame ds) ∧
    match r with
    | Ok _ => k = length hs ∧ (ds_nodes s !! g = None → pack_default = true)
    | Err e =>
        (ds_nodes s !! g = None ∧ pack_default = false ∧ e = unmanaged g ∧ k = 0%nat) ∨
        (open (disk_of (ds_origin s) g) g = Err e ∧ k = 0%nat) ∨
        ∃ h, hs !! k = Some h ∧ ((m !! h = None ∧ e = ["块不存在"%string]) ∨
          ∃ store, store_holds store m ∧ @read_chunk (NodeStore (GameStore D F) K) _ store h = Err e)
    end.
Proof.
  intros Hg Hl Ho Hsrc Hc Hh. rewrite (handle_conn_request _ _ _ g hs) in Hh by done.
  set (s0 := set_conn _ s) in Hh.
  m_step Hh as s1 store e Hn; apply (node_entry_ok _ _ s0 ms m) in Hn
    as (Ho1 & Hc1 & Hp1 & Hsrc1 & Hres); try done.
  - destruct Hres as [Hst Hdef].
    destruct (serve_chunks_reply store hs s1) as [rest Hs]; [by rewrite Hc1|].
    rewrite Hs in Hh. injection Hh as <- <-. split_and!; [done..|].
    destruct (reply_to_spec store m hs Hst) as (k & ds & Hds & Hb & Hend).
    exists k, ds. split_and!; [done| |].
    + cbn. rewrite Hc1. cbn. exact Hb.
    + destruct (reply_to _ hs).2 as [[]|e]; [by split|]. right; right.
      destruct Hend as (h & Hk & [Hm|Hm]); exists h; (split; [done|]); [by left|right; eauto].
  - split_and!; [done..|]. exists 0%nat, []. split_and!; try done.
    + by rewrite Hc1.
    + destruct Hres as [(Hn & Hd & ->)|Hop]; [by left|right; by left].
Qed.

(** A request is answered with the frames of the stored chunks, in the
    order asked, up to the first hash the source does not give: all of them when
    the handler succeeds, else the error says why it stopped (an unmanaged game,
    an absent chunk, or an I/O error).  Serving changes no store and publishes
    nothing, and the outcome does not depend on whether a direct path came up. *)
Theorem datapath_serve_spec ready pack_default s ms g m hs s' r :
  g < 2^64 → lenN hs < 2^32 → origin_ok (ds_origin s) ms → source_ok s ms g m →
  ds_conn s = mkConn (request g hs) [] → handle_conn ready pack_default s = (s', r) →
  handle_conn (negb ready) pack_default s = (s', r) ∧
  origin_ok (ds_origin s') ms ∧
  or_published (ds_origin s') = or_published (ds_origin s) ∧
  ∃ k ds, (λ h, m !! h) <$> take k hs = Some <$> ds ∧
    cn_send (ds_conn s') = concat (map frame ds) ∧
    match r with
    | Ok _ => k = length hs ∧ (ds_nodes s !! g = None → pack_default = true)
    | Err e =>
        (ds_nodes s !! g = None ∧ pack_default = false ∧ e = unmanaged g ∧ k = 0%nat) ∨
        (open (disk_of (ds_origin s) g) g = Err e ∧ k = 0%nat) ∨
        ∃ h, hs !! k = Some h ∧ ((m !! h = None ∧ e = ["块不存在"%string]) ∨
          ∃ store, store_holds store m ∧ @read_chunk (NodeStore (GameStore D F) K) _ store h = Err e)
    end.
Proof.
  intros Hg Hl Ho Hsrc Hc Hh. split; [|by eapply handle_conn_ok].
  rewrite <- Hh, !(handle_conn_request _ _ _ g hs) by done. done.
Qed.

Context `{!Dial} {S : Type} (sink : hash32 → list byte → M S error ()).

(** C4: Whatever bytes a peer answers, the sink receives only data that hashes
    to a requested hash, in the order of the requests; when the fetch returns,
    every requested chunk is either counted as downloaded or listed as failed,
    never both; when it fails, what was received so far has been handed over.  A
    direct-only peer is never reached through a relay, and an empty request
    contacts nobody. *)
Theorem fetch_chunks_safe exchange target g hs (t t' : S) r :
  fetch_chunks blake3 sink exchange target g hs t = (t', r) →
  (hs = [] → t' = t ∧ r = Ok stats0) ∧
  (connect_peer target = Ok ViaRelay → pt_direct_only target = false) ∧
  ∃ got, Forall (λ c, blake3 c.2 = c.1) got ∧ got.*1 `sublist_of` hs ∧
    match r with
    | Ok stats => sink_all sink got t = (t', Ok ()) ∧ fs_downloaded stats = lenN got ∧
        fs_bytes stats = foldl (λ n c, add_u64 n (lenN c.2)) 0 got ∧
        fs_failed stats ++ got.*1 ≡ₚ hs
    | Err _ => (sink_all sink got t).1 = t'
    end.
Proof.
  intros Hf. split_and!.
  - intros ->. by injection Hf as <- <-.
  - unfold connect_peer, connect_relay. intros Hc. destruct (pt_direct_only target); [exfalso|done].
    destruct (pt_addr target); [destruct (dial_direct _ _)|]; discriminate Hc.
  - unfold fetch_chunks in Hf. case_bool_decide as Hnil.
    { injection Hf as <- <-. exists []. by subst hs. }
    destruct (connect_peer target ≫= _) as [bs|e]; last first.
    { injection Hf as <- <-. exists []. split_and!; [done|apply sublist_nil_l|done]. }
    destruct (fetch_loop blake3 sink hs stats0 (bs, t)) as [[bs' t1] r1] eqn:Hl.
    injection Hf as <- <-. apply fetch_loop_safe in Hl as (got & Hv & Hsub & Hr).
    exists got. split_and!; [done..|]. destruct r1 as [stats|e]; [|done].
    destruct Hr as (Hs & Hd & Hb & failed & Hfl & Hperm). cbn in Hfl. rewrite Hfl.
    split_and!; [done|by rewrite Hd|done..].
Qed.

(** A server's reply, received. *)
Lemma transfer_ok ready pack_default s ms g m hs s' r target p (t : S) :
  g < 2^64 → lenN hs < 2^32 → origin_ok (ds_origin s) ms → source_ok s ms g m →
  addressed blake3 m → map_Forall (λ _ d, lenN d < 2^32) m →
  ds_conn s = mkConn (request g hs) [] → handle_conn ready pack_default s = (s', r) →
  connect_peer target = Ok p → (∀ h d u, ∃ u', sink h d u = (u', Ok ())) →
  ∃ k ds t' stats,
    fetch_chunks blake3 sink (λ _, Ok (cn_send (ds_conn s'))) target g hs t = (t', Ok stats) ∧
    (λ h, m !! h) <$> take k hs = Some <$> ds ∧
    sink_all sink (zip (take k hs) ds) t = (t', Ok ()) ∧
    fs_downloaded stats = lenN ds ∧ fs_failed stats = drop k hs ∧
    match r with
    | Ok _ => k = length hs ∧ fs_failed stats = []
    | Err e =>
        (ds_nodes s !! g = None ∧ pack_default = false ∧ e = unmanaged g ∧ k = 0%nat) ∨
        (open (disk_of (ds_origin s) g) g = Err e ∧ k = 0%nat) ∨
        ∃ h, hs !! k = Some h ∧ ((m !! h = None ∧ e = ["块不存在"%string]) ∨
          ∃ store, store_holds store m ∧ @read_chunk (NodeStore (GameStore D F) K) _ store h = Err e)
    end.
Proof.
  intros Hg Hl Ho Hsrc Ha Hm Hc Hh Hp Hsink.
  destruct (handle_conn_ok _ _ _ _ _ _ _ _ _ Hg Hl Ho Hsrc Hc Hh)
    as (_ & _ & k & ds & Hds & Hb & Hend).
  assert (∀ cs (u : S), ∃ u', sink_all sink cs u = (u', Ok ())) as Hall.
  { induction cs as [|c cs IH]; intros u; [by eexists|]. destruct (Hsink c.1 c.2 u) as [u1 Hu].
    destruct (IH u1) as [u2 Hu2]. exists u2. by rewrite (sink_all_cons_ok _ _ _ _ _ Hu). }
  destruct (Hall (zip (take k hs) ds) t) as [t' Ht'].
  assert (length (take k hs) = length ds) as Hlen.
  { apply (f_equal length) in Hds. by rewrite !length_fmap in Hds. }
  assert (Forall (λ c, verified blake3 c ∧ lenN c.2 < 2^32) (zip (take k hs) ds)) as Hcs.
  { apply Forall_forall. intros [h d] Hin. apply list_elem_of_lookup in Hin as [i Hi].
    apply lookup_zip_Some in Hi as [Hi1 Hi2].
    assert (m !! h = Some d) as Hmd.
    { apply (f_equal (.!! i)) in Hds. rewrite !list_lookup_fmap, Hi1, Hi2 in Hds.
      by injection Hds. }
    split; [by apply Ha|by apply (Hm _ _ Hmd)]. }
  assert (∀ stats, fs_failed stats = drop k hs →
    match r with Ok _ => k = length hs ∧ fs_failed stats = [] | Err e =>
        (ds_nodes s !! g = None ∧ pack_default = false ∧ e = unmanaged g ∧ k = 0%nat) ∨
        (open (disk_of (ds_origin s) g) g = Err e ∧ k = 0%nat) ∨
        ∃ h, hs !! k = Some h ∧ ((m !! h = None ∧ e = ["块不存在"%string]) ∨
          ∃ store, store_holds store m ∧ @read_chunk (NodeStore (GameStore D F) K) _ store h = Err e)
    end) as Hdrop.
  { intros stats ->. destruct r as [u|e]; [|done]. destruct Hend as [-> _]. by rewrite drop_all. }
  destruct (decide (hs = [])) as [->|Hne].
  { specialize (Hdrop stats0). exists k, ds, t', stats0.
    destruct k, ds; try done; injection Ht' as <-; split_and!; try done; by apply Hdrop. }
  exists k, ds, t', (mkStats (lenN ds) (got_bytes (zip (take k hs) ds) 0) (drop k hs)).
  split_and!; try done; [|by apply Hdrop]. unfold fetch_chunks. rewrite bool_decide_false by done.
  rewrite Hp. cbn [mbind result_bind]. rewrite Hb.
  assert (map frame ds = map (frame ∘ snd) (zip (take k hs) ds)) as ->.
  { rewrite <- (snd_zip (take k hs) ds) at 1 by lia. exact (map_map snd frame _). }
  rewrite <- (take_drop k hs) at 1.
  assert (take k hs = (zip (take k hs) ds).*1) as Hfst by (symmetry; apply fst_zip; lia).
  rewrite Hfst at 1. rewrite <- (app_nil_r (concat _)).
  rewrite (fetch_loop_honest _ _ _ [] _ _ _ t' Hcs Ht'), fetch_loop_eof.
  cbn [fs_downloaded fs_bytes fs_failed stats0 app]. f_equal. f_equal. f_equal.
  rewrite N.add_0_l. unfold lenN. rewrite length_zip_with. lia.
Qed.

(** C28: A transfer between the two ends: when the client has a connection and
    its sink does not fail, it receives exactly the stored bytes of the leading
    chunks the server gave, in order, and reports the others as failed; if the
    server's handler succeeds, every requested chunk arrives. *)
Theorem transfer_spec ready pack_default s ms g m hs s' r target p (t : S) :
  g < 2^64 → lenN hs < 2^32 → origin_ok (ds_origin s) ms → source_ok s ms g m →
  addressed blake3 m → map_Forall (λ _ d, lenN d < 2^32) m →
  ds_conn s = mkConn (request g hs) [] → handle_conn ready pack_default s = (s', r) →
  connect_peer target = Ok p → (∀ h d u, ∃ u', sink h d u = (u', Ok ())) →
  ∃ k ds t' stats,
    fetch_chunks blake3 sink (λ _, Ok (cn_send (ds_conn s'))) target g hs t = (t', Ok stats) ∧
    (λ h, m !! h) <$> take k hs = Some <$> ds ∧
    sink_all sink (zip (take k hs) ds) t = (t', Ok ()) ∧
    fs_downloaded stats = lenN ds ∧ fs_failed stats = drop k hs ∧
    match r with
    | Ok _ => k = length hs ∧ fs_failed stats = []
    | Err e =>
        (ds_nodes s !! g = None ∧ pack_default = false ∧ e = unmanaged g ∧ k = 0%nat) ∨
        (open (disk_of (ds_origin s) g) g = Err e ∧ k = 0%nat) ∨
        ∃ h, hs !! k = Some h ∧ ((m !! h = None ∧ e = ["块不存在"%string]) ∨
          ∃ store, store_holds store m ∧ @read_chunk (NodeStore (GameStore D F) K) _ store h = Err e)
    end.
Proof. apply transfer_ok. Qed.

End properties.

(** ** Examples: the origin that stored the uploaded chunk serves it *)

#[local] Instance Map_source : ChunkSource (gmap hash32 (list byte)) := {|
  read_chunk m h := Ok (m !! h);
  contains m h := Ok (bool_decide (is_Some (m !! h)))
|}.
#[local] Instance Map_source_laws : ChunkSourceLaws (gmap hash32 (list byte)) := {|
  holds := eq;
  read_chunk_holds m m' h r := λ Hm Hr, ltac:(by subst m'; injection Hr as <-);
  contains_holds m m' h b := λ Hm Hr, ltac:(by subst m'; injection Hr as <-)
|}.

#[local] Instance Loopback : Dial := {|
  dial_direct _ _ := Ok (); parse_relay := Ok; dial_relay _ _ := Ok ()
|}.

(** The second hash asked for is not stored. *)
Definition dp_hashes : list hash32 := [up_hash; hash_rep x01].
Definition dp_state (hs : list hash32) :
    DataState MemDb MemFile (ControlService MemDb) (gmap hash32 (list byte)) :=
  mkData origin1 ∅ (mkConn (request 7 hs) []).
Definition dp_target : PeerTarget := mkTarget "peer" (Some "127.0.0.1:4433"%string) None true.
Definition dp_sink : hash32 → list byte → M (list (list byte)) error () :=
  λ _ d, modify (λ t, t ++ [d]).

Lemma dp_source hs : source_ok (dp_state hs) up_ms 7 (up_ms 7).
Proof. reflexivity. Qed.

Lemma datapath_serve_spec_witness :
  ∃ s', handle_conn true true (dp_state [up_hash]) = (s', Ok ()) ∧
    cn_send (ds_conn s') = frame up_data.
Proof.
  assert ((handle_conn true true (dp_state [up_hash])).2 = Ok ()) as Hok by (vm_compute; reflexivity).
  destruct (handle_conn true true (dp_state [up_hash])) as [s' r] eqn:Hh. cbn in Hok. subst r.
  exists s'. split; [done|].
  destruct (datapath_serve_spec true true (dp_state [up_hash]) up_ms 7 (up_ms 7) [up_hash] s' (Ok ())
    eq_refl eq_refl origin1_ok (dp_source _) eq_refl Hh) as (_ & _ & _ & k & ds & Hds & Hb & -> & _).
  assert (up_ms 7 !! up_hash = Some up_data) as Hup by (vm_compute; reflexivity).
  cbn [length firstn fmap list_fmap] in Hds. rewrite Hup in Hds.
  destruct ds as [|d [|d2 ds]]; try discriminate Hds. injection Hds as <-.
  rewrite Hb. cbn. apply app_nil_r.
Defined.

(** A peer that answers other bytes than the ones asked for. *)
Lemma fetch_chunks_safe_witness :
  fetch_chunks toy_hash dp_sink (λ _, Ok (frame [x00])) dp_target 7 [up_hash] [] =
    ([], Ok (mkStats 0 0 [up_hash])).
Proof.
  assert ((fetch_chunks toy_hash dp_sink (λ _, Ok (frame [x00])) dp_target 7 [up_hash] []).2 =
    Ok (mkStats 0 0 [up_hash])) as Hok by (vm_compute; reflexivity).
  destruct (fetch_chunks toy_hash dp_sink (λ _, Ok (frame [x00])) dp_target 7 [up_hash] [])
    as [t' r] eqn:Hf. cbn in Hok. subst r.
  destruct (fetch_chunks_safe toy_hash dp_sink _ _ _ _ _ _ _ Hf)
    as (_ & _ & got & _ & _ & Hs & Hd & _).
  destruct got; [|rewrite lenN_cons in Hd; cbn in Hd; lia]. by injection Hs as <-.
Defined.

Lemma transfer_spec_witness :
  ∃ s' r, handle_conn false true (dp_state dp_hashes) = (s', r) ∧ ¬ is_ok r ∧
    ∃ t' stats, fetch_chunks toy_hash dp_sink (λ _, Ok (cn_send (ds_conn s'))) dp_target 7 dp_hashes [] =
      (t', Ok stats) ∧ fs_downloaded stats + lenN (fs_failed stats) = 2.
Proof.
  assert (¬ is_ok (handle_conn false true (dp_state dp_hashes)).2) as Hok by (vm_compute; by intros []).
  destruct (handle_conn false true (dp_state dp_hashes)) as [s' r] eqn:Hh.
  exists s', r. split_and!; [done|exact Hok|].
  assert (connect_peer dp_target = Ok Direct) as Hconn by reflexivity.
  assert (addressed toy_hash (up_ms 7)) as Ha.
  { change (up_ms 7) with ({[up_hash := up_data]} : gmap hash32 (list byte)).
    apply map_Forall_singleton. reflexivity. }
  assert (map_Forall (λ _ d, lenN d < 2^32) (up_ms 7)) as Hm.
  { change (up_ms 7) with ({[up_hash := up_data]} : gmap hash32 (list byte)).
    apply map_Forall_singleton. reflexivity. }
  destruct (transfer_spec toy_hash dp_sink false true (dp_state dp_hashes) up_ms 7 (up_ms 7) dp_hashes
    s' r dp_target Direct [] eq_refl eq_refl origin1_ok (dp_source _) Ha Hm eq_refl Hh Hconn)
    as (k & ds & t' & stats & Hf & Hds & _ & Hd & Hfl & _).
  { intros h d u. by eexists. }
  exists t', stats. split; [exact Hf|]. rewrite Hd, Hfl.
  apply (f_equal length) in Hds. rewrite !length_fmap, length_take in Hds.
  unfold lenN. rewrite length_drop, <- Hds. change (length dp_hashes) with 2%nat. lia.
Defined.
