(* ===== verification/DataPathLive.v ===== *)
(** * DataPathLive: a data plane on a healthy disk serves everything it has

    [serves]: whoever exchanges a request for chunks of a content gets exactly
    their frames.  The data plane of an origin whose store does not fail is such
    an exchange, and a client that is served stores what it asked for. *)

From S2P Require Import Prelude Bytes FileIO Redb Manifest Storage StorageSpec SchedControl.
From S2P Require Import Upload UploadSpec DataPath DataPathSpec.

(** Requests for chunks of [content] are answered with their frames, in order. *)
Definition serves (exchange : list byte → result error (list byte)) (g : N)
    (content : gmap hash32 (list byte)) : Prop :=
  ∀ hs ds, lenN hs < 2^32 → (λ h, content !! h) <$> hs = Some <$> ds →
    exchange (request g hs) = Ok (concat (map frame ds)).

(** The data of a list of stored chunks. *)
Lemma lookup_all (content : gmap hash32 (list byte)) (hs : list hash32) :
  (∀ h, h ∈ hs → is_Some (content !! h)) → ∃ ds, (λ h, content !! h) <$> hs = Some <$> ds.
Proof.
  induction hs as [|h hs IH]; intros Hall; [by exists []|].
  destruct (Hall h) as [d Hd]; [by left|].
  destruct IH as [ds Hds]; [intros h' Hh'; apply Hall; by right|].
  exists (d :: ds). cbn. by rewrite Hd, Hds.
Qed.

Lemma zip_lookup (content : gmap hash32 (list byte)) (hs : list hash32) ds :
  (λ h, content !! h) <$> hs = Some <$> ds →
  (zip hs ds).*1 = hs ∧ map frame ds = map (frame ∘ snd) (zip hs ds) ∧
  Forall (λ c : hash32 * list byte, c.1 ∈ hs ∧ content !! c.1 = Some c.2) (zip hs ds).
Proof.
  revert ds. induction hs as [|h hs IH]; intros [|d ds] Hds; try done; cbn in Hds.
  injection Hds as Hd Hds. destruct (IH ds Hds) as (H1 & H2 & H3). cbn.
  split; [by rewrite H1|]. split; [by rewrite H2|]. constructor; [split; [by left|done]|].
  eapply Forall_impl; [exact H3|]. intros c [Hc ?]. split; [by right|done].
Qed.

(** ** The server *)

Section server.
Context {D F C K : Type} `{RedbLaws D, FileLaws F, !CompioOps F, !OpenOps D F, !OpenLaws D F}.
Context `{ChunkSourceLaws K, !RedbHealthy D}.
Implicit Types (s : DataState D F C K) (ms : N → gmap hash32 (list byte)).

(** What a connection with this request is answered in state [s]. *)
Definition answering (ready : bool) s (req : list byte) : result error (list byte) :=
  Ok (cn_send (ds_conn (handle_conn ready true (set_conn (mkConn req []) s)).1)).

Lemma reply_to_healthy (store : GameStore D F) m hs ds :
  represents store m → healthy store → (λ h, m !! h) <$> hs = Some <$> ds →
  reply_to (GameStore_read_chunk store) hs = (concat (map frame ds), Ok ()).
Proof.
  intros Hr Hs. revert ds. induction hs as [|h hs IH]; intros [|d ds] Hds; try done; cbn in Hds.
  injection Hds as Hd Hds. cbn [reply_to].
  rewrite (read_chunk_healthy store m h Hr Hs), Hd, (IH ds Hds). done.
Qed.

(** The pack store of a game, whatever the connection. *)
Definition pack_of g s (store : GameStore D F) : Prop := ∀ s0, ds_origin s0 = ds_origin s →
  ∃ s', pack_handle g s0 = (s', Ok (Pack store)) ∧ ds_conn s' = ds_conn s0.

Lemma pack_handle_healthy g s ms :
  origin_ok (ds_origin s) ms → g < 2^64 → origin_healthy g (ds_origin s) →
  ∃ store, pack_of g s store ∧ represents store (ms g) ∧ healthy store.
Proof.
  intros Ho Hg (_ & o1 & store & Hp & Hs).
  pose proof (pack_entry_ok _ _ _ _ _ _ Ho Hg Hp) as (_ & _ & _ & _ & Hr & _).
  assert (pack_entry id g (ds_origin s) = (o1, Ok store)) as Hp'.
  { unfold pack_entry in *. rewrite (M_bind_ok get _ _ _ _ eq_refl) in Hp.
    rewrite (M_bind_ok get _ _ _ _ eq_refl).
    destruct (or_packs (ds_origin s) !! g); [by injection Hp as -> ->|].
    unfold lift, mbind, M_bind, map_err in *. destruct (open _ g) as [st|e]; [|done]. injection Hp as <- <-. done. }
  exists store. split_and!; [|done..]. intros s0 Hs0.
  unfold pack_handle, zoom, mbind, M_bind. rewrite Hs0, Hp'. by eexists.
Qed.

Lemma pack_of_open g s store : or_packs (ds_origin s) !! g = Some store → pack_of g s store.
Proof.
  intros Hs s0 Hs0. unfold pack_handle, zoom, pack_entry, mbind, M_bind, get. rewrite Hs0, Hs. by eexists.
Qed.

(** Unless the table points to a cafe, the pack store of the game is served. *)
Lemma answering_pack ready s g store m :
  g < 2^64 → pack_of g s store → represents store m → healthy store →
  (∀ source, ds_nodes s !! g ≠ Some (Cafe source)) → serves (answering ready s) g m.
Proof.
  intros Hg Hpack Hr Hs Hn hs ds Hl Hds. unfold answering.
  rewrite (handle_conn_request ready true _ g hs) by done.
  set (s0 := set_conn _ (set_conn _ s)).
  destruct (Hpack s0 eq_refl) as (s1 & Hp & Hc).
  assert (∃ s2, node_entry true g s0 = (s2, Ok (Pack store)) ∧ ds_conn s2 = ds_conn s0) as (s2 & He & Hc2).
  { unfold node_entry. rewrite (M_bind_ok get _ s0 s0 s0) by done. change (ds_nodes s0) with (ds_nodes s).
    destruct (ds_nodes s !! g) as [[[]|source]|] eqn:Hg'; [by eexists|by destruct (Hn source)|].
    cbn [negb]. rewrite (M_bind_ok _ _ _ _ _ Hp). by eexists. }
  rewrite (M_bind_ok _ _ _ _ _ He).
  destruct (serve_chunks_reply (Pack store) hs s2) as [rest Hrep]; [by rewrite Hc2|].
  rewrite Hrep. cbn [fst set_conn ds_conn cn_send]. rewrite Hc2.
  change (read_chunk (Pack store)) with (GameStore_read_chunk store).
  by rewrite (reply_to_healthy store m hs ds).
Qed.

Lemma answering_serves ready s ms g :
  g < 2^64 → origin_ok (ds_origin s) ms → origin_healthy g (ds_origin s) →
  (∀ source, ds_nodes s !! g ≠ Some (Cafe source)) → serves (answering ready s) g (ms g).
Proof.
  intros Hg Ho Hh. destruct (pack_handle_healthy g s ms Ho Hg Hh) as (store & Hp & Hr & Hs).
  by apply (answering_pack ready s g store).
Qed.
End server.

(** ** The client *)

Section client.
Context (blake3 : list byte → hash32) `{!Dial}.
Context {S : Type} (sink : hash32 → list byte → M S error ()).

Lemma fetch_chunks_served exchange target p g content hs ds (t t' : S) :
  serves exchange g content → connect_peer target = Ok p → lenN hs < 2^32 →
  (λ h, content !! h) <$> hs = Some <$> ds →
  (∀ h d, content !! h = Some d → blake3 d = h ∧ lenN d < 2^32) →
  sink_all sink (zip hs ds) t = (t', Ok ()) →
  ∃ stats, fetch_chunks blake3 sink exchange target g hs t = (t', Ok stats) ∧ fs_failed stats = [].
Proof.
  intros Hsv Hp Hl Hds Hadd Hs. unfold fetch_chunks. case_bool_decide as Hnil.
  { subst hs. destruct ds; [|done]. injection Hs as <-. by exists stats0. }
  rewrite Hp. cbn [mbind result_bind]. rewrite (Hsv hs ds Hl Hds).
  apply zip_lookup in Hds as (Hfst & -> & Hall).
  assert (Forall (λ c, verified blake3 c ∧ lenN c.2 < 2^32) (zip hs ds)) as Hcs.
  { eapply Forall_impl; [exact Hall|]. intros c [_ Hc]. by apply Hadd in Hc. }
  pose proof (fetch_loop_honest blake3 sink (zip hs ds) [] [] stats0 t t' Hcs Hs) as Hrun.
  rewrite Hfst, !app_nil_r in Hrun. rewrite Hrun. by eexists.
Qed.
End client.
