(* ===== verification/Keepalive.v ===== *)
(** * Keepalive: the scheduler's liveness probing (crates/scheduler/src/keepalive.rs)

    The per-address state machine ([AddrState], [record], [unavailable],
    [probe_due]) and one turn of the main loop [run].  Socket addresses are a
    countable type; their parser, their hash and the iteration order of a
    [HashMap] are parameters, and so are the clock readings and the datagrams
    that arrive during a turn. *)

From S2P Require Import Prelude Bytes Text Redb PingPong SchedDb.

(** ** Interfaces *)

Class SockAddr (A : Type) `{Countable A} := {
  addr_parse : string → option A;
  addr_hash : A → N
}.

(** ** The state machine of an address *)

Record AddrState := mkState { as_failures : N; as_available : bool }.
Definition AddrState_default : AddrState := mkState 0 true.

#[global] Instance AddrState_eq_dec : EqDecision AddrState.
Proof. solve_decision. Defined.

Section addrs.
Context {A : Type} `{SockAddr A, !MapIter}.

Record Keepalive := mkKeep { ka_addrs : gmap A AddrState }.

Definition Keepalive_new : Keepalive := mkKeep ∅.

Definition entry_or_default (k : Keepalive) (addr : A) : AddrState :=
  default AddrState_default (ka_addrs k !! addr).

Definition keep_register (addr : A) (k : Keepalive) : Keepalive :=
  mkKeep (<[addr := entry_or_default k addr]> (ka_addrs k)).

(** [a % b] panics for [b = 0]: [None]. *)
Definition checked_rem (a b : N) : option N := if b =? 0 then None else Some (a mod b).

Definition addr_slot (addr : A) (interval_secs : N) : option N :=
  checked_rem (addr_hash addr) interval_secs.

Definition probe_due (k : Keepalive) (now_secs interval_secs : N) : option (list A) :=
  slot ← checked_rem now_secs interval_secs;
  mret (filter (λ addr, addr_slot addr interval_secs = Some slot) (map_iter (ka_addrs k)).*1).

Definition record (addr : A) (ok : bool) (fail_threshold : N) (k : Keepalive) : Keepalive :=
  let state := entry_or_default k addr in
  let state :=
    if ok then mkState 0 true
    else
      let failures := add_u32 (as_failures state) 1 in
      mkState failures (if fail_threshold <=? failures then false else as_available state) in
  mkKeep (<[addr := state]> (ka_addrs k)).

Definition unavailable (k : Keepalive) : list A :=
  (filter (λ e : A * AddrState, as_available e.2 = false) (map_iter (ka_addrs k))).*1.

(** ** One turn of [run] *)

(** The readings of the two clocks, of [Instant::now] when the ping of a
    sequence number is sent and when its age is asked for, and the datagrams
    received before a pause of 10 ms. *)
Record Tick := mkTick {
  ti_now_secs : N;
  ti_now_ms : N;
  ti_sent : N → N;
  ti_checked : N → N;
  ti_received : list (list byte)
}.

Record RunState (D : Type) := mkRun {
  rn_store : D;
  rn_keep : Keepalive;
  rn_seq : N;
  rn_outstanding : gmap N (A * N);
  rn_meta : gmap A (N * N)
}.
Arguments mkRun {D}. Arguments rn_store {D}. Arguments rn_keep {D}. Arguments rn_seq {D}.
Arguments rn_outstanding {D}. Arguments rn_meta {D}.

Section run.
Context {D : Type} `{!RedbOps D, !SchedJson}.
Context (interval_secs fail_threshold heartbeat_timeout_ms : N).

Definition run_init (store : D) : RunState D := mkRun store Keepalive_new 0 ∅ ∅.

Definition set_node_status (status : string) (n : NodeRecord) : NodeRecord :=
  mkNode (nd_id n) (nd_node_type n) (nd_endpoint_id n) (nd_token n) (nd_addrs n) status
    (nd_last_heartbeat_ms n).

(** [if let Ok(Some(mut node)) = store.get_node(id) && node.status != want {..}] *)
Definition mark_status (want : string) (store : D) (id : N) : D :=
  match get_node store id with
  | Ok (Some node) =>
    if decide (nd_status node ≠ want) then (insert_node (set_node_status want node) store).1
    else store
  | _ => store
  end.

Definition unwrap_or_nil {B} (r : result error (list B)) : list B := default [] (ok r).

Definition sync_heartbeats (now_ms : N) (store : D) : D :=
  foldl (mark_status "offline") store
    (unwrap_or_nil (offline_nodes store now_ms heartbeat_timeout_ms)).

(** The probed addresses of a node with their indices. *)
Definition keepalive_addrs (node : NodeRecord) : list (A * (N * N)) :=
  omap (λ ia : nat * AddrRecord,
    if decide (ad_kind ia.2 = "keepalive"%string) then
      (λ parsed : A, (parsed, (nd_id node, as_u32 (N.of_nat ia.1)))) <$> addr_parse (ad_addr ia.2)
    else None) (imap pair (nd_addrs node)).

Definition collect_meta (nodes : list NodeRecord) : list (A * (N * N)) :=
  mjoin (map keepalive_addrs nodes).

Definition sync_meta (entries : list (A * (N * N))) (k : Keepalive) :
    gmap A (N * N) * Keepalive :=
  foldl (λ mk e, (<[e.1 := e.2]> mk.1, keep_register e.1 mk.2)) (∅, k) entries.

(** What is sent, in order. *)
Definition ping_step (t : Tick) (acc : N * gmap N (A * N) * list (A * list byte))
    (e : A * (N * N)) : N * gmap N (A * N) * list (A * list byte) :=
  let '(seq, outstanding, sent) := acc in
  let '(addr, (node_id, addr_index)) := e in
  if decide (addr_slot addr interval_secs = checked_rem (ti_now_secs t) interval_secs) then
    let seq := add_u32 seq 1 in
    let ping := build_ping seq node_id addr_index in
    (seq, <[seq := (addr, ti_sent t seq)]> outstanding, sent ++ [(addr, ping)])
  else acc.

Definition recv_step (acc : gmap N (A * N) * Keepalive) (datagram : list byte) :
    gmap N (A * N) * Keepalive :=
  match parse_pong (take PONG_LEN datagram) with
  | Some recv_seq =>
    match acc.1 !! recv_seq with
    | Some (addr, _) => (delete recv_seq acc.1, record addr true fail_threshold acc.2)
    | None => acc
    end
  | None => acc
  end.

(** Ages in milliseconds. *)
Definition expired (t : Tick) (outstanding : gmap N (A * N)) : list (N * A) :=
  map (λ e, (e.1, e.2.1)) (filter (λ e : N * (A * N),
    interval_secs * 1000 ≤ ti_checked t e.1 - e.2.2) (map_iter outstanding)).

Definition expire_step (acc : gmap N (A * N) * Keepalive) (e : N * A) :
    gmap N (A * N) * Keepalive :=
  (delete e.1 acc.1, record e.2 false fail_threshold acc.2).

Definition addr_available (k : Keepalive) (addr : A) : bool :=
  match ka_addrs k !! addr with Some s => as_available s | None => true end.

Definition want_status (available : bool) : string :=
  if available then "online" else "offline".

Definition sync_status (k : Keepalive) (store : D) (e : A * (N * N)) : D :=
  mark_status (want_status (addr_available k e.1)) store e.2.1.

Definition tick (t : Tick) (s : RunState D) : RunState D * list (A * list byte) :=
  let store := sync_heartbeats (ti_now_ms t) (rn_store s) in
  let nodes := unwrap_or_nil (list_nodes store) in
  let '(meta, keep) := sync_meta (collect_meta nodes) (rn_keep s) in
  let '(seq, outstanding, sent) :=
    foldl (ping_step t) (rn_seq s, rn_outstanding s, []) (map_iter meta) in
  let '(outstanding, keep) := foldl recv_step (outstanding, keep) (ti_received t) in
  let '(outstanding, keep) := foldl expire_step (outstanding, keep) (expired t outstanding) in
  let store := foldl (sync_status keep) store (map_iter meta) in
  (mkRun store keep seq outstanding meta, sent).

End run.
End addrs.

#[global] Arguments Keepalive A {_ _}.
#[global] Arguments RunState A {_ _} D.
#[global] Arguments mkRun {A _ _ D}. #[global] Arguments rn_store {A _ _ D}.
#[global] Arguments rn_keep {A _ _ D}. #[global] Arguments rn_seq {A _ _ D}.
#[global] Arguments rn_outstanding {A _ _ D}. #[global] Arguments rn_meta {A _ _ D}.

(** ** The interfaces in memory, for the examples: addresses as their text *)

#[global] Instance Text_addr : SockAddr string := {|
  addr_parse s := if bool_decide (s = ""%string) then None else Some s;
  addr_hash s := toy_digest (str_bytes s)
|}.
