(* ===== verification/KeepaliveSpec.v ===== *)
(** * KeepaliveSpec: what the liveness probing guarantees

    An address is unavailable exactly after enough consecutive failures since
    its last success; every known address is probed once per window; a turn of
    the loop sets the status of nodes and of nothing else. *)

From S2P Require Import Prelude Bytes Text Redb PingPong SchedDb SchedDbSpec Keepalive.

(** ** Runs of the state machine *)

Inductive event (A : Type) := Reg (a : A) | Probe (a : A) (ok : bool).
Arguments Reg {A}. Arguments Probe {A}.

#[global] Instance event_eq_dec {A} `{EqDecision A} : EqDecision (event A).
Proof. solve_decision. Defined.

Section addrs.
Context {A : Type} `{SockAddr A, MapIterLaws}.
Implicit Types (k : Keepalive A) (a : A) (evs : list (event A)).

Definition run_event (thr : N) k (e : event A) : Keepalive A :=
  match e with Reg a => keep_register a k | Probe a ok => record a ok thr k end.
Definition run_events (thr : N) k evs : Keepalive A := foldl (run_event thr) k evs.

Definition mentions a (e : event A) : Prop :=
  match e with Reg b => a = b | Probe b _ => a = b end.
#[local] Instance mentions_dec a e : Decision (mentions a e).
Proof. destruct e; cbn; apply _. Defined.

(** Failures of [a] since its last success. *)
Definition streak_step a (n : N) (e : event A) : N :=
  match e with
  | Probe b true => if decide (a = b) then 0 else n
  | Probe b false => if decide (a = b) then n + 1 else n
  | Reg _ => n
  end.
Definition streak a evs : N := foldl (streak_step a) 0 evs.

Lemma streak_snoc a evs e : streak a (evs ++ [e]) = streak_step a (streak a evs) e.
Proof. unfold streak. by rewrite foldl_app. Qed.

Lemma streak_le a evs : streak a evs ≤ lenN evs.
Proof.
  induction evs as [|e evs IH] using rev_ind; [done|].
  rewrite streak_snoc, lenN_app, lenN_cons, lenN_nil.
  destruct e as [b|b []]; cbn; repeat case_decide; lia.
Qed.

Lemma streak_not_mentioned a evs : ¬ Exists (mentions a) evs → streak a evs = 0.
Proof.
  induction evs as [|e evs IH] using rev_ind; [done|].
  rewrite Exists_app, Exists_cons, Exists_nil, streak_snoc. intros Hn.
  rewrite IH by tauto. destruct e as [b|b []]; cbn in Hn |- *; repeat case_decide; naive_solver.
Qed.

Lemma run_events_snoc thr k evs e :
  run_events thr k (evs ++ [e]) = run_event thr (run_events thr k evs) e.
Proof. unfold run_events. by rewrite foldl_app. Qed.

Definition state_of (thr n : N) : AddrState :=
  mkState n (bool_decide (n = 0 ∨ n < thr)).

Lemma state_of_0 thr : state_of thr 0 = AddrState_default.
Proof. unfold state_of. by rewrite bool_decide_true by auto. Qed.

Lemma run_events_state thr evs a :
  lenN evs < 2^32 →
  ka_addrs (run_events thr Keepalive_new evs) !! a =
  if decide (Exists (mentions a) evs) then Some (state_of thr (streak a evs)) else None.
Proof.
  induction evs as [|e evs IH] using rev_ind; intros Hl.
  { cbn. rewrite decide_False; [apply lookup_empty|by intros ?%Exists_nil]. }
  rewrite lenN_app, lenN_cons, lenN_nil in Hl.
  rewrite run_events_snoc, streak_snoc.
  assert (Exists (mentions a) (evs ++ [e]) ↔ Exists (mentions a) evs ∨ mentions a e) as Hex.
  { rewrite Exists_app, Exists_cons, Exists_nil. tauto. }
  rewrite (decide_ext _ _ _ _ Hex). specialize (IH ltac:(lia)).
  pose proof (streak_le a evs) as Hs.
  pose proof (streak_not_mentioned a evs) as Hnone.
  destruct (decide (mentions a e)) as [Hm|Hm].
  - rewrite decide_True by by right. unfold run_event, keep_register, record, entry_or_default.
    destruct e as [b|b []]; cbn in Hm; subst b; cbn [ka_addrs]; rewrite lookup_insert_eq, ?IH.
    + cbn. case_decide as Hd; [done|]. by rewrite Hnone, state_of_0.
    + cbn. by rewrite decide_True, state_of_0.
    + replace (streak_step a (streak a evs) (Probe a false)) with (streak a evs + 1)
        by (cbn; by rewrite decide_True). f_equal. unfold state_of.
      assert (∀ n b, n = streak a evs → b = bool_decide (n = 0 ∨ n < thr) →
        mkState (add_u32 n 1) (if thr <=? add_u32 n 1 then false else b) =
        mkState (streak a evs + 1) (bool_decide (streak a evs + 1 = 0 ∨ streak a evs + 1 < thr)))
        as Hstep.
      { intros n b -> ->. rewrite add_u32_small by lia. f_equal.
        destruct (N.leb_spec thr (streak a evs + 1)).
        - by rewrite bool_decide_false by lia.
        - rewrite !bool_decide_true by lia. done. }
      case_decide as Hd; cbn; apply Hstep; try done; by rewrite Hnone.
  - assert (streak_step a (streak a evs) e = streak a evs) as ->.
    { destruct e as [b|b []]; cbn in Hm |- *; by rewrite ?decide_False. }
    assert (ka_addrs (run_event thr (run_events thr Keepalive_new evs) e) !! a =
      ka_addrs (run_events thr Keepalive_new evs) !! a) as ->.
    { destruct e as [b|b ok]; cbn in Hm |- *; by rewrite lookup_insert_ne. }
    rewrite IH. by apply decide_ext; naive_solver.
Qed.

(** The streak as a suffix of the run. *)
Definition fails a evs : N := lenN (filter (λ e, e = Probe a false) evs).

Lemma streak_suffix a evs n :
  n ≤ streak a evs ↔
  n = 0 ∨ ∃ evs1 evs2, evs = evs1 ++ evs2 ∧ Probe a true ∉ evs2 ∧ n ≤ fails a evs2.
Proof.
  revert n. induction evs as [|e evs IH] using rev_ind; intros n.
  { cbn. split; [intros; left; lia|]. intros [->|(evs1 & evs2 & He & _ & Hn)]; [done|].
    symmetry in He. apply app_eq_nil in He as [-> ->]. exact Hn. }
  rewrite streak_snoc.
  assert (∀ evs2, fails a (evs2 ++ [e]) = fails a evs2 + (if decide (e = Probe a false) then 1 else 0)) as Hf.
  { intros. unfold fails. rewrite filter_app, lenN_app, filter_cons, filter_nil.
    by case_decide. }
  assert (n ≤ streak_step a (streak a evs) e ↔ n = 0 ∨
    (e ≠ Probe a true ∧ n - (if decide (e = Probe a false) then 1 else 0) ≤ streak a evs)) as ->.
  { destruct e as [b|b []]; cbn; repeat case_decide; simplify_eq; try naive_solver lia.
    all: split; [intros ?; right; split; [congruence|lia]|intros [->|[_ ?]]; lia]. }
  rewrite IH. split.
  - intros [->|[Hne [Hz|(evs1 & evs2 & -> & Hnot & Hn)]]]; [by left| |].
    + destruct (decide (n = 0)) as [|Hn0]; [by left|right]. exists evs, [e].
      split_and!; [done|by rewrite list_elem_of_singleton|].
      change [e] with ([] ++ [e]). rewrite Hf. unfold fails. cbn. case_decide; [lia|lia].
    + right. exists evs1, (evs2 ++ [e]). split_and!; [by rewrite (assoc_L app)| |].
      * rewrite elem_of_app, list_elem_of_singleton. intros [?|?]; congruence.
      * rewrite Hf. lia.
  - intros [->|(evs1 & evs2 & He & Hnot & Hn)]; [by left|].
    destruct evs2 as [|e2 evs2 _] using rev_ind.
    { left. unfold fails in Hn. cbn in Hn. unfold lenN in Hn. cbn in Hn. lia. }
    rewrite (assoc_L app) in He. apply app_inj_tail in He as [-> <-].
    rewrite elem_of_app, list_elem_of_singleton in Hnot. rewrite Hf in Hn.
    right. split; [naive_solver|]. right. exists evs1, evs2. split_and!; [done|tauto|lia].
Qed.

(** ** The probing window *)

Lemma elem_of_unavailable k a :
  a ∈ unavailable k ↔ ∃ st, ka_addrs k !! a = Some st ∧ as_available st = false.
Proof.
  unfold unavailable. rewrite list_elem_of_fmap. split.
  - intros ([b st] & -> & Hin). apply list_elem_of_filter in Hin as [Hav Hin].
    rewrite map_iter_perm, elem_of_map_to_list in Hin. by exists st.
  - intros (st & Hk & Hav). exists (a, st). split; [done|]. apply list_elem_of_filter.
    by rewrite map_iter_perm, elem_of_map_to_list.
Qed.

Lemma elem_of_probe_due k a now interval :
  interval ≠ 0 →
  (∃ l, probe_due k now interval = Some l ∧ a ∈ l) ↔
  is_Some (ka_addrs k !! a) ∧ addr_hash a mod interval = now mod interval.
Proof.
  intros Hi. unfold probe_due, addr_slot, checked_rem.
  rewrite (proj2 (N.eqb_neq _ _) Hi). cbn. split.
  - intros (l & [= <-] & Hin). apply list_elem_of_filter in Hin as [[= Hs] Hin].
    split; [|done]. rewrite map_iter_perm in Hin.
    apply list_elem_of_fmap in Hin as ([b st] & -> & Hin). apply elem_of_map_to_list in Hin. by exists st.
  - intros [[st Hst] Hs]. eexists. split; [done|]. apply list_elem_of_filter. rewrite Hs.
    split; [done|]. rewrite map_iter_perm. apply list_elem_of_fmap. exists (a, st).
    split; [done|]. by apply elem_of_map_to_list.
Qed.

(** In a window of [i] seconds each slot comes up once. *)
Lemma window_slot t h i :
  i ≠ 0 → ∃ d, d < i ∧ ∀ d', d' < i → h mod i = (t + d') mod i ↔ d' = d.
Proof.
  intros Hi. exists ((h + (i - t mod i)) mod i).
  split; [by apply N.mod_lt|]. intros d' Hd'.
  pose proof (N.mod_lt t i Hi) as Ht. pose proof (N.mod_lt h i Hi) as Hh.
  rewrite (N.Div0.add_mod t d'), (N.Div0.add_mod h (i - t mod i)), (N.mod_small d' i) by done.
  set (a := t mod i) in *. set (b := h mod i) in *.
  assert (∀ x, x < i + i → x mod i = if x <? i then x else x - i) as Hmod.
  { intros x Hx. destruct (N.ltb_spec x i); [by apply N.mod_small|].
    replace x with (x - i + 1 * i) at 1 by lia. rewrite N.Div0.mod_add. apply N.mod_small. lia. }
  destruct (decide (a = 0)) as [Ha|Ha].
  - rewrite Ha, N.sub_0_r, N.Div0.mod_same, N.add_0_r, !Hmod by lia.
    destruct (N.ltb_spec (0 + d') i), (N.ltb_spec b i); lia.
  - rewrite (N.mod_small (i - a) i) by lia. rewrite !Hmod by lia.
    destruct (N.ltb_spec (a + d') i), (N.ltb_spec (b + (i - a)) i); lia.
Qed.

(** C31: An address is unavailable exactly when the probes of some suffix of the
    history without a success contain at least the threshold of failures (and at
    least one), and in every window of [interval] consecutive seconds a known
    address is due for a probe in exactly one of them. *)
Theorem keepalive_machine thr evs a :
  lenN evs < 2^32 →
  let k := run_events thr Keepalive_new evs in
  (a ∈ unavailable k ↔ ∃ evs1 evs2, evs = evs1 ++ evs2 ∧
     Probe a true ∉ evs2 ∧ N.max 1 thr ≤ fails a evs2) ∧
  (∀ interval t, interval ≠ 0 → Exists (mentions a) evs →
     ∃ d, d < interval ∧ ∀ d', d' < interval →
       (∃ l, probe_due k (t + d') interval = Some l ∧ a ∈ l) ↔ d' = d).
Proof.
  intros Hl k. pose proof (run_events_state thr evs a Hl) as Hst. fold k in Hst. split.
  - rewrite elem_of_unavailable. pose proof (streak_suffix a evs (N.max 1 thr)) as Hsuf.
    assert ((∃ evs1 evs2, evs = evs1 ++ evs2 ∧ Probe a true ∉ evs2 ∧
      N.max 1 thr ≤ fails a evs2) ↔ N.max 1 thr ≤ streak a evs) as ->.
    { rewrite Hsuf. split; [by right|]. intros [Hz|?]; [lia|done]. }
    split.
    + intros (st & Hk & Hav). rewrite Hst in Hk. case_decide; [|done]. injection Hk as <-.
      cbn in Hav. apply bool_decide_eq_false in Hav. lia.
    + intros Hmax. case_decide as Hex.
      * eexists. split; [done|]. cbn. apply bool_decide_eq_false. lia.
      * rewrite streak_not_mentioned in Hmax by done. lia.
  - intros interval t Hi Hex. rewrite decide_True in Hst by done.
    destruct (window_slot t (addr_hash a) interval Hi) as (d & Hd & Huniq).
    exists d. split; [done|]. intros d' Hd'. rewrite elem_of_probe_due by done.
    rewrite <- (Huniq d' Hd'). rewrite Hst. split; [by intros [_ ?]|by split].
Qed.

End addrs.

(** ** A turn of the loop *)

Section tick.
Context {A : Type} `{SockAddr A, MapIterLaws}.
Context {D : Type} `{RedbLaws D, !RedbHealthy D, SchedJsonLaws}.
Implicit Types (d : D) (k : Keepalive A).

(** A database that works and whose node records read back. *)
Record db_ok d : Prop := {
  ok_healthy : db_healthy d;
  ok_table : has_table d NODES;
  ok_records i v : contents d NODES !! i = Some v → ∃ n : NodeRecord, decode v = Ok n ∧ nd_id n = i
}.

Definition other_tables d d' : Prop := ∀ t, t ≠ NODES → contents d' t = contents d t.

Lemma nodes_id d n node : db_ok d → nodes d !! n = Some node → nd_id node = n.
Proof.
  intros Hd Hn. unfold nodes, view in Hn. rewrite lookup_omap in Hn.
  apply bind_Some in Hn as (v & Hv & Hn).
  destruct (ok_records d Hd n v Hv) as (node' & Hdec & Hid).
  change (ok (decode (A:=NodeRecord) v) = Some node) in Hn. rewrite Hdec in Hn.
  by injection Hn as <-.
Qed.

Lemma get_node_total d n : db_ok d → get_node d n = Ok (nodes d !! n).
Proof.
  intros Hd. unfold get_node, get_one.
  destruct (read_txn_healthy "打开 nodes 表失败" NODES
    (λ s, with_context "查询节点失败" (tbl_get s NODES n)) d) as (s & He & Hs & ->);
    [apply Hd..|].
  destruct (get_healthy s NODES n Hs) as [v Hv]. rewrite Hv. cbn.
  pose proof (get_ok s NODES n v Hv) as Hc. rewrite (proj1 (He NODES)) in Hc.
  assert (nodes d !! n = v ≫= λ v, ok (decode (A:=NodeRecord) v)) as ->.
  { rewrite Hc. exact (lookup_omap (λ v : Val NODES, ok (decode (A:=NodeRecord) (id v)))
      (contents d NODES) n). }
  destruct v as [v|]; [|done]. cbn.
  destruct (ok_records d Hd n v (eq_sym Hc)) as (node & -> & _). done.
Qed.

Lemma insert_one_table m1 m2 m3 t i v d d' :
  insert_one m1 m2 m3 t i v d = (d', Ok ()) → has_table d' t.
Proof.
  intros Hi. apply write_txn_Ok_inv in Hi as (w & _ & Ht & [(w' & Hb & He)|[Hb _]]);
    apply bind_Ok_inv in Hb as (w1 & Hins%with_context_Ok_inv & Hb); [|done].
  injection Hb as ->. apply insert_ok in Hins as (_ & _ & Hins).
  apply He, Hins, Ht. by left.
Qed.

Lemma insert_node_total d (node : NodeRecord) :
  db_ok d → ∃ d', insert_node node d = (d', Ok ()) ∧ db_ok d' ∧
    nodes d' = <[nd_id node := node]> (nodes d) ∧ other_tables d d'.
Proof.
  intros Hd. destruct (encode_total node) as (text & Henc & Hdec).
  assert (∃ d', insert_node node d = (d', Ok ()) ∧ db_healthy d') as (d' & Hi & Hh).
  { unfold insert_node. rewrite (M_bind_ok (lift _) _ d d text) by (unfold lift; by rewrite Henc).
    unfold insert_one. destruct (write_txn_healthy (A:=()) "开始写事务失败" "打开 nodes 表失败" "提交节点事务失败"
      NODES (λ w, w ← with_context "写入节点失败" (tbl_insert w NODES (nd_id node) text); mret (Commit w ()))
      d) as (d' & [] & Hw & Hh); [apply Hd| |by exists d'].
    intros w Hw _. destruct (insert_healthy w NODES (nd_id node) text Hw) as (w' & Hi & Hw').
    exists w', (). split; [|done]. cbn in Hi |- *. by rewrite Hi. }
  exists d'. split; [done|].
  pose proof (insert_json_view NODES (nd_id node) node id id _ _ _ _ _ (λ _, eq_refl) Hi) as [Hv Ho].
  split_and!; [|exact Hv|done].
  apply (encode_then_ok node (λ v, insert_one _ _ _ NODES (nd_id node) v)) in Hi
    as (text' & Henc' & Hdec' & Hi).
  apply insert_one_table in Hi as Ht. apply insert_one_ok in Hi as [Hc _].
  split; [done|done|].
  intros n v. rewrite Hc. intros [[<- <-]|[_ Hv']]%lookup_insert_Some; [by exists node|].
  by eapply ok_records.
Qed.

Lemma mapM_decode_total d kvs :
  db_ok d → sorted_entries kvs (contents d NODES) →
  ∃ l : list NodeRecord, mapM (λ kv : N * string, decode kv.2) kvs = Ok l.
Proof.
  intros Hd [Hp _].
  assert (Forall (λ kv : N * string, is_ok (decode (A:=NodeRecord) kv.2)) kvs) as Hall.
  { apply Forall_forall. intros [n v] Hin. rewrite Hp in Hin. apply elem_of_map_to_list in Hin.
    destruct (ok_records d Hd n v Hin) as (node & Hdec & _).
    change (is_ok (decode (A:=NodeRecord) v)). by rewrite Hdec. }
  clear Hp. induction Hall as [|kv kvs Hkv _ (l & Hl)]; [by exists []|]. cbn.
  destruct (decode kv.2) as [node|] eqn:Hdec; [|done]. exists (node :: l). by rewrite Hl.
Qed.

Lemma list_nodes_total d :
  db_ok d → ∃ l, list_nodes d = Ok l ∧ listing NODES (nodes d) l.
Proof.
  intros Hd. unfold list_nodes.
  destruct (read_txn_healthy "打开 nodes 表失败" NODES (iter_map "遍历节点失败" "读取节点项失败" NODES
    (λ kv, decode (A:=NodeRecord) kv.2)) d) as (s & He & Hs & Hr); [apply Hd..|].
  destruct (iter_map_healthy "遍历节点失败" "读取节点项失败" NODES
    (λ kv, decode (A:=NodeRecord) kv.2) s Hs) as (kvs & Hkvs & Hi).
  rewrite (proj1 (He NODES)) in Hkvs.
  destruct (mapM_decode_total d kvs Hd Hkvs) as [l Hl]. exists l. split.
  - etrans; [exact Hr|]. etrans; [exact Hi|exact Hl].
  - exact (mapM_listing NODES id d kvs l Hkvs Hl).
Qed.

Lemma set_node_status_same node : set_node_status (nd_status node) node = node.
Proof. by destruct node. Qed.

(** A node is given a status, every other node stays as it is. *)
Lemma mark_status_ok want d n :
  db_ok d → let d' := mark_status want d n in
  db_ok d' ∧ other_tables d d' ∧
  ∀ i, nodes d' !! i =
    (λ node, if decide (n = i) then set_node_status want node else node) <$> nodes d !! i.
Proof.
  intros Hd. cbv zeta. unfold mark_status. rewrite (get_node_total d n Hd).
  assert (∀ i, nodes d !! i = None ∨ n ≠ i → nodes d !! i =
    (λ node, if decide (n = i) then set_node_status want node else node) <$> nodes d !! i) as Hskip.
  { intros i Hi. destruct (nodes d !! i) as [node|] eqn:Hni; [|done].
    destruct Hi as [Hi|Hne]; [done|]. cbn. by rewrite decide_False. }
  destruct (nodes d !! n) as [node|] eqn:Hn; last first.
  { split_and!; [done..|]. intros i. apply Hskip. destruct (decide (n = i)); subst; auto. }
  pose proof (nodes_id d n node Hd Hn) as Hid.
  destruct (decide (nd_status node ≠ want)) as [Hne|Heq].
  - destruct (insert_node_total d (set_node_status want node) Hd) as (d' & -> & Hd' & Hv & Ho).
    cbn [fst]. split_and!; [done..|]. intros i. rewrite Hv. cbn [set_node_status nd_id].
    rewrite Hid. destruct (decide (n = i)) as [<-|Hni].
    + by rewrite lookup_insert_eq, Hn.
    + rewrite lookup_insert_ne by done. symmetry. apply option_fmap_id.
  - apply dec_stable in Heq. split_and!; [done..|]. intros i.
    destruct (decide (n = i)) as [<-|Hni]; [|symmetry; apply option_fmap_id].
    rewrite Hn. cbn. by rewrite <- Heq, set_node_status_same.
Qed.

Lemma mark_all_ok {B} (f : B → string * N) (l : list B) d :
  db_ok d → let d' := foldl (λ d b, mark_status (f b).1 d (f b).2) d l in
  db_ok d' ∧ other_tables d d' ∧
  ∀ i, nodes d' !! i = (λ node, match last (filter (λ b, (f b).2 = i) l) with
    | Some b => set_node_status (f b).1 node | None => node end) <$> nodes d !! i.
Proof.
  intros Hd. cbv zeta. induction l as [|b l (IH1 & IH2 & IH3)] using rev_ind.
  { split_and!; [done..|]. intros i. cbn. by rewrite option_fmap_id. }
  rewrite foldl_app. cbn. set (d1 := foldl _ _ _) in *.
  destruct (mark_status_ok (f b).1 d1 (f b).2 IH1) as (H1' & H2' & H3').
  split_and!; [done| |].
  - intros t Ht. by rewrite H2', IH2.
  - intros i. rewrite H3', IH3. destruct (nodes d !! i) as [node|]; [|done]. cbn. f_equal.
    rewrite filter_app, filter_cons, filter_nil. destruct (decide ((f b).2 = i)).
    + rewrite last_snoc. by destruct (last _).
    + by rewrite app_nil_r.
Qed.

Lemma unwrap_list_nodes d :
  db_ok d → ∃ l, unwrap_or_nil (list_nodes d) = l ∧ listing NODES (nodes d) l.
Proof. intros Hd. destruct (list_nodes_total d Hd) as (l & -> & Hl). by exists l. Qed.

Lemma listing_elem d l node :
  db_ok d → listing NODES (nodes d) l → node ∈ l ↔ nodes d !! nd_id node = Some node.
Proof.
  intros Hd (ks & _ & _ & Hf & Hall). split.
  - intros Hin. apply list_elem_of_lookup in Hin as [i Hi].
    destruct (Forall2_lookup_r _ _ _ _ _ Hf Hi) as (n & _ & Hn).
    by rewrite (nodes_id d n node Hd Hn).
  - intros Hn. destruct (list_elem_of_lookup_1 _ _ (Hall (nd_id node) (mk_is_Some _ _ Hn))) as [i Hi].
    destruct (Forall2_lookup_l _ _ _ _ _ Hf Hi) as (node' & Hi' & Hn').
    apply list_elem_of_lookup. exists i. rewrite Hi'.
    pose proof (eq_trans (eq_sym Hn) Hn') as Heq. by injection Heq as ->.
Qed.

Lemma sync_heartbeats_ok now timeout d :
  db_ok d → let d' := sync_heartbeats timeout now d in
  db_ok d' ∧ other_tables d d' ∧
  ∀ i, nodes d' !! i = (λ node,
    if is_offline now timeout node then set_node_status "offline" node else node) <$> nodes d !! i.
Proof.
  intros Hd. cbv zeta. unfold sync_heartbeats, offline_nodes.
  destruct (list_nodes_total d Hd) as (l & -> & Hl). cbn.
  destruct (mark_all_ok (λ n, ("offline"%string, n))
    (map nd_id (filter (λ n, is_offline now timeout n = true) l)) d Hd) as (H1' & H2' & H3').
  split_and!; [done..|]. intros i. rewrite H3'.
  destruct (nodes d !! i) as [node|] eqn:Hi; [|done]. cbn. f_equal.
  pose proof (nodes_id d i node Hd Hi) as Hid.
  assert (node ∈ l) as Hin by (apply (listing_elem d l node Hd Hl); by rewrite Hid).
  destruct (last _) as [n|] eqn:Hlast.
  - apply last_Some_elem_of in Hlast. apply list_elem_of_filter in Hlast as [-> Hn].
    apply list_elem_of_In, in_map_iff in Hn as (node' & Hid' & Hn).
    apply list_elem_of_In, list_elem_of_filter in Hn as [Hoff Hn].
    apply (listing_elem d l node' Hd Hl) in Hn. cbn in Hid'. rewrite Hid', Hi in Hn.
    injection Hn as <-. by rewrite Hoff.
  - apply last_None in Hlast. destruct (is_offline now timeout node) eqn:Hoff; [exfalso|done].
    assert (i ∈ filter (λ n : N, n = i) (map nd_id (filter (λ n, is_offline now timeout n = true) l)))
      as Hf; [|rewrite Hlast in Hf; by apply elem_of_nil in Hf].
    apply list_elem_of_filter. split; [done|]. apply list_elem_of_In, in_map_iff. exists node.
    split; [done|]. apply list_elem_of_In, list_elem_of_filter. done.
Qed.

Lemma sync_meta_ok (entries : list (A * (N * N))) k a v :
  (sync_meta entries k).1 !! a = Some v → (a, v) ∈ entries.
Proof.
  unfold sync_meta. induction entries as [|[b w] entries IH] using rev_ind; [done|].
  rewrite foldl_app, elem_of_app, list_elem_of_singleton. cbn.
  intros [[-> ->]|[_ Hm]]%lookup_insert_Some; [by right|left; by apply IH].
Qed.

Lemma keepalive_addrs_ok (node : NodeRecord) (a : A) i j :
  (a, (i, j)) ∈ keepalive_addrs node →
  i = nd_id node ∧ ∃ (n : nat) r, j = as_u32 (N.of_nat n) ∧ nd_addrs node !! n = Some r ∧
    ad_kind r = "keepalive"%string ∧ addr_parse (ad_addr r) = Some a.
Proof.
  unfold keepalive_addrs. rewrite list_elem_of_omap. intros ([n r] & Hin & Hr).
  apply elem_of_lookup_imap in Hin as (n' & r' & [= <- <-] & Hn). cbn in Hr.
  case_decide as Hk; [|done]. destruct (addr_parse (ad_addr r)) as [b|] eqn:Hp; [|done].
  injection Hr as -> <- <-. split; [done|]. by exists n, r.
Qed.

Lemma ping_steps_ok (interval : N) (t : Tick) (l : list (A * (N * N))) acc a p :
  (a, p) ∈ (foldl (ping_step interval t) acc l).2 →
  (a, p) ∈ acc.2 ∨ ∃ seq i j, (a, (i, j)) ∈ l ∧ p = build_ping seq i j ∧
    addr_slot a interval = checked_rem (ti_now_secs t) interval.
Proof.
  induction l as [|[b [i j]] l IH] using rev_ind; [by left|].
  rewrite foldl_app. cbn. set (acc1 := foldl _ acc l) in *. unfold ping_step.
  destruct acc1 as [[seq outstanding] sent]. cbn in IH.
  assert ((a, p) ∈ sent → (a, p) ∈ acc.2 ∨ ∃ seq i0 j0, (a, (i0, j0)) ∈ l ++ [(b, (i, j))] ∧
    p = build_ping seq i0 j0 ∧ addr_slot a interval = checked_rem (ti_now_secs t) interval) as Hold.
  { intros [?|(seq' & i' & j' & Hin & ?)]%IH; [by left|right].
    exists seq', i', j'. split; [apply elem_of_app; by left|done]. }
  case_decide as Hs; cbn; [|exact Hold].
  rewrite elem_of_app, list_elem_of_singleton. intros [Hin|[= -> ->]]; [by apply Hold|].
  right. eexists _, i, j. split_and!; [|done|done]. apply elem_of_app. right. by apply list_elem_of_singleton.
Qed.

(** A turn of the loop changes the status of nodes and nothing else of the
    database: a node with probed addresses gets the state of the one the table
    lists last for it, whatever its heartbeat; any other node is set offline when
    its last heartbeat is older than the timeout.  Only addresses that a stored
    node declares for probing are in the table, and pings go out only to
    addresses of the table that are due, with their node and index. *)
Theorem tick_spec interval thr timeout (t : Tick) (s s' : RunState A D) sent :
  db_ok (rn_store s) → tick interval thr timeout t s = (s', sent) →
  db_ok (rn_store s') ∧ other_tables (rn_store s) (rn_store s') ∧
  (∀ i, nodes (rn_store s') !! i = (λ node,
     match last (filter (λ e : A * (N * N), e.2.1 = i) (map_iter (rn_meta s'))) with
     | Some e => set_node_status (want_status (addr_available (rn_keep s') e.1)) node
     | None => if is_offline (ti_now_ms t) timeout node then set_node_status "offline" node else node
     end) <$> nodes (rn_store s) !! i) ∧
  (∀ a i j, rn_meta s' !! a = Some (i, j) →
     ∃ node (n : nat) r, nodes (rn_store s) !! i = Some node ∧ nd_addrs node !! n = Some r ∧
       j = as_u32 (N.of_nat n) ∧ ad_kind r = "keepalive"%string ∧ addr_parse (ad_addr r) = Some a) ∧
  (∀ a p, (a, p) ∈ sent → ∃ seq i j, rn_meta s' !! a = Some (i, j) ∧ p = build_ping seq i j ∧
     addr_slot a interval = checked_rem (ti_now_secs t) interval).
Proof.
  intros Hd Ht. unfold tick in Ht.
  destruct (sync_heartbeats_ok (ti_now_ms t) timeout (rn_store s) Hd) as (Hd1 & Ho1 & Hn1).
  set (d1 := sync_heartbeats _ _ _) in *.
  destruct (unwrap_list_nodes d1 Hd1) as (l & Hl & Hlist). rewrite Hl in Ht.
  pose proof (sync_meta_ok (collect_meta l) (rn_keep s)) as Hmeta.
  destruct (sync_meta (collect_meta l) (rn_keep s)) as [meta keep]. cbn [fst] in Hmeta.
  pose proof (ping_steps_ok interval t (map_iter meta) (rn_seq s, rn_outstanding s, [])) as Hping.
  destruct (foldl (ping_step interval t) _ (map_iter meta)) as [[seq outst] sent'].
  destruct (foldl (recv_step thr) _ _) as [outst1 keep1].
  destruct (foldl (expire_step thr) _ _) as [outst2 keep2].
  injection Ht as <- <-. cbn [rn_store rn_meta rn_keep].
  destruct (mark_all_ok (λ e : A * (N * N), (want_status (addr_available keep2 e.1), e.2.1))
    (map_iter meta) d1 Hd1) as (Hd2 & Ho2 & Hn2).
  split_and!.
  - exact Hd2.
  - intros tb Htb. etrans; [by apply Ho2|by apply Ho1].
  - intros i. etrans; [exact (Hn2 i)|]. rewrite Hn1.
    destruct (nodes (rn_store s) !! i) as [node|]; [|done]. cbn. f_equal.
    destruct (last _); [|done]. by destruct (is_offline _ _ _).
  - intros a i j Hm%Hmeta. unfold collect_meta in Hm.
    apply list_elem_of_join in Hm as (es & Hes & Hin).
    apply list_elem_of_In, in_map_iff in Hin as (node & <- & Hin%list_elem_of_In).
    apply keepalive_addrs_ok in Hes as (-> & n & r & Hj & Hr & Hk & Hp).
    apply (listing_elem d1 l node Hd1 Hlist) in Hin. rewrite Hn1 in Hin.
    destruct (nodes (rn_store s) !! nd_id node) as [node0|] eqn:Hnode; [|done].
    exists node0, n, r. split_and!; try done. injection Hin as <-. by destruct (is_offline _ _ _).
  - intros a p [Hin|(sq & i & j & Hin & Hp & Hs)]%Hping; [by apply elem_of_nil in Hin|].
    exists sq, i, j. split_and!; [|done..].
    rewrite map_iter_perm in Hin. by apply elem_of_map_to_list in Hin.
Qed.

End tick.

(** ** Examples *)

Lemma keepalive_machine_witness :
  "a:1"%string ∈ unavailable (run_events 2 Keepalive_new
    [Reg "a:1"%string; Probe "a:1"%string true; Probe "a:1"%string false; Probe "a:1"%string false]).
Proof.
  destruct (keepalive_machine 2 [Reg "a:1"%string; Probe "a:1"%string true;
    Probe "a:1"%string false; Probe "a:1"%string false] "a:1"%string) as [Hu _].
  { vm_compute. reflexivity. }
  apply Hu. exists [Reg "a:1"%string; Probe "a:1"%string true],
    [Probe "a:1"%string false; Probe "a:1"%string false].
  split; [reflexivity|]. split.
  - intros [Hp|[Hp|[]%elem_of_nil]%elem_of_cons]%elem_of_cons; discriminate Hp.
  - vm_compute. discriminate.
Defined.

#[local] Existing Instance sched_json.
#[local] Existing Instance sched_json_laws.

(** Node 1 is probed at one address, node 2 has none; both heartbeats are old. *)
Definition ka_node1 : NodeRecord :=
  mkNode 1 "idc" "ep1" "" [mkAddr "a:1" "keepalive" ""] "offline" 0.
Definition ka_node2 : NodeRecord := mkNode 2 "cafe" "ep2" "" [] "online" 0.
Definition ka_db : MemDb := (insert_node ka_node2 (insert_node ka_node1 mem_sched).1).1.

Lemma mem_sched_ok : db_ok mem_sched.
Proof.
  split; [done| |].
  - change (NODES ∈ map fst TABLES). apply list_elem_of_In. cbn. by left.
  - intros i v Hi. change ((∅ : gmap N string) !! i = Some v) in Hi. by rewrite lookup_empty in Hi.
Qed.

Lemma ka_db_ok : db_ok ka_db.
Proof.
  unfold ka_db. destruct (insert_node_total mem_sched ka_node1 mem_sched_ok) as (d1 & -> & Hd1 & _).
  cbn [fst]. by destruct (insert_node_total d1 ka_node2 Hd1) as (d2 & -> & Hd2 & _).
Qed.

Definition ka_tick : Tick := mkTick 0 100000 (λ _, 0) (λ _, 0) [].

(** The heartbeat timeout marks both nodes, but node 1, whose address has not
    failed yet, is online again at the end of the same turn. *)
Lemma tick_spec_witness :
  nd_status <$> nodes (rn_store (tick 25 3 75000 ka_tick (run_init ka_db)).1) !! 1 = Some "online"%string ∧
  nd_status <$> nodes (rn_store (tick 25 3 75000 ka_tick (run_init ka_db)).1) !! 2 = Some "offline"%string.
Proof.
  assert (Hm : rn_meta (tick 25 3 75000 ka_tick (run_init (A:=string) ka_db)).1 = {["a:1"%string := (1, 0)]} ∧
    addr_available (rn_keep (tick 25 3 75000 ka_tick (run_init (A:=string) ka_db)).1) "a:1"%string = true).
  { split; vm_compute; reflexivity. }
  destruct (tick 25 3 75000 ka_tick (run_init ka_db)) as [s' sent] eqn:Ht.
  destruct (tick_spec 25 3 75000 ka_tick (run_init ka_db) s' sent ka_db_ok Ht)
    as (_ & _ & Hn & _). cbn [fst] in Hm |- *. destruct Hm as [Hm Hav].
  assert (nodes ka_db !! 1 = Some ka_node1) as H1 by (vm_compute; reflexivity).
  assert (nodes ka_db !! 2 = Some ka_node2) as H2 by (vm_compute; reflexivity).
  assert (∀ i, last (filter (λ e : string * (N * N), e.2.1 = i)
    (map_iter ({["a:1"%string := (1, 0)]} : gmap string (N * N)))) =
    if decide (1 = i) then Some ("a:1"%string, (1, 0)) else None) as Hlast.
  { intros i. assert (map_iter ({["a:1"%string := (1, 0)]} : gmap string (N * N)) =
      [("a:1"%string, (1, 0))]) as -> by (vm_compute; reflexivity).
    rewrite filter_cons, filter_nil. cbn. by case_decide. }
  split; rewrite Hn, Hm, Hlast; change (rn_store (run_init ka_db)) with ka_db.
  - rewrite H1. cbn [fmap option_fmap option_map decide]. rewrite decide_True by done. cbn [fst].
    by rewrite Hav.
  - rewrite H2. cbn [fmap option_fmap option_map]. rewrite decide_False by done. reflexivity.
Defined.
