(* ===== verification/KeepaliveLive.v ===== *)
(** * KeepaliveLive: a probe that is answered

    A turn of the scheduler's loop pings every due address of the table, the
    agent's pong server answers each ping, and an answer that arrives makes the
    address available, whatever failed before. *)

From S2P Require Import Prelude Bytes Text Redb PingPong SchedDb SchedDbSpec Keepalive KeepaliveSpec.

Section live.
Context {A : Type} `{SockAddr A, MapIterLaws}.
Context {D : Type} `{RedbLaws D, !RedbHealthy D, SchedJsonLaws}.

(** ** The pings of a turn *)

(** No outstanding ping went to the address. *)
Definition no_ping (a : A) (o : gmap N (A * N)) : Prop := ∀ seq c, o !! seq ≠ Some (a, c).

Lemma ping_steps_all interval (t : Tick) (l : list (A * (N * N))) seq0 o0 s0 :
  seq0 < 2^32 → lenN l < 2^32 → NoDup l.*1 →
  let r := foldl (ping_step interval t) (seq0, o0, s0) l in
  ∃ n, n ≤ lenN l ∧ r.1.1 = (seq0 + n) mod 2^32 ∧
    (∀ seq v, r.1.2 !! seq = Some v → o0 !! seq = Some v ∨ v.1 ∈ l.*1) ∧
    (∀ a i j, (a, (i, j)) ∈ l → addr_slot a interval = checked_rem (ti_now_secs t) interval → no_ping a o0 →
       ∃ k, 1 ≤ k ≤ n ∧ let seq := (seq0 + k) mod 2^32 in
         (a, build_ping seq i j) ∈ r.2 ∧ r.1.2 !! seq = Some (a, ti_sent t seq) ∧
         ∀ seq' c, r.1.2 !! seq' = Some (a, c) → seq' = seq).
Proof.
  intros Hs. induction l as [|[b [bi bj]] l IH] using rev_ind; intros Hl Hnd.
  { exists 0. cbn. rewrite N.add_0_r, N.mod_small by done. split_and!; [done|done|by left|].
    by intros a i j ?%elem_of_nil. }
  rewrite lenN_app, lenN_cons, lenN_nil in Hl. rewrite fmap_app in Hnd. cbn in Hnd.
  apply NoDup_app in Hnd as (Hnd & Hnb & _).
  assert (b ∉ l.*1) as Hb by (intros Hin; apply (Hnb b Hin); left).
  destruct IH as (n & Hn & Hseq & Hold & Hnew); [lia|done|].
  rewrite foldl_app. cbn [foldl]. set (r0 := foldl _ _ l) in *. destruct r0 as [[seq o] snt].
  cbn [fst snd] in Hseq, Hold, Hnew. cbn zeta. unfold ping_step.
  rewrite lenN_app, lenN_cons, lenN_nil, fmap_app.
  assert (∀ a, a ∈ l.*1 → a ≠ b) as Hne by (intros a Ha ->; done).
  assert (∀ a i j, (a, (i, j)) ∈ l → a ∈ l.*1) as Hfst
    by (intros a i j Hin; by apply (list_elem_of_fmap_2 fst) in Hin).
  case_decide as Hdue; cbn [fst snd].
  - set (new := add_u32 seq 1).
    assert (new = (seq0 + (n + 1)) mod 2^32) as Hnewseq.
    { unfold new, add_u32. rewrite Hseq, N.Div0.add_mod_idemp_l. f_equal. lia. }
    assert (∀ k, 1 ≤ k ≤ n → (seq0 + k) mod 2^32 ≠ new) as Hdist.
    { intros k Hk Heq. rewrite Hnewseq in Heq.
      assert (∀ x y, x < y → y - x < 2^32 → (seq0 + x) mod 2^32 ≠ (seq0 + y) mod 2^32) as Hmod; [|by apply (Hmod k (n + 1)) in Heq; [|lia..]].
      intros x y Hxy Hd He. pose proof (N.div_mod (seq0 + x) (2^32) ltac:(done)) as H1'.
      pose proof (N.div_mod (seq0 + y) (2^32) ltac:(done)) as H2'. rewrite He in H1'. nia. }
    exists (n + 1). split_and!; [lia|done| |].
    + intros sq v [[<- <-]|[_ Hv]]%lookup_insert_Some; [right; apply elem_of_app; right; left|].
      destruct (Hold sq v Hv) as [?|?]; [by left|right; apply elem_of_app; by left].
    + intros a i j [Hin|[= -> -> ->]%list_elem_of_singleton]%elem_of_app Hd Hno.
      * destruct (Hnew a i j Hin Hd Hno) as (k & Hk & Hsent & Hlk & Huniq). exists k. split_and!; [lia|lia| | |].
        -- apply elem_of_app. by left.
        -- rewrite lookup_insert_ne; [done|]. intros He. by apply (Hdist k Hk).
        -- intros sq c [[_ [= Hab _]]|[_ Hc]]%lookup_insert_Some; [|by eapply Huniq].
           exfalso. by apply (Hne a (Hfst _ _ _ Hin)).
      * exists (n + 1). rewrite <- Hnewseq. split_and!; [lia|lia| | |].
        -- apply elem_of_app. right. left.
        -- apply lookup_insert_eq.
        -- intros sq c [[<- _]|[_ Hc]]%lookup_insert_Some; [done|].
           exfalso. destruct (Hold _ _ Hc) as [Ho|Hi]; [by eapply Hno|by apply Hb].
  - exists n. split_and!; [lia|done| |].
    + intros sq v Hv. destruct (Hold sq v Hv) as [?|?]; [by left|right; apply elem_of_app; by left].
    + intros a i j [Hin|[= -> -> ->]%list_elem_of_singleton]%elem_of_app Hd Hno; [by apply Hnew|done].
Qed.

(** ** The answers *)

Definition answered (a : A) (o : gmap N (A * N)) (k : Keepalive A) : Prop :=
  no_ping a o ∧ ka_addrs k !! a = Some (mkState 0 true).

Lemma record_other (a b : A) ok thr (k : Keepalive A) :
  a ≠ b → ka_addrs (record b ok thr k) !! a = ka_addrs k !! a.
Proof. intros Hne. unfold record. cbn. by rewrite lookup_insert_ne. Qed.

Lemma recv_step_answered thr a o k d :
  answered a o k → answered a (recv_step thr (o, k) d).1 (recv_step thr (o, k) d).2.
Proof.
  intros [Hno Hk]. unfold recv_step. cbn [fst snd]. destruct (parse_pong _) as [sq|]; [|done].
  destruct (o !! sq) as [[b c]|] eqn:Ho; [|done]. cbn [fst snd]. split.
  - intros sq' c' [_ Hl]%lookup_delete_Some. by apply (Hno sq' c').
  - rewrite record_other; [done|]. intros <-. by apply (Hno sq c).
Qed.

Lemma recv_steps_answered thr a ds o k :
  answered a o k → answered a (foldl (recv_step thr) (o, k) ds).1 (foldl (recv_step thr) (o, k) ds).2.
Proof.
  revert o k. induction ds as [|d ds IH]; intros o k Ha; [done|]. cbn [foldl].
  pose proof (recv_step_answered thr a o k d Ha) as H'. destruct (recv_step thr (o, k) d) as [o' k']. by apply IH.
Qed.

Lemma recv_steps_ok thr a seq c ds o k :
  seq < 2^32 → o !! seq = Some (a, c) → (∀ seq' c', o !! seq' = Some (a, c') → seq' = seq) →
  build_pong seq ∈ ds →
  answered a (foldl (recv_step thr) (o, k) ds).1 (foldl (recv_step thr) (o, k) ds).2.
Proof.
  intros Hs. revert o k. induction ds as [|d ds IH]; intros o k Ho Huniq Hin; [by apply elem_of_nil in Hin|].
  cbn [foldl]. unfold recv_step at 2 4. cbn [fst snd].
  assert (take PONG_LEN (build_pong seq) = build_pong seq) as Htake
    by (apply take_ge; unfold build_pong; rewrite length_app, le_encode_length; vm_compute; lia).
  destruct (decide (parse_pong (take PONG_LEN d) = Some seq)) as [Hp|Hp].
  { rewrite Hp, Ho. apply recv_steps_answered. split.
    - intros sq c' [Hne Hl]%lookup_delete_Some. apply Hne. symmetry. by eapply Huniq.
    - unfold record. cbn. by rewrite lookup_insert_eq. }
  assert (build_pong seq ∈ ds) as Hin'.
  { apply elem_of_cons in Hin as [<-|Hin]; [|done]. exfalso. apply Hp. rewrite Htake. by apply parse_build_pong. }
  destruct (parse_pong (take PONG_LEN d)) as [sq|] eqn:Hpp; [|by apply IH].
  destruct (o !! sq) as [[b c']|] eqn:Hb; [|by apply IH]. apply IH; [| |done].
  - rewrite lookup_delete_ne; [done|]. intros ->. done.
  - intros sq' c'' [_ Hl]%lookup_delete_Some. by eapply Huniq.
Qed.

Lemma expire_steps_other thr a (es : list (N * A)) o (k : Keepalive A) :
  (∀ e, e ∈ es → e.2 ≠ a) → ka_addrs (foldl (expire_step thr) (o, k) es).2 !! a = ka_addrs k !! a.
Proof.
  revert o k. induction es as [|e es IH]; intros o k Hes; [done|]. cbn [foldl]. unfold expire_step at 2. cbn [fst snd].
  rewrite IH by (intros e' He'; apply Hes; by right). apply record_other.
  intros He. apply (Hes e); [left|done].
Qed.

Lemma expired_other interval a t o : no_ping a o → ∀ e, e ∈ expired interval t o → e.2 ≠ a.
Proof.
  intros Hno e He <-. unfold expired in He. apply list_elem_of_In, in_map_iff in He as ([sq [b c]] & <- & Hin%list_elem_of_In).
  apply list_elem_of_filter in Hin as [_ Hin]. rewrite map_iter_perm in Hin. apply elem_of_map_to_list in Hin.
  by apply (Hno sq c).
Qed.

(** ** The table *)

Lemma sync_meta_all (entries : list (A * (N * N))) k a v :
  (a, v) ∈ entries → is_Some ((sync_meta entries k).1 !! a).
Proof.
  unfold sync_meta. induction entries as [|[b w] entries IH] using rev_ind; [by intros ?%elem_of_nil|].
  rewrite foldl_app, elem_of_app, list_elem_of_singleton. cbn. destruct (decide (b = a)) as [->|Hne].
  - intros _. rewrite lookup_insert_eq. by eexists.
  - rewrite lookup_insert_ne by done. intros [Hin|[= -> _]]; [by apply IH|done].
Qed.

Lemma keepalive_addrs_all (node : NodeRecord) (a : A) (n : nat) r :
  nd_addrs node !! n = Some r → ad_kind r = "keepalive"%string → addr_parse (ad_addr r) = Some a →
  (a, (nd_id node, as_u32 (N.of_nat n))) ∈ keepalive_addrs node.
Proof.
  intros Hn Hk Hp. unfold keepalive_addrs. apply list_elem_of_omap. exists (n, r). split.
  - apply elem_of_lookup_imap. by exists n, r.
  - cbn. rewrite decide_True by done. by rewrite Hp.
Qed.

Lemma probe_answered_ok interval thr timeout (t : Tick) (s s' : RunState A D) sent i node (n : nat) r a :
  db_ok (rn_store s) → tick interval thr timeout t s = (s', sent) →
  nodes (rn_store s) !! i = Some node → nd_addrs node !! n = Some r →
  ad_kind r = "keepalive"%string → addr_parse (ad_addr r) = Some a →
  addr_slot a interval = checked_rem (ti_now_secs t) interval →
  rn_seq s < 2^32 → no_ping a (rn_outstanding s) → N.of_nat (size (rn_meta s')) < 2^32 →
  ∃ seq i' j', seq < 2^32 ∧ rn_meta s' !! a = Some (i', j') ∧ (a, build_ping seq i' j') ∈ sent ∧
    (i' < 2^64 → j' < 2^32 → serve_pong_step (build_ping seq i' j') = Some (build_pong seq)) ∧
    (build_pong seq ∈ ti_received t →
     ka_addrs (rn_keep s') !! a = Some (mkState 0 true) ∧ no_ping a (rn_outstanding s')).
Proof.
  intros Hd Ht Hi Hn Hk Hp Hdue Hseq Hno Hsize. unfold tick in Ht.
  destruct (sync_heartbeats_ok (ti_now_ms t) timeout (rn_store s) Hd) as (Hd1 & _ & Hn1).
  set (d1 := sync_heartbeats _ _ _) in *.
  destruct (unwrap_list_nodes d1 Hd1) as (l & Hl & Hlist). rewrite Hl in Ht.
  assert (is_Some ((sync_meta (collect_meta l) (rn_keep s)).1 !! a)) as Hmeta.
  { pose proof (nodes_id _ _ _ Hd Hi) as Hid.
    set (node' := if is_offline (ti_now_ms t) timeout node then set_node_status "offline" node else node).
    assert (nd_id node' = i ∧ nd_addrs node' = nd_addrs node) as [Hid' Had].
    { unfold node'. by destruct (is_offline _ _ _). }
    assert (node' ∈ l) as Hin.
    { apply (listing_elem d1 l node' Hd1 Hlist). rewrite Hid', Hn1, Hi. done. }
    apply (sync_meta_all _ _ _ (nd_id node', as_u32 (N.of_nat n))). unfold collect_meta.
    apply list_elem_of_join. exists (keepalive_addrs node'). split.
    - apply (keepalive_addrs_all node' a n r); [by rewrite Had|done..].
    - apply list_elem_of_In, in_map, list_elem_of_In. exact Hin. }
  destruct (sync_meta (collect_meta l) (rn_keep s)) as [meta keep]. cbn [fst] in Hmeta.
  destruct Hmeta as [[i' j'] Hm].
  pose proof (ping_steps_all interval t (map_iter meta) (rn_seq s) (rn_outstanding s) [] Hseq) as Hping.
  destruct (foldl (ping_step interval t) _ (map_iter meta)) as [[seq1 outst] sent'].
  destruct (foldl (recv_step thr) _ _) as [outst1 keep1] eqn:Hrecv.
  destruct (foldl (expire_step thr) _ _) as [outst2 keep2] eqn:Hexp.
  injection Ht as <- <-. cbn [rn_meta rn_keep rn_outstanding] in *.
  destruct Hping as (cnt & _ & _ & _ & Hnew).
  { unfold lenN. rewrite map_iter_perm, length_map_to_list. done. }
  { rewrite map_iter_perm. apply NoDup_fst_map_to_list. }
  destruct (Hnew a i' j') as (c & _ & Hsent & Hout & Huniq); [|done|done|].
  { rewrite map_iter_perm. by apply elem_of_map_to_list. }
  cbn [fst snd] in *. set (seq := (rn_seq s + c) mod 2^32) in *.
  assert (seq < 2^32) as Hlt by (by apply N.mod_lt).
  exists seq, i', j'. split_and!; [done|done|done| |].
  - intros Hi' Hj'. unfold serve_pong_step. rewrite take_ge by (rewrite build_ping_length; done).
    by rewrite parse_build_ping.
  - intros Hin. pose proof (recv_steps_ok thr a seq _ (ti_received t) outst keep Hlt Hout Huniq Hin) as [Ha1 Ha2].
    rewrite Hrecv in Ha1, Ha2. cbn [fst snd] in Ha1, Ha2.
    pose proof (expire_steps_other thr a (expired interval t outst1) outst1 keep1
      (expired_other interval a t outst1 Ha1)) as He. rewrite Hexp in He. cbn [snd] in He.
    split; [by rewrite He|]. intros sq c' Hc.
    assert (∀ es o k, (foldl (expire_step (A:=A) thr) (o, k) es).1 ⊆ o) as Hsub.
    { induction es as [|e es IH]; intros o k; [done|]. cbn [foldl]. unfold expire_step at 2.
      etrans; [apply IH|]. apply delete_subseteq. }
    specialize (Hsub (expired interval t outst1) outst1 keep1). rewrite Hexp in Hsub. cbn [fst] in Hsub.
    apply (Ha1 sq c'). by eapply lookup_weaken.
Qed.

(** A recorded node that declares a probed address is pinged there whenever
    the address is due, unless a ping is still on its way; the agent's pong server
    answers every such ping; and when the answer arrives in the turn, the address
    is available and its failures are forgotten, whatever they were. *)
Theorem probe_answered interval thr timeout (t : Tick) (s s' : RunState A D) sent i node (n : nat) r a :
  db_ok (rn_store s) → tick interval thr timeout t s = (s', sent) →
  nodes (rn_store s) !! i = Some node → nd_addrs node !! n = Some r →
  ad_kind r = "keepalive"%string → addr_parse (ad_addr r) = Some a →
  addr_slot a interval = checked_rem (ti_now_secs t) interval →
  rn_seq s < 2^32 → no_ping a (rn_outstanding s) → N.of_nat (size (rn_meta s')) < 2^32 →
  ∃ seq i' j', seq < 2^32 ∧ rn_meta s' !! a = Some (i', j') ∧ (a, build_ping seq i' j') ∈ sent ∧
    (i' < 2^64 → j' < 2^32 → serve_pong_step (build_ping seq i' j') = Some (build_pong seq)) ∧
    (build_pong seq ∈ ti_received t →
     ka_addrs (rn_keep s') !! a = Some (mkState 0 true) ∧ no_ping a (rn_outstanding s')).
Proof. apply probe_answered_ok. Qed.

End live.

(** ** Example: the answer undoes two failures *)

#[local] Existing Instance sched_json.
#[local] Existing Instance sched_json_laws.

Definition failed_run : RunState string MemDb :=
  mkRun ka_db (mkKeep {[ "a:1"%string := mkState 2 true ]}) 0 ∅ ∅.
Definition answered_tick : Tick := mkTick 0 0 (λ _, 0) (λ _, 0) [build_pong 1].

Lemma probe_answered_witness :
  ka_addrs (rn_keep (tick 1 3 75000 answered_tick failed_run).1) !! "a:1"%string = Some (mkState 0 true).
Proof.
  assert (nodes ka_db !! 1 = Some ka_node1) as H1 by (vm_compute; reflexivity).
  assert (rn_meta (tick 1 3 75000 answered_tick failed_run).1 = {["a:1"%string := (1, 0)]} ∧
    (tick 1 3 75000 answered_tick failed_run).2 = [("a:1"%string, build_ping 1 1 0)]) as [Hm Hs]
    by (split; vm_compute; reflexivity).
  destruct (tick 1 3 75000 answered_tick failed_run) as [s' sent] eqn:Ht. cbn [fst snd] in *.
  destruct (probe_answered 1 3 75000 answered_tick failed_run s' sent 1 ka_node1 0 (mkAddr "a:1" "keepalive" "")
    "a:1"%string ka_db_ok Ht H1) as (seq & i & j & Hlt & Hmeta & Hsent & _ & Hans).
  - reflexivity.
  - reflexivity.
  - reflexivity.
  - vm_compute. reflexivity.
  - reflexivity.
  - intros seq c. vm_compute. discriminate.
  - rewrite Hm. vm_compute. reflexivity.
  - rewrite Hm, lookup_singleton_eq in Hmeta. injection Hmeta as <- <-.
    rewrite Hs in Hsent. apply list_elem_of_singleton in Hsent. apply (f_equal snd) in Hsent. cbn [snd] in Hsent.
    assert (seq = 1) as ->; [|apply Hans; left].
    assert (Some (1, 1, 0) = Some (seq, 1, 0)) as Hp; [|by injection Hp].
    rewrite <- (parse_build_ping seq 1 0 Hlt eq_refl eq_refl), Hsent. vm_compute. reflexivity.
Defined.
