(* ===== verification/SchedHttp.v ===== *)
(** * SchedHttp: the scheduler's HTTP back office (crates/scheduler/src/http.rs)

    One definition per handler, over the state the handlers share with the control
    plane; a request of the router's table as a constructor and the dispatch.  The
    clock readings are arguments.  Static files, the encoding of a reply and the
    event stream's transport are outside. *)

From S2P Require Import Prelude Bytes Text Manifest Redb SchedDb.
From S2P Require Import SchedControl.

(** What a handler fails with. *)
Inductive StatusCode := UNAUTHORIZED | INTERNAL_SERVER_ERROR | BAD_REQUEST | NOT_FOUND.

(** ** Requests *)

Record LoginRequest := mkLogin { lr_username : string; lr_password : string }.
Record CreateUserRequest := mkCreateUser { cu_username : string; cu_password : string }.
Record CreatePlaceRequest := mkCreatePlace { cp_name : string; cp_region : string }.
Record CreateGroupRequest := mkCreateGroup { cg_name : string }.
Record CreateGameRequest := mkCreateGame { cm_name : string; cm_id : option N }.
Record CreateTaskRequest := mkCreateTask {
  ct_node_id : N; ct_game_id : N; ct_version : N; ct_kind : string
}.
Record RollbackRequest := mkRollback { rb_node_id : N; rb_version : N }.
Record BindRequest := mkBind { br_kind : string; br_a : N; br_b : N }.

Record NodeView := mkNodeView {
  nv_id : N; nv_node_type : string; nv_endpoint_id : string; nv_addrs : list AddrRecord;
  nv_status : string; nv_last_heartbeat_ms : N
}.
Definition NodeView_from (node : NodeRecord) : NodeView :=
  mkNodeView (nd_id node) (nd_node_type node) (nd_endpoint_id node) (nd_addrs node)
    (nd_status node) (nd_last_heartbeat_ms node).

Definition admin_error : StatusCode := UNAUTHORIZED.
Definition store_error (_ : error) : StatusCode := INTERNAL_SERVER_ERROR.
Definition bad_request : StatusCode := BAD_REQUEST.
Definition http_not_found : StatusCode := NOT_FOUND.

(** [Vec<Vec<u8>>::sort]: bytewise *)
Definition bytes_le (a b : list byte) : Prop := bytes_leb a b.
#[global] Instance bytes_le_dec : RelDecision bytes_le.
Proof. intros a b. unfold bytes_le. apply _. Defined.
#[global] Instance bytes_le_total : Total bytes_le.
Proof. intros a b. apply bytes_leb_total. Qed.
#[global] Instance bytes_le_trans : Transitive bytes_le.
Proof. intros a b c. apply bytes_leb_trans. Qed.

Definition sort_byte_lists (l : list (list byte)) : list (list byte) := merge_sort bytes_le l.

Section http.
Context (blake3 : list byte → hash32).
Context {D : Type} `{!RedbOps D, !SchedJson, !SetIter}.
Context (admin_user admin_password : string).
Abbreviation httpM := (M (ControlService D) StatusCode).

(** [state.store.op(..).map_err(store_error)] for reads and for writes *)
Definition db_read {A} (f : D → result error A) : httpM A :=
  s ← get; lift (map_err store_error (f (cs_store s))).
Definition db_write {A} (m : M D error A) : httpM A := zoom cs_store set_store (map_err_m store_error m).

(** ** The shard of an IDC task *)

(** The loop over [chunk_set]: the chunks nobody holds yet. *)
Fixpoint unheld (store : D) (game_id : N) (hashes : list hash32) : result error (list (list byte)) :=
  match hashes with
  | [] => Ok []
  | hash :: hashes =>
    holders ← chunk_holders store game_id (hash_bytes hash);
    assigned ← unheld store game_id hashes;
    mret (if bool_decide (holders = []) then hash_bytes hash :: assigned else assigned)
  end.

Definition assign_idc_chunks (store : D) (game_id version : N) (node_type : string) :
    result error (list (list byte)) :=
  if negb (bool_decide (node_type = "idc"%string)) then mret [] else
  manifest ← get_version store game_id version;
  match manifest with
  | None => mret []
  | Some manifest =>
    index ← Manifest.decode blake3 manifest;
    assigned ← unheld store game_id (set_iter (chunk_set index));
    mret (sort_byte_lists assigned)
  end.

(** A failing audit is ignored. *)
Definition audit (now : N) (action detail : string) : httpM () :=
  ignore (db_write (add_audit now "admin" action detail)).

Definition healthz : string := "ok".

(** ** Metrics *)

Definition nl : string := String (Ascii.ascii_of_nat 10) "".

(** One gauge of the text format. *)
Definition gauge (name help : string) (value : N) : string :=
  ("# HELP " ++ name ++ " " ++ help ++ nl ++ "# TYPE " ++ name ++ " gauge" ++ nl ++
   name ++ " " ++ dec value ++ nl)%string.

(** [unwrap_or_default] *)
Definition or_default {A} (r : result error (list A)) : list A := default [] (ok r).

Definition count_status (status : string) (tasks : list TaskRecord) : N :=
  lenN (filter (λ t, tk_status t = status) tasks).

Definition metrics : httpM string :=
  s ← get;
  let nodes := or_default (list_nodes (cs_store s)) in
  let tasks := or_default (list_tasks (cs_store s)) in
  mret (gauge "blazenet_nodes_total" "节点总数" (lenN nodes) ++
        gauge "blazenet_nodes_online" "在线节点数"
          (lenN (filter (λ n, nd_status n = "online"%string) nodes)) ++
        gauge "blazenet_tasks_total" "任务总数" (lenN tasks) ++
        gauge "blazenet_tasks_running" "运行中任务" (count_status "running" tasks) ++
        gauge "blazenet_tasks_done" "完成任务" (count_status "done" tasks) ++
        gauge "blazenet_tasks_failed" "失败任务" (count_status "failed" tasks) ++
        gauge "blazenet_games_total" "游戏总数" (lenN (or_default (list_games (cs_store s)))) ++
        gauge "blazenet_audits_total" "审计日志数" (lenN (or_default (list_audits (cs_store s)))))%string.

(** ** Accounts, places, groups *)

Definition login (request : LoginRequest) : httpM string :=
  if negb (String.eqb (lr_username request) admin_user) ||
     negb (String.eqb (lr_password request) admin_password)
  then throw admin_error else mret "dev-token"%string.

Definition http_list_users : httpM (list UserRecord) := db_read list_users.

Definition create_user (now now_audit : N) (request : CreateUserRequest) : httpM UserRecord :=
  if String.eqb (cu_username request) "" || String.eqb (cu_password request) ""
  then throw bad_request else
  id ← db_write next_user_id;
  let salt := dec now in
  let user := mkUser id (cu_username request) (hash_password blake3 (cu_password request) salt) salt in
  db_write (insert_user user);;
  audit now_audit "创建账号" ("账号 ID " ++ dec (us_id user));;
  mret user.

(** The four deletions differ in the table and the audit only. *)
Definition delete_record (now : N) (delete : M D error bool) (action detail : string) : httpM () :=
  found ← db_write delete;
  if negb found then throw http_not_found else
  audit now action detail.

Definition http_delete_user (now id : N) : httpM () :=
  delete_record now (delete_user id) "删除账号" ("账号 ID " ++ dec id).

Definition http_list_places : httpM (list PlaceRecord) := db_read list_places.

Definition create_place (now : N) (request : CreatePlaceRequest) : httpM PlaceRecord :=
  if String.eqb (cp_name request) "" then throw bad_request else
  id ← db_write next_place_id;
  let place := mkPlace id (cp_name request) (cp_region request) in
  db_write (insert_place place);;
  audit now "创建场所" ("场所 ID " ++ dec (pl_id place));;
  mret place.

Definition http_delete_place (now id : N) : httpM () :=
  delete_record now (delete_place id) "删除场所" ("场所 ID " ++ dec id).

Definition http_list_groups : httpM (list GroupRecord) := db_read list_groups.

Definition create_group (now : N) (request : CreateGroupRequest) : httpM GroupRecord :=
  if String.eqb (cg_name request) "" then throw bad_request else
  id ← db_write next_group_id;
  let group := mkGroup id (cg_name request) in
  db_write (insert_group group);;
  audit now "创建分组" ("分组 ID " ++ dec (gr_id group));;
  mret group.

Definition http_delete_group (now id : N) : httpM () :=
  delete_record now (delete_group id) "删除分组" ("分组 ID " ++ dec id).

Definition http_bind (now : N) (request : BindRequest) : httpM () :=
  if negb (bool_decide (br_kind request ∈ ["user_place"; "user_group"; "group_place"]%string))
  then throw bad_request else
  db_write (bind (br_kind request) (br_a request) (br_b request));;
  audit now "建立绑定"
    (br_kind request ++ " " ++ dec (br_a request) ++ "/" ++ dec (br_b request)).

Definition user_places (id : N) : httpM (list N) := db_read (λ d, places_of_user d id).

(** ** Listings *)

Definition http_list_nodes : httpM (list NodeView) :=
  nodes ← db_read list_nodes; mret (map NodeView_from nodes).
Definition http_list_tasks : httpM (list TaskRecord) := db_read list_tasks.
Definition http_list_games : httpM (list GameRecord) := db_read list_games.
Definition http_list_audits : httpM (list AuditRecord) := db_read list_audits.

(** ** Games and tasks *)

(** The identifier of a new game: the requested one if it is free, or the next. *)
Definition game_id_of (request : CreateGameRequest) : httpM N :=
  match cm_id request with
  | Some 0 => throw bad_request
  | Some id =>
    found ← db_read (λ d, get_game d id);
    match found with
    | Some _ => throw bad_request
    | None => mret id
    end
  | None => db_write next_game_id
  end.

Definition create_game (now : N) (request : CreateGameRequest) : httpM GameRecord :=
  if String.eqb (cm_name request) "" then throw bad_request else
  id ← game_id_of request;
  let game := mkGame id (cm_name request) "uploading" 0 0 in
  db_write (insert_game game);;
  audit now "创建游戏" ("游戏 ID " ++ dec (gm_id game));;
  mret game.

(** [.ok_or(NOT_FOUND)] on a lookup *)
Definition found_or {A} (f : D → result error (option A)) : httpM A :=
  found ← db_read f; lift (ok_or http_not_found found).

Definition push_http (task : TaskRecord) : httpM () :=
  map_err_m (λ _, INTERNAL_SERVER_ERROR) (push_task task).

Definition create_task (now : N) (request : CreateTaskRequest) : httpM TaskRecord :=
  if String.eqb (ct_kind request) "" then throw bad_request else
  node ← found_or (λ d, get_node d (ct_node_id request));
  assigned_chunks ← db_read (λ d,
    assign_idc_chunks d (ct_game_id request) (ct_version request) (nd_node_type node));
  id ← db_write next_task_id;
  let task := mkTask id (ct_node_id request) (ct_game_id request) (ct_version request)
                (ct_kind request) assigned_chunks "queued" "" in
  push_http task;;
  audit now "创建任务"
    ("任务 ID " ++ dec (tk_id task) ++ " 游戏 " ++ dec (tk_game_id task) ++ " 版本 " ++
     dec (tk_version task));;
  mret task.

Definition set_current (version : N) (g : GameRecord) : GameRecord :=
  mkGame (gm_id g) (gm_name g) (gm_status g) version (gm_latest_version g).

Definition rollback_game (now game_id : N) (request : RollbackRequest) : httpM TaskRecord :=
  if rb_version request =? 0 then throw bad_request else
  game ← found_or (λ d, get_game d game_id);
  found_or (λ d, get_version d game_id (rb_version request));;
  found_or (λ d, get_node d (rb_node_id request));;
  id ← db_write next_task_id;
  let task := mkTask id (rb_node_id request) game_id (rb_version request) "ROLLBACK" [] "queued" "" in
  push_http task;;
  db_write (insert_game (set_current (rb_version request) game));;
  audit now "回滚游戏"
    ("游戏 " ++ dec game_id ++ " 回滚到版本 " ++ dec (rb_version request));;
  mret task.

(** The result of the status update is not looked at. *)
Definition cancel_task (now id : N) : httpM () :=
  tasks ← db_read list_tasks;
  task ← lift (ok_or http_not_found (head (filter (λ t, tk_id t = id) tasks)));
  if negb (bool_decide (tk_status task = "queued"%string)) then throw bad_request else
  db_write (update_task_status id "cancelled" "人工取消");;
  modify (emit (TaskStatus id "cancelled"));;
  audit now "取消任务" ("任务 ID " ++ dec id ++ " 已取消（排队中）").

Definition http_delete_game (now id : N) : httpM () :=
  delete_record now (delete_game id) "删除游戏" ("游戏 ID " ++ dec id).

(** ** The router's table *)

Inductive Request :=
| GetHealthz | GetMetrics | PostLogin (r : LoginRequest)
| GetUsers | PostUser (r : CreateUserRequest) | DeleteUser (id : N) | GetUserPlaces (id : N)
| GetPlaces | PostPlace (r : CreatePlaceRequest) | DeletePlace (id : N)
| GetGroups | PostGroup (r : CreateGroupRequest) | DeleteGroup (id : N)
| GetNodes | GetTasks | PostTask (r : CreateTaskRequest) | PostCancel (id : N)
| GetGames | PostGame (r : CreateGameRequest) | GetAudits | DeleteGame (id : N)
| PostRollback (game_id : N) (r : RollbackRequest) | PostBinding (r : BindRequest).

Inductive Reply :=
| RText (s : string) | RToken (s : string) | RUsers (l : list UserRecord) | RUser (u : UserRecord)
| RIds (l : list N) | RPlaces (l : list PlaceRecord) | RPlace (p : PlaceRecord)
| RGroups (l : list GroupRecord) | RGroup (g : GroupRecord) | RNodes (l : list NodeView)
| RTasks (l : list TaskRecord) | RTask (t : TaskRecord) | RGames (l : list GameRecord)
| RGame (g : GameRecord) | RAudits (l : list AuditRecord) | NO_CONTENT.

Definition reply {A} (f : A → Reply) (m : httpM A) : httpM Reply := a ← m; mret (f a).

(** [now] and [now_audit] are the clock readings of a handler. *)
Definition dispatch (now now_audit : N) (request : Request) : httpM Reply :=
  match request with
  | GetHealthz => mret (RText healthz)
  | GetMetrics => reply RText metrics
  | PostLogin r => reply RToken (login r)
  | GetUsers => reply RUsers http_list_users
  | PostUser r => reply RUser (create_user now now_audit r)
  | DeleteUser id => reply (λ _, NO_CONTENT) (http_delete_user now id)
  | GetUserPlaces id => reply RIds (user_places id)
  | GetPlaces => reply RPlaces http_list_places
  | PostPlace r => reply RPlace (create_place now r)
  | DeletePlace id => reply (λ _, NO_CONTENT) (http_delete_place now id)
  | GetGroups => reply RGroups http_list_groups
  | PostGroup r => reply RGroup (create_group now r)
  | DeleteGroup id => reply (λ _, NO_CONTENT) (http_delete_group now id)
  | GetNodes => reply RNodes http_list_nodes
  | GetTasks => reply RTasks http_list_tasks
  | PostTask r => reply RTask (create_task now r)
  | PostCancel id => reply (λ _, NO_CONTENT) (cancel_task now id)
  | GetGames => reply RGames http_list_games
  | PostGame r => reply RGame (create_game now r)
  | GetAudits => reply RAudits http_list_audits
  | DeleteGame id => reply (λ _, NO_CONTENT) (http_delete_game now id)
  | PostRollback g r => reply RTask (rollback_game now g r)
  | PostBinding r => reply (λ _, NO_CONTENT) (http_bind now r)
  end.

End http.
