(* ===== verification/SchedInv.v ===== *)
(** * SchedInv: the invariant of the scheduler's state, step by step

    What every call of the scheduler keeps: records stay under their identifiers,
    identifiers are drawn from counters that only grow, and the queued events
    describe recorded tasks.  Operations that touch no task, node or queue are
    [quiet]; the others advance the state by at most one identifier. *)

From S2P Require Import Prelude Bytes Text Manifest Redb SchedDb.
From S2P Require Import SchedDbSpec SchedControl SchedControlSpec Keepalive SchedHttp.

(** ** Quiet operations: no task, node or queue changes *)

Section relations.
Context {D : Type} `{!RedbOps D, !SchedJson}.
Implicit Types (s : ControlService D) (d : D).

Definition keyed {A} (key : A → N) (m : gmap N A) : Prop := ∀ k a, m !! k = Some a → key a = k.

Record quiet_db d d' : Prop := {
  qd_nodes : nodes d' = nodes d;
  qd_tasks : tasks d' = tasks d;
  qd_task_id : counter_of d' NEXT_TASK_ID = counter_of d NEXT_TASK_ID;
  qd_node_id : counter_of d' NEXT_NODE_ID = counter_of d NEXT_NODE_ID;
  qd_games : keyed gm_id (games d) → keyed gm_id (games d')
}.

Record quiet s s' : Prop := {
  qu_db : quiet_db (cs_store s) (cs_store s');
  qu_pending : cs_pending s' = cs_pending s
}.

#[export] Instance quiet_db_preorder : PreOrder quiet_db.
Proof.
  split; [by intros d; split|]. intros d1 d2 d3 [] []. split; try congruence. auto.
Qed.
#[export] Instance quiet_preorder : PreOrder quiet.
Proof.
  split; [by intros s; split|]. intros s1 s2 s3 [] []. split; [by etrans|congruence].
Qed.

(** Every other table may change. *)
Lemma quiet_db_other d d' t :
  (∀ t', t' ≠ t → contents d' t' = contents d t') →
  NODES ≠ t → TASKS ≠ t → COUNTERS ≠ t → GAMES ≠ t → quiet_db d d'.
Proof.
  intros Ho H1 H2 H3 H4.
  split; unfold nodes, tasks, games, counter_of, view; by rewrite !Ho by done.
Qed.

(** ** What a step of the scheduler keeps *)

(** Tasks keep everything but their status, nodes everything but their liveness. *)
Definition same_node (n n' : NodeRecord) : Prop :=
  nd_id n' = nd_id n ∧ nd_node_type n' = nd_node_type n ∧ nd_endpoint_id n' = nd_endpoint_id n ∧
  nd_token n' = nd_token n ∧ nd_addrs n' = nd_addrs n.

Record evolves s s' : Prop := {
  ev_tasks k t : tasks (cs_store s) !! k = Some t →
    ∃ st e, tasks (cs_store s') !! k = Some (set_status st e t);
  ev_nodes k n : nodes (cs_store s) !! k = Some n →
    ∃ n', nodes (cs_store s') !! k = Some n' ∧ same_node n n'
}.

#[export] Instance evolves_preorder : PreOrder evolves.
Proof.
  split.
  - intros s. split.
    + intros k t Ht. exists (tk_status t), (tk_error t). rewrite Ht. by destruct t.
    + intros k n Hn. by exists n.
  - intros s1 s2 s3 [Ht1 Hn1] [Ht2 Hn2]. split.
    + intros k t (st & e & H1)%Ht1. apply Ht2 in H1 as (st' & e' & H2). by exists st', e'.
    + intros k n (n' & H1 & Hs1)%Hn1. apply Hn2 in H1 as (n'' & H2 & Hs2). exists n''.
      unfold same_node in *. intuition congruence.
Qed.

(** A queued event describes a recorded task of its node. *)
Definition backed s (n : N) (ev : TaskEvent) : Prop :=
  ∃ t, ev = EvTask (to_proto_task t) ∧ tk_node_id t = n ∧
    tasks (cs_store s) !! tk_id t = Some t.

Record sched_inv s : Prop := {
  inv_task_key : keyed tk_id (tasks (cs_store s));
  inv_task_id k : is_Some (tasks (cs_store s) !! k) → k ≤ counter_of (cs_store s) NEXT_TASK_ID;
  inv_node_key : keyed nd_id (nodes (cs_store s));
  inv_node_id k : is_Some (nodes (cs_store s) !! k) → k ≤ counter_of (cs_store s) NEXT_NODE_ID;
  inv_games : keyed gm_id (games (cs_store s));
  inv_queue n ev : ev ∈ queue s n → backed s n ev
}.

Definition room (k : N) s : Prop :=
  counter_of (cs_store s) NEXT_TASK_ID + k < 2^64 ∧ counter_of (cs_store s) NEXT_NODE_ID + k < 2^64.

Record step_ok s s' : Prop := {
  so_inv : sched_inv s';
  so_evolves : evolves s s';
  so_task_id : counter_of (cs_store s') NEXT_TASK_ID ≤ counter_of (cs_store s) NEXT_TASK_ID + 1;
  so_node_id : counter_of (cs_store s') NEXT_NODE_ID ≤ counter_of (cs_store s) NEXT_NODE_ID + 1
}.

(** An event stays backed when the tasks only change their status. *)
Lemma to_proto_set_status st e t : to_proto_task (set_status st e t) = to_proto_task t.
Proof. done. Qed.

Lemma backed_evolves s s' n ev : evolves s s' → backed s n ev → backed s' n ev.
Proof.
  intros [Ht _] (t & -> & Hn & Hk). apply Ht in Hk as (st & e & Hk).
  by exists (set_status st e t).
Qed.

Lemma quiet_step s s' : sched_inv s → quiet s s' → step_ok s s'.
Proof.
  intros [Hk Hi Hnk Hni Hg Hq] [[Hn Ht Hct Hcn Hgm] Hp].
  assert (evolves s s') as Hev.
  { destruct (reflexivity (R:=evolves) s) as [H1 H2]. split; rewrite ?Ht, ?Hn; done. }
  split; [|done|rewrite Hct; lia|rewrite Hcn; lia].
  split; rewrite ?Ht, ?Hn, ?Hct, ?Hcn; auto.
  intros n ev Hev'. apply (backed_evolves s); [done|]. apply Hq. unfold queue in *.
  by rewrite <- Hp.
Qed.

Lemma step_quiet s s1 s2 : step_ok s s1 → quiet s1 s2 → step_ok s s2.
Proof.
  intros [Hi He Ht Hn] Hq. pose proof (quiet_step s1 s2 Hi Hq) as [Hi2 He2 _ _].
  destruct Hq as [[_ _ Hct Hcn _] _]. split; [done|by trans s1|by rewrite Hct|by rewrite Hcn].
Qed.

Lemma quiet_room k s s' : quiet s s' → room k s → room k s'.
Proof. intros [[_ _ Ht Hn _] _]. unfold room. by rewrite Ht, Hn. Qed.

End relations.

(** ** The operations of the database *)

(** Name the run of the operation the goal speaks about. *)
Ltac run_goal d' r Hi :=
  match goal with |- _ (fst (?m ?d)) => destruct (m d) as [d' r] eqn:Hi end.

Section ops.
Context {D : Type} `{RedbLaws D, SchedJsonLaws}.
Implicit Types (s : ControlService D) (d : D).

(** An insertion of one record into another table. *)
Lemma insert_record_quiet {A} `{!JsonOps A, !JsonLaws A} (t : TableDefinition) (k : Key t) (a : A)
    (of_text : string → Val t) m1 m2 m3 d :
  NODES ≠ t → TASKS ≠ t → COUNTERS ≠ t → GAMES ≠ t →
  quiet_db d ((value ← lift (encode a); insert_one m1 m2 m3 t k (of_text value)) d).1.
Proof.
  intros ????. run_goal d' r Hi.
  apply (encode_then_ok a (λ v, insert_one m1 m2 m3 t k (of_text v))) in Hi as (x & _ & _ & Hi).
  apply insert_one_ok in Hi. destruct r as [[]|e]; cbn; [|by subst].
  destruct Hi as [_ Ho]. by apply (quiet_db_other _ _ t).
Qed.

Lemma delete_record_quiet (t : TableDefinition) (k : Key t) d :
  NODES ≠ t → TASKS ≠ t → COUNTERS ≠ t → GAMES ≠ t → quiet_db d (delete_json t k d).1.
Proof.
  intros ????. run_goal d' r Hi. apply delete_json_ok in Hi.
  destruct r; cbn; [|by subst]. destruct Hi as [_ [_ Ho]]. by apply (quiet_db_other _ _ t).
Qed.

Lemma insert_one_quiet (t : TableDefinition) (k : Key t) v m1 m2 m3 d :
  NODES ≠ t → TASKS ≠ t → COUNTERS ≠ t → GAMES ≠ t → quiet_db d (insert_one m1 m2 m3 t k v d).1.
Proof.
  intros ????. run_goal d' r Hi. apply insert_one_ok in Hi.
  destruct r as [[]|]; cbn; [|by subst]. destruct Hi as [_ Ho]. by apply (quiet_db_other _ _ t).
Qed.

Lemma next_id_quiet c d :
  c ≠ NEXT_TASK_ID → c ≠ NEXT_NODE_ID → quiet_db d (next_id c d).1.
Proof.
  intros Ht Hn. destruct (next_id c d) as [d' r] eqn:Hi. cbn.
  pose proof (next_id_counter _ NEXT_TASK_ID _ _ _ Hi) as Hc1.
  pose proof (next_id_counter _ NEXT_NODE_ID _ _ _ Hi) as Hc2.
  apply next_id_ok in Hi. destruct r as [n|]; [|by subst].
  rewrite decide_False in Hc1 by done. rewrite decide_False in Hc2 by done. destruct Hi as [_ [_ Ho]].
  split; unfold nodes, tasks, games, view; rewrite ?Ho; done.
Qed.

Lemma add_audit_quiet t a1 a2 a3 d : quiet_db d (add_audit t a1 a2 a3 d).1.
Proof.
  unfold add_audit. run_goal d' r Ha.
  pose proof (next_id_quiet NEXT_AUDIT_ID d ltac:(done) ltac:(done)) as Hq.
  m_step Ha as d1 n e Hi; cbn in Hq |- *; [|done]. etrans; [exact Hq|].
  pose proof (insert_record_quiet AUDITS n (mkAudit n t a1 a2 a3) id "打开表失败" "写入记录失败" "提交事务失败" d1
    ltac:(done) ltac:(done) ltac:(done) ltac:(done)) as Hq2.
  unfold lift, mbind, M_bind, mret, M_ret, insert_json in *.
  destruct (encode (mkAudit n t a1 a2 a3)) as [text|e]; [|by injection Ha as <- _].
  change (id text) with text in Hq2. revert Ha Hq2.
  destruct (insert_one _ _ _ AUDITS n text d1) as [d2 [u|e]]; by intros [= <- _].
Qed.

Lemma insert_game_quiet (game : GameRecord) d : quiet_db d (insert_game game d).1.
Proof.
  destruct (insert_game game d) as [d' r] eqn:Hi. apply insert_game_ok in Hi.
  destruct r; cbn; [|by subst]. destruct Hi as [Hg Ho].
  split; unfold nodes, tasks, counter_of, view; rewrite ?Ho by done; try done.
  intros Hk k g. rewrite Hg. destruct (decide (gm_id game = k)) as [<-|Hne].
  - rewrite lookup_insert_eq. by intros [= <-].
  - rewrite lookup_insert_ne by done. apply Hk.
Qed.

Lemma delete_game_quiet game_id d : quiet_db d (delete_game game_id d).1.
Proof.
  destruct (delete_game game_id d) as [d' r] eqn:Hi. destruct r as [found|]; cbn.
  - pose proof Hi as Hj. apply delete_json_ok in Hj as [_ [_ Ho]].
    apply (delete_json_view (A:=GameRecord) GAMES id) in Hi as [Hg _].
    split; unfold nodes, tasks, counter_of, view; rewrite ?Ho by done; try done.
    intros Hk k g. unfold games. rewrite Hg. intros [_ Hl]%lookup_delete_Some. by apply Hk.
  - by apply delete_json_ok in Hi as ->.
Qed.

End ops.

(** ** The handlers that leave tasks, nodes and queues alone *)

Section handlers.
Context (blake3 : list byte → hash32).
Context {D : Type} `{RedbLaws D, SchedJsonLaws} `{!SetIter}.
Context (admin_user admin_password : string).
Implicit Types (s : ControlService D) (d : D).

Lemma db_write_quiet {A} (m : M D error A) s0 :
  (∀ d, quiet_db d (m d).1) → preserves (quiet s0) (db_write m).
Proof.
  intros Hm s Hs. etrans; [exact Hs|]. unfold db_write, zoom, map_err_m.
  specialize (Hm (cs_store s)). destruct (m (cs_store s)) as [d r]. by split.
Qed.

Lemma db_read_quiet {A} (f : D → result error A) s0 : preserves (quiet s0) (db_read f).
Proof. by intros s Hs. Qed.

Lemma audit_quiet now action detail s0 : preserves (quiet s0) (audit (D:=D) now action detail).
Proof.
  apply preserves_ignore, db_write_quiet. intros d. apply add_audit_quiet.
Qed.

Lemma emit_quiet e s0 : preserves (quiet s0) (modify (E:=StatusCode) (emit (D:=D) e)).
Proof. apply preserves_modify. intros s Hs. etrans; [exact Hs|]. by split. Qed.

Lemma delete_quiet now (m : M D error bool) action detail s0 :
  (∀ d, quiet_db d (m d).1) → preserves (quiet s0) (delete_record now m action detail).
Proof.
  intros Hm. apply preserves_bind; [by apply db_write_quiet|]. intros found.
  destruct found; cbn; [apply audit_quiet|apply preserves_throw].
Qed.

Ltac calm :=
  repeat first
    [ progress intros
    | apply preserves_ret | apply preserves_lift | apply preserves_throw | apply preserves_get
    | apply db_read_quiet | apply audit_quiet
    | apply db_write_quiet; intros
    | apply delete_quiet; intros
    | apply add_audit_quiet
    | apply next_id_quiet; done
    | apply insert_game_quiet | apply delete_game_quiet
    | apply (delete_record_quiet USERS); done
    | apply (delete_record_quiet PLACES); done
    | apply (delete_record_quiet GROUPS); done
    | apply (insert_record_quiet USERS _ _ id); done
    | apply (insert_record_quiet PLACES _ _ id); done
    | apply (insert_record_quiet GROUPS _ _ id); done
    | apply (insert_one_quiet BINDINGS); done
    | apply preserves_bind
    | case_match ].

Lemma quiet_requests now now_audit r s0 :
  match r with PostTask _ | PostCancel _ | PostRollback _ _ => False | _ => True end →
  preserves (quiet s0) (dispatch blake3 (D:=D) admin_user admin_password now now_audit r).
Proof.
  destruct r; intros []; cbn [dispatch]; unfold reply, metrics, login, create_user, create_place,
    create_group, create_game, game_id_of, http_bind; calm.
Qed.

End handlers.

(** ** Control-plane calls that are quiet *)

Section control.
Context {D : Type} `{RedbLaws D, SchedJsonLaws}.
Implicit Types (s : ControlService D) (d : D).

Lemma on_store_quiet {A} f (m : M D error A) s0 :
  (∀ d, quiet_db d (m d).1) → preserves (quiet s0) (on_store f m).
Proof.
  intros Hm s Hs. etrans; [exact Hs|]. run_goal s' r Hi.
  apply on_store_inv in Hi as (r' & Hi & -> & _). specialize (Hm (cs_store s)).
  rewrite Hi in Hm. by split.
Qed.

Lemma record_chunk_holder_quiet n g h d : quiet_db d (record_chunk_holder n g h d).1.
Proof.
  run_goal d' r Hi. apply record_chunk_holder_ok in Hi. destruct r; cbn; [|by subst].
  destruct Hi as [[_ Hc]|(_ & text & _ & _ & Ho)].
  - apply (quiet_db_other _ _ CHUNKS); done.
  - by apply (quiet_db_other _ _ CHUNKS).
Qed.

Lemma report_chunk_quiet req s0 : preserves (quiet s0) (report_chunk (D:=D) req).
Proof. apply on_store_quiet. intros. apply record_chunk_holder_quiet. Qed.

Lemma publish_version_quiet req s0 : preserves (quiet s0) (publish_version (D:=D) req).
Proof.
  unfold publish_version. case_match; [apply preserves_throw|].
  case_bool_decide; [apply preserves_throw|].
  apply preserves_bind.
  { apply on_store_quiet. intros. apply (insert_record_quiet VERSIONS _ _ id); done. }
  intros []. apply preserves_bind; [apply preserves_get|]. intros s.
  apply preserves_bind; [|intros; apply preserves_ret].
  repeat (case_match; try apply preserves_ret).
  apply preserves_ignore, on_store_quiet. intros. apply insert_game_quiet.
Qed.

(** ** The steps that change a task, a node or a queue *)

(** Advancing without a new identifier. *)
Record adv s s' : Prop := {
  ad_inv : sched_inv s';
  ad_evolves : evolves s s';
  ad_task_id : counter_of (cs_store s') NEXT_TASK_ID = counter_of (cs_store s) NEXT_TASK_ID;
  ad_node_id : counter_of (cs_store s') NEXT_NODE_ID = counter_of (cs_store s) NEXT_NODE_ID
}.

Lemma adv_of_quiet s s' : sched_inv s → quiet s s' → adv s s'.
Proof.
  intros Hinv Hq. destruct (quiet_step s s' Hinv Hq) as [Hi He _ _]. by destruct Hq as [[] _].
Qed.

Lemma adv_step s s' : adv s s' → step_ok s s'.
Proof. intros [? ? Ht Hn]. split; [done|done|rewrite Ht; lia|rewrite Hn; lia]. Qed.

Lemma step_adv s s1 s2 : step_ok s s1 → adv s1 s2 → step_ok s s2.
Proof.
  intros [_ He Ht Hn] [Hi He2 Ht2 Hn2].
  split; [done|by trans s1|by rewrite Ht2|by rewrite Hn2].
Qed.

(** Drawing an identifier. *)
Lemma draw_step s s' :
  sched_inv s → nodes (cs_store s') = nodes (cs_store s) → tasks (cs_store s') = tasks (cs_store s) →
  games (cs_store s') = games (cs_store s) → cs_pending s' = cs_pending s →
  (∀ c, c = NEXT_TASK_ID ∨ c = NEXT_NODE_ID →
     counter_of (cs_store s) c ≤ counter_of (cs_store s') c ≤ counter_of (cs_store s) c + 1) →
  step_ok s s'.
Proof.
  intros [Hk Hi Hnk Hni Hg Hq] Hn Ht Hgm Hp Hc.
  pose proof (Hc NEXT_TASK_ID (or_introl eq_refl)). pose proof (Hc NEXT_NODE_ID (or_intror eq_refl)).
  assert (evolves s s') as Hev.
  { destruct (reflexivity (R:=evolves) s) as [Ht1 Hn1]. split; rewrite ?Ht, ?Hn; done. }
  split; [|done|lia|lia]. split; rewrite ?Ht, ?Hn, ?Hgm; try done.
  - intros k Hk'. specialize (Hi k Hk'). lia.
  - intros k Hk'. specialize (Hni k Hk'). lia.
  - intros n ev Hin. apply (backed_evolves s); [done|]. apply Hq. unfold queue in *. by rewrite <- Hp.
Qed.

Lemma next_id_step c s s' r :
  c = NEXT_TASK_ID ∨ c = NEXT_NODE_ID → sched_inv s → room 1 s →
  next_id c (cs_store s) = (cs_store s', r) → cs_pending s' = cs_pending s →
  step_ok s s' ∧ (∀ id, r = Ok id → id = counter_of (cs_store s) c + 1 ∧
    counter_of (cs_store s') c = id ∧
    nodes (cs_store s') = nodes (cs_store s) ∧ tasks (cs_store s') = tasks (cs_store s)).
Proof.
  intros Hc Hinv [Hrt Hrn] Hi Hp.
  pose proof (λ c', next_id_counter _ c' _ _ _ Hi) as Hcnt. apply next_id_ok in Hi.
  destruct r as [n|e].
  - destruct Hi as [Hn [_ Ho]].
    assert (counter_of (cs_store s) c + 1 < 2^64) as Hsmall by (destruct Hc; subst c; lia).
    rewrite add_u64_small in Hn by done.
    assert (nodes (cs_store s') = nodes (cs_store s) ∧ tasks (cs_store s') = tasks (cs_store s) ∧
      games (cs_store s') = games (cs_store s)) as (Hnodes & Htasks & Hgames).
    { unfold nodes, tasks, games, view. by rewrite !Ho. }
    split.
    + apply draw_step; try done. intros c' _. rewrite Hcnt. case_decide; [subst; lia|lia].
    + intros id [= <-]. rewrite Hcnt, decide_True by done. done.
  - split; [|done]. apply draw_step; try done; try (by rewrite Hi). intros c' _. rewrite Hi. lia.
Qed.

(** Pushing a task under an identifier that is drawn but not used. *)
Lemma push_fresh_adv t s s' r :
  sched_inv s → push_task t s = (s', r) → tasks (cs_store s) !! tk_id t = None →
  tk_id t ≤ counter_of (cs_store s) NEXT_TASK_ID → adv s s'.
Proof.
  intros Hinv Hp Hfresh Hle. pose proof (push_task_ok t s s' r Hp) as Hok.
  destruct r as [[]|e]; [|subst; by split].
  destruct Hok as (Hq & Ht & _).
  assert (∀ t', t' ≠ TASKS → contents (cs_store s') t' = contents (cs_store s) t') as Ho.
  { unfold push_task in Hp. m_step Hp as s1 [] e Hi.
    apply on_store_inv in Hi as (r' & Hi & _ & Hr). destruct r' as [[]|]; [|done].
    apply (insert_json_view TASKS _ t id id) in Hi as [_ Hi]; [|done].
    injection Hp as <-. exact Hi. }
  destruct Hinv as [Hk Hi Hnk Hni Hg Hqi].
  assert (nodes (cs_store s') = nodes (cs_store s)) as Hn by (unfold nodes, view; by rewrite Ho).
  assert (games (cs_store s') = games (cs_store s)) as Hgm by (unfold games, view; by rewrite Ho).
  assert (∀ c, counter_of (cs_store s') c = counter_of (cs_store s) c) as Hc
    by (intros c; unfold counter_of; by rewrite Ho).
  assert (evolves s s') as Hev.
  { split.
    - intros k u Hu. exists (tk_status u), (tk_error u). rewrite Ht, lookup_insert_ne by congruence.
      rewrite Hu. by destruct u.
    - intros k n Hkn. exists n. by rewrite Hn. }
  split; try done. split; rewrite ?Hn, ?Hgm, ?Hc; try done.
  - intros k u. rewrite Ht. destruct (decide (tk_id t = k)) as [<-|Hne].
    + rewrite lookup_insert_eq. by intros [= <-].
    + rewrite lookup_insert_ne by done. apply Hk.
  - intros k. rewrite Ht. destruct (decide (tk_id t = k)) as [<-|Hne]; [done|].
    rewrite lookup_insert_ne by done. apply Hi.
  - intros n ev. rewrite Hq, elem_of_app. intros [Hin|Hin].
    + apply (backed_evolves s); [done|]. by apply Hqi.
    + case_decide as Hnode; [|by apply elem_of_nil in Hin].
      apply list_elem_of_singleton in Hin as ->. exists t. rewrite Ht. by rewrite lookup_insert_eq.
Qed.

(** A new record for a node. *)
Lemma insert_node_adv n s s' r :
  sched_inv s → insert_node n (cs_store s) = (cs_store s', r) → cs_pending s' = cs_pending s →
  nd_id n ≤ counter_of (cs_store s) NEXT_NODE_ID →
  (∀ old, nodes (cs_store s) !! nd_id n = Some old → same_node old n) → adv s s'.
Proof.
  intros Hinv Hi Hp Hle Hold. apply insert_node_ok in Hi. destruct r as [[]|e]; last first.
  { apply adv_of_quiet; [done|]. split; [by rewrite Hi|done]. }
  destruct Hi as [Hn Ho], Hinv as [Hk Hi Hnk Hni Hg Hq].
  assert (tasks (cs_store s') = tasks (cs_store s)) as Ht by (unfold tasks, view; by rewrite Ho).
  assert (games (cs_store s') = games (cs_store s)) as Hgm by (unfold games, view; by rewrite Ho).
  assert (∀ c, counter_of (cs_store s') c = counter_of (cs_store s) c) as Hc
    by (intros c; unfold counter_of; by rewrite Ho).
  assert (evolves s s') as Hev.
  { split.
    - intros k u Hu. exists (tk_status u), (tk_error u). rewrite Ht, Hu. by destruct u.
    - intros k m Hm. rewrite Hn. destruct (decide (nd_id n = k)) as [<-|Hne].
      + exists n. rewrite lookup_insert_eq. split; [done|by apply Hold].
      + exists m. by rewrite lookup_insert_ne. }
  split; try done. split; rewrite ?Ht, ?Hgm, ?Hc; try done.
  - intros k m. rewrite Hn. destruct (decide (nd_id n = k)) as [<-|Hne].
    + rewrite lookup_insert_eq. by intros [= <-].
    + rewrite lookup_insert_ne by done. apply Hnk.
  - intros k. rewrite Hn. destruct (decide (nd_id n = k)) as [<-|Hne]; [done|].
    rewrite lookup_insert_ne by done. apply Hni.
  - intros m ev Hin. apply (backed_evolves s); [done|]. apply Hq. unfold queue in *.
    by rewrite <- Hp.
Qed.

(** Rewriting the status of a task. *)
Lemma update_status_adv s s' id st e r :
  sched_inv s → update_task_status id st e (cs_store s) = (cs_store s', r) →
  cs_pending s' = cs_pending s → adv s s'.
Proof.
  intros Hinv Hu%update_task_status_spec Hp.
  assert (cs_store s' = cs_store s → adv s s') as Hsame.
  { intros Hd. apply adv_of_quiet; [done|]. split; [by rewrite Hd|done]. }
  destruct r as [[]|]; [|by apply Hsame; apply Hu|by apply Hsame].
  destruct Hu as (task & Ht' & Hv' & Ho).
  assert (tasks (cs_store s) !! id = Some task) as Ht by exact Ht'.
  assert (tasks (cs_store s') = <[id := set_status st e task]> (tasks (cs_store s))) as Hv by exact Hv'.
  destruct Hinv as [Hk Hi Hnk Hni Hg Hq].
  assert (nodes (cs_store s') = nodes (cs_store s)) as Hn by (unfold nodes, view; by rewrite Ho).
  assert (games (cs_store s') = games (cs_store s)) as Hgm by (unfold games, view; by rewrite Ho).
  assert (∀ c, counter_of (cs_store s') c = counter_of (cs_store s) c) as Hc
    by (intros c; unfold counter_of; by rewrite Ho).
  assert (evolves s s') as Hev.
  { split.
    - intros k u Hu. rewrite Hv. destruct (decide (id = k)) as [<-|Hne].
      + rewrite lookup_insert_eq. exists st, e. congruence.
      + exists (tk_status u), (tk_error u). rewrite lookup_insert_ne, Hu by done. by destruct u.
    - intros k n Hkn. exists n. by rewrite Hn. }
  split; try done. split; rewrite ?Hn, ?Hgm, ?Hc; try done.
  - intros k u. rewrite Hv. destruct (decide (id = k)) as [<-|Hne].
    + rewrite lookup_insert_eq. intros [= <-]. by apply Hk in Ht.
    + rewrite lookup_insert_ne by done. apply Hk.
  - intros k. rewrite Hv. destruct (decide (id = k)) as [<-|Hne].
    + intros _. apply Hi. by rewrite Ht.
    + rewrite lookup_insert_ne by done. apply Hi.
  - intros n ev Hin. apply (backed_evolves s); [done|]. apply Hq. unfold queue in *. by rewrite <- Hp.
Qed.

Lemma register_step t1 t2 req s :
  sched_inv s → room 1 s → step_ok s (register t1 t2 req s).1.
Proof.
  intros Hinv Hroom. run_goal s' r Hr. cbn. unfold register in Hr.
  destruct (negb _); [injection Hr as <- _; by apply adv_step, adv_of_quiet|].
  m_step Hr as s1 nid e Hid; apply on_store_inv in Hid as (r' & Hid & Hs1 & Hr');
    apply next_id_step in Hid as [Hs Hid]; auto; try (by rewrite Hs1).
  destruct r' as [nid'|]; [|done]. injection Hr' as <-.
  destruct (Hid nid eq_refl) as (-> & Hcnt & Hnodes & _).
  m_step Hr as s2 [] e Hin; apply on_store_inv in Hin as (r2 & Hin & Hs2 & _);
    apply insert_node_adv in Hin; cbn;
    try (by destruct Hs); try (by rewrite Hs2); try (by rewrite Hcnt; lia).
  - m_step Hr as s3 ts e Ht; apply read_store_inv in Ht as [-> _];
      [injection Hr as <- _|]; by eapply step_adv.
  - intros old. rewrite Hnodes. intros Hold. exfalso.
    pose proof (inv_node_id _ Hinv _ (mk_is_Some _ _ Hold)). lia.
  - by eapply step_adv.
  - intros old. rewrite Hnodes. intros Hold. exfalso.
    pose proof (inv_node_id _ Hinv _ (mk_is_Some _ _ Hold)). lia.
Qed.

Lemma heartbeat_step t1 t2 n s : sched_inv s → step_ok s (heartbeat t1 t2 n s).1.
Proof.
  intros Hinv. run_goal s' r Hr. cbn. apply adv_step. unfold heartbeat in Hr.
  m_step Hr as s1 found e Hg; apply read_store_inv in Hg as [-> Hg]; [|by apply adv_of_quiet].
  symmetry in Hg. apply map_err_Ok_inv, get_node_view in Hg. subst found.
  destruct (nodes (cs_store s) !! n) as [node|] eqn:Hn; cbn in Hr;
    [|injection Hr as <- _; by apply adv_of_quiet].
  pose proof (inv_node_key _ Hinv _ _ Hn) as Hid.
  rewrite (M_bind_ok (lift _) _ s s node) in Hr by done.
  m_step Hr as s2 [] e Hin; apply on_store_inv in Hin as (r2 & Hin & Hs2 & _);
    apply insert_node_adv in Hin; cbn; rewrite ?Hid; try (by rewrite Hs2); auto.
  - m_step Hr as s3 ts e Ht; apply read_store_inv in Ht as [-> _]; [injection Hr as <- _|]; done.
  - apply (inv_node_id _ Hinv). by rewrite Hn.
  - intros old Ho. simplify_eq. done.
  - apply (inv_node_id _ Hinv). by rewrite Hn.
  - intros old Ho. simplify_eq. done.
Qed.

Lemma report_task_step req s : sched_inv s → step_ok s (report_task req s).1.
Proof.
  intros Hinv. run_goal s' r Hr. cbn. apply adv_step. unfold report_task in Hr.
  m_step Hr as s1 b e Hu; apply on_store_inv in Hu as (r' & Hu & Hs1 & _).
  - injection Hr as <- _. eapply update_status_adv; [done|exact Hu|by rewrite Hs1].
  - eapply update_status_adv; [done|exact Hu|by rewrite Hs1].
Qed.

(** One status change of the keepalive loop. *)
Lemma mark_status_step want id s :
  sched_inv s → step_ok s (set_store (mark_status want (cs_store s) id) s).
Proof.
  intros Hinv. apply adv_step. unfold mark_status.
  assert (adv s (set_store (cs_store s) s)) as Hsame by (apply adv_of_quiet; [done|by split]).
  destruct (get_node (cs_store s) id) as [[node|]|] eqn:Hg; try done.
  apply get_node_view in Hg. pose proof (inv_node_key _ Hinv _ _ (eq_sym Hg)) as Hid.
  case_decide; [|done].
  destruct (insert_node (set_node_status want node) (cs_store s)) as [d' r] eqn:Hi.
  eapply insert_node_adv; [done|exact Hi|done|..]; cbn; rewrite Hid.
  - apply (inv_node_id _ Hinv). by rewrite <- Hg.
  - intros old Ho. rewrite <- Hg in Ho. injection Ho as <-. done.
Qed.

Lemma watch_step_step n sent s : sched_inv s → step_ok s (watch_step n sent s).1.
Proof.
  intros Hinv. run_goal s' r Hr. cbn. apply adv_step.
  apply watch_step_ok in Hr as (evs & _ & _ & _ & Hq & Hqo & Hd).
  assert (evolves s s') as Hev.
  { destruct (reflexivity (R:=evolves) s) as [Ht1 Hn1]. split; by rewrite Hd. }
  destruct Hinv as [Hk Hi Hnk Hni Hg Hqi].
  split; try done; try (by rewrite Hd). split; rewrite ?Hd; try done.
  intros m ev Hin. apply (backed_evolves s); [done|].
  destruct (decide (m = n)) as [->|Hne]; [rewrite Hq in Hin; by apply elem_of_nil in Hin|].
  rewrite Hqo in Hin by done. by apply Hqi.
Qed.

End control.

(** ** The handlers that issue or cancel a task *)

Section issue.
Context {D : Type} `{RedbLaws D, SchedJsonLaws}.
Implicit Types (s : ControlService D) (d : D).

Lemma db_write_inv {A} (m : M D error A) s s' r :
  db_write m s = (s', r) →
  ∃ r', m (cs_store s) = (cs_store s', r') ∧ s' = set_store (cs_store s') s ∧
    r = map_err store_error r'.
Proof.
  unfold db_write, zoom, map_err_m. destruct (m (cs_store s)) as [d r'] eqn:Hm.
  intros [= <- <-]. by exists r'.
Qed.

Lemma db_read_inv {A} (f : D → result error A) s s' r :
  db_read f s = (s', r) → s' = s ∧ r = map_err store_error (f (cs_store s)).
Proof. unfold db_read, get, lift, mbind, M_bind. by intros [= <- <-]. Qed.

Lemma push_http_inv t s s' r :
  push_http t s = (s', r) →
  ∃ r', push_task t s = (s', r') ∧ r = map_err (λ _, INTERNAL_SERVER_ERROR) r'.
Proof.
  unfold push_http, map_err_m. destruct (push_task t s) as [s1 r'] eqn:Hp.
  intros [= <- <-]. by exists r'.
Qed.

Lemma found_or_inv {A} (f : D → result error (option A)) s s' r :
  found_or f s = (s', r) →
  s' = s ∧ r = match f (cs_store s) with
               | Ok (Some a) => Ok a
               | Ok None => Err NOT_FOUND
               | Err e => Err INTERNAL_SERVER_ERROR
               end.
Proof.
  unfold found_or. intros Hf. m_step Hf as s1 found e Hr; apply db_read_inv in Hr as [-> Hr].
  - symmetry in Hr. apply map_err_Ok_inv in Hr as ->. injection Hf as <- <-. by destruct found.
  - destruct (f (cs_store s)); [done|]. by injection Hr as ->.
Qed.

(** Drawing an identifier, pushing the task, and what follows. *)
Lemma issue_step {A} (mk : N → TaskRecord) (k : TaskRecord → M (ControlService D) StatusCode A) s :
  (∀ id, tk_id (mk id) = id) → (∀ t s0, preserves (quiet s0) (k t)) → sched_inv s → room 1 s →
  step_ok s ((id ← db_write next_task_id; push_http (mk id);; k (mk id)) s).1.
Proof.
  intros Hmk Hk Hinv Hroom. run_goal s' r Hr. cbn.
  m_step Hr as s1 id e Hid; apply db_write_inv in Hid as (r' & Hid & Hs1 & Hr');
    apply next_id_step in Hid as [Hs Hid]; auto; try (by rewrite Hs1).
  destruct r' as [id'|]; [|done]. injection Hr' as <-.
  destruct (Hid id eq_refl) as (-> & Hcnt & _ & Ht).
  assert (∀ s2 r2, push_task (mk (counter_of (cs_store s) NEXT_TASK_ID + 1)) s1 = (s2, r2) →
    step_ok s s2) as Hpush.
  { intros s2 r2 Hp. eapply step_adv; [exact Hs|].
    eapply push_fresh_adv; [by destruct Hs|exact Hp| |]; rewrite Hmk.
    - rewrite Ht. apply eq_None_not_Some. intros Hx%(inv_task_id _ Hinv). lia.
    - by rewrite Hcnt. }
  m_step Hr as s2 [] e Hp; apply push_http_inv in Hp as (r2 & Hp & _); [|by eapply Hpush].
  eapply step_quiet; [by eapply Hpush|].
  specialize (Hk (mk (counter_of (cs_store s) NEXT_TASK_ID + 1)) s2 s2 (reflexivity _)).
  by rewrite Hr in Hk.
Qed.

Lemma create_task_step blake3 `{!SetIter} now req s :
  sched_inv s → room 1 s → step_ok s (create_task blake3 now req s).1.
Proof.
  intros Hinv Hroom. unfold create_task.
  destruct (String.eqb _ _); [by apply adv_step, adv_of_quiet|].
  run_goal s' r Hr. cbn.
  m_step Hr as s1 node e Hf; apply found_or_inv in Hf as [-> Hf]; [|by apply adv_step, adv_of_quiet].
  m_step Hr as s1 chunks e Hc; apply db_read_inv in Hc as [-> Hc]; [|by apply adv_step, adv_of_quiet].
  pose proof (issue_step (λ id, mkTask id (ct_node_id req) (ct_game_id req) (ct_version req)
    (ct_kind req) chunks "queued" "") (λ t, audit now "创建任务"
    ("任务 ID " ++ dec (tk_id t) ++ " 游戏 " ++ dec (tk_game_id t) ++ " 版本 " ++ dec (tk_version t));;
    mret t) s) as Hi.
  cbv beta zeta in Hi, Hr. rewrite Hr in Hi. apply Hi; try done. intros t s0.
  apply preserves_bind; [apply audit_quiet|]. intros. apply preserves_ret.
Qed.

Lemma rollback_step now g req s :
  sched_inv s → room 1 s → step_ok s (rollback_game now g req s).1.
Proof.
  intros Hinv Hroom. unfold rollback_game.
  destruct (_ =? 0); [by apply adv_step, adv_of_quiet|].
  run_goal s' r Hr. cbn.
  m_step Hr as s1 game e Hf; apply found_or_inv in Hf as [-> Hf]; [|by apply adv_step, adv_of_quiet].
  m_step Hr as s1 ver e Hv; apply found_or_inv in Hv as [-> Hv]; [|by apply adv_step, adv_of_quiet].
  m_step Hr as s1 node e Hn; apply found_or_inv in Hn as [-> Hn]; [|by apply adv_step, adv_of_quiet].
  pose proof (issue_step (λ id, mkTask id (rb_node_id req) g (rb_version req) "ROLLBACK" []
    "queued" "") (λ t, db_write (insert_game (set_current (rb_version req) game));;
      audit now "回滚游戏" ("游戏 " ++ dec g ++ " 回滚到版本 " ++ dec (rb_version req));; mret t) s) as Hi.
  cbv beta zeta in Hi, Hr. rewrite Hr in Hi. apply Hi; try done. intros t s0.
  apply preserves_bind; [apply db_write_quiet; intros; apply insert_game_quiet|]. intros [].
  apply preserves_bind; [apply audit_quiet|]. intros. apply preserves_ret.
Qed.

Lemma cancel_step now id s : sched_inv s → step_ok s (cancel_task now id s).1.
Proof.
  intros Hinv. unfold cancel_task. run_goal s' r Hr. cbn.
  m_step Hr as s1 ts e Hf; apply db_read_inv in Hf as [-> Hf]; [|by apply adv_step, adv_of_quiet].
  m_step Hr as s1 task e Hh; unfold lift in Hh; injection Hh as <- Hh; [|by apply adv_step, adv_of_quiet].
  destruct (negb _); [injection Hr as <- _; by apply adv_step, adv_of_quiet|].
  m_step Hr as s2 b e Hu; apply db_write_inv in Hu as (r' & Hu & Hs2 & _);
    [|by eapply adv_step, update_status_adv; [| |rewrite Hs2]].
  eapply step_quiet; [by eapply adv_step, update_status_adv; [| |rewrite Hs2]|].
  assert (preserves (quiet s2) (modify (emit (TaskStatus id "cancelled"));;
    audit (D:=D) now "取消任务" ("任务 ID " ++ dec id ++ " 已取消（排队中）"))) as Hq.
  { apply preserves_bind; [apply emit_quiet|]. intros. apply audit_quiet. }
  specialize (Hq s2 (reflexivity _)). by rewrite Hr in Hq.
Qed.

End issue.
