(* ===== verification/SchedHttpSpec.v ===== *)
(** * SchedHttpSpec: the scheduler as a whole

    Any sequence of HTTP requests and control-plane calls keeps the tables and the
    queues of events in step: identifiers are never reused for a task or a node, a
    task never changes but for its status, and what is queued for a node describes
    a recorded task of that node.  Creating and cancelling a task are described on
    every branch. *)

From S2P Require Import Prelude Bytes Text Manifest Redb SchedDb.
From S2P Require Import SchedDbSpec SchedControl SchedControlSpec Keepalive SchedHttp.
From S2P Require Import SchedInv.

(** ** Creating and cancelling, branch by branch *)

Section outcomes.
Context (blake3 : list byte → hash32).
Context {D : Type} `{RedbLaws D, SchedJsonLaws} `{SetIterLaws}.
Implicit Types (s : ControlService D) (d : D).

Lemma unheld_ok d g hs l :
  unheld d g hs = Ok l →
  l = map hash_bytes (filter (λ h, ledger d (chunk_key g (hash_bytes h)) = []) hs).
Proof.
  revert l. induction hs as [|h hs IH]; cbn [unheld]; [by intros l [= <-]|]. intros l Hu.
  apply bind_Ok_inv in Hu as (holders & Hh & Hu). apply bind_Ok_inv in Hu as (rest & Hr & Hu).
  injection Hu as <-. apply chunk_holders_ledger in Hh as ->. apply IH in Hr as ->.
  rewrite filter_cons. case_bool_decide; by case_decide.
Qed.

Definition versions d : gmap string (list byte) := view VERSIONS id d.

Lemma versions_ok d g v r : get_version d g v = Ok r → r = versions d !! version_key g v.
Proof. apply get_version_view. Qed.

(** The chunks a task is to fetch from the origin. *)
Definition shard d (g v : N) (node_type : string) (chunks : list (list byte)) : Prop :=
  if decide (node_type = "idc"%string) then
    match versions d !! version_key g v with
    | None => chunks = []
    | Some manifest => ∃ index, Manifest.decode blake3 manifest = Ok index ∧
        StronglySorted bytes_le chunks ∧ NoDup chunks ∧
        ∀ c, c ∈ chunks ↔ ∃ h, c = hash_bytes h ∧ h ∈ chunk_set index ∧
          ledger d (chunk_key g (hash_bytes h)) = []
    end
  else chunks = [].

Lemma assign_idc_chunks_ok d g v ty chunks :
  assign_idc_chunks blake3 d g v ty = Ok chunks → shard d g v ty chunks.
Proof.
  unfold assign_idc_chunks, shard. case_bool_decide; cbn; [|rewrite decide_False by done; by intros [= <-]].
  rewrite decide_True by done. intros Ha. apply bind_Ok_inv in Ha as (m & Hm%versions_ok & Ha).
  rewrite <- Hm.
  destruct m as [manifest|]; [|by injection Ha as <-].
  apply bind_Ok_inv in Ha as (index & Hd & Ha). apply bind_Ok_inv in Ha as (l & Hu%unheld_ok & Ha).
  injection Ha as <-. exists index. split; [done|]. subst l. unfold sort_byte_lists.
  set (l := map hash_bytes _).
  assert (NoDup l) as Hnd.
  { apply (NoDup_fmap_2 hash_bytes), NoDup_filter. rewrite set_iter_perm. apply NoDup_elements. }
  split_and!.
  - apply (StronglySorted_merge_sort bytes_le).
  - by rewrite merge_sort_Permutation.
  - intros c. rewrite merge_sort_Permutation. unfold l. rewrite list_elem_of_fmap.
    split; intros (h & -> & Hh); exists h; (split; [done|]).
    + apply list_elem_of_filter in Hh as [Hh1 Hh2]. by apply elem_of_set_iter in Hh2.
    + apply list_elem_of_filter. destruct Hh as [Hh1 Hh2]. by rewrite elem_of_set_iter.
Qed.

Lemma quiet_pending s s' n : quiet s s' → queue s' n = queue s n.
Proof. intros [_ Hp]. unfold queue. by rewrite Hp. Qed.

Lemma draw_ok s s1 r :
  room 1 s → db_write next_task_id s = (s1, r) →
  nodes (cs_store s1) = nodes (cs_store s) ∧ tasks (cs_store s1) = tasks (cs_store s) ∧
  cs_pending s1 = cs_pending s ∧
  match r with
  | Ok id => id = counter_of (cs_store s) NEXT_TASK_ID + 1
  | Err e => e = INTERNAL_SERVER_ERROR
  end.
Proof.
  intros [Ht _] Hd. apply db_write_inv in Hd as (r' & Hi & Hs & ->). apply next_id_ok in Hi.
  split_and!; [..|by rewrite Hs|]; destruct r' as [id|e]; cbn; try done.
  - destruct Hi as [_ [_ Ho]]. unfold nodes, view. by rewrite Ho.
  - by rewrite Hi.
  - destruct Hi as [_ [_ Ho]]. unfold tasks, view. by rewrite Ho.
  - by rewrite Hi.
  - destruct Hi as [-> _]. by rewrite add_u64_small.
Qed.

(** C30: Creating a task: a request without a kind, or for an unknown node, is refused
    without effect; an accepted one records exactly one new task, queued, under an
    identifier no task had, and appends its event to the queue of its node and to
    no other; an IDC is assigned, in order, exactly the chunks of the manifest that
    nobody is recorded to hold, any other node none; a failure leaves every task,
    node and queue as it was. *)
Theorem create_task_spec now req s s' r :
  sched_inv s → room 1 s → create_task blake3 now req s = (s', r) →
  match r with
  | Ok t => ct_kind req ≠ ""%string ∧
      (∃ node chunks, nodes (cs_store s) !! ct_node_id req = Some node ∧
         shard (cs_store s) (ct_game_id req) (ct_version req) (nd_node_type node) chunks ∧
         t = mkTask (counter_of (cs_store s) NEXT_TASK_ID + 1) (ct_node_id req) (ct_game_id req)
               (ct_version req) (ct_kind req) chunks "queued" "") ∧
      tasks (cs_store s) !! tk_id t = None ∧
      tasks (cs_store s') = <[tk_id t := t]> (tasks (cs_store s)) ∧
      ∀ n, queue s' n = queue s n ++
        if decide (ct_node_id req = n) then [EvTask (to_proto_task t)] else []
  | Err BAD_REQUEST => s' = s ∧ ct_kind req = ""%string
  | Err NOT_FOUND => s' = s ∧ nodes (cs_store s) !! ct_node_id req = None
  | Err INTERNAL_SERVER_ERROR => tasks (cs_store s') = tasks (cs_store s) ∧
      nodes (cs_store s') = nodes (cs_store s) ∧ ∀ n, queue s' n = queue s n
  | Err UNAUTHORIZED => False
  end.
Proof.
  intros Hinv Hroom Hr. unfold create_task in Hr.
  destruct (String.eqb_spec (ct_kind req) ""); [by injection Hr as <- <-|].
  m_step Hr as s1 node e Hf; apply found_or_inv in Hf as [-> Hf]; last first.
  { destruct (get_node (cs_store s) (ct_node_id req)) as [[?|]|] eqn:Hg; simplify_eq; [|done].
    apply get_node_view in Hg. done. }
  destruct (get_node (cs_store s) (ct_node_id req)) as [[node'|]|] eqn:Hg; simplify_eq.
  apply get_node_view in Hg.
  m_step Hr as s1 chunks e Hc; apply db_read_inv in Hc as [-> Hc]; symmetry in Hc; last first.
  { destruct (assign_idc_chunks _ _ _ _ _) as [|]; [done|]. by injection Hc as <-. }
  apply map_err_Ok_inv, assign_idc_chunks_ok in Hc.
  m_step Hr as s1 id e Hid; (apply draw_ok in Hid as (Hn1 & Ht1 & Hq1 & Hid); [|done]);
    [|rewrite Hid; unfold queue; rewrite Hq1; done].
  m_step Hr as s2 [] e Hp; apply push_http_inv in Hp as (r2 & Hp & Hr2);
    apply push_task_ok in Hp; cbn in Hp; destruct r2 as [[]|e2]; simplify_eq/=;
    [|unfold queue; rewrite Hq1; done].
  destruct Hp as (Hq2 & Ht2 & _).
  pose proof (audit_quiet now "创建任务"
    ("任务 ID " ++ dec (counter_of (cs_store s) NEXT_TASK_ID + 1) ++ " 游戏 " ++
     dec (ct_game_id req) ++ " 版本 " ++ dec (ct_version req)) s2 s2 (reflexivity _)) as Hau.
  cbn [tk_id tk_game_id tk_version] in Hr.
  m_step Hr as s3 [] e Ha. cbn [fst] in Hau.
  injection Hr as <- <-. pose proof Hau as [[_ Ht3 _ _ _] _]. cbn [tk_id].
  split_and!; [done| | | |].
  - by exists node', chunks.
  - apply eq_None_not_Some. intros Hx%(inv_task_id _ Hinv). lia.
  - by rewrite Ht3, Ht2, Ht1.
  - intros n'. rewrite (quiet_pending _ _ n' Hau), Hq2. unfold queue. by rewrite Hq1.
Qed.


Lemma listed_task d ts id :
  list_tasks d = Ok ts → keyed tk_id (tasks d) →
  head (filter (λ t, tk_id t = id) ts) = tasks d !! id.
Proof.
  intros Hl Hk. apply (iter_map_txn_ok _ _ _ TASKS) in Hl as (kvs & Hs & Hm).
  assert (listing TASKS (tasks d) ts) as (ks & _ & _ & Hf & Hall)
    by exact (mapM_listing TASKS Datatypes.id d kvs ts Hs Hm).
  assert (∀ t, t ∈ ts → tasks d !! tk_id t = Some t) as Hin.
  { intros t (i & Hi)%list_elem_of_lookup. destruct (Forall2_lookup_r _ _ _ _ _ Hf Hi) as (k & _ & Hkt).
    by rewrite (Hk _ _ Hkt). }
  destruct (head (filter (λ t, tk_id t = id) ts)) as [t|] eqn:Hh.
  - apply head_Some_elem_of, list_elem_of_filter in Hh as [<- Ht]. by rewrite Hin.
  - symmetry. apply eq_None_not_Some. intros [t Ht].
    pose proof (Hall id (mk_is_Some _ _ Ht)) as (i & Hi)%list_elem_of_lookup.
    destruct (Forall2_lookup_l _ _ _ _ _ Hf Hi) as (t' & Ht' & Hkt).
    assert (t' ∈ filter (λ t, tk_id t = id) ts) as Hx.
    { apply list_elem_of_filter. split; [exact (Hk _ _ Hkt)|by eapply list_elem_of_lookup_2]. }
    destruct (filter _ ts); [by apply elem_of_nil in Hx|done].
Qed.

Lemma no_task d id : contents d TASKS !! id = None → tasks d !! id = None.
Proof.
  intros Hn. unfold tasks, view. rewrite lookup_omap.
  exact (f_equal (λ o : option string, o ≫= λ v, ok (decode v)) Hn).
Qed.

(** Cancelling a task: an unknown task and one that is not queued are refused
    without effect; otherwise exactly that task becomes cancelled.  In every case
    the queues of events are left as they are, so the event of a cancelled task
    that waits for its node is still delivered to it. *)
Theorem cancel_task_spec now id s s' r :
  sched_inv s → cancel_task now id s = (s', r) →
  (∀ n, queue s' n = queue s n) ∧ nodes (cs_store s') = nodes (cs_store s) ∧
  match r with
  | Ok _ => ∃ t, tasks (cs_store s) !! id = Some t ∧ tk_status t = "queued"%string ∧
      tasks (cs_store s') = <[id := set_status "cancelled" "人工取消" t]> (tasks (cs_store s))
  | Err BAD_REQUEST => s' = s ∧
      ∃ t, tasks (cs_store s) !! id = Some t ∧ tk_status t ≠ "queued"%string
  | Err NOT_FOUND => s' = s ∧ tasks (cs_store s) !! id = None
  | Err INTERNAL_SERVER_ERROR => tasks (cs_store s') = tasks (cs_store s)
  | Err UNAUTHORIZED => False
  end.
Proof.
  intros Hinv Hr. unfold cancel_task in Hr.
  m_step Hr as s1 ts e Hf; apply db_read_inv in Hf as [-> Hf]; symmetry in Hf; last first.
  { destruct (list_tasks _); [done|]. by injection Hf as <-. }
  apply map_err_Ok_inv in Hf. pose proof (listed_task _ _ id Hf (inv_task_key _ Hinv)) as Hh.
  m_step Hr as s1 task e Hl; unfold lift in Hl; injection Hl as <- Hl; rewrite Hh in Hl;
    destruct (tasks (cs_store s) !! id) as [t|] eqn:Ht; simplify_eq/=; [|done].
  case_bool_decide as Hq; cbn in Hr; last first.
  { injection Hr as <- <-. split; [done|]. split; [done|]. split; [done|]. exists task. done. }
  m_step Hr as s2 b e Hu; apply db_write_inv in Hu as (r' & Hu & Hs2 & Hr');
    apply update_task_status_spec in Hu; destruct r' as [b'|e']; simplify_eq/=.
  - destruct b'; last first.
    { destruct Hu as [Hn%no_task _]. by assert (Some task = None) by exact (eq_trans (eq_sym Ht) Hn). }
    destruct Hu as (t' & Ht' & Hv & Ho). assert (Some t' = Some task) as [= ->] by exact (eq_trans (eq_sym Ht') Ht).
    pose proof (audit_quiet now "取消任务" ("任务 ID " ++ dec id ++ " 已取消（排队中）")
      (emit (TaskStatus id "cancelled") s2) _ (reflexivity _)) as Hau.
    rewrite (M_bind_ok (modify _) _ s2 (emit (TaskStatus id "cancelled") s2) ()) in Hr by done.
    rewrite Hr in Hau. destruct r as [u|e]; [|done].
    assert (quiet s2 s') as Hq2 by (etrans; [|exact Hau]; by split).
    destruct Hq2 as [[Hn2 Ht2 _ _ _] Hp2].
    split_and!.
    + intros n. unfold queue. by rewrite Hp2, Hs2.
    + rewrite Hn2. unfold nodes, view. by rewrite Ho.
    + exists task. split_and!; [done..|]. rewrite Ht2. exact Hv.
  - split_and!; [|by rewrite Hu|by rewrite Hu]. intros n. unfold queue. by rewrite Hs2.
Qed.

End outcomes.

(** ** Any sequence of calls *)

(** A call of an HTTP client, of a node, of the upload service; a turn of a task
    stream; one status change of the keepalive loop. *)
Inductive sched_call :=
| CallHttp (now now_audit : N) (r : Request)
| CallRegister (t1 t2 : N) (req : RegisterRequest)
| CallHeartbeat (t1 t2 node_id : N)
| CallReportTask (report : TaskReport)
| CallReportChunk (c : ChunkDone)
| CallPublish (req : PublishVersionRequest)
| CallWatch (node_id : N) (sent : option nat)
| CallMark (status : string) (node_id : N).

Section runs.
Context (blake3 : list byte → hash32).
Context {D : Type} `{RedbLaws D, SchedJsonLaws} `{!SetIter}.
Context (admin_user admin_password : string).
Implicit Types (s : ControlService D).

(** The state after a call and the events it delivered. *)
Definition run_call (c : sched_call) s : ControlService D * list (N * TaskEvent) :=
  match c with
  | CallHttp t ta r => ((dispatch blake3 admin_user admin_password t ta r s).1, [])
  | CallRegister t1 t2 req => ((register t1 t2 req s).1, [])
  | CallHeartbeat t1 t2 n => ((heartbeat t1 t2 n s).1, [])
  | CallReportTask report => ((report_task report s).1, [])
  | CallReportChunk d => ((report_chunk d s).1, [])
  | CallPublish req => ((publish_version req s).1, [])
  | CallWatch n sent => let r := watch_step n sent s in (r.1, map (pair n) (default [] (ok r.2)))
  | CallMark st n => (set_store (mark_status st (cs_store s) n) s, [])
  end.

Definition run_calls (cs : list sched_call) s : ControlService D * list (N * TaskEvent) :=
  foldl (λ acc c, let r := run_call c acc.1 in (r.1, acc.2 ++ r.2)) (s, []) cs.

Lemma reply_fst {A} (f : A → Reply) (m : M (ControlService D) StatusCode A) s :
  (reply f m s).1 = (m s).1.
Proof. unfold reply, mbind, M_bind. by destruct (m s) as [s' []]. Qed.

Lemma handle_step t ta r s :
  sched_inv s → room 1 s → step_ok s (dispatch blake3 admin_user admin_password t ta r s).1.
Proof.
  intros Hinv Hroom.
  assert (match r with PostTask _ | PostCancel _ | PostRollback _ _ => False | _ => True end →
    step_ok s (dispatch blake3 admin_user admin_password t ta r s).1) as Hq.
  { intros Hr. apply adv_step, adv_of_quiet; [done|]. by apply quiet_requests. }
  destruct r; try (by apply Hq); cbn [dispatch]; rewrite reply_fst.
  - by apply create_task_step.
  - by apply cancel_step.
  - by apply rollback_step.
Qed.

Lemma run_call_step c s : sched_inv s → room 1 s → step_ok s (run_call c s).1.
Proof.
  intros Hinv Hroom. destruct c; cbn [run_call fst].
  - by apply handle_step.
  - by apply register_step.
  - by apply heartbeat_step.
  - by apply report_task_step.
  - apply adv_step, adv_of_quiet; [done|]. by apply report_chunk_quiet.
  - apply adv_step, adv_of_quiet; [done|]. by apply publish_version_quiet.
  - by apply watch_step_step.
  - by apply mark_status_step.
Qed.

(** What a call delivers was queued. *)
Lemma run_call_delivers c s n ev : (n, ev) ∈ (run_call c s).2 → ev ∈ queue s n.
Proof.
  destruct c as [| | | | | |m sent|]; cbn [run_call snd]; try (by intros ?%elem_of_nil).
  destruct (watch_step m sent s) as [s' r] eqn:Hw. cbn [snd].
  apply watch_step_ok in Hw as (evs & -> & (k & ->) & _). cbn [ok default].
  intros (e & [= -> ->] & He)%list_elem_of_fmap. rewrite <- (take_drop k (queue s m)).
  apply elem_of_app. by left.
Qed.

(** The invariant, with the bounds that make it inductive. *)
Lemma run_calls_ok (cs : list sched_call) s s' delivered :
  sched_inv s → room (lenN cs) s → run_calls cs s = (s', delivered) →
  sched_inv s' ∧ evolves s s' ∧
  counter_of (cs_store s') NEXT_TASK_ID ≤ counter_of (cs_store s) NEXT_TASK_ID + lenN cs ∧
  counter_of (cs_store s') NEXT_NODE_ID ≤ counter_of (cs_store s) NEXT_NODE_ID + lenN cs ∧
  ∀ n ev, (n, ev) ∈ delivered → backed s' n ev.
Proof.
  intros Hinv [Hrt Hrn] Hrun.
  revert s' delivered Hrun. induction cs as [|c cs IH] using rev_ind; intros s' delivered Hrun.
  { injection Hrun as <- <-. split_and!; [done|done|lia|lia|]. by intros n ev ?%elem_of_nil. }
  unfold run_calls in *. rewrite foldl_app in Hrun. cbn [foldl] in Hrun.
  rewrite lenN_app, lenN_cons, lenN_nil in *.
  destruct (foldl _ (s, []) cs) as [s1 got] eqn:Hc. cbn [fst snd] in Hrun.
  destruct (IH ltac:(lia) ltac:(lia) _ _ eq_refl) as (Hi1 & He1 & Ht1 & Hn1 & Hd1).
  assert (room 1 s1) as Hroom by (split; lia).
  pose proof (run_call_step c s1 Hi1 Hroom) as [Hi2 He2 Ht2 Hn2].
  pose proof (run_call_delivers c s1) as Hdel.
  destruct (run_call c s1) as [s2 ds]. cbn [fst snd] in *. injection Hrun as <- <-.
  split_and!; [done|by trans s1|lia|lia|]. intros n ev [Hin|Hin]%elem_of_app.
  - eapply backed_evolves; [exact He2|]. by apply Hd1.
  - eapply backed_evolves; [exact He2|]. apply (inv_queue _ Hi1). by apply Hdel.
Qed.
(** C14: Whatever HTTP clients, nodes, the upload service and the keepalive loop
    call, in any order and with any failure of the database in between: an
    identifier of a task or a node is never reused, every record stays under its
    own identifier, a task keeps everything but its status and its error, a node
    everything but its liveness, and no task or node disappears; every event that
    is queued for a node, or was delivered to it, describes a recorded task of that
    node. *)
Theorem scheduler_invariant (cs : list sched_call) s s' delivered :
  sched_inv s → room (lenN cs) s → run_calls cs s = (s', delivered) →
  sched_inv s' ∧ evolves s s' ∧ ∀ n ev, (n, ev) ∈ delivered → backed s' n ev.
Proof.
  intros Hinv Hroom Hrun. by destruct (run_calls_ok cs s s' delivered Hinv Hroom Hrun) as (? & ? & _ & _ & ?).
Qed.
End runs.

(** ** Examples: the in-memory database *)

#[local] Existing Instance sched_json.
#[local] Existing Instance sched_json_laws.

Lemma ctl0_inv : sched_inv ctl0.
Proof.
  assert (∀ A (m : gmap N A) k, m = ∅ → m !! k = None) as Hnone by (by intros A m k ->).
  assert (tasks (cs_store ctl0) = ∅) as Ht by reflexivity.
  assert (nodes (cs_store ctl0) = ∅) as Hn by reflexivity.
  assert (games (cs_store ctl0) = ∅) as Hg by reflexivity.
  split; unfold keyed; rewrite ?Ht, ?Hn, ?Hg.
  1,3,5: by intros k a; rewrite lookup_empty.
  1,2: intros k [a Ha]; by rewrite lookup_empty in Ha.
  intros n ev Hin. by apply elem_of_nil in Hin.
Qed.

Lemma ctl0_room k : k < 2^64 → room k ctl0.
Proof. intros Hk. by split. Qed.

(** A node registers, gets a task, the task is cancelled before the node looks. *)
Definition demo_calls : list sched_call :=
  [CallRegister 100 100 reg_req; CallHttp 200 200 (PostTask (mkCreateTask 1 7 2 "UPDATE"));
   CallHttp 210 210 (PostCancel 1); CallWatch 1 None;
   CallReportTask (mkReport 1 1 "running" "")].
Definition demo_run := run_calls toy_hash "admin" "admin123" demo_calls ctl0.

Lemma scheduler_invariant_witness :
  sched_inv demo_run.1 ∧
  demo_run.2 = [(1, EvTask (to_proto_task (mkTask 1 1 7 2 "UPDATE" [] "running" "")))] ∧
  backed demo_run.1 1 (EvTask (to_proto_task (mkTask 1 1 7 2 "UPDATE" [] "running" ""))).
Proof.
  assert (demo_run.2 = [(1, EvTask (to_proto_task (mkTask 1 1 7 2 "UPDATE" [] "running" "")))]) as Hd
    by (vm_compute; reflexivity).
  destruct demo_run as [s' got] eqn:Hr. cbn [fst snd] in *. subst got.
  destruct (scheduler_invariant toy_hash "admin" "admin123" demo_calls ctl0 s' _ ctl0_inv
    (ctl0_room (lenN demo_calls) eq_refl) Hr) as (Hi & _ & Hb).
  split_and!; [exact Hi|done|]. apply Hb. by left.
Defined.

(** The node has been told; the task is cancelled in the table only. *)
Definition demo_created : ControlService MemDb := (run_calls toy_hash "admin" "admin123" (take 2 demo_calls) ctl0).1.

Lemma cancel_task_spec_witness :
  queue (cancel_task 210 1 demo_created).1 1 = queue demo_created 1 ∧
  length (queue demo_created 1) = 1%nat ∧
  tk_status <$> tasks (cs_store (cancel_task 210 1 demo_created).1) !! 1 = Some "cancelled"%string.
Proof.
  assert (sched_inv demo_created) as Hinv.
  { unfold demo_created.
    destruct (run_calls toy_hash "admin" "admin123" (take 2 demo_calls) ctl0) as [s' got] eqn:Hr.
    exact (proj1 (run_calls_ok toy_hash "admin" "admin123" (take 2 demo_calls) ctl0 s' got ctl0_inv (ctl0_room (lenN (take 2 demo_calls)) eq_refl) Hr)). }
  pose proof (cancel_task_spec 210 1 demo_created _ _
    Hinv (surjective_pairing (cancel_task 210 1 demo_created))) as (Hq & _ & _).
  split_and!; [apply Hq|vm_compute; reflexivity|vm_compute; reflexivity].
Defined.

(** Two IDCs and a version of two chunks, one of which node 1 holds. *)
Definition demo_chunk (b : byte) : ChunkMeta := mkChunk (toy_hash [b]) 1.
Definition demo_index : GameIndex :=
  Manifest.build toy_hash [mkFile "a.bin" (toy_hash [x01; x02]) [demo_chunk x01; demo_chunk x02]].
Definition fleet_calls : list sched_call :=
  let idc := mkRegister "idc" "endpoint-2" [] "" in
  [CallRegister 100 100 idc; CallRegister 100 100 idc;
   CallPublish (mkPublish 7 2 (Manifest.encode demo_index));
   CallReportChunk (mkDone 1 7 (hash_bytes (toy_hash [x01])))].
Definition demo_fleet : ControlService MemDb :=
  (run_calls toy_hash "admin" "admin123" fleet_calls ctl0).1.
Definition update_req (n : N) : CreateTaskRequest := mkCreateTask n 7 2 "UPDATE".

Lemma create_task_spec_witness :
  ∃ t, (create_task toy_hash 300 (update_req 2) demo_fleet).2 = Ok t ∧
    tk_id t = 1 ∧ tk_assigned_chunks t = [hash_bytes (toy_hash [x02])] ∧
    tasks (cs_store (create_task toy_hash 300 (update_req 2) demo_fleet).1) !! 1 = Some t ∧
    queue (create_task toy_hash 300 (update_req 2) demo_fleet).1 1 = queue demo_fleet 1.
Proof.
  assert (sched_inv demo_fleet) as Hinv.
  { unfold demo_fleet.
    destruct (run_calls toy_hash "admin" "admin123" fleet_calls ctl0) as [s' got] eqn:Hr.
    exact (proj1 (run_calls_ok toy_hash "admin" "admin123" fleet_calls ctl0 s' got ctl0_inv
      (ctl0_room (lenN fleet_calls) eq_refl) Hr)). }
  assert (room 1 demo_fleet) as Hroom by (split; vm_compute; reflexivity).
  assert (ok (tk_assigned_chunks <$> (create_task toy_hash 300 (update_req 2) demo_fleet).2) =
    Some [hash_bytes (toy_hash [x02])]) as Hc by (vm_compute; reflexivity).
  assert (counter_of (cs_store demo_fleet) NEXT_TASK_ID = 0) as Hcnt by (vm_compute; reflexivity).
  destruct (create_task toy_hash 300 (update_req 2) demo_fleet) as [s' r] eqn:Hr.
  pose proof (create_task_spec toy_hash 300 (update_req 2) demo_fleet s' r Hinv Hroom Hr) as Hs.
  cbn [fst snd] in *. destruct r as [t|e]; [|done]. injection Hc as Hc.
  destruct Hs as (_ & (node & chunks & _ & _ & Ht) & _ & Hts & Hq). rewrite Hcnt in Ht.
  assert (tk_id t = 1) as Hid by by rewrite Ht.
  exists t. split_and!; [done|done|done| |].
  - rewrite Hts, Hid. apply lookup_insert_eq.
  - rewrite Hq. cbn [update_req ct_node_id]. rewrite decide_False by done. apply app_nil_r.
Defined.

(** Two tasks created before the first node reports are given the same chunks. *)
Lemma assigned_twice :
  let r1 := create_task toy_hash 300 (update_req 1) demo_fleet in
  let r2 := create_task toy_hash 310 (update_req 2) r1.1 in
  ok (tk_assigned_chunks <$> r1.2) = Some [hash_bytes (toy_hash [x02])] ∧
  ok (tk_assigned_chunks <$> r2.2) = Some [hash_bytes (toy_hash [x02])].
Proof. vm_compute. split; reflexivity. Qed.

(** A game created under a requested identifier does not move the counter, so the
    next automatic identifier replaces it. *)
Lemma game_replaced :
  let s := (create_game 1 (mkCreateGame "old" (Some 1)) ctl0).1 in
  let s' := (create_game 2 (mkCreateGame "new" None) s).1 in
  gm_name <$> games (cs_store s) !! 1 = Some "old"%string ∧
  gm_name <$> games (cs_store s') !! 1 = Some "new"%string.
Proof. vm_compute. split; reflexivity. Qed.
