(* ===== verification/SchedVersions.v ===== *)
(** * SchedVersions: who writes the manifests of the scheduler

    Every call of the scheduler but one leaves the table of versions as it is;
    publishing a version writes the entry of that game and version, with the
    manifest of the request, or nothing. *)

From S2P Require Import Prelude Bytes Text Manifest Redb SchedDb.
From S2P Require Import SchedDbSpec SchedControl SchedControlSpec Keepalive SchedHttp.
From S2P Require Import SchedInv SchedHttpSpec.

Section relation.
Context {D : Type} `{!RedbOps D, !SchedJson}.
Implicit Types (s : ControlService D) (d : D).

Definition same_versions d d' : Prop := contents d' VERSIONS = contents d VERSIONS.
Definition keeps_versions s s' : Prop := same_versions (cs_store s) (cs_store s').

#[export] Instance same_versions_preorder : PreOrder same_versions.
Proof. split; [done|]. intros d1 d2 d3. unfold same_versions. congruence. Qed.
#[export] Instance keeps_versions_preorder : PreOrder keeps_versions.
Proof. split; [done|]. intros s1 s2 s3. unfold keeps_versions. by intros; etrans. Qed.

(** The manifest of a version, as the scheduler keeps it. *)
Definition announced s (g v : N) : option (list byte) :=
  view VERSIONS id (cs_store s) !! version_key g v.

Lemma keeps_announced s s' g v : keeps_versions s s' → announced s' g v = announced s g v.
Proof. intros Hk. unfold announced, view. by rewrite Hk. Qed.

Lemma version_key_inj g v g' v' : version_key g v = version_key g' v' → g = g' ∧ v = v'.
Proof.
  unfold version_key. intros He. apply split_at_inj in He as [Hg Hv]; [|by apply dec_no_char..].
  by apply dec_inj in Hg, Hv.
Qed.

Lemma same_versions_other d d' t :
  VERSIONS ≠ t → (∀ t', t' ≠ t → contents d' t' = contents d t') → same_versions d d'.
Proof. intros Hne Ho. by apply Ho. Qed.
End relation.

(** ** The operations of the database *)

Section ops.
Context {D : Type} `{RedbLaws D, SchedJsonLaws}.
Implicit Types (d : D).

Lemma insert_one_versions (t : TableDefinition) (k : Key t) v m1 m2 m3 d :
  VERSIONS ≠ t → same_versions d (insert_one m1 m2 m3 t k v d).1.
Proof.
  intros Hne. run_goal d' r Hi. apply insert_one_ok in Hi.
  destruct r; cbn; [|by subst]. destruct Hi as [_ Ho]. by eapply same_versions_other.
Qed.

Lemma insert_record_versions {A} `{!JsonOps A, !JsonLaws A} (t : TableDefinition) (k : Key t) (a : A)
    (of_text : string → Val t) m1 m2 m3 d :
  VERSIONS ≠ t →
  same_versions d ((value ← lift (encode a); insert_one m1 m2 m3 t k (of_text value)) d).1.
Proof.
  intros Hne. run_goal d' r Hi.
  apply (encode_then_ok a (λ v, insert_one m1 m2 m3 t k (of_text v))) in Hi as (x & _ & _ & Hi).
  pose proof (insert_one_versions t k (of_text x) m1 m2 m3 d Hne) as Hv. by rewrite Hi in Hv.
Qed.

Lemma delete_json_versions (t : TableDefinition) (k : Key t) d :
  VERSIONS ≠ t → same_versions d (delete_json t k d).1.
Proof.
  intros Hne. run_goal d' r Hi. apply delete_json_ok in Hi.
  destruct r; cbn; [|by subst]. destruct Hi as [_ [_ Ho]]. by eapply same_versions_other.
Qed.

Lemma next_id_versions c d : same_versions d (next_id c d).1.
Proof.
  run_goal d' r Hi. apply next_id_ok in Hi.
  destruct r; cbn; [|by subst]. destruct Hi as [_ [_ Ho]]. by eapply (same_versions_other _ _ COUNTERS).
Qed.

Lemma add_audit_versions t a1 a2 a3 d : same_versions d (add_audit t a1 a2 a3 d).1.
Proof.
  assert (preserves (same_versions d) (add_audit (D:=D) t a1 a2 a3)) as Hp.
  { apply preserves_bind; [intros d1 Hd1; etrans; [exact Hd1|apply next_id_versions]|]. intros id.
    apply preserves_bind; [apply preserves_lift|]. intros value.
    apply preserves_bind; [|intros; apply preserves_ret].
    intros d1 Hd1. etrans; [exact Hd1|]. by apply (insert_one_versions AUDITS). }
  by apply Hp.
Qed.

Lemma update_task_status_versions id st e d : same_versions d (update_task_status id st e d).1.
Proof.
  run_goal d' r Hi. apply update_task_status_ok in Hi. destruct r as [[]|]; cbn; [|naive_solver..].
  destruct Hi as (old & new & task & _ & _ & _ & [_ Ho]). by eapply (same_versions_other _ _ TASKS).
Qed.

Lemma record_chunk_holder_versions n g h d : same_versions d (record_chunk_holder n g h d).1.
Proof.
  run_goal d' r Hi. apply record_chunk_holder_ok in Hi. destruct r; cbn; [|by subst].
  destruct Hi as [[_ Hc]|(_ & text & _ & [_ Ho])]; [apply Hc|].
  by eapply (same_versions_other _ _ CHUNKS).
Qed.
End ops.

(** ** The calls *)

Section calls.
Context (blake3 : list byte → hash32).
Context {D : Type} `{RedbLaws D, SchedJsonLaws} `{!SetIter}.
Context (admin_user admin_password : string).
Implicit Types (s : ControlService D) (d : D).

Lemma db_write_versions {A} (m : M D error A) s0 :
  (∀ d, same_versions d (m d).1) → preserves (keeps_versions s0) (db_write m).
Proof.
  intros Hm s Hs. etrans; [exact Hs|]. unfold db_write, zoom, map_err_m, keeps_versions.
  specialize (Hm (cs_store s)). by destruct (m (cs_store s)).
Qed.

Lemma on_store_versions {A} f (m : M D error A) s0 :
  (∀ d, same_versions d (m d).1) → preserves (keeps_versions s0) (on_store f m).
Proof.
  intros Hm s Hs. etrans; [exact Hs|]. unfold on_store, zoom, map_err_m, keeps_versions.
  specialize (Hm (cs_store s)). by destruct (m (cs_store s)).
Qed.

(** A change outside the database. *)
Lemma modify_versions {E} (f : ControlService D → ControlService D) s0 :
  (∀ s, cs_store (f s) = cs_store s) → preserves (keeps_versions s0) (modify (E:=E) f).
Proof.
  intros Hf. apply preserves_modify. intros s Hs. unfold keeps_versions in *. by rewrite Hf.
Qed.

Ltac versions_db := intros; lazymatch goal with
  | |- same_versions _ (add_audit _ _ _ _ _).1 => apply add_audit_versions
  | |- same_versions _ (update_task_status _ _ _ _).1 => apply update_task_status_versions
  | |- same_versions _ (record_chunk_holder _ _ _ _).1 => apply record_chunk_holder_versions
  | |- same_versions _ (delete_user _ _).1 => apply (delete_json_versions USERS); done
  | |- same_versions _ (delete_place _ _).1 => apply (delete_json_versions PLACES); done
  | |- same_versions _ (delete_group _ _).1 => apply (delete_json_versions GROUPS); done
  | |- same_versions _ (delete_game _ _).1 => apply (delete_json_versions GAMES); done
  | |- same_versions _ (insert_user _ _).1 => apply (insert_record_versions USERS _ _ id); done
  | |- same_versions _ (insert_place _ _).1 => apply (insert_record_versions PLACES _ _ id); done
  | |- same_versions _ (insert_group _ _).1 => apply (insert_record_versions GROUPS _ _ id); done
  | |- same_versions _ (insert_game _ _).1 => apply (insert_record_versions GAMES _ _ id); done
  | |- same_versions _ (insert_node _ _).1 => apply (insert_record_versions NODES _ _ id); done
  | |- same_versions _ (insert_task _ _).1 => apply (insert_record_versions TASKS _ _ id); done
  | |- same_versions _ (bind _ _ _ _).1 => apply (insert_one_versions BINDINGS); done
  | |- _ => apply next_id_versions
  end.

Lemma db_read_versions {A} (f : D → result error A) s0 : preserves (keeps_versions s0) (db_read f).
Proof. by intros s Hs. Qed.
Lemma read_store_versions {A} f (g : D → result error A) s0 :
  preserves (keeps_versions s0) (read_store f g).
Proof. by intros s Hs. Qed.

Lemma audit_versions now action detail s0 :
  preserves (keeps_versions s0) (audit (D:=D) now action detail).
Proof. apply preserves_ignore, db_write_versions; versions_db. Qed.

Lemma found_or_versions {A} (f : D → result error (option A)) s0 :
  preserves (keeps_versions s0) (found_or f).
Proof. apply preserves_bind; [apply db_read_versions|]. intros. apply preserves_lift. Qed.

Ltac keeps :=
  repeat (intros; lazymatch goal with
    | |- preserves _ (mret _) => apply preserves_ret
    | |- preserves _ (lift _) => apply preserves_lift
    | |- preserves _ (throw _) => apply preserves_throw
    | |- preserves _ get => apply preserves_get
    | |- preserves _ (ignore _) => apply preserves_ignore
    | |- preserves _ (db_read _) => apply db_read_versions
    | |- preserves _ (read_store _ _) => apply read_store_versions
    | |- preserves _ (audit _ _ _) => apply audit_versions
    | |- preserves _ (found_or _) => apply found_or_versions
    | |- preserves _ (db_write _) => apply db_write_versions; versions_db
    | |- preserves _ (on_store _ _) => apply on_store_versions; versions_db
    | |- preserves _ (modify _) => apply modify_versions; reflexivity
    | |- preserves _ (mbind _ _) => apply preserves_bind
    | |- preserves _ (match _ with _ => _ end) => case_match
    | |- preserves _ _ => first [apply preserves_bind | apply db_read_versions | apply found_or_versions | apply preserves_ret | apply preserves_lift]
    end).

Lemma push_http_versions t s0 : preserves (keeps_versions s0) (push_http (D:=D) t).
Proof. apply preserves_map_err. unfold push_task. keeps. Qed.

Lemma delete_record_versions now (m : M D error bool) action detail s0 :
  (∀ d, same_versions d (m d).1) → preserves (keeps_versions s0) (delete_record now m action detail).
Proof. intros Hm. unfold delete_record. apply preserves_bind; [by apply db_write_versions|]. keeps. Qed.

Lemma dispatch_versions now now_audit r s0 :
  preserves (keeps_versions s0) (dispatch blake3 (D:=D) admin_user admin_password now now_audit r).
Proof.
  destruct r; cbn [dispatch]; unfold reply, metrics, login, create_user, create_place, create_group,
    create_game, game_id_of, http_bind, create_task, rollback_game, cancel_task;
    try (apply preserves_bind; [apply delete_record_versions; versions_db|]); keeps.
  all: apply push_http_versions.
Qed.

Lemma control_versions (t1 t2 n : N) req report dn s0 :
  preserves (keeps_versions s0) (register (D:=D) t1 t2 req) ∧
  preserves (keeps_versions s0) (heartbeat (D:=D) t1 t2 n) ∧
  preserves (keeps_versions s0) (report_task (D:=D) report) ∧
  preserves (keeps_versions s0) (report_chunk (D:=D) dn).
Proof. split_and!; unfold register, heartbeat, report_task, report_chunk; keeps. Qed.

Lemma mark_status_versions st n d : same_versions d (mark_status st d n).
Proof.
  unfold mark_status. destruct (get_node d n) as [[node|]|]; try done. case_decide; [|done].
  apply (insert_record_versions NODES _ _ id). done.
Qed.

(** Every call but a publication. *)
Definition publishes (c : sched_call) : option PublishVersionRequest :=
  match c with CallPublish req => Some req | _ => None end.

Lemma run_call_versions c s :
  publishes c = None → keeps_versions s (run_call blake3 admin_user admin_password c s).1.
Proof.
  intros Hc. pose proof (reflexivity (R:=keeps_versions) s) as Hs.
  destruct c as [t ta r|t1 t2 req|t1 t2 n|report|dn|req|n sent|st n]; cbn [run_call fst]; try done.
  - by apply dispatch_versions.
  - by apply (control_versions t1 t2 0 req (mkReport 0 0 "" "") (mkDone 0 0 [])).
  - by apply (control_versions t1 t2 n (mkRegister "" "" [] "") (mkReport 0 0 "" "") (mkDone 0 0 [])).
  - by apply (control_versions 0 0 0 (mkRegister "" "" [] "") report (mkDone 0 0 [])).
  - by apply (control_versions 0 0 0 (mkRegister "" "" [] "") (mkReport 0 0 "" "") dn).
  - apply mark_status_versions.
Qed.

(** A publication writes its own entry or none. *)
Lemma publish_version_announced req s s' r :
  publish_version req s = (s', r) →
  keeps_versions s s' ∧ ¬ is_ok r ∨
  ∀ g v, announced s' g v = if decide ((g, v) = (pv_game_id req, pv_version req))
                            then Some (pv_manifest req) else announced s g v.
Proof.
  intros Hp. unfold publish_version in Hp.
  destruct (_ || _); [injection Hp as <- <-; left; by split; [|intros []]|].
  case_bool_decide; [injection Hp as <- <-; left; by split; [|intros []]|].
  m_step Hp as s1 [] e Hs; apply on_store_inv in Hs as (r1 & Hs & Hs1 & Hr1).
  - destruct r1 as [[]|]; [|done]. right. intros g v.
    apply (insert_json_view VERSIONS _ (pv_manifest req) id id) in Hs as [Hv _]; [|done].
    assert (keeps_versions s1 s') as Hk.
    { match type of Hp with ?m s1 = _ => assert (preserves (keeps_versions s1) m) as Hpr end.
      { keeps. }
      specialize (Hpr s1 (reflexivity _)). by rewrite Hp in Hpr. }
    rewrite (keeps_announced s1 s') by done. unfold announced. rewrite Hv.
    case_decide as Heq; [injection Heq as -> ->; apply lookup_insert_eq|].
    apply lookup_insert_ne. intros He%version_key_inj. apply Heq. by destruct He as [-> ->].
  - left. destruct r1 as [[]|]; [done|]. split; [|by intros []]. rewrite Hs1. unfold keeps_versions.
    apply (encode_then_ok (pv_manifest req)) in Hs as (x & _ & _ & Hs). apply insert_one_ok in Hs.
    by rewrite Hs.
Qed.
End calls.
