(* ===== verification/System.v ===== *)
(** * System: an origin and the scheduler it publishes to

    The handlers of the origin (crates/origin/src/server.rs, datapath.rs), the
    calls of the scheduler and the restarts of either process are the steps of one
    system.  Whatever the order, and whatever fails, a version the scheduler
    announces can be downloaded: its manifest decodes, and the origin holds every
    chunk of it and serves it. *)

From S2P Require Import Prelude Bytes Text FileIO Redb Manifest.
From S2P Require Import Storage StorageSpec SchedDb SchedDbSpec SchedControl SchedControlSpec.
From S2P Require Import SchedHttp SchedHttpSpec SchedVersions Upload UploadSpec DataPath DataPathSpec.

Section system.
Context (blake3 : list byte → hash32).
Context {D E F K : Type} `{!RedbOps D, !RedbLaws D, !RedbOps E, !RedbLaws E}.
Context `{FileLaws F, !CompioOps F, !OpenOps D F, !OpenLaws D F, ChunkSourceLaws K}.
Context `{PublishFsLaws, SetIterLaws, SchedJsonLaws}.
Context (status_display : Status → string) (admin_user admin_password addr : string).

Abbreviation system := (DataState D F (ControlService E) K).
Abbreviation origin := (Origin D F (ControlService E)).
Implicit Types (s : system) (o : origin) (ms : N → gmap hash32 (list byte)).

(** The scheduler behind its stub; a connection may fail to come up. *)
#[local] Instance scheduler_stub (reachable : bool) : SchedulerClient (ControlService E) :=
  control_client status_display reachable.

(** ** The steps *)

(** What a process that is started again finds on disk. *)
Definition disk_after o : gmap N (option D * option F) :=
  ((λ st : GameStore D F, (Some (gs_db st), Some (gs_path st))) <$> or_packs o) ∪ or_disk o.
Definition restarted o : origin := mkOrigin (disk_after o) ∅ (or_published o) (or_sched o).

(** The queues and the broadcast are lost with the process; the database is not. *)
Definition sched_restarted (c : ControlService E) : ControlService E := ControlService_new (cs_store c).

Inductive step : system → system → Prop :=
| step_upload s stream o' acks r :
    (∀ c, head stream = Some (Ok c) → uc_game_id c < 2^64 ∧
       room (ds_origin s) (uc_game_id c) (upload_size stream)) →
    process_upload blake3 stream (ds_origin s) = (o', acks, r) →
    step s (set_origin o' s)
| step_query s q o' r :
    cq_game_id q < 2^64 → query_existing_chunks q (ds_origin s) = (o', r) →
    step s (set_origin o' s)
| step_commit s reachable c o' r :
    cr_game_id c < 2^64 →
    commit_version (SchedulerClient0:=scheduler_stub reachable) blake3 (Some addr) c (ds_origin s) = (o', r) →
    step s (set_origin o' s)
| step_serve s ready request s' r :
    handle_conn ready true (set_conn (mkConn request []) s) = (s', r) → step s s'
| step_sched s c :
    publishes c = None →
    step s (set_origin (set_sched
      (run_call blake3 admin_user admin_password c (or_sched (ds_origin s))).1 (ds_origin s)) s)
| step_restart s : step s (mkData (restarted (ds_origin s)) ∅ (ds_conn s))
| step_sched_restart s :
    step s (set_origin (set_sched (sched_restarted (or_sched (ds_origin s))) (ds_origin s)) s).

(** ** The invariant *)

(** The manifest decodes and every chunk it refers to is there. *)
Definition complete (m : gmap hash32 (list byte)) (manifest : list byte) : Prop :=
  ∃ i, Manifest.decode blake3 manifest = Ok i ∧ ∀ h, h ∈ chunk_set i → is_Some (m !! h).

Record sys_inv ms s : Prop := {
  si_origin : origin_ok (ds_origin s) ms;
  si_addressed g : g < 2^64 → addressed blake3 (ms g);
  si_nodes g e : ds_nodes s !! g = Some e → e = Pack ();
  si_announced g v manifest :
    g < 2^64 → announced (or_sched (ds_origin s)) g v = Some manifest → complete (ms g) manifest
}.

Lemma complete_mono m m' manifest : m ⊆ m' → complete m manifest → complete m' manifest.
Proof.
  intros Hsub (i & Hd & Hall). exists i. split; [done|]. intros h [d Hd']%Hall. exists d.
  by eapply lookup_weaken.
Qed.

(** A step of the origin's own state that leaves the scheduler alone. *)
Lemma inv_origin ms ms' s o' :
  sys_inv ms s → origin_ok o' ms' → (∀ g, g < 2^64 → ms g ⊆ ms' g) →
  (∀ g, g < 2^64 → addressed blake3 (ms' g)) →
  (∀ g v, announced (or_sched o') g v = announced (or_sched (ds_origin s)) g v) →
  sys_inv ms' (set_origin o' s).
Proof.
  intros [_ _ Hn Han] Ho Hsub Hadd Hs. split; cbn; try done. intros g v manifest Hg Ha.
  rewrite Hs in Ha. eapply complete_mono; [by apply Hsub|by eapply Han].
Qed.

Lemma update_at_sub (ms : N → gmap hash32 (list byte)) g m g' : ms g ⊆ m → ms g' ⊆ update_at g m ms g'.
Proof. intros Hm. unfold update_at. case_decide; [by subst|done]. Qed.

Lemma upload_inv ms s stream o' acks r :
  (∀ c, head stream = Some (Ok c) → uc_game_id c < 2^64 ∧
     room (ds_origin s) (uc_game_id c) (upload_size stream)) →
  process_upload blake3 stream (ds_origin s) = (o', acks, r) → sys_inv ms s →
  ∃ ms', sys_inv ms' (set_origin o' s) ∧ ∀ g, g < 2^64 → ms g ⊆ ms' g.
Proof.
  intros Hhead Hu Hinv. pose proof (si_origin _ _ Hinv) as Ho.
  assert (same_rest (ds_origin s) o') as (_ & _ & Hsch).
  { refine (process_upload_rest _ _ _ _ _ _ _ Ho _ Hu). intros c Hc. by apply Hhead. }
  assert (o' = ds_origin s → ∃ ms', sys_inv ms' (set_origin o' s) ∧ ∀ g, g < 2^64 → ms g ⊆ ms' g) as Hsame.
  { intros ->. exists ms. split; [|done]. by destruct s. }
  destruct stream as [|[c|e] rest]; [by injection Hu as <- _ _; apply Hsame| |by injection Hu as <- _ _; apply Hsame].
  destruct (Hhead c eq_refl) as [Hg Hroom].
  destruct (decide (uc_game_id c = 0)) as [Hz|Hnz].
  { apply Hsame. unfold process_upload in Hu. cbn beta iota in Hu. rewrite Hz in Hu. by injection Hu as <- _ _. }
  apply (process_upload_ok blake3 _ o' ms c rest) in Hu
    as [(e & _ & _ & _ & ->)|(dn & tail & m' & _ & _ & -> & Ho' & _ & Hadd & _)]; [by apply Hsame| |done..].
  eexists. split; [eapply inv_origin; [exact Hinv|exact Ho'| | |by intros; rewrite Hsch]|].
  - intros g _. apply update_at_sub, add_chunks_mono.
  - intros g Hg'. unfold update_at. case_decide; [subst; by apply Hadd, (si_addressed _ _ Hinv)|].
    by apply (si_addressed _ _ Hinv).
  - intros g _. apply update_at_sub, add_chunks_mono.
Qed.

Lemma query_inv ms s q o' r :
  cq_game_id q < 2^64 → query_existing_chunks q (ds_origin s) = (o', r) → sys_inv ms s →
  sys_inv ms (set_origin o' s).
Proof.
  intros Hg Hq Hinv. apply (query_existing_spec _ _ ms) in Hq as (Ho & (_ & _ & Hs) & _);
    [|by apply Hinv|done].
  eapply inv_origin; try done; [by apply Hinv|by intros; rewrite Hs].
Qed.

Lemma connect_control_same {C} `{!SchedulerClient C} (a : string) (c c' : C) r :
  connect_control a c = (c', r) → c' = c.
Proof.
  unfold connect_control. rewrite (M_bind_ok get _ c c c) by done.
  destruct (connect_attempts _ _ _ _); by intros [= <-].
Qed.

(** What publishing does to the scheduler. *)
Lemma publish_to_scheduler_announced reachable g v manifest c c' r :
  publish_to_scheduler (SchedulerClient0:=scheduler_stub reachable) addr g v manifest c = (c', r) →
  ∀ g' v', announced c' g' v' = announced c g' v' ∨
    (g', v') = (g, v) ∧ announced c' g' v' = Some manifest.
Proof.
  unfold publish_to_scheduler. intros Hp g' v'. m_step Hp as c0 [] e Hc.
  - apply connect_control_same in Hc as ->.
    assert (∃ r0, publish_version (mkPublish g v manifest) c = (c', r0)) as [r0 Hpv].
    { revert Hp. unfold map_err_m, lift, mbind, M_bind. cbn [sc_publish scheduler_stub control_client].
      unfold map_err_m. destruct (publish_version _ c) as [c1 [reply|e]]; cbn; intros [= <- _]; by eexists. }
    apply publish_version_announced in Hpv as [[Hk _]|Hv]; [left; by apply keeps_announced|].
    rewrite Hv. cbn [pv_game_id pv_version pv_manifest]. case_decide; [by right|by left].
  - apply connect_control_same in Hc as ->. by left.
Qed.

Lemma commit_inv ms s reachable c o' r :
  cr_game_id c < 2^64 →
  commit_version (SchedulerClient0:=scheduler_stub reachable) blake3 (Some addr) c (ds_origin s) = (o', r) →
  sys_inv ms s → sys_inv ms (set_origin o' s).
Proof.
  intros Hg Hc Hinv.
  destruct (commit_version_ok blake3 (Some addr) c (ds_origin s) o' ms r (si_origin _ _ Hinv) Hg Hc)
    as (Ho & _ & _ & _ & Hres).
  assert (or_sched o' = or_sched (ds_origin s) → sys_inv ms (set_origin o' s)) as Hsame.
  { intros Hs. eapply inv_origin; try done; [by apply Hinv|by intros; rewrite Hs]. }
  destruct r as [reply|e]; [|by apply Hsame].
  destruct Hres as (i & Hdec & [(_ & _ & _ & Hs)|(Hall & _ & _ & Hs)]); [by apply Hsame|].
  match type of Hs with _ = (?p).1 => destruct p as [c' rp] eqn:Hp end. cbn [fst] in Hs.
  destruct Hinv as [_ Hadd Hn Han]. split; cbn; try done. intros g v manifest Hg' Ha. rewrite Hs in Ha.
  destruct (publish_to_scheduler_announced _ _ _ _ _ _ _ Hp g v) as [Heq|[Heq Heq']].
  - rewrite Heq in Ha. by eapply Han.
  - injection Heq as -> ->. rewrite Heq' in Ha. injection Ha as <-. by exists i.
Qed.

(** ** Serving a connection *)

Definition conn_inv ms (c : ControlService E) s : Prop :=
  origin_ok (ds_origin s) ms ∧ or_sched (ds_origin s) = c ∧
  ∀ g e, ds_nodes s !! g = Some e → e = Pack ().

Lemma recv_inv {A} ms c msg (p : cursor A) : preserves (conn_inv ms c) (recv msg p ds_conn set_conn).
Proof. intros s Hs. unfold recv, map_err_m, zoom. by destruct (p _). Qed.

Lemma serve_chunks_inv ms c store n : preserves (conn_inv ms c) (serve_chunks store n).
Proof.
  induction n as [|n IH]; cbn [serve_chunks]; [apply preserves_ret|].
  apply preserves_bind; [apply recv_inv|]. intros h.
  apply preserves_bind; [apply preserves_lift|]. intros found.
  apply preserves_bind; [apply preserves_lift|]. intros data.
  apply preserves_bind; [by intros s Hs|]. intros _. apply preserves_bind; [by intros s Hs|]. by intros _.
Qed.

Lemma pack_entry_sched g o o' (r : result error (GameStore D F)) :
  pack_entry id g o = (o', r) → or_sched o' = or_sched o.
Proof.
  unfold pack_entry. rewrite (M_bind_ok get _ o o o) by done.
  destruct (or_packs o !! g); [by intros [= <- _]|]. unfold lift, mbind, M_bind.
  destruct (map_err _ _); by intros [= <- _].
Qed.

Lemma node_entry_inv ms c g : g < 2^64 → preserves (conn_inv ms c) (node_entry true g).
Proof.
  intros Hg s (Ho & Hc & Hn). destruct (node_entry true g s) as [s' r] eqn:He. cbn [fst].
  assert (∃ o', ds_origin s' = o' ∧ or_sched o' = or_sched (ds_origin s) ∧
    ∀ g' e, ds_nodes s' !! g' = Some e → e = Pack ()) as (o' & Ho' & Hs & Hn').
  { unfold node_entry in He. rewrite (M_bind_ok get _ s s s) in He by done.
    assert (or_sched (ds_origin (pack_handle g s).1) = or_sched (ds_origin s) ∧
      ds_nodes (pack_handle g s).1 = ds_nodes s) as Hp.
    { unfold pack_handle, zoom, mbind, M_bind.
      destruct (pack_entry id g (ds_origin s)) as [o1 [st|e]] eqn:Hp; cbn;
        by apply pack_entry_sched in Hp. }
    destruct (ds_nodes s !! g) as [[[]|src]|] eqn:Hsg.
    - rewrite He in Hp. cbn [fst] in Hp. destruct Hp as [Hp1 Hp2]. eexists. split_and!; [done|done|]. by rewrite Hp2.
    - injection He as <- _. by eexists.
    - cbn in He. m_step He as s1 st e Hph; cbn [fst] in Hp; destruct Hp as [Hp1 Hp2].
      + injection He as <- _. eexists. split_and!; [done|done|]. cbn. intros g' e.
        intros [[_ <-]|[_ Hl]]%lookup_insert_Some; [done|by eapply Hn].
      + eexists. split_and!; [done|done|]. by rewrite Hp2. }
  apply (node_entry_ok true g s ms (ms g)) in He as (Ho1 & _); try done.
  - subst o'. split_and!; [done|congruence|done].
  - unfold source_ok. destruct (ds_nodes s !! g) as [[|src]|] eqn:Hsg; try done.
    by apply Hn in Hsg.
Qed.

Lemma recv_be_bound k msg s s' g :
  recv msg (read_be k) ds_conn set_conn s = (s', Ok g) → g < 256 ^ N.of_nat k.
Proof.
  unfold recv, map_err_m, zoom, read_be, mbind, M_bind, read_exact, mret, M_ret.
  destruct (Nat.leb_spec k (length (cn_recv (ds_conn s)))) as [Hk|Hk]; [|done]. intros [= _ <-].
  unfold be_decode. eapply N.lt_le_trans; [apply le_decode_bound|]. apply N.pow_le_mono_r; [done|].
  unfold lenN. rewrite length_reverse, length_take. lia.
Qed.

Lemma handle_conn_inv ms c ready s :
  conn_inv ms c s → conn_inv ms c (handle_conn ready true s).1.
Proof.
  intros Hs. unfold handle_conn. rewrite (M_bind_ok _ _ s s ()) by (unfold lift; by rewrite gate_or_reject_ok).
  destruct (recv "读 game_id 失败" (read_be 8) ds_conn set_conn s) as [s1 [g|e]] eqn:Hr; last first.
  { rewrite (M_bind_err _ _ _ _ _ Hr). pose proof (recv_inv ms c "读 game_id 失败" (read_be 8) s Hs) as Hi. by rewrite Hr in Hi. }
  pose proof (recv_inv ms c "读 game_id 失败" (read_be 8) s Hs) as Hi. rewrite Hr in Hi. rewrite (M_bind_ok _ _ _ _ _ Hr).
  apply recv_be_bound in Hr. revert s1 Hi. apply preserves_bind; [apply recv_inv|]. intros n.
  apply preserves_bind; [by apply node_entry_inv|]. intros store. apply serve_chunks_inv.
Qed.

(** An empty origin and a scheduler without versions. *)
Lemma initial_inv (c : ControlService E) conn :
  (∀ g v, announced c g v = None) → sys_inv (λ _, ∅) (mkData (UploadService_new ∅ c) ∅ conn).
Proof.
  intros Hnone. split; cbn; try done. intros g v manifest Hg Ha. by rewrite Hnone in Ha.
Qed.

(** ** Every step keeps the invariant *)

Lemma disk_after_ok ms o g : g < 2^64 → origin_ok o ms → disk_ok (disk_of (restarted o) g) g (ms g).
Proof.
  intros Hg Ho. specialize (Ho g Hg). unfold disk_of, restarted, disk_after. cbn [or_disk].
  rewrite lookup_union, lookup_fmap. destruct (or_packs o !! g) as [st|]; cbn [fmap option_fmap option_map].
  - destruct Ho as [Hid Hr]. rewrite union_Some_l. cbn [default from_option id disk_ok].
    assert (pack_file st = gs_path st) as Hp by (unfold pack_file; by rewrite (rep_attached _ _ Hr)).
    pose proof (rep_size _ _ Hr) as Hsz. rewrite Hp in Hsz.
    apply (represents_frame st); cbn; try done; [by apply Hr|by rewrite Hp].
  - rewrite (left_id None union). exact Ho.
Qed.

Lemma step_inv ms s s' :
  step s s' → sys_inv ms s → ∃ ms', sys_inv ms' s' ∧ ∀ g, g < 2^64 → ms g ⊆ ms' g.
Proof.
  intros Hst Hinv. destruct Hst as [s stream o' acks r Hhead Hu|s q o' r Hg Hq|s reachable c o' r Hg Hc
    |s ready rq s' r Hh|s c Hc|s|s].
  - by eapply upload_inv.
  - exists ms. split; [by eapply query_inv|done].
  - exists ms. split; [by eapply commit_inv|done].
  - exists ms. split; [|done]. destruct Hinv as [Ho Hadd Hn Han].
    pose proof (handle_conn_inv ms (or_sched (ds_origin s)) ready (set_conn (mkConn rq []) s)) as Hi.
    rewrite Hh in Hi. destruct Hi as (Ho' & Hs' & Hn'); [by split_and!|].
    split; try done. cbn [fst] in Hs'. by rewrite Hs'.
  - exists ms. split; [|done]. eapply inv_origin; try done; [by apply Hinv|by apply Hinv|].
    intros g v. cbn. by apply keeps_announced, run_call_versions.
  - exists ms. split; [|done]. destruct Hinv as [Ho Hadd Hn Han]. split; cbn; try done.
    intros g Hg. cbn. rewrite lookup_empty. by apply disk_after_ok.
  - exists ms. split; [|done]. eapply inv_origin; try done; by apply Hinv.
Qed.

Lemma steps_inv ms s s' :
  rtc step s s' → sys_inv ms s → ∃ ms', sys_inv ms' s' ∧ ∀ g, g < 2^64 → ms g ⊆ ms' g.
Proof.
  intros Hst. revert ms. induction Hst as [s|s s1 s2 Hs _ IH]; intros ms Hinv; [by exists ms|].
  destruct (step_inv _ _ _ Hs Hinv) as (ms1 & Hi1 & Hsub1).
  destruct (IH _ Hi1) as (ms2 & Hi2 & Hsub2). exists ms2. split; [done|].
  intros g Hg. etrans; [by apply Hsub1|by apply Hsub2].
Qed.

(** ** Properties *)

(** C15: Uploads, queries, commits, connections of the data plane, calls of the
    scheduler and restarts of either process, in any order and with any failure in
    between: every store stays content-addressed and loses no chunk, and whatever
    manifest the scheduler gives out for a version decodes, with every chunk of it
    in the origin's store of that game. *)
Theorem system_invariant ms0 s0 s :
  sys_inv ms0 s0 → rtc step s0 s →
  ∃ ms, origin_ok (ds_origin s) ms ∧ (∀ g, g < 2^64 → ms0 g ⊆ ms g ∧ addressed blake3 (ms g)) ∧
    ∀ g v manifest, g < 2^64 →
      get_version (cs_store (or_sched (ds_origin s))) g v = Ok (Some manifest) →
      complete (ms g) manifest.
Proof.
  intros Hinv Hst. destruct (steps_inv _ _ _ Hst Hinv) as (ms & Hi & Hsub). exists ms.
  split_and!; [by apply Hi| |].
  - intros g Hg. split; [by apply Hsub|by apply (si_addressed _ _ Hi)].
  - intros g v manifest Hg Hv. apply get_version_view in Hv. by eapply (si_announced _ _ Hi).
Qed.

(** The answer to a request for chunks of an announced version. *)
Definition io_failure o ms g (hs : list hash32) (e : error) : Prop :=
  Storage.open (disk_of o g) g = Err e ∨
  ∃ h (store : NodeStore (GameStore D F) K), h ∈ hs ∧ store_holds store (ms g) ∧
    read_chunk store h = Err e.

(** C16: In any state the system reaches, a client that asks the origin for chunks
    of an announced version, in one or several requests and over any path, is
    never told that a chunk is absent: it receives the chunks with the bytes their
    hashes say, in the order asked, all of them unless an I/O operation of the
    origin fails; what it lacks then is reported as failed. *)
Theorem announced_downloads ms0 s0 s g v manifest i hs ready s' r `{!Dial} {T : Type}
    (sink : hash32 → list byte → M T error ()) target p (t : T) :
  sys_inv ms0 s0 → rtc step s0 s → g < 2^64 →
  get_version (cs_store (or_sched (ds_origin s))) g v = Ok (Some manifest) →
  Manifest.decode blake3 manifest = Ok i → (∀ h, h ∈ hs → h ∈ chunk_set i) → lenN hs < 2^32 →
  handle_conn ready true (set_conn (mkConn (request g hs) []) s) = (s', r) →
  connect_peer target = Ok p → (∀ h d u, ∃ u', sink h d u = (u', Ok ())) →
  ∃ k got t' stats,
    fetch_chunks blake3 sink (λ _, Ok (cn_send (ds_conn s'))) target g hs t = (t', Ok stats) ∧
    got.*1 = take k hs ∧ Forall (λ c, blake3 c.2 = c.1) got ∧
    sink_all sink got t = (t', Ok ()) ∧ fs_failed stats = drop k hs ∧
    match r with
    | Ok _ => k = length hs
    | Err e => ∃ ms, io_failure (ds_origin s) ms g hs e
    end.
Proof.
  intros Hinv Hst Hg Hv Hdec Hhs Hlen Hh Hp Hsink.
  destruct (steps_inv _ _ _ Hst Hinv) as (ms & Hi & _). pose proof Hi as [Ho Hadd Hn Han].
  apply get_version_view in Hv. symmetry in Hv. destruct (Han g v manifest Hg Hv) as (i' & Hd' & Hall).
  rewrite Hdec in Hd'. injection Hd' as <-.
  set (s1 := set_conn (mkConn (request g hs) []) s) in *.
  assert (source_ok s1 ms g (ms g)) as Hsrc.
  { unfold source_ok. cbn. destruct (ds_nodes s !! g) as [[|src]|] eqn:Hng; try done. by apply Hn in Hng. }
  destruct (transfer_ok blake3 sink ready true s1 ms g (ms g) hs s' r target p t Hg Hlen Ho Hsrc
    (Hadd g Hg) (origin_short _ _ _ Hg Ho) eq_refl Hh Hp Hsink)
    as (k & ds & t' & stats & Hf & Hds & Hs & _ & Hfail & Hend).
  assert (length (take k hs) = length ds) as Hl by (apply (f_equal length) in Hds; by rewrite !length_fmap in Hds).
  exists k, (zip (take k hs) ds), t', stats. split_and!; [done|apply fst_zip; lia| |done|done|].
  - apply Forall_forall. intros [h d] Hin. apply list_elem_of_lookup in Hin as [j Hj].
    apply lookup_zip_Some in Hj as [Hj1 Hj2]. apply (f_equal (.!! j)) in Hds.
    rewrite !list_lookup_fmap, Hj1, Hj2 in Hds. injection Hds as Hds. by apply (Hadd g Hg) in Hds.
  - destruct r as [[]|e]; [by apply Hend|]. exists ms.
    destruct Hend as [(_ & Hf' & _)|[[Hop _]|(h & Hk & [[Hnone _]|(store & Hst' & Hrd)])]].
    + done.
    + by left.
    + exfalso. apply list_elem_of_lookup_2 in Hk. apply Hhs, Hall in Hk as [d Hd]. congruence.
    + right. exists h, store. split_and!; [by eapply list_elem_of_lookup_2|done..].
Qed.

End system.

(** ** Examples: an upload, a commit and a restart *)

#[local] Existing Instance SchedDb.sched_json.
#[local] Existing Instance SchedDb.sched_json_laws.
#[local] Existing Instance Map_source.
#[local] Existing Instance Map_source_laws.
#[local] Existing Instance Loopback.
#[local] Existing Instance mem_client.

Abbreviation mem_system := (DataState MemDb MemFile (ControlService MemDb) (gmap hash32 (list byte))).
Definition sys0 : mem_system := mkData origin0 ∅ (mkConn [] []).
Definition sys1 : mem_system := set_origin origin1 sys0.
Definition origin2 := (commit_version toy_hash (Some "scheduler"%string) up_commit origin1).1.
Definition sys2 : mem_system := set_origin origin2 sys1.
Definition sys3 : mem_system := mkData (restarted (ds_origin sys2)) ∅ (ds_conn sys2).

Lemma sys0_inv : sys_inv toy_hash (λ _, ∅) sys0.
Proof. apply initial_inv. intros g v. unfold announced, view. cbn. by rewrite omap_empty, lookup_empty. Qed.

Lemma sys3_reached : rtc (step toy_hash st_message "admin" "admin123" "scheduler") sys0 sys3.
Proof.
  apply (rtc_l _ _ sys1); [|apply (rtc_l _ _ sys2); [|apply rtc_once]].
  - apply (step_upload _ _ _ _ _ sys0 up_stream origin1
      (process_upload toy_hash up_stream origin0).1.2 (process_upload toy_hash up_stream origin0).2).
    + intros c [= <-]. split; [reflexivity|exact up_room].
    + unfold origin1. change (ds_origin sys0) with origin0.
      by destruct (process_upload toy_hash up_stream origin0) as [[o acks] r].
  - apply (step_commit _ _ _ _ _ sys1 true up_commit origin2
      (commit_version toy_hash (Some "scheduler"%string) up_commit origin1).2); [reflexivity|].
    exact (surjective_pairing (commit_version toy_hash (Some "scheduler"%string) up_commit origin1)).
  - exact (step_restart _ _ _ _ _ sys2).
Qed.

Lemma sys3_version :
  get_version (cs_store (or_sched (ds_origin sys3))) 7 1 = Ok (Some (Manifest.encode up_index)).
Proof. vm_compute. reflexivity. Qed.

(** The version that was committed before the restart is complete after it. *)
Lemma system_invariant_witness :
  ∃ ms, origin_ok (ds_origin sys3) ms ∧ complete toy_hash (ms 7) (Manifest.encode up_index).
Proof.
  destruct (system_invariant toy_hash st_message "admin" "admin123" "scheduler" (λ _, ∅) sys0 sys3
    sys0_inv sys3_reached) as (ms & Ho & _ & Hall).
  exists ms. split; [exact Ho|]. exact (Hall 7 1 _ eq_refl sys3_version).
Defined.

Definition sys3_reply := handle_conn true true (set_conn (mkConn (request 7 [up_hash]) []) sys3).

Lemma announced_downloads_witness :
  ∃ s' t' stats, sys3_reply = (s', Ok ()) ∧
    fetch_chunks toy_hash dp_sink (λ _, Ok (cn_send (ds_conn s'))) dp_target 7 [up_hash] [] =
      (t', Ok stats) ∧ fs_failed stats = [].
Proof.
  assert (sys3_reply.2 = Ok ()) as Hok by (vm_compute; reflexivity).
  destruct sys3_reply as [s' r] eqn:Hr. cbn [snd] in Hok. subst r. unfold sys3_reply in Hr.
  assert (match Manifest.decode toy_hash (Manifest.encode up_index) with
    | Ok i => bool_decide (up_hash ∈ chunk_set i) = true | Err _ => False end) as Hd
    by (vm_compute; reflexivity).
  destruct (Manifest.decode toy_hash (Manifest.encode up_index)) as [i|e] eqn:Hdec; [|destruct Hd].
  assert (∀ h, h ∈ [up_hash] → h ∈ chunk_set i) as Hin.
  { intros h ->%list_elem_of_singleton. exact (proj1 (bool_decide_eq_true _) Hd). }
  assert (connect_peer dp_target = Ok Direct) as Hconn by reflexivity.
  destruct (announced_downloads toy_hash st_message "admin" "admin123" "scheduler" (λ _, ∅) sys0 sys3
    7 1 (Manifest.encode up_index) i [up_hash] true s' (Ok ()) dp_sink dp_target Direct []
    sys0_inv sys3_reached eq_refl sys3_version Hdec Hin eq_refl Hr Hconn
    (λ h d u, ex_intro _ (u ++ [d]) eq_refl)) as (k & got & t' & stats & Hf & _ & _ & _ & Hfail & Hk).
  exists s', t', stats. split; [done|]. split; [exact Hf|]. rewrite Hfail, Hk. reflexivity.
Defined.
