(* ===== verification/Tools.v ===== *)
(** * Tools: the command line tools (crates/agent/src/bin/sync.rs, fetch.rs and
    seed.rs, [seed] of crates/agent/src/lib.rs, crates/origin/src/bin/inspect.rs)

    What the tools do to a chunk store and what they report.  Endpoints, the
    parsers of their addresses and the file system are interfaces; what is printed
    only is left out, what is reported at the end is the result. *)

From S2P Require Import Prelude Bytes Text FileIO Redb Manifest Storage DataPath.

(** ** Hashes as text *)

(** How a tool ends early: an error, or a panic. *)
Inductive Fault := Failed (e : error) | Panicked.

(** [for (i, byte) in out.iter_mut().enumerate()], from the [i]-th byte. *)
Fixpoint hex_loop (bad : error) (text : string) (i n : nat) : result Fault (list byte) :=
  match n with
  | O => mret []
  | S n =>
    part ← ok_or Panicked (str_slice text (i * 2) (i * 2 + 2));
    byte ← ok_or (Failed bad) (u8_from_str_radix16 part);
    rest ← hex_loop bad text (S i) n;
    mret (byte_of byte :: rest)
  end.
Definition hex_bytes (bad : error) (text : string) : result Fault hash32 :=
  out ← hex_loop bad text 0 HASH_LEN;
  ok_or Panicked (hash_of out).

(** inspect.rs *)
Definition parse_hash (text : string) : result Fault hash32 :=
  if negb (Nat.eqb (String.length text) 64) then Err (Failed [("哈希长度非法: " ++ text)%string]) else
  hex_bytes [("哈希含非十六进制字符: " ++ text)%string; "invalid digit found in string"%string] text.

(** fetch.rs *)
Definition hex_decode (text : string) : result Fault hash32 :=
  if negb (Nat.eqb (String.length text) 64) then Err (Failed ["哈希必须是 64 位十六进制"%string]) else
  hex_bytes ["invalid digit found in string"%string] text.

(** ** The network *)

(** [EndpointAddr] *)
Inductive ToolTarget := ByRelay (id url : string) | ByAddr (id socket : string).

(** The parsers of iroh and std, a bound endpoint, a connection with the kinds of
    its paths over time, and one exchange on a stream. *)
Class ToolNet := {
  tn_endpoint_id : string → result error string;
  tn_relay_url : string → result error string;
  tn_socket_addr : string → result error string;
  tn_bind : result error ();
  tn_connect : ToolTarget → result error ();
  tn_direct : nat → bool;
  tn_late : nat → bool;
  tn_exchange : list byte → result error (list byte)
}.

Section network.
Context `{!ToolNet}.

Definition parse_number (text : string) : result error N :=
  ok_or ["invalid digit found in string"%string] (parse_u64 text).

(** [if arg.starts_with("https://") { Some(arg) } else { args.get(n) }] and the
    target it gives. *)
Definition relay_arg (arg : string) (more : option string) : option string :=
  if strip_prefix "https://" arg then Some arg else more.
Definition tool_target (id arg : string) (relay : option string) : result error ToolTarget :=
  match relay with
  | Some url =>
    relay ← tn_relay_url url;
    mret (ByRelay id relay)
  | None =>
    addr ← tn_socket_addr arg;
    mret (ByAddr id addr)
  end.

(** ** fetch.rs *)

(** The loop that waits for a direct path, turn [n] on. *)
Fixpoint wait_direct (n fuel : nat) : option (result error ()) :=
  match fuel with
  | O => None
  | S fuel =>
    if tn_direct n then Some (Ok ()) else
    if tn_late n then Some (bail "等待直连路径超时（20 秒）") else
    wait_direct (S n) fuel
  end.

(** What arrives for one chunk. *)
Definition read_block : cursor (list byte) :=
  len ← map_err_m (cons "读块长度失败"%string) (read_be 4);
  map_err_m (cons "读块数据失败"%string) (read_exact (N.to_nat len)).

(** From the bound endpoint on; [None] when the fuel of the wait runs out. *)
Definition fetch_run (blake3 : list byte → hash32) (fuel : nat) (game_id : N) (hash : hash32)
    (target : ToolTarget) : option (result error (list byte)) :=
  match (tn_bind;; with_context "连接失败" (tn_connect target)) with
  | Err e => Some (Err e)
  | Ok _ =>
    direct ← wait_direct 0 fuel;
    Some (
      direct;;
      reply ← tn_exchange (request game_id [hash]);
      data ← (read_block reply).2;
      if decide (blake3 data ≠ hash) then bail "块哈希校验失败" else mret data)
  end.

Definition fetch_args (id arg game hash : string) (more external : option string) :
    result Fault (N * hash32 * ToolTarget) :=
  endpoint_id ← map_err Failed (tn_endpoint_id id);
  game_id ← map_err Failed (parse_number game);
  hash ← hex_decode hash;
  (match external with
   | Some s => map_err Failed (tn_socket_addr s;; mret ())
   | None => mret ()
   end);;
  target ← map_err Failed (tool_target endpoint_id arg (relay_arg arg more));
  mret (game_id, hash, target).

Definition fetch_usage : string :=
  "用法: fetch <端点ID> <ip:port|relay_url> <game_id> <块哈希hex> [relay_url] [本端通告地址]".

Definition fetch_main (blake3 : list byte → hash32) (fuel : nat) (args : list string) :
    option (result Fault (list byte)) :=
  let go id arg game hash more external :=
    match fetch_args id arg game hash more external with
    | Err e => Some (Err e)
    | Ok (game_id, hash, target) =>
      r ← fetch_run blake3 fuel game_id hash target;
      Some (map_err Failed r)
    end in
  match args with
  | [_; id; arg; game; hash] => go id arg game hash None None
  | [_; id; arg; game; hash; relay] => go id arg game hash (Some relay) None
  | [_; id; arg; game; hash; relay; external] => go id arg game hash (Some relay) (Some external)
  | _ => Some (Err (Failed [fetch_usage]))
  end.

(** ** sync.rs *)

Section store.
Context (blake3 : list byte → hash32).
Context {D F : Type} `{!RedbOps D, !FileOps F, !CompioOps F, !OpenOps D F, !SetIter}.
Abbreviation storeM := (M (GameStore D F) error).
Abbreviation dir := (option D * option F)%type.

(** [!store.contains(hash).unwrap_or(false)] *)
Definition lacks (s : GameStore D F) (hash : hash32) : bool :=
  negb (default false (ok (contains s hash))).

Definition sync_missing (s : GameStore D F) (index : GameIndex) : list hash32 :=
  sort_hashes (filter (λ h, lacks s h) (set_iter (chunk_set index))).

(** The receiving loop: the counts of the chunks that came and that did not. *)
Fixpoint sync_loop (hashes : list hash32) (downloaded failed : N) :
    M (list byte * GameStore D F) error (N * N) :=
  match hashes with
  | [] => mret (downloaded, failed)
  | hash :: hashes =>
    len ← attempt (zoom fst (λ r s, (r, s.2)) (read_be 4 : cursor N));
    match len : result error N with
    | Err _ => sync_loop hashes downloaded (add_u64 failed 1)
    | Ok len =>
      data ← attempt (zoom fst (λ r s, (r, s.2)) (read_exact (N.to_nat len)));
      match data : result error (list byte) with
      | Err _ => sync_loop hashes downloaded (add_u64 failed 1)
      | Ok data =>
        if decide (blake3 data ≠ hash) then sync_loop hashes downloaded (add_u64 failed 1) else
        zoom snd (λ t s, (s.1, t)) (append_chunk hash data);;
        sync_loop hashes (add_u64 downloaded 1) failed
      end
    end
  end.

(** From the open store on. *)
Definition sync_store (index : GameIndex) (game_id : N) (target : ToolTarget) : storeM () :=
  s ← get;
  let missing := sync_missing s index in
  if bool_decide (missing = []) then mret () else
  lift (with_context "连接失败" (tn_connect target));;
  reply ← lift (tn_exchange (request game_id missing));
  counts ← zoom (λ s, (reply, s)) (λ t _, t.2) (sync_loop missing 0 0);
  if 0 <? counts.2 then throw ["存在失败块"%string] else mret ().

Definition sync_args (read_file : string → result error (list byte)) (game path id arg : string)
    (more : option string) : result error (N * GameIndex * ToolTarget) :=
  game_id ← parse_number game;
  manifest_bytes ← with_context "读取版本清单失败" (read_file path);
  index ← with_context "解析版本清单失败" (Manifest.decode blake3 manifest_bytes);
  endpoint_id ← tn_endpoint_id id;
  target ← tool_target endpoint_id arg (relay_arg arg more);
  tn_bind;;
  mret (game_id, index, target).

Definition sync_usage : string :=
  "用法: sync <数据目录> <game_id> <manifest路径> <端点ID> <ip:port|relay_url> [relay_url]".

(** The store after the run, if it was opened; [dirs] is the data directory. *)
Definition sync_main (read_file : string → result error (list byte)) (dirs : string → N → dir)
    (args : list string) : option (GameStore D F) * result error () :=
  let go data_dir game path id arg more :=
    match sync_args read_file game path id arg more with
    | Err e => (None, Err e)
    | Ok (game_id, index, target) =>
      match open (dirs data_dir game_id) game_id with
      | Err e => (None, Err e)
      | Ok s => let '(s', r) := sync_store index game_id target s in (Some s', r)
      end
    end in
  match args with
  | [_; data_dir; game; path; id; arg] => go data_dir game path id arg None
  | [_; data_dir; game; path; id; arg; relay] => go data_dir game path id arg (Some relay)
  | _ => (None, Err [sync_usage])
  end.

(** ** seed.rs and [seed] of lib.rs *)

Fixpoint zeros (n : nat) : string :=
  match n with O => EmptyString | S n => String "0" (zeros n) end.
(** [{i:04}] *)
Definition pad4 (i : N) : string := (zeros (4 - String.length (dec i)) ++ dec i)%string.
(** [.repeat(64 * 1024)] *)
Definition seed_data (times : N) (game_id i : N) : list byte :=
  N.iter times (app (str_bytes ("blazenet-seed-" ++ dec game_id ++ "-" ++ pad4 i))) [].
Definition SEED_TIMES : N := 64 * 1024.

(** The loop from [i] on; [n] blocks are left. *)
Fixpoint seed_loop (times : N) (game_id i : N) (n : nat) : storeM () :=
  match n with
  | O => mret ()
  | S n =>
    let data := seed_data times game_id i in
    append_chunk (blake3 data) data;;
    seed_loop times game_id (i + 1) n
  end.
Definition seed (dirs : string → N → dir) (data_dir : string) (game_id chunk_count : N) :
    option (GameStore D F) * result error () :=
  match open (dirs data_dir game_id) game_id with
  | Err e => (None, Err e)
  | Ok s => let '(s', r) := seed_loop SEED_TIMES game_id 0 (N.to_nat chunk_count) s in (Some s', r)
  end.

(** seed.rs: its loop is that of [seed], printing every hash. *)
Definition seed_main (dirs : string → N → dir) (args : list string) :
    option (GameStore D F) * result error () :=
  match args with
  | [_; data_dir; game; count] =>
    match (game_id ← parse_number game; count ← parse_number count; mret (game_id, count)) with
    | Err e => (None, Err e)
    | Ok (game_id, chunk_count) => seed dirs data_dir game_id chunk_count
    end
  | _ => (None, Err ["用法: seed <数据目录> <game_id> <块数>"%string])
  end.

(** ** inspect.rs *)

(** One index entry: passed or not. *)
Definition inspect_entry (s : GameStore D F) (key : string) : result Fault bool :=
  text ← ok_or Panicked (str_slice key 16 (String.length key));
  match parse_hash text with
  | Err Panicked => Err Panicked
  | Err (Failed _) => mret false
  | Ok hash =>
    mret match read_chunk s hash with
         | Ok (Some data) => bool_decide (blake3 data = hash)
         | _ => false
         end
  end.
Fixpoint inspect_loop (s : GameStore D F) (keys : list string) (passed bad : N) : result Fault (N * N) :=
  match keys with
  | [] => mret (passed, bad)
  | key :: keys =>
    b ← inspect_entry s key;
    if (b : bool) then inspect_loop s keys (add_u64 passed 1) bad
    else inspect_loop s keys passed (add_u64 bad 1)
  end.

(** What is reported of a published version. *)
Record VersionRow := mkRow {
  vr_version : N; vr_files : N; vr_chunks : gset hash32; vr_missing : list hash32; vr_hash_ok : bool
}.

(** [name.strip_suffix(s)] *)
Definition strip_suffix (suffix name : string) : option string :=
  String.rev <$> strip_prefix (String.rev suffix) (String.rev name).

Definition inspect_version (s : GameStore D F) (name : string) (content : result error (list byte)) :
    result error (option VersionRow) :=
  match strip_suffix ".gameindex" name with
  | None => mret None
  | Some ver_text =>
    version ← parse_number ver_text;
    bytes ← with_context "读取版本清单失败" content;
    index ← with_context "解析版本清单失败" (Manifest.decode blake3 bytes);
    let chunks := chunk_set index in
    let missing := filter (λ h, lacks s h) (set_iter chunks) in
    let hash_ok := bool_decide (gi_manifest_hash index = blake3 (take (length bytes - 32) bytes)) in
    mret (Some (mkRow version (lenN (gi_files index)) chunks missing hash_ok))
  end.

Fixpoint inspect_versions (s : GameStore D F)
    (published : list (result error (string * result error (list byte)))) : result error (list VersionRow) :=
  match published with
  | [] => mret []
  | entry :: published =>
    e ← with_context "读取 published 目录项失败" entry;
    row ← inspect_version s e.1 e.2;
    rows ← inspect_versions s published;
    mret (option_list row ++ rows)
  end.

(** The chunks two versions share, and those of one of them only. *)
Definition shared_counts (rows : list VersionRow) : option (N * N * N) :=
  match rows with
  | r1 :: r2 :: _ =>
    let card (X : gset hash32) := N.of_nat (base.size X) in
    Some (card (vr_chunks r1 ∩ vr_chunks r2), card (vr_chunks r1 ∖ vr_chunks r2),
          card (vr_chunks r2 ∖ vr_chunks r1))
  | _ => None
  end.

Record Inspection := mkInspection {
  ip_size : N; ip_entries : N; ip_passed : N; ip_bad : N;
  ip_versions : list VersionRow; ip_shared : option (N * N * N)
}.

(** [published] is the directory of manifests, [None] if there is none. *)
Definition inspect (files : dir) (game_id : N)
    (published : option (result error (list (result error (string * result error (list byte)))))) :
    result Fault Inspection :=
  s ← map_err Failed (open files game_id);
  es ← map_err Failed (entries s);
  counts ← inspect_loop s (map (λ e : string * N * N, e.1.1) es) 0 0;
  rows ← match published with
         | None => mret []
         | Some listing => map_err Failed (
             listing ← with_context "读取 published 目录失败" listing;
             inspect_versions s listing)
         end;
  mret (mkInspection (size s) (lenN es) counts.1 counts.2 rows (shared_counts rows)).

Definition inspect_main (dirs : string → N → dir)
    (published : string → N → option (result error (list (result error (string * result error (list byte))))))
    (args : list string) : result Fault Inspection :=
  match args with
  | [_; data_dir; game] =>
    game_id ← map_err Failed (with_context "game_id 必须是数字" (parse_number game));
    inspect (dirs data_dir game_id) game_id (published data_dir game_id)
  | _ => Err (Failed ["用法: inspect <数据目录> <game_id>"%string])
  end.

End store.
End network.
