(* ===== verification/ToolsSpec.v ===== *)
(** * ToolsSpec: what the command line tools guarantee

    Hashes survive printing and parsing; a synchronisation that returns leaves a
    store that holds the whole version, and any synchronisation stores verified
    chunks only; the inspection finds exactly the broken chunks; a fetch waits for a
    bounded number of turns. *)

From S2P Require Import Prelude Bytes Text FileIO Redb Manifest Storage StorageSpec.
From S2P Require Import StorageCompact SchedControl Upload UploadSpec DataPath DataPathSpec Tools.

(** ** Hashes as text *)

Lemma str_bytes_app a b : str_bytes (a ++ b) = str_bytes a ++ str_bytes b.
Proof. induction a as [|c a IH]; [done|]. exact (f_equal (cons (byte_of_ascii c)) IH). Qed.

Lemma string_app_nil_r (a : string) : (a ++ "")%string = a.
Proof. induction a as [|c a IH]; [done|]. exact (f_equal (String c) IH). Qed.

Lemma length_str_bytes s : length (str_bytes s) = String.length s.
Proof. induction s as [|c s IH]; [done|]. exact (f_equal S IH). Qed.

(** No byte of the text continues a character. *)
Definition plain (s : string) : Prop := Forall (λ b, utf8_cont b = false) (str_bytes s).

Lemma plain_app a b : plain (a ++ b) ↔ plain a ∧ plain b.
Proof. unfold plain. by rewrite str_bytes_app, Forall_app. Qed.

Lemma hex_byte_plain b : plain (hex [b]).
Proof. unfold plain. destruct b; vm_compute; repeat constructor. Qed.

Lemma hex_plain bs : plain (hex bs).
Proof.
  induction bs as [|b bs IH]; [constructor|].
  change (b :: bs) with ([b] ++ bs). rewrite hex_app. apply plain_app. split; [apply hex_byte_plain|done].
Qed.

Lemma plain_boundary s i : plain s → (i ≤ String.length s)%nat → char_boundary (str_bytes s) i = true.
Proof.
  intros Hs Hi. unfold char_boundary. destruct (str_bytes s !! i) as [b|] eqn:Hb.
  - unfold plain in Hs. rewrite Forall_lookup in Hs. by rewrite (Hs _ _ Hb).
  - apply lookup_ge_None in Hb. rewrite length_str_bytes in *. apply Nat.eqb_eq. lia.
Qed.

Lemma str_slice_mid a b c :
  plain (a ++ b ++ c) →
  str_slice (a ++ b ++ c) (String.length a) (String.length a + String.length b) = Some b.
Proof.
  intros Hp. assert (String.length (a ++ b ++ c) = String.length a + String.length b + String.length c)%nat
    as Hl by (rewrite !string_length_app; lia).
  unfold str_slice. rewrite !plain_boundary by (done || lia). rewrite (proj2 (Nat.leb_le _ _)) by lia.
  cbn [andb]. f_equal. rewrite !str_bytes_app, <- length_str_bytes, drop_app_length.
  replace (length (str_bytes a) + String.length b - length (str_bytes a))%nat with (length (str_bytes b))
    by (rewrite length_str_bytes; lia).
  by rewrite take_app_length, bytes_str_bytes.
Qed.

Lemma hex_loop_hex bad pre bs :
  hex_loop bad (hex (pre ++ bs)) (length pre) (length bs) = Ok bs.
Proof.
  revert pre. induction bs as [|b bs IH]; intros pre; [done|]. cbn [hex_loop length].
  assert (str_slice (hex (pre ++ b :: bs)) (length pre * 2) (length pre * 2 + 2) = Some (hex [b])) as ->.
  { change (b :: bs) with ([b] ++ bs). rewrite !hex_app.
    assert (plain (hex pre ++ hex [b] ++ hex bs)) as Hp by (rewrite <- !hex_app; apply hex_plain).
    apply str_slice_mid in Hp. rewrite !hex_length, Nat.mul_comm in Hp. exact Hp. }
  specialize (IH (pre ++ [b])). rewrite <- app_assoc in IH. cbn [app] in IH.
  rewrite length_app, Nat.add_comm in IH. cbn [length plus] in IH.
  cbn [mbind result_bind ok_or]. rewrite from_str_radix16_hex. cbn [mbind result_bind ok_or].
  rewrite IH. cbn. do 2 f_equal. destruct b; reflexivity.
Qed.

Lemma hex_bytes_hex bad h : hex_bytes bad (hex (hash_bytes h)) = Ok h.
Proof.
  unfold hex_bytes. pose proof (hex_loop_hex bad [] (hash_bytes h)) as Hl.
  rewrite hash_bytes_length in Hl. cbn [app length] in Hl. rewrite Hl. cbn. by rewrite hash_of_bytes.
Qed.

Lemma hash_text_length h : String.length (hex (hash_bytes h)) = 64%nat.
Proof. by rewrite hex_length, hash_bytes_length. Qed.

Lemma parse_hash_hex h : parse_hash (hex (hash_bytes h)) = Ok h.
Proof. unfold parse_hash. rewrite hash_text_length. apply hex_bytes_hex. Qed.

(** The text of a hash, as it is printed everywhere in the program, is read
    back by the parsers of inspect and fetch. *)
Theorem parse_hash_roundtrip h :
  parse_hash (hex (hash_bytes h)) = Ok h ∧ hex_decode (hex (hash_bytes h)) = Ok h.
Proof.
  split; [apply parse_hash_hex|]. unfold hex_decode. rewrite hash_text_length. apply hex_bytes_hex.
Qed.

(** A plus sign is taken for a zero. *)
Example parse_hash_plus :
  parse_hash ("+1" ++ hex (replicate 31 x00)) = parse_hash ("01" ++ hex (replicate 31 x00)) ∧
  is_ok (parse_hash ("+1" ++ hex (replicate 31 x00))).
Proof. vm_compute. done. Qed.

(** ** Waiting for a direct path *)

Section wait.
Context `{!ToolNet}.

Lemma wait_direct_ends n fuel :
  (∀ k, (n + fuel ≤ S k)%nat → tn_late k = true) → (0 < fuel)%nat →
  ∃ r, wait_direct n fuel = Some r ∧ (is_ok r → ∃ k, (n ≤ k < n + fuel)%nat ∧ tn_direct k = true).
Proof.
  revert n. induction fuel as [|fuel IH]; intros n Hlate Hf; [lia|]. cbn.
  destruct (tn_direct n) eqn:Hd; [eexists; split; [done|]; intros _; exists n; split; [lia|done]|].
  destruct (tn_late n) eqn:Hl; [by eexists|].
  destruct fuel as [|fuel]; [rewrite Hlate in Hl by lia; done|].
  destruct (IH (S n)) as (r & Hr & Hk); [intros k Hk; apply Hlate; lia|lia|].
  exists r. split; [done|]. intros (k & Hk' & Hd')%Hk. exists k. split; [lia|done].
Qed.

(** The clock of the wait: it does not run backwards, every turn sleeps for at
    least 500 ms, and the deadline is 20 s after the start. *)
Definition wait_clock (clock : nat → N) : Prop :=
  (∀ n, clock n + 500 ≤ clock (S n)) ∧ ∀ n, tn_late n = bool_decide (clock 0%nat + 20000 ≤ clock n).

Lemma wait_clock_late clock n : wait_clock clock → (40 ≤ n)%nat → tn_late n = true.
Proof.
  intros [Hstep Hlate] Hn. rewrite Hlate. apply bool_decide_eq_true.
  assert (∀ k, clock 0%nat + 500 * N.of_nat k ≤ clock k) as Hk.
  { induction k as [|k IH]; [lia|]. specialize (Hstep k). lia. }
  specialize (Hk n). lia.
Qed.

(** C38: A fetch always ends: 41 turns of its wait are enough, whatever the paths
    do.  It returns data only over a connection that had a direct path, and only
    bytes whose hash is the one asked for. *)
Theorem fetch_terminates blake3 clock game_id hash target :
  wait_clock clock →
  ∃ r, fetch_run blake3 41 game_id hash target = Some r ∧
    ∀ data, r = Ok data → blake3 data = hash ∧ ∃ k, (k ≤ 40)%nat ∧ tn_direct k = true.
Proof.
  intros Hc. unfold fetch_run. destruct (tn_bind;; _) as [[]|e]; [|by eexists].
  destruct (wait_direct_ends 0 41) as (r & -> & Hd); [|lia|].
  { intros k Hk. apply (wait_clock_late clock); [done|lia]. }
  eexists. split; [done|]. intros data Hr.
  apply bind_Ok_inv in Hr as ([] & Hr0 & Hr). rewrite Hr0 in Hd. destruct (Hd I) as (k & Hk & Hdk).
  apply bind_Ok_inv in Hr as (reply & _ & Hr). apply bind_Ok_inv in Hr as (d & _ & Hr).
  destruct (decide (blake3 d ≠ hash)) as [|Heq]; [done|]. injection Hr as <-. apply dec_stable in Heq.
  split; [done|]. exists k. split; [lia|done].
Qed.

End wait.

(** ** Synchronising a version *)

Lemma chunk_list_small i : wf_files (gi_files i) → lenN (chunk_list i) < 2^64.
Proof.
  intros [Hn Hall]. unfold chunk_list.
  assert (lenN (flat_map (λ f, map ck_hash (fe_chunks f)) (gi_files i)) ≤
    lenN (gi_files i) * (2^32 - 1)) as Hle; [|nia].
  clear Hn. induction Hall as [|f fs (_ & _ & Hf & _) _ IH]; [done|].
  cbn [flat_map]. rewrite lenN_app, lenN_cons. unfold lenN at 1. rewrite length_map. fold (lenN (fe_chunks f)). lia.
Qed.

Section sync.
Context (blake3 : list byte → hash32) `{!ToolNet}.
Context {D F : Type} `{RedbLaws D, FileLaws F, !CompioOps F, !OpenOps D F, SetIterLaws}.
Implicit Types (s : GameStore D F) (m : gmap hash32 (list byte)).

Lemma sync_missing_perm s index :
  sync_missing s index ≡ₚ filter (λ h, lacks s h) (set_iter (chunk_set index)).
Proof. apply sort_hashes_perm. Qed.

Lemma elem_of_sync_missing s index h :
  h ∈ sync_missing s index ↔ h ∈ chunk_set index ∧ lacks s h.
Proof. rewrite sync_missing_perm, list_elem_of_filter, elem_of_set_iter. tauto. Qed.

Lemma lacks_false s m h : represents s m → ¬ lacks s h → is_Some (m !! h).
Proof.
  intros Hr Hl. unfold lacks in Hl. destruct (contains s h) as [b|e] eqn:Hc; [|by destruct Hl].
  apply (contains_represents _ _ _ _ Hr) in Hc as ->. cbn in Hl. case_bool_decide; [done|].
  by destruct Hl.
Qed.

Lemma sync_missing_short bytes s index :
  Manifest.decode blake3 bytes = Ok index → lenN (sync_missing s index) < 2^64.
Proof.
  intros Hd. apply decode_Ok_inv in Hd as (_ & _ & _ & _ & _ & _ & Hwf & _).
  pose proof (chunk_list_small _ Hwf) as Hl. unfold lenN in *.
  assert (length (sync_missing s index) ≤ length (chunk_list index))%nat; [|lia].
  apply submseteq_length, NoDup_submseteq.
  - rewrite sync_missing_perm. apply NoDup_filter. rewrite set_iter_perm. apply NoDup_elements.
  - intros h [Hh _]%elem_of_sync_missing. by apply elem_of_chunk_set.
Qed.

(** One turn of the loop. *)
Lemma sync_loop_turn h hs dl fl rs s :
  (∃ rs', (length rs' ≤ length rs)%nat ∧
    sync_loop blake3 (h :: hs) dl fl (rs, s) = sync_loop blake3 hs dl (add_u64 fl 1) (rs', s)) ∨
  ∃ rs' data, (length rs' + length data ≤ length rs)%nat ∧ blake3 data = h ∧
    sync_loop blake3 (h :: hs) dl fl (rs, s) =
      match append_chunk h data s with
      | (s', Ok _) => sync_loop blake3 hs (add_u64 dl 1) fl (rs', s')
      | (s', Err e) => ((rs', s'), Err e)
      end.
Proof.
  cbn [sync_loop]. unfold attempt, zoom, mbind, M_bind. cbn [fst snd].
  assert (∀ A (p : cursor A) bs, (length (p bs).1 ≤ length bs)%nat → ∀ r, p bs = r → (length r.1 ≤ length bs)%nat)
    as Hshort by (by intros A p bs Hp r <-).
  assert (∀ k bs, (length (read_be k bs).1 ≤ length bs)%nat) as Hbe.
  { intros k bs. unfold read_be, mbind, M_bind, read_exact. destruct (Nat.leb k _); cbn; [rewrite length_drop|]; lia. }
  pose proof (Hbe 4%nat rs) as Hrs.
  destruct (read_be 4 rs) as [rs1 [len|e]]; cbn [fst snd] in *; [|left; by exists rs1].
  destruct (read_exact (N.to_nat len) rs1) as [rs2 [data|e]] eqn:Hd; cbn [fst snd].
  - apply read_exact_inv in Hd as [Hl ->]. rewrite length_app in Hrs.
    destruct (decide (blake3 data ≠ h)) as [|Heq]; [left; exists rs2; split; [lia|done]|].
    apply dec_stable in Heq. right. exists rs2, data. split_and!; [lia|done|].
    cbn [fst snd]. by destruct (append_chunk h data s) as [s' [l|e]].
  - left. exists rs2. split; [|done]. unfold read_exact in Hd. destruct (Nat.leb _ _); [done|].
    injection Hd as <- _. cbn. lia.
Qed.

(** What a list of transfers leaves behind. *)
Definition synced m (hs : list hash32) m' : Prop :=
  m ⊆ m' ∧ (addressed blake3 m → addressed blake3 m') ∧
  ∀ h, is_Some (m' !! h) → is_Some (m !! h) ∨ h ∈ hs.

Lemma synced_refl m hs : synced m hs m.
Proof. split_and!; [done|done|by left]. Qed.

Lemma synced_add m h hs data m' :
  blake3 data = h → synced (add_chunk m (h, data)) hs m' → synced m (h :: hs) m'.
Proof.
  intros Hh (Hsub & Hadd & Hdom). split_and!.
  - etrans; [apply add_chunk_mono|done].
  - intros Hm. apply Hadd. apply (add_chunks_addressed blake3 m [(h, data)] Hm). by repeat constructor.
  - intros h' [Hh'|Hin]%Hdom; [|right; by right]. unfold add_chunk in Hh'. cbn in Hh'.
    destruct (m !! h) eqn:Hmh; [by left|]. destruct (decide (h' = h)) as [->|Hne]; [right; left|left].
    by rewrite lookup_insert_ne in Hh'.
Qed.

Lemma synced_skip m h hs m' : synced m hs m' → synced m (h :: hs) m'.
Proof. intros (? & ? & Hd). split_and!; [done|done|]. intros h' [?|?]%Hd; [by left|right; by right]. Qed.

Lemma sync_loop_ok hs dl fl rs s m rs' s' r :
  represents s m → gs_size s + lenN rs < 2^32 → fl + lenN hs < 2^64 →
  sync_loop blake3 hs dl fl (rs, s) = ((rs', s'), r) →
  ∃ m', represents s' m' ∧ synced m hs m' ∧
    ∀ dl' fl', r = Ok (dl', fl') → fl ≤ fl' ∧ (fl' = fl → ∀ h, h ∈ hs → is_Some (m' !! h)).
Proof.
  revert dl fl rs s m. induction hs as [|h hs IH]; intros dl fl rs s m Hr Hb Hf Hl.
  { injection Hl as <- <- <-. exists m. split_and!; [done|apply synced_refl|].
    intros dl' fl' [= <- <-]. split; [done|]. by intros _ h ?%elem_of_nil. }
  rewrite lenN_cons in Hf. unfold lenN in Hb.
  destruct (sync_loop_turn h hs dl fl rs s) as [(rs1 & Hrs & Heq)|(rs1 & data & Hrs & Hh & Heq)]; rewrite Heq in Hl.
  - apply (IH _ _ _ _ m) in Hl as (m' & Hr' & Hsy & Hres); [|done|unfold lenN; lia|rewrite add_u64_small; lia].
    exists m'. split_and!; [done|by apply synced_skip|]. intros dl' fl' Hok.
    destruct (Hres _ _ Hok) as [Hle _]. rewrite add_u64_small in Hle by lia. split; [lia|]. intros ->. lia.
  - destruct (append_chunk h data s) as [s1 ra] eqn:Ha.
    assert (gs_size s + lenN data < 2^32) as Hroom by (unfold lenN; lia).
    pose proof (append_chunk_frame _ _ _ _ _ _ Hr Hroom Ha) as [Hsz _].
    apply (append_chunk_refines _ _ _ _ _ _ Hr Hroom) in Ha. destruct ra as [l|e].
    + destruct Ha as [Hr1 _]. apply (IH _ _ _ _ (add_chunk m (h, data))) in Hl as (m' & Hr' & Hsy & Hres);
        [|done|unfold lenN in *; lia|lia].
      exists m'. split_and!; [done|by eapply synced_add|]. intros dl' fl' Hok.
      destruct (Hres _ _ Hok) as [Hle Hall]. split; [done|]. intros Hfl h' [->|Hh']%elem_of_cons; [|by apply Hall].
      destruct Hsy as (Hsub & _). destruct (add_chunk_lookup m h data) as [d Hd]. exists d. by eapply lookup_weaken.
    + injection Hl as <- <- <-. exists m. split_and!; [done|apply synced_refl|done].
Qed.

(** C19: Whatever arrives and whatever fails, a synchronisation loses no chunk of
    the store, adds only chunks of the version, each under its hash; and when it
    returns the store holds every chunk of the version. *)
Theorem sync_spec bytes index game_id target s m s' r :
  Manifest.decode blake3 bytes = Ok index → represents s m →
  (∀ req reply, tn_exchange req = Ok reply → gs_size s + lenN reply < 2^32) →
  sync_store blake3 index game_id target s = (s', r) →
  ∃ m', represents s' m' ∧ m ⊆ m' ∧ (addressed blake3 m → addressed blake3 m') ∧
    (∀ h, is_Some (m' !! h) → is_Some (m !! h) ∨ h ∈ chunk_set index) ∧
    (is_ok r → ∀ h, h ∈ chunk_set index → is_Some (m' !! h)).
Proof.
  intros Hdec Hr Hroom Hs. unfold sync_store in Hs. rewrite (M_bind_ok get _ s s s) in Hs by done.
  pose proof (sync_missing_short bytes s index Hdec) as Hshort. cbv zeta in Hs.
  set (missing := sync_missing s index) in *.
  assert (∀ m', m ⊆ m' → (∀ h, h ∈ missing → is_Some (m' !! h)) → ∀ h, h ∈ chunk_set index → is_Some (m' !! h))
    as Hcover.
  { intros m' Hsub Hall h Hh. destruct (decide (lacks s h)) as [Hl|Hl].
    - apply Hall, elem_of_sync_missing. by split.
    - apply (lacks_false _ m) in Hl as [d Hd]; [|done]. exists d. by eapply lookup_weaken. }
  assert (s' = s → (is_ok r → missing = []) → ∃ m', represents s' m' ∧ m ⊆ m' ∧
    (addressed blake3 m → addressed blake3 m') ∧
    (∀ h, is_Some (m' !! h) → is_Some (m !! h) ∨ h ∈ chunk_set index) ∧
    (is_ok r → ∀ h, h ∈ chunk_set index → is_Some (m' !! h))) as Hsame.
  { intros -> Hok. exists m. split_and!; [done..|by left|]. intros Hrok. apply Hcover; [done|].
    rewrite (Hok Hrok). by intros h ?%elem_of_nil. }
  case_bool_decide as Hmis; [injection Hs as <- <-; by apply Hsame|].
  m_step Hs as s1 [] e Hc; unfold lift in Hc; injection Hc as <- Hc; [|by apply Hsame; [|intros []]].
  m_step Hs as s1 reply e He; unfold lift in He; injection He as <- He; [|by apply Hsame; [|intros []]].
  unfold zoom, mbind, M_bind in Hs. destruct (sync_loop blake3 missing 0 0 (reply, s)) as [[rs s1] rl] eqn:Hl.
  cbn [snd] in Hs. apply (sync_loop_ok _ _ _ _ _ m) in Hl as (m' & Hr' & (Hsub & Hadd & Hdom) & Hres);
    [|done|by eapply Hroom|lia].
  assert (s' = s1) as ->.
  { destruct rl as [[dl fl]|e]; [|by injection Hs as <- _]. cbn [snd] in Hs. by destruct (0 <? fl); injection Hs as <- _. }
  exists m'. split_and!; [done..| |].
  - intros h [?|Hh]%Hdom; [by left|right]. by apply elem_of_sync_missing in Hh as [? _].
  - intros Hok. apply Hcover; [done|]. destruct rl as [[dl fl]|e]; [|injection Hs as <-; by destruct Hok].
    cbn [snd] in Hs. destruct (N.ltb_spec 0 fl); [injection Hs as <-; by destruct Hok|].
    by apply (Hres dl fl); [|lia].
Qed.

(** ** Synchronising from an origin *)

Lemma sync_loop_honest cs dl fl s m :
  RedbHealthy D → healthy s → represents s m →
  Forall (λ c : hash32 * list byte, blake3 c.2 = c.1 ∧ lenN c.2 < 2^32) cs →
  gs_size s + lenN (concat (map (frame ∘ snd) cs)) < 2^32 →
  ∃ s' dl', sync_loop blake3 cs.*1 dl fl (concat (map (frame ∘ snd) cs), s) = (([], s'), Ok (dl', fl)).
Proof.
  intros Hlaws. revert dl s m. induction cs as [|[h data] cs IH]; intros dl s m Hs Hr Hall Hb; [by eexists _, _|].
  apply Forall_cons in Hall as [[Hh Hlen] Hall]. cbn [fst snd] in Hh, Hlen.
  cbn [fmap list_fmap fst snd map concat compose sync_loop] in *.
  unfold attempt, zoom, mbind, M_bind. cbn [fst snd].
  assert (lenN (frame data) = 4 + lenN data) as Hfr.
  { unfold frame. rewrite lenN_app. unfold lenN at 1. by rewrite be_encode_length. }
  rewrite lenN_app, Hfr in Hb. unfold frame at 1. rewrite as_u32_small by done.
  rewrite <- !(assoc_L app), read_be_app by done. cbn [fst snd].
  rewrite read_exact_app by (unfold lenN; lia). cbn [fst snd]. rewrite decide_False by (by intros []).
  destruct (append_chunk_healthy s m h data Hr Hs) as (s1 & l & Ha & Hs1). cbn [fst snd]. rewrite Ha. cbn [fst snd].
  assert (gs_size s + lenN data < 2^32) as Hroom by lia.
  pose proof (append_chunk_frame _ _ _ _ _ _ Hr Hroom Ha) as [Hsz _].
  apply (append_chunk_refines _ _ _ _ _ _ Hr Hroom) in Ha as [Hr1 _].
  eapply IH; [exact Hs1|exact Hr1|done|lia].
Qed.

Context {D2 F2 C K : Type} `{RedbLaws D2, FileLaws F2, !CompioOps F2, !OpenOps D2 F2, !OpenLaws D2 F2}.
Context `{ChunkSourceLaws K}.
Implicit Types (os : DataState D2 F2 C K) (ms : N → gmap hash32 (list byte)).

(** C18: Against an origin that serves the request without an error and whose
    store, content-addressed, has every chunk of the version, and with a local disk
    that does not fail, a synchronisation returns, and the local store then holds
    every chunk of the version. *)
Theorem sync_from_origin ready bytes index game_id target s m os ms os' :
  let missing := sync_missing s index in let reply := cn_send (ds_conn os') in
  Manifest.decode blake3 bytes = Ok index → RedbHealthy D → healthy s → represents s m →
  game_id < 2^64 → lenN missing < 2^32 → tn_connect target = Ok () →
  origin_ok (ds_origin os) ms → source_ok os ms game_id (ms game_id) → addressed blake3 (ms game_id) →
  (∀ h, h ∈ chunk_set index → is_Some (ms game_id !! h)) →
  ds_conn os = mkConn (request game_id missing) [] → handle_conn ready true os = (os', Ok ()) →
  tn_exchange (request game_id missing) = Ok reply → gs_size s + lenN reply < 2^32 →
  ∃ s' m', sync_store blake3 index game_id target s = (s', Ok ()) ∧ represents s' m' ∧ m ⊆ m' ∧
    ∀ h, h ∈ chunk_set index → is_Some (m' !! h).
Proof.
  intros missing reply Hdec Hlaws Hs Hr Hg Hlen Hcon Ho Hsrc Hadd Hall Hconn Hh Hex Hroom.
  pose proof (sync_missing_short bytes s index Hdec) as Hshort. fold missing in Hshort.
  destruct (handle_conn_ok ready true os ms game_id (ms game_id) missing os' (Ok ()) Hg Hlen Ho Hsrc Hconn Hh)
    as (_ & _ & k & ds & Hds & Hb & -> & _). rewrite firstn_all in Hds. fold reply in Hb.
  assert (length missing = length ds) as Hl by (apply (f_equal length) in Hds; by rewrite !length_fmap in Hds).
  assert ((zip missing ds).*1 = missing) as Hfst by (apply fst_zip; lia).
  assert (reply = concat (map (frame ∘ snd) (zip missing ds))) as Hrep.
  { rewrite Hb. rewrite <- (snd_zip missing ds) at 1 by lia. f_equal. exact (map_map snd frame _). }
  assert (Forall (λ c : hash32 * list byte, blake3 c.2 = c.1 ∧ lenN c.2 < 2^32) (zip missing ds)) as Hcs.
  { apply Forall_forall. intros [h d] Hin. apply list_elem_of_lookup in Hin as [j Hj].
    apply lookup_zip_Some in Hj as [Hj1 Hj2]. apply (f_equal (.!! j)) in Hds.
    rewrite !list_lookup_fmap, Hj1, Hj2 in Hds. injection Hds as Hd.
    split; [by apply Hadd|by apply (origin_short _ _ _ Hg Ho _ _ Hd)]. }
  destruct (sync_loop_honest (zip missing ds) 0 0 s m Hlaws Hs Hr Hcs) as (s1 & dl & Hrun); [by rewrite <- Hrep|].
  rewrite Hfst, <- Hrep in Hrun.
  destruct (sync_loop_ok missing 0 0 reply s m [] s1 _ Hr Hroom ltac:(lia) Hrun) as (m' & Hr' & (Hsub & _) & Hres).
  assert (∀ h, h ∈ missing → is_Some (m' !! h)) as Hgot by (by apply (Hres dl 0)).
  assert (∀ h, h ∈ chunk_set index → is_Some (m' !! h)) as Hcover.
  { intros h Hin. destruct (decide (lacks s h)) as [Hk|Hk].
    - apply Hgot, elem_of_sync_missing. by split.
    - apply (lacks_false _ m) in Hk as [d Hd]; [|done]. exists d. by eapply lookup_weaken. }
  unfold sync_store. rewrite (M_bind_ok get _ s s s) by done. cbv zeta. fold missing.
  case_bool_decide as Hmis.
  { exists s, m. split_and!; [done..|]. intros h Hin. destruct (decide (lacks s h)) as [Hk|Hk].
    - exfalso. assert (h ∈ missing) as Hi by (apply elem_of_sync_missing; by split).
      rewrite Hmis in Hi. by apply elem_of_nil in Hi.
    - by apply (lacks_false _ m) in Hk. }
  exists s1, m'. split; [|done]. rewrite (M_bind_ok (lift _) _ s s ()) by (unfold lift; by rewrite Hcon).
  rewrite (M_bind_ok (lift _) _ s s reply) by (unfold lift; by rewrite Hex).
  unfold zoom, mbind, M_bind. rewrite Hrun. done.
Qed.

End sync.

(** ** Inspecting a store *)

Section inspect.
Context (blake3 : list byte → hash32).
Context {D F : Type} `{RedbLaws D, FileLaws F, !CompioOps F, !OpenOps D F, SetIterLaws}.
Implicit Types (s : GameStore D F) (m : gmap hash32 (list byte)).

Lemma key_text g h : str_slice (key g h) 16 (String.length (key g h)) = Some (hex (hash_bytes h)).
Proof.
  assert (String.length (hex16 g) = 16)%nat as Hl by (unfold hex16; by rewrite hex_length, be_encode_length).
  unfold key. assert ((hex16 g ++ hex (hash_bytes h) = hex16 g ++ hex (hash_bytes h) ++ "")%string) as Heq.
  { f_equal. by rewrite string_app_nil_r. }
  assert (plain (hex16 g ++ hex (hash_bytes h) ++ "")) as Hp.
  { rewrite !plain_app. split_and!; [apply hex_plain..|constructor]. }
  apply str_slice_mid in Hp. rewrite Hl, <- Heq in Hp. by rewrite string_length_app, Hl.
Qed.

(** The block under a hash can be read and is the right one. *)
Definition passes s (h : hash32) : bool :=
  match read_chunk s h with Ok (Some data) => bool_decide (blake3 data = h) | _ => false end.

Lemma inspect_entry_key s g h : inspect_entry blake3 s (key g h) = Ok (passes s h).
Proof. unfold inspect_entry. rewrite key_text. cbn [ok_or mbind result_bind]. by rewrite parse_hash_hex. Qed.

Lemma inspect_loop_keys s g hs p b :
  p + b + lenN hs < 2^64 →
  inspect_loop blake3 s (map (key g) hs) p b =
    Ok (p + lenN (filter (λ h, passes s h) hs), b + lenN (filter (λ h, ¬ passes s h) hs)).
Proof.
  revert p b. induction hs as [|h hs IH]; intros p b Hl.
  { cbn. by rewrite lenN_nil, !N.add_0_r. }
  rewrite lenN_cons in Hl. cbn [map inspect_loop]. rewrite inspect_entry_key. cbn [mbind result_bind].
  rewrite !filter_cons. destruct (passes s h).
  - rewrite decide_True, decide_False by (done || (intros Hn; by apply Hn)). rewrite IH, add_u64_small; [|rewrite ?add_u64_small; lia..].
    rewrite lenN_cons. do 2 f_equal. lia.
  - rewrite decide_False, decide_True by (done || (intros Hn; by apply Hn)). rewrite IH, add_u64_small; [|rewrite ?add_u64_small; lia..].
    rewrite lenN_cons. do 2 f_equal. lia.
Qed.

Lemma entries_keys s m es :
  represents s m → entries s = Ok es →
  ∃ hs, map (λ e : string * N * N, e.1.1) es = map (key (gs_game_id s)) hs ∧ hs ≡ₚ elements (dom m).
Proof.
  intros Hr He. apply bind_Ok_inv in He as (kvs & Hk & He). injection He as <-.
  destruct (read_entries_ok s m kvs Hr Hk) as [_ Hp]. rewrite map_map. cbn [fst].
  assert (∃ hs, map fst kvs = map (key (gs_game_id s)) hs) as [hs Hhs].
  { assert (Forall (λ kv : string * N, ∃ h, kv.1 = key (gs_game_id s) h) kvs) as Hall.
    { rewrite Hp. apply Forall_forall. intros [k v] Hin%elem_of_map_to_list.
      by apply (ix_keys _ _ _ _ _ (rep_index _ _ Hr)) in Hin. }
    clear Hp Hk. induction Hall as [|kv kvs [h Hh] _ [hs Hhs]]; [by exists []|].
    exists (h :: hs). cbn. by rewrite Hh, Hhs. }
  exists hs. split; [exact Hhs|]. apply NoDup_Permutation; [|apply NoDup_elements|].
  - apply (NoDup_fmap_1 (key (gs_game_id s))). change (NoDup (map (key (gs_game_id s)) hs)). rewrite <- Hhs.
    change (NoDup kvs.*1). rewrite Hp. apply NoDup_fst_map_to_list.
  - intros h. rewrite elem_of_elements, elem_of_dom, <- (represents_location _ _ h Hr).
    unfold location, loc_in. rewrite fmap_is_Some.
    assert (key (gs_game_id s) h ∈ map fst kvs ↔ is_Some (contents (gs_db s) TABLE !! key (gs_game_id s) h)) as <-.
    { change (map fst kvs) with (kvs.*1). rewrite Hp. rewrite list_elem_of_fmap. split.
      - intros ([k v] & Hk' & Hin%elem_of_map_to_list). cbn in Hk'. rewrite Hk'. by exists v.
      - intros [v Hv]. exists (key (gs_game_id s) h, v). split; [done|by apply elem_of_map_to_list]. }
    rewrite Hhs. split; intros Hin.
    + change (key (gs_game_id s) h ∈ key (gs_game_id s) <$> hs). by apply list_elem_of_fmap_2.
    + apply (list_elem_of_fmap_1 (key (gs_game_id s))) in Hin as (h' & Heq & Hin).
      apply key_inj in Heq as [_ ->]; [done|apply Hr..].
Qed.

Lemma passes_sound s m h d : represents s m → m !! h = Some d → passes s h → blake3 d = h.
Proof.
  intros Hr Hd Hp. unfold passes in Hp. destruct (read_chunk s h) as [[d'|]|] eqn:Hrd; try by destruct Hp.
  apply (read_chunk_represents _ _ _ _ Hr) in Hrd. rewrite Hd in Hrd. injection Hrd as ->.
  by apply bool_decide_unpack in Hp.
Qed.

Lemma passes_complete s m h d :
  RedbHealthy D → healthy s → represents s m → m !! h = Some d → blake3 d = h → passes s h.
Proof.
  intros Hl Hh Hr Hd Hb. unfold passes. cbn [read_chunk GameStore_source].
  rewrite (read_chunk_healthy s m h Hr Hh), Hd. by apply bool_decide_pack.
Qed.

(** What a row of the report says of its version. *)
Definition row_ok s m (row : VersionRow) : Prop :=
  vr_hash_ok row = true ∧
  (∀ h, h ∈ vr_chunks row → h ∉ vr_missing row → is_Some (m !! h)) ∧
  (RedbHealthy D → healthy s → ∀ h, h ∈ vr_missing row ↔ h ∈ vr_chunks row ∧ m !! h = None).

Lemma lacks_healthy s m h :
  RedbHealthy D → healthy s → represents s m → lacks s h ↔ m !! h = None.
Proof.
  intros Hl Hh Hr. destruct (lookup_index_healthy s m h Hr Hh) as [found Hf].
  unfold lacks. destruct (contains s h) as [b|e] eqn:Hc.
  - apply (contains_represents _ _ _ _ Hr) in Hc as ->. cbn. case_bool_decide as Hm; cbn.
    + split; [by intros []|]. intros Hn. rewrite Hn in Hm. by destruct Hm.
    + split; [|done]. intros _. by apply eq_None_not_Some.
  - exfalso. cbn in Hc. unfold GameStore_contains in Hc. by rewrite Hf in Hc.
Qed.

Lemma inspect_version_ok s m name content row :
  represents s m → inspect_version blake3 s name content = Ok (Some row) → row_ok s m row.
Proof.
  intros Hr Hv. unfold inspect_version in Hv. destruct (strip_suffix _ _) as [ver|]; [|done].
  apply bind_Ok_inv in Hv as (v & _ & Hv). apply bind_Ok_inv in Hv as (bytes & _ & Hv).
  apply bind_Ok_inv in Hv as (i & Hd%with_context_Ok_inv & Hv). injection Hv as <-.
  split_and!; cbn [vr_hash_ok vr_chunks vr_missing].
  - apply bool_decide_eq_true. apply decode_Ok_inv in Hd as (body & flags & -> & -> & _).
    f_equal. rewrite length_app, hash_bytes_length. unfold HASH_LEN. rewrite Nat.add_sub. by rewrite take_app_length.
  - intros h Hh Hn. apply (lacks_false s m h Hr). intros Hl. apply Hn. apply list_elem_of_filter.
    split; [done|by apply elem_of_set_iter].
  - intros Hl Hh h. rewrite list_elem_of_filter, elem_of_set_iter, (lacks_healthy s m h Hl Hh Hr). tauto.
Qed.

Lemma inspect_versions_ok s m published rows :
  represents s m → inspect_versions blake3 s published = Ok rows → Forall (row_ok s m) rows.
Proof.
  intros Hr. revert rows. induction published as [|entry published IH]; intros rows Hv.
  { injection Hv as <-. constructor. }
  apply bind_Ok_inv in Hv as (e & _ & Hv). apply bind_Ok_inv in Hv as (row & Hrow & Hv).
  apply bind_Ok_inv in Hv as (rows' & Hrest & Hv). injection Hv as <-. apply Forall_app. split; [|by apply IH].
  destruct row as [row|]; [|constructor]. repeat constructor; by eapply inspect_version_ok.
Qed.

Lemma map_err_Failed_ok {A} (r : result error A) a : map_err Failed r = Ok a → r = Ok a.
Proof. apply map_err_Ok_inv. Qed.

Lemma inspect_counts s m es :
  represents s m → entries s = Ok es → lenN es < 2^64 →
  ∃ passed bad, inspect_loop blake3 s (map (λ e : string * N * N, e.1.1) es) 0 0 = Ok (passed, bad) ∧
    passed + bad = lenN es ∧ lenN es = N.of_nat (base.size m) ∧ (bad = 0 → addressed blake3 m) ∧
    (RedbHealthy D → healthy s → addressed blake3 m → bad = 0).
Proof.
  intros Hr He Hl. destruct (entries_keys s m es Hr He) as (hs & Hkeys & Hp).
  assert (length es = length hs) as Hlen by (apply (f_equal length) in Hkeys; by rewrite !length_map in Hkeys).
  rewrite Hkeys, inspect_loop_keys by (unfold lenN in *; lia). eexists _, _. split; [done|]. rewrite !N.add_0_l.
  assert (lenN (filter (λ h, passes s h) hs) + lenN (filter (λ h, ¬ passes s h) hs) = lenN es) as Hsum.
  { unfold lenN. rewrite Hlen. rewrite <- Nat2N.inj_add, <- length_app. by rewrite filter_app_complement. }
  split_and!; [done| | |].
  - unfold lenN. rewrite Hlen, Hp, <- size_dom. done.
  - intros Hb h d Hd. apply (passes_sound s m h d Hr Hd).
    destruct (decide (passes s h)) as [|Hn]; [done|exfalso].
    assert (h ∈ filter (λ h, ¬ passes s h) hs) as Hin.
    { apply list_elem_of_filter. split; [done|]. rewrite Hp. apply elem_of_elements, elem_of_dom. by exists d. }
    destruct (filter (λ h, ¬ passes s h) hs); [by apply elem_of_nil in Hin|]. rewrite lenN_cons in Hb. lia.
  - intros Hlaws Hh Hadd. destruct (filter (λ h, ¬ passes s h) hs) as [|h l] eqn:Hf; [done|exfalso].
    assert (h ∈ filter (λ h, ¬ passes s h) hs) as Hin by (rewrite Hf; left).
    apply list_elem_of_filter in Hin as [Hn Hin]. rewrite Hp in Hin.
    apply elem_of_elements, elem_of_dom in Hin as [d Hd]. apply Hn.
    by apply (passes_complete s m h d Hlaws Hh Hr Hd), Hadd.
Qed.


(** ** Seeding a store *)

(** What a seeded store holds. *)
Lemma seed_loop_ok times g i n max s m s' r :
  (∀ j, i ≤ j < i + N.of_nat n → lenN (seed_data times g j) ≤ max) → represents s m →
  gs_size s + N.of_nat n * max < 2^32 →
  seed_loop blake3 times g i n s = (s', r) →
  ∃ m', represents s' m' ∧ m ⊆ m' ∧ (addressed blake3 m → addressed blake3 m') ∧
    (is_ok r → ∀ j, i ≤ j < i + N.of_nat n → is_Some (m' !! blake3 (seed_data times g j))).
Proof.
  revert i s m. induction n as [|n IH]; intros i s m Hsz Hr Hb Hs.
  { injection Hs as <- <-. exists m. split_and!; [done..|]. intros _ j Hj. lia. }
  cbn [seed_loop] in Hs. pose proof (Hsz i ltac:(lia)) as Hi.
  assert (gs_size s + lenN (seed_data times g i) < 2^32) as Hroom by lia.
  m_step Hs as s1 l e Ha; pose proof (append_chunk_frame _ _ _ _ _ _ Hr Hroom Ha) as [Hgrow _];
    apply (append_chunk_refines _ _ _ _ _ _ Hr Hroom) in Ha; [|by exists m].
  destruct Ha as [Hr1 _]. apply (IH _ _ (add_chunk m (blake3 (seed_data times g i), seed_data times g i))) in Hs
    as (m' & Hr' & Hsub & Hadd & Hall); [|intros j Hj; apply Hsz; lia|done|lia].
  exists m'. split_and!; [done|etrans; [apply add_chunk_mono|done]| |].
  - intros Hm. apply Hadd, (add_chunks_addressed blake3 m [(_, _)] Hm). by repeat constructor.
  - intros Hok j Hj. destruct (decide (j = i)) as [->|Hne]; [|apply Hall; [done|lia]].
    destruct (add_chunk_lookup m (blake3 (seed_data times g i)) (seed_data times g i)) as [d Hd].
    exists d. by eapply lookup_weaken.
Qed.

End inspect.

(** ** Examples: a version fetched from the origin of Upload's examples *)

#[local] Existing Instance mem_client.
#[local] Existing Instance SchedDb.sched_json.
#[local] Existing Instance Map_source.
#[local] Existing Instance Map_source_laws.

Definition served := handle_conn true true (dp_state [up_hash]).
Definition served_reply : list byte := Eval vm_compute in cn_send (ds_conn served.1).
Definition tool_store : GameStore MemDb MemFile := default mem_store (ok (open (None, None) 7)).

(** A network whose connections come up and get that reply; the path turns direct
    after three turns of half a second. *)
#[local] Instance tool_net : ToolNet := {|
  tn_endpoint_id s := Ok s; tn_relay_url s := Ok s; tn_socket_addr s := Ok s; tn_bind := Ok ();
  tn_connect _ := Ok (); tn_direct n := (3 <=? n)%nat;
  tn_late n := bool_decide (500 * 0 + 20000 ≤ 500 * N.of_nat n); tn_exchange _ := Ok served_reply
|}.

Definition tool_target0 : ToolTarget := ByAddr "origin" "10.0.0.1:4433".

Lemma fetch_terminates_witness :
  wait_clock (λ n, 500 * N.of_nat n) ∧
  fetch_run toy_hash 41 7 up_hash tool_target0 = Some (Ok up_data).
Proof.
  assert (wait_clock (λ n, 500 * N.of_nat n)) as Hc by (split; [intros n; lia|done]).
  split; [exact Hc|].
  destruct (fetch_terminates toy_hash (λ n, 500 * N.of_nat n) 7 up_hash tool_target0 Hc) as (r & Hr & _).
  rewrite Hr. rewrite <- Hr. vm_compute. reflexivity.
Defined.

Lemma tool_store_empty : represents tool_store ∅.
Proof. apply (open_fresh 7); [done|]. vm_compute. reflexivity. Qed.

Lemma tool_store_healthy : healthy tool_store.
Proof. vm_compute. done. Qed.

Definition tool_sync := sync_store toy_hash up_index 7 tool_target0 tool_store.

Lemma up_index_decodes : Manifest.decode toy_hash (Manifest.encode up_index) = Ok up_index.
Proof.
  apply decode_encode_index; [reflexivity| |reflexivity]. split; [reflexivity|].
  apply Forall_singleton. split_and!; [reflexivity..|]. apply Forall_singleton. reflexivity.
Qed.

Lemma up_index_chunks h : h ∈ chunk_set up_index ↔ h = up_hash.
Proof. rewrite elem_of_chunk_set. apply list_elem_of_singleton. Qed.

Lemma sync_spec_witness :
  ∃ s' m', tool_sync = (s', Ok ()) ∧ represents s' m' ∧ is_Some (m' !! up_hash).
Proof.
  assert (tool_sync.2 = Ok ()) as Hok by (vm_compute; reflexivity).
  destruct tool_sync as [s' r] eqn:Hs. cbn [snd] in Hok. subst r. unfold tool_sync in Hs.
  destruct (sync_spec toy_hash (Manifest.encode up_index) up_index 7 tool_target0 tool_store ∅ s' (Ok ())
    up_index_decodes tool_store_empty) as (m' & Hr & _ & _ & _ & Hall).
  - intros req reply [= <-]. vm_compute. reflexivity.
  - exact Hs.
  - exists s', m'. split; [reflexivity|]. split; [exact Hr|]. apply (Hall I), up_index_chunks. reflexivity.
Defined.

Lemma sync_from_origin_witness :
  ∃ s' m', tool_sync = (s', Ok ()) ∧ represents s' m' ∧ is_Some (m' !! up_hash).
Proof.
  assert (served.2 = Ok ()) as Hok by (vm_compute; reflexivity).
  assert (cn_send (ds_conn served.1) = served_reply) as Hrep by (vm_compute; reflexivity).
  assert (sync_missing tool_store up_index = [up_hash]) as Hmis.
  { apply (proj1 (bool_decide_eq_true _)). vm_compute. reflexivity. }
  destruct served as [os' r] eqn:Hh. cbn [fst snd] in Hok, Hrep. subst r. unfold served in Hh.
  destruct (sync_from_origin toy_hash true (Manifest.encode up_index) up_index 7 tool_target0 tool_store ∅
    (dp_state [up_hash]) up_ms os') as (s' & m' & Hs & Hr & _ & Hall).
  - exact up_index_decodes.
  - exact _.
  - exact tool_store_healthy.
  - exact tool_store_empty.
  - reflexivity.
  - rewrite Hmis. reflexivity.
  - reflexivity.
  - exact origin1_ok.
  - exact (dp_source _).
  - change (up_ms 7) with ({[up_hash := up_data]} : gmap hash32 (list byte)).
    apply map_Forall_singleton. reflexivity.
  - intros h ->%up_index_chunks. exists up_data. vm_compute. reflexivity.
  - rewrite Hmis. reflexivity.
  - exact Hh.
  - rewrite Hrep. reflexivity.
  - rewrite Hrep. vm_compute. reflexivity.
  - exists s', m'. split; [exact Hs|]. split; [exact Hr|]. apply Hall, up_index_chunks. reflexivity.
Defined.

(** The store after the upload, inspected with the manifest that was committed. *)
Definition tool_published : option (result error (list (result error (string * result error (list byte))))) :=
  Some (Ok [Ok ("1.gameindex"%string, Ok (Manifest.encode up_index))]).
Definition inspected_store : GameStore MemDb MemFile :=
  default mem_store (or_packs origin1 !! 7).
Definition inspected_files : option MemDb * option MemFile :=
  (Some (gs_db inspected_store), Some (gs_path inspected_store)).

