(* ===== verification/CafeStore.v ===== *)
(** * CafeStore: the chunk source of an internet cafe (crates/agent/src/cafe_store.rs)

    A cafe keeps a game as real files, recently downloaded chunks as temporary
    blocks, and the manifests of its versions.  The directories of one game are a
    record of maps from names to files; what can fail is an interface. *)

From S2P Require Import Prelude Bytes Text FileIO Manifest Storage.

(** ** The directories of a game *)

(** A file and its modification time in seconds. *)
Record DirFile (F : Type) := mkDirFile { df_file : F; df_modified : N }.
Arguments mkDirFile {F}. Arguments df_file {F}. Arguments df_modified {F}.

(** [game_dir] by relative name, [temp_dir] and [manifest_dir] by file name;
    [gd_calls] counts the calls that change a directory. *)
Record GameDir (F : Type) := mkGameDir {
  gd_files : gmap string F;
  gd_temp : gmap string (DirFile F);
  gd_manifests : gmap string F;
  gd_calls : nat
}.
Arguments mkGameDir {F}. Arguments gd_files {F}. Arguments gd_temp {F}.
Arguments gd_manifests {F}. Arguments gd_calls {F}.

(** [std::fs]: reading a whole file, opening one, the outcome of the n-th call
    that changes a directory, and writing a whole file. *)
Class DirOps (F : Type) := {
  fs_read : F → result error (list byte);
  fs_open : F → result error ();
  fs_call : nat → result error ();
  fs_write_file : option F → list byte → option F * result error ()
}.
Class DirLaws (F : Type) `{!FileOps F, !DirOps F} : Prop := {
  fs_read_ok f bs : fs_read f = Ok bs → bs = f_data f;
  fs_write_file_ok old bs new : fs_write_file old bs = (new, Ok ()) →
    ∃ f, new = Some f ∧ f_data f = bs
}.

(** [{hex}.blk], [{version}.gameindex], current.version *)
Definition block_name (hash : hash32) : string := (hex (hash_bytes hash) ++ ".blk")%string.
Definition manifest_name (version : N) : string := (dec version ++ ".gameindex")%string.
Definition CURRENT : string := "current.version".

(** What precedes and what follows the last occurrence of a character. *)
Fixpoint rsplit (sep : ascii) (s : string) : option (string * string) :=
  match s with
  | EmptyString => None
  | String c s =>
    match rsplit sep s with
    | Some (stem, ext) => Some (String c stem, ext)
    | None => if Ascii.eqb c sep then Some (EmptyString, s) else None
    end
  end.

(** [Path::extension] of a file name: what follows the last dot, unless that is
    the first character. *)
Definition extension (name : string) : option string :=
  if String.eqb name ".." then None else
  match rsplit "." name with
  | Some (EmptyString, _) | None => None
  | Some (_, ext) => Some ext
  end.

(** [str::trim] on ASCII white space. *)
Definition is_space (c : ascii) : bool :=
  let n := N_of_ascii c in ((9 <=? n) && (n <=? 13)) || (n =? 32).
Fixpoint trim_start (s : string) : string :=
  match s with
  | String c s' => if is_space c then trim_start s' else s
  | EmptyString => EmptyString
  end.
Definition string_rev (s : string) : string := String.rev s.
Definition trim (s : string) : string := string_rev (trim_start (string_rev (trim_start s))).

(** ** The chunk map of a version *)

Definition ChunkMap : Type := gmap hash32 (string * N * N).

(** [map.entry(hash).or_insert(location)] *)
Definition or_insert {V} (hash : hash32) (v : V) (m : gmap hash32 V) : gmap hash32 V :=
  match m !! hash with Some _ => m | None => <[hash := v]> m end.

Definition map_chunk (name : string) (acc : ChunkMap * N) (chunk : ChunkMeta) : ChunkMap * N :=
  (or_insert (ck_hash chunk) (name, acc.2, ck_len chunk) acc.1, add_u64 acc.2 (ck_len chunk)).
Definition map_file (m : ChunkMap) (file : FileEntry) : ChunkMap :=
  (foldl (map_chunk (fe_name file)) (m, 0) (fe_chunks file)).1.
Definition build_map (index : GameIndex) : ChunkMap := foldl map_file ∅ (gi_files index).

(** ** The store *)

Record CafeStore (F : Type) := mkCafe {
  cf_dir : GameDir F;
  cf_current : option ChunkMap
}.
Arguments mkCafe {F}. Arguments cf_dir {F}. Arguments cf_current {F}.

Section cafe.
Context (blake3 : list byte → hash32).
Context {F : Type} `{!FileOps F, !CompioOps F, !DirOps F}.
Abbreviation dirM := (M (GameDir F) error).
Abbreviation cafeM := (M (CafeStore F) error).

Definition set_files (m : gmap string F) (d : GameDir F) : GameDir F :=
  mkGameDir m (gd_temp d) (gd_manifests d) (gd_calls d).
Definition set_temp (m : gmap string (DirFile F)) (d : GameDir F) : GameDir F :=
  mkGameDir (gd_files d) m (gd_manifests d) (gd_calls d).
Definition set_manifests (m : gmap string F) (d : GameDir F) : GameDir F :=
  mkGameDir (gd_files d) (gd_temp d) m (gd_calls d).

(** A call that changes a directory or fails without effect. *)
Definition dir_call (msg : string) (effect : GameDir F → GameDir F) : dirM () := λ d,
  let d1 := mkGameDir (gd_files d) (gd_temp d) (gd_manifests d) (S (gd_calls d)) in
  match fs_call (gd_calls d) with
  | Ok _ => (effect d1, Ok ())
  | Err e => (d1, Err (msg :: e))
  end.

(** [read_to_string] *)
Definition read_to_string (f : F) : result error string :=
  bs ← fs_read f;
  if utf8_valid bs then Ok (bytes_str bs) else bail "stream did not contain valid UTF-8".

Definition current_version (d : GameDir F) : result error (option N) :=
  match gd_manifests d !! CURRENT with
  | None => mret None
  | Some f =>
    text ← with_context "读取当前版本号失败" (read_to_string f);
    version ← with_context "当前版本号非法" (ok_or ["invalid digit found in string"%string]
                (parse_u64 (trim text)));
    mret (Some version)
  end.

Definition current_manifest_bytes (d : GameDir F) : result error (option (list byte)) :=
  version ← current_version d;
  match version with
  | None => mret None
  | Some version =>
    bs ← with_context "读取当前版本清单失败"
           match gd_manifests d !! manifest_name version with
           | Some f => fs_read f
           | None => bail "No such file or directory"
           end;
    mret (Some bs)
  end.

Definition set_current (manifest : list byte) : cafeM () :=
  index ← lift (with_context "解析当前版本清单失败" (Manifest.decode blake3 manifest));
  modify (λ s, mkCafe (cf_dir s) (Some (build_map index))).

Definition on_dir {A} (m : dirM A) : cafeM A :=
  zoom cf_dir (λ d s, mkCafe d (cf_current s)) m.

(** [CafeStore::open] on the directories as they are. *)
Definition open : cafeM () :=
  modify (λ s, mkCafe (cf_dir s) None);;
  on_dir (dir_call "创建真实文件目录失败" id);;
  on_dir (dir_call "创建临时块目录失败" id);;
  s ← get;
  bytes ← lift (current_manifest_bytes (cf_dir s));
  match bytes with Some bytes => set_current bytes | None => mret () end.

(** [std::fs::write(path, bytes)] in the directory of the manifests. *)
Definition write_manifest (msg name : string) (bs : list byte) : dirM () := λ d,
  match fs_write_file (gd_manifests d !! name) bs with
  | (new, r) =>
    (set_manifests (partial_alter (λ _, new) name (gd_manifests d)) d, with_context msg r)
  end.

Definition save_manifest (version : N) (manifest : list byte) : cafeM () :=
  on_dir (dir_call "创建清单目录失败" id);;
  on_dir (write_manifest "写入版本清单失败" (manifest_name version) manifest);;
  on_dir (write_manifest "写入当前版本号失败" CURRENT (str_bytes (dec version)));;
  set_current manifest.

(** ** The chunk source *)

Definition lookup_current (s : CafeStore F) (hash : hash32) : option (string * N * N) :=
  m ← cf_current s; m !! hash.

(** [seek] and [read_exact] of the real file. *)
Definition read_real (f : F) (offset len : N) : result error (list byte) :=
  with_context "读取真实文件块失败" (read_exact_at f len offset).

Definition CafeStore_read_chunk (s : CafeStore F) (hash : hash32) :
    result error (option (list byte)) :=
  match gd_temp (cf_dir s) !! block_name hash with
  | Some f => bs ← with_context "读取临时块失败" (fs_read (df_file f)); mret (Some bs)
  | None =>
    match lookup_current s hash with
    | None => mret None
    | Some (rel, offset, len) =>
      match gd_files (cf_dir s) !! rel with
      | None => mret None
      | Some f =>
        match fs_open f with
        | Err _ => mret None
        | Ok _ => buf ← read_real f offset len; mret (Some buf)
        end
      end
    end
  end.

Definition CafeStore_contains (s : CafeStore F) (hash : hash32) : result error bool :=
  match gd_temp (cf_dir s) !! block_name hash with
  | Some _ => mret true
  | None =>
    match lookup_current s hash with
    | None => mret false
    | Some (rel, _, _) => mret (bool_decide (is_Some (gd_files (cf_dir s) !! rel)))
    end
  end.

#[global] Instance CafeStore_source : ChunkSource (CafeStore F) := {|
  read_chunk := CafeStore_read_chunk;
  contains := CafeStore_contains
|}.

(** ** The cleaner *)

Definition expired_block (ttl now : N) (name : string) (f : DirFile F) : bool :=
  bool_decide (extension name = Some "blk"%string) && (ttl <? now - df_modified f).

(** The loop over the entries of one temporary directory; the count so far. *)
Fixpoint cleanup_entries (ttl now : N) (entries : list (string * DirFile F)) (removed : N) :
    dirM N :=
  match entries with
  | [] => mret removed
  | (name, f) :: entries =>
    if expired_block ttl now name f then
      dir_call "删除过期临时块失败" (λ d, set_temp (delete name (gd_temp d)) d);;
      cleanup_entries ttl now entries (removed + 1)
    else cleanup_entries ttl now entries removed
  end.

Context `{!MapIter}.

(** [cleanup_expired] on the temporary directory of one game; [read_dir] lists
    the entries in any order. *)
Definition cleanup_game (ttl now removed : N) : dirM N :=
  d ← get;
  cleanup_entries ttl now (map_iter (gd_temp d)) removed.

(** The loop over the game directories of the temporary root. *)
Fixpoint cleanup_games (ttl now : N) (games : list N) (removed : N) :
    M (gmap N (GameDir F)) error N :=
  match games with
  | [] => mret removed
  | g :: games =>
    removed ← zoom (λ root, default (mkGameDir ∅ ∅ ∅ 0) (root !! g)) (λ d root, <[g := d]> root)
                (cleanup_game ttl now removed);
    cleanup_games ttl now games removed
  end.

Definition cleanup_expired (ttl now : N) : M (gmap N (GameDir F)) error N :=
  root ← get;
  cleanup_games ttl now (map_iter root).*1 0.

(** The time to live in seconds, [ttl_hours * 3600]. *)
Definition ttl_secs (ttl_hours : N) : N := as_u64 (ttl_hours * 3600).

End cafe.

(** ** The directories in memory, for the examples *)

#[global] Instance Mem_dir : DirOps MemFile := {
  fs_read f := if mf_limit f =? 0 then bail "I/O 错误" else Ok (mf_data f);
  fs_open f := Ok ();
  fs_call _ := Ok ();
  fs_write_file _ bs := (Some (FileIO.mkFile bs 3), Ok ())
}.
#[global] Instance Mem_dir_laws : DirLaws MemFile.
Proof.
  split.
  - intros f bs. cbn. destruct (mf_limit f =? 0); [done|]. by intros [= <-].
  - intros old bs new [= <-]. by eexists.
Qed.
