(* ===== verification/CafeSpec.v ===== *)
(** * CafeSpec: what the chunk source of a cafe guarantees

    The chunk map of a manifest points at the first occurrence of every chunk;
    the store reads a temporary block first and the real file otherwise; cleaning
    up removes exactly the expired blocks, so no chunk of a real file is lost. *)

From S2P Require Import Prelude Bytes Text FileIO Manifest Storage CafeStore.

Lemma block_name_inj h1 h2 : block_name h1 = block_name h2 → h1 = h2.
Proof.
  unfold block_name. intros Heq%string_app_inj_r%hex_inj.
  assert (hash_of (hash_bytes h1) = hash_of (hash_bytes h2)) as Hh by (by rewrite Heq).
  rewrite !hash_of_bytes in Hh. by injection Hh.
Qed.

(** ** The chunk map *)

Definition lens (cs : list ChunkMeta) (n : N) : N := foldl (λ n c, add_u64 n (ck_len c)) n cs.

(** The occurrences of chunks: name, offset and length. *)
Definition occurs_in (f : FileEntry) (h : hash32) (l : string * N * N) : Prop :=
  ∃ pre c post, fe_chunks f = pre ++ c :: post ∧ ck_hash c = h ∧
    l = (fe_name f, lens pre 0, ck_len c).

Lemma or_insert_Some {V} h (v w : V) m h' :
  or_insert h v m !! h' = Some w → m !! h' = Some w ∨ (h' = h ∧ w = v ∧ m !! h = None).
Proof.
  unfold or_insert. destruct (m !! h) eqn:Hm; [by left|].
  intros [[-> ->]|[_ ?]]%lookup_insert_Some; [by right|by left].
Qed.

Lemma or_insert_is_Some {V} h (v : V) m h' :
  is_Some (or_insert h v m !! h') ↔ is_Some (m !! h') ∨ h' = h.
Proof.
  unfold or_insert. destruct (m !! h) eqn:Hm.
  - split; [by left|]. intros [?| ->]; [done|by eexists].
  - rewrite lookup_insert_is_Some'. naive_solver.
Qed.

Lemma map_chunks_spec name cs m n :
  let r := foldl (map_chunk name) (m, n) cs in
  r.2 = lens cs n ∧
  (∀ h, is_Some (r.1 !! h) ↔ is_Some (m !! h) ∨ h ∈ map ck_hash cs) ∧
  (∀ h l, r.1 !! h = Some l → m !! h = Some l ∨
     ∃ pre c post, cs = pre ++ c :: post ∧ ck_hash c = h ∧ l = (name, lens pre n, ck_len c)).
Proof.
  cbv zeta. induction cs as [|c cs (IH1 & IH2 & IH3)] using rev_ind.
  { split_and!; [done| |by left]. intros h. cbn. rewrite elem_of_nil. tauto. }
  rewrite foldl_app. cbn. split_and!.
  - unfold lens. rewrite foldl_app. cbn. by rewrite IH1.
  - intros h. rewrite or_insert_is_Some, IH2, map_app, elem_of_app. cbn.
    rewrite list_elem_of_singleton. tauto.
  - intros h l [Hl|(-> & -> & _)]%or_insert_Some.
    + apply IH3 in Hl as [Hl|(pre & c' & post & -> & Hh & ->)]; [by left|right].
      exists pre, c', (post ++ [c]). by rewrite <- (assoc_L app).
    + right. exists cs, c, []. by rewrite IH1.
Qed.

Lemma map_files_spec fs m :
  let r := foldl map_file m fs in
  (∀ h, is_Some (r !! h) ↔ is_Some (m !! h) ∨ h ∈ flat_map (λ f, map ck_hash (fe_chunks f)) fs) ∧
  (∀ h l, r !! h = Some l → m !! h = Some l ∨ ∃ f, f ∈ fs ∧ occurs_in f h l).
Proof.
  cbv zeta. induction fs as [|f fs [IH1 IH2]] using rev_ind.
  { split; [|by left]. intros h. cbn. rewrite elem_of_nil. tauto. }
  rewrite foldl_app. cbn. unfold map_file at 1.
  destruct (map_chunks_spec (fe_name f) (fe_chunks f) (foldl map_file m fs) 0) as (_ & H2' & H3').
  split.
  - intros h. rewrite H2', IH1, flat_map_app, elem_of_app. cbn. rewrite app_nil_r. tauto.
  - intros h l [Hl|(pre & c & post & Hc & Hh & ->)]%H3'.
    + apply IH2 in Hl as [Hl|(f' & Hf' & Ho)]; [by left|right]. exists f'.
      split; [apply elem_of_app; by left|done].
    + right. exists f. split; [apply elem_of_app; right; by apply list_elem_of_singleton|].
      by exists pre, c, post.
Qed.

Lemma chunk_map_empty h : (∅ : ChunkMap) !! h = None.
Proof. done. Qed.

Lemma build_map_dom i h : is_Some (build_map i !! h) ↔ h ∈ chunk_set i.
Proof.
  unfold build_map. rewrite (proj1 (map_files_spec (gi_files i) ∅) h), elem_of_chunk_set.
  rewrite chunk_map_empty. unfold chunk_list. split; [by intros [[]|?]|by right].
Qed.

Lemma build_map_occurs i h l :
  build_map i !! h = Some l → ∃ f, f ∈ gi_files i ∧ occurs_in f h l.
Proof. intros [Hl|?]%(proj2 (map_files_spec (gi_files i) ∅)); [by rewrite chunk_map_empty in Hl|done]. Qed.

(** ** Real files that match a manifest *)

Section matching.
Context (blake3 : list byte → hash32).

Definition chunk_matches (c : ChunkMeta) (d : list byte) : Prop :=
  blake3 d = ck_hash c ∧ lenN d = ck_len c.

(** The bytes of a file are the chunks of its entry. *)
Definition content_matches (f : FileEntry) (data : list byte) : Prop :=
  ∃ ds, data = mjoin ds ∧ Forall2 chunk_matches (fe_chunks f) ds.

Lemma lens_chunks cs ds n :
  Forall2 chunk_matches cs ds → n + lenN (mjoin ds) < 2^64 → lens cs n = n + lenN (mjoin ds).
Proof.
  intros Hf. revert n. induction Hf as [|c d cs ds [_ Hl] _ IH]; intros n Hn; cbn in *.
  - rewrite lenN_nil. lia.
  - rewrite lenN_app in Hn |- *. rewrite <- Hl, add_u64_small by lia.
    change (lens cs (n + lenN d) = n + (lenN d + lenN (mjoin ds))). rewrite IH; [by rewrite N.add_assoc|]. by rewrite <- N.add_assoc.
Qed.

(** The chunk at an occurrence of a matching file. *)
Lemma content_span f data h off len :
  content_matches f data → lenN data < 2^64 → occurs_in f h (fe_name f, off, len) →
  off + len ≤ lenN data ∧ blake3 (span off len data) = h.
Proof.
  intros (ds & -> & Hf) Hl (pre & c & post & Hc & Hh & [= -> ->]). rewrite Hc in Hf.
  apply Forall2_app_inv_l in Hf as (ds1 & ds2' & Hpre & Hf & ->).
  apply Forall2_cons_inv_l in Hf as (d & ds2 & [Hd1 Hd2] & Hpost & ->).
  rewrite join_app in Hl |- *. cbn [mjoin list_join] in Hl |- *. rewrite !lenN_app in Hl.
  rewrite (lens_chunks pre ds1 0 Hpre), N.add_0_l by lia. rewrite !lenN_app. split; [lia|].
  rewrite <- (N.add_0_r (lenN (mjoin ds1))), span_app_r, span_app_l by (rewrite N.add_0_l; lia).
  rewrite <- Hd2, span_all. by rewrite Hd1.
Qed.
End matching.

Section cafe.
Context (blake3 : list byte → hash32).
Context {F : Type} `{FileLaws F, !CompioOps F, !DirOps F, !DirLaws F, MapIterLaws}.
Implicit Types (s : CafeStore F) (d : GameDir F) (h : hash32).

(** ** Reading *)

(** What a store holds under a hash, where opening a real file does not fail. *)
Definition real_view s h : option (list byte) :=
  match lookup_current s h with
  | Some (rel, off, len) => span off len ∘ f_data <$> gd_files (cf_dir s) !! rel
  | None => None
  end.
Definition view s h : option (list byte) :=
  match gd_temp (cf_dir s) !! block_name h with
  | Some f => Some (f_data (df_file f))
  | None => real_view s h
  end.

Definition can_open d : Prop := ∀ n f, gd_files d !! n = Some f → is_ok (fs_open f).

Lemma read_chunk_view s h r :
  can_open (cf_dir s) → CafeStore_read_chunk s h = Ok r → r = view s h.
Proof.
  intros Hopen. unfold CafeStore_read_chunk, view, real_view.
  destruct (gd_temp (cf_dir s) !! block_name h) as [f|].
  { intros Hr. apply bind_Ok_inv in Hr as (bs & Hb%with_context_Ok_inv%fs_read_ok & Hr).
    injection Hr as <-. by subst. }
  destruct (lookup_current s h) as [[[rel off] len]|]; [|by intros [= <-]].
  destruct (gd_files (cf_dir s) !! rel) as [f|] eqn:Hf; [|by intros [= <-]].
  destruct (fs_open f) eqn:Ho; [|by apply Hopen in Hf; rewrite Ho in Hf].
  intros Hr. apply bind_Ok_inv in Hr as (bs & Hb%with_context_Ok_inv%read_exact_at_ok & Hr).
  injection Hr as <-. destruct Hb as [-> _]. done.
Qed.

Lemma contains_view s h b :
  CafeStore_contains s h = Ok b → b = bool_decide (is_Some (view s h)).
Proof.
  unfold CafeStore_contains, view, real_view.
  destruct (gd_temp (cf_dir s) !! block_name h) as [f|]; [by intros [= <-]|].
  destruct (lookup_current s h) as [[[rel off] len]|]; [|by intros [= <-]].
  intros [= <-]. apply bool_decide_ext. by rewrite fmap_is_Some.
Qed.

(** A cafe is a chunk source of the data plane. *)
#[global] Instance CafeStore_laws : ChunkSourceLaws (CafeStore F) := {|
  holds s m := can_open (cf_dir s) ∧ ∀ h, view s h = m !! h;
  read_chunk_holds s m h r Hm Hr :=
    eq_trans (read_chunk_view s h r (proj1 Hm) Hr) (proj2 Hm h);
  contains_holds s m h b Hm Hb :=
    eq_trans (contains_view s h b Hb)
      (f_equal (λ o : option (list byte), bool_decide (is_Some o)) (proj2 Hm h))
|}.

(** Temporary blocks hash to their name, the real files are those of the
    current manifest. *)
Record faithful s (index : GameIndex) : Prop := {
  fa_temp h f : gd_temp (cf_dir s) !! block_name h = Some f → blake3 (f_data (df_file f)) = h;
  fa_map : cf_current s = Some (build_map index);
  fa_files e f : e ∈ gi_files index → gd_files (cf_dir s) !! fe_name e = Some f →
    content_matches blake3 e (f_data f) ∧ lenN (f_data f) < 2^64
}.

Lemma real_view_hash s index h bs :
  faithful s index → real_view s h = Some bs → blake3 bs = h.
Proof.
  intros Hf. unfold real_view, lookup_current. rewrite (fa_map s index Hf). cbn.
  destruct (build_map index !! h) as [[[rel off] len]|] eqn:Hl; [|done].
  destruct (gd_files (cf_dir s) !! rel) as [f|] eqn:Hfile; [|done]. cbn. intros [= <-].
  apply build_map_occurs in Hl as (e & He & Ho).
  assert (rel = fe_name e) as -> by (destruct Ho as (pre & c & post & _ & _ & [= -> _ _]); done).
  destruct (fa_files s index Hf e f He Hfile) as [Hm Hlen].
  by destruct (content_span blake3 e _ h off len Hm Hlen Ho).
Qed.

Lemma view_hash s index h bs : faithful s index → view s h = Some bs → blake3 bs = h.
Proof.
  intros Hf. unfold view. destruct (gd_temp (cf_dir s) !! block_name h) as [f|] eqn:Ht.
  - intros [= <-]. by apply (fa_temp s index Hf).
  - by apply (real_view_hash s index).
Qed.

(** ** Cleaning *)

Definition is_expired (ttl now : N) (e : string * DirFile F) : Prop :=
  expired_block ttl now e.1 e.2 = true.
#[local] Instance is_expired_dec ttl now e : Decision (is_expired ttl now e).
Proof. unfold is_expired. apply _. Defined.

Definition dir_rest d d' : Prop :=
  gd_files d' = gd_files d ∧ gd_manifests d' = gd_manifests d.

Lemma cleanup_entries_ok ttl now (es : list (string * DirFile F)) removed d d' r :
  cleanup_entries ttl now es removed d = (d', r) →
  dir_rest d d' ∧
  ∃ es', es' `sublist_of` filter (is_expired ttl now) es ∧
    gd_temp d' = foldl (λ m n, delete n m) (gd_temp d) es'.*1 ∧
    match r with
    | Ok n => es' = filter (is_expired ttl now) es ∧ n = removed + lenN es'
    | Err _ => True
    end.
Proof.
  revert removed d. induction es as [|[name f] es IH]; intros removed d Hc; cbn in Hc.
  { injection Hc as <- <-. split; [done|]. exists []. split_and!; try done. rewrite lenN_nil. lia. }
  rewrite filter_cons. destruct (decide (is_expired ttl now (name, f))) as [He|He].
  - unfold is_expired in He. cbn in He. rewrite He in Hc. m_step Hc as d1 [] e Hd; unfold dir_call in Hd;
      destruct (fs_call (gd_calls d)); simplify_eq/=.
    + apply IH in Hc as (Hrest & es' & Hsub & Ht & Hr). split; [done|].
      exists ((name, f) :: es'). split_and!; [by apply sublist_skip|done|].
      destruct r as [n|]; [|done]. destruct Hr as [-> ->]. rewrite lenN_cons. split; [done|lia].
    + split; [done|]. exists []. split_and!; [apply sublist_nil_l|done..].
  - unfold is_expired in He. apply not_true_is_false in He. cbn in He. rewrite He in Hc.
    by apply IH in Hc.
Qed.

Lemma delete_all_lookup {A} (m : gmap string A) (ns : list string) n :
  foldl (λ m n, delete n m) m ns !! n = if decide (n ∈ ns) then None else m !! n.
Proof.
  revert m. induction ns as [|n' ns IH]; intros m; cbn.
  { rewrite decide_False; [done|]. apply not_elem_of_nil. }
  rewrite IH. destruct (decide (n ∈ ns)).
  - by rewrite decide_True by (by right).
  - destruct (decide (n = n')) as [->|].
    + rewrite decide_True by by left. apply lookup_delete_eq.
    + rewrite decide_False by (by intros [?|?]%elem_of_cons). by apply lookup_delete_ne.
Qed.

(** C33: A cafe serves what it has: a read gives the temporary block of the
    hash, else the span of the real file that the current manifest names, and
    when the blocks and files are what their names and the manifest say, the
    bytes hash to what was asked for.  Cleaning removes temporary blocks that
    have expired and nothing else, all of them when it succeeds, counting each
    once; so a chunk that a real file holds can be served before and after. *)
Theorem cafe_source_spec s index ttl now d' r :
  faithful s index → can_open (cf_dir s) →
  cleanup_game ttl now 0 (cf_dir s) = (d', r) →
  (∀ h o, CafeStore_read_chunk s h = Ok o →
     o = view s h ∧ ∀ bs, o = Some bs → blake3 bs = h) ∧
  dir_rest (cf_dir s) d' ∧
  (∀ n f, gd_temp (cf_dir s) !! n = Some f →
     gd_temp d' !! n = Some f ∨ (gd_temp d' !! n = None ∧ expired_block ttl now n f = true)) ∧
  (∀ k, r = Ok k → k = lenN (filter (is_expired ttl now) (map_to_list (gd_temp (cf_dir s)))) ∧
     ∀ n f, gd_temp d' !! n = Some f → expired_block ttl now n f = false) ∧
  (∀ h bs, real_view s h = Some bs →
     ∃ bs', view (mkCafe d' (cf_current s)) h = Some bs' ∧ blake3 bs' = h).
Proof.
  intros Hf Hopen Hc. unfold cleanup_game in Hc. rewrite (M_bind_ok get _ _ _ _ eq_refl) in Hc.
  apply cleanup_entries_ok in Hc as (Hrest & es' & Hsub & Ht & Hr).
  assert (∀ n f, (n, f) ∈ es' → gd_temp (cf_dir s) !! n = Some f ∧ expired_block ttl now n f = true)
    as Hes.
  { intros n f Hin. eapply elem_of_sublist in Hin; [|exact Hsub]. apply list_elem_of_filter in Hin as [He Hin].
    split; [by apply elem_of_map_iter|done]. }
  assert (∀ n f, gd_temp d' !! n = Some f → gd_temp (cf_dir s) !! n = Some f) as Hmono.
  { intros n f. rewrite Ht, delete_all_lookup. by case_decide. }
  split_and!; [|done| | |].
  - intros h o Ho. apply (read_chunk_view s h o Hopen) in Ho as ->. split; [done|].
    intros bs. by apply (view_hash s index).
  - intros n f Hn. rewrite Ht, delete_all_lookup. case_decide as Hin; [right|by left].
    split; [done|]. apply list_elem_of_fmap in Hin as ([n' f'] & -> & Hin).
    apply Hes in Hin as [Hn' He]. cbn in *. by simplify_eq.
  - intros k ->. destruct Hr as [-> ->]. split.
    + rewrite N.add_0_l. unfold lenN. f_equal. by rewrite map_iter_perm.
    + intros n f Hn. pose proof (Hmono n f Hn) as Hn'. rewrite Ht, delete_all_lookup in Hn.
      case_decide as Hin; [done|]. destruct (expired_block ttl now n f) eqn:He; [exfalso|done].
      apply Hin. apply list_elem_of_fmap. exists (n, f). split; [done|].
      apply list_elem_of_filter. split; [done|]. by apply elem_of_map_iter.
  - intros h bs Hreal. unfold view. cbn [cf_dir].
    destruct (gd_temp d' !! block_name h) as [f|] eqn:Hn.
    + eexists. split; [done|]. apply (fa_temp s index Hf). by apply Hmono.
    + exists bs. split; [|by apply (real_view_hash s index)]. rewrite <- Hreal.
      unfold real_view, lookup_current. cbn. by rewrite (proj1 Hrest).
Qed.

End cafe.

(** ** Examples: one file, also present as a temporary block that has expired *)

Definition cafe_data : list byte := [x68; x65; x6c; x6c; x6f].
Definition cafe_hash : hash32 := toy_hash cafe_data.
Definition cafe_entry : FileEntry := mkFile "game.exe" cafe_hash [mkChunk cafe_hash 5].
Definition cafe_index : GameIndex := build toy_hash [cafe_entry].
Definition cafe_store : CafeStore MemFile :=
  mkCafe (mkGameDir {["game.exe"%string := FileIO.mkFile cafe_data 3]}
    {[block_name cafe_hash := mkDirFile (FileIO.mkFile cafe_data 3) 0]} ∅ 0)
    (Some (build_map cafe_index)).

Lemma cafe_store_faithful : faithful toy_hash cafe_store cafe_index.
Proof.
  split; [|done|].
  - intros h f Hf. unfold cafe_store in Hf. cbn [cf_dir gd_temp] in Hf.
    apply lookup_singleton_Some in Hf as [Hn <-]. by apply block_name_inj in Hn.
  - intros e f He Hf.
    assert (e = cafe_entry) as -> by (by apply list_elem_of_singleton in He).
    unfold cafe_store in Hf. cbn [cf_dir gd_files] in Hf.
    apply lookup_singleton_Some in Hf as [_ <-]. split; [|vm_compute; reflexivity].
    exists [cafe_data]. split; [reflexivity|]. repeat constructor.
Qed.

Lemma cafe_store_can_open : can_open (cf_dir cafe_store).
Proof. intros n f _. exact I. Qed.

Lemma cafe_real_view : real_view cafe_store cafe_hash = Some cafe_data.
Proof. vm_compute. reflexivity. Qed.

Lemma cafe_source_spec_witness :
  let t := cleanup_game 86400 100000 0 (cf_dir cafe_store) in
  t.2 = Ok 1 ∧ gd_temp t.1 = ∅ ∧ CafeStore_read_chunk cafe_store cafe_hash = Ok (Some cafe_data) ∧
  ∃ bs, view (mkCafe t.1 (cf_current cafe_store)) cafe_hash = Some bs ∧ toy_hash bs = cafe_hash.
Proof.
  cbv zeta. assert ((cleanup_game 86400 100000 0 (cf_dir cafe_store)).2 = Ok 1 ∧
    gd_temp (cleanup_game 86400 100000 0 (cf_dir cafe_store)).1 = ∅) as [H2 H1]
    by (split; vm_compute; reflexivity).
  destruct (cleanup_game 86400 100000 0 (cf_dir cafe_store)) as [d' r] eqn:Hc.
  split; [exact H2|]. split; [exact H1|]. split; [vm_compute; reflexivity|].
  pose proof (cafe_source_spec toy_hash cafe_store cafe_index 86400 100000 d' r cafe_store_faithful
    cafe_store_can_open Hc) as (_ & _ & _ & _ & Hv).
  exact (Hv cafe_hash cafe_data cafe_real_view).
Defined.
