(* ===== verification/Merge.v ===== *)
(** * Merge: the update engine of a cafe (crates/agent/src/update.rs)

    Collecting the temporary blocks, planning an update, and merging: every new
    or changed file is assembled from old files and temporary blocks into a
    temporary file, checked against its hash and renamed over the target; files
    that are gone from the manifest are deleted.  Directories and their calls are
    those of CafeStore, the plan is UpdatePlan's [compute], the writer FileIO's. *)

From S2P Require Import Prelude Bytes Text FileIO Manifest UpdatePlan CafeStore.

(** ** Names *)

(** [parse_hex]: [None] is the panic of a slice that cuts a character. *)
Fixpoint parse_hex_loop (text : string) (i count : nat) (out : list byte) :
    option (option (list byte)) :=
  match count with
  | O => Some (Some out)
  | S count =>
    digits ← str_slice text (i * 2) (i * 2 + 2);
    match u8_from_str_radix16 digits with
    | None => Some None
    | Some b => parse_hex_loop text (S i) count (out ++ [byte_of b])
    end
  end.

Definition parse_hex (text : string) : option (option hash32) :=
  if negb (lenN (str_bytes text) =? 64) then Some None else
  out ← parse_hex_loop text 0 32 [];
  mret (bs ← out; hash_of bs).

(** [name.strip_suffix(".blk")]: the suffix has one dot, its first character. *)
Definition strip_blk (name : string) : option string :=
  match rsplit "." name with
  | Some (stem, ext) => if String.eqb ext "blk" then Some stem else None
  | None => None
  end.

(** [Path::with_extension("new")] of a relative path in normal form: the
    extension of the last component is replaced. *)
Definition file_stem (name : string) : string :=
  match rsplit "." name with
  | Some (EmptyString, _) | None => name
  | Some (stem, _) => stem
  end.
Definition with_extension_new (path : string) : string :=
  match rsplit "/" path with
  | Some (dir, name) => (dir ++ "/" ++ file_stem name ++ ".new")%string
  | None => (file_stem path ++ ".new")%string
  end.

Record MergeSummary := mkSummary { ms_merged : N; ms_deleted : N; ms_failed : list string }.

(** [file_chunk_map]: hash to offset and length inside one file. *)
Definition pos_step (acc : gmap hash32 (N * N) * N) (chunk : ChunkMeta) :
    gmap hash32 (N * N) * N :=
  (or_insert (ck_hash chunk) (acc.2, ck_len chunk) acc.1, add_u64 acc.2 (ck_len chunk)).
Definition file_chunk_map (f : FileEntry) : gmap hash32 (N * N) :=
  (foldl pos_step (∅, 0) (fe_chunks f)).1.

Section merge.
Context (blake3 : list byte → hash32).
Context {F : Type} `{!FileOps F, !CompioOps F, !DirOps F, !MapIter, !SetIter}.
Abbreviation dirM := (M (GameDir F) error).

(** ** Temporary blocks and the plan *)

(** The loop over the directory entries; [None] is a panic. *)
Fixpoint collect_names (names : list string) (hashes : gset hash32) : option (gset hash32) :=
  match names with
  | [] => Some hashes
  | name :: names =>
    match strip_blk name with
    | None => collect_names names hashes
    | Some stem =>
      hash ← parse_hex stem;
      collect_names names (match hash with Some h => {[h]} ∪ hashes | None => hashes end)
    end
  end.

(** The outer [option] is a panic, [readable] the outcome of [read_dir]. *)
Definition collect_temp_hashes (readable : result error ()) (d : GameDir F) :
    option (result error (gset hash32)) :=
  match readable with
  | Err e => Some (Err ("读取临时目录失败"%string :: e))
  | Ok _ => Ok <$> collect_names (map_iter (gd_temp d)).*1 ∅
  end.

Definition plan_update (new_manifest : list byte) (old_manifest : option (list byte))
    (readable : result error ()) (d : GameDir F) : option (result error UpdatePlan) :=
  match with_context "解析新版本清单失败" (Manifest.decode blake3 new_manifest) with
  | Err e => Some (Err e)
  | Ok new =>
    match match old_manifest with
          | None => Ok None
          | Some bs => Some <$> with_context "解析旧版本清单失败" (Manifest.decode blake3 bs)
          end with
    | Err e => Some (Err e)
    | Ok old =>
      temp ← collect_temp_hashes readable d;
      mret (temp ← temp; Ok (compute new old temp))
    end
  end.

(** ** Assembling one file *)

Fixpoint read_chunk_at_loop (fuel : nat) (file : F) (len off : N) (acc : list byte) :
    result error (list byte) :=
  match fuel with
  | O => Ok acc
  | S fuel =>
    if len =? 0 then Ok acc else
    bs ← with_context "读取块失败" (f_read file len off);
    if lenN bs =? 0 then bail "读取块遇到文件末尾" else
    read_chunk_at_loop fuel file (len - lenN bs) (off + lenN bs) (acc ++ bs)
  end.

Definition read_chunk_at (file : F) (offset len : N) : result error (list byte) :=
  read_chunk_at_loop (N.to_nat len) file len offset [].

(** The file behind an open handle; a handle names its path here, since no path
    that is read is renamed or removed while it is open. *)
Definition handle (path : string) : dirM F := λ d,
  (d, ok_or ["Bad file descriptor"%string] (gd_files d !! path)).

Definition open_handle (msg path : string) : dirM () :=
  f ← handle path;
  lift (with_context msg (fs_open f)).

Definition read_temp (hash : hash32) : dirM (list byte) :=
  d ← get;
  lift (with_context "读取临时块失败"
    match gd_temp d !! block_name hash with
    | Some f => fs_read (df_file f)
    | None => bail "No such file or directory"
    end).

(** A temporary block; the second component is the cached handle [last_global]. *)
Definition from_temp (last_global : option string) (hash : hash32) :
    dirM (list byte * option string) :=
  data ← read_temp hash;
  mret (data, last_global).

(** A file of the old version, if it is still there. *)
Definition from_global (path : string) (offset len : N) (last_global : option string)
    (hash : hash32) : dirM (list byte * option string) :=
  d ← get;
  match gd_files d !! path with
  | Some f =>
    (if decide (last_global = Some path) then mret ()
     else open_handle "打开复用源文件失败" path);;
    data ← lift (read_chunk_at f offset len);
    mret (data, Some path)
  | None => from_temp last_global hash
  end.

Definition from_old (path : string) (offset len : N) (last_global : option string) :
    dirM (list byte * option string) :=
  f ← handle path;
  data ← lift (read_chunk_at f offset len);
  mret (data, last_global).

(** The three sources of a chunk in the order of the code. *)
Definition read_source (old_handle : option string) (old_chunks : option (gmap hash32 (N * N)))
    (global_chunks : ChunkMap) (last_global : option string) (hash : hash32) :
    dirM (list byte * option string) :=
  match old_handle, (m ← old_chunks; m !! hash) with
  | Some path, Some (offset, len) => from_old path offset len last_global
  | _, _ =>
    match global_chunks !! hash with
    | Some (path, offset, len) => from_global path offset len last_global hash
    | None => from_temp last_global hash
    end
  end.

(** The file under construction shows at its path after every write; a write
    that fails may leave any part of its data behind, which is not modelled. *)
Definition put_file (path : string) (f : F) (d : GameDir F) : GameDir F :=
  set_files (<[path := f]> (gd_files d)) d.

Fixpoint assemble (new_path : string) (old_handle : option string)
    (old_chunks : option (gmap hash32 (N * N))) (global_chunks : ChunkMap)
    (chunks : list ChunkMeta) (out : CompioWriter F) (hasher : list byte)
    (last_global : option string) : dirM (CompioWriter F * list byte) :=
  match chunks with
  | [] => mret (out, hasher)
  | chunk :: chunks =>
    r ← read_source old_handle old_chunks global_chunks last_global (ck_hash chunk);
    let '(data, last_global) := r in
    out ← lift (with_context "写入临时文件失败" (write_owned out data));
    modify (put_file new_path (cw_file out));;
    assemble new_path old_handle old_chunks global_chunks chunks out (hasher ++ data) last_global
  end.

Definition remove_file (msg path : string) : dirM () :=
  dir_call msg (λ d, set_files (delete path (gd_files d)) d).

Definition rename_file (msg from to : string) : dirM () :=
  dir_call msg (λ d, match gd_files d !! from with
    | Some f => set_files (<[to := f]> (delete from (gd_files d))) d
    | None => d
    end).

Definition open_old (old_file : option string) : dirM (option string) :=
  d ← get;
  match old_file with
  | Some path =>
    if bool_decide (is_Some (gd_files d !! path)) then
      open_handle "打开旧文件失败" path;; mret (Some path)
    else mret None
  | None => mret None
  end.

(** [sync], [close], and the replacement of the target. *)
Definition replace_target (out : CompioWriter F) (new_path target : string) : dirM () :=
  lift (with_context "同步临时文件失败" (sync_all out));;
  lift (with_context "关闭临时文件失败" (close out));;
  d ← get;
  (if bool_decide (is_Some (gd_files d !! target)) then remove_file "删除旧文件失败" target
   else mret ());;
  rename_file "原子替换失败" new_path target.

Definition write_new_file (entry : FileEntry) (old_chunks : option (gmap hash32 (N * N)))
    (old_file : option string) (global_chunks : ChunkMap) : dirM () :=
  let target := fe_name entry in
  let new_path := with_extension_new target in
  dir_call "创建父目录失败" id;;
  out ← lift (with_context "创建临时文件失败" writer_create);
  modify (put_file new_path (cw_file out));;
  old_handle ← open_old old_file;
  r ← assemble new_path old_handle old_chunks global_chunks (fe_chunks entry) out [] None;
  let '(out, hasher) := r in
  if decide (blake3 hasher ≠ fe_file_hash entry) then
    ignore (remove_file "" new_path : dirM ());;
    throw ["文件哈希校验失败"%string]
  else replace_target out new_path target.

(** ** merge_files *)

Definition need_merge (old_files : gmap string FileEntry) (d : GameDir F) (entry : FileEntry) : bool :=
  let target_exists := bool_decide (is_Some (gd_files d !! fe_name entry)) in
  match old_files !! fe_name entry with
  | None => true
  | Some prev => bool_decide (fe_file_hash prev ≠ fe_file_hash entry) || negb target_exists
  end.

Definition merge_step (old_files : gmap string FileEntry)
    (old_chunk_maps : gmap string (gmap hash32 (N * N))) (global_chunks : ChunkMap)
    (summary : MergeSummary) (entry : FileEntry) : dirM MergeSummary :=
  d ← get;
  if negb (need_merge old_files d entry) then mret summary else
  let old_chunks := old_chunk_maps !! fe_name entry in
  let old_file := (λ _, fe_name entry) <$> old_files !! fe_name entry in
  r ← attempt (write_new_file entry old_chunks old_file global_chunks);
  match r with
  | Ok _ => mret (mkSummary (ms_merged summary + 1) (ms_deleted summary) (ms_failed summary))
  | Err err =>
    ignore (remove_file "" (with_extension_new (fe_name entry)) : dirM ());;
    mret (mkSummary (ms_merged summary) (ms_deleted summary)
      (ms_failed summary ++ [(fe_name entry ++ ": " ++ err_display err)%string]))
  end.

Fixpoint merge_loop (old_files : gmap string FileEntry)
    (old_chunk_maps : gmap string (gmap hash32 (N * N))) (global_chunks : ChunkMap)
    (entries : list FileEntry) (summary : MergeSummary) : dirM MergeSummary :=
  match entries with
  | [] => mret summary
  | entry :: entries =>
    summary ← merge_step old_files old_chunk_maps global_chunks summary entry;
    merge_loop old_files old_chunk_maps global_chunks entries summary
  end.

Fixpoint delete_loop (names : list string) (summary : MergeSummary) : dirM MergeSummary :=
  match names with
  | [] => mret summary
  | name :: names =>
    d ← get;
    if bool_decide (is_Some (gd_files d !! name)) then
      remove_file "删除文件失败" name;;
      delete_loop names (mkSummary (ms_merged summary) (ms_deleted summary + 1) (ms_failed summary))
    else delete_loop names summary
  end.

Definition merge_files (new : GameIndex) (old : option GameIndex) : dirM MergeSummary :=
  let old_files := default ∅ (file_map ∘ gi_files <$> old) in
  let old_chunk_maps := file_chunk_map <$> old_files in
  let global_chunks := default ∅ (build_map <$> old) in
  let old_names := dom old_files in
  let new_names := file_names (gi_files new) in
  summary ← merge_loop old_files old_chunk_maps global_chunks (gi_files new) (mkSummary 0 0 []);
  delete_loop (set_iter (old_names ∖ new_names)) summary.

End merge.
