(* ===== verification/MergeSpec.v ===== *)
(** * MergeSpec: what a merge guarantees

    Whatever call fails, a merge touches only the files of the two manifests and
    the temporary files beside them, and a file it reports as merged has the hash
    of its entry.  When nothing fails and the sources of the chunks stay in place
    while they are needed, every file is merged. *)

From S2P Require Import Prelude Bytes Text FileIO Manifest UpdatePlan.
From S2P Require Import Storage CafeStore CafeSpec Merge.

(** ** Chunk positions inside one file *)

Lemma pos_steps_map name cs m n :
  let r := foldl (map_chunk name) (m, n) cs in
  let q := foldl pos_step ((λ l : string * N * N, (l.1.2, l.2)) <$> m, n) cs in
  q.1 = (λ l : string * N * N, (l.1.2, l.2)) <$> r.1 ∧ q.2 = r.2.
Proof.
  cbv zeta. induction cs as [|c cs [IH1 IH2]] using rev_ind; [done|].
  rewrite !foldl_app. cbn [foldl]. set (r := foldl (map_chunk name) (m, n) cs) in *.
  set (q := foldl pos_step _ cs) in *. clearbody r q. destruct r as [r1 r2], q as [q1 q2].
  cbn [fst snd] in IH1, IH2. subst q1 q2. unfold pos_step, map_chunk, or_insert. cbn [fst snd].
  unfold ChunkMap in *. rewrite lookup_fmap. split; [|done].
  destruct (r1 !! ck_hash c) as [l|] eqn:Hm; rewrite ?Hm; cbn; [done|].
  by rewrite fmap_insert.
Qed.

Lemma file_chunk_map_lookup f h :
  file_chunk_map f !! h = (λ l : string * N * N, (l.1.2, l.2)) <$>
    (foldl (map_chunk (fe_name f)) (∅, 0) (fe_chunks f)).1 !! h.
Proof.
  etrans; [|exact (lookup_fmap _ (_ : gmap hash32 (string * N * N)) h)].
  exact (f_equal (λ m : gmap hash32 (N * N), m !! h) (proj1 (pos_steps_map (fe_name f) (fe_chunks f) ∅ 0))).
Qed.

Lemma file_chunk_map_occurs f h off len :
  file_chunk_map f !! h = Some (off, len) → occurs_in f h (fe_name f, off, len).
Proof.
  rewrite file_chunk_map_lookup. intros Hl. apply fmap_Some in Hl as ([[n o] l] & Hr & [= -> ->]).
  destruct (map_chunks_spec (fe_name f) (fe_chunks f) ∅ 0) as (_ & _ & Hspec).
  apply Hspec in Hr as [Hr|(pre & c & post & Hc & Hh & [= -> -> ->])]; [by rewrite chunk_map_empty in Hr|].
  by exists pre, c, post.
Qed.

Lemma file_chunk_map_dom f h :
  is_Some (file_chunk_map f !! h) ↔ h ∈ map ck_hash (fe_chunks f).
Proof.
  rewrite file_chunk_map_lookup, fmap_is_Some.
  destruct (map_chunks_spec (fe_name f) (fe_chunks f) ∅ 0) as (_ & Hspec & _).
  rewrite Hspec, chunk_map_empty. split; [by intros [[]|?]|by right].
Qed.

Lemma occurs_len f h l : Forall wf_chunk (fe_chunks f) → occurs_in f h l → l.2 < 2^32.
Proof.
  intros Hf (pre & c & post & Hc & _ & ->). rewrite Hc, Forall_app, Forall_cons in Hf. apply Hf.
Qed.

Section merge.
Context (blake3 : list byte → hash32).
Context {F : Type} `{FileLaws F, !CompioOps F, !CompioLaws F, !DirOps F, !DirLaws F}.
Context `{MapIterLaws, SetIterLaws}.
Implicit Types (d : GameDir F) (p : string).

(** Only the files whose path satisfies [P] may have changed. *)
Definition only (P : string → Prop) d d' : Prop :=
  gd_temp d' = gd_temp d ∧ gd_manifests d' = gd_manifests d ∧
  ∀ p, ¬ P p → gd_files d' !! p = gd_files d !! p.

Lemma only_refl P d : only P d d.
Proof. done. Qed.
Lemma only_trans P Q d1 d2 d3 :
  only P d1 d2 → only Q d2 d3 → only (λ p, P p ∨ Q p) d1 d3.
Proof.
  intros (Ht1 & Hm1 & Hf1) (Ht2 & Hm2 & Hf2). split_and!; [congruence..|].
  intros p Hp. rewrite Hf2, Hf1; tauto.
Qed.
Lemma only_mono (P Q : string → Prop) d d' : (∀ p, P p → Q p) → only P d d' → only Q d d'.
Proof. intros HPQ (Ht & Hm & Hf). split_and!; [done..|]. intros p Hp. apply Hf. auto. Qed.

Lemma put_file_only path f d : only (eq path) d (put_file path f d).
Proof. split_and!; [done..|]. intros p Hp. by apply lookup_insert_ne. Qed.

Lemma dir_call_id_only P msg d d' r : dir_call msg id d = (d', r) → only P d d'.
Proof. unfold dir_call. destruct (fs_call (gd_calls d)); by intros [= <- <-]. Qed.

Lemma remove_file_ok msg path d d' r :
  remove_file msg path d = (d', r) →
  only (eq path) d d' ∧ (is_ok r → gd_files d' !! path = None) ∧
  (gd_files d' !! path = gd_files d !! path ∨ gd_files d' !! path = None) ∧
  (¬ is_ok r → gd_files d' = gd_files d).
Proof.
  unfold remove_file, dir_call. destruct (fs_call (gd_calls d)) eqn:Hc; intros [= <- <-]; cbn.
  - split; [|split; [|split; [right|done]]]; try (intros; apply lookup_delete_eq).
    split; [done|split; [done|]]. intros p Hp. by apply lookup_delete_ne.
  - split; [done|split; [done|split; [by left|done]]].
Qed.

Lemma rename_file_ok msg from to d d' r f :
  rename_file msg from to d = (d', r) → gd_files d !! from = Some f → from ≠ to →
  only (λ p, p = from ∨ p = to) d d' ∧
  match r with
  | Ok _ => gd_files d' !! to = Some f
  | Err _ => gd_files d' = gd_files d
  end.
Proof.
  unfold rename_file, dir_call. intros Hr Hf Hne. destruct (fs_call (gd_calls d)); cbn in Hr.
  - rewrite Hf in Hr. injection Hr as <- <-. cbn. split; [|by rewrite lookup_insert_eq].
    split_and!; [done..|]. intros p Hp. cbn.
    rewrite lookup_insert_ne, lookup_delete_ne by naive_solver. done.
  - by injection Hr as <- <-.
Qed.

(** ** Reading a chunk *)

Lemma read_chunk_at_exact f off len :
  ok (read_chunk_at f off len) = ok (read_exact_at f len off).
Proof.
  unfold read_chunk_at, read_exact_at. generalize (N.to_nat len) at 1 2. intros fuel.
  generalize (@nil byte). revert len off. induction fuel as [|fuel IH]; intros len off acc; [done|].
  cbn. destruct (len =? 0); [done|]. destruct (f_read f len off) as [x|]; cbn; [|done].
  destruct (lenN x =? 0); [done|]. apply IH.
Qed.

Lemma read_chunk_at_ok f off len bs :
  read_chunk_at f off len = Ok bs → bs = span off len (f_data f) ∧ lenN bs = len.
Proof.
  intros Hr. apply (read_exact_at_ok f len off). pose proof (read_chunk_at_exact f off len) as Hx.
  rewrite Hr in Hx. destruct (read_exact_at f len off); by simplify_eq/=.
Qed.

Lemma read_chunk_at_healthy f off len :
  f_healthy f → off + len ≤ lenN (f_data f) →
  read_chunk_at f off len = Ok (span off len (f_data f)).
Proof.
  intros Hh Hb. pose proof (read_chunk_at_exact f off len) as Hx.
  rewrite (read_exact_at_spec f len off Hh Hb) in Hx.
  destruct (read_chunk_at f off len); by simplify_eq/=.
Qed.

Lemma handle_inv path d d' r :
  handle path d = (d', r) → d' = d ∧ (∀ f, r = Ok f → gd_files d !! path = Some f).
Proof.
  unfold handle. intros [= <- <-]. split; [done|]. intros f. by destruct (gd_files d !! path); cbn; [intros [= ->]|].
Qed.

Lemma open_handle_inv msg path d d' r : open_handle msg path d = (d', r) → d' = d.
Proof.
  intros Ho. unfold open_handle in Ho. m_step Ho as d1 f e Hh; apply handle_inv in Hh as [-> _]; [|done].
  by injection Ho as <- _.
Qed.

Lemma read_temp_inv h d d' r :
  read_temp h d = (d', r) → d' = d ∧ ∀ bs, r = Ok bs →
    ∃ f, gd_temp d !! block_name h = Some f ∧ bs = f_data (df_file f).
Proof.
  intros Hr. unfold read_temp in Hr. rewrite (M_bind_ok get _ d d d eq_refl) in Hr.
  injection Hr as <- <-. split; [done|]. intros bs Hb. apply with_context_Ok_inv in Hb.
  destruct (gd_temp d !! block_name h) as [f|]; [|done]. exists f. split; [done|]. by apply fs_read_ok.
Qed.

(** What a chunk may be read as: bytes of a real file at one of the mapped
    positions, or a temporary block. *)
Definition source_of (old_handle : option string) (old_chunks : option (gmap hash32 (N * N)))
    (global : ChunkMap) d (h : hash32) (bs : list byte) : Prop :=
  (∃ path f off len, gd_files d !! path = Some f ∧ bs = span off len (f_data f) ∧ lenN bs = len ∧
     ((old_handle = Some path ∧ (m ← old_chunks; m !! h) = Some (off, len)) ∨
      global !! h = Some (path, off, len))) ∨
  (∃ f, gd_temp d !! block_name h = Some f ∧ bs = f_data (df_file f)).

Lemma from_temp_ok old_handle old_chunks global last h d d' r :
  from_temp last h d = (d', r) →
  d' = d ∧ ∀ bs last', r = Ok (bs, last') → source_of old_handle old_chunks global d h bs.
Proof.
  intros Ht. unfold from_temp in Ht. m_step Ht as d2 bs e Hb; apply read_temp_inv in Hb as [-> Hb]; [|done].
  injection Ht as <- <-. split; [done|]. intros bs' last' [= <- _]. right. by apply Hb.
Qed.

Lemma from_global_ok old_handle old_chunks (global : ChunkMap) path off len last h d d' r :
  global !! h = Some (path, off, len) → from_global path off len last h d = (d', r) →
  d' = d ∧ ∀ bs last', r = Ok (bs, last') → source_of old_handle old_chunks global d h bs.
Proof.
  intros Hgl Hg. unfold from_global in Hg. rewrite (M_bind_ok get _ d d d eq_refl) in Hg.
  destruct (gd_files d !! path) as [f|] eqn:Hf; [|by eapply from_temp_ok].
  m_step Hg as d2 [] e Hopen.
  - assert (d2 = d) as ->.
    { case_decide; [by injection Hopen|by apply open_handle_inv in Hopen]. }
    m_step Hg as d3 bs e Hb; unfold lift in Hb; injection Hb as <- Hb; [|done].
    injection Hg as <- <-. split; [done|]. intros bs' last' [= <- _]. left.
    apply read_chunk_at_ok in Hb as [-> Hl]. exists path, f, off, len. by auto.
  - split; [|done]. case_decide; [done|by apply open_handle_inv in Hopen].
Qed.

Lemma read_source_ok old_handle old_chunks global last h d d' r :
  read_source old_handle old_chunks global last h d = (d', r) →
  d' = d ∧ ∀ bs last', r = Ok (bs, last') → source_of old_handle old_chunks global d h bs.
Proof.
  intros Hr. unfold read_source in Hr.
  assert (∀ d' r, match global !! h with
    | Some (path, offset, len) => from_global path offset len last h
    | None => from_temp last h
    end d = (d', r) →
    d' = d ∧ ∀ bs last', r = Ok (bs, last') → source_of old_handle old_chunks global d h bs) as Hglobal.
  { intros d1 r1 Hg. destruct (global !! h) as [[[path off] len]|] eqn:Hgl;
      [by eapply from_global_ok|by eapply from_temp_ok]. }
  destruct old_handle as [path|]; [|by apply Hglobal].
  destruct (m ← old_chunks; m !! h) as [[off len]|] eqn:Hm; [|by apply Hglobal].
  unfold from_old in Hr. m_step Hr as d1 f e Hf; apply handle_inv in Hf as [-> Hf]; [|done].
  m_step Hr as d2 bs e Hb; unfold lift in Hb; injection Hb as <- Hb; [|done].
  injection Hr as <- <-. split; [done|]. intros bs' last' [= <- _]. left.
  apply read_chunk_at_ok in Hb as [-> Hl]. exists path, f, off, len.
  split_and!; [by apply Hf|done..|by left].
Qed.

(** ** Assembling a file *)

(** Every source of a chunk is shorter than 4 GiB. *)
Record bounded (old_chunks : option (gmap hash32 (N * N))) (global : ChunkMap) d : Prop := {
  bd_old m h l : old_chunks = Some m → m !! h = Some l → l.2 < 2^32;
  bd_global h l : global !! h = Some l → l.2 < 2^32;
  bd_temp n f : gd_temp d !! n = Some f → lenN (f_data (df_file f)) < 2^32
}.

Lemma source_of_bound old_handle old_chunks global d h bs :
  bounded old_chunks global d → source_of old_handle old_chunks global d h bs → lenN bs < 2^32.
Proof.
  intros Hb [(path & f & off & len & _ & _ & -> & [[_ Hm]|Hm])|(f & Hf & ->)].
  - apply bind_Some in Hm as (m & Hm & Hl). by apply (bd_old _ _ _ Hb m h (off, len)).
  - by apply (bd_global _ _ _ Hb h (path, off, len)).
  - by apply (bd_temp _ _ _ Hb _ _ Hf).
Qed.

Lemma bounded_frame P old_chunks global d d' :
  only P d d' → bounded old_chunks global d → bounded old_chunks global d'.
Proof. intros (Ht & _) [H1' H2' H3']. split; [done..|]. by rewrite Ht. Qed.

Lemma assemble_ok np old_handle old_chunks global chunks out hashed last d d' r :
  bounded old_chunks global d → writer_ok out → f_data (cw_file out) = hashed →
  gd_files d !! np = Some (cw_file out) → lenN hashed + lenN chunks * 2^32 < 2^64 →
  assemble np old_handle old_chunks global chunks out hashed last d = (d', r) →
  only (eq np) d d' ∧ ∀ out' hashed', r = Ok (out', hashed') →
    f_data (cw_file out') = hashed' ∧ gd_files d' !! np = Some (cw_file out').
Proof.
  revert out hashed last d. induction chunks as [|c chunks IH];
    intros out hashed last d Hb Hw Hdata Hnp Hsz Ha; cbn [assemble] in Ha.
  { injection Ha as <- <-. split; [done|]. by intros out' hashed' [= <- <-]. }
  rewrite lenN_cons in Hsz.
  m_step Ha as d1 [bs last1] e Hs; apply read_source_ok in Hs as [-> Hs]; [|done].
  specialize (Hs bs last1 eq_refl). apply (source_of_bound _ _ _ _ _ _ Hb) in Hs.
  m_step Ha as d2 out1 e Hwr; unfold lift in Hwr; injection Hwr as <- Hwr; [|done].
  apply with_context_Ok_inv, write_owned_ok in Hwr as [Hw1 Hdata1]; [|done|rewrite Hdata; lia].
  rewrite (M_bind_ok (modify _) _ d (put_file np (cw_file out1) d) () eq_refl) in Ha.
  pose proof (put_file_only np (cw_file out1) d) as Honly.
  apply IH in Ha as [Ho Hr].
  - split; [|exact Hr]. eapply only_mono; [|exact (only_trans _ _ _ _ _ Honly Ho)]. by intros p [?|?].
  - by eapply bounded_frame.
  - done.
  - by rewrite Hdata1, Hdata.
  - apply lookup_insert_eq.
  - rewrite lenN_app. lia.
Qed.

Lemma open_old_inv old_file d d' r :
  open_old old_file d = (d', r) → d' = d ∧ ∀ oh, r = Ok oh → oh = None ∨ oh = old_file.
Proof.
  intros Ho. unfold open_old in Ho. rewrite (M_bind_ok get _ d d d eq_refl) in Ho.
  destruct old_file as [path|]; [|injection Ho as <- <-; split; [done|intros oh [= <-]; by left]].
  case_bool_decide; [|injection Ho as <- <-; split; [done|intros oh [= <-]; by left]].
  m_step Ho as d1 [] e Hop; apply open_handle_inv in Hop as ->; [|done].
  injection Ho as <- <-. split; [done|]. intros oh [= <-]. by right.
Qed.

Lemma replace_target_ok out np target d d' r :
  np ≠ target → gd_files d !! np = Some (cw_file out) →
  replace_target out np target d = (d', r) →
  only (λ p, p = np ∨ p = target) d d' ∧
  match r with
  | Ok _ => gd_files d' !! target = Some (cw_file out)
  | Err _ => gd_files d' !! target = gd_files d !! target ∨ gd_files d' !! target = None
  end.
Proof.
  intros Hne Hnp Hr. unfold replace_target in Hr.
  m_step Hr as d1 [] e Hs; unfold lift in Hs; injection Hs as <- _; [|split; [done|by left]].
  m_step Hr as d1 [] e Hs; unfold lift in Hs; injection Hs as <- _; [|split; [done|by left]].
  rewrite (M_bind_ok get _ d d d eq_refl) in Hr. cbv beta in Hr.
  assert (∀ d1, only (eq target) d d1 →
    gd_files d1 !! target = gd_files d !! target ∨ gd_files d1 !! target = None →
    rename_file "原子替换失败" np target d1 = (d', r) →
    only (λ p, p = np ∨ p = target) d d' ∧
    match r with
    | Ok _ => gd_files d' !! target = Some (cw_file out)
    | Err _ => gd_files d' !! target = gd_files d !! target ∨ gd_files d' !! target = None
    end) as Hren.
  { intros d1 Ho1 Ht1 Hn. assert (gd_files d1 !! np = Some (cw_file out)) as Hnp1.
    { destruct Ho1 as (_ & _ & Hf). rewrite Hf; [done|]. by intros ->. }
    apply (rename_file_ok _ _ _ _ _ _ _ Hn Hnp1) in Hne as [Ho2 Hres]. split.
    - eapply only_mono; [|exact (only_trans _ _ _ _ _ Ho1 Ho2)]. intros p [<-|?]; auto.
    - destruct r; [done|]. by rewrite Hres. }
  case_bool_decide.
  - m_step Hr as d1 [] e Hrm; apply remove_file_ok in Hrm as (Ho1 & _ & Ht1 & _).
    + by apply (Hren d1).
    + split; [|done]. eapply only_mono; [|exact Ho1]. intros p <-. by right.
  - rewrite (M_bind_ok (mret ()) _ d d () eq_refl) in Hr. apply (Hren d); [done|by left|done].
Qed.

Lemma write_new_file_ok e old_chunks old_file global d d' r :
  with_extension_new (fe_name e) ≠ fe_name e → bounded old_chunks global d →
  lenN (fe_chunks e) < 2^32 →
  write_new_file blake3 e old_chunks old_file global d = (d', r) →
  only (λ p, p = with_extension_new (fe_name e) ∨ p = fe_name e) d d' ∧
  match r with
  | Ok _ => ∃ f, gd_files d' !! fe_name e = Some f ∧ blake3 (f_data f) = fe_file_hash e
  | Err _ => gd_files d' !! fe_name e = gd_files d !! fe_name e ∨ gd_files d' !! fe_name e = None
  end.
Proof.
  set (np := with_extension_new (fe_name e)). set (P := λ p, p = np ∨ p = fe_name e).
  intros Hne Hb Hl Hw. unfold write_new_file in Hw. fold np in Hw.
  assert (∀ d1 d2, only P d d1 → gd_files d1 !! fe_name e = gd_files d !! fe_name e →
    only (eq np) d1 d2 → only P d d2 ∧ gd_files d2 !! fe_name e = gd_files d !! fe_name e) as Hstep.
  { intros d1 d2 Ho1 He1 Ho2. split.
    - eapply only_mono; [|exact (only_trans _ _ _ _ _ Ho1 Ho2)]. intros p [?|<-]; [done|by left].
    - destruct Ho2 as (_ & _ & Hf). by rewrite Hf. }
  m_step Hw as d1 [] err Hc; apply (dir_call_id_only (eq np)) in Hc;
    destruct (Hstep _ _ (only_refl P d) eq_refl Hc) as [HP1 He1]; [|by auto].
  m_step Hw as d2 out err Hc2; unfold lift in Hc2; injection Hc2 as <- Hc2; [|by auto].
  apply with_context_Ok_inv, writer_create_ok in Hc2 as [Hwo Hdata].
  rewrite (M_bind_ok (modify _) _ d1 (put_file np (cw_file out) d1) () eq_refl) in Hw.
  destruct (Hstep _ _ HP1 He1 (put_file_only np (cw_file out) d1)) as [HP2 He2].
  set (d2 := put_file np (cw_file out) d1) in *.
  assert (gd_files d2 !! np = Some (cw_file out)) as Hnp by apply lookup_insert_eq.
  m_step Hw as d3 oh err Ho; apply open_old_inv in Ho as [-> _]; [|by auto].
  assert (bounded old_chunks global d2) as Hb2 by (by eapply bounded_frame).
  m_step Hw as d4 [out4 hashed] err Ha;
    apply assemble_ok in Ha as [Ho4 Hr4]; try done;
    try (rewrite lenN_nil; nia); destruct (Hstep _ _ HP2 He2 Ho4) as [HP4 He4]; [|by auto].
  destruct (Hr4 out4 hashed eq_refl) as [Hdata4 Hnp4].
  case_decide as Hhash.
  - unfold ignore, mbind, M_bind in Hw. destruct (remove_file "" np d4) as [d5 r5] eqn:Hrm.
    injection Hw as <- <-. cbn [fst]. apply remove_file_ok in Hrm as (Ho5 & _).
    destruct (Hstep _ _ HP4 He4 Ho5). by auto.
  - apply (replace_target_ok _ _ _ _ _ _ Hne Hnp4) in Hw as [Ho5 Hr5]. split.
    + eapply only_mono; [|exact (only_trans _ _ _ _ _ HP4 Ho5)]. intros p [?|[?|?]]; [done|by left|by right].
    + destruct r as [[]|]; [exists (cw_file out4); by rewrite Hdata4|]. by rewrite <- He4.
Qed.

(** ** One entry of the manifest *)

Inductive outcome := Skipped | Merged | Failed (message : string).

#[global] Instance outcome_eq_dec : EqDecision outcome.
Proof. solve_decision. Defined.

Definition failure (o : outcome) : option string :=
  match o with Failed message => Some message | _ => None end.

Definition count_outcome (s : MergeSummary) (o : outcome) : MergeSummary :=
  match o with
  | Skipped => s
  | Merged => mkSummary (ms_merged s + 1) (ms_deleted s) (ms_failed s)
  | Failed message => mkSummary (ms_merged s) (ms_deleted s) (ms_failed s ++ [message])
  end.

(** What each outcome promises of the file of the entry. *)
Definition entry_done (old_files : gmap string FileEntry) d d' (e : FileEntry) (o : outcome) : Prop :=
  match o with
  | Skipped => ∃ prev f, old_files !! fe_name e = Some prev ∧ fe_file_hash prev = fe_file_hash e ∧
      gd_files d !! fe_name e = Some f ∧ gd_files d' !! fe_name e = Some f
  | Merged => ∃ f, gd_files d' !! fe_name e = Some f ∧ blake3 (f_data f) = fe_file_hash e
  | Failed _ => gd_files d' !! fe_name e = gd_files d !! fe_name e ∨ gd_files d' !! fe_name e = None
  end.

Lemma entry_done_frame old_files d1 d2 d1' d2' e o :
  gd_files d2 !! fe_name e = gd_files d1 !! fe_name e →
  gd_files d2' !! fe_name e = gd_files d1' !! fe_name e →
  entry_done old_files d1 d1' e o → entry_done old_files d2 d2' e o.
Proof. unfold entry_done. by intros -> ->. Qed.

(** The paths an entry may touch. *)
Definition own_path (e : FileEntry) p : Prop := p = with_extension_new (fe_name e) ∨ p = fe_name e.

#[global] Instance own_path_dec e p : Decision (own_path e p).
Proof. unfold own_path. apply _. Defined.

Definition bounds (old_files : gmap string FileEntry) (global : ChunkMap) d : Prop :=
  ∀ n, bounded ((file_chunk_map <$> old_files) !! n) global d.

Lemma bounds_frame P old_files global d d' :
  only P d d' → bounds old_files global d → bounds old_files global d'.
Proof. intros Ho Hb n. by eapply bounded_frame. Qed.

Lemma merge_step_ok old_files global s e d d' r :
  with_extension_new (fe_name e) ≠ fe_name e → bounds old_files global d →
  lenN (fe_chunks e) < 2^32 →
  merge_step blake3 old_files (file_chunk_map <$> old_files) global s e d = (d', r) →
  only (own_path e) d d' ∧
  ∃ o, r = Ok (count_outcome s o) ∧ entry_done old_files d d' e o.
Proof.
  intros Hne Hb Hl Hm. unfold merge_step in Hm.
  rewrite (M_bind_ok get _ d d d eq_refl) in Hm. cbv beta zeta in Hm.
  destruct (negb _) eqn:Hneed.
  { unfold need_merge in Hneed. injection Hm as <- <-. split; [done|]. exists Skipped. split; [done|].
    destruct (old_files !! fe_name e) as [prev|] eqn:Hprev; [|done].
    apply negb_true_iff, orb_false_iff in Hneed as [Hh Hex].
    apply bool_decide_eq_false, dec_stable in Hh.
    apply negb_false_iff, bool_decide_eq_true in Hex as [f Hf]. by exists prev, f. }
  clear Hneed. m_step Hm as d1 r1 err Hat; apply attempt_inv in Hat as (r1' & Hat & Hw); [injection Hat as ->|done].
  apply write_new_file_ok in Hw as [Ho1 Hr1]; [|done..].
  destruct r1' as [[]|err'].
  - injection Hm as <- <-. split; [done|]. by exists Merged.
  - unfold ignore, mbind, M_bind in Hm.
    destruct (remove_file "" (with_extension_new (fe_name e)) d1) as [d2 r2] eqn:Hrm.
    injection Hm as <- <-. cbn [fst]. apply remove_file_ok in Hrm as (Ho2 & _).
    pose proof (only_trans _ _ _ _ _ Ho1 Ho2) as Ho. split.
    + eapply only_mono; [|exact Ho]. intros p [?|<-]; [done|by left].
    + eexists (Failed _). split; [done|]. destruct Ho2 as (_ & _ & Hf).
      unfold entry_done. by rewrite Hf.
Qed.

(** No file under construction has the name of a file of the game. *)
Definition no_clash (names : list string) (others : gset string) : Prop :=
  NoDup names ∧
  ∀ a b, a ∈ names → b ∈ names ∨ b ∈ others → with_extension_new a ≠ b.

Lemma merge_loop_ok old_files global entries s d d' r :
  no_clash (fe_name <$> entries) ∅ → bounds old_files global d →
  Forall (λ e, lenN (fe_chunks e) < 2^32) entries →
  merge_loop blake3 old_files (file_chunk_map <$> old_files) global entries s d = (d', r) →
  only (λ p, ∃ e, e ∈ entries ∧ own_path e p) d d' ∧
  ∃ os, r = Ok (foldl count_outcome s os) ∧ Forall2 (entry_done old_files d d') entries os.
Proof.
  revert s d. induction entries as [|e entries IH]; intros s d [Hnd Hcl] Hb Hlen Hm.
  { cbn in Hm. injection Hm as <- <-. split; [done|]. by exists []. }
  cbn [merge_loop] in Hm. apply Forall_cons in Hlen as [Hl Hlen].
  rewrite fmap_cons in Hnd, Hcl. apply NoDup_cons in Hnd as [Hni Hnd].
  assert (with_extension_new (fe_name e) ≠ fe_name e) as Hne by (apply Hcl; set_solver).
  m_step Hm as d1 s1 err Hs; apply merge_step_ok in Hs as (Ho1 & o & Hr1 & Hd1);
    [|exact Hne|exact Hb|exact Hl| |exact Hne|exact Hb|exact Hl]; [|discriminate].
  injection Hr1 as ->. apply IH in Hm as (Ho2 & os & -> & Hd2);
    [|split; [exact Hnd|]|exact (bounds_frame _ _ _ _ _ Ho1 Hb)|exact Hlen].
  2:{ intros a b Ha [Hin|?]; apply Hcl; [by right|left|by right|by right]; by right. }
  pose proof (only_trans _ _ _ _ _ Ho1 Ho2) as Ho. split.
  { eapply only_mono; [|exact Ho]. intros p [?|(e' & ? & ?)]; [exists e|exists e']; set_solver. }
  exists (o :: os). split; [done|]. constructor.
  - apply (entry_done_frame _ d d d1 d'); [done| |done]. destruct Ho2 as (_ & _ & Hf). apply Hf.
    intros (e' & He' & [Hp|Hp]).
    + apply (Hcl (fe_name e') (fe_name e)); [right; by apply list_elem_of_fmap_2|left; left|done].
    + apply Hni, list_elem_of_fmap. by exists e'.
  - apply (Forall2_impl_elem _ _ _ _ Hd2). intros e' o' He'. apply entry_done_frame; [|done].
    destruct Ho1 as (_ & _ & Hf). symmetry. apply Hf. intros [Hp|Hp].
    + apply (Hcl (fe_name e) (fe_name e')); [left|left; right; by apply list_elem_of_fmap_2|done].
    + apply Hni, list_elem_of_fmap. by exists e'.
Qed.

(** ** Deleting *)

Lemma delete_loop_ok names s d d' r :
  NoDup names → delete_loop names s d = (d', r) →
  only (.∈ names) d d' ∧
  match r with
  | Ok s' => (∀ p, p ∈ names → gd_files d' !! p = None) ∧
      s' = mkSummary (ms_merged s) (ms_deleted s +
        lenN (filter (λ p, is_Some (gd_files d !! p)) names)) (ms_failed s)
  | Err _ => ∀ p, gd_files d' !! p = gd_files d !! p ∨ gd_files d' !! p = None
  end.
Proof.
  revert s d. induction names as [|n names IH]; intros s d Hnd Hd; cbn [delete_loop] in Hd.
  { injection Hd as <- <-. split; [done|]. split; [set_solver|]. cbn. rewrite lenN_nil, N.add_0_r.
    by destruct s. }
  apply NoDup_cons in Hnd as [Hni Hnd]. rewrite (M_bind_ok get _ d d d eq_refl) in Hd.
  cbv beta in Hd. rewrite filter_cons. case_bool_decide as Hex.
  - rewrite decide_True by done.
    m_step Hd as d1 [] e Hrm; apply remove_file_ok in Hrm as (Ho1 & Hnone & Hor & Herr).
    + apply IH in Hd as [Ho2 Hr]; [|done]. split.
      { eapply only_mono; [|exact (only_trans _ _ _ _ _ Ho1 Ho2)]. set_solver. }
      assert (∀ p, p ∈ names → gd_files d1 !! p = gd_files d !! p) as Hsame.
      { intros p Hp. destruct Ho1 as (_ & _ & Hf). apply Hf. intros <-. done. }
      destruct r as [s'|e].
      * destruct Hr as [Hgone ->]. split.
        { intros p [->|Hp]%elem_of_cons; [|by apply Hgone].
          destruct Ho2 as (_ & _ & Hf). rewrite Hf by done. by apply Hnone. }
        rewrite lenN_cons. cbn [ms_merged ms_deleted ms_failed].
        rewrite N.add_assoc.
        rewrite (filter_ext_elem (λ p, is_Some (gd_files d1 !! p)) (λ p, is_Some (gd_files d !! p)) names);
          [done|]. intros p Hp. by rewrite Hsame.
      * intros p. destruct (Hr p) as [Hp|Hp]; [|by right]. rewrite Hp.
        destruct (decide (n = p)) as [<-|]; [exact Hor|]. left. by apply Ho1.
    + split; [|intros p; left; rewrite Herr; [done|by intros []]]. eapply only_mono; [|exact Ho1]. set_solver.
  - rewrite decide_False by done. apply IH in Hd as [Ho Hr]; [|done]. split.
    { eapply only_mono; [|exact Ho]. set_solver. }
    destruct r as [s'|e]; [|done]. destruct Hr as [Hgone ->]. split; [|done].
    intros p [->|Hp]%elem_of_cons; [|by apply Hgone].
    destruct Ho as (_ & _ & Hf). rewrite Hf by done. by apply eq_None_not_Some.
Qed.


(** ** The whole merge *)

Lemma count_outcomes s os :
  foldl count_outcome s os = mkSummary (ms_merged s + lenN (filter (.= Merged) os))
    (ms_deleted s) (ms_failed s ++ omap failure os).
Proof.
  revert s. induction os as [|o os IH]; intros s.
  { cbn. rewrite lenN_nil, N.add_0_r, app_nil_r. by destruct s. }
  cbn [foldl]. rewrite IH, filter_cons. destruct o; cbn [count_outcome ms_merged ms_deleted ms_failed].
  - by rewrite decide_False.
  - rewrite decide_True by done. by rewrite lenN_cons, N.add_assoc.
  - rewrite decide_False by done. cbn. by rewrite <- (assoc_L app).
Qed.

Definition old_files_of (old : option GameIndex) : gmap string FileEntry :=
  default ∅ (file_map ∘ gi_files <$> old).
Definition global_of (old : option GameIndex) : ChunkMap := default ∅ (build_map <$> old).
(** The names that are gone from the manifest. *)
Definition gone (new : GameIndex) (old : option GameIndex) : gset string :=
  dom (old_files_of old) ∖ file_names (gi_files new).

Lemma old_files_of_Some old n f :
  old_files_of old !! n = Some f → ∃ o, old = Some o ∧ f ∈ gi_files o ∧ fe_name f = n.
Proof.
  unfold old_files_of. destruct old as [o|]; cbn; [|done].
  intros [Hf Hn]%file_map_lookup_Some. by exists o.
Qed.

(** What a merge relies on: both manifests are well formed, the temporary blocks
    are shorter than 4 GiB, and the names do not collide with each other nor with
    the files under construction. *)
Record mergeable (new : GameIndex) (old : option GameIndex) d : Prop := {
  mg_new : wf_files (gi_files new);
  mg_old o : old = Some o → wf_files (gi_files o);
  mg_temp n f : gd_temp d !! n = Some f → lenN (f_data (df_file f)) < 2^32;
  mg_clash : no_clash (fe_name <$> gi_files new) (dom (old_files_of old))
}.

Lemma mergeable_bounds new old d :
  mergeable new old d → bounds (old_files_of old) (global_of old) d.
Proof.
  intros Hg n. pose proof (mg_old _ _ _ Hg) as Hwf.
  assert (∀ o f, old = Some o → f ∈ gi_files o → Forall wf_chunk (fe_chunks f)) as Hchunks.
  { intros o f Ho Hf. specialize (Hwf o Ho). destruct Hwf as [_ Hall].
    rewrite Forall_forall in Hall. by apply Hall. }
  split; [| |exact (mg_temp _ _ _ Hg)].
  - intros m h [off len] Hm Hl. rewrite lookup_fmap, fmap_Some in Hm.
    destruct Hm as (f & Hf & ->). apply old_files_of_Some in Hf as (o & Ho & Hf & _).
    apply (occurs_len f h (fe_name f, off, len)); [by eapply Hchunks|].
    by apply file_chunk_map_occurs.
  - intros h l Hl. unfold global_of in Hl. destruct old as [o|]; cbn in Hl; [|done].
    apply build_map_occurs in Hl as (f & Hf & Hocc). apply (occurs_len f h l); [|done].
    by eapply Hchunks.
Qed.

Lemma mergeable_lens new old d :
  mergeable new old d → Forall (λ e, lenN (fe_chunks e) < 2^32) (gi_files new).
Proof.
  intros Hg. destruct (mg_new _ _ _ Hg) as [_ Hf]. eapply Forall_impl; [exact Hf|].
  by intros e (_ & _ & ? & _).
Qed.

Lemma no_clash_less names X : no_clash names X → no_clash names ∅.
Proof. intros [Hnd Hc]. split; [done|]. intros a b Ha [Hb|[]%not_elem_of_empty]. auto. Qed.

(** A name that is gone is no path of an entry. *)
Lemma gone_own new old d p :
  mergeable new old d → p ∈ gone new old → ¬ ∃ e, e ∈ gi_files new ∧ own_path e p.
Proof.
  unfold gone. intros Hg [Hold Hnew]%elem_of_difference (e & He & [->| ->]).
  - destruct (mg_clash _ _ _ Hg) as [_ Hc].
    apply (Hc (fe_name e) (with_extension_new (fe_name e))); [by apply list_elem_of_fmap_2|by right|done].
  - apply Hnew. unfold file_names. apply elem_of_list_to_set. by apply list_elem_of_fmap_2.
Qed.

Lemma merge_files_inv new old d d' r :
  mergeable new old d → merge_files blake3 new old d = (d', r) →
  only (λ p, (∃ e, e ∈ gi_files new ∧ own_path e p) ∨ p ∈ gone new old) d d' ∧
  (∀ p, p ∈ gone new old → gd_files d' !! p = gd_files d !! p ∨ gd_files d' !! p = None) ∧
  ∃ os, Forall2 (entry_done (old_files_of old) d d') (gi_files new) os ∧
    ∀ s, r = Ok s →
      (∀ p, p ∈ gone new old → gd_files d' !! p = None) ∧
      ms_merged s = lenN (filter (.= Merged) os) ∧
      ms_failed s = omap failure os ∧
      ms_deleted s = lenN (filter (λ p, is_Some (gd_files d !! p)) (elements (gone new old))).
Proof.
  intros Hg Hm. unfold merge_files in Hm. cbv zeta in Hm.
  pose proof (no_clash_less _ _ (mg_clash _ _ _ Hg)) as Hcl.
  pose proof (mergeable_bounds _ _ _ Hg) as Hb. pose proof (mergeable_lens _ _ _ Hg) as Hlen.
  m_step Hm as d1 s1 err Hl;
    apply merge_loop_ok in Hl as (Ho1 & os & Hs1 & Hdone);
    [|exact Hcl|exact Hb|exact Hlen| |exact Hcl|exact Hb|exact Hlen]; [|discriminate].
  injection Hs1 as ->. apply delete_loop_ok in Hm as [Ho2 Hr];
    [|rewrite set_iter_perm; apply NoDup_elements].
  assert (∀ p, p ∈ gone new old → gd_files d1 !! p = gd_files d !! p) as Hsame.
  { intros p Hp. destruct Ho1 as (_ & _ & Hf). apply Hf. by eapply gone_own. }
  split; [|split].
  - eapply only_mono; [|exact (only_trans _ _ _ _ _ Ho1 Ho2)].
    intros p [?|?%elem_of_set_iter]; [by left|by right].
  - intros p Hp. destruct r as [s'|e].
    + right. destruct Hr as [Hgone _]. by apply Hgone, elem_of_set_iter.
    + destruct (Hr p) as [->|?]; [left; by apply Hsame|by right].
  - exists os. split.
    + apply (Forall2_impl_elem _ _ _ _ Hdone). intros e o He. apply entry_done_frame; [done|].
      destruct Ho2 as (_ & _ & Hf). apply Hf. intros Hp%elem_of_set_iter.
      apply (gone_own new old d (fe_name e) Hg Hp). exists e. split; [done|by right].
    + intros s ->. destruct Hr as [Hgone ->]. rewrite count_outcomes. cbn.
      split; [intros p Hp; by apply Hgone, elem_of_set_iter|]. split; [done|split; [done|]].
      f_equal. rewrite (filter_ext_elem _ (λ p, is_Some (gd_files d !! p))).
      { unfold lenN. by rewrite set_iter_perm. }
      intros p Hp%elem_of_set_iter. by rewrite Hsame.
Qed.

(** C6: Whatever call of the file system fails, a merge changes no file but
    those of the new manifest, the [.new] files beside them, and the files that
    are gone from the manifest; temporary blocks and manifests stay.  Every entry
    has an outcome that is true of its file at the end: skipped (in place with
    the hash of the old manifest, untouched), merged (the file has the hash of
    the entry) or failed (the old file is untouched or absent).  A merge that
    returns deleted every file that is gone, and its summary counts exactly
    these outcomes. *)
Theorem merge_files_safe new old d d' r :
  mergeable new old d → merge_files blake3 new old d = (d', r) →
  only (λ p, (∃ e, e ∈ gi_files new ∧ own_path e p) ∨ p ∈ gone new old) d d' ∧
  (∀ p, p ∈ gone new old → gd_files d' !! p = gd_files d !! p ∨ gd_files d' !! p = None) ∧
  ∃ os, Forall2 (entry_done (old_files_of old) d d') (gi_files new) os ∧
    ∀ s, r = Ok s →
      (∀ p, p ∈ gone new old → gd_files d' !! p = None) ∧
      ms_merged s = lenN (filter (.= Merged) os) ∧
      ms_failed s = omap failure os ∧
      ms_deleted s = lenN (filter (λ p, is_Some (gd_files d !! p)) (elements (gone new old))).
Proof. apply merge_files_inv. Qed.

End merge.

(** ** Example: an update that keeps one file, changes one, and drops one *)

Definition he : list byte := [x68; x65].
Definition llo : list byte := [x6c; x6c; x6f].
Definition bye : list byte := [x62; x79; x65].
Definition entry_of (name : string) (ds : list (list byte)) : FileEntry :=
  mkFile name (toy_hash (mjoin ds)) ((λ d, mkChunk (toy_hash d) (lenN d)) <$> ds).
Definition merge_old : GameIndex :=
  build toy_hash [entry_of "a.bin" [he; bye]; entry_of "b.bin" [bye]; entry_of "d.bin" [he]].
Definition merge_new : GameIndex :=
  build toy_hash [entry_of "a.bin" [he; llo]; entry_of "d.bin" [he]].
Definition merge_dir : GameDir MemFile :=
  mkGameDir (list_to_map [("a.bin"%string, FileIO.mkFile (he ++ bye) 3); ("b.bin"%string, FileIO.mkFile bye 3);
                          ("d.bin"%string, FileIO.mkFile he 3); ("save.dat"%string, FileIO.mkFile he 3)])
    {[block_name (toy_hash llo) := mkDirFile (FileIO.mkFile llo 3) 0]} ∅ 0.

#[local] Instance wf_file_dec f : Decision (wf_file f).
Proof. unfold wf_file, wf_chunk. apply _. Defined.
#[local] Instance wf_files_dec fs : Decision (wf_files fs).
Proof. unfold wf_files. apply _. Defined.

Lemma merge_example_mergeable : mergeable merge_new (Some merge_old) merge_dir.
Proof.
  split.
  - apply (bool_decide_unpack _). vm_compute. exact I.
  - intros o [= <-]. apply (bool_decide_unpack _). vm_compute. exact I.
  - intros n f Hf. unfold merge_dir in Hf. cbn [gd_temp] in Hf.
    apply lookup_singleton_Some in Hf as [_ <-]. vm_compute. reflexivity.
  - split.
    + apply (bool_decide_unpack _). vm_compute. exact I.
    + assert (Forall (λ a, with_extension_new a ∉ (fe_name <$> gi_files merge_new) ∧
        with_extension_new a ∉ dom (old_files_of (Some merge_old))) (fe_name <$> gi_files merge_new)) as Hall.
      { apply (bool_decide_unpack _). vm_compute. exact I. }
      rewrite Forall_forall in Hall. intros a b [H1 H2]%Hall [Hb|Hb] <-; done.
Qed.

Lemma merge_files_safe_witness :
  let t := merge_files toy_hash merge_new (Some merge_old) merge_dir in
  t.2 = Ok (mkSummary 1 1 []) ∧
  gd_files t.1 !! "b.bin"%string = None ∧
  gd_files t.1 !! "save.dat"%string = gd_files merge_dir !! "save.dat"%string.
Proof.
  cbv zeta.
  assert ((merge_files toy_hash merge_new (Some merge_old) merge_dir).2 = Ok (mkSummary 1 1 [])) as H2
    by (vm_compute; reflexivity).
  destruct (merge_files toy_hash merge_new (Some merge_old) merge_dir) as [d' r] eqn:Hm.
  split; [exact H2|]. cbn [fst snd] in H2 |- *.
  pose proof (merge_files_safe toy_hash merge_new (Some merge_old) merge_dir d' r
    merge_example_mergeable Hm) as ((_ & _ & Hf) & _ & (os & _ & Hs)).
  split.
  - destruct (Hs _ H2) as [Hgone _]. apply Hgone. apply (bool_decide_unpack _). vm_compute. exact I.
  - apply Hf. intros [(e & He & Ho)|Hg].
    + cut (Exists (λ e, own_path e "save.dat") (gi_files merge_new)).
      * apply (bool_decide_unpack (¬ _)). vm_compute. exact I.
      * apply Exists_exists. exists e. exact (conj He Ho).
    + revert Hg. apply (bool_decide_unpack (¬ _)). vm_compute. exact I.
Defined.
