(* ===== verification/MergeLive.v ===== *)
(** * MergeLive: when a merge succeeds

    No call of the file system fails, the real files are those of the old
    manifest, and every chunk of a file that must be merged can be read from a
    place the merge itself does not overwrite first.  Then every file of the new
    manifest ends up with its content. *)

From S2P Require Import Prelude Bytes Text FileIO Manifest UpdatePlan.
From S2P Require Import Storage CafeStore CafeSpec Merge MergeSpec.

(** No call of the file system fails on a healthy file. *)
Class Quiet (F : Type) `{!FileOps F, !CompioOps F, !DirOps F} : Prop := {
  q_call n : is_ok (fs_call n);
  q_open (f : F) : f_healthy f → is_ok (fs_open f);
  q_fs_read (f : F) : f_healthy f → is_ok (fs_read f);
  q_create : ∃ f, cp_create = Ok f ∧ f_healthy f;
  q_write (f : F) bs off : f_healthy f → ∃ f', cp_write_all f bs off = Ok f' ∧ f_healthy f';
  q_sync (f : F) : f_healthy f → is_ok (cp_sync f);
  q_close (f : F) : f_healthy f → is_ok (cp_close f);
  q_write_file old bs : ∃ f, fs_write_file old bs = (Some f, Ok ()) ∧ f_healthy f
}.

Lemma is_ok_inv {E A} (r : result E A) : is_ok r → ∃ a, r = Ok a.
Proof. destruct r as [a|]; [by exists a|done]. Qed.

Section live.
Context (blake3 : list byte → hash32).
Context {F : Type} `{FileLaws F, !CompioOps F, !CompioLaws F, !DirOps F, !DirLaws F, !Quiet F}.
Context `{MapIterLaws, SetIterLaws}.
Implicit Types (d : GameDir F) (p : string).

(** ** Single calls *)

Lemma dir_call_quiet msg effect d :
  dir_call msg effect d =
    (effect (mkGameDir (gd_files d) (gd_temp d) (gd_manifests d) (S (gd_calls d))), Ok ()).
Proof.
  unfold dir_call. destruct (is_ok_inv _ (q_call (gd_calls d))) as [[] Hc]. by rewrite Hc.
Qed.

Lemma remove_file_quiet msg p d : ∃ d', remove_file msg p d = (d', Ok ()).
Proof. unfold remove_file. rewrite dir_call_quiet. by eexists. Qed.

Lemma open_handle_quiet msg p d f :
  gd_files d !! p = Some f → f_healthy f → open_handle msg p d = (d, Ok ()).
Proof.
  intros Hf Hh. unfold open_handle, handle. unfold mbind, M_bind. rewrite Hf. cbn.
  destruct (is_ok_inv _ (q_open f Hh)) as [[] Ho]. unfold lift. by rewrite Ho.
Qed.

Lemma write_owned_quiet (w : CompioWriter F) data :
  f_healthy (cw_file w) → ∃ w', write_owned w data = Ok w' ∧ f_healthy (cw_file w').
Proof.
  intros Hh. unfold write_owned.
  destruct (q_write (cw_file w) data (cw_offset w) Hh) as (f & Hf & Hh'). rewrite Hf. by eexists.
Qed.

(** ** Reading the chunks of an entry *)

(** Whatever handle is cached, the chunk reads as [bs]. *)
Definition readable (old_handle : option string) (old_chunks : option (gmap hash32 (N * N)))
    (global : ChunkMap) d (h : hash32) (bs : list byte) : Prop :=
  ∀ last, ∃ last', read_source old_handle old_chunks global last h d = (d, Ok (bs, last')).

Lemma assemble_live np old_handle old_chunks global chunks ds out hashed last d :
  f_healthy (cw_file out) →
  Forall2 (λ c bs, ∀ d', only (eq np) d d' → readable old_handle old_chunks global d' (ck_hash c) bs)
    chunks ds →
  ∃ d' out', assemble np old_handle old_chunks global chunks out hashed last d =
      (d', Ok (out', hashed ++ mjoin ds)) ∧ f_healthy (cw_file out').
Proof.
  intros Hh Hrd. revert out hashed last d Hh Hrd. revert ds.
  induction chunks as [|c chunks IH]; intros ds out hashed last d Hh Hrd.
  { apply Forall2_nil_inv_l in Hrd as ->. exists d, out. cbn. by rewrite app_nil_r. }
  apply Forall2_cons_inv_l in Hrd as (bs & ds' & Hc & Hrd & ->).
  destruct (Hc d (only_refl _ _) last) as (last' & Hr).
  cbn [assemble]. rewrite (M_bind_ok _ _ d d _ Hr). cbv beta iota.
  destruct (write_owned_quiet out bs Hh) as (out1 & Hw & Hh1).
  rewrite (M_bind_ok (lift _) _ d d out1) by (unfold lift; by rewrite Hw).
  rewrite (M_bind_ok (modify _) _ d (put_file np (cw_file out1) d) () eq_refl).
  destruct (IH ds' out1 (hashed ++ bs) last' (put_file np (cw_file out1) d) Hh1) as (d' & out' & -> & Hh').
  { eapply Forall2_impl; [exact Hrd|]. intros c' bs' Hc' d' Ho. apply Hc'.
    eapply only_mono; [|exact (only_trans _ _ _ _ _ (put_file_only np (cw_file out1) d) Ho)].
    by intros p [?|?]. }
  exists d', out'. split; [by rewrite <- app_assoc|done].
Qed.

Lemma replace_target_live (out : CompioWriter F) np target d :
  f_healthy (cw_file out) → ∃ d', replace_target out np target d = (d', Ok ()).
Proof.
  intros Hh. unfold replace_target.
  destruct (is_ok_inv _ (q_sync (cw_file out) Hh)) as [[] Hs].
  rewrite (M_bind_ok (lift _) _ d d ()) by (unfold lift, sync_all; by rewrite Hs).
  destruct (is_ok_inv _ (q_close (cw_file out) Hh)) as [[] Hc].
  rewrite (M_bind_ok (lift _) _ d d ()) by (unfold lift, close; by rewrite Hc).
  rewrite (M_bind_ok get _ d d d eq_refl). cbv beta. case_bool_decide.
  - destruct (remove_file_quiet "删除旧文件失败" target d) as [d1 Hr].
    rewrite (M_bind_ok _ _ d d1 () Hr). unfold rename_file. rewrite dir_call_quiet. by eexists.
  - rewrite (M_bind_ok (mret ()) _ d d () eq_refl). unfold rename_file. rewrite dir_call_quiet.
    by eexists.
Qed.

(** The handle [write_new_file] reads the old version of the file through. *)
Definition own_handle (old_file : option string) d : option string :=
  p ← old_file; _ ← gd_files d !! p; Some p.

Lemma write_new_file_live e old_chunks old_file global ds d :
  let np := with_extension_new (fe_name e) in
  blake3 (mjoin ds) = fe_file_hash e → (∀ p, old_file = Some p → p ≠ np) →
  (∀ p f, old_file = Some p → gd_files d !! p = Some f → f_healthy f) →
  Forall2 (λ c bs, ∀ d', only (eq np) d d' →
     readable (own_handle old_file d) old_chunks global d' (ck_hash c) bs) (fe_chunks e) ds →
  ∃ d', write_new_file blake3 e old_chunks old_file global d = (d', Ok ()).
Proof.
  intros np Hcons Hold Hhealthy Hrd. unfold write_new_file. fold np.
  set (d1 := mkGameDir (gd_files d) (gd_temp d) (gd_manifests d) (S (gd_calls d))).
  rewrite (M_bind_ok (dir_call _ _) _ d d1 ()) by apply dir_call_quiet.
  destruct q_create as (f0 & Hf0 & Hh0).
  rewrite (M_bind_ok (lift _) _ d1 d1 (mkWriter f0 0)) by (unfold lift, writer_create; by rewrite Hf0).
  cbn [cw_file]. rewrite (M_bind_ok (modify _) _ d1 (put_file np f0 d1) () eq_refl).
  set (d2 := put_file np f0 d1).
  assert (only (eq np) d d2) as Ho2 by (split_and!; [done..|]; intros p Hp; by apply lookup_insert_ne).
  assert (open_old old_file d2 = (d2, Ok (own_handle old_file d))) as Hopen.
  { unfold open_old. rewrite (M_bind_ok get _ d2 d2 d2 eq_refl). destruct old_file as [p|]; [|done].
    destruct Ho2 as (_ & _ & Hf2). rewrite Hf2 by (intros <-; by apply (Hold np)).
    cbn. case_bool_decide as Hex.
    - destruct Hex as [f Hf]. rewrite (M_bind_ok _ _ d2 d2 ()); [by rewrite Hf|].
      apply (open_handle_quiet _ _ _ f); [|by apply (Hhealthy p)].
      rewrite Hf2; [done|]. intros <-. by apply (Hold np).
    - apply eq_None_not_Some in Hex. by rewrite Hex. }
  rewrite (M_bind_ok _ _ d2 d2 _ Hopen).
  destruct (assemble_live np (own_handle old_file d) old_chunks global (fe_chunks e) ds
    (mkWriter f0 0) [] None d2 Hh0) as (d3 & out & Ha & Hh).
  { eapply Forall2_impl; [exact Hrd|]. intros c bs Hc d' Ho. apply Hc.
    eapply only_mono; [|exact (only_trans _ _ _ _ _ Ho2 Ho)]. by intros p [?|?]. }
  rewrite (M_bind_ok _ _ d2 d3 _ Ha). cbv beta iota.
  rewrite decide_False by (intros Hne; by apply Hne).
  by apply replace_target_live.
Qed.

(** ** Where the chunks of an entry come from *)

(** The real files of the old version are in place. *)
Definition installed (old : option GameIndex) d : Prop :=
  ∀ o f file, old = Some o → f ∈ gi_files o → gd_files d !! fe_name f = Some file →
    content_matches blake3 f (f_data file) ∧ lenN (f_data file) < 2^64 ∧ f_healthy file ∧
    blake3 (f_data file) = fe_file_hash f.

(** A path the merge does not overwrite. *)
Definition settled (new : GameIndex) (old : option GameIndex) d p : Prop :=
  ∀ e, e ∈ gi_files new → need_merge (old_files_of old) d e = true → fe_name e ≠ p.

(** The bytes of a chunk of [e] are in the old version of the file itself, in an
    old file that stays, or in a temporary block that nothing hides: the place the
    old version has for the chunk is gone, and no file is built there before [e]. *)
Definition source_ready (new : GameIndex) (old : option GameIndex) d (e : FileEntry) (h : hash32)
    (bs : list byte) : Prop :=
  (∃ prev off len file, old_files_of old !! fe_name e = Some prev ∧
     file_chunk_map prev !! h = Some (off, len) ∧ gd_files d !! fe_name e = Some file ∧
     bs = span off len (f_data file)) ∨
  ((own_handle ((λ _, fe_name e) <$> old_files_of old !! fe_name e) d = None ∨
    (m ← (file_chunk_map <$> old_files_of old) !! fe_name e; m !! h) = None) ∧
   ((∃ path off len file, global_of old !! h = Some (path, off, len) ∧
       gd_files d !! path = Some file ∧ settled new old d path ∧ bs = span off len (f_data file)) ∨
    (∃ b, gd_temp d !! block_name h = Some b ∧ f_healthy (df_file b) ∧ bs = f_data (df_file b) ∧
       ∀ path off len, global_of old !! h = Some (path, off, len) →
         gd_files d !! path = None ∧ (path = fe_name e ∨ settled new old d path)))).

(** [d'] still has what the chunks of [e] may be read from. *)
Definition agree (new : GameIndex) (old : option GameIndex) (e : FileEntry) d d' : Prop :=
  gd_temp d' = gd_temp d ∧
  ∀ p, p ∈ dom (old_files_of old) → p = fe_name e ∨ settled new old d p →
    gd_files d' !! p = gd_files d !! p.

Lemma in_old_names o f : f ∈ gi_files o → fe_name f ∈ dom (old_files_of (Some o)).
Proof.
  intros Hf. unfold old_files_of. cbn. rewrite dom_file_map. unfold file_names.
  apply elem_of_list_to_set. by apply list_elem_of_fmap_2.
Qed.

Lemma read_installed old d o f h path off len file :
  installed old d → old = Some o → f ∈ gi_files o → occurs_in f h (path, off, len) →
  gd_files d !! path = Some file →
  f_healthy file ∧ read_chunk_at file off len = Ok (span off len (f_data file)).
Proof.
  intros Hi Ho Hf Hocc Hfile.
  assert (path = fe_name f) as -> by (destruct Hocc as (pre & c & post & _ & _ & [= -> _ _]); done).
  destruct (Hi o f file Ho Hf Hfile) as (Hm & Hl & Hh & _).
  destruct (content_span blake3 f _ h off len Hm Hl Hocc) as [Hb _].
  split; [done|]. by apply read_chunk_at_healthy.
Qed.

Lemma read_temp_live h d b :
  gd_temp d !! block_name h = Some b → f_healthy (df_file b) →
  read_temp h d = (d, Ok (f_data (df_file b))).
Proof.
  intros Hb Hh. unfold read_temp. rewrite (M_bind_ok get _ d d d eq_refl). unfold lift. rewrite Hb.
  destruct (is_ok_inv _ (q_fs_read (df_file b) Hh)) as [bs Hr]. rewrite Hr. cbn.
  by rewrite (fs_read_ok _ _ Hr).
Qed.

Lemma from_global_live path off len last h d file bs :
  gd_files d !! path = Some file → f_healthy file → read_chunk_at file off len = Ok bs →
  from_global path off len last h d = (d, Ok (bs, Some path)).
Proof.
  intros Hf Hh Hr. unfold from_global. rewrite (M_bind_ok get _ d d d eq_refl), Hf.
  rewrite (M_bind_ok _ _ d d ()).
  - rewrite (M_bind_ok (lift _) _ d d bs) by (unfold lift; by rewrite Hr). done.
  - case_decide; [done|]. by eapply open_handle_quiet.
Qed.

Lemma from_temp_live h d b last :
  gd_temp d !! block_name h = Some b → f_healthy (df_file b) →
  from_temp last h d = (d, Ok (f_data (df_file b), last)).
Proof.
  intros Hb Hh. unfold from_temp. by rewrite (M_bind_ok _ _ d d _ (read_temp_live _ _ _ Hb Hh)).
Qed.

Lemma from_old_live path off len last d file bs :
  gd_files d !! path = Some file → read_chunk_at file off len = Ok bs →
  from_old path off len last d = (d, Ok (bs, last)).
Proof.
  intros Hf Hr. unfold from_old, handle. rewrite (M_bind_ok _ _ d d file) by (by rewrite Hf).
  by rewrite (M_bind_ok (lift _) _ d d bs) by (unfold lift; by rewrite Hr).
Qed.

Lemma read_source_rest old_handle old_chunks (global : ChunkMap) last h d :
  old_handle = None ∨ (m ← old_chunks; m !! h) = None →
  read_source old_handle old_chunks global last h d =
    match global !! h with
    | Some (path, offset, len) => from_global path offset len last h
    | None => from_temp last h
    end d.
Proof. unfold read_source. intros [->| ->]; [done|]. by destruct old_handle. Qed.

(** The file a handle was opened on and the maps are those of [d]. *)
Lemma own_handle_agree new old e d d1 :
  agree new old e d d1 →
  own_handle ((λ _, fe_name e) <$> old_files_of old !! fe_name e) d1 =
  own_handle ((λ _, fe_name e) <$> old_files_of old !! fe_name e) d.
Proof.
  intros [_ Ha]. destruct (old_files_of old !! fe_name e) as [prev|] eqn:Hprev; [|done]. cbn.
  rewrite Ha; [done|by eapply elem_of_dom_2|by left].
Qed.

Lemma global_in_old old h path off len :
  global_of old !! h = Some (path, off, len) →
  ∃ o f, old = Some o ∧ f ∈ gi_files o ∧ occurs_in f h (path, off, len) ∧
    path ∈ dom (old_files_of old).
Proof.
  unfold global_of. destruct old as [o|]; cbn; [|done]. intros Hg.
  destruct (build_map_occurs _ _ _ Hg) as (f & Hf & Hocc). exists o, f.
  split; [done|]. split; [done|]. split; [done|].
  destruct Hocc as (pre & c & post & _ & _ & [= -> _ _]). by apply in_old_names.
Qed.

Lemma source_readable new old e d d1 d' h bs :
  installed old d → source_ready new old d e h bs → agree new old e d d1 → agree new old e d d' →
  readable (own_handle ((λ _, fe_name e) <$> old_files_of old !! fe_name e) d1)
    ((file_chunk_map <$> old_files_of old) !! fe_name e) (global_of old) d' h bs.
Proof.
  intros Hi Hr Hag1 [Ht Ha] last. rewrite (own_handle_agree _ _ _ _ _ Hag1).
  destruct Hr as [(prev & off & len & file & Hprev & Hm & Hfile & ->)|[Hno Hr]].
  - pose proof (elem_of_dom_2 _ _ _ Hprev) as Hdom. exists last.
    rewrite lookup_fmap, Hprev. unfold read_source. cbn. rewrite Hfile. cbn. rewrite Hm.
    apply (from_old_live _ _ _ _ _ file); [rewrite Ha by auto; done|].
    apply old_files_of_Some in Hprev as (o & Ho & Hprev & Hn). rewrite <- Hn in Hfile.
    apply file_chunk_map_occurs in Hm.
    by destruct (read_installed old d o prev h _ off len file Hi Ho Hprev Hm Hfile).
  - setoid_rewrite read_source_rest; [|done].
    destruct Hr as [(path & off & len & file & Hg & Hfile & Hs & ->)|(b & Hb & Hbh & -> & Hg)].
    + rewrite Hg. destruct (global_in_old _ _ _ _ _ Hg) as (o & f & Ho & Hf & Hocc & Hdom).
      destruct (read_installed old d o f h path off len file Hi Ho Hf Hocc Hfile) as [Hh Hrd].
      exists (Some path). apply (from_global_live _ _ _ _ _ _ file); [|done..].
      rewrite Ha; [done|done|by right].
    + exists last. assert (from_temp last h d' = (d', Ok (f_data (df_file b), last))) as Htl
        by (apply from_temp_live; [by rewrite Ht|done]).
      destruct (global_of old !! h) as [[[path off] len]|] eqn:Hgl; [|done].
      destruct (global_in_old _ _ _ _ _ Hgl) as (o & f & _ & _ & _ & Hdom).
      destruct (Hg _ _ _ eq_refl) as [Hnone Hset]. unfold from_global.
      rewrite (M_bind_ok get _ d' d' d' eq_refl). rewrite Ha by auto. by rewrite Hnone.
Qed.

(** ** The loop over the entries *)

(** What the entries before the current one may have changed. *)
Definition touched (old : option GameIndex) d (pre : list FileEntry) p : Prop :=
  ∃ e, e ∈ pre ∧ need_merge (old_files_of old) d e = true ∧ own_path e p.

Lemma name_untouched old d names pre e :
  no_clash (fe_name <$> pre ++ e :: names) (dom (old_files_of old)) →
  ¬ touched old d pre (fe_name e).
Proof.
  intros [Hnd Hc] (e' & He' & _ & [Hp|Hp]).
  - apply (Hc (fe_name e') (fe_name e)).
    + apply list_elem_of_fmap_2, elem_of_app. by left.
    + left. apply list_elem_of_fmap_2, elem_of_app. right. left.
    + done.
  - rewrite fmap_app in Hnd. apply NoDup_app in Hnd as (_ & Hdis & _).
    apply (Hdis (fe_name e)); [rewrite Hp; by apply list_elem_of_fmap_2|left].
Qed.

Lemma agree_of_only new old d d1 pre e rest :
  mergeable new old d → gi_files new = pre ++ e :: rest →
  only (touched old d pre) d d1 → agree new old e d d1.
Proof.
  intros Hg Hnew (Ht & _ & Hf). pose proof (mg_clash _ _ _ Hg) as Hcl. split; [done|].
  intros p Hdom Hp. apply Hf. destruct Hp as [->|Hset].
  - rewrite Hnew in Hcl. by eapply name_untouched.
  - intros (e' & He' & Hneed & [->| ->]).
    + destruct Hcl as [_ Hc]. apply (Hc (fe_name e') (with_extension_new (fe_name e'))); [|by right|done].
      rewrite Hnew. apply list_elem_of_fmap_2, elem_of_app. by left.
    + apply (Hset e'); [|done..]. rewrite Hnew. apply elem_of_app. by left.
Qed.

Lemma agree_put new old d d1 d' e :
  mergeable new old d → e ∈ gi_files new → agree new old e d d1 →
  only (eq (with_extension_new (fe_name e))) d1 d' → agree new old e d d'.
Proof.
  intros Hg He [Ht Ha] (Ht' & _ & Hf'). split; [congruence|]. intros p Hdom Hp.
  rewrite Hf'; [by apply Ha|]. intros <-. destruct (mg_clash _ _ _ Hg) as [_ Hc].
  apply (Hc (fe_name e) (with_extension_new (fe_name e))); [by apply list_elem_of_fmap_2|by right|done].
Qed.

(** The bytes at the sources of an entry to merge make up its content. *)
Definition available (new : GameIndex) (old : option GameIndex) d : Prop :=
  ∀ e, e ∈ gi_files new → need_merge (old_files_of old) d e = true →
    ∃ ds, Forall2 (λ c, source_ready new old d e (ck_hash c)) (fe_chunks e) ds ∧
      blake3 (mjoin ds) = fe_file_hash e.

Lemma write_entry_live new old d d1 pre e rest :
  mergeable new old d → installed old d → available new old d →
  gi_files new = pre ++ e :: rest → only (touched old d pre) d d1 →
  need_merge (old_files_of old) d e = true →
  ∃ d2, write_new_file blake3 e ((file_chunk_map <$> old_files_of old) !! fe_name e)
    ((λ _, fe_name e) <$> old_files_of old !! fe_name e) (global_of old) d1 = (d2, Ok ()).
Proof.
  intros Hg Hi Hav Hnew Ho Hneed.
  assert (e ∈ gi_files new) as He by (rewrite Hnew; apply elem_of_app; right; left).
  destruct (Hav e He Hneed) as (ds & Hsrc & Hcons).
  pose proof (agree_of_only _ _ _ _ _ _ _ Hg Hnew Ho) as Hagree.
  apply (write_new_file_live _ _ _ _ ds); [done| | |].
  - intros p Hp ->. apply fmap_Some in Hp as (prev & Hprev & Heq).
    destruct (mg_clash _ _ _ Hg) as [_ Hc].
    apply (Hc (fe_name e) (fe_name e)); [by apply list_elem_of_fmap_2|left; by apply list_elem_of_fmap_2|done].
  - intros p f Hp Hf. apply fmap_Some in Hp as (prev & Hprev & ->).
    destruct Hagree as [_ Ha]. rewrite Ha in Hf; [|by eapply elem_of_dom_2|by left].
    apply old_files_of_Some in Hprev as (o & Hold & Hin & Hn). rewrite <- Hn in Hf.
    by destruct (Hi o prev f Hold Hin Hf) as (_ & _ & ? & _).
  - eapply Forall2_impl; [exact Hsrc|]. intros c bs Hc d' Ho'.
    apply (source_readable new old e d); [done..|].
    by eapply agree_put.
Qed.

Lemma merge_step_live new old d d1 pre e rest s :
  mergeable new old d → installed old d → available new old d →
  gi_files new = pre ++ e :: rest → only (touched old d pre) d d1 →
  ∃ d2 s', merge_step blake3 (old_files_of old) (file_chunk_map <$> old_files_of old)
      (global_of old) s e d1 = (d2, Ok s') ∧
    only (touched old d (pre ++ [e])) d d2 ∧ ms_failed s' = ms_failed s.
Proof.
  intros Hg Hi Hav Hnew Ho. pose proof (mg_clash _ _ _ Hg) as Hcl.
  assert (e ∈ gi_files new) as He by (rewrite Hnew; apply elem_of_app; right; left).
  assert (need_merge (old_files_of old) d1 e = need_merge (old_files_of old) d e) as Hneed.
  { unfold need_merge. destruct Ho as (_ & _ & Hf). rewrite Hf; [done|].
    rewrite Hnew in Hcl. by eapply name_untouched. }
  unfold merge_step. rewrite (M_bind_ok get _ d1 d1 d1 eq_refl). cbv zeta beta. rewrite Hneed.
  destruct (need_merge (old_files_of old) d e) eqn:Hn; cbn [negb].
  - destruct (write_entry_live new old d d1 pre e rest Hg Hi Hav Hnew Ho Hn) as [d2 Hw].
    rewrite (M_bind_ok (attempt _) _ d1 d2 (Ok ())) by (unfold attempt; by rewrite Hw).
    eexists d2, _. split; [done|]. split; [|done].
    assert (with_extension_new (fe_name e) ≠ fe_name e) as Hne.
    { destruct Hcl as [_ Hc]. apply Hc; [|left]; by apply list_elem_of_fmap_2. }
    pose proof (mergeable_lens _ _ _ Hg) as Hl. rewrite Forall_forall in Hl.
    pose proof (bounded_frame _ _ _ _ _ Ho (mergeable_bounds _ _ _ Hg (fe_name e))) as Hb.
    destruct (write_new_file_ok blake3 e _ _ _ _ _ _ Hne Hb (Hl e He) Hw) as [Ho2 _].
    eapply only_mono; [|exact (only_trans _ _ _ _ _ Ho Ho2)].
    intros p [(e' & He' & ?)|?]; [exists e'|exists e]; (split; [|done]); apply elem_of_app;
      [by left|right; left].
  - exists d1, s. split; [done|]. split; [|done]. eapply only_mono; [|exact Ho].
    intros p (e' & He' & ?). exists e'. split; [|done]. apply elem_of_app. by left.
Qed.

Lemma merge_loop_live new old d d1 pre rest s :
  mergeable new old d → installed old d → available new old d →
  gi_files new = pre ++ rest → only (touched old d pre) d d1 →
  ∃ d2 s', merge_loop blake3 (old_files_of old) (file_chunk_map <$> old_files_of old)
      (global_of old) rest s d1 = (d2, Ok s') ∧ ms_failed s' = ms_failed s.
Proof.
  intros Hg Hi Hav. revert pre d1 s. induction rest as [|e rest IH]; intros pre d1 s Hnew Ho.
  { by exists d1, s. }
  destruct (merge_step_live new old d d1 pre e rest s Hg Hi Hav Hnew Ho) as (d2 & s2 & Hs & Ho2 & Hf2).
  cbn [merge_loop]. rewrite (M_bind_ok _ _ d1 d2 s2 Hs).
  destruct (IH (pre ++ [e]) d2 s2) as (d3 & s3 & Hl & Hf3); [by rewrite <- app_assoc|done|].
  exists d3, s3. split; [done|congruence].
Qed.

Lemma delete_loop_live names s d :
  ∃ d' s', delete_loop names s d = (d', Ok s') ∧ ms_failed s' = ms_failed s.
Proof.
  revert s d. induction names as [|n names IH]; intros s d; cbn [delete_loop]; [by exists d, s|].
  rewrite (M_bind_ok get _ d d d eq_refl). cbv beta. case_bool_decide; [|by apply IH].
  destruct (remove_file_quiet "删除文件失败" n d) as [d1 Hr]. rewrite (M_bind_ok _ _ d d1 () Hr).
  destruct (IH (mkSummary (ms_merged s) (ms_deleted s + 1) (ms_failed s)) d1) as (d' & s' & Hd & Hf).
  by exists d', s'.
Qed.

Lemma merge_files_live new old d :
  mergeable new old d → installed old d → available new old d →
  ∃ d' s, merge_files blake3 new old d = (d', Ok s) ∧ ms_failed s = [] ∧
    (∀ e, e ∈ gi_files new →
       ∃ f, gd_files d' !! fe_name e = Some f ∧ blake3 (f_data f) = fe_file_hash e) ∧
    (∀ p, p ∈ gone new old → gd_files d' !! p = None).
Proof.
  intros Hg Hi Hav.
  assert (∃ d' s, merge_files blake3 new old d = (d', Ok s) ∧ ms_failed s = []) as (d' & s & Hm & Hf).
  { destruct (merge_loop_live new old d d [] (gi_files new) (mkSummary 0 0 []) Hg Hi Hav eq_refl
      (only_refl _ _)) as (d1 & s1 & Hl & Hf1).
    unfold merge_files. cbv zeta. rewrite (M_bind_ok _ _ d d1 s1 Hl).
    destruct (delete_loop_live (set_iter (gone new old)) s1 d1) as (d' & s & Hd & Hf).
    exists d', s. split; [exact Hd|]. by rewrite Hf, Hf1. }
  exists d', s. split; [done|]. split; [done|].
  pose proof (merge_files_inv blake3 new old d d' (Ok s) Hg Hm) as (_ & _ & os & Hos & Hs).
  destruct (Hs s eq_refl) as (Hgone & _ & Hfailed & _). split; [|done].
  intros e He. apply list_elem_of_lookup in He as [i He].
  destruct (Forall2_lookup_l _ _ _ _ _ Hos He) as (o & Ho & Hdone).
  destruct o as [| |msg]; [| exact Hdone|].
  - destruct Hdone as (prev & f & Hprev & Hh & Hfile & Hfile'). exists f. split; [done|].
    apply old_files_of_Some in Hprev as (og & Hog & Hin & Hn). rewrite <- Hn in Hfile.
    destruct (Hi og prev f Hog Hin Hfile) as (_ & _ & _ & Hhash). congruence.
  - exfalso. rewrite Hf in Hfailed. symmetry in Hfailed.
    assert (msg ∈ omap failure os) as Hin.
    { apply list_elem_of_omap. exists (Failed msg). split; [by eapply list_elem_of_lookup_2|done]. }
    rewrite Hfailed in Hin. by apply elem_of_nil in Hin.
Qed.

(** C7: When no call of the file system fails, the real files are those of the
    old manifest, and the bytes found at the places of the chunks of every file to
    merge (its own old version, an old file this merge does not overwrite, or a
    temporary block) make up its content, then [merge_files] returns with no
    failure: every file of the new manifest is there with the hash of its entry,
    and every file that is gone from the manifest is deleted. *)
Theorem merge_files_complete new old d :
  mergeable new old d → installed old d → available new old d →
  ∃ d' s, merge_files blake3 new old d = (d', Ok s) ∧ ms_failed s = [] ∧
    (∀ e, e ∈ gi_files new →
       ∃ f, gd_files d' !! fe_name e = Some f ∧ blake3 (f_data f) = fe_file_hash e) ∧
    (∀ p, p ∈ gone new old → gd_files d' !! p = None).
Proof. apply merge_files_live. Qed.

End live.

(** ** Example: the update of MergeSpec's example succeeds *)

#[local] Instance Mem_quiet : Quiet MemFile.
Proof.
  split; cbn.
  - done.
  - done.
  - intros f Hf. destruct (N.eqb_spec (mf_limit f) 0); [lia|done].
  - eexists. split; [done|]. done.
  - intros f bs off Hf. destruct (N.eqb_spec (mf_limit f) 0); [lia|]. by eexists.
  - done.
  - done.
  - intros old bs. by eexists.
Qed.

Lemma merge_example_installed : installed toy_hash (Some merge_old) merge_dir.
Proof.
  intros o f file [= <-] Hf Hfile.
  assert (f = entry_of "a.bin" [he; bye] ∨ f = entry_of "b.bin" [bye] ∨ f = entry_of "d.bin" [he])
    as [->|[->| ->]].
  { change (f ∈ [entry_of "a.bin" [he; bye]; entry_of "b.bin" [bye]; entry_of "d.bin" [he]]) in Hf.
    set_solver. }
  all: vm_compute in Hfile; injection Hfile as <-; (split; [|split; [vm_compute; reflexivity|
    split; [vm_compute; reflexivity|vm_compute; reflexivity]]]).
  - exists [he; bye]. split; [reflexivity|]. repeat (constructor; [split; vm_compute; reflexivity|]). constructor.
  - exists [bye]. split; [reflexivity|]. repeat (constructor; [split; vm_compute; reflexivity|]). constructor.
  - exists [he]. split; [reflexivity|]. repeat (constructor; [split; vm_compute; reflexivity|]). constructor.
Qed.

Lemma merge_example_available : available toy_hash merge_new (Some merge_old) merge_dir.
Proof.
  intros e He Hneed.
  assert (e = entry_of "a.bin" [he; llo] ∨ e = entry_of "d.bin" [he]) as [->| ->].
  { change (e ∈ [entry_of "a.bin" [he; llo]; entry_of "d.bin" [he]]) in He. set_solver. }
  - exists [he; llo]. split; [|vm_compute; reflexivity].
    constructor; [|constructor; [|constructor]].
    + left. exists (entry_of "a.bin" [he; bye]), 0, 2, (FileIO.mkFile (he ++ bye) 3).
      split_and!; vm_compute; reflexivity.
    + right. split; [right; vm_compute; reflexivity|]. right.
      exists (mkDirFile (FileIO.mkFile llo 3) 0). split_and!; try (vm_compute; reflexivity).
      intros path off len Hg. vm_compute in Hg. done.
  - vm_compute in Hneed. done.
Qed.

Lemma merge_files_complete_witness :
  ∃ d' s, merge_files toy_hash merge_new (Some merge_old) merge_dir = (d', Ok s) ∧
    ms_failed s = [] ∧
    ∃ f, gd_files d' !! "a.bin"%string = Some f ∧ toy_hash (f_data f) = toy_hash (he ++ llo).
Proof.
  destruct (merge_files_complete toy_hash merge_new (Some merge_old) merge_dir
    merge_example_mergeable merge_example_installed merge_example_available)
    as (d' & s & Hm & Hf & Hall & _).
  exists d', s. split; [exact Hm|]. split; [exact Hf|].
  apply (Hall (entry_of "a.bin" [he; llo])). left.
Defined.

(** ** A merge that failed halfway cannot be repeated

    The first run replaces a.bin and fails on b.bin, whose chunk has not arrived;
    so the new manifest is not saved.  The second run, with the chunk there, reads
    the chunks of a.bin at their old offsets in its new content and rejects the
    file, although it is already right. *)

Definition retry_old : GameIndex := build toy_hash [entry_of "a.bin" [he; llo]].
Definition retry_new : GameIndex :=
  build toy_hash [entry_of "a.bin" [llo; he]; entry_of "b.bin" [bye]].
Definition retry_dir : GameDir MemFile :=
  mkGameDir {["a.bin"%string := FileIO.mkFile (he ++ llo) 3]} ∅ ∅ 0.
Definition bye_block : gmap string (DirFile MemFile) :=
  {[block_name (toy_hash bye) := mkDirFile (FileIO.mkFile bye 3) 0]}.

Lemma merge_retry_stuck :
  let t1 := merge_files toy_hash retry_new (Some retry_old) retry_dir in
  let t2 := merge_files toy_hash retry_new (Some retry_old) (set_temp bye_block t1.1) in
  t1.2 = Ok (mkSummary 1 0 ["b.bin: 读取临时块失败"%string]) ∧
  f_data <$> gd_files t1.1 !! "a.bin"%string = Some (llo ++ he) ∧
  t2.2 = Ok (mkSummary 1 0 ["a.bin: 文件哈希校验失败"%string]).
Proof. vm_compute. split; [reflexivity|split; reflexivity]. Qed.
