(* ===== verification/Configs.v ===== *)
(** * Configs: the configuration files (config.rs of agent, origin, scheduler and
    producer)

    A configuration file is TOML with optional fields.  The parser is a
    parameter that gives the fields that are present; the defaults, the check of
    the command line and the validation are those of the source. *)

From Stdlib Require Import SpecFloat.
From S2P Require Import Prelude Storage.

(** [str::parse] of socket addresses and of iroh's endpoint identifiers, in
    their canonical text. *)
Class NetParse := {
  parse_socket : string → option string;
  parse_endpoint : string → result error string
}.

(** [std::fs::read_to_string] of a path. *)
Class ReadText := { read_text : string → result error string }.

Definition USAGE (program : string) : string := ("用法: " ++ program ++ " --config <配置文件路径>")%string.

(** [parse_args]: exactly one option, [--config]. *)
Definition parse_args (program : string) (args : list string) : result error string :=
  match args with
  | [_; opt; path] => if String.eqb opt "--config" then mret path else bail (USAGE program)
  | _ => bail (USAGE program)
  end.

(** [load] with the parser and the validation of one program. *)
Definition load_with `{!ReadText} {R C} (from_str : string → result error R) (fill : R → C)
    (validate : C → result error ()) (path : string) : result error C :=
  text ← with_context ("读取配置文件失败: " ++ path) (read_text path);
  raw ← with_context ("解析配置文件失败: " ++ path) (from_str text);
  validate (fill raw);;
  mret (fill raw).

Definition is_http (addr : string) : bool :=
  String.prefix "http://" addr || String.prefix "https://" addr.

(** [0.0 < t && t <= 1.0] on binary64 *)
Definition unit_range (t : spec_float) : bool := SFltb (f64_of 0) t && SFleb t (f64_of 1).

(** [if cond { bail!(msg) }] *)
Definition refuse (cond : bool) (msg : string) : result error () :=
  if cond then bail msg else mret ().
(** The binary64 number nearest to 0.3 *)
Definition F64_0_3 : spec_float := S754_finite false 5404319552844595 (-54).

Section configs.
Context `{!NetParse, !ReadText}.

Definition check_socket (msg : string) (addr : option string) : result error () :=
  match addr with
  | Some a => refuse (bool_decide (parse_socket a = None)) msg
  | None => mret ()
  end.

Definition check_http (msg : string) (addr : option string) : result error () :=
  match addr with Some a => refuse (negb (is_http a)) msg | None => mret () end.

(** ** agent *)

Inductive NodeType := Idc | Cafe.
#[global] Instance NodeType_eq_dec : EqDecision NodeType.
Proof. solve_decision. Defined.
Definition NodeType_to_string (t : NodeType) : string :=
  match t with Idc => "idc" | Cafe => "cafe" end.

Definition DEFAULT_CONCURRENT_GAMES : N := 5.
Definition DEFAULT_CHUNK_CONCURRENCY : N := 4.
Definition DEFAULT_DISK_FREE_THRESHOLD : N := 200 * 1024 * 1024 * 1024.
Definition AGENT_COMPACT_THRESHOLD : spec_float := F64_0_3.
Definition AGENT_LISTEN_PORT : N := 42001.
Definition DEFAULT_TEMP_TTL_HOURS : N := 24.

Record AgentConfig := mkAgentConfig {
  ac_node_type : NodeType; ac_data_dir : string;
  ac_concurrent_games : N; ac_chunk_concurrency : N; ac_disk_free_threshold : N;
  ac_compact_threshold : spec_float; ac_listen_port : N; ac_temp_ttl_hours : N;
  ac_download_mbps : option N; ac_origin_endpoint : option string;
  ac_origin_addr : option string; ac_keepalive_port : option N;
  ac_relay_url : option string; ac_external_addr : option string;
  ac_stun_addr : option string; ac_control_addr : option string
}.

(** The fields of the file; those with a default may be missing. *)
Record AgentToml := mkAgentToml {
  at_node_type : NodeType; at_data_dir : string;
  at_concurrent_games : option N; at_chunk_concurrency : option N;
  at_disk_free_threshold : option N; at_compact_threshold : option spec_float;
  at_listen_port : option N; at_temp_ttl_hours : option N;
  at_download_mbps : option N; at_origin_endpoint : option string;
  at_origin_addr : option string; at_keepalive_port : option N;
  at_relay_url : option string; at_external_addr : option string;
  at_stun_addr : option string; at_control_addr : option string
}.

Definition agent_defaults (t : AgentToml) : AgentConfig :=
  mkAgentConfig (at_node_type t) (at_data_dir t)
    (default DEFAULT_CONCURRENT_GAMES (at_concurrent_games t))
    (default DEFAULT_CHUNK_CONCURRENCY (at_chunk_concurrency t))
    (default DEFAULT_DISK_FREE_THRESHOLD (at_disk_free_threshold t))
    (default AGENT_COMPACT_THRESHOLD (at_compact_threshold t))
    (default AGENT_LISTEN_PORT (at_listen_port t))
    (default DEFAULT_TEMP_TTL_HOURS (at_temp_ttl_hours t))
    (at_download_mbps t) (at_origin_endpoint t) (at_origin_addr t) (at_keepalive_port t)
    (at_relay_url t) (at_external_addr t) (at_stun_addr t) (at_control_addr t).

Definition agent_validate (c : AgentConfig) : result error () :=
  refuse (String.eqb (ac_data_dir c) "") "data_dir 不能为空";;
  refuse ((ac_concurrent_games c =? 0) || (ac_chunk_concurrency c =? 0))
    "concurrent_games 与 chunk_concurrency 必须大于 0";;
  refuse (ac_disk_free_threshold c =? 0) "disk_free_threshold 必须大于 0";;
  refuse (negb (unit_range (ac_compact_threshold c))) "compact_threshold 必须在 (0, 1] 之间";;
  refuse (ac_listen_port c <? 10001) "listen_port 必须大于 10000（NAT 网关打洞限制）";;
  refuse (ac_temp_ttl_hours c =? 0) "temp_ttl_hours 必须大于 0";;
  refuse (match ac_download_mbps c with Some mbps => mbps =? 0 | None => false end)
    "download_mbps 必须大于 0";;
  refuse (negb (eqb (bool_decide (is_Some (ac_origin_endpoint c)))
                    (bool_decide (is_Some (ac_origin_addr c)))))
    "origin_endpoint 与 origin_addr 必须同时配置或同时缺省";;
  refuse (bool_decide (ac_node_type c = Cafe) &&
          (bool_decide (is_Some (ac_origin_endpoint c)) || bool_decide (is_Some (ac_origin_addr c))))
    "网吧节点不得配置 origin_endpoint/origin_addr（网吧只从 IDC 拉取）";;
  check_socket "origin_addr 必须是 ip:port" (ac_origin_addr c);;
  refuse (match ac_keepalive_port c with Some port => port <? 10001 | None => false end)
    "keepalive_port 必须大于 10000（NAT 网关打洞限制）";;
  check_socket "external_addr 必须是 ip:port" (ac_external_addr c);;
  check_socket "stun_addr 必须是 ip:port" (ac_stun_addr c);;
  check_http "control_addr 必须是 http(s):// 地址" (ac_control_addr c).

Definition agent_load (from_str : string → result error AgentToml) : string → result error AgentConfig :=
  load_with from_str agent_defaults agent_validate.

(** [Config::resolve] on Linux *)
Definition agent_resolve (from_str : string → result error AgentToml) (args : list string) :
    result error AgentConfig :=
  path ← parse_args "agent" args;
  agent_load from_str path.

(** ** origin *)

Definition DEFAULT_MIN_FREE_BYTES : N := 50 * 1024 * 1024 * 1024.
Definition ORIGIN_BIND_ADDR : string := "0.0.0.0:50052".
Definition ORIGIN_LISTEN_PORT : N := 42001.
Definition ORIGIN_COMPACT_THRESHOLD : spec_float := F64_0_3.

Record OriginConfig := mkOriginConfig {
  oc_data_dir : string; oc_bind_addr : string; oc_listen_port : N;
  oc_external_addr : option string; oc_relay_url : option string;
  oc_scheduler_addr : option string; oc_compact_threshold : spec_float; oc_min_free_bytes : N
}.
Record OriginToml := mkOriginToml {
  ot_data_dir : string; ot_bind_addr : option string; ot_listen_port : option N;
  ot_external_addr : option string; ot_relay_url : option string;
  ot_scheduler_addr : option string; ot_compact_threshold : option spec_float;
  ot_min_free_bytes : option N
}.
Definition origin_defaults (t : OriginToml) : OriginConfig :=
  mkOriginConfig (ot_data_dir t) (default ORIGIN_BIND_ADDR (ot_bind_addr t))
    (default ORIGIN_LISTEN_PORT (ot_listen_port t)) (ot_external_addr t) (ot_relay_url t)
    (ot_scheduler_addr t) (default ORIGIN_COMPACT_THRESHOLD (ot_compact_threshold t))
    (default DEFAULT_MIN_FREE_BYTES (ot_min_free_bytes t)).

Definition bind_socket_addr (bind_addr : string) : result error string :=
  with_context ("bind_addr 非法: " ++ bind_addr)
    (ok_or ["invalid socket address syntax"%string] (parse_socket bind_addr)).

Definition origin_validate (c : OriginConfig) : result error () :=
  refuse (String.eqb (oc_data_dir c) "") "data_dir 不能为空";;
  refuse (negb (is_ok (bind_socket_addr (oc_bind_addr c)))) ("bind_addr 非法: " ++ oc_bind_addr c);;
  refuse (oc_listen_port c <? 10001) "listen_port 必须大于 10000（NAT 网关打洞限制）";;
  check_socket "external_addr 必须是 ip:port" (oc_external_addr c);;
  check_http "scheduler_addr 必须是 http(s):// 地址" (oc_scheduler_addr c);;
  refuse (negb (unit_range (oc_compact_threshold c))) "compact_threshold 必须在 (0, 1] 之间";;
  refuse (oc_min_free_bytes c =? 0) "min_free_bytes 必须大于 0".

Definition origin_load (from_str : string → result error OriginToml) :
    string → result error OriginConfig :=
  load_with from_str origin_defaults origin_validate.

(** ** scheduler *)

Definition SCHED_BIND_ADDR : string := "0.0.0.0:50051".
Definition DEFAULT_HTTP_BIND_ADDR : string := "0.0.0.0:18080".
Definition DEFAULT_HEARTBEAT_INTERVAL_SECS : N := 25.
Definition DEFAULT_OFFLINE_TIMEOUT_SECS : N := 75.
Definition DEFAULT_KEEPALIVE_INTERVAL_SECS : N := 25.
Definition DEFAULT_KEEPALIVE_FAIL_THRESHOLD : N := 3.
Definition DEFAULT_WEB_DIR : string := "web".
Definition DEFAULT_ADMIN_USER : string := "admin".
Definition DEFAULT_ADMIN_PASSWORD : string := "admin123".
Definition DEFAULT_BACKUP_INTERVAL_HOURS : N := 24.

Record SchedConfig := mkSchedConfig {
  sc_data_dir : string; sc_bind_addr : string; sc_http_bind_addr : string;
  sc_heartbeat_interval_secs : N; sc_offline_timeout_secs : N;
  sc_keepalive_interval_secs : N; sc_keepalive_fail_threshold : N;
  sc_web_dir : string; sc_admin_user : string; sc_admin_password : string;
  sc_backup_dir : option string; sc_backup_interval_hours : N
}.
Record SchedToml := mkSchedToml {
  st_data_dir : string; st_bind_addr : option string; st_http_bind_addr : option string;
  st_heartbeat_interval_secs : option N; st_offline_timeout_secs : option N;
  st_keepalive_interval_secs : option N; st_keepalive_fail_threshold : option N;
  st_web_dir : option string; st_admin_user : option string; st_admin_password : option string;
  st_backup_dir : option string; st_backup_interval_hours : option N
}.
Definition sched_defaults (t : SchedToml) : SchedConfig :=
  mkSchedConfig (st_data_dir t) (default SCHED_BIND_ADDR (st_bind_addr t))
    (default DEFAULT_HTTP_BIND_ADDR (st_http_bind_addr t))
    (default DEFAULT_HEARTBEAT_INTERVAL_SECS (st_heartbeat_interval_secs t))
    (default DEFAULT_OFFLINE_TIMEOUT_SECS (st_offline_timeout_secs t))
    (default DEFAULT_KEEPALIVE_INTERVAL_SECS (st_keepalive_interval_secs t))
    (default DEFAULT_KEEPALIVE_FAIL_THRESHOLD (st_keepalive_fail_threshold t))
    (default DEFAULT_WEB_DIR (st_web_dir t)) (default DEFAULT_ADMIN_USER (st_admin_user t))
    (default DEFAULT_ADMIN_PASSWORD (st_admin_password t)) (st_backup_dir t)
    (default DEFAULT_BACKUP_INTERVAL_HOURS (st_backup_interval_hours t)).

Definition http_bind_socket_addr (http_bind_addr : string) : result error string :=
  with_context ("http_bind_addr 非法: " ++ http_bind_addr)
    (ok_or ["invalid socket address syntax"%string] (parse_socket http_bind_addr)).

(** [heartbeat_interval_secs * 2] wraps at 64 bits; the integers of TOML stop at 63. *)
Definition sched_validate (c : SchedConfig) : result error () :=
  refuse (String.eqb (sc_data_dir c) "") "data_dir 不能为空";;
  refuse (negb (is_ok (bind_socket_addr (sc_bind_addr c)))) ("bind_addr 非法: " ++ sc_bind_addr c);;
  refuse (negb (is_ok (http_bind_socket_addr (sc_http_bind_addr c))))
    ("http_bind_addr 非法: " ++ sc_http_bind_addr c);;
  refuse ((sc_heartbeat_interval_secs c =? 0) || (sc_offline_timeout_secs c =? 0))
    "心跳间隔与离线超时必须大于 0";;
  refuse (sc_offline_timeout_secs c <? as_u64 (sc_heartbeat_interval_secs c * 2))
    "离线超时至少应为心跳间隔的 2 倍";;
  refuse ((sc_keepalive_interval_secs c =? 0) || (sc_keepalive_fail_threshold c =? 0))
    "保活周期与失败阈值必须大于 0";;
  refuse (String.eqb (sc_admin_user c) "" || String.eqb (sc_admin_password c) "")
    "admin_user 与 admin_password 不能为空";;
  refuse (sc_backup_interval_hours c =? 0) "backup_interval_hours 必须大于 0".

Definition sched_load (from_str : string → result error SchedToml) :
    string → result error SchedConfig :=
  load_with from_str sched_defaults sched_validate.

(** ** producer *)

Definition DEFAULT_CHUNK_MIN : N := 64 * 1024.
Definition DEFAULT_CHUNK_AVG : N := 1024 * 1024.
Definition DEFAULT_CHUNK_MAX : N := 4 * 1024 * 1024.

Record ChunkParams := mkParams { cp_min_size : N; cp_avg_size : N; cp_max_size : N }.
Definition ChunkParams_default : ChunkParams :=
  mkParams DEFAULT_CHUNK_MIN DEFAULT_CHUNK_AVG DEFAULT_CHUNK_MAX.

Record ProducerConfig := mkProducerConfig {
  pc_game_id : N; pc_version : N; pc_source_dir : string; pc_previous_dir : option string;
  pc_output_dir : string; pc_origin_addr : option string; pc_origin_token : option string;
  pc_chunk : ChunkParams
}.
Record ProducerToml := mkProducerToml {
  pt_toml_game_id : N; pt_toml_version : N; pt_source_dir : string; pt_previous_dir : option string;
  pt_output_dir : string; pt_origin_addr : option string; pt_origin_token : option string;
  pt_chunk : option (option N * option N * option N)
}.
Definition producer_defaults (t : ProducerToml) : ProducerConfig :=
  mkProducerConfig (pt_toml_game_id t) (pt_toml_version t) (pt_source_dir t) (pt_previous_dir t)
    (pt_output_dir t) (pt_origin_addr t) (pt_origin_token t)
    match pt_chunk t with
    | Some (min, avg, max) =>
      mkParams (default DEFAULT_CHUNK_MIN min) (default DEFAULT_CHUNK_AVG avg) (default DEFAULT_CHUNK_MAX max)
    | None => ChunkParams_default
    end.

(** [is_dir] is [Path::is_dir] of the source directory. *)
Definition producer_validate (is_dir : string → bool) (c : ProducerConfig) : result error () :=
  refuse (pc_game_id c =? 0) "game_id 必须大于 0";;
  refuse (pc_version c =? 0) "version 必须大于 0";;
  let p := pc_chunk c in
  refuse (cp_min_size p <? DEFAULT_CHUNK_MIN) "分块最小尺寸不得小于 64KiB";;
  refuse (negb ((cp_min_size p <? cp_avg_size p) && (cp_avg_size p <=? cp_max_size p)))
    "分块参数必须满足 min < avg <= max";;
  refuse (negb (is_dir (pc_source_dir c))) ("source_dir 不是有效目录: " ++ pc_source_dir c).

Definition producer_load (is_dir : string → bool) (from_str : string → result error ProducerToml) :
    string → result error ProducerConfig :=
  load_with from_str producer_defaults (producer_validate is_dir).

End configs.
