(* ===== verification/AgentControl.v ===== *)
(** * AgentControl: an agent's side of the control plane (crates/agent/src/control.rs,
    stun.rs and the addresses of lib.rs; the echo service of crates/relay/src/lib.rs)

    The generated gRPC stub is an interface over the state of the world behind
    it; every wrapper of control.rs is a definition over that interface.  The two
    background loops are functions of the sequence of events they wait for. *)

From S2P Require Import Prelude Bytes Text Redb SchedDb SchedControl Configs.

(** ** The stub: [ControlClient<Channel>] *)

Class ControlRpc (W : Type) := {
  rpc_connect : string → M W error ();
  rpc_register : RegisterRequest → M W error RegisterReply;
  rpc_heartbeat : N → string → M W error ();
  rpc_report_task : TaskReport → M W error ();
  rpc_report_chunk : ChunkDone → M W error ();
  rpc_query_peers : PeerQuery → M W error (list Peer);
  rpc_get_version : N → N → M W error VersionInfo
}.

(** [.context(msg)] on a call *)
Definition context_m {S A} (msg : string) (m : M S error A) : M S error A := map_err_m (cons msg) m.

Section client.
Context {W : Type} `{!ControlRpc W}.

(** The loop of [connect]: 30 attempts. *)
Fixpoint connect_loop (attempts : nat) (addr : string) : M W error () :=
  match attempts with
  | O => throw [("连接调度中心失败: " ++ addr)%string]
  | S attempts =>
    r ← attempt (rpc_connect addr);
    match (r : result error ()) with
    | Ok _ => mret ()
    | Err _ => connect_loop attempts addr
    end
  end.
Definition connect (addr : string) : M W error () := connect_loop 30 addr.

Definition control_register (node_type endpoint_id : string) (addrs : list Addr) :
    M W error RegisterReply :=
  context_m "注册失败" (rpc_register (mkRegister node_type endpoint_id addrs "")).

Definition control_report_task (node_id task_id : N) (status error : string) :
    M W Prelude.error () :=
  context_m "上报任务状态失败" (rpc_report_task (mkReport node_id task_id status error)).

Definition control_version (game_id version : N) : M W error (option (list byte)) :=
  reply ← context_m "查询版本清单失败" (rpc_get_version game_id version);
  mret (if vi_found reply then Some (vi_manifest reply) else None).

(** ** The background loops *)

Inductive beat := Tick | BeatShutdown.

(** A failed heartbeat is ignored. *)
Fixpoint heartbeat_loop (node_id : N) (events : list beat) : M W error () :=
  match events with
  | [] | BeatShutdown :: _ => mret ()
  | Tick :: events =>
    ignore (rpc_heartbeat node_id "ok" : M W error ());;
    heartbeat_loop node_id events
  end.

End client.

Definition task_from_event (ev : option TaskEvent) : option Task :=
  match ev with
  | Some (EvTask task) => Some task
  | Some (EvCancel _ _) => None
  | None => None
  end.

(** What [watch_loop] waits for: the shutdown, the answer to its subscription,
    the next element of the stream. *)
Inductive watch_input :=
| WatchShutdown
| Subscribed (ok : bool)
| Next (item : option (result error (option TaskEvent))).
Inductive watch_state := Subscribing | Streaming | Stopped.

(** One turn: the next state and the tasks given to [on_task]. *)
Definition watch_loop_step (st : watch_state) (input : watch_input) : watch_state * list Task :=
  match st, input with
  | Stopped, _ => (Stopped, [])
  | _, WatchShutdown => (Stopped, [])
  | Subscribing, Subscribed true => (Streaming, [])
  | Subscribing, Subscribed false => (Subscribing, [])
  | Streaming, Next (Some (Ok ev)) => (Streaming, option_list (task_from_event ev))
  | Streaming, Next _ => (Subscribing, [])
  | _, _ => (st, [])
  end.

Definition agent_watch_loop (inputs : list watch_input) : watch_state * list Task :=
  foldl (λ acc input, let r := watch_loop_step acc.1 input in (r.1, acc.2 ++ r.2))
    (Subscribing, []) inputs.

(** ** Address discovery *)

(** [str::split_whitespace] on ASCII *)
Definition is_ws (c : ascii) : bool := let n := N_of_ascii c in ((9 <=? n) && (n <=? 13)) || (n =? 32).
Fixpoint split_words (word : string) (s : string) : list string :=
  let flush := if String.eqb word "" then [] else [word] in
  match s with
  | EmptyString => flush
  | String c s =>
    if is_ws c then flush ++ split_words "" s
    else split_words (word ++ String c "") s
  end.
Definition split_whitespace (s : string) : list string := split_words "" s.

(** The reply of the relay's echo service to a packet from [src]. *)
Definition echo_reply (src : string) : string := ("ADDR blazenet-relay " ++ src)%string.

Section stun.
Context `{!NetParse}.

(** [addr.parse::<SocketAddr>()] with its error *)
Definition socket_addr (s : string) : result error string :=
  ok_or ["invalid socket address syntax"%string] (parse_socket s).

(** [exchange] binds the port, sends the probe and gives the first datagram
    that arrives: its text and its source. *)
Definition discover (exchange : string → N → result error (string * string))
    (server : string) (local_port : N) : result error string :=
  server_addr ← with_context ("地址回显服务地址非法: " ++ server) (socket_addr server);
  r ← exchange server_addr local_port;
  let '(text, src) := r in
  if decide (src ≠ server_addr) then bail ("地址回显来源不匹配: " ++ src) else
  addr_text ← ok_or ["地址回显格式错误"%string] (split_whitespace text !! 2%nat);
  with_context ("地址回显内容非法: " ++ addr_text) (socket_addr addr_text).

(** ** The addresses an agent announces (lib.rs, [start]) *)

Definition external_addr (config : AgentConfig)
    (exchange : string → N → result error (string * string)) : result error (option string) :=
  match ac_external_addr config with
  | Some addr =>
    a ← socket_addr addr;
    mret (Some a)
  | None =>
    match ac_stun_addr config with
    | Some server => a ← discover exchange server (ac_listen_port config); mret (Some a)
    | None => mret None
    end
  end.

(** [socket_ip] is the host part of a socket address. *)
Definition announced_addrs (socket_ip : string → string) (config : AgentConfig)
    (external : option string) : list Addr :=
  option_list ((λ addr, mkPAddr addr
      (if bool_decide (is_Some (ac_external_addr config)) then "config" else "stun") "") <$> external)
  ++ match ac_external_addr config, ac_keepalive_port config with
     | Some addr, Some port =>
       match parse_socket addr with
       | Some socket => [mkPAddr (socket_ip socket ++ ":" ++ dec port) "keepalive" ""]
       | None => []
       end
     | _, _ => []
     end.
End stun.

(** ** The scheduler in process, behind the stub

    [to_error] is how a failed call shows at the client. *)
Definition at_client {D A} (to_error : Status → error) (m : M (ControlService D) Status A) :
    M (ControlService D) error A := map_err_m to_error m.

Definition InProcess {D} `{!RedbOps D, !SchedJson} (to_error : Status → error)
    (now : N) : ControlRpc (ControlService D) := {|
  rpc_connect _ := mret ();
  rpc_register req := at_client to_error (register now now req);
  rpc_heartbeat node_id _ := (at_client to_error (heartbeat now now node_id);; mret ());
  rpc_report_task report := at_client to_error (report_task report);
  rpc_report_chunk d := at_client to_error (report_chunk d);
  rpc_query_peers q := at_client to_error (query_peers q);
  rpc_get_version g v := at_client to_error (control_get_version g v)
|}.
