(* ===== verification/Services.v ===== *)
(** * Services: how the processes start, and their background loops
    (crates/agent/src/lib.rs, crates/origin/src/lib.rs and datapath.rs,
    crates/scheduler/src/lib.rs, the loops of cafe_store.rs, keepalive.rs and http.rs,
    and the echo service of crates/relay/src/lib.rs)

    A start returns the services it has spawned and what it did to the world on the
    way; sockets and endpoints are an interface.  A loop is a function of the
    sequence of events its [select!] sees. *)

From S2P Require Import Prelude Bytes Text FileIO Redb PingPong SchedDb SchedControl SchedHttp.
From S2P Require Import Storage Upload DataPath CafeStore Configs AgentControl.

(** ** The services of a process *)

Inductive Service :=
| DataPlane (endpoint_id : string) (pack_default : bool)
| UploadRpcServer (addr : string) (scheduler_addr : option string)
| PongServer (port : N)
| TempCleaner (data_dir : string) (ttl_hours interval : N)
| HeartbeatLoop (node_id interval : N)
| TaskWatch (node_id : N)
| BackupLoop (dir : string) (interval : N)
| ControlRpcServer (addr : string)
| KeepaliveLoop (interval fail_threshold timeout_ms : N)
| HttpServer (addr : string).

(** What the machine and iroh answer: the first port and the identity of a bound
    endpoint, a relay URL, the sockets, directories. *)
Class Host := {
  host_relay_url : string → result error string;
  host_endpoint : N → option string → option string → result error (option N * string);
  host_tcp : string → result error ();
  host_udp : result error ();
  host_make_dir : string → result error ()
}.

Section start.
Context `{!Host, !NetParse}.

(** ** The data plane (datapath.rs) *)

Record DataPathHandle := mkDataPath { dh_port : N; dh_endpoint_id : string }.

Definition datapath_serve (listen_port : N) (relay_url external : option string) :
    result error DataPathHandle :=
  relay ← match relay_url with
          | Some url => relay ← host_relay_url url; mret (Some relay)
          | None => mret None
          end;
  endpoint ← with_context "绑定 iroh 端点失败" (host_endpoint listen_port relay external);
  mret (mkDataPath (default listen_port endpoint.1) endpoint.2).

(** What the accept loop waits for; a handshake may fail. *)
Inductive incoming := AcceptShutdown | Incoming (request : option (list byte)) (ready : bool).

(** Every connection runs on its own; its error is printed. *)
Fixpoint accept_loop {D F C K} `{!RedbOps D, !FileOps F, !CompioOps F, !OpenOps D F, !ChunkSource K}
    (pack_default : bool) (events : list incoming) : M (DataState D F C K) error () :=
  match events with
  | [] | AcceptShutdown :: _ => mret ()
  | Incoming None _ :: events => accept_loop pack_default events
  | Incoming (Some request) ready :: events =>
    modify (set_conn (mkConn request []));;
    ignore (handle_conn ready pack_default : M _ error ());;
    accept_loop pack_default events
  end.

(** ** The origin (lib.rs) *)

Definition origin_run (config : OriginConfig) : result error (list Service) :=
  with_context ("创建数据目录失败: " ++ oc_data_dir config) (host_make_dir (oc_data_dir config));;
  addr ← bind_socket_addr (oc_bind_addr config);
  with_context "启动上传服务失败" (host_tcp addr);;
  external ← match oc_external_addr config with
             | Some a => a ← socket_addr a; mret (Some a)
             | None => mret None
             end;
  handle ← with_context "启动数据面服务失败"
             (datapath_serve (oc_listen_port config) (oc_relay_url config) external);
  mret [UploadRpcServer addr (oc_scheduler_addr config); DataPlane (dh_endpoint_id handle) true].

(** ** The agent (lib.rs) *)

Record AgentHandle := mkAgent {
  ah_port : N;
  ah_services : list Service;
  ah_node_id : option N;
  ah_tasks : list Task
}.

Section agent.
Context {W : Type} `{!ControlRpc W}.
Context (exchange : string → N → result error (string * string)) (socket_ip : string → string).

Definition agent_services (config : AgentConfig) (endpoint_id : string) : list Service :=
  DataPlane endpoint_id (bool_decide (ac_node_type config = Idc)) ::
  option_list (PongServer <$> ac_keepalive_port config) ++
  (if decide (ac_node_type config = Configs.Cafe)
   then [TempCleaner (ac_data_dir config) (ac_temp_ttl_hours config) 3600] else []).

Definition agent_start (config : AgentConfig) : M W error AgentHandle :=
  external ← lift (external_addr config exchange);
  handle ← lift (datapath_serve (ac_listen_port config) (ac_relay_url config) external);
  let services := agent_services config (dh_endpoint_id handle) in
  match ac_control_addr config with
  | None => mret (mkAgent (dh_port handle) services None [])
  | Some addr =>
    connect addr;;
    reply ← control_register (NodeType_to_string (ac_node_type config)) (dh_endpoint_id handle)
              (announced_addrs socket_ip config external);
    mret (mkAgent (dh_port handle)
      (services ++ [HeartbeatLoop (rp_node_id reply) 25; TaskWatch (rp_node_id reply)])
      (Some (rp_node_id reply)) (rp_initial_tasks reply))
  end.
End agent.

(** ** The scheduler (lib.rs) *)

Section scheduler.
Context {D : Type} `{!RedbOps D, !SchedJson, !JsonOps Snapshot}.
Context (write_file : string → string → result error ()).

(** [backup_interval_hours * 3600] wraps at 64 bits. *)
Definition start_backup (config : SchedConfig) (secs : N) (db : D) : result error (list Service) :=
  match sc_backup_dir config with
  | None => mret []
  | Some dir =>
    with_context ("创建备份目录失败: " ++ dir) (host_make_dir dir);;
    with_context "启动备份失败" (backup_to (host_make_dir dir) write_file dir secs db);;
    mret [BackupLoop dir (as_u64 (sc_backup_interval_hours config * 3600))]
  end.

(** What the loop waits for: an interval has passed ([secs] and the database are
    those of that moment), or the shutdown.  The result is what each turn did. *)
Inductive backup_wake := BackupShutdown | BackupDue (secs : N) (db : D).
Fixpoint run_backup_loop (dir : string) (events : list backup_wake) : list (result error string) :=
  match events with
  | [] | BackupShutdown :: _ => []
  | BackupDue secs db :: events =>
    backup_to (host_make_dir dir) write_file dir secs db :: run_backup_loop dir events
  end.

(** [opened] is what [Store::open] gives; [offline_timeout_secs * 1000] wraps. *)
Definition scheduler_run (config : SchedConfig) (opened : result error D) (secs : N) :
    result error (ControlService D * list Service) :=
  db ← opened;
  list_nodes db;;
  backup ← start_backup config secs db;
  addr ← bind_socket_addr (sc_bind_addr config);
  with_context "启动控制面 gRPC 服务失败" (host_tcp addr);;
  with_context "绑定保活 UDP 端口失败" host_udp;;
  http_addr ← http_bind_socket_addr (sc_http_bind_addr config);
  with_context "绑定 HTTP 端口失败" (host_tcp http_addr);;
  mret (ControlService_new db, backup ++
    [ControlRpcServer addr;
     KeepaliveLoop (sc_keepalive_interval_secs config) (sc_keepalive_fail_threshold config)
       (as_u64 (sc_offline_timeout_secs config * 1000));
     HttpServer http_addr]).
End scheduler.
End start.

(** ** Loops *)

(** [run_cleaner]: an error is printed and the loop goes on. *)
Inductive cleaner_wake := CleanerShutdown | CleanerDue (now : N).
Fixpoint run_cleaner {F} `{!FileOps F, !CompioOps F, !DirOps F, !MapIter} (ttl_hours : N)
    (events : list cleaner_wake) : M (gmap N (GameDir F)) error () :=
  match events with
  | [] | CleanerShutdown :: _ => mret ()
  | CleanerDue now :: events =>
    ignore (cleanup_expired (ttl_secs ttl_hours) now : M _ error N);;
    run_cleaner ttl_hours events
  end.

(** [serve_pong]: the replies sent, until the shutdown or a receive error. *)
Inductive pong_event := PongShutdown | PongRecv (datagram : result error (list byte)).
Fixpoint serve_pong (events : list pong_event) : list (list byte) * result error () :=
  match events with
  | [] | PongShutdown :: _ => ([], Ok ())
  | PongRecv (Err e) :: _ => ([], Err e)
  | PongRecv (Ok datagram) :: events =>
    let rest := serve_pong events in (option_list (serve_pong_step datagram) ++ rest.1, rest.2)
  end.

(** The relay's [echo_loop]: what is sent, and to whom. *)
Inductive echo_event := EchoShutdown | EchoRecv (src : result error string) (sent : result error ()).
Fixpoint echo_loop (events : list echo_event) : list (string * string) * result error () :=
  match events with
  | [] | EchoShutdown :: _ => ([], Ok ())
  | EchoRecv (Err e) _ :: _ => ([], Err e)
  | EchoRecv (Ok _) (Err e) :: _ => ([], Err e)
  | EchoRecv (Ok src) (Ok _) :: events =>
    let rest := echo_loop events in ((src, echo_reply src) :: rest.1, rest.2)
  end.

(** [events_stream]: a subscriber that lagged behind gets an empty object. *)
Definition newline : string := String (ascii_of_N 10) EmptyString.
Definition sse_frame (item : option string) : string :=
  match item with
  | Some text => ("data: " ++ text ++ newline ++ newline)%string
  | None => ("data: {}" ++ newline ++ newline)%string
  end.
Definition events_stream (items : list (option string)) : list string := map sse_frame items.
