(* ===== verification/ServicesSpec.v ===== *)
(** * ServicesSpec: what a start and the background loops guarantee

    An agent that starts is recorded with the addresses it announces and spawns the
    services of its configuration; the scheduler's probes reach it.  A backup holds
    every record of the database.  The cleaner removes expired blocks only. *)

From S2P Require Import Prelude Bytes Text FileIO Redb PingPong SchedDb SchedDbSpec SchedControl.
From S2P Require Import SchedControlSpec Keepalive KeepaliveSpec KeepaliveLive CafeStore CafeSpec.
From S2P Require Import Storage StorageSpec Upload UploadSpec DataPath DataPathSpec System.
From S2P Require Import Configs AgentControl Services.

(** ** Starting an agent *)

Section agent.
Context {D : Type} `{RedbLaws D, SchedJsonLaws, !Host, !NetParse}.
Context (to_error : Status → error) (exchange : string → N → result error (string * string)).
Context (socket_ip : string → string).

#[local] Instance scheduler_rpc (now : N) : ControlRpc (ControlService D) := InProcess to_error now.

Lemma connect_in_process now addr (c c' : ControlService D) r :
  connect (ControlRpc0:=scheduler_rpc now) addr c = (c', r) → c' = c ∧ r = Ok ().
Proof. unfold connect. cbn. by intros [= <- <-]. Qed.

Lemma control_register_in_process now ty ep addrs (c c' : ControlService D) reply :
  control_register (ControlRpc0:=scheduler_rpc now) ty ep addrs c = (c', Ok reply) →
  register now now (mkRegister ty ep addrs "") c = (c', Ok reply).
Proof.
  unfold control_register, context_m, map_err_m. cbn [rpc_register scheduler_rpc InProcess].
  unfold at_client, map_err_m. destruct (register _ _ _ c) as [c1 [x|e]]; [|done]. by intros [= <- <-].
Qed.

Lemma register_tables t1 t2 req (s s' : ControlService D) reply :
  register t1 t2 req s = (s', Ok reply) → contents (cs_store s') TASKS = contents (cs_store s) TASKS.
Proof.
  intros Hr. unfold register in Hr. destruct (valid_node_type _); cbn in Hr; [|done].
  m_step Hr as s1 nid e Hid. apply on_store_inv in Hid as (r1 & Hid & Hs1 & Hr1).
  destruct r1 as [nid'|]; [|done]. apply next_id_ok in Hid as [_ [_ Ho]].
  m_step Hr as s2 [] e Hin. apply on_store_inv in Hin as (r2 & Hin & Hs2 & Hr2).
  destruct r2 as [[]|]; [|done]. apply insert_node_ok in Hin as [_ Hoth].
  m_step Hr as s3 ts e Ht. apply read_store_inv in Ht as [-> _]. injection Hr as <- _.
  rewrite Hoth by done. by rewrite Ho.
Qed.

(** The record under which a started agent is kept. *)
Definition agent_record (config : AgentConfig) (external : option string) (dp : DataPathHandle)
    (id now : N) (token : string) : NodeRecord :=
  mkNode id (NodeType_to_string (ac_node_type config)) (dh_endpoint_id dp) token
    (map to_addr_record (announced_addrs socket_ip config external)) "online" now.

(** An agent without a control address touches no scheduler.  One that
    starts with a control address is recorded, online, under a fresh identifier
    with its type, its endpoint and the addresses of its configuration, and no
    other node changes; it is handed the queued tasks of that identifier.  It runs
    the data plane, the pong server if a port is configured, the cleaner exactly if
    it is a cafe, and the loops of the control plane exactly if it is registered. *)
Theorem agent_start_spec now config (c c' : ControlService D) r :
  agent_start (ControlRpc0:=scheduler_rpc now) exchange socket_ip config c = (c', r) →
  (ac_control_addr config = None → c' = c) ∧
  ∀ handle, r = Ok handle → ∃ external dp,
    external_addr config exchange = Ok external ∧
    datapath_serve (ac_listen_port config) (ac_relay_url config) external = Ok dp ∧
    ah_port handle = dh_port dp ∧
    match ac_control_addr config with
    | None => ah_node_id handle = None ∧ ah_tasks handle = [] ∧
        ah_services handle = agent_services config (dh_endpoint_id dp)
    | Some _ => ∃ id token, ah_node_id handle = Some id ∧
        id = add_u64 (counter_of (cs_store c) NEXT_NODE_ID) 1 ∧
        nodes (cs_store c') = <[id := agent_record config external dp id now token]> (nodes (cs_store c)) ∧
        queued_for c' id (map pt_id (ah_tasks handle)) ∧
        ah_services handle = agent_services config (dh_endpoint_id dp) ++
          [HeartbeatLoop id 25; TaskWatch id]
    end.
Proof.
  intros Hs. unfold agent_start in Hs.
  m_step Hs as c1 external e He; unfold lift in He; injection He as <- He; [|done].
  m_step Hs as c1 dp e Hd; unfold lift in Hd; injection Hd as <- Hd; [|done]. cbv zeta in Hs.
  destruct (ac_control_addr config) as [addr|] eqn:Hc; last first.
  { injection Hs as <- <-. split; [done|]. intros handle [= <-]. by exists external, dp. }
  split; [done|]. intros handle ->.
  m_step Hs as c1 [] e Hcon; apply connect_in_process in Hcon as [-> _].
  m_step Hs as c2 reply e Hreg. apply control_register_in_process in Hreg.
  injection Hs as <- <-. exists external, dp. split_and!; [done..|].
  destruct (register_spec _ _ _ _ _ _ Hreg) as [_ Hspec].
  destruct (Hspec reply eq_refl) as (Hid & Hnodes & _ & ids & Hids & Heq). cbn [rq_addrs rq_node_type rq_endpoint_id] in *.
  exists (rp_node_id reply), (rp_token reply). split_and!; [done|done|exact Hnodes| |done].
  cbn [ah_tasks]. by rewrite Heq.
Qed.

(** ** The probe of a started agent *)

Context {A : Type} `{SockAddr A, MapIterLaws, !RedbHealthy D}.


(** ** Restarting an agent *)

(** Every node has an identifier the counter has given out, and every task is for
    a recorded node. *)
Definition ids_given (c : ControlService D) : Prop :=
  (∀ i, is_Some (nodes (cs_store c) !! i) → i ≤ counter_of (cs_store c) NEXT_NODE_ID) ∧
  ∀ t task, tasks (cs_store c) !! t = Some task → is_Some (nodes (cs_store c) !! tk_node_id task).

(** A second start of an agent is a new node: the record of the first start
    stays as it is, online under the same endpoint or not, and none of its tasks,
    queued ones included, is handed to the restarted agent, which starts with no
    task at all. *)
Theorem agent_restart_forgets now config (c c' : ControlService D) handle :
  ids_given c → counter_of (cs_store c) NEXT_NODE_ID + 1 < 2^64 →
  is_Some (ac_control_addr config) →
  agent_start (ControlRpc0:=scheduler_rpc now) exchange socket_ip config c = (c', Ok handle) →
  ah_tasks handle = [] ∧
  ∃ id, ah_node_id handle = Some id ∧ nodes (cs_store c) !! id = None ∧
    ∀ i, is_Some (nodes (cs_store c) !! i) → nodes (cs_store c') !! i = nodes (cs_store c) !! i.
Proof.
  intros [Hids Htasks] Hroom [ctl Hctl] Hs. unfold agent_start in Hs.
  m_step Hs as c1 external e He; unfold lift in He; injection He as <- He.
  m_step Hs as c1 dp e Hd; unfold lift in Hd; injection Hd as <- Hd. cbv zeta in Hs. rewrite Hctl in Hs.
  m_step Hs as c1 [] e Hcon; apply connect_in_process in Hcon as [-> _].
  m_step Hs as c2 reply e Hreg. apply control_register_in_process in Hreg. injection Hs as <- <-.
  pose proof (register_tables _ _ _ _ _ _ Hreg) as Htab.
  destruct (register_spec _ _ _ _ _ _ Hreg) as [_ Hspec].
  destruct (Hspec reply eq_refl) as (Hid & Hnodes & _ & ids & (all & Hall & Hq) & Heq).
  rewrite add_u64_small in Hid by done.
  assert (nodes (cs_store c) !! rp_node_id reply = None) as Hfresh.
  { destruct (nodes (cs_store c) !! rp_node_id reply) as [n|] eqn:Hn; [|done].
    specialize (Hids _ (mk_is_Some _ _ Hn)). lia. }
  assert (filter (λ t, tk_node_id t = rp_node_id reply) all = []) as Hnone.
  { destruct (filter _ all) as [|t l] eqn:Hf; [done|exfalso].
    assert (t ∈ filter (λ t, tk_node_id t = rp_node_id reply) all) as Hin by (rewrite Hf; left).
    apply list_elem_of_filter in Hin as [Ht Hin]. destruct Hall as (ks & _ & _ & Hf2 & _).
    apply list_elem_of_lookup in Hin as [j Hj].
    destruct (Forall2_lookup_r _ _ _ _ _ Hf2 Hj) as (k & _ & Hk).
    assert (tasks (cs_store c) !! k = Some t) as Hk'.
    { rewrite <- Hk. exact (f_equal (λ m : gmap N string, omap (λ v, ok (decode (A:=TaskRecord) v)) m !! k) (eq_sym Htab)). }
    destruct (Htasks _ _ Hk') as [n Hn]. rewrite Ht, Hfresh in Hn. done. }
  rewrite Hnone in Hq. cbn in Hq. rewrite Hq in Heq. cbn [ah_tasks ah_node_id]. split.
  { by destruct (rp_initial_tasks reply). }
  exists (rp_node_id reply). split_and!; [done|done|]. intros i [n Hn]. rewrite Hnodes.
  rewrite lookup_insert_ne; [done|]. intros <-. congruence.
Qed.
End agent.

(** ** Backups *)

Section backup.
Context {D : Type} `{RedbLaws D, SchedJsonLaws, !JsonOps Snapshot, !JsonLaws Snapshot, !Host}.
Context (write_file : string → string → result error ()).
Implicit Types (db : D).

(** Every record of the database, table by table; a table without records of its
    own is listed with its keys. *)
Record snapshot_of db (sn : Snapshot) : Prop := {
  so_nodes : listing NODES (SchedDbSpec.view NODES id db) (sn_nodes sn);
  so_tasks : listing TASKS (SchedDbSpec.view TASKS id db) (sn_tasks sn);
  so_users : listing USERS (SchedDbSpec.view USERS id db) (sn_users sn);
  so_places : listing PLACES (SchedDbSpec.view PLACES id db) (sn_places sn);
  so_groups : listing GROUPS (SchedDbSpec.view GROUPS id db) (sn_groups sn);
  so_games : listing GAMES (SchedDbSpec.view GAMES id db) (sn_games sn);
  so_audits : listing AUDITS (SchedDbSpec.view AUDITS id db) (sn_audits sn);
  so_bindings : sn_bindings sn ≡ₚ map_to_list (contents db BINDINGS : gmap string N);
  so_versions : sn_versions sn ≡ₚ map_to_list (contents db VERSIONS : gmap string string);
  so_chunks : sn_chunks sn ≡ₚ map_to_list (contents db CHUNKS : gmap string string);
  so_heat : sn_heat sn ≡ₚ map_to_list (contents db HEAT : gmap string N);
  so_counters : sn_counters sn ≡ₚ map_to_list (contents db COUNTERS : gmap string N)
}.

Lemma list_pairs_ok m1 m2 m3 t db l :
  list_pairs m1 m2 m3 t db = Ok l → l ≡ₚ map_to_list (contents db t).
Proof. intros Hl. by apply iter_txn_ok in Hl as [Hp _]. Qed.

Lemma iter_records {R} `{!JsonOps R} m1 m2 m3 (t : TableDefinition) (text_of : Val t → string) db (l : list R) :
  read_txn m1 t (iter_map m2 m3 t (λ kv, decode (text_of kv.2))) db = Ok l →
  listing t (SchedDbSpec.view t text_of db) l.
Proof. intros Hl. apply iter_map_txn_ok in Hl as (kvs & Hs & Hm). by apply (mapM_listing t text_of db kvs l). Qed.

Lemma snapshot_ok db sn : snapshot db = Ok sn → snapshot_of db sn.
Proof.
  unfold snapshot. intros Hs.
  repeat (apply bind_Ok_inv in Hs as (? & ? & Hs)). injection Hs as <-.
  split; cbn.
  - match goal with Hl : list_nodes _ = _ |- _ => exact (iter_records _ _ _ NODES id db _ Hl) end.
  - match goal with Hl : list_tasks _ = _ |- _ => exact (iter_records _ _ _ TASKS id db _ Hl) end.
  - by apply list_records_listing.
  - by apply list_records_listing.
  - by apply list_records_listing.
  - by apply list_records_listing.
  - by apply list_records_listing.
  - match goal with Hl : list_bindings _ = _ |- _ => exact (list_pairs_ok _ _ _ BINDINGS db _ Hl) end.
  - match goal with Hl : list_versions _ = _ |- _ => exact (list_pairs_ok _ _ _ VERSIONS db _ Hl) end.
  - match goal with Hl : list_chunks _ = _ |- _ => exact (list_pairs_ok _ _ _ CHUNKS db _ Hl) end.
  - match goal with Hl : list_heat _ = _ |- _ => exact (list_pairs_ok _ _ _ HEAT db _ Hl) end.
  - match goal with Hl : list_counters _ = _ |- _ => exact (list_pairs_ok _ _ _ COUNTERS db _ Hl) end.
Qed.

(** What a backup that went through has written. *)
Definition backed_up (dir : string) (secs : N) db (path : string) : Prop :=
  path = (dir ++ "/scheduler-" ++ dec secs ++ ".json")%string ∧
  ∃ text sn, write_file path text = Ok () ∧ from_str text = Ok sn ∧ snapshot_of db sn.

Lemma backup_to_ok created dir secs db path :
  backup_to created write_file dir secs db = Ok path → backed_up dir secs db path.
Proof.
  unfold backup_to. intros Hb. apply bind_Ok_inv in Hb as ([] & _ & Hb).
  apply bind_Ok_inv in Hb as (sn & Hsn & Hb). apply bind_Ok_inv in Hb as (text & Ht & Hb).
  apply bind_Ok_inv in Hb as ([] & Hw%with_context_Ok_inv & Hb). injection Hb as <-.
  split; [done|]. exists text, sn. split_and!; [done|by apply json_roundtrip|by apply snapshot_ok].
Qed.

(** The moments at which the loop makes a backup. *)
Fixpoint due (events : list (backup_wake (D:=D))) : list (N * D) :=
  match events with
  | [] | BackupShutdown :: _ => []
  | BackupDue secs db :: events => (secs, db) :: due events
  end.

(** With a backup directory a scheduler starts only after a backup went
    through; the loop then makes one backup per interval until the shutdown, going on
    after a failure.  A backup that goes through has written a file, named after
    the moment, that reads back as every record of every table of that moment. *)
Theorem backup_spec config secs db services dir events :
  sc_backup_dir config = Some dir → start_backup write_file config secs db = Ok services →
  services = [BackupLoop dir (as_u64 (sc_backup_interval_hours config * 3600))] ∧
  (∃ path, backed_up dir secs db path) ∧
  Forall2 (λ (e : N * D) r, ∀ path, r = Ok path → backed_up dir e.1 e.2 path)
    (due events) (run_backup_loop write_file dir events).
Proof.
  intros Hdir Hs. unfold start_backup in Hs. rewrite Hdir in Hs.
  apply bind_Ok_inv in Hs as ([] & _ & Hs). apply bind_Ok_inv in Hs as (path & Hb%with_context_Ok_inv & Hs).
  injection Hs as <-. split_and!; [done|exists path; by apply backup_to_ok in Hb|].
  induction events as [|[|secs' db'] events IH]; [constructor|constructor|]. cbn. constructor; [|exact IH].
  intros path' Hp. by apply backup_to_ok in Hp.
Qed.
End backup.

(** ** The cleaner *)

Section cleaner.
Context {F : Type} `{!FileOps F, !CompioOps F, !DirOps F, MapIterLaws}.
Implicit Types (root : gmap N (GameDir F)).

(** What cleaning may change: temporary blocks that have expired at one of the
    moments are gone. *)
Definition cleaned (ttl : N) (nows : list N) (d d' : GameDir F) : Prop :=
  dir_rest d d' ∧ ∀ n, gd_temp d' !! n = gd_temp d !! n ∨
    gd_temp d' !! n = None ∧ ∃ f now, gd_temp d !! n = Some f ∧ now ∈ nows ∧ expired_block ttl now n f = true.

Definition all_cleaned (ttl : N) (nows : list N) root root' : Prop :=
  ∀ g d, root !! g = Some d → ∃ d', root' !! g = Some d' ∧ cleaned ttl nows d d'.

Lemma cleaned_refl ttl nows d : cleaned ttl nows d d.
Proof. split; [done|]. intros n. by left. Qed.

Lemma cleaned_trans ttl l1 l2 d1 d2 d3 :
  cleaned ttl l1 d1 d2 → cleaned ttl l2 d2 d3 → cleaned ttl (l1 ++ l2) d1 d3.
Proof.
  intros [[Hf1 Hm1] Ht1] [[Hf2 Hm2] Ht2]. split; [by split; etrans|]. intros n.
  destruct (Ht2 n) as [H2|(H2 & f & now & Hf & Hin & He)].
  - destruct (Ht1 n) as [H1|(H1 & f & now & Hf & Hin & He)]; rewrite H2; [by left|].
    right. split; [done|]. exists f, now. split_and!; [done|apply elem_of_app; by left|done].
  - right. split; [done|]. destruct (Ht1 n) as [H1|(H1 & _)]; [|rewrite H1 in Hf; done].
    exists f, now. rewrite <- H1. split_and!; [done|apply elem_of_app; by right|done].
Qed.

Lemma cleanup_game_cleaned ttl now removed d d' r :
  cleanup_game ttl now removed d = (d', r) → cleaned ttl [now] d d'.
Proof.
  intros Hc. unfold cleanup_game in Hc. rewrite (M_bind_ok get _ d d d) in Hc by done.
  apply cleanup_entries_ok in Hc as (Hrest & es & Hsub & Ht & _). split; [done|]. intros n.
  rewrite Ht, delete_all_lookup. case_decide as Hin; [right|by left]. split; [done|].
  apply list_elem_of_fmap in Hin as ([n' f] & -> & Hin). eapply elem_of_sublist in Hin; [|exact Hsub].
  apply list_elem_of_filter in Hin as [He Hin]. apply elem_of_map_iter in Hin.
  exists f, now. split_and!; [done|left|done].
Qed.

Lemma cleanup_games_cleaned ttl now games removed root root' r :
  (∀ g, g ∈ games → is_Some (root !! g)) →
  cleanup_games ttl now games removed root = (root', r) →
  ∃ n, all_cleaned ttl (replicate n now) root root'.
Proof.
  revert removed root. induction games as [|g games IH]; intros removed root Hg Hc.
  { injection Hc as <- <-. exists 0%nat. intros g d Hd. exists d. split; [done|apply cleaned_refl]. }
  cbn [cleanup_games] in Hc. unfold zoom, mbind, M_bind in Hc.
  destruct (Hg g (list_elem_of_here _ _)) as [d Hd]. rewrite Hd in Hc. cbn [default from_option id] in Hc.
  destruct (cleanup_game ttl now removed d) as [d1 r1] eqn:Hc1. apply cleanup_game_cleaned in Hc1.
  assert (all_cleaned ttl [now] root (<[g := d1]> root)) as H1.
  { intros g' d' Hd'. destruct (decide (g' = g)) as [->|Hne].
    - exists d1. rewrite lookup_insert_eq. rewrite Hd in Hd'. by injection Hd' as <-.
    - exists d'. rewrite lookup_insert_ne by done. split; [done|apply cleaned_refl]. }
  destruct r1 as [removed1|e]; [|injection Hc as <- <-; by exists 1%nat].
  destruct (IH removed1 (<[g := d1]> root)) as (n & Hn); [|exact Hc|].
  { intros g' Hg'. destruct (decide (g' = g)) as [->|Hne]; [rewrite lookup_insert_eq; by eexists|].
    rewrite lookup_insert_ne by done. apply Hg. by right. }
  exists (S n). intros g' d' Hd'. destruct (H1 g' d' Hd') as (d2 & Hd2 & Hc2).
  destruct (Hn g' d2 Hd2) as (d3 & Hd3 & Hc3). exists d3. split; [done|].
  by apply (cleaned_trans ttl [now] (replicate n now) d' d2 d3).
Qed.

(** The moments at which the loop cleans. *)
Fixpoint cleaner_due (events : list cleaner_wake) : list N :=
  match events with
  | [] | CleanerShutdown :: _ => []
  | CleanerDue now :: events => now :: cleaner_due events
  end.

Lemma cleaned_weaken ttl l1 l2 d d' : l1 ⊆ l2 → cleaned ttl l1 d d' → cleaned ttl l2 d d'.
Proof.
  intros Hsub [Hr Ht]. split; [done|]. intros n. destruct (Ht n) as [?|(? & f & now & ? & ? & ?)]; [by left|right].
  split; [done|]. exists f, now. split_and!; [done|by apply Hsub|done].
Qed.

(** However long it runs and whatever fails, the cleaner of a cafe touches no
    game file and no manifest, and removes no temporary block that was not older
    than the time to live at one of the moments it woke up before the shutdown. *)
Theorem cleaner_safe ttl_hours events root root' r :
  run_cleaner ttl_hours events root = (root', r) →
  r = Ok () ∧ all_cleaned (ttl_secs ttl_hours) (cleaner_due events) root root'.
Proof.
  revert root. induction events as [|[|now] events IH]; intros root Hr.
  - injection Hr as <- <-. split; [done|]. intros g d Hd. exists d. split; [done|apply cleaned_refl].
  - injection Hr as <- <-. split; [done|]. intros g d Hd. exists d. split; [done|apply cleaned_refl].
  - cbn [run_cleaner cleaner_due] in *. unfold ignore, mbind, M_bind in Hr.
    unfold cleanup_expired in Hr. rewrite (M_bind_ok get _ root root root) in Hr by done.
    destruct (cleanup_games _ now (map_iter root).*1 0 root) as [root1 r1] eqn:Hc. cbn [fst] in Hr.
    apply cleanup_games_cleaned in Hc as (n & Hn); last first.
    { intros g Hg. apply list_elem_of_fmap in Hg as ([g' d] & -> & Hin). apply elem_of_map_iter in Hin. by exists d. }
    destruct (IH _ Hr) as [-> Hrest]. split; [done|]. intros g d Hd.
    destruct (Hn g d Hd) as (d1 & Hd1 & Hc1). destruct (Hrest g d1 Hd1) as (d2 & Hd2 & Hc2).
    exists d2. split; [done|].
    apply (cleaned_weaken _ (replicate n now ++ cleaner_due events)); [|by eapply cleaned_trans].
    intros x [Hx|Hx]%elem_of_app; [apply elem_of_replicate in Hx as [-> _]; left|by right].
Qed.
End cleaner.

(** ** The accept loop of the data plane *)

Section accept.
Context {D E F K : Type} `{!RedbOps D, !RedbLaws D, !RedbOps E}.
Context `{FileLaws F, !CompioOps F, !OpenOps D F, !OpenLaws D F, ChunkSourceLaws K}.

(** Whatever connections come in and however each of them ends, the accept
    loop goes on until its shutdown, the stores keep their chunks, the table only
    ever holds pack stores, and nothing else of the process changes. *)
Theorem accept_loop_invariant ms (c : ControlService E) events (s s' : DataState D F (ControlService E) K) r :
  conn_inv ms c s → accept_loop true events s = (s', r) → conn_inv ms c s' ∧ r = Ok ().
Proof.
  revert s. induction events as [|[|[request|] ready] events IH]; intros s Hs Hr.
  - by injection Hr as <- <-.
  - by injection Hr as <- <-.
  - cbn [accept_loop] in Hr. unfold modify, ignore, mbind, M_bind in Hr.
    apply IH in Hr; [done|]. apply handle_conn_inv. exact Hs.
  - by apply IH in Hr.
Qed.
End accept.

(** ** Examples: an agent, its probe, its restart *)

#[local] Existing Instance sched_json.
#[local] Existing Instance sched_json_laws.

#[local] Instance svc_host : Host := {|
  host_relay_url u := Ok u; host_endpoint port _ _ := Ok (Some port, "endpoint-1"%string);
  host_tcp _ := Ok (); host_udp := Ok (); host_make_dir _ := Ok ()
|}.
#[local] Instance svc_parse : NetParse := {| parse_socket := Some; parse_endpoint := Ok |}.

Definition svc_config : AgentConfig :=
  agent_defaults (mkAgentToml Idc "data" None None None None None None None None None
    (Some 42002) None (Some "10.0.0.1"%string) None (Some "http://scheduler"%string)).
Definition svc_sched : ControlService MemDb := ControlService_new mem_sched.
Definition svc_start (now : N) (c : ControlService MemDb) :=
  agent_start (ControlRpc0:=scheduler_rpc (λ st, [st_message st]) now)
    (λ _ _, bail "no echo service") id svc_config c.
Definition svc_sched1 : ControlService MemDb := Eval vm_compute in (svc_start 100 svc_sched).1.

Lemma svc_started : is_ok (svc_start 100 svc_sched).2 ∧ (svc_start 100 svc_sched).1 = svc_sched1.
Proof. split; vm_compute; reflexivity. Qed.

Lemma agent_start_spec_witness :
  ∃ handle token, svc_start 100 svc_sched = (svc_sched1, Ok handle) ∧ ah_node_id handle = Some 1 ∧
    nodes (cs_store svc_sched1) !! 1 = Some (mkNode 1 "idc" "endpoint-1" token
      [mkAddr "10.0.0.1" "config" ""; mkAddr "10.0.0.1:42002" "keepalive" ""] "online" 100).
Proof.
  destruct svc_started as [Hok Hst]. destruct (svc_start 100 svc_sched) as [c' r] eqn:Hs.
  cbn [fst snd] in Hok, Hst. subst c'. destruct r as [handle|]; [|destruct Hok]. unfold svc_start in Hs.
  destruct (agent_start_spec (λ st, [st_message st]) (λ _ _, bail "no echo service") id 100 svc_config
    svc_sched svc_sched1 (Ok handle) Hs) as (_ & Hspec).
  destruct (Hspec handle eq_refl) as (ext & dp & He & Hd & _ & Hrest).
  injection He as <-. injection Hd as <-.
  destruct Hrest as (id & token & Hid & Hcount & Hn & _).
  assert (id = 1) as -> by (rewrite Hcount; vm_compute; reflexivity).
  exists handle, token. split; [reflexivity|]. split; [exact Hid|].
  rewrite Hn. refine (eq_trans (lookup_insert_eq _ _ _) _). reflexivity.
Defined.

(** The scheduler probes the agent of the example in every turn of a second. *)
Definition svc_tick : Keepalive.Tick := mkTick 0 100 (λ _, 0) (λ _, 0) [build_pong 1].
Definition svc_run : RunState string MemDb := run_init (cs_store svc_sched1).

Lemma svc_sched1_ok : db_ok (cs_store svc_sched1).
Proof.
  destruct (insert_node_total (next_node_id mem_sched).1 (mkNode 1 "idc" "endpoint-1" "100-1"
    [mkAddr "10.0.0.1" "config" ""; mkAddr "10.0.0.1:42002" "keepalive" ""] "online" 100)) as (d & Hi & Hd & _).
  - split; [done| |].
    + vm_compute. right. left.
    + intros i v Hi. vm_compute in Hi. discriminate Hi.
  - assert (cs_store svc_sched1 = d) as ->; [|done].
    apply (f_equal fst) in Hi. cbn [fst] in Hi. rewrite <- Hi. vm_compute. reflexivity.
Qed.


(** The agent is started again; its first record stays. *)
Lemma agent_restart_forgets_witness :
  ∃ handle, (svc_start 200 svc_sched1).2 = Ok handle ∧ ah_tasks handle = [] ∧
    nodes (cs_store (svc_start 200 svc_sched1).1) !! 1 = nodes (cs_store svc_sched1) !! 1.
Proof.
  assert (is_ok (svc_start 200 svc_sched1).2) as Hok by (vm_compute; exact I).
  assert (nodes (cs_store svc_sched1) = {[1 := mkNode 1 "idc" "endpoint-1" "100-1"
      [mkAddr "10.0.0.1" "config" ""; mkAddr "10.0.0.1:42002" "keepalive" ""] "online" 100]} ∧
    tasks (cs_store svc_sched1) = ∅ ∧ counter_of (cs_store svc_sched1) NEXT_NODE_ID = 1) as (Hn & Ht & Hc)
    by (split_and!; vm_compute; reflexivity).
  destruct (svc_start 200 svc_sched1) as [c' r] eqn:Hs. cbn [fst snd] in *.
  destruct r as [handle|]; [|destruct Hok]. unfold svc_start in Hs.
  destruct (agent_restart_forgets (λ st, [st_message st]) (λ _ _, bail "no echo service") id 200 svc_config
    svc_sched1 c' handle) as (Htasks & _ & _ & _ & Hsame).
  - split.
    + intros i. rewrite Hn, Hc. intros [x [<- _]%lookup_singleton_Some]. done.
    + intros t task. rewrite Ht. by rewrite lookup_empty.
  - rewrite Hc. reflexivity.
  - eexists. reflexivity.
  - exact Hs.
  - exists handle. split; [reflexivity|]. split; [exact Htasks|]. apply Hsame. rewrite Hn. eexists.
    apply lookup_singleton_eq.
Defined.

(** A backup of an empty database, in a JSON of the examples. *)
#[local] Instance Snapshot_eq_dec : EqDecision Snapshot.
Proof. solve_decision. Defined.
#[local] Instance Snapshot_countable : Countable Snapshot.
Proof.
  refine (inj_countable' (λ s, (sn_nodes s, sn_tasks s, sn_users s, sn_places s, sn_groups s, sn_bindings s,
    sn_games s, sn_versions s, sn_chunks s, sn_heat s, sn_counters s, sn_audits s))
    (λ '(a, b, c, d, e, f, g, h, i, j, k, l), mkSnapshot a b c d e f g h i j k l) _).
  by intros [].
Defined.
#[local] Instance snapshot_json : JsonOps Snapshot := countable_json.
#[local] Instance snapshot_json_laws : JsonLaws Snapshot := countable_json_laws.

Definition svc_sched_config : SchedConfig :=
  sched_defaults (mkSchedToml "data" None None None None None None None None None (Some "backup"%string) None).

Lemma backup_spec_witness :
  ∃ path, backed_up (λ _ _, Ok ()) "backup" 7 mem_sched path ∧
    start_backup (λ _ _, Ok ()) svc_sched_config 7 mem_sched = Ok [BackupLoop "backup" 86400].
Proof.
  assert (match start_backup (λ _ _, Ok ()) svc_sched_config 7 mem_sched with
    | Ok services => services = [BackupLoop "backup" 86400] | Err _ => False end) as Hok by (vm_compute; reflexivity).
  destruct (start_backup (λ _ _, Ok ()) svc_sched_config 7 mem_sched) as [services|] eqn:Hs; [|destruct Hok].
  destruct (backup_spec (λ _ _, Ok ()) svc_sched_config 7 mem_sched services "backup"
    [BackupDue 100 mem_sched] eq_refl Hs) as (_ & (path & Hp) & _).
  exists path. split; [exact Hp|]. rewrite Hok. reflexivity.
Defined.

(** A block of two days is gone after a turn, one of an hour stays. *)
Definition svc_temp : gmap N (GameDir MemFile) :=
  {[ 7 := mkGameDir ∅ {[ "a.blk"%string := mkDirFile (FileIO.mkFile [] 3) 0;
                        "b.blk"%string := mkDirFile (FileIO.mkFile [] 3) 169200 ]} ∅ 0 ]}.

Lemma cleaner_safe_witness :
  let t := run_cleaner 24 [CleanerDue 172800; CleanerShutdown] svc_temp in
  t.2 = Ok () ∧ all_cleaned 86400 [172800] svc_temp t.1 ∧
  (gd_temp <$> t.1 !! 7) = Some {[ "b.blk"%string := mkDirFile (FileIO.mkFile [] 3) 169200 ]}.
Proof.
  cbv zeta. assert ((gd_temp <$> (run_cleaner 24 [CleanerDue 172800; CleanerShutdown] svc_temp).1 !! 7) =
    Some {[ "b.blk"%string := mkDirFile (FileIO.mkFile [] 3) 169200 ]}) as Hv by (vm_compute; reflexivity).
  destruct (run_cleaner 24 [CleanerDue 172800; CleanerShutdown] svc_temp) as [root' r] eqn:Hr.
  destruct (cleaner_safe 24 [CleanerDue 172800; CleanerShutdown] svc_temp root' r Hr) as [-> Hc].
  split; [reflexivity|]. split; [exact Hc|exact Hv].
Defined.

(** A reply that cannot be sent ends the echo service for everybody. *)
Example echo_stops : echo_loop
  [EchoRecv (Ok "10.0.0.9:0"%string) (bail "Invalid argument"); EchoRecv (Ok "10.0.0.1:5"%string) (Ok ())] =
  ([], Err ["Invalid argument"%string]).
Proof. reflexivity. Qed.

(** The timeout of the keepalive wraps at 64 bits. *)
Example timeout_wraps : as_u64 (18446744073709552 * 1000) = 384.
Proof. reflexivity. Qed.

#[local] Existing Instance Map_source.
#[local] Existing Instance Map_source_laws.

Definition svc_incoming : list incoming :=
  [Incoming (Some (request 7 [up_hash])) true; Incoming None false; Incoming (Some []) true].

Lemma accept_loop_invariant_witness :
  ∃ s', accept_loop true svc_incoming (dp_state []) = (s', Ok ()) ∧ origin_ok (ds_origin s') up_ms.
Proof.
  assert (conn_inv up_ms (or_sched origin1) (dp_state [])) as Hc.
  { split; [exact origin1_ok|]. split; [reflexivity|]. intros g e Hg. unfold dp_state in Hg. cbn [ds_nodes] in Hg. by rewrite lookup_empty in Hg. }
  destruct (accept_loop true svc_incoming (dp_state [])) as [s' r] eqn:Hr.
  destruct (accept_loop_invariant up_ms (or_sched origin1) svc_incoming (dp_state []) s' r Hc Hr) as [Hs ->].
  exists s'. split; [reflexivity|]. exact (proj1 Hs).
Defined.
