(* ===== verification/Executor.v ===== *)
(** * Executor: running one task on an agent (crates/agent/src/executor.rs)

    Fetching a manifest, working out what is missing, the multi-source download,
    storing or merging, and reporting.  The state is the world behind the control
    plane's stub and the part of the node a task works on; the transfers of a
    round run concurrently, chunk by chunk, in any order. *)

From S2P Require Import Prelude Bytes Text FileIO Redb Manifest.
From S2P Require Import UpdatePlan Storage SchedControl DataPath CafeStore Merge.
From S2P Require Import Configs AgentControl.

Definition IDC_BATCH_SIZE : N := 64.

(** ** Grouping the missing chunks by source *)

Definition first_byte (hash : hash32) : N := default 0 (byte_val <$> head (hash_bytes hash)).

(** [candidates[hash[0] as usize % candidates.len()]] of a non-empty list *)
Definition pick_by_hash {A} (hash : hash32) (l : list A) : option A :=
  l !! N.to_nat (first_byte hash mod lenN l).

Record Grouping := mkGrouping {
  gr_groups : list (PeerTarget * list hash32);
  gr_index : gmap string nat;
  gr_unresolved : list hash32
}.

Definition group_key (target : PeerTarget) : string :=
  (pt_endpoint_id target ++ "|" ++ default "" (pt_addr target) ++ "|" ++
   (if pt_direct_only target then "true" else "false"))%string.

Definition add_to_group (target : PeerTarget) (hash : hash32) (g : Grouping) : Grouping :=
  let key := group_key target in
  match gr_index g !! key with
  | Some idx =>
    mkGrouping (alter (λ e : PeerTarget * list hash32, (e.1, e.2 ++ [hash])) idx (gr_groups g))
      (gr_index g) (gr_unresolved g)
  | None =>
    mkGrouping (gr_groups g ++ [(target, [hash])])
      (<[key := length (gr_groups g)]> (gr_index g)) (gr_unresolved g)
  end.

Definition add_unresolved (hash : hash32) (g : Grouping) : Grouping :=
  mkGrouping (gr_groups g) (gr_index g) (gr_unresolved g ++ [hash]).

Section source.
Context `{!NetParse}.

Definition candidate (exclude : gset string) (p : Peer) : bool :=
  negb (bool_decide (pe_addrs p = [])) && negb (bool_decide (pe_endpoint_id p ∈ exclude)) &&
  is_ok (parse_endpoint (pe_endpoint_id p)).

Definition target_of (relay_url : option string) (hash : hash32) (peer : Peer) :
    result error PeerTarget :=
  let addr := a ← pick_by_hash hash (pe_addrs peer); parse_socket (pa_addr a) in
  id ← with_context "候选端点 ID 非法" (parse_endpoint (pe_endpoint_id peer));
  mret (mkTarget id addr relay_url (pe_direct_only peer)).

Definition choose_ep (target : PeerTarget) : result error () :=
  match pt_addr target with
  | Some _ => mret ()
  | None => bail "源无直连地址，无法传输数据（relay 只打洞不传数据）"
  end.

Context {W : Type} `{!ControlRpc W}.

Definition group_hash (relay_url : option string) (game_id : N) (exclude : gset string)
    (hash : hash32) (g : Grouping) : M W error Grouping :=
  peers ← rpc_query_peers (mkQuery game_id (hash_bytes hash) 5);
  match pick_by_hash hash (filter (λ p, candidate exclude p = true) peers) with
  | None => mret (add_unresolved hash g)
  | Some peer =>
    target ← lift (target_of relay_url hash peer);
    mret (add_to_group target hash g)
  end.

Fixpoint group_hashes (relay_url : option string) (game_id : N) (exclude : gset string)
    (hashes : list hash32) (g : Grouping) : M W error Grouping :=
  match hashes with
  | [] => mret g
  | hash :: hashes =>
    g ← group_hash relay_url game_id exclude hash g;
    group_hashes relay_url game_id exclude hashes g
  end.
End source.

(** ** The transfers of one round *)

(** A spawned transfer: the request, what is still to be received, and the bytes
    that still arrive; or its result. *)
Inductive Progress :=
| Running (rest : list hash32) (stats : FetchStats) (reply : list byte)
| Finished (r : result error FetchStats).
Record Transfer := mkTransfer { tf_key : string; tf_hashes : list hash32; tf_progress : Progress }.
Definition Joined : Type := string * list hash32 * result error FetchStats.

Section transfers.
Context (blake3 : list byte → hash32).
Context `{!Dial} {S : Type} (sink : hash32 → list byte → M S error ()).

(** The sink of a transfer also records the hash, [downloaded.push(hash)]. *)
Definition recording (hash : hash32) (data : list byte) : M (S * list hash32) error () :=
  zoom fst (λ s t, (s, t.2)) (sink hash data);;
  modify (λ t, (t.1, t.2 ++ [hash])).

(** [tasks.spawn]: connecting and sending the request. *)
Definition spawn (exchange : PeerTarget → list byte → result error (list byte)) (game_id : N)
    (group : PeerTarget * list hash32) : Transfer :=
  let '(target, hashes) := group in
  mkTransfer (pt_endpoint_id target) hashes
    (if bool_decide (hashes = []) then Finished (Ok stats0) else
     match (connect_peer target;; exchange target (request game_id hashes)) with
     | Ok reply => Running hashes stats0 reply
     | Err e => Finished (Err e)
     end).

(** One turn of a transfer: one chunk. *)
Definition transfer_turn (p : Progress) : M (S * list hash32) error Progress := λ t,
  match p with
  | Finished r => (t, Ok p)
  | Running [] stats _ => (t, Ok (Finished (Ok stats)))
  | Running (hash :: rest) stats reply =>
    match fetch_loop blake3 recording [hash] stats (reply, t) with
    | ((reply, t), Ok stats) => (t, Ok (Running rest stats reply))
    | ((_, t), Err e) => (t, Ok (Finished (Err e)))
    end
  end.

(** [join_next] until the set is empty: in turn [n], transfer [pick n] goes on
    by one chunk, or is joined when it has finished. *)
Fixpoint run_transfers (pick : nat → nat) (fuel n : nat) (ts : list Transfer) (joined : list Joined) :
    M (S * list hash32) error (list Joined) :=
  match fuel with
  | O => mret joined
  | Datatypes.S fuel =>
    let i := (pick n mod length ts)%nat in
    match ts !! i with
    | None => mret joined
    | Some t =>
      match tf_progress t with
      | Finished r =>
        run_transfers pick fuel (Datatypes.S n) (delete i ts) (joined ++ [(tf_key t, tf_hashes t, r)])
      | p =>
        p ← transfer_turn p;
        run_transfers pick fuel (Datatypes.S n)
          (<[i := mkTransfer (tf_key t) (tf_hashes t) p]> ts) joined
      end
    end
  end.

(** The turns a transfer needs: one per chunk, one to finish, one to be joined. *)
Definition turns (ts : list Transfer) : nat :=
  sum_list_with (λ t, length (tf_hashes t) + 2)%nat ts.

(** The loop that spawns: the transfers up to the first target without a direct
    address, and the error if there is one. *)
Fixpoint spawn_all (exchange : PeerTarget → list byte → result error (list byte)) (game_id : N)
    (groups : list (PeerTarget * list hash32)) : list Transfer * option error :=
  match groups with
  | [] => ([], None)
  | group :: groups =>
    match choose_ep group.1 with
    | Err e => ([], Some e)
    | Ok _ => let r := spawn_all exchange game_id groups in (spawn exchange game_id group :: r.1, r.2)
    end
  end.
End transfers.

(** The loop over the joined results: what is still missing, whom to avoid, and
    the bytes so far. *)
Record Round := mkRound { rd_unresolved : list hash32; rd_exclude : gset string; rd_bytes : N }.

(** [throttle]: the count; the sleep is not modelled. *)
Definition throttle (rate : option N) (total_bytes bytes : N) : N :=
  match rate with Some _ => add_u64 total_bytes bytes | None => total_bytes end.

Definition join_step (rate : option N) (rd : Round) (j : Joined) : Round :=
  let '(key, hashes, r) := j in
  match r with
  | Ok stats => mkRound (rd_unresolved rd ++ fs_failed stats) (rd_exclude rd)
                  (throttle rate (rd_bytes rd) (fs_bytes stats))
  | Err _ => mkRound (rd_unresolved rd ++ hashes) ({[key]} ∪ rd_exclude rd) (rd_bytes rd)
  end.

(** ** download_missing *)

(** The network and the scheduler of tasks: binding a local endpoint; what a peer
    answers in a round (round 2 is the origin); which transfer is next in a turn
    of a round; how far the transfers of a round got that is given up. *)
Record NetEnv := mkNet {
  ne_bind : result error ();
  ne_exchange : nat → PeerTarget → list byte → result error (list byte);
  ne_pick : nat → nat → nat;
  ne_aborted : nat → nat
}.

Section download.
Context (blake3 : list byte → hash32).
Context `{!NetParse, !Dial} {W : Type} `{!ControlRpc W}.
Context (config : AgentConfig) (env : NetEnv).

Definition origin_target : result error (option PeerTarget) :=
  match ac_origin_endpoint config, ac_origin_addr config with
  | Some endpoint, Some addr =>
    id ← with_context "原始节点端点 ID 非法" (parse_endpoint endpoint);
    a ← with_context "原始节点地址非法" (ok_or ["invalid socket address syntax"%string] (parse_socket addr));
    mret (Some (mkTarget id (Some a) (ac_relay_url config) false))
  | _, _ => mret None
  end.

Section sink.
Context {S : Type} (sink : hash32 → list byte → M S error ()).
Abbreviation dlM := (M (W * (S * list hash32)) error).
Definition on_world {A T} (m : M W error A) : M (W * T) error A := zoom fst (λ w s, (w, s.2)) m.
Definition on_sink {A T} (m : M T error A) : M (W * T) error A := zoom snd (λ t s, (s.1, t)) m.

(** One of the two rounds; [inr] leaves the loop. *)
Definition round (k : nat) (game_id : N) (rd : Round) : dlM (Round + Round) :=
  if bool_decide (rd_unresolved rd = []) then mret (inr rd) else
  g ← on_world (group_hashes (ac_relay_url config) game_id (rd_exclude rd) (rd_unresolved rd)
                  (mkGrouping [] ∅ []));
  if bool_decide (gr_groups g = []) then
    mret (inr (mkRound (gr_unresolved g) (rd_exclude rd) (rd_bytes rd))) else
  let '(ts, failed) := spawn_all (ne_exchange env k) game_id (gr_groups g) in
  match failed with
  | Some e =>
    on_sink (run_transfers blake3 sink (ne_pick env k) (ne_aborted env k) 0 ts []);;
    throw e
  | None =>
    joined ← on_sink (run_transfers blake3 sink (ne_pick env k) (turns ts) 0 ts []);
    mret (inl (foldl (join_step (ac_download_mbps config))
                 (mkRound (gr_unresolved g) (rd_exclude rd) (rd_bytes rd)) joined))
  end.

(** [for _round in 0..2] *)
Definition rounds (game_id : N) (missing : list hash32) : dlM Round :=
  r1 ← round 0 game_id (mkRound missing ∅ 0);
  match r1 with
  | inr rd => mret rd
  | inl rd =>
    r2 ← round 1 game_id rd;
    mret (match r2 with inl rd | inr rd => rd end)
  end.

Definition no_source (game_id n : N) : error :=
  [("块无候选源且未配置原始节点: 游戏 " ++ dec game_id ++ " 缺 " ++ dec n ++ " 块")%string].
Definition wait_for_others (game_id n : N) : error :=
  [("等待其他节点完成责任分片后重试: 游戏 " ++ dec game_id ++ " 缺 " ++ dec n ++ " 块")%string].

(** [dedup]: of equal neighbours the first stays. *)
Fixpoint dedup (l : list hash32) : list hash32 :=
  match l with
  | h :: (h' :: _) as l' => if decide (h = h') then dedup l' else h :: dedup l'
  | l => l
  end.

(** What is left goes to the origin, if all of it is this node's share. *)
Definition from_origin (origin : option PeerTarget) (game_id : N) (retry : list hash32) :
    dlM () :=
  if bool_decide (retry = []) then mret () else
  match origin with
  | None => throw (no_source game_id (lenN retry))
  | Some target =>
    stats ← on_sink (fetch_chunks blake3 (recording sink) (ne_exchange env 2 target) target game_id
                       (dedup (sort_hashes retry)));
    if bool_decide (fs_failed stats = []) then mret ()
    else throw [("仍有 " ++ dec (lenN (fs_failed stats)) ++ " 块下载失败")%string]
  end.

Definition download_missing (game_id : N) (missing : list hash32) (assigned : gset hash32) :
    M (W * S) error (list hash32) :=
  if bool_decide (missing = []) then mret [] else
  origin ← lift origin_target;
  lift (ne_bind env);;
  zoom (λ s, (s.1, (s.2, []))) (λ t _, (t.1, t.2.1))
    (rd ← rounds game_id missing;
     let retry := filter (.∈ assigned) (rd_unresolved rd) in
     let blocked := filter (.∉ assigned) (rd_unresolved rd) in
     if negb (bool_decide (blocked = [])) then
       throw (match origin with
              | None => no_source game_id (lenN blocked)
              | Some _ => wait_for_others game_id (lenN blocked)
              end)
     else
       from_origin origin game_id retry;;
       s ← get;
       mret s.2.2).
End sink.
End download.

(** ** The node a task runs on *)

(** How a task ends early: an error, or a panic that kills its thread. *)
Inductive Stop := Failed (e : error) | Panicked.

(** The world behind the stub, what the data directory held per game, the opened
    pack stores; the directories of the games of a cafe, the chunk map of each
    opened cafe store, and the games the data plane serves from one. *)
Record Node (W D F : Type) := mkNode {
  no_world : W;
  no_disk : gmap N (option D * option F);
  no_packs : gmap N (GameStore D F);
  no_dirs : gmap N (GameDir F);
  no_cafes : gmap N (option ChunkMap);
  no_data : gset N
}.
Arguments mkNode {W D F}. Arguments no_world {W D F}. Arguments no_disk {W D F}.
Arguments no_packs {W D F}. Arguments no_dirs {W D F}. Arguments no_cafes {W D F}.
Arguments no_data {W D F}.

Section executor.
Context (blake3 : list byte → hash32).
Context `{!NetParse, !Dial, !MapIter, !SetIter} {W D F : Type} `{!ControlRpc W}.
Context `{!RedbOps D, !FileOps F, !CompioOps F, !OpenOps D F, !DirOps F}.
Context (config : AgentConfig) (node_id : N) (env : NetEnv).
Abbreviation node := (Node W D F).
Abbreviation nodeM := (M node Stop).

Definition set_world (w : W) (n : node) : node :=
  mkNode w (no_disk n) (no_packs n) (no_dirs n) (no_cafes n) (no_data n).
Definition set_pack_store (g : N) (s : GameStore D F) (n : node) : node :=
  mkNode (no_world n) (no_disk n) (<[g := s]> (no_packs n)) (no_dirs n) (no_cafes n) (no_data n).
Definition set_dir (g : N) (d : GameDir F) (n : node) : node :=
  mkNode (no_world n) (no_disk n) (no_packs n) (<[g := d]> (no_dirs n)) (no_cafes n) (no_data n).
Definition set_cafe (g : N) (c : option ChunkMap) (n : node) : node :=
  mkNode (no_world n) (no_disk n) (no_packs n) (no_dirs n) (<[g := c]> (no_cafes n)) (no_data n).
Definition serve_cafe (g : N) (n : node) : node :=
  mkNode (no_world n) (no_disk n) (no_packs n) (no_dirs n) (no_cafes n) ({[g]} ∪ no_data n).

Definition fallible {S A} (m : M S error A) : M S Stop A := map_err_m Failed m.
Definition with_world {A} (m : M W error A) : nodeM A := zoom no_world set_world (fallible m).

(** [report_chunks] *)
Fixpoint report_chunks (game_id : N) (hashes : list hash32) : M W error () :=
  match hashes with
  | [] => mret ()
  | hash :: hashes =>
    context_m "上报块完成失败" (rpc_report_chunk (mkDone node_id game_id (hash_bytes hash)));;
    report_chunks game_id hashes
  end.

(** The chunks of the manifest, sorted: what is reported as held. *)
Definition held (index : GameIndex) : list hash32 := sort_hashes (set_iter (chunk_set index)).

(** *** IDC *)

Abbreviation Pending := (list (hash32 * list byte)).

Definition flush_pending : M (GameStore D F * Pending) error () :=
  s ← get;
  let batch := s.2 in
  modify (λ s, (s.1, []));;
  if bool_decide (batch = []) then mret () else
  zoom fst (λ g s, (g, s.2)) (append_chunks_batch batch);;
  mret ().

Definition idc_sink (hash : hash32) (data : list byte) : M (GameStore D F * Pending) error () :=
  modify (λ s, (s.1, s.2 ++ [(hash, data)]));;
  s ← get;
  if IDC_BATCH_SIZE <=? lenN s.2 then flush_pending else mret ().

(** The loop over [chunk_set], in any order. *)
Fixpoint idc_missing (store : GameStore D F) (hashes : list hash32) : result error (list hash32) :=
  match hashes with
  | [] => Ok []
  | hash :: hashes =>
    found ← GameStore_contains store hash;
    rest ← idc_missing store hashes;
    mret (if (found : bool) then rest else hash :: rest)
  end.

Definition idc_store (game_id : N) : nodeM (GameStore D F) :=
  n ← get;
  match no_packs n !! game_id with
  | Some s => mret s
  | None =>
    s ← lift (map_err Failed (Storage.open (default (None, None) (no_disk n !! game_id)) game_id));
    modify (set_pack_store game_id s);;
    mret s
  end.

(** Download and flush, on the world, the store and the pending batch. *)
Definition idc_download (game_id : N) (missing : list hash32) (assigned : gset hash32) :
    M (W * (GameStore D F * Pending)) error () :=
  download_missing blake3 config env idc_sink game_id missing assigned;;
  zoom snd (λ t s, (s.1, t)) flush_pending.

Definition run_idc (task : Task) (index : GameIndex) : nodeM () :=
  let game_id := pt_game_id task in
  store ← idc_store game_id;
  missing ← lift (map_err Failed (idc_missing store (set_iter (chunk_set index))));
  let assigned := list_to_set (omap hash_of (pt_assigned_chunks task)) in
  zoom (λ n, (no_world n, (store, [])))
    (λ t n, set_world t.1 (set_pack_store game_id t.2.1 n))
    (fallible (idc_download game_id (sort_hashes missing) assigned));;
  with_world (report_chunks game_id (held index)).

(** *** Cafe *)

(** The block is written with the time of the write. *)
Definition cafe_sink (now : N) (hash : hash32) (data : list byte) : M (GameDir F) error () := λ d,
  let name := block_name hash in
  match fs_write_file (df_file <$> gd_temp d !! name) data with
  | (new, r) =>
    (set_temp (partial_alter (λ _, (λ f, mkDirFile f now) <$> new) name (gd_temp d)) d,
     with_context "写入临时块失败" r)
  end.

(** The chunks of the files that are not there. *)
Definition repair_chunks (d : GameDir F) (index : GameIndex) : gset hash32 :=
  list_to_set (flat_map (λ f, map ck_hash (fe_chunks f))
    (filter (λ f, gd_files d !! fe_name f = None) (gi_files index))).

Definition cafe_to_download (d : GameDir F) (index : GameIndex) (plan : UpdatePlan) : list hash32 :=
  dedup (sort_hashes (chunks_to_download plan ++ set_iter (repair_chunks d index))).

Definition dir_of (game_id : N) (n : node) : GameDir F :=
  default (mkGameDir ∅ ∅ ∅ 0) (no_dirs n !! game_id).
Definition on_game_dir {A} (game_id : N) (m : M (GameDir F) error A) : nodeM A :=
  zoom (dir_of game_id) (set_dir game_id) (fallible m).
Definition on_cafe {A} (game_id : N) (m : M (CafeStore F) error A) : nodeM A :=
  zoom (λ n, mkCafe (dir_of game_id n) (default None (no_cafes n !! game_id)))
    (λ c n, set_cafe game_id (cf_current c) (set_dir game_id (cf_dir c) n)) (fallible m).

Definition temp_path (game_id : N) : string :=
  (ac_data_dir config ++ "/.blazenet/temp/" ++ dec game_id)%string.

(** The cafe store of the game, opened on first use; a store that does not open
    is not kept. *)
Definition cafe_store_entry (game_id : N) : nodeM () :=
  n ← get;
  match no_cafes n !! game_id with
  | Some _ => mret ()
  | None => λ n,
    match CafeStore.open blake3 (mkCafe (dir_of game_id n) None) with
    | (c, Ok _) => (set_cafe game_id (cf_current c) (set_dir game_id (cf_dir c) n), Ok ())
    | (c, Err e) => (set_dir game_id (cf_dir c) n, Err (Failed e))
    end
  end.

Definition decode_old (old_bytes : option (list byte)) : result error (option GameIndex) :=
  match old_bytes with
  | None => mret None
  | Some bs => i ← with_context "解析旧版本清单失败" (Manifest.decode blake3 bs); mret (Some i)
  end.

(** The hashes of the temporary blocks; reading the directory may fail. *)
Definition temp_hashes (readable : result error ()) (game_id : N) : nodeM (gset hash32) := λ n,
  match collect_temp_hashes readable (dir_of game_id n) with
  | None => (n, Err Panicked)
  | Some r => (n, map_err Failed r)
  end.

Definition join_strings (sep : string) (l : list string) : string := String.concat sep l.

(** Up to the download; the result is the old manifest. *)
Definition cafe_prepare (readable : result error ()) (now : N) (game_id : N) (index : GameIndex) :
    nodeM (option GameIndex) :=
  on_game_dir game_id (dir_call ("创建临时块目录失败: " ++ temp_path game_id) id);;
  cafe_store_entry game_id;;
  modify (serve_cafe game_id);;
  n ← get;
  old_bytes ← lift (map_err Failed (current_manifest_bytes (dir_of game_id n)));
  old ← lift (map_err Failed (decode_old old_bytes));
  temp ← temp_hashes readable game_id;
  n ← get;
  let plan := compute index old temp in
  let missing := cafe_to_download (dir_of game_id n) index plan in
  zoom (λ n, (no_world n, dir_of game_id n)) (λ t n, set_world t.1 (set_dir game_id t.2 n))
    (fallible (download_missing blake3 config env (cafe_sink now) game_id missing ∅));;
  mret old.

(** Merging, making the manifest current, reporting. *)
Definition cafe_finish (game_id version : N) (index : GameIndex) (manifest : list byte)
    (old : option GameIndex) : nodeM () :=
  merge ← on_game_dir game_id (merge_files blake3 index old);
  if negb (bool_decide (ms_failed merge = [])) then
    throw (Failed [("合并失败: " ++ join_strings "; " (ms_failed merge))%string]) else
  on_cafe game_id (save_manifest blake3 version manifest);;
  with_world (report_chunks game_id (held index)).

Definition run_cafe (readable : result error ()) (now : N) (task : Task) (index : GameIndex)
    (manifest : list byte) : nodeM () :=
  let game_id := pt_game_id task in
  old ← cafe_prepare readable now game_id index;
  cafe_finish game_id (pt_version task) index manifest old.

(** *** run_task *)

Definition no_version (game_id version : N) : error :=
  [("版本清单不存在: 游戏 " ++ dec game_id ++ " 版本 " ++ dec version)%string].

Definition run_node (readable : result error ()) (now : N) (task : Task) (index : GameIndex)
    (manifest : list byte) : nodeM () :=
  match ac_node_type config with
  | Idc => run_idc task index
  | Cafe => run_cafe readable now task index manifest
  end.

(** Run, then report how it went; a panic reports nothing. *)
Definition run_and_report (readable : result error ()) (now : N) (task : Task) (index : GameIndex)
    (manifest : list byte) : nodeM () := λ n,
  match run_node readable now task index manifest n with
  | (n, Ok _) => with_world (control_report_task node_id (pt_id task) "done" "") n
  | (n, Err (Failed err)) =>
    let msg := err_display_chain err in
    ((with_world (control_report_task node_id (pt_id task) "failed" msg) n).1, Err (Failed [msg]))
  | (n, Err Panicked) => (n, Err Panicked)
  end.

Definition run_task (readable : result error ()) (now : N) (task : Task) : nodeM () :=
  match ac_control_addr config with
  | None => throw (Failed ["未配置控制面地址，无法执行任务"%string])
  | Some addr =>
    with_world (connect addr);;
    with_world (control_report_task node_id (pt_id task) "running" "");;
    found ← with_world (control_version (pt_game_id task) (pt_version task));
    manifest ← lift (ok_or (Failed (no_version (pt_game_id task) (pt_version task))) found);
    index ← lift (map_err Failed (with_context "解析版本清单失败" (Manifest.decode blake3 manifest)));
    run_and_report readable now task index manifest
  end.

End executor.
