(* ===== verification/ExecutorSpec.v ===== *)
(** * ExecutorSpec: what the multi-source download guarantees

    The multi-source download is described by the calls it makes to its sink:
    whatever peers answer and however the transfers interleave, only verified
    chunks that were asked for reach the sink, and when the download returns every
    missing chunk has reached it.  What an IDC holds and a cafe has on disk when a
    task is reported as done is in ExecutorTasks. *)

From S2P Require Import Prelude Bytes Text FileIO Redb Manifest.
From S2P Require Import UpdatePlan Storage StorageSpec StorageBatch SchedControl DataPath.
From S2P Require Import DataPathSpec CafeStore CafeSpec Merge MergeSpec MergeLive.
From S2P Require Import Configs AgentControl Executor.

(** ** Grouping *)

Section grouping.
Context `{!NetParse} {W : Type} `{!ControlRpc W}.

Definition grouped (g : Grouping) : list hash32 := concat (gr_groups g).*2.

(** The index points at groups, and no group is empty. *)
Definition grouping_ok (g : Grouping) : Prop :=
  (∀ key idx, gr_index g !! key = Some idx → (idx < length (gr_groups g))%nat) ∧
  Forall (λ e : PeerTarget * list hash32, e.2 ≠ []) (gr_groups g).

Lemma concat_alter_snoc (l : list (PeerTarget * list hash32)) i hash :
  (i < length l)%nat →
  concat (alter (λ e : PeerTarget * list hash32, (e.1, e.2 ++ [hash])) i l).*2 ≡ₚ hash :: concat l.*2.
Proof.
  revert i. induction l as [|e l IH]; intros [|i] Hi; cbn in *; [lia..| |].
  - rewrite <- app_assoc. cbn. by rewrite <- Permutation_middle.
  - rewrite (IH i) by lia. by rewrite <- Permutation_middle.
Qed.

Lemma add_to_group_ok target hash g :
  grouping_ok g → grouping_ok (add_to_group target hash g) ∧
  grouped (add_to_group target hash g) ≡ₚ hash :: grouped g ∧
  gr_unresolved (add_to_group target hash g) = gr_unresolved g.
Proof.
  intros [Hidx Hne]. unfold add_to_group, grouped.
  destruct (gr_index g !! group_key target) as [idx|] eqn:Hk; cbn [gr_groups gr_index gr_unresolved].
  - split; [split|split; [|done]].
    + intros key i Hi. cbn [gr_groups]. rewrite length_alter. by eapply Hidx.
    + cbn [gr_groups]. apply Forall_alter; [done|]. intros e _ _. cbn. by destruct e.2.
    + apply concat_alter_snoc. by eapply Hidx.
  - split; [split|split; [|done]].
    + cbn [gr_groups gr_index]. intros key i [[_ <-]|[_ Hi]]%lookup_insert_Some; rewrite length_app; cbn; [lia|].
      apply Hidx in Hi. lia.
    + cbn [gr_groups]. apply Forall_app. split; [done|]. by repeat constructor.
    + rewrite fmap_app, concat_app. cbn. rewrite Permutation_app_comm. done.
Qed.

Lemma group_hashes_ok relay_url game_id exclude hashes g (w w' : W) r :
  grouping_ok g → group_hashes relay_url game_id exclude hashes g w = (w', r) →
  ∀ g', r = Ok g' → grouping_ok g' ∧
    gr_unresolved g' ++ grouped g' ≡ₚ hashes ++ gr_unresolved g ++ grouped g.
Proof.
  revert g w. induction hashes as [|hash hashes IH]; intros g w Hg Hr g' Hg'; cbn [group_hashes] in Hr.
  { injection Hr as <- <-. injection Hg' as <-. done. }
  m_step Hr as w1 g1 e Hs.
  assert (grouping_ok g1 ∧ gr_unresolved g1 ++ grouped g1 ≡ₚ hash :: gr_unresolved g ++ grouped g)
    as [Hok Hp].
  { unfold group_hash in Hs. m_step Hs as w2 peers e Hq.
    destruct (pick_by_hash hash _) as [peer|].
    - m_step Hs as w3 target e Ht. injection Hs as <- <-.
      destruct (add_to_group_ok target hash g Hg) as (Hok & Hp & Hu). split; [done|].
      rewrite Hu, Hp. by rewrite <- Permutation_middle.
    - injection Hs as <- <-. split; [done|]. cbn. rewrite <- app_assoc. cbn.
      by rewrite <- Permutation_middle. }
  destruct (IH _ _ Hok Hr g' Hg') as [Hok' Hp']. split; [done|].
  rewrite Hp', Hp. by rewrite <- Permutation_middle.
Qed.
End grouping.

Lemma dedup_elem l h : h ∈ dedup l ↔ h ∈ l.
Proof.
  induction l as [|x [|y l] IH]; [done..|]. change (dedup (x :: y :: l)) with
    (if decide (x = y) then dedup (y :: l) else x :: dedup (y :: l)).
  case_decide; rewrite ?elem_of_cons, IH; [subst; rewrite !elem_of_cons; tauto|].
  by rewrite !elem_of_cons.
Qed.

(** ** The calls of a sink *)

Section trace.
Context (blake3 : list byte → hash32).
Context {S : Type} (sink : hash32 → list byte → M S error ()).

(** A call: the chunk, and whether the sink took it. *)
Definition call : Type := hash32 * list byte * bool.

Inductive ran : list call → S → S → Prop :=
| ran_nil s : ran [] s s
| ran_ok h d s s1 s2 tr : sink h d s = (s1, Ok ()) → ran tr s1 s2 → ran ((h, d, true) :: tr) s s2
| ran_err h d s s1 s2 e tr : sink h d s = (s1, Err e) → ran tr s1 s2 → ran ((h, d, false) :: tr) s s2.

Definition stored (tr : list call) : list hash32 :=
  omap (λ c : call, if c.2 then Some c.1.1 else None) tr.
Definition call_hash (c : call) : hash32 := c.1.1.
Definition call_ok (c : call) : Prop := blake3 c.1.2 = c.1.1.

Lemma ran_app tr1 tr2 s1 s2 s3 : ran tr1 s1 s2 → ran tr2 s2 s3 → ran (tr1 ++ tr2) s1 s3.
Proof. induction 1; intros; cbn; [done|by eapply ran_ok; eauto|by eapply ran_err; eauto]. Qed.

Lemma stored_app tr1 tr2 : stored (tr1 ++ tr2) = stored tr1 ++ stored tr2.
Proof. apply omap_app. Qed.

(** From [(s, dl)] to [(s', dl')] by verified calls for hashes in [hs]. *)
Definition steps (hs : list hash32) (t t' : S * list hash32) (tr : list call) : Prop :=
  ran tr t.1 t'.1 ∧ Forall call_ok tr ∧ map call_hash tr ⊆ hs ∧ t'.2 = t.2 ++ stored tr.

Lemma steps_refl hs t : steps hs t t [].
Proof. split; [constructor|]. split; [done|]. split; [set_solver|]. cbn. by rewrite app_nil_r. Qed.

Lemma steps_trans hs t1 t2 t3 tr1 tr2 :
  steps hs t1 t2 tr1 → steps hs t2 t3 tr2 → steps hs t1 t3 (tr1 ++ tr2).
Proof.
  intros (Hr1 & Hv1 & Hh1 & Hd1) (Hr2 & Hv2 & Hh2 & Hd2). split; [by eapply ran_app|].
  split; [by apply Forall_app|]. split; [rewrite map_app; set_solver|].
  by rewrite Hd2, Hd1, stored_app, app_assoc.
Qed.

Lemma steps_weaken hs hs' t t' tr : hs ⊆ hs' → steps hs t t' tr → steps hs' t t' tr.
Proof. intros Hsub (Hr & Hv & Hh & Hd). split; [done|]. split; [done|]. split; [set_solver|done]. Qed.

Lemma recording_ok h d t t' :
  recording sink h d t = (t', Ok ()) → blake3 d = h → steps [h] t t' [(h, d, true)].
Proof.
  intros Hr Hh. unfold recording in Hr. m_step Hr as t1 [] e Hs.
  injection Hr as <-. unfold zoom in Hs. destruct (sink _ d t.1) as [s1 [[]|e]] eqn:Hsink; [|done].
  injection Hs as <-. split; [by eapply ran_ok; [exact Hsink|constructor]|].
  split; [by constructor|]. split; [set_solver|done].
Qed.

Lemma recording_err h d t t' e :
  recording sink h d t = (t', Err e) → blake3 d = h → steps [h] t t' [(h, d, false)].
Proof.
  intros Hr Hh. unfold recording in Hr. m_step Hr as t1 [] e' Hs; [by injection Hr|].
  unfold zoom in Hs. destruct (sink _ d t.1) as [s1 [[]|e']] eqn:Hsink; [done|].
  injection Hs as <- _. split; [by eapply ran_err; [exact Hsink|constructor]|].
  split; [by constructor|]. split; [set_solver|]. cbn. by rewrite app_nil_r.
Qed.

(** The receiving loop, whatever the reply is. *)
Lemma fetch_loop_steps hs stats rs t rs' t' r :
  fetch_loop blake3 (recording sink) hs stats (rs, t) = ((rs', t'), r) →
  ∃ tr, steps hs t t' tr ∧ ∀ st, r = Ok st →
    fs_failed st ⊆ fs_failed stats ++ hs ∧ fs_failed stats ⊆ fs_failed st ∧
    ∀ h, h ∈ hs → h ∈ fs_failed st ∨ h ∈ stored tr.
Proof.
  revert stats rs t. induction hs as [|h hs IH]; intros stats rs t Hf.
  { injection Hf as <- <- <-. exists []. split; [apply steps_refl|]. intros st [= <-]. set_solver. }
  destruct (fetch_loop_turn blake3 (recording sink) h hs stats rs t) as ([rs1 t1] & r1 & Ht & Heq).
  rewrite Heq in Hf. destruct r1 as [[data|]|e].
  - inversion Ht; subst. apply IH in Hf as (tr & Hst & Hr).
    match goal with Hs : recording _ _ _ _ = (_, Ok _) |- _ =>
      pose proof (recording_ok _ _ _ _ Hs eq_refl) as H1 end.
    exists ([(blake3 data, data, true)] ++ tr). split.
    { eapply steps_trans; eapply steps_weaken; [|exact H1| |exact Hst]; set_solver. }
    intros st Hr'. destruct (Hr st Hr') as (Hsub & Hmono & Hall). cbn in Hsub, Hmono.
    split; [set_solver|]. split; [done|]. intros h' [->|Hh']%elem_of_cons; [right; left|].
    destruct (Hall h' Hh'); [by left|right; by right].
  - assert (t1 = t) as -> by (by inversion Ht). apply IH in Hf as (tr & Hst & Hr).
    exists tr. split; [eapply steps_weaken; [|exact Hst]; set_solver|].
    intros st Hr'. destruct (Hr st Hr') as (Hsub & Hmono & Hall). cbn in Hsub, Hmono.
    split; [set_solver|]. split; [set_solver|]. intros h' [->|Hh']%elem_of_cons; [left; set_solver|auto].
  - injection Hf as <- <- <-. inversion Ht; subst.
    + exists []. split; [apply steps_refl|done].
    + match goal with Hs : recording _ _ _ _ = (_, Err _) |- _ =>
        pose proof (recording_err _ _ _ _ _ Hs eq_refl) as H1 end.
      exists [(blake3 data, data, false)]. split; [|done]. eapply steps_weaken; [|exact H1]. set_solver.
Qed.

(** ** The transfers of a round *)

(** What a transfer still owes: every chunk of its request is to be received,
    failed, or stored ([dl]). *)
Definition transfer_ok (dl : list hash32) (t : Transfer) : Prop :=
  match tf_progress t with
  | Running rest stats _ => rest ⊆ tf_hashes t ∧ fs_failed stats ⊆ tf_hashes t ∧
      ∀ h, h ∈ tf_hashes t → h ∈ rest ∨ h ∈ fs_failed stats ∨ h ∈ dl
  | Finished (Ok stats) => fs_failed stats ⊆ tf_hashes t ∧
      ∀ h, h ∈ tf_hashes t → h ∈ fs_failed stats ∨ h ∈ dl
  | Finished (Err _) => True
  end.

Definition joined_ok (dl : list hash32) (j : Joined) : Prop :=
  transfer_ok dl (mkTransfer j.1.1 j.1.2 (Finished j.2)).

Lemma transfer_ok_mono dl dl' t : dl ⊆ dl' → transfer_ok dl t → transfer_ok dl' t.
Proof.
  unfold transfer_ok. intros Hsub. destruct (tf_progress t) as [rest stats reply|[stats|e]]; [..|done].
  - intros (H1 & H2 & H3). split; [done|]. split; [done|]. intros h Hh. destruct (H3 h Hh) as [?|[?|?]]; auto.
  - intros (H1 & H2). split; [done|]. intros h Hh. destruct (H2 h Hh); auto.
Qed.

(** The turns left. *)
Definition turns_left (t : Transfer) : nat :=
  match tf_progress t with
  | Running rest _ _ => length rest + 2
  | Finished _ => 1
  end.

Lemma transfer_turn_ok key hashes p t t' p' :
  transfer_turn blake3 sink p t = (t', Ok p') → transfer_ok t.2 (mkTransfer key hashes p) →
  ∃ tr, steps hashes t t' tr ∧ transfer_ok t'.2 (mkTransfer key hashes p') ∧
    ((∀ r, p ≠ Finished r) → turns_left (mkTransfer key hashes p') < turns_left (mkTransfer key hashes p))%nat.
Proof.
  unfold transfer_turn. intros Ht Hok. destruct p as [[|h rest] stats reply|r].
  - injection Ht as <- <-. exists []. split; [apply steps_refl|]. destruct Hok as (_ & H2 & H3).
    cbn in *. split; [|intros _; lia]. split; [done|]. intros h Hh. destruct (H3 h Hh) as [[]%elem_of_nil|?]; auto.
  - destruct (fetch_loop blake3 (recording sink) [h] stats (reply, t)) as [[reply1 t1] r1] eqn:Hf.
    apply fetch_loop_steps in Hf as (tr & Hst & Hr). destruct Hok as (H1 & H2 & H3). cbn in H1, H2, H3.
    assert (steps hashes t t1 tr) as Hst' by (eapply steps_weaken; [|exact Hst]; set_solver).
    destruct r1 as [st|e]; injection Ht as <- <-; exists tr; (split; [done|]); cbn; [|split; [done|lia]].
    destruct (Hr st eq_refl) as (Hsub & Hmono & Hall). split; [|intros _; lia].
    split; [set_solver|]. split; [set_solver|]. destruct Hst as (_ & _ & _ & Hdl). rewrite Hdl.
    intros h' Hh'. setoid_rewrite elem_of_app. destruct (H3 h' Hh') as [[->|?]%elem_of_cons|[?|?]]; auto.
    destruct (Hall h); [left|..]; auto.
  - injection Ht as <- <-. exists []. split; [apply steps_refl|]. split; [done|]. intros Hne. by destruct (Hne r).
Qed.

Definition request_of (t : Transfer) : string * list hash32 := (tf_key t, tf_hashes t).
Definition all_left (ts : list Transfer) : nat := sum_list_with turns_left ts.
Definition asked (ts : list Transfer) : list hash32 := concat (map tf_hashes ts).

Lemma sum_list_with_insert {A} (f : A → nat) l i x y :
  l !! i = Some x → (sum_list_with f (<[i := y]> l) + f x = sum_list_with f l + f y)%nat.
Proof.
  revert i. induction l as [|z l IH]; intros [|i] Hi; cbn in Hi; simplify_eq; [cbn; lia|].
  change (<[Datatypes.S i := y]> (z :: l)) with (z :: <[i := y]> l). cbn [sum_list_with].
  apply IH in Hi. lia.
Qed.

Lemma sum_list_with_delete {A} (f : A → nat) l i x :
  l !! i = Some x → (sum_list_with f (delete i l) + f x = sum_list_with f l)%nat.
Proof.
  revert i. induction l as [|z l IH]; intros [|i] Hi; cbn in Hi; simplify_eq; [cbn; lia|].
  change (delete (Datatypes.S i) (z :: l)) with (z :: delete i l). cbn [sum_list_with]. apply IH in Hi. lia.
Qed.

Lemma asked_elem ts i t : ts !! i = Some t → tf_hashes t ⊆ asked ts.
Proof.
  intros Ht h Hh. unfold asked. rewrite (delete_Permutation ts i t Ht). cbn. apply elem_of_app. by left.
Qed.

Lemma asked_delete ts i t : ts !! i = Some t → asked (delete i ts) ⊆ asked ts.
Proof.
  intros Ht h Hh. unfold asked in *. rewrite (delete_Permutation ts i t Ht). cbn.
  apply elem_of_app. by right.
Qed.

Lemma asked_insert ts i t p : ts !! i = Some t →
  asked (<[i := mkTransfer (tf_key t) (tf_hashes t) p]> ts) = asked ts.
Proof.
  unfold asked. revert i. induction ts as [|t' ts IH]; intros [|i] Hi; cbn in *; simplify_eq; [done|].
  by rewrite IH.
Qed.

Lemma requests_insert ts i t p : ts !! i = Some t →
  map request_of (<[i := mkTransfer (tf_key t) (tf_hashes t) p]> ts) = map request_of ts.
Proof.
  revert i. induction ts as [|t' ts IH]; intros [|i] Hi; cbn in *; simplify_eq; [done|]. by rewrite IH.
Qed.

(** Whatever the order of the turns, and wherever the transfers are given up. *)
Lemma run_transfers_ok pick fuel n ts joined t t' r :
  Forall (transfer_ok t.2) ts → Forall (joined_ok t.2) joined →
  run_transfers blake3 sink pick fuel n ts joined t = (t', r) →
  ∃ tr js, steps (asked ts) t t' tr ∧ r = Ok js ∧ Forall (joined_ok t'.2) js ∧
    ((all_left ts ≤ fuel)%nat →
     map fst js ≡ₚ map fst joined ++ map request_of ts).
Proof.
  revert n ts joined t. induction fuel as [|fuel IH]; intros n ts joined t Hts Hj Hr; cbn [run_transfers] in Hr.
  { injection Hr as <- <-. exists [], joined. split; [apply steps_refl|]. split; [done|]. split; [done|].
    intros Hle. destruct ts as [|x ts]; [by rewrite app_nil_r|]. exfalso.
    unfold all_left in Hle. cbn in Hle. unfold turns_left in Hle. destruct (tf_progress x); lia. }
  destruct (ts !! (pick n mod length ts)%nat) as [x|] eqn:Hx; last first.
  { injection Hr as <- <-. exists [], joined. split; [apply steps_refl|]. split; [done|]. split; [done|].
    intros _. destruct ts as [|y ts]; [by rewrite app_nil_r|]. exfalso.
    apply lookup_ge_None in Hx. pose proof (Nat.mod_upper_bound (pick n) (length (y :: ts))). cbn in *. lia. }
  set (i := (pick n mod length ts)%nat) in *.
  assert (transfer_ok t.2 x) as Hxok by (by eapply Forall_lookup_1).
  destruct (tf_progress x) as [rest stats reply|rx] eqn:Hp.
  - m_step Hr as t1 p e Ht.
    + apply (transfer_turn_ok (tf_key x) (tf_hashes x)) in Ht as (tr1 & Hst1 & Hok1 & Hless);
        [|destruct x; cbn in *; by subst].
      assert (t.2 ⊆ t1.2) as Hmono by (destruct Hst1 as (_ & _ & _ & ->); set_solver).
      apply IH in Hr as (tr2 & js & Hst2 & -> & Hjs & Hall).
      * exists (tr1 ++ tr2), js. rewrite asked_insert in Hst2 by done. split.
        { eapply steps_trans; [|exact Hst2]. eapply steps_weaken; [|exact Hst1]. by eapply asked_elem. }
        split; [done|]. split; [done|]. intros Hle. rewrite requests_insert in Hall by done. apply Hall.
        pose proof (sum_list_with_insert turns_left ts i x (mkTransfer (tf_key x) (tf_hashes x) p) Hx) as Hsum.
        assert (turns_left (mkTransfer (tf_key x) (tf_hashes x) p) < turns_left x)%nat.
        { destruct x; cbn in *; subst. by apply Hless. }
        unfold all_left in *. lia.
      * apply Forall_insert; [|done]. eapply Forall_impl; [exact Hts|].
        intros y. by apply transfer_ok_mono.
      * eapply Forall_impl; [exact Hj|]. intros y. by apply transfer_ok_mono.
    + exfalso. unfold transfer_turn in Ht. destruct rest as [|h rest]; [done|].
      by destruct (fetch_loop _ _ _ _ _) as [[? ?] []].
  - apply IH in Hr as (tr & js & Hst & -> & Hjs & Hall).
    + exists tr, js. split; [eapply steps_weaken; [|exact Hst]; by eapply asked_delete|].
      split; [done|]. split; [done|]. intros Hle. rewrite Hall.
      * rewrite map_app, <- (assoc_L app).
        change (map fst joined ++ map request_of (x :: delete i ts) ≡ₚ map fst joined ++ map request_of ts).
        by rewrite <- (delete_Permutation ts i x Hx).
      * pose proof (sum_list_with_delete turns_left ts i x Hx) as Hsum. unfold all_left in *.
        assert (turns_left x = 1%nat) by (unfold turns_left; by rewrite Hp). lia.
    + by apply Forall_delete.
    + apply Forall_app. split; [done|]. constructor; [|done]. unfold joined_ok. cbn.
      destruct x; cbn in *; by subst.
Qed.

(** ** Spawning and joining *)

Context `{!Dial}.

Lemma spawn_ok exchange game_id group dl :
  group.2 ≠ [] → transfer_ok dl (spawn exchange game_id group) ∧
  request_of (spawn exchange game_id group) = (pt_endpoint_id group.1, group.2) ∧
  (turns_left (spawn exchange game_id group) ≤ length group.2 + 2)%nat.
Proof.
  destruct group as [target hashes]. intros Hne. cbn in Hne. unfold spawn. rewrite bool_decide_false by done.
  destruct (connect_peer target ≫= _) as [reply|e]; cbn.
  - split; [|split; [done|lia]]. unfold transfer_ok. cbn. split; [done|]. split; [set_solver|auto].
  - split; [done|split; [done|]]. unfold turns_left. cbn. lia.
Qed.

Lemma spawn_all_ok exchange game_id groups dl :
  Forall (λ e : PeerTarget * list hash32, e.2 ≠ []) groups →
  let r := spawn_all exchange game_id groups in
  Forall (transfer_ok dl) r.1 ∧ asked r.1 ⊆ concat groups.*2 ∧ (all_left r.1 ≤ turns r.1)%nat ∧
  (r.2 = None → map request_of r.1 = map (λ g : PeerTarget * list hash32, (pt_endpoint_id g.1, g.2)) groups).
Proof.
  cbv zeta. induction 1 as [|group groups Hne _ IH]; cbn [spawn_all].
  { cbn. split; [constructor|split; [set_solver|split; [lia|done]]]. }
  destruct (choose_ep group.1) as [[]|e]; cbn [fst snd].
  - destruct IH as (H1 & H2 & H3 & H4).
    destruct (spawn_ok exchange game_id group dl Hne) as (Hok & Hreq & Hleft).
    assert (tf_hashes (spawn exchange game_id group) = group.2) as Hh.
    { change (tf_hashes (spawn exchange game_id group)) with (request_of (spawn exchange game_id group)).2.
      by rewrite Hreq. }
    split; [by constructor|]. split; [|split].
    + cbn. rewrite Hh. unfold asked in H2. set_solver.
    + unfold all_left, turns in *. cbn [sum_list_with]. rewrite Hh. lia.
    + intros Hn. cbn. by rewrite Hreq, H4.
  - split; [constructor|split; [set_solver|split; [cbn; lia|done]]].
Qed.

Lemma joins_ok rate rd js dl :
  Forall (joined_ok dl) js →
  let rd' := foldl (join_step rate) rd js in
  (∀ h, h ∈ rd_unresolved rd → h ∈ rd_unresolved rd') ∧
  (∀ h, h ∈ concat (map (λ j : Joined, j.1.2) js) → h ∈ rd_unresolved rd' ∨ h ∈ dl) ∧
  rd_unresolved rd' ⊆ rd_unresolved rd ++ concat (map (λ j : Joined, j.1.2) js).
Proof.
  intros Hjs. cbv zeta. revert rd. induction Hjs as [|[[key hashes] r] js Hj _ IH]; intros rd; cbn.
  { split; [done|]. split; [set_solver|]. rewrite app_nil_r. set_solver. }
  destruct (IH (join_step rate rd (key, hashes, r))) as (H1 & H2 & H3).
  unfold joined_ok, transfer_ok in Hj. cbn in Hj. destruct r as [stats|e]; cbn in H1, H2, H3 |- *.
  - destruct Hj as [Hsub Hcov]. split; [intros h Hh; apply H1, elem_of_app; by left|]. split.
    + intros h [Hh|Hh]%elem_of_app; [|by apply H2]. destruct (Hcov h Hh); [|by right].
      left. apply H1, elem_of_app. by right.
    + set_solver.
  - split; [intros h Hh; apply H1, elem_of_app; by left|]. split.
    + intros h [Hh|Hh]%elem_of_app; [|by apply H2]. left. apply H1, elem_of_app. by right.
    + set_solver.
Qed.

(** ** The rounds *)

Context `{!NetParse} {W : Type} `{!ControlRpc W}.
Context (config : AgentConfig) (env : NetEnv).

Definition covered (hs : list hash32) (rd : Round) (dl : list hash32) : Prop :=
  rd_unresolved rd ⊆ hs ∧ ∀ h, h ∈ hs → h ∈ rd_unresolved rd ∨ h ∈ dl.

Lemma round_ok k game_id rd (w w' : W) t t' r :
  round blake3 config env sink k game_id rd (w, t) = ((w', t'), r) →
  ∃ tr, steps (rd_unresolved rd) t t' tr ∧
    ∀ x rd', r = Ok x → x = inl rd' ∨ x = inr rd' → covered (rd_unresolved rd) rd' t'.2.
Proof.
  unfold round. intros Hr. case_bool_decide as Hnil.
  { injection Hr as <- <- <-. exists []. split; [apply steps_refl|].
    intros x rd' [= <-] [[=]|[= <-]]. split; auto. }
  m_step Hr as [w1 t1] g e Hg; unfold on_world, zoom in Hg; cbn [fst snd] in Hg;
    destruct (group_hashes _ _ _ _ _ w) as [w2 r2] eqn:Hgr; injection Hg as <- <- Hg2;
    [|exists []; split; [apply steps_refl|done]].
  cbn [fst snd] in Hg2.
  assert (grouping_ok (mkGrouping [] ∅ [])) as Hempty by (split; [done|constructor]).
  destruct (group_hashes_ok _ _ _ _ _ _ _ _ Hempty Hgr g Hg2) as [[_ Hne] Hperm].
  cbn in Hperm. rewrite app_nil_r in Hperm.
  assert (∀ h, h ∈ rd_unresolved rd ↔ h ∈ gr_unresolved g ∨ h ∈ grouped g) as Hin.
  { intros h. by rewrite <- Hperm, elem_of_app. }
  case_bool_decide as Hg0.
  { injection Hr as <- <- <-. exists []. split; [apply steps_refl|].
    intros x rd' [= <-] [[=]|[= <-]]. unfold covered. cbn. split; [set_solver|].
    intros h [?|Hh]%Hin; [by left|]. unfold grouped in Hh. rewrite Hg0 in Hh. by apply elem_of_nil in Hh. }
  pose proof (spawn_all_ok (ne_exchange env k) game_id (gr_groups g) t.2 Hne) as (Hts & Hasked & Hturns & Hreq).
  destruct (spawn_all (ne_exchange env k) game_id (gr_groups g)) as [ts failed]. cbn [fst snd] in *.
  assert (asked ts ⊆ rd_unresolved rd) as Hsub by (intros h Hh; apply Hin; right; by apply Hasked).
  assert (∀ fuel w3 t3 r3, on_sink (run_transfers blake3 sink (ne_pick env k) fuel 0 ts []) (w2, t) =
      (((w3 : W), t3), r3) →
    ∃ tr js, steps (asked ts) t t3 tr ∧ r3 = Ok js ∧ Forall (joined_ok t3.2) js ∧
      ((all_left ts ≤ fuel)%nat → map fst js ≡ₚ map request_of ts)) as Hrun.
  { intros fuel w3 t3 r3 Ht. unfold on_sink, zoom in Ht. cbn [fst snd] in Ht.
    destruct (run_transfers _ _ _ _ _ _ _ _) as [t4 r4] eqn:Hrun. injection Ht as <- <- <-.
    by apply run_transfers_ok in Hrun; [|done|constructor]. }
  destruct failed as [e|].
  - m_step Hr as [w3 t3] js e' Ht; apply Hrun in Ht as (tr & js' & Hst & Hjs & _); [|done].
    injection Hr as <- <- <-. exists tr. split; [by eapply steps_weaken|done].
  - m_step Hr as [w3 t3] js e' Ht; apply Hrun in Ht as (tr & js' & Hst & Hjs' & Hjs & Hall); [|done].
    injection Hjs' as <-. injection Hr as <- <- <-. exists tr. split; [by eapply steps_weaken|].
    intros x rd' [= <-] [[= <-]|[=]].
    specialize (Hall Hturns). rewrite (Hreq eq_refl) in Hall. cbn in Hall.
    assert (concat (map (λ j : Joined, j.1.2) js) ≡ₚ grouped g) as Hsame.
    { transitivity (concat (map snd (map fst js))); [by rewrite map_map|].
      unfold grouped. change ((gr_groups g).*2) with (map snd (gr_groups g)). rewrite Hall, map_map. done. }
    destruct (joins_ok (ac_download_mbps config) (mkRound (gr_unresolved g) (rd_exclude rd) (rd_bytes rd)) js t3.2 Hjs)
      as (Hj1 & Hj2 & Hj3). cbn in Hj1, Hj3. split.
    + intros h Hh. apply Hin. apply Hj3 in Hh. rewrite Hsame in Hh. by apply elem_of_app in Hh.
    + intros h [Hh|Hh]%Hin; [left; by apply Hj1|]. apply Hj2. by rewrite Hsame.
Qed.

Lemma rounds_ok game_id missing (w w' : W) t t' r :
  rounds blake3 config env sink game_id missing (w, t) = ((w', t'), r) →
  ∃ tr, steps missing t t' tr ∧ ∀ rd, r = Ok rd → covered missing rd t'.2.
Proof.
  unfold rounds. intros Hr.
  m_step Hr as [w1 t1] r1 e H1; apply round_ok in H1 as (tr1 & Hst1 & Hc1); [|by exists tr1].
  cbn [rd_unresolved] in *. destruct r1 as [rd|rd].
  - specialize (Hc1 _ rd eq_refl (or_introl eq_refl)) as [Hsub1 Hcov1].
    assert (∀ t2 tr2, steps (rd_unresolved rd) t1 t2 tr2 → steps missing t t2 (tr1 ++ tr2)) as Hst
      by (intros t2 tr2 Hst2; eapply steps_trans; [exact Hst1|by eapply steps_weaken]).
    m_step Hr as [w2 t2] r2 e H2; apply round_ok in H2 as (tr2 & Hst2 & Hc2).
    + injection Hr as <- <- <-. exists (tr1 ++ tr2). split; [by apply Hst|]. intros rd' [= <-].
      assert (t1.2 ⊆ t2.2) as Hmono by (destruct Hst2 as (_ & _ & _ & ->); set_solver).
      destruct (Hc2 r2 (match r2 with inl rd | inr rd => rd end) eq_refl) as [Hsub2 Hcov2].
      { destruct r2; [by left|by right]. }
      split; [set_solver|]. intros h Hh. destruct (Hcov1 h Hh) as [Hu|Hd]; [by apply Hcov2|right; by apply Hmono].
    + exists (tr1 ++ tr2). split; [by apply Hst|done].
  - injection Hr as <- <- <-. exists tr1. split; [done|]. intros rd' [= <-].
    by apply (Hc1 _ rd eq_refl); right.
Qed.

Lemma fetch_chunks_steps exchange target game_id hs t t' r :
  fetch_chunks blake3 (recording sink) exchange target game_id hs t = (t', r) →
  ∃ tr, steps hs t t' tr ∧ ∀ st, r = Ok st → fs_failed st = [] → hs ⊆ stored tr.
Proof.
  unfold fetch_chunks. intros Hf. case_bool_decide as Hnil.
  { injection Hf as <- <-. exists []. split; [apply steps_refl|]. intros st _ _. subst hs. set_solver. }
  destruct (connect_peer target ≫= _) as [bs|e].
  - destruct (fetch_loop blake3 (recording sink) hs stats0 (bs, t)) as [[bs' t1] r1] eqn:Hl.
    injection Hf as <- <-. apply fetch_loop_steps in Hl as (tr & Hst & Hr). exists tr. split; [done|].
    intros st Hst' Hno h Hh. destruct (Hr st Hst') as (_ & _ & Hall).
    destruct (Hall h Hh) as [Hfl|]; [|done]. rewrite Hno in Hfl. by apply elem_of_nil in Hfl.
  - injection Hf as <- <-. exists []. split; [apply steps_refl|done].
Qed.

Lemma from_origin_ok origin game_id retry (w w' : W) t t' r :
  from_origin blake3 env sink origin game_id retry (w, t) = ((w', t'), r) →
  ∃ tr, steps retry t t' tr ∧ (is_ok r → retry ⊆ stored tr).
Proof.
  unfold from_origin. intros Hr. case_bool_decide as Hnil.
  { injection Hr as <- <- <-. exists []. split; [apply steps_refl|]. intros _. subst retry. set_solver. }
  destruct origin as [target|]; [|injection Hr as <- <- <-; exists []; split; [apply steps_refl|done]].
  assert (∀ h, h ∈ dedup (sort_hashes retry) ↔ h ∈ retry) as Hsame
    by (intros h; by rewrite dedup_elem, elem_of_sort_hashes).
  m_step Hr as [w1 t1] stats e Hf; unfold on_sink, zoom in Hf; cbn [fst snd] in Hf;
    destruct (fetch_chunks _ _ _ _ _ _ t) as [t2 r2] eqn:Hfc; injection Hf as <- <- Hr2;
    apply fetch_chunks_steps in Hfc as (tr & Hst & Hall);
    (assert (steps retry t t2 tr) as Hst' by (eapply steps_weaken; [|exact Hst]; intros h; apply Hsame)).
  - case_bool_decide as Hfl; injection Hr as <- <- <-; exists tr; (split; [done|]); [|done].
    intros _ h Hh%Hsame. by apply (Hall stats).
  - by exists tr.
Qed.

Lemma download_missing_trace game_id missing assigned (w w' : W) s s' r :
  download_missing blake3 config env sink game_id missing assigned (w, s) = ((w', s'), r) →
  ∃ tr, ran tr s s' ∧ Forall call_ok tr ∧ map call_hash tr ⊆ missing ∧
    (∀ out, r = Ok out → out = stored tr ∧ missing ⊆ out) ∧
    ∀ w1 t1 rd, rounds blake3 config env sink game_id missing (w, (s, [])) = ((w1, t1), Ok rd) →
      (∃ h, h ∈ rd_unresolved rd ∧ h ∉ assigned) → missing ≠ [] →
      ¬ is_ok r ∧ (is_ok (origin_target config) → is_ok (ne_bind env) → s' = t1.1).
Proof.
  unfold download_missing. intros Hd. case_bool_decide as Hnil.
  { injection Hd as <- <- <-. exists []. split; [constructor|]. split; [constructor|].
    split; [set_solver|]. split; [|done]. intros out [= <-]. subst missing. split; [done|set_solver]. }
  m_step Hd as [w1 s1] origin e Ho; unfold lift in Ho; injection Ho as <- <- Ho.
  2:{ exists []. split; [constructor|]. split; [constructor|]. split; [set_solver|]. split; [done|].
      intros w1 t1 rd _ _ _. rewrite Ho. by split; [intros []|]. }
  m_step Hd as [w1 s1] [] e Hb; unfold lift in Hb; injection Hb as <- <- Hb.
  2:{ exists []. split; [constructor|]. split; [constructor|]. split; [set_solver|]. split; [done|].
      intros w1 t1 rd _ _ _. rewrite Hb. by split; [intros []|]. }
  unfold zoom at 1 in Hd. cbn [fst snd] in Hd.
  destruct (rounds blake3 config env sink game_id missing (w, (s, []))) as [[w1 t1] [rd|e]] eqn:Hrounds.
  2:{ rewrite (M_bind_err _ _ _ _ _ Hrounds) in Hd. injection Hd as <- <- <-.
      apply rounds_ok in Hrounds as (tr & (Hr & Hv & Hh & _) & _).
      exists tr. split; [done|]. split; [done|]. split; [done|]. by split. }
  rewrite (M_bind_ok _ _ _ _ _ Hrounds) in Hd. cbv zeta in Hd.
  apply rounds_ok in Hrounds as (tr1 & Hst1 & Hc1). destruct (Hc1 rd eq_refl) as [Hsub Hcov].
  case_bool_decide as Hbl; cbn [negb] in Hd.
  - destruct (from_origin blake3 env sink origin game_id
      (filter (.∈ assigned) (rd_unresolved rd)) (w1, t1)) as [[w2 t2] r2] eqn:Hfo.
    apply from_origin_ok in Hfo as Hfo'. destruct Hfo' as (tr2 & Hst2 & Hall).
    assert (filter (.∈ assigned) (rd_unresolved rd) ⊆ missing) as Hsub2.
    { intros h [_ Hh]%list_elem_of_filter. by apply Hsub. }
    assert (steps missing (s, []) t2 (tr1 ++ tr2)) as (Hran & Hv & Hh & Hdl)
      by (eapply steps_trans; [exact Hst1|by eapply steps_weaken]).
    exists (tr1 ++ tr2). destruct r2 as [[]|e].
    + rewrite (M_bind_ok _ _ _ _ _ Hfo) in Hd. injection Hd as <- <- <-.
      split; [done|]. split; [done|]. split; [done|]. split.
      * intros out [= <-]. cbn in Hdl |- *. rewrite Hdl. split; [done|].
        intros h Hm. destruct (Hcov h Hm) as [Hu|Hd1].
        -- rewrite stored_app. apply elem_of_app. right. apply Hall; [done|].
           apply list_elem_of_filter. split; [|done]. apply dec_stable. intros Hna.
           assert (h ∈ filter (.∉ assigned) (rd_unresolved rd)) as Hin by (by apply list_elem_of_filter).
           rewrite Hbl in Hin. by apply elem_of_nil in Hin.
        -- destruct Hst1 as (_ & _ & _ & Hd1'). rewrite Hd1' in Hd1. rewrite stored_app.
           apply elem_of_app. by left.
      * intros w3 t3 rd' [= <- <- <-] (h & Hu & Hna). exfalso.
        assert (h ∈ filter (.∉ assigned) (rd_unresolved rd)) as Hin by (by apply list_elem_of_filter).
        rewrite Hbl in Hin. by apply elem_of_nil in Hin.
    + rewrite (M_bind_err _ _ _ _ _ Hfo) in Hd. injection Hd as <- <- <-.
      split; [done|]. split; [done|]. split; [done|]. split; [done|].
      intros w3 t3 rd' [= <- <- <-] (h & Hu & Hna). exfalso.
      assert (h ∈ filter (.∉ assigned) (rd_unresolved rd)) as Hin by (by apply list_elem_of_filter).
      rewrite Hbl in Hin. by apply elem_of_nil in Hin.
  - injection Hd as <- <- <-. destruct Hst1 as (Hran & Hv & Hh & _). exists tr1.
    split; [done|]. split; [done|]. split; [done|]. split; [done|].
    intros w3 t3 rd' [= <- <- <-] _ _. split; [by intros []|done].
Qed.


End trace.
