(* ===== verification/ExecutorTasks.v ===== *)
(** * ExecutorTasks: what an IDC holds and a cafe has on disk after a task

    The trace of a download gives what reaches the sinks: the batched one of an
    IDC, whose lost batches are the hypothesis of its theorem, and the temporary
    blocks of a cafe.  A cafe switches its current version only after the merge. *)

From S2P Require Import Prelude Bytes Text FileIO Redb Manifest.
From S2P Require Import UpdatePlan Storage StorageSpec StorageBatch UploadSpec SchedControl.
From S2P Require Import DataPath DataPathSpec CafeStore CafeSpec Merge MergeSpec.
From S2P Require Import Configs AgentControl Executor ExecutorSpec.

(** ** The batched sink of an IDC *)

Section idc.
Context (blake3 : list byte → hash32).
Context {D F : Type} `{RedbLaws D, FileLaws F, !CompioOps F, !OpenOps D F}.
Implicit Types (m : gmap hash32 (list byte)).
Abbreviation chunks := (list (hash32 * list byte)).

(** After the calls [cs]: those before the pending ones are in the store. *)
Definition idc_ok (base : N) m (cs : chunks) (st : GameStore D F * chunks) : Prop :=
  ∃ flushed, cs = flushed ++ st.2 ∧ represents st.1 (add_chunks m flushed) ∧
    gs_size st.1 ≤ base + sizes flushed.

Lemma add_chunks_app m cs1 cs2 : add_chunks m (cs1 ++ cs2) = add_chunks (add_chunks m cs1) cs2.
Proof. apply foldl_app. Qed.

Lemma flush_pending_ok base m cs st st' :
  base + sizes cs < 2^32 → idc_ok base m cs st → flush_pending st = (st', Ok ()) →
  idc_ok base m cs st' ∧ st'.2 = [].
Proof.
  intros Hb (flushed & Hcs & Hr & Hs) Hf. destruct st as [g batch]. cbn [fst snd] in *.
  unfold flush_pending in Hf. rewrite (M_bind_ok get _ _ _ _ eq_refl) in Hf. cbv zeta in Hf.
  rewrite (M_bind_ok (modify _) _ _ _ () eq_refl) in Hf. cbn [fst snd] in Hf.
  case_bool_decide as Hnil.
  { injection Hf as <-. split; [|done]. exists flushed. by subst batch. }
  m_step Hf as [g1 b1] out e Ha. injection Hf as <-. unfold zoom in Ha. cbn [fst snd] in Ha.
  destruct (append_chunks_batch batch g) as [g2 r2] eqn:Hap. injection Ha as -> <- ->.
  assert (sizes cs = sizes flushed + sizes batch) as Hsz by (subst cs; apply sizes_app).
  assert (gs_size g + sizes batch < 2^32) as Hb' by lia.
  pose proof (append_chunks_batch_size _ _ _ _ _ Hr Hb' Hap) as Hs'.
  apply (append_chunks_batch_refines _ _ _ _ _ Hr Hb') in Hap as [Hr' _].
  split; [|done]. exists cs. cbn. rewrite app_nil_r. split; [done|].
  subst cs. rewrite add_chunks_app. split; [done|]. lia.
Qed.

Lemma idc_sink_ok base m cs h d st st' :
  base + sizes (cs ++ [(h, d)]) < 2^32 → idc_ok base m cs st → idc_sink h d st = (st', Ok ()) →
  idc_ok base m (cs ++ [(h, d)]) st'.
Proof.
  intros Hb (flushed & -> & Hr & Hs) Hk. unfold idc_sink in Hk.
  rewrite (M_bind_ok (modify _) _ _ _ () eq_refl) in Hk.
  rewrite (M_bind_ok get _ _ _ _ eq_refl) in Hk. cbn [fst snd] in Hk.
  assert (idc_ok base m ((flushed ++ st.2) ++ [(h, d)]) (st.1, st.2 ++ [(h, d)])) as Hok.
  { exists flushed. cbn. by rewrite <- app_assoc. }
  destruct (IDC_BATCH_SIZE <=? _); [|by injection Hk as <-].
  by apply (flush_pending_ok base m _ _ _ Hb Hok) in Hk as [? _].
Qed.

Lemma idc_ran_ok base m cs tr st st' :
  ran idc_sink tr st st' → Forall (λ c : call, c.2 = true) tr →
  base + sizes (cs ++ map fst tr) < 2^32 → idc_ok base m cs st →
  idc_ok base m (cs ++ map fst tr) st'.
Proof.
  intros Hran. revert cs. induction Hran as [st|h d st st1 st2 tr Hs _ IH|]; intros cs Hall Hb Hok.
  - cbn. by rewrite app_nil_r.
  - apply Forall_cons in Hall as [_ Hall]. cbn [map fst] in Hb |- *.
    replace (cs ++ (h, d) :: map fst tr) with ((cs ++ [(h, d)]) ++ map fst tr) in *
      by (by rewrite <- app_assoc).
    apply IH; [done|done|]. eapply idc_sink_ok; [|done..].
    rewrite sizes_app in Hb. lia.
  - by apply Forall_cons in Hall as [[=] _].
Qed.

Lemma idc_missing_ok (store : GameStore D F) m hashes missing :
  represents store m → idc_missing store hashes = Ok missing →
  missing = filter (λ h, m !! h = None) hashes.
Proof.
  intros Hr. revert missing. induction hashes as [|h hashes IH]; intros missing Hm; cbn in Hm.
  { by injection Hm as <-. }
  apply bind_Ok_inv in Hm as (b & Hb & Hm). apply bind_Ok_inv in Hm as (rest & Hrest & Hm).
  injection Hm as <-. apply (contains_represents _ _ _ _ Hr) in Hb. subst b.
  rewrite filter_cons, (IH _ Hrest). destruct (m !! h) eqn:Hh; rewrite ?Hh.
  - rewrite bool_decide_true by (by eexists). by rewrite decide_False.
  - rewrite bool_decide_false by (by intros []). by rewrite decide_True.
Qed.

Context `{!NetParse, !Dial, !SetIter, !SetIterLaws} {W : Type} `{!ControlRpc W}.
Context (config : AgentConfig) (node_id : N) (env : NetEnv).

(** Downloading and flushing: when no call of the sink failed, the store holds
    what was received. *)
Lemma idc_download_ok game_id missing assigned (w w' : W) store m st' :
  represents store m →
  idc_download blake3 config env game_id missing assigned (w, (store, [])) = ((w', st'), Ok ()) →
  ∃ tr, Forall (call_ok blake3) tr ∧ map call_hash tr ⊆ missing ∧ missing ⊆ stored tr ∧
    (Forall (λ c : call, c.2 = true) tr → gs_size store + sizes (map fst tr) < 2^32 →
     represents st'.1 (add_chunks m (map fst tr))).
Proof.
  intros Hr Hd. unfold idc_download in Hd.
  m_step Hd as [w1 st1] out e Hdl.
  eapply download_missing_trace in Hdl. destruct Hdl as (tr & Hran & Hv & Hh & Hout & _).
  destruct (Hout out eq_refl) as [-> Hall].
  unfold zoom in Hd. cbn [fst snd] in Hd. destruct (flush_pending st1) as [st2 r2] eqn:Hf.
  injection Hd as <- <- ->. exists tr. split; [done|]. split; [done|]. split; [done|].
  intros Hgood Hb. assert (idc_ok (gs_size store) m [] (store, [])) as Hok0.
  { exists []. split; [done|]. split; [done|]. cbn. lia. }
  apply (idc_ran_ok _ _ [] _ _ _ Hran Hgood Hb) in Hok0 as Hok1.
  pose proof (flush_pending_ok _ _ _ _ _ Hb Hok1 Hf) as [(flushed & Hcs & Hr2 & Hsz2) Hnil].
  rewrite Hnil, app_nil_r in Hcs. cbn [app] in Hcs. by rewrite Hcs.
Qed.

Lemma with_world_inv {F' A} (rpc : M W error A) (n n' : Node W D F') r :
  with_world rpc n = (n', r) →
  ∃ w' r', rpc (no_world n) = (w', r') ∧ n' = set_world w' n ∧ r = map_err Failed r'.
Proof.
  unfold with_world, zoom, fallible, map_err_m. destruct (rpc (no_world n)) as [w1 r1].
  intros [= <- <-]. by exists w1, r1.
Qed.

Lemma held_elem index h : h ∈ held index ↔ h ∈ chunk_set index.
Proof. unfold held. by rewrite elem_of_sort_hashes, elem_of_set_iter. Qed.

Lemma run_idc_inv `{!DirOps F, !MapIter} task index (n n0 n' : Node W D F) store m :
  idc_store (pt_game_id task) n = (n0, Ok store) → represents store m →
  run_idc blake3 config node_id env task index n = (n', Ok ()) →
  ∃ tr store', no_packs n' !! pt_game_id task = Some store' ∧ Forall (call_ok blake3) tr ∧
    (∀ h, h ∈ map call_hash tr → h ∈ chunk_set index ∧ m !! h = None) ∧
    (∀ h, h ∈ chunk_set index → is_Some (m !! h) ∨ h ∈ stored tr) ∧
    (Forall (λ c : call, c.2 = true) tr → gs_size store + sizes (map fst tr) < 2^32 →
     represents store' (add_chunks m (map fst tr))) ∧
    ∃ w, report_chunks node_id (pt_game_id task) (held index) w = (no_world n', Ok ()).
Proof.
  intros Hstore Hr Hrun. unfold run_idc in Hrun. cbv zeta in Hrun.
  rewrite (M_bind_ok _ _ _ _ _ Hstore) in Hrun.
  m_step Hrun as n1 missing e Hm; unfold lift in Hm; injection Hm as <- Hm.
  apply map_err_Ok_inv in Hm. apply (idc_missing_ok _ _ _ _ Hr) in Hm as ->.
  assert (∀ h, h ∈ sort_hashes (filter (λ h, m !! h = None) (set_iter (chunk_set index))) ↔
    m !! h = None ∧ h ∈ chunk_set index) as Hmiss.
  { intros h. by rewrite elem_of_sort_hashes, list_elem_of_filter, elem_of_set_iter. }
  m_step Hrun as n1 [] e Hd. unfold zoom, fallible, map_err_m in Hd.
  destruct (idc_download _ _ _ _ _ _ _) as [[w2 st2] r2] eqn:Hdl.
  injection Hd as <- Hd. destruct r2 as [[]|e]; [|done].
  apply (idc_download_ok _ _ _ _ _ _ _ _ Hr) in Hdl as (tr & Hv & Hh & Hall & Hgood).
  apply with_world_inv in Hrun as (w' & r' & Hrep & -> & Hr'). destruct r' as [[]|e]; [|done].
  exists tr, st2.1. split; [cbn; by rewrite lookup_insert_eq|]. split; [done|]. split.
  { intros h Hin. apply Hh, Hmiss in Hin as [? ?]. done. }
  split.
  { intros h Hin. destruct (m !! h) as [d|] eqn:Hmh; [left; by eexists|right]. by apply Hall, Hmiss. }
  split; [done|]. eexists. exact Hrep.
Qed.

(** The chunks an IDC reports are in its store, with their bytes. *)
Lemma idc_complete m tr h :
  addressed blake3 m → Forall (call_ok blake3) tr → Forall (λ c : call, c.2 = true) tr →
  is_Some (m !! h) ∨ h ∈ stored tr →
  ∃ d, add_chunks m (map fst tr) !! h = Some d ∧ blake3 d = h.
Proof.
  intros Ha Hv Hgood Hin.
  assert (is_Some (add_chunks m (map fst tr) !! h)) as [d Hd].
  { destruct Hin as [[d Hd]|Hin].
    - exists d. eapply lookup_weaken; [done|]. apply add_chunks_mono.
    - unfold stored in Hin. apply list_elem_of_omap in Hin as ([[h' d] b] & Hin & Hb). cbn in Hb.
      destruct b; [|done]. injection Hb as ->.
      apply (add_chunks_elem m (map fst tr) (h, d)).
      apply (list_elem_of_fmap_2 fst) in Hin. exact Hin. }
  exists d. split; [done|]. eapply (add_chunks_addressed blake3 m (map fst tr)); [done| |done].
  apply Forall_fmap. eapply Forall_impl; [exact Hv|]. by intros [[? ?] ?].
Qed.

End idc.

(** ** Merging and switching versions on a cafe *)

Lemma manifest_name_current version : manifest_name version ≠ CURRENT.
Proof.
  unfold manifest_name, CURRENT. generalize (dec version). intros s.
  do 16 (destruct s as [|? s]; [discriminate|]). discriminate.
Qed.

Section cafe.
Context (blake3 : list byte → hash32).
Context {W D F : Type} `{FileLaws F, !CompioOps F, !CompioLaws F, !DirOps F, !DirLaws F}.
Context `{MapIterLaws, SetIterLaws, !ControlRpc W}.
Context (config : AgentConfig) (node_id : N).
Implicit Types (d : GameDir F) (n : Node W D F).

Lemma dir_of_set g d n : dir_of g (set_dir g d n) = d.
Proof. unfold dir_of. cbn. by rewrite lookup_insert_eq. Qed.

Lemma on_game_dir_inv {A} g (op : M (GameDir F) error A) n n' r :
  on_game_dir g op n = (n', r) →
  ∃ d' r', op (dir_of g n) = (d', r') ∧ n' = set_dir g d' n ∧ r = map_err Failed r'.
Proof.
  unfold on_game_dir, zoom, fallible, map_err_m. destruct (op (dir_of g n)) as [d1 r1].
  intros [= <- <-]. by exists d1, r1.
Qed.

Lemma write_manifest_ok msg name bs d d' r :
  write_manifest msg name bs d = (d', r) →
  gd_files d' = gd_files d ∧ gd_temp d' = gd_temp d ∧
  (∀ x, x ≠ name → gd_manifests d' !! x = gd_manifests d !! x) ∧
  (is_ok r → ∃ f, gd_manifests d' !! name = Some f ∧ f_data f = bs).
Proof.
  unfold write_manifest. destruct (fs_write_file (gd_manifests d !! name) bs) as [new r1] eqn:Hw.
  intros [= <- <-]. cbn. split; [done|]. split; [done|]. split.
  - intros x Hx. by apply lookup_partial_alter_ne.
  - destruct r1 as [[]|e]; [|done]. intros _. apply fs_write_file_ok in Hw as (f & -> & Hf).
    exists f. split; [|done]. apply lookup_partial_alter_eq.
Qed.

Lemma save_manifest_ok version manifest index (c c' : CafeStore F) r :
  Manifest.decode blake3 manifest = Ok index →
  save_manifest blake3 version manifest c = (c', r) →
  gd_files (cf_dir c') = gd_files (cf_dir c) ∧
  (is_ok r → cf_current c' = Some (build_map index) ∧
    ∃ f v, gd_manifests (cf_dir c') !! manifest_name version = Some f ∧ f_data f = manifest ∧
      gd_manifests (cf_dir c') !! CURRENT = Some v ∧ f_data v = str_bytes (dec version)).
Proof.
  intros Hdec Hs. unfold save_manifest in Hs.
  assert (∀ {A} (op : M (GameDir F) error A) c1 c2 r2, on_dir op c1 = (c2, r2) →
    ∃ d2, op (cf_dir c1) = (d2, r2) ∧ c2 = mkCafe d2 (cf_current c1)) as Hon.
  { intros A op c1 c2 r2. unfold on_dir, zoom. destruct (op (cf_dir c1)) as [d2 r2'].
    intros [= <- <-]. by exists d2. }
  m_step Hs as c1 [] e H1'; apply Hon in H1' as (d1 & Hd1 & ->); apply (dir_call_id_only (λ _, False)) in Hd1 as (_ & _ & Hf1);
    (assert (gd_files d1 = gd_files (cf_dir c)) as Hf1' by (apply map_eq; intros x; apply Hf1; by intros [])); [|done].
  m_step Hs as c2 [] e H2'; apply Hon in H2' as (d2 & Hd2 & ->); apply write_manifest_ok in Hd2 as (Hf2 & _ & _ & Hm2);
    cbn in Hf2; [|split; [cbn; congruence|done]].
  m_step Hs as c3 [] e H3'; apply Hon in H3' as (d3 & Hd3 & ->); apply write_manifest_ok in Hd3 as (Hf3 & _ & Hx3 & Hm3);
    cbn in Hf3; [|split; [cbn; congruence|done]].
  unfold set_current in Hs. m_step Hs as c4 i e H4'; unfold lift in H4'; injection H4' as <- Hi; rewrite Hdec in Hi.
  - injection Hi as <-. injection Hs as <- <-. cbn. split; [congruence|]. intros _. split; [done|].
    destruct (Hm2 I) as (f & Hf & Hbs). destruct (Hm3 I) as (v & Hv & Hvs). exists f, v.
    cbn in Hx3. rewrite Hx3 by apply manifest_name_current. done.
  - done.
Qed.

Lemma on_cafe_save g version manifest index n n' r :
  Manifest.decode blake3 manifest = Ok index →
  on_cafe g (save_manifest blake3 version manifest) n = (n', r) →
  gd_files (dir_of g n') = gd_files (dir_of g n) ∧
  (is_ok r → no_cafes n' !! g = Some (Some (build_map index)) ∧
    ∃ f v, gd_manifests (dir_of g n') !! manifest_name version = Some f ∧ f_data f = manifest ∧
      gd_manifests (dir_of g n') !! CURRENT = Some v ∧ f_data v = str_bytes (dec version)).
Proof.
  intros Hdec Hon. unfold on_cafe, zoom, fallible, map_err_m in Hon.
  destruct (save_manifest _ _ _ _) as [c1 rs] eqn:Hsv. injection Hon as <- <-.
  apply (save_manifest_ok _ _ _ _ _ _ Hdec) in Hsv as [Hf1 Hok1]. cbn [cf_dir] in Hf1.
  change (dir_of g (set_cafe g (cf_current c1) (set_dir g (cf_dir c1) n)))
    with (dir_of g (set_dir g (cf_dir c1) n)). rewrite dir_of_set.
  split; [done|]. cbn [no_cafes set_cafe]. rewrite lookup_insert_eq.
  destruct rs as [[]|]; [|done]. intros _. destruct (Hok1 I) as [-> ?]. done.
Qed.

Lemma cafe_finish_inv g version index manifest old n n' r :
  Manifest.decode blake3 manifest = Ok index → mergeable index old (dir_of g n) →
  (∀ o f file, old = Some o → f ∈ gi_files o → gd_files (dir_of g n) !! fe_name f = Some file →
     blake3 (f_data file) = fe_file_hash f) →
  cafe_finish blake3 node_id g version index manifest old n = (n', r) →
  let d := dir_of g n in let d' := dir_of g n' in
  (gd_manifests d' = gd_manifests d ∧ ¬ is_ok r) ∨
  ((∀ e, e ∈ gi_files index →
      ∃ f, gd_files d' !! fe_name e = Some f ∧ blake3 (f_data f) = fe_file_hash e) ∧
   (∀ p, p ∈ gone index old → gd_files d' !! p = None) ∧
   (is_ok r → no_cafes n' !! g = Some (Some (build_map index)) ∧
     (∃ f v, gd_manifests d' !! manifest_name version = Some f ∧ f_data f = manifest ∧
        gd_manifests d' !! CURRENT = Some v ∧ f_data v = str_bytes (dec version)) ∧
     ∃ w, report_chunks node_id g (held index) w = (no_world n', Ok ()))).
Proof.
  intros Hdec Hg Hold Hc. cbv zeta. unfold cafe_finish in Hc.
  m_step Hc as n1 merge e Hm; apply on_game_dir_inv in Hm as (d1 & r1 & Hm & -> & Hr1);
    destruct r1 as [s|e1]; try discriminate Hr1.
  2:{ left. rewrite dir_of_set. apply (merge_files_inv _ _ _ _ _ _ Hg) in Hm as ((_ & Hman & _) & _).
      split; [done|by intros []]. }
  injection Hr1 as <-. apply (merge_files_inv _ _ _ _ _ _ Hg) in Hm as ((_ & Hman & _) & _ & os & Hos & Hs).
  case_bool_decide as Hnofail; cbn [negb] in Hc.
  2:{ left. injection Hc as <- <-. rewrite dir_of_set. split; [done|by intros []]. }
  right. destruct (Hs _ eq_refl) as (Hgone & _ & Hfailed & _).
  assert (∀ e, e ∈ gi_files index → ∃ f, gd_files d1 !! fe_name e = Some f ∧
    blake3 (f_data f) = fe_file_hash e) as Hfiles.
  { intros e He. apply list_elem_of_lookup in He as [i He].
    destruct (Forall2_lookup_l _ _ _ _ _ Hos He) as (o & Ho & Hdone). destruct o as [| |msg].
    - destruct Hdone as (prev & f & Hprev & Hh & Hfile & Hfile'). exists f. split; [done|].
      apply old_files_of_Some in Hprev as (og & Hog & Hin & Hn). rewrite <- Hn in Hfile.
      rewrite (Hold _ _ _ Hog Hin Hfile). done.
    - done.
    - exfalso. assert (msg ∈ omap failure os) as Hin.
      { apply list_elem_of_omap. exists (MergeSpec.Failed msg). split; [by eapply list_elem_of_lookup_2|done]. }
      rewrite <- Hfailed, Hnofail in Hin. by apply elem_of_nil in Hin. }
  m_step Hc as n2 [] e Hsv; apply (on_cafe_save _ _ _ _ _ _ _ Hdec) in Hsv as [Hf2 Hok2]; rewrite dir_of_set in Hf2.
  - apply with_world_inv in Hc as (w' & r' & Hrep & -> & ->).
    change (dir_of g (set_world w' n2)) with (dir_of g n2). rewrite Hf2. split; [done|]. split; [done|].
    destruct r' as [[]|]; [|done]. intros _. destruct (Hok2 I) as [Hcur Hman2]. split; [done|].
    split; [done|]. eexists. exact Hrep.
  - rewrite Hf2. split; [done|]. split; [done|]. done.
Qed.

(** *** Before the merge *)

Lemma dir_call_id_files msg d d' r :
  dir_call msg id d = (d', r) → gd_files d' = gd_files d ∧ gd_manifests d' = gd_manifests d.
Proof. unfold dir_call. destruct (fs_call (gd_calls d)); by intros [= <- <-]. Qed.

(** Only temporary blocks change. *)
Definition temp_only d d' : Prop := gd_files d' = gd_files d ∧ gd_manifests d' = gd_manifests d.

Lemma temp_only_trans d1 d2 d3 : temp_only d1 d2 → temp_only d2 d3 → temp_only d1 d3.
Proof. intros [? ?] [? ?]. split; congruence. Qed.

Lemma cafe_sink_temp now tr d d' : ran (cafe_sink now) tr d d' → temp_only d d'.
Proof.
  assert (∀ h bs d1 d2 r, cafe_sink now h bs d1 = (d2, r) → temp_only d1 d2) as Hs.
  { intros h bs d1 d2 r. unfold cafe_sink. destruct (fs_write_file _ _) as [new r1].
    by intros [= <- _]. }
  induction 1 as [d1|h bs d1 d2 d3 tr Hk _ IH|h bs d1 d2 d3 e tr Hk _ IH]; [done|..];
    (eapply temp_only_trans; [by eapply Hs|done]).
Qed.

Lemma cafe_open_dirs (c c' : CafeStore F) r :
  CafeStore.open blake3 c = (c', r) → temp_only (cf_dir c) (cf_dir c').
Proof.
  intros Ho. unfold CafeStore.open in Ho.
  rewrite (M_bind_ok (modify _) _ _ _ () eq_refl) in Ho.
  assert (∀ msg c1 c2 r2, on_dir (dir_call msg id) c1 = (c2, r2) → temp_only (cf_dir c1) (cf_dir c2)) as Hon.
  { intros msg c1 c2 r2. unfold on_dir, zoom. destruct (dir_call msg id (cf_dir c1)) as [d2 r2'] eqn:Hd.
    intros [= <- _]. by apply dir_call_id_files in Hd. }
  m_step Ho as c1 [] e Hc1; apply Hon in Hc1; cbn [cf_dir] in Hc1; [|done].
  m_step Ho as c2 [] e Hc2; apply Hon in Hc2; [|by eapply temp_only_trans].
  assert (temp_only (cf_dir c) (cf_dir c2)) as Hc by (by eapply temp_only_trans).
  rewrite (M_bind_ok get _ c2 c2 c2 eq_refl) in Ho. cbv beta in Ho.
  m_step Ho as c3 bytes e Hb; unfold lift in Hb; injection Hb as <- _; [|done].
  destruct bytes as [bytes|]; [|by injection Ho as <- _].
  unfold set_current in Ho. m_step Ho as c4 i e Hi; unfold lift in Hi; injection Hi as <- _; [|done].
  by injection Ho as <- _.
Qed.

Context `{!NetParse, !Dial} (env : NetEnv).

Lemma cafe_store_entry_dirs g n n' r :
  cafe_store_entry blake3 g n = (n', r) → temp_only (dir_of g n) (dir_of g n').
Proof.
  unfold cafe_store_entry, mbind, M_bind, get. cbn beta iota.
  destruct (no_cafes n !! g); [by intros [= <- <-]|].
  destruct (CafeStore.open blake3 (mkCafe (dir_of g n) None)) as [c [[]|e]] eqn:Ho;
    intros [= <- <-]; apply cafe_open_dirs in Ho.
  - change (dir_of g (set_cafe g (cf_current c) (set_dir g (cf_dir c) n)))
      with (dir_of g (set_dir g (cf_dir c) n)). by rewrite dir_of_set.
  - by rewrite dir_of_set.
Qed.

Lemma temp_hashes_same readable g n n' r : temp_hashes readable g n = (n', r) → n' = n.
Proof. unfold temp_hashes. destruct (collect_temp_hashes _ _); by intros [= <- <-]. Qed.

Lemma current_manifest_same d d' :
  gd_manifests d' = gd_manifests d → current_manifest_bytes d' = current_manifest_bytes d.
Proof. unfold current_manifest_bytes, current_version. by intros ->. Qed.

Lemma cafe_prepare_ok `{!RedbOps D, !OpenOps D F} readable now g index n n' r :
  cafe_prepare blake3 config env readable now g index n = (n', r) →
  temp_only (dir_of g n) (dir_of g n') ∧
  ∀ old, r = Ok old → ∃ bytes, current_manifest_bytes (dir_of g n) = Ok bytes ∧
    decode_old blake3 bytes = Ok old.
Proof.
  intros Hp. unfold cafe_prepare in Hp.
  m_step Hp as n1 [] e Hc1; apply on_game_dir_inv in Hc1 as (d1 & r1 & Hd & -> & _);
    apply dir_call_id_files in Hd; fold (temp_only (dir_of g n) d1) in Hd; [|by rewrite dir_of_set].
  m_step Hp as n2 [] e Hc2; apply cafe_store_entry_dirs in Hc2; rewrite dir_of_set in Hc2;
    pose proof (temp_only_trans _ _ _ Hd Hc2) as Ht2; [|done].
  rewrite (M_bind_ok (modify _) _ n2 (serve_cafe g n2) () eq_refl) in Hp.
  rewrite (M_bind_ok get _ _ _ _ eq_refl) in Hp. cbv beta in Hp.
  change (dir_of g (serve_cafe g n2)) with (dir_of g n2) in Hp.
  m_step Hp as n3 bytes e Hb; unfold lift in Hb; injection Hb as <- Hb; [|done].
  apply map_err_Ok_inv in Hb. rewrite (current_manifest_same _ _ (proj2 Ht2)) in Hb.
  m_step Hp as n4 old e Ho; unfold lift in Ho; injection Ho as <- Ho; [|done].
  apply map_err_Ok_inv in Ho.
  m_step Hp as n5 temp e Hh; apply temp_hashes_same in Hh as ->; [|done].
  rewrite (M_bind_ok get _ _ _ _ eq_refl) in Hp. cbv beta zeta in Hp.
  change (dir_of g (serve_cafe g n2)) with (dir_of g n2) in Hp.
  m_step Hp as n6 dl e Hdl; unfold zoom, fallible, map_err_m in Hdl;
    destruct (download_missing _ _ _ _ _ _ _ _) as [[w7 d7] r7] eqn:Hmiss; injection Hdl as <- Hr7;
    eapply download_missing_trace in Hmiss; destruct Hmiss as (tr & Hran & _);
    apply cafe_sink_temp in Hran.
  - injection Hp as <- <-. change (dir_of g (set_world w7 (set_dir g d7 (serve_cafe g n2))))
      with (dir_of g (set_dir g d7 (serve_cafe g n2))). rewrite dir_of_set.
    split; [by eapply temp_only_trans|]. intros old' [= <-]. by exists bytes.
  - change (dir_of g (set_world w7 (set_dir g d7 (serve_cafe g n2))))
      with (dir_of g (set_dir g d7 (serve_cafe g n2))). rewrite dir_of_set.
    split; [by eapply temp_only_trans|done].
Qed.


End cafe.
