(* ===== verification/ExecutorLive.v ===== *)
(** * ExecutorLive: a task succeeds when nothing on its own side fails

    The scheduler answers and names peers whose addresses can be parsed, the disk
    of the node does not fail, and an origin that holds the version is configured
    and healthy.  Then, whatever the peers answer, a download of chunks that are
    all this node's share returns, and the task of an IDC ends with every chunk of
    the version in the store and reported. *)

From S2P Require Import Prelude Bytes Text FileIO Redb Manifest.
From S2P Require Import UpdatePlan Storage StorageSpec StorageBatch StorageLive UploadSpec SchedControl.
From S2P Require Import DataPath DataPathSpec DataPathLive CafeStore CafeSpec Merge MergeSpec.
From S2P Require Import Configs AgentControl Executor ExecutorSpec ExecutorTasks.

(** ** The scheduler as an agent sees it *)

(** In the states [L] of the world every call succeeds, and the peers that are
    named have addresses that parse.  Once the node reports what it holds, the world
    is in one of the states [L'], in which its reports still succeed. *)
Class RpcLive {W} `{!NetParse, !ControlRpc W} (node_id : N) (L L' : W → Prop) : Prop := {
  live_reports w : L w → L' w;
  connect_live addr w : L w → ∃ w', rpc_connect addr w = (w', Ok ()) ∧ L w';
  report_task_live r w : L w → ∃ w', rpc_report_task r w = (w', Ok ()) ∧ L w';
  query_peers_live q w : L w → ∃ w' ps, rpc_query_peers q w = (w', Ok ps) ∧ L w' ∧
    ∀ p a, p ∈ ps → a ∈ pe_addrs p → is_Some (parse_socket (pa_addr a));
  report_chunk_live d w : cd_node_id d = node_id → L' w → ∃ w', rpc_report_chunk d w = (w', Ok ()) ∧ L' w';
  report_end_live r w : L' w → ∃ w', rpc_report_task r w = (w', Ok ()) ∧ L' w'
}.

(** ** Sorting and removing duplicates *)

Lemma dedup_nodup l : StronglySorted hash_le l → NoDup (dedup l).
Proof.
  induction l as [|x [|y l] IH]; intros Hs; [constructor|apply NoDup_singleton|].
  change (dedup (x :: y :: l)) with (if decide (x = y) then dedup (y :: l) else x :: dedup (y :: l)).
  apply StronglySorted_inv in Hs as [Hs Hx]. case_decide as Hxy; [by apply IH|].
  apply NoDup_cons. split; [|by apply IH]. rewrite dedup_elem. intros Hin.
  apply StronglySorted_inv in Hs as [_ Hy]. apply Hxy. apply Forall_cons in Hx as [Hle _].
  apply elem_of_cons in Hin as [|Hin]; [done|]. apply (anti_symm hash_le); [done|].
  rewrite Forall_forall in Hy. by apply Hy.
Qed.

Lemma dedup_sort_short (l : list hash32) (X : gset hash32) :
  (∀ h, h ∈ l → h ∈ X) → lenN (dedup (sort_hashes l)) ≤ N.of_nat (base.size X).
Proof.
  intros Hsub. unfold lenN. assert (length (dedup (sort_hashes l)) ≤ base.size X)%nat; [|lia].
  rewrite <- (size_list_to_set (C:=gset hash32)) by apply dedup_nodup, sort_hashes_sorted.
  apply subseteq_size. intros h Hh%elem_of_list_to_set. apply Hsub.
  by rewrite dedup_elem, elem_of_sort_hashes in Hh.
Qed.

(** ** Grouping and spawning *)

Section grouping.
Context `{!NetParse} {W : Type} `{!ControlRpc W} (L : W → Prop) {node_id : N} {L' : W → Prop}.
Context `{!RpcLive node_id L L'}.

Lemma pick_by_hash_elem {A} hash (l : list A) x : pick_by_hash hash l = Some x → x ∈ l.
Proof. apply list_elem_of_lookup_2. Qed.

Lemma pick_by_hash_some {A} hash (l : list A) : l ≠ [] → is_Some (pick_by_hash hash l).
Proof.
  intros Hl. apply lookup_lt_is_Some_2. assert (0 < lenN l) as Hpos.
  { destruct l; [done|]. rewrite lenN_cons. lia. }
  pose proof (N.mod_lt (first_byte hash) (lenN l) ltac:(lia)). unfold lenN in *. lia.
Qed.

Definition addressed_groups (g : Grouping) : Prop :=
  Forall (λ e : PeerTarget * list hash32, is_Some (pt_addr e.1)) (gr_groups g).

Lemma group_hash_live relay_url game_id exclude hash g w :
  L w → addressed_groups g → ∃ w' g', group_hash relay_url game_id exclude hash g w = (w', Ok g') ∧
    L w' ∧ addressed_groups g'.
Proof.
  intros Hw Hg. unfold group_hash.
  destruct (query_peers_live (mkQuery game_id (hash_bytes hash) 5) w Hw) as (w1 & ps & Hq & Hw1 & Hps).
  rewrite (M_bind_ok _ _ _ _ _ Hq).
  destruct (pick_by_hash hash _) as [peer|] eqn:Hpick; [|by exists w1, (add_unresolved hash g)].
  apply pick_by_hash_elem, list_elem_of_filter in Hpick as [Hc Hin]. unfold candidate in Hc.
  apply andb_prop in Hc as [Hc Hid]. apply andb_prop in Hc as [Haddrs _].
  apply negb_true_iff, bool_decide_eq_false in Haddrs.
  destruct (pick_by_hash_some hash (pe_addrs peer) Haddrs) as [a Ha].
  destruct (Hps peer a Hin (pick_by_hash_elem _ _ _ Ha)) as [socket Hsock].
  unfold target_of. rewrite Ha. cbn [mbind option_bind]. rewrite Hsock.
  destruct (parse_endpoint (pe_endpoint_id peer)) as [id|e]; [|done].
  eexists w1, _. split; [done|]. split; [done|]. unfold addressed_groups, add_to_group.
  destruct (gr_index g !! _) as [idx|]; cbn [gr_groups].
  - apply Forall_alter; [exact Hg|]. by intros e _ He.
  - apply Forall_app. split; [exact Hg|]. constructor; [by eexists|done].
Qed.

Lemma group_hashes_live relay_url game_id exclude hashes g w :
  L w → addressed_groups g → ∃ w' g', group_hashes relay_url game_id exclude hashes g w = (w', Ok g') ∧
    L w' ∧ addressed_groups g'.
Proof.
  revert g w. induction hashes as [|hash hashes IH]; intros g w Hw Hg; [by exists w, g|]. cbn.
  destruct (group_hash_live relay_url game_id exclude hash g w Hw Hg) as (w1 & g1 & H1 & Hw1 & Hg1).
  rewrite (M_bind_ok _ _ _ _ _ H1). by apply IH.
Qed.

Lemma spawn_all_live `{!Dial} exchange game_id (g : Grouping) :
  addressed_groups g → (spawn_all exchange game_id (gr_groups g)).2 = None.
Proof.
  unfold addressed_groups. induction 1 as [|group groups [a Ha] _ IH]; [done|]. cbn [spawn_all].
  unfold choose_ep. by rewrite Ha.
Qed.
End grouping.

(** ** A sink that does not fail *)

Section sink.
Context (blake3 : list byte → hash32).
Context {S : Type} (sink : hash32 → list byte → M S error ()).
Context (hs : list hash32) (I : list (hash32 * list byte) → S → Prop).

(** The invariant [I], over the calls so far, makes every verified call succeed. *)
Definition sink_live : Prop := ∀ cs h d s, I cs s → h ∈ hs → blake3 d = h →
  ∃ s', sink h d s = (s', Ok ()) ∧ I (cs ++ [(h, d)]) s'.

Lemma ran_live cs tr s s' :
  sink_live → ran sink tr s s' → Forall (call_ok blake3) tr → map call_hash tr ⊆ hs → I cs s →
  I (cs ++ map fst tr) s' ∧ Forall (λ c : call, c.2 = true) tr.
Proof.
  intros Hlive Hran. revert cs. induction Hran as [s|h d s s1 s2 tr Hs _ IH|h d s s1 s2 e tr Hs _ _];
    intros cs Hv Hsub Hi; cbn [map].
  { by rewrite app_nil_r. }
  all: apply Forall_cons in Hv as [Hv1 Hv]; cbn in Hv1, Hsub.
  all: destruct (Hlive cs h d s Hi) as (s3 & Hs3 & Hi3); [set_solver|done|].
  all: rewrite Hs in Hs3; simplify_eq.
  destruct (IH (cs ++ [(h, d)])) as [Hi' Hall]; [done|set_solver|done|].
  split; [|by constructor]. by rewrite <- app_assoc in Hi'.
Qed.

Lemma recording_run h d s s1 dl :
  sink h d s = (s1, Ok ()) → recording sink h d (s, dl) = ((s1, dl ++ [h]), Ok ()).
Proof. intros Hs. unfold recording, zoom, mbind, M_bind. cbn [fst snd]. by rewrite Hs. Qed.

Lemma sink_all_live cs calls s dl :
  sink_live → Forall (λ c : hash32 * list byte, c.1 ∈ hs ∧ blake3 c.2 = c.1) calls → I cs s →
  ∃ s' dl', sink_all (recording sink) calls (s, dl) = ((s', dl'), Ok ()) ∧ I (cs ++ calls) s'.
Proof.
  intros Hlive Hall. revert cs s dl. induction Hall as [|[h d] calls [Hin Hv] _ IH]; intros cs s dl Hi.
  { exists s, dl. by rewrite app_nil_r. }
  cbn [fst snd] in Hin, Hv. destruct (Hlive cs h d s Hi Hin Hv) as (s1 & Hs1 & Hi1).
  rewrite (sink_all_cons_ok (recording sink) (h, d) calls _ _ (recording_run h d s s1 dl Hs1)).
  destruct (IH (cs ++ [(h, d)]) s1 (dl ++ [h]) Hi1) as (s' & dl' & Hrun & Hi').
  exists s', dl'. split; [exact Hrun|]. by rewrite <- app_assoc in Hi'.
Qed.

(** ** The rounds and the origin *)

Context `{!NetParse, !Dial} {W : Type} `{!ControlRpc W} (L : W → Prop) {node_id : N} {L' : W → Prop}.
Context `{!RpcLive node_id L L'}.
Context (config : AgentConfig) (env : NetEnv).

Lemma run_transfers_returns pick fuel n ts joined t :
  ∃ t' js, run_transfers blake3 sink pick fuel n ts joined t = (t', Ok js).
Proof.
  revert n ts joined t. induction fuel as [|fuel IH]; intros n ts joined t; cbn [run_transfers]; [by eexists _, _|].
  destruct (ts !! _) as [x|]; [|by eexists _, _].
  destruct (tf_progress x) as [rest stats reply|r]; [|apply IH].
  assert (∃ t1 p, transfer_turn blake3 sink (Running rest stats reply) t = (t1, Ok p)) as (t1 & p & Ht).
  { unfold transfer_turn. destruct rest; [by eexists _, _|].
    destruct (fetch_loop _ _ _ _ _) as [[reply1 t1] [st|e]]; by eexists _, _. }
  rewrite (M_bind_ok _ _ _ _ _ Ht). apply IH.
Qed.

Lemma round_live k game_id rd w t :
  L w → ∃ w' t' x, round blake3 config env sink k game_id rd (w, t) = ((w', t'), Ok x) ∧ L w'.
Proof.
  intros Hw. unfold round. case_bool_decide; [by eexists w, t, _|].
  destruct (group_hashes_live L (ac_relay_url config) game_id (rd_exclude rd) (rd_unresolved rd)
    (mkGrouping [] ∅ []) w Hw) as (w1 & g & Hg & Hw1 & Haddr); [constructor|].
  rewrite (M_bind_ok _ _ _ (w1, t) g) by (unfold on_world, zoom; cbn [fst]; by rewrite Hg).
  case_bool_decide; [by eexists w1, t, _|].
  pose proof (spawn_all_live (ne_exchange env k) game_id g Haddr) as Hsp.
  destruct (spawn_all _ _ _) as [ts failed]. cbn [snd] in Hsp. subst failed.
  destruct (run_transfers_returns (ne_pick env k) (turns ts) 0 ts [] t) as (t' & js & Hrun).
  rewrite (M_bind_ok _ _ _ (w1, t') js) by (unfold on_sink, zoom; cbn [snd]; by rewrite Hrun).
  by eexists w1, t', _.
Qed.

Lemma rounds_live game_id missing w t :
  L w → ∃ w' t' rd, rounds blake3 config env sink game_id missing (w, t) = ((w', t'), Ok rd) ∧ L w'.
Proof.
  intros Hw. unfold rounds.
  destruct (round_live 0 game_id (mkRound missing ∅ 0) w t Hw) as (w1 & t1 & x & Hr & Hw1).
  rewrite (M_bind_ok _ _ _ _ _ Hr). destruct x as [rd|rd]; [|by eexists w1, t1, _].
  destruct (round_live 1 game_id rd w1 t1 Hw1) as (w2 & t2 & x2 & Hr2 & Hw2).
  rewrite (M_bind_ok _ _ _ _ _ Hr2). by eexists w2, t2, _.
Qed.

(** The origin that is configured serves [content], every chunk under its hash. *)
Definition origin_serves (game_id : N) (content : gmap hash32 (list byte)) : Prop :=
  ∃ target p, origin_target config = Ok (Some target) ∧ connect_peer target = Ok p ∧
    serves (ne_exchange env 2 target) game_id content ∧
    ∀ h d, content !! h = Some d → blake3 d = h ∧ lenN d < 2^32.

Lemma from_origin_live target p game_id content retry cs w s dl :
  sink_live → connect_peer target = Ok p → serves (ne_exchange env 2 target) game_id content →
  (∀ h d, content !! h = Some d → blake3 d = h ∧ lenN d < 2^32) →
  (∀ h, h ∈ hs → is_Some (content !! h)) → N.of_nat (base.size (list_to_set hs : gset hash32)) < 2^32 →
  retry ⊆ hs → I cs s →
  ∃ s' dl', from_origin blake3 env sink (Some target) game_id retry (w, (s, dl)) =
    (((w : W), (s', dl')), Ok ()).
Proof.
  intros Hlive Hp Hsv Hadd Hall Hsize Hsub Hi. unfold from_origin. case_bool_decide; [by exists s, dl|].
  assert (∀ h, h ∈ dedup (sort_hashes retry) → h ∈ hs) as Hin.
  { intros h. rewrite dedup_elem, elem_of_sort_hashes. apply Hsub. }
  assert (lenN (dedup (sort_hashes retry)) < 2^32) as Hshort.
  { eapply N.le_lt_trans; [|exact Hsize]. apply dedup_sort_short. intros h Hh.
    by apply elem_of_list_to_set, Hsub. }
  destruct (lookup_all content (dedup (sort_hashes retry))) as [ds Hds]; [by intros h Hh; apply Hall, Hin|].
  destruct (zip_lookup _ _ _ Hds) as (_ & _ & Hzip).
  destruct (sink_all_live cs (zip (dedup (sort_hashes retry)) ds) s dl Hlive) as (s' & dl' & Hrun & _); [|done|].
  { eapply Forall_impl; [exact Hzip|]. intros c [Hc1 Hc2]. split; [by apply Hin|by apply Hadd in Hc2 as [? _]]. }
  destruct (fetch_chunks_served blake3 (recording sink) _ target p game_id content _ ds (s, dl) (s', dl')
    Hsv Hp Hshort Hds Hadd Hrun) as (stats & Hf & Hno).
  exists s', dl'. rewrite (M_bind_ok _ _ _ (w, (s', dl')) stats).
  - by rewrite bool_decide_true.
  - unfold on_sink, zoom. cbn [snd]. by rewrite Hf.
Qed.

(** Whatever the peers answer, the download returns: what they did not give, the
    origin gives. *)
Lemma download_live game_id content assigned w s :
  sink_live → L w → ne_bind env = Ok () → origin_serves game_id content →
  (∀ h, h ∈ hs → is_Some (content !! h)) → N.of_nat (base.size (list_to_set hs : gset hash32)) < 2^32 →
  (∀ h, h ∈ hs → h ∈ assigned) → I [] s →
  ∃ w' s' out tr, download_missing blake3 config env sink game_id hs assigned (w, s) = ((w', s'), Ok out) ∧
    L w' ∧ Forall (call_ok blake3) tr ∧ hs ⊆ stored tr ∧ I (map fst tr) s' ∧
    Forall (λ c : call, c.2 = true) tr.
Proof.
  intros Hlive Hw Hbind (target & p & Ho & Hp & Hsv & Hadd) Hall Hsize Hass Hi.
  assert (∃ w' s' out, download_missing blake3 config env sink game_id hs assigned (w, s) =
    ((w', s'), Ok out) ∧ L w') as (w' & s' & out & Hd & Hw').
  { unfold download_missing. case_bool_decide; [by eexists w, s, _|].
    rewrite (M_bind_ok (lift _) _ (w, s) (w, s) (Some target)) by (unfold lift; by rewrite Ho).
    rewrite (M_bind_ok (lift _) _ (w, s) (w, s) ()) by (unfold lift; by rewrite Hbind).
    unfold zoom. cbn [fst snd].
    destruct (rounds_live game_id hs w (s, []) Hw) as (w1 & [s1 dl1] & rd & Hr & Hw1).
    rewrite (M_bind_ok _ _ _ _ _ Hr). cbv zeta.
    apply rounds_ok in Hr as (tr & (Hran & Hv & Hh & _) & Hcov). destruct (Hcov rd eq_refl) as [Hsub _].
    destruct (ran_live [] tr s s1 Hlive Hran Hv Hh Hi) as [Hi1 _].
    assert (filter (.∉ assigned) (rd_unresolved rd) = []) as ->.
    { apply elem_of_nil_inv. intros h [Hn Hin]%list_elem_of_filter. apply Hn, Hass, Hsub, Hin. }
    cbn [bool_decide negb]. rewrite bool_decide_true by done. cbn [negb].
    destruct (from_origin_live target p game_id content (filter (.∈ assigned) (rd_unresolved rd))
      (map fst tr) w1 s1 dl1 Hlive Hp Hsv Hadd Hall Hsize) as (s2 & dl2 & Hf); [|done|].
    { intros h [_ Hin]%list_elem_of_filter. by apply Hsub. }
    rewrite (M_bind_ok _ _ _ _ _ Hf). by eexists w1, s2, _. }
  pose proof (download_missing_trace blake3 sink config env game_id hs assigned w w' s s' (Ok out) Hd)
    as (tr & Hran & Hv & Hh & Hout & _).
  destruct (Hout out eq_refl) as [-> Hmiss].
  destruct (ran_live [] tr s s' Hlive Hran Hv Hh Hi) as [Hi' Hgood].
  by exists w', s', (stored tr), tr.
Qed.

End sink.

(** ** The task of an IDC *)

Lemma add_chunks_new m cs h d : add_chunks m cs !! h = Some d → m !! h = None → (h, d) ∈ cs.
Proof.
  revert m. induction cs as [|[h' d'] cs IH]; intros m Hd Hm; cbn in Hd; [by rewrite Hm in Hd|].
  destruct (decide (add_chunk m (h', d') !! h = None)) as [Hn|Hs]; [right; by eapply IH|].
  assert (add_chunk m (h', d') !! h = Some d') as Hh.
  { unfold add_chunk in *. cbn [fst snd] in *. destruct (m !! h') eqn:Hm'; [by rewrite Hm in Hs|].
    destruct (decide (h' = h)) as [->|Hne]; [by rewrite lookup_insert_eq|].
    by rewrite lookup_insert_ne, Hm in Hs. }
  assert (h' = h) as ->.
  { unfold add_chunk in Hh. cbn [fst snd] in Hh. destruct (m !! h') eqn:Hm'; [by rewrite Hm in Hh|].
    apply lookup_insert_Some in Hh as [[? _]|[_ Hh]]; [done|]. by rewrite Hm in Hh. }
  apply elem_of_cons. left. f_equal. eapply (lookup_weaken _ (add_chunks (add_chunk m (h, d')) cs)) in Hh;
    [|apply add_chunks_mono]. change (foldl add_chunk (add_chunk m (h, d')) cs) with
      (add_chunks (add_chunk m (h, d')) cs) in Hd. congruence.
Qed.

Lemma sizes_le B (cs : list (hash32 * list byte)) :
  Forall (λ c : hash32 * list byte, lenN c.2 ≤ B) cs → sizes cs ≤ B * lenN cs.
Proof. induction 1 as [|c cs Hc _ IH]; [cbn; lia|]. rewrite lenN_cons. cbn [sizes]. lia. Qed.

Section idc.
Context (blake3 : list byte → hash32).
Context {D F : Type} `{RedbLaws D, FileLaws F, !CompioOps F, !OpenOps D F, !RedbHealthy D}.
Implicit Types (m : gmap hash32 (list byte)).

Section sink.
Context (store : GameStore D F) m (X : gset hash32) (B : N).
Hypothesis (Hroom : gs_size store + B * (N.of_nat (base.size X) + IDC_BATCH_SIZE) < 2^32).

(** What was received, with [n] chunks or less still to be written: the store has
    the others, and its end has moved by what it did not have. *)
Definition idc_inv (n : nat) (cs : list (hash32 * list byte)) (st : GameStore D F * list (hash32 * list byte)) :
    Prop :=
  ∃ flushed, cs = flushed ++ st.2 ∧ represents st.1 (add_chunks m flushed) ∧ healthy st.1 ∧
    gs_size st.1 + total m = gs_size store + total (add_chunks m flushed) ∧
    (length st.2 ≤ n)%nat ∧ Forall (λ c : hash32 * list byte, c.1 ∈ X ∧ lenN c.2 ≤ B) cs.

Lemma idc_inv_room cs st : idc_inv 64 cs st → gs_size st.1 + sizes st.2 < 2^32.
Proof.
  intros (flushed & -> & _ & _ & Hsz & Hn & Hall). apply Forall_app in Hall as [Hf Hp].
  assert (total (add_chunks m flushed) ≤ total m + B * N.of_nat (base.size X)) as Ht.
  { apply total_added; [apply add_chunks_mono|]. intros h d Hd Hm.
    rewrite Forall_forall in Hf. by apply (Hf (h, d)), add_chunks_new with m. }
  assert (sizes st.2 ≤ B * lenN st.2) as Hs.
  { apply sizes_le. eapply Forall_impl; [exact Hp|]. by intros c [_ ?]. }
  assert (B * lenN st.2 ≤ B * IDC_BATCH_SIZE) as Hb.
  { apply N.mul_le_mono_l. unfold lenN, IDC_BATCH_SIZE. lia. }
  lia.
Qed.

Lemma flush_pending_live cs st :
  idc_inv 64 cs st → ∃ st', flush_pending st = (st', Ok ()) ∧ idc_inv 0 cs st'.
Proof.
  intros Hi. pose proof (idc_inv_room _ _ Hi) as Hb. destruct Hi as (flushed & -> & Hr & Hh & Hsz & Hn & Hall).
  destruct st as [g batch]. cbn [fst snd] in *. unfold flush_pending.
  rewrite (M_bind_ok get _ _ _ _ eq_refl). cbv zeta.
  rewrite (M_bind_ok (modify _) _ _ _ () eq_refl). cbn [fst snd].
  case_bool_decide as Hnil.
  { exists (g, []). split; [done|]. exists flushed. subst batch. by split_and!. }
  destruct (append_chunks_batch_healthy g _ batch Hr Hh Hb) as (g' & out & Ha & Hh').
  pose proof (append_chunks_batch_total _ _ _ _ _ Hr Hb Ha) as Ht.
  pose proof (append_chunks_batch_refines _ _ _ _ _ Hr Hb Ha) as [Hr' _].
  exists (g', []). split; [unfold zoom, mbind, M_bind; cbn [fst snd]; by rewrite Ha|].
  exists (flushed ++ batch). rewrite app_nil_r, add_chunks_app. cbn [fst snd length].
  split_and!; [done..|lia|lia|done].
Qed.

Lemma idc_sink_live (hs : list hash32) :
  (∀ h d, h ∈ hs → blake3 d = h → h ∈ X ∧ lenN d ≤ B) →
  sink_live blake3 idc_sink hs (idc_inv 63).
Proof.
  intros Hbound cs h d st (flushed & -> & Hr & Hh & Hsz & Hn & Hall) Hin Hv. unfold idc_sink.
  rewrite (M_bind_ok (modify _) _ _ (st.1, st.2 ++ [(h, d)]) () eq_refl).
  rewrite (M_bind_ok get _ _ _ _ eq_refl). cbn [fst snd].
  assert (idc_inv 64 ((flushed ++ st.2) ++ [(h, d)]) (st.1, st.2 ++ [(h, d)])) as Hi.
  { exists flushed. cbn [fst snd]. rewrite length_app. cbn [length]. split_and!; [by rewrite app_assoc|done..|lia|].
    apply Forall_app. split; [done|]. constructor; [by apply Hbound|done]. }
  destruct (N.leb_spec IDC_BATCH_SIZE (lenN (st.2 ++ [(h, d)]))) as [Hle|Hlt].
  - destruct (flush_pending_live _ _ Hi) as (st' & Hf & Hi'). exists st'. split; [done|].
    destruct Hi' as (fl & ? & ? & ? & ? & Hz & ?). exists fl. split_and!; [done..|lia|done].
  - eexists. split; [done|]. destruct Hi as (fl & ? & ? & ? & ? & _ & ?). exists fl. split_and!; try done.
    cbn [fst snd]. unfold lenN, IDC_BATCH_SIZE in Hlt. lia.
Qed.

End sink.

Context `{!NetParse, !Dial, !SetIter, !SetIterLaws, !DirOps F, !MapIter}.
Context {W : Type} `{!ControlRpc W} (L : W → Prop) {L' : W → Prop}.
Context (config : AgentConfig) (node_id : N) (env : NetEnv) `{!RpcLive node_id L L'}.

Lemma idc_missing_live (store : GameStore D F) m hashes :
  represents store m → healthy store →
  idc_missing store hashes = Ok (filter (λ h, m !! h = None) hashes).
Proof.
  intros Hr Hs. assert (∃ missing, idc_missing store hashes = Ok missing) as [missing Hm].
  { induction hashes as [|h hashes [rest IH]]; [by eexists|]. cbn. unfold GameStore_contains.
    destruct (lookup_index_healthy store m h Hr Hs) as [found ->]. cbn. rewrite IH. cbn. by eexists. }
  by rewrite Hm, (idc_missing_ok _ _ _ _ Hr Hm).
Qed.

Lemma report_chunks_live g hashes w :
  L' w → ∃ w', report_chunks node_id g hashes w = (w', Ok ()) ∧ L' w'.
Proof.
  revert w. induction hashes as [|h hashes IH]; intros w Hw; [by exists w|]. cbn [report_chunks].
  destruct (report_chunk_live (mkDone node_id g (hash_bytes h)) w eq_refl Hw) as (w1 & Hrc & Hw1).
  rewrite (M_bind_ok _ _ _ w1 ()) by (unfold context_m, map_err_m; by rewrite Hrc). by apply IH.
Qed.

Lemma control_report_live task_id status err w :
  L w → ∃ w', control_report_task node_id task_id status err w = (w', Ok ()) ∧ L w'.
Proof.
  intros Hw. destruct (report_task_live (mkReport node_id task_id status err) w Hw) as (w' & Hr & Hw').
  exists w'. split; [|done]. unfold control_report_task, context_m, map_err_m. by rewrite Hr.
Qed.

Lemma control_report_end task_id status err w :
  L' w → ∃ w', control_report_task node_id task_id status err w = (w', Ok ()) ∧ L' w'.
Proof.
  intros Hw. destruct (report_end_live (mkReport node_id task_id status err) w Hw) as (w' & Hr & Hw').
  exists w'. split; [|done]. unfold control_report_task, context_m, map_err_m. by rewrite Hr.
Qed.

Lemma control_connect_live addr w : L w → ∃ w', connect addr w = (w', Ok ()) ∧ L w'.
Proof.
  intros Hw. destruct (connect_live addr w Hw) as (w' & Hc & Hw'). exists w'. split; [|done].
  unfold connect. cbn [connect_loop]. unfold attempt, mbind, M_bind. by rewrite Hc.
Qed.

Lemma with_world_ok {A} (rpc : M W error A) (n : Node W D F) w a :
  rpc (no_world n) = (w, Ok a) → with_world rpc n = (set_world w n, Ok a).
Proof. intros Hr. unfold with_world, zoom, fallible, map_err_m. by rewrite Hr. Qed.

(** Opening the store does not depend on the scheduler. *)
Lemma idc_store_world g w (n n0 : Node W D F) store :
  idc_store g n = (n0, Ok store) → idc_store g (set_world w n) = (set_world w n0, Ok store).
Proof.
  unfold idc_store. intros Hs. rewrite (M_bind_ok get _ _ _ _ eq_refl) in Hs.
  rewrite (M_bind_ok get _ _ _ _ eq_refl). cbn [no_packs no_disk set_world].
  destruct (no_packs n !! g); [by injection Hs as <- <-|].
  unfold lift, mbind, M_bind in *. destruct (Storage.open _ g); [by injection Hs as <- <-|done].
Qed.

Lemma idc_store_no_world g (n n0 : Node W D F) store :
  idc_store g n = (n0, Ok store) → no_world n0 = no_world n.
Proof.
  unfold idc_store. intros Hs. rewrite (M_bind_ok get _ _ _ _ eq_refl) in Hs.
  destruct (no_packs n !! g); [by injection Hs as <- <-|].
  unfold lift, mbind, M_bind in Hs. destruct (Storage.open _ g); [by injection Hs as <- <-|done].
Qed.

(** What an IDC needs for the chunks of a version: its store is open and healthy
    and has the room, the missing chunks are its share, the configured origin
    serves them, and the hashes bind their lengths. *)
Record idc_ready (task : Task) (index : GameIndex) (n n0 : Node W D F) (store : GameStore D F) m
    (content : gmap hash32 (list byte)) (B : N) : Prop := {
  ir_store : idc_store (pt_game_id task) n = (n0, Ok store);
  ir_represents : represents store m;
  ir_healthy : healthy store;
  ir_few : N.of_nat (base.size (chunk_set index)) < 2^32;
  ir_room : gs_size store + B * (N.of_nat (base.size (chunk_set index)) + IDC_BATCH_SIZE) < 2^32;
  ir_binds h d : h ∈ chunk_set index → blake3 d = h → lenN d ≤ B;
  ir_bind : ne_bind env = Ok ();
  ir_origin : origin_serves blake3 config env (pt_game_id task) content;
  ir_content h : h ∈ chunk_set index → m !! h = None → is_Some (content !! h);
  ir_share h : h ∈ chunk_set index → m !! h = None → hash_bytes h ∈ pt_assigned_chunks task
}.

Lemma idc_missing_hashes m index h :
  h ∈ sort_hashes (filter (λ h, m !! h = None) (set_iter (chunk_set index))) ↔
  m !! h = None ∧ h ∈ chunk_set index.
Proof. by rewrite elem_of_sort_hashes, list_elem_of_filter, elem_of_set_iter. Qed.

Lemma idc_download_live task index n n0 store m content B w :
  let hs := sort_hashes (filter (λ h, m !! h = None) (set_iter (chunk_set index))) in
  L w → idc_ready task index n n0 store m content B →
  ∃ w' store' tr, idc_download blake3 config env (pt_game_id task) hs
      (list_to_set (omap hash_of (pt_assigned_chunks task))) (w, (store, [])) = ((w', (store', [])), Ok ()) ∧
    L w' ∧ Forall (call_ok blake3) tr ∧ hs ⊆ stored tr ∧ represents store' (add_chunks m (map fst tr)) ∧ healthy store'.
Proof.
  intros hs Hw [Hst Hr Hh Hfew Hroom Hbinds Hbind Horg Hcon Hshare]. pose proof (idc_missing_hashes m index) as Hhs.
  fold hs in Hhs.
  assert (N.of_nat (base.size (list_to_set hs : gset hash32)) < 2^32) as Hsize.
  { eapply N.le_lt_trans; [|exact Hfew]. assert (base.size (list_to_set hs : gset hash32) ≤
      base.size (chunk_set index))%nat; [|lia]. apply subseteq_size.
    by intros h [_ Hin]%elem_of_list_to_set%Hhs. }
  destruct (download_live blake3 idc_sink hs (idc_inv store m (chunk_set index) B 63) L config env
    (pt_game_id task) content (list_to_set (omap hash_of (pt_assigned_chunks task))) w (store, []))
    as (w1 & [g1 b1] & out & tr & Hd & Hw1 & Hv & Hall & Hi & _); [|done|done|done| |done| | |].
  { apply idc_sink_live; [done|]. intros h d [_ Hin]%Hhs Hb. split; [done|by eapply Hbinds]. }
  { intros h [Hn Hin]%Hhs. by apply Hcon. }
  { intros h [Hn Hin]%Hhs. apply elem_of_list_to_set, list_elem_of_omap. exists (hash_bytes h).
    split; [by apply Hshare|apply hash_of_bytes]. }
  { exists []. cbn [fst snd length]. split_and!; [done..|lia|constructor]. }
  destruct (flush_pending_live store m (chunk_set index) B Hroom (map fst tr) (g1, b1)) as ([g2 b2] & Hf & Hi2).
  { destruct Hi as (fl & ? & ? & ? & ? & ? & ?). exists fl. split_and!; [done..|cbn in *; lia|done]. }
  destruct Hi2 as (fl & Hfl & Hr2 & Hh2 & _ & Hnil & _). cbn [fst snd] in Hr2, Hh2, Hnil, Hfl.
  destruct b2; [|cbn in Hnil; lia]. rewrite app_nil_r in Hfl. subst fl.
  exists w1, g2, tr. split; [|done].
  unfold idc_download. rewrite (M_bind_ok _ _ _ _ _ Hd). unfold zoom. cbn [fst snd]. by rewrite Hf.
Qed.

Lemma run_idc_live task index n n0 store m content B :
  L (no_world n) → idc_ready task index n n0 store m content B →
  ∃ n' store' m' w, run_idc blake3 config node_id env task index n = (n', Ok ()) ∧
    no_packs n' !! pt_game_id task = Some store' ∧ represents store' m' ∧ m ⊆ m' ∧
    (∀ h, h ∈ chunk_set index → is_Some (m' !! h)) ∧
    (addressed blake3 m → addressed blake3 m') ∧ healthy store' ∧ L w ∧ L' (no_world n') ∧
    report_chunks node_id (pt_game_id task) (held index) w = (no_world n', Ok ()).
Proof.
  intros Hw Hready. pose proof (ir_store _ _ _ _ _ _ _ _ Hready) as Hst. unfold run_idc. cbv zeta.
  rewrite (M_bind_ok _ _ _ _ _ Hst).
  rewrite (M_bind_ok (lift _) _ n0 n0 (filter (λ h, m !! h = None) (set_iter (chunk_set index))))
    by (unfold lift; by rewrite (idc_missing_live store m) by apply Hready).
  destruct (idc_download_live task index n n0 store m content B (no_world n0))
    as (w1 & g2 & tr & Hdl & Hw1 & Hv & Hall & Hr2 & Hh2); [by rewrite (idc_store_no_world _ _ _ _ Hst)|done|].
  rewrite (M_bind_ok _ _ _ (set_world w1 (set_pack_store (pt_game_id task) g2 n0)) ())
    by (unfold zoom, fallible, map_err_m; by rewrite Hdl).
  destruct (report_chunks_live (pt_game_id task) (held index) w1 (live_reports w1 Hw1)) as (w2 & Hrep & Hw2).
  rewrite (with_world_ok _ _ w2 ()) by exact Hrep.
  eexists _, g2, (add_chunks m (map fst tr)), w1.
  split; [done|]. split; [cbn; by rewrite lookup_insert_eq|]. split; [done|].
  split; [apply add_chunks_mono|]. split; [|split; [|by split_and!]].
  - intros h Hin. destruct (m !! h) as [d|] eqn:Hm.
    { exists d. eapply lookup_weaken; [exact Hm|apply add_chunks_mono]. }
    assert (h ∈ stored tr) as Hs by (by apply Hall, idc_missing_hashes).
    apply list_elem_of_omap in Hs as ([[h' d] b] & Hin' & Hb). cbn in Hb. destruct b; [|done].
    injection Hb as ->. apply (add_chunks_elem m (map fst tr) (h, d)).
    by apply (list_elem_of_fmap_2 fst) in Hin'.
  - intros Ha. apply add_chunks_addressed; [done|]. apply Forall_fmap.
    eapply Forall_impl; [exact Hv|]. by intros [[? ?] ?].
Qed.

(** The scheduler has the version of the task. *)
Definition version_known (task : Task) (manifest : list byte) : Prop := ∀ w, L w →
  ∃ w' number, rpc_get_version (pt_game_id task) (pt_version task) w =
    (w', Ok (mkVersionInfo true number manifest)) ∧ L w'.

(** Up to the manifest. *)
Lemma run_task_started readable now task manifest index addr n :
  L (no_world n) → ac_control_addr config = Some addr → version_known task manifest →
  Manifest.decode blake3 manifest = Ok index →
  ∃ w, L w ∧ run_task blake3 config node_id env readable now task n =
    run_and_report blake3 config node_id env readable now task index manifest (set_world w n).
Proof.
  intros Hw Ha Hv Hdec. unfold run_task. rewrite Ha.
  destruct (control_connect_live addr (no_world n) Hw) as (w1 & Hc & Hw1).
  rewrite (M_bind_ok _ _ _ _ _ (with_world_ok _ n w1 () Hc)).
  destruct (control_report_live (pt_id task) "running" "" w1 Hw1) as (w2 & Hr & Hw2).
  rewrite (M_bind_ok _ _ _ _ _ (with_world_ok _ (set_world w1 n) w2 () Hr)).
  destruct (Hv w2 Hw2) as (w3 & number & Hg & Hw3).
  assert (control_version (pt_game_id task) (pt_version task) w2 = (w3, Ok (Some manifest))) as Hcv.
  { unfold control_version, context_m, map_err_m, mbind, M_bind. by rewrite Hg. }
  rewrite (M_bind_ok _ _ _ _ _ (with_world_ok _ (set_world w2 (set_world w1 n)) w3 _ Hcv)).
  exists w3. split; [done|]. unfold lift, mbind, M_bind. cbn [ok_or map_err]. by rewrite Hdec.
Qed.

(** The run of the task, with the state it leaves the scheduler in. *)
Lemma idc_task_live readable now task manifest index addr n n0 store m content B :
  L (no_world n) → ac_control_addr config = Some addr → ac_node_type config = Idc →
  version_known task manifest → Manifest.decode blake3 manifest = Ok index →
  idc_ready task index n n0 store m content B →
  ∃ n' store' m' w1 w2, run_task blake3 config node_id env readable now task n = (n', Ok ()) ∧
    no_packs n' !! pt_game_id task = Some store' ∧ represents store' m' ∧ m ⊆ m' ∧
    (∀ h, h ∈ chunk_set index → is_Some (m' !! h)) ∧ (addressed blake3 m → addressed blake3 m') ∧ healthy store' ∧ L w1 ∧ L' (no_world n') ∧
    report_chunks node_id (pt_game_id task) (held index) w1 = (w2, Ok ()) ∧
    control_report_task node_id (pt_id task) "done" "" w2 = (no_world n', Ok ()).
Proof.
  intros Hw Ha Ht Hv Hdec Hready.
  destruct (run_task_started readable now task manifest index addr n Hw Ha Hv Hdec) as (w & Hw1 & ->).
  assert (idc_ready task index (set_world w n) (set_world w n0) store m content B) as Hready'
    by (destruct Hready; split; try done; by apply idc_store_world).
  destruct (run_idc_live task index (set_world w n) (set_world w n0) store m content B Hw1 Hready')
    as (n1 & store' & m' & w1 & Hrun & Hp & Hr & Hsub & Hall & Hadd & Hh & Hw1' & Hw2 & Hrep).
  unfold run_and_report, run_node. rewrite Ht, Hrun.
  destruct (control_report_end (pt_id task) "done" "" (no_world n1) Hw2) as (w2 & Hd & Hw3).
  rewrite (with_world_ok _ n1 w2 () Hd).
  by exists (set_world w2 n1), store', m', w1, (no_world n1).
Qed.

(** C10: The task of an IDC completes.  The scheduler answers and has the version,
    the node's store and disk are healthy and have the room, every chunk the store
    lacks is this node's share and held by the configured origin, whose data plane
    serves it.  Then, whatever the peers that are named answer and however their
    transfers interleave, [run_task] returns; the store then holds every chunk of the
    version besides all it held, and the chunks and the end of the task have been
    reported. *)
Theorem idc_task_completes readable now task manifest index addr n n0 store m content B :
  L (no_world n) → ac_control_addr config = Some addr → ac_node_type config = Idc →
  version_known task manifest → Manifest.decode blake3 manifest = Ok index →
  idc_ready task index n n0 store m content B →
  ∃ n' store' m' w1 w2, run_task blake3 config node_id env readable now task n = (n', Ok ()) ∧
    no_packs n' !! pt_game_id task = Some store' ∧ represents store' m' ∧ m ⊆ m' ∧
    (∀ h, h ∈ chunk_set index → is_Some (m' !! h)) ∧ (addressed blake3 m → addressed blake3 m') ∧
    report_chunks node_id (pt_game_id task) (held index) w1 = (w2, Ok ()) ∧
    control_report_task node_id (pt_id task) "done" "" w2 = (no_world n', Ok ()).
Proof.
  intros Hw Ha Ht Hv Hdec Hready.
  destruct (idc_task_live readable now task manifest index addr n n0 store m content B Hw Ha Ht Hv Hdec Hready)
    as (n' & store' & m' & w1 & w2 & Hrun & Hp & Hr & Hsub & Hall & Hadd & _ & _ & _ & Hrep).
  by exists n', store', m', w1, w2.
Qed.

End idc.

(** ** An example: a peer that lies, and an origin

    The scheduler names one peer, which answers every request with a wrong chunk;
    the origin of UploadSpec's example has the chunk. *)

#[local] Instance Idc_parse : NetParse := {| parse_socket := Some; parse_endpoint := Ok |}.
#[local] Existing Instance Map_source.
#[local] Existing Instance Map_source_laws.
#[local] Existing Instance Loopback.

(** A hash that tells the length of short data. *)
Definition short_hash (d : list byte) : hash32 :=
  if (length d <=? 64)%nat then toy_hash d else hash_rep x00.
Definition live_index : GameIndex :=
  build short_hash [mkFile "a.bin" up_hash [mkChunk up_hash (lenN up_data)]].
Definition live_manifest : list byte := Manifest.encode live_index.
Definition liar : Peer := mkPeer 9 "liar" [mkPAddr "10.0.0.9:42001" "config" ""] false.

#[local] Instance Live_rpc : ControlRpc (list string) := {|
  rpc_connect _ := mret ();
  rpc_register _ := throw ["unused"%string];
  rpc_heartbeat _ _ := mret ();
  rpc_report_task r := modify (λ log, log ++ [tr_status r]);
  rpc_report_chunk _ := modify (λ log, log ++ ["chunk"%string]);
  rpc_query_peers _ := mret [liar];
  rpc_get_version _ v := mret (mkVersionInfo true v live_manifest)
|}.
#[local] Instance Live_rpc_live : RpcLive 3 (λ _ : list string, True) (λ _, True).
Proof.
  split; intros; try done; try (by eexists). exists w, [liar]. split_and!; [done..|]. intros p a _ _. by eexists.
Qed.

Definition live_config : AgentConfig :=
  agent_defaults (mkAgentToml Idc "data" None None None None None None None
    (Some "origin"%string) (Some "10.0.0.1:42001"%string) None None None None (Some "http://scheduler"%string)).
Definition live_origin : DataState MemDb MemFile (ControlService MemDb) (gmap hash32 (list byte)) :=
  mkData origin1 ∅ (mkConn [] []).
Definition live_env : NetEnv :=
  mkNet (Ok ()) (λ k _, if Nat.eqb k 2 then answering true live_origin else λ _, Ok (frame [x00]))
    (λ _ n, n) (λ _, 0%nat).
Definition live_task : Task := mkPTask 1 7 2 0 [hash_bytes up_hash].
Definition live_node : Node (list string) MemDb MemFile := mkNode [] ∅ {[7 := mem_store]} ∅ ∅ ∅.

Lemma live_chunk h : h ∈ chunk_set live_index ↔ h = up_hash.
Proof.
  unfold chunk_set. rewrite elem_of_list_to_set.
  change (chunk_list live_index) with [up_hash]. apply list_elem_of_singleton.
Qed.

Lemma live_ready : idc_ready short_hash live_config live_env live_task live_index live_node live_node
  mem_store ∅ (up_ms 7) 64.
Proof.
  assert (base.size (chunk_set live_index) = 1%nat) as Hone by (vm_compute; reflexivity).
  assert (up_ms 7 = {[up_hash := up_data]}) as Hms by reflexivity.
  split.
  - vm_compute. reflexivity.
  - exact mem_store_empty.
  - exact mem_store_healthy.
  - rewrite Hone. vm_compute. reflexivity.
  - rewrite Hone. vm_compute. reflexivity.
  - intros h d ->%live_chunk. unfold short_hash. destruct (Nat.leb_spec (length d) 64) as [Hd|Hd].
    + intros _. unfold lenN. lia.
    + intros Heq. exfalso. revert Heq. apply (bool_decide_unpack _). vm_compute. exact I.
  - reflexivity.
  - exists (mkTarget "origin" (Some "10.0.0.1:42001"%string) None false), Direct. split_and!; [reflexivity..| |].
    + apply (answering_serves true live_origin up_ms 7); [reflexivity|exact origin1_ok| |by intros source].
      apply origin_healthy_open; [apply _|]. vm_compute. by split.
    + intros h d. rewrite Hms. intros [<- <-]%lookup_singleton_Some. vm_compute. by split.
  - intros h ->%live_chunk _. rewrite Hms. by eexists.
  - intros h ->%live_chunk _. left.
Qed.

Lemma idc_task_completes_witness :
  ∃ n' store' m', run_task short_hash live_config 3 live_env (Ok ()) 0 live_task live_node = (n', Ok ()) ∧
    no_packs n' !! 7 = Some store' ∧ represents store' m' ∧ is_Some (m' !! up_hash).
Proof.
  assert (version_known (λ _ : list string, True) live_task live_manifest) as Hv
    by (intros w _; by eexists w, _).
  assert (Manifest.decode short_hash live_manifest = Ok live_index) as Hdec.
  { assert (match Manifest.decode short_hash live_manifest with
      | Ok j => bool_decide (j = live_index) | Err _ => false end = true) as Hb by (vm_compute; reflexivity).
    destruct (Manifest.decode short_hash live_manifest) as [j|]; [|done]. by apply bool_decide_eq_true in Hb as ->. }
  destruct (idc_task_completes short_hash (λ _, True) (L':=λ _, True) live_config 3 live_env (Ok ()) 0 live_task live_manifest
    live_index "http://scheduler"%string live_node live_node mem_store ∅ (up_ms 7) 64 I eq_refl eq_refl Hv Hdec
    live_ready) as (n' & store' & m' & w1 & w2 & Hrun & Hp & Hr & _ & Hall & _).
  exists n', store', m'. split_and!; [exact Hrun|exact Hp|exact Hr|]. by apply Hall, live_chunk.
Defined.
