(* ===== verification/CafeLive.v ===== *)
(** * CafeLive: a cafe installs a version from honest peers

    A cafe has no origin to fall back to: it depends on the peers the scheduler
    names.  When each of them serves the version, the first round of the download
    brings every missing chunk, in whatever order the transfers interleave; the
    merge then builds the files and the version becomes current. *)

From S2P Require Import Prelude Bytes Text FileIO Redb Manifest.
From S2P Require Import UpdatePlan Storage StorageSpec UploadSpec SchedControl.
From S2P Require Import DataPath DataPathSpec DataPathLive CafeStore CafeSpec Merge MergeSpec MergeLive.
From S2P Require Import Configs AgentControl Executor ExecutorSpec ExecutorTasks ExecutorLive.

(** ** Transfers from peers that serve a content *)

Section honest.
Context (blake3 : list byte → hash32).
Context {S : Type} (sink : hash32 → list byte → M S error ()).
Context (content : gmap hash32 (list byte)) (I : list hash32 → S → Prop).
Hypothesis content_addressed : ∀ h d, content !! h = Some d → blake3 d = h ∧ lenN d < 2^32.

(** The sink takes every chunk of the content; [I] is about what it has taken. *)
Hypothesis sink_takes : ∀ dl h d s, I dl s → content !! h = Some d →
  ∃ s', sink h d s = (s', Ok ()) ∧ I (dl ++ [h]) s'.

Definition honest (t : Transfer) : Prop :=
  match tf_progress t with
  | Running rest stats reply => fs_failed stats = [] ∧
      ∃ ds, (λ h, content !! h) <$> rest = Some <$> ds ∧ reply = concat (map frame ds)
  | Finished r => ∃ stats, r = Ok stats ∧ fs_failed stats = []
  end.
Definition joined_honest (j : Joined) : Prop := ∃ stats, j.2 = Ok stats ∧ fs_failed stats = [].

Lemma transfer_turn_honest key hashes rest stats reply t :
  honest (mkTransfer key hashes (Running rest stats reply)) → I t.2 t.1 →
  ∃ t' p, transfer_turn blake3 sink (Running rest stats reply) t = (t', Ok p) ∧
    honest (mkTransfer key hashes p) ∧ I t'.2 t'.1.
Proof.
  intros (Hno & ds & Hds & ->) Hi. cbn in Hno. destruct rest as [|h rest], ds as [|d ds]; try done.
  { exists t, (Finished (Ok stats)). split; [done|]. split; [by exists stats|done]. }
  cbn in Hds. injection Hds as Hd Hds. destruct (content_addressed h d Hd) as [Hh Hl].
  destruct t as [s dl]. cbn [fst snd] in Hi. destruct (sink_takes dl h d s Hi Hd) as (s1 & Hs1 & Hi1).
  pose proof (fetch_loop_honest blake3 (recording sink) [(h, d)] (concat (map frame ds)) [] stats (s, dl)
    (s1, dl ++ [h])) as Hrun.
  cbn [fmap list_fmap fst snd map concat compose app] in Hrun. rewrite app_nil_r in Hrun.
  eexists (s1, dl ++ [h]), _. unfold transfer_turn. cbn [map concat]. rewrite Hrun.
  - split; [done|]. split; [|done]. split; [done|]. by exists ds.
  - constructor; [by split|done].
  - by rewrite (sink_all_cons_ok (recording sink) (h, d) [] _ _ (recording_run sink h d s s1 dl Hs1)).
Qed.

Lemma run_transfers_honest pick fuel n ts joined t :
  Forall honest ts → Forall joined_honest joined → I t.2 t.1 →
  ∃ t' js, run_transfers blake3 sink pick fuel n ts joined t = (t', Ok js) ∧
    Forall joined_honest js ∧ I t'.2 t'.1.
Proof.
  revert n ts joined t. induction fuel as [|fuel IH]; intros n ts joined t Hts Hj Hi; cbn [run_transfers];
    [by eexists _, _|].
  destruct (ts !! _) as [[key hashes p]|] eqn:Hx; [|by eexists _, _].
  pose proof (Forall_lookup_1 _ _ _ _ Hts Hx) as Hh. cbn [tf_progress tf_key tf_hashes].
  destruct p as [rest stats reply|r].
  - destruct (transfer_turn_honest _ _ _ _ _ t Hh Hi) as (t1 & p & Ht & Hp & Hi1).
    rewrite (M_bind_ok _ _ _ _ _ Ht). apply IH; [by apply Forall_insert|done|done].
  - apply IH; [by apply Forall_delete| |done]. apply Forall_app. split; [done|]. by constructor.
Qed.

Lemma joins_honest rate rd js :
  Forall joined_honest js → rd_unresolved (foldl (join_step rate) rd js) = rd_unresolved rd.
Proof.
  intros Hjs. revert rd. induction Hjs as [|[[key hashes] r] js (stats & Hr & Hno) _ IH]; intros rd; [done|].
  cbn in Hr |- *. subst r. rewrite IH. cbn. by rewrite Hno, app_nil_r.
Qed.

(** ** Peers *)

Context `{!NetParse, !Dial} {W : Type} `{!ControlRpc W} (L : W → Prop).
Context (config : AgentConfig) (env : NetEnv).

(** A peer that can be reached serves the content in the first round. *)
Definition serving (game_id : N) (target : PeerTarget) : Prop :=
  is_Some (pt_addr target) ∧ is_ok (connect_peer target) ∧
  serves (ne_exchange env 0 target) game_id content.

(** For every chunk of the content the scheduler names a peer that can be used,
    and every peer it names for it serves the content. *)
Definition peers_serve (game_id : N) : Prop := ∀ h w, is_Some (content !! h) → L w →
  ∃ w' ps, rpc_query_peers (mkQuery game_id (hash_bytes h) 5) w = (w', Ok ps) ∧ L w' ∧
    (∃ p, p ∈ ps ∧ candidate ∅ p = true) ∧
    ∀ p target, p ∈ ps → target_of (ac_relay_url config) h p = Ok target → serving game_id target.

Definition served (game_id : N) (g : Grouping) : Prop :=
  gr_unresolved g = [] ∧ Forall (λ e : PeerTarget * list hash32, serving game_id e.1) (gr_groups g).

Lemma group_hash_honest game_id h g w :
  peers_serve game_id → is_Some (content !! h) → L w → served game_id g →
  ∃ w' g', group_hash (ac_relay_url config) game_id ∅ h g w = (w', Ok g') ∧ L w' ∧ served game_id g'.
Proof.
  intros Hps Hh Hw [Hu Hg]. unfold group_hash.
  destruct (Hps h w Hh Hw) as (w1 & ps & Hq & Hw1 & (p & Hp & Hc) & Hserve).
  rewrite (M_bind_ok _ _ _ _ _ Hq).
  destruct (pick_by_hash_some h (filter (λ p, candidate ∅ p = true) ps)) as [peer Hpick].
  { intros Hnil. assert (p ∈ filter (λ p, candidate ∅ p = true) ps) as Hin by (by apply list_elem_of_filter).
    rewrite Hnil in Hin. by apply elem_of_nil in Hin. }
  rewrite Hpick. apply pick_by_hash_elem, list_elem_of_filter in Hpick as [Hcand Hin].
  destruct (target_of (ac_relay_url config) h peer) as [target|e] eqn:Ht.
  - pose proof (Hserve peer target Hin Ht) as Hgood.
    exists w1, (add_to_group target h g). split; [done|]. split; [done|]. unfold served, add_to_group.
    destruct (gr_index g !! _) as [idx|]; cbn [gr_groups gr_unresolved]; (split; [done|]).
    + by apply Forall_alter.
    + apply Forall_app. split; [done|]. by constructor.
  - exfalso. unfold target_of in Ht. unfold candidate in Hcand. apply andb_prop in Hcand as [_ Hid].
    by destruct (parse_endpoint (pe_endpoint_id peer)).
Qed.

Lemma group_hashes_honest game_id hashes g w :
  peers_serve game_id → (∀ h, h ∈ hashes → is_Some (content !! h)) → L w → served game_id g →
  ∃ w' g', group_hashes (ac_relay_url config) game_id ∅ hashes g w = (w', Ok g') ∧ L w' ∧ served game_id g'.
Proof.
  intros Hps. revert g w. induction hashes as [|h hashes IH]; intros g w Hall Hw Hg; [by exists w, g|]. cbn.
  destruct (group_hash_honest game_id h g w Hps) as (w1 & g1 & Hg1 & Hw1 & Hs1); [apply Hall; by left|done..|].
  rewrite (M_bind_ok _ _ _ _ _ Hg1). apply IH; [|done..]. intros h' Hh'. apply Hall. by right.
Qed.

Lemma spawn_honest game_id (group : PeerTarget * list hash32) :
  serving game_id group.1 → lenN group.2 < 2^32 → (∀ h, h ∈ group.2 → is_Some (content !! h)) →
  honest (spawn (ne_exchange env 0) game_id group).
Proof.
  destruct group as [target hashes]. cbn [fst snd]. intros (_ & Hc & Hsv) Hl Hall. unfold spawn, honest.
  cbn [tf_progress]. case_bool_decide; [by exists stats0|].
  destruct (connect_peer target) as [p|]; [|done]. cbn [mbind result_bind].
  destruct (lookup_all content hashes Hall) as [ds Hds]. rewrite (Hsv hashes ds Hl Hds).
  split; [done|]. by exists ds.
Qed.

Lemma spawn_all_honest game_id groups :
  Forall (λ e : PeerTarget * list hash32, serving game_id e.1) groups →
  Forall (λ e : PeerTarget * list hash32, lenN e.2 < 2^32 ∧ ∀ h, h ∈ e.2 → is_Some (content !! h)) groups →
  ∃ ts, spawn_all (ne_exchange env 0) game_id groups = (ts, None) ∧ Forall honest ts.
Proof.
  induction 1 as [|group groups Hs _ IH]; intros Hall; [by eexists|]. apply Forall_cons in Hall as [[Hl Hc] Hall].
  destruct (IH Hall) as (ts & Hsp & Hh). destruct Hs as [[a Ha] Hrest]. cbn [spawn_all]. unfold choose_ep.
  rewrite Ha, Hsp. eexists. split; [done|]. constructor; [|done]. apply spawn_honest; [|done..].
  split; [by exists a|done].
Qed.

(** ** The download *)

Lemma round_honest game_id missing w s :
  peers_serve game_id → (∀ h, h ∈ missing → is_Some (content !! h)) → lenN missing < 2^32 →
  L w → I [] s → ∃ w' t' x rd, round blake3 config env sink 0 game_id (mkRound missing ∅ 0) (w, (s, [])) =
    ((w', t'), Ok x) ∧ (x = inl rd ∨ x = inr rd) ∧ rd_unresolved rd = [] ∧ L w' ∧ I t'.2 t'.1.
Proof.
  intros Hps Hall Hl Hw Hi. unfold round. cbn [rd_unresolved rd_exclude rd_bytes].
  case_bool_decide as Hnil; [subst missing; by exists w, (s, []), (inr (mkRound [] ∅ 0)), (mkRound [] ∅ 0); auto|].
  destruct (group_hashes_honest game_id missing (mkGrouping [] ∅ []) w Hps Hall Hw) as (w1 & g & Hg & Hw1 & Hu & Hsv);
    [by split|].
  rewrite (M_bind_ok _ _ _ (w1, (s, [])) g) by (unfold on_world, zoom; cbn [fst]; by rewrite Hg).
  rewrite Hu. case_bool_decide as Hg0.
  { exists w1, (s, []), (inr (mkRound [] ∅ 0)), (mkRound [] ∅ 0). auto. }
  assert (grouping_ok (mkGrouping [] ∅ [])) as Hempty by (split; [done|constructor]).
  destruct (group_hashes_ok _ _ _ _ _ _ _ _ Hempty Hg g eq_refl) as [_ Hperm].
  rewrite Hu in Hperm. cbn in Hperm. rewrite app_nil_r in Hperm.
  destruct (spawn_all_honest game_id (gr_groups g) Hsv) as (ts & Hsp & Hts).
  { apply Forall_forall. intros [target hashes] Hin. cbn [snd].
    assert (hashes ⊆+ missing) as Hsub.
    { rewrite <- Hperm. unfold grouped. apply list_elem_of_split in Hin as (l1 & l2 & ->).
      rewrite fmap_app, concat_app. cbn. apply submseteq_inserts_l, submseteq_inserts_r. done. }
    split; [apply submseteq_length in Hsub; unfold lenN in *; lia|].
    intros h Hh. apply Hall. by apply (elem_of_submseteq hashes). }
  rewrite Hsp.
  destruct (run_transfers_honest (ne_pick env 0) (turns ts) 0 ts [] (s, []) Hts) as (t' & js & Hrun & Hjs & Hi');
    [constructor|done|].
  rewrite (M_bind_ok _ _ _ (w1, t') js) by (unfold on_sink, zoom; cbn [snd]; by rewrite Hrun).
  eexists w1, t', _, _. split; [done|]. split; [by left|]. split; [|done]. by rewrite joins_honest.
Qed.

(** Every missing chunk is brought in the first round, and the origin is not needed. *)
Lemma download_honest game_id missing assigned w s :
  peers_serve game_id → (∀ h, h ∈ missing → is_Some (content !! h)) → lenN missing < 2^32 →
  is_ok (origin_target config) → ne_bind env = Ok () → L w → I [] s →
  ∃ w' s' out, download_missing blake3 config env sink game_id missing assigned (w, s) = ((w', s'), Ok out) ∧
    L w' ∧ I out s' ∧ missing ⊆ out.
Proof.
  intros Hps Hall Hl [origin Ho]%is_ok_inv Hb Hw Hi.
  assert (∃ w' s' out, download_missing blake3 config env sink game_id missing assigned (w, s) =
    ((w', s'), Ok out) ∧ L w' ∧ I out s') as (w' & s' & out & Hd & Hw' & Hi').
  { unfold download_missing. case_bool_decide; [by exists w, s, []|].
    rewrite (M_bind_ok (lift _) _ (w, s) (w, s) origin) by (unfold lift; by rewrite Ho).
    rewrite (M_bind_ok (lift _) _ (w, s) (w, s) ()) by (unfold lift; by rewrite Hb).
    destruct (round_honest game_id missing w s Hps Hall Hl Hw Hi)
      as (w1 & [s1 dl1] & x & rd & Hr & Hx & Hu & Hw1 & Hi1). cbn [fst snd] in Hi1.
    assert (rounds blake3 config env sink game_id missing (w, (s, [])) = ((w1, (s1, dl1)), Ok rd)) as Hrs.
    { unfold rounds. rewrite (M_bind_ok _ _ _ _ _ Hr). destruct Hx as [-> | ->]; [|done].
      unfold round. by rewrite bool_decide_true. }
    unfold zoom. cbn [fst snd]. rewrite (M_bind_ok _ _ _ _ _ Hrs). cbv zeta. rewrite Hu.
    by exists w1, s1, dl1. }
  exists w', s', out. split_and!; try done.
  destruct (download_missing_trace blake3 sink config env game_id missing assigned w w' s s' (Ok out) Hd)
    as (tr & _ & _ & _ & Hout & _). by destruct (Hout out eq_refl).
Qed.

End honest.

(** ** The task of a cafe *)

Section cafe.
Context (blake3 : list byte → hash32).
Context {W D F : Type} `{FileLaws F, !CompioOps F, !CompioLaws F, !DirOps F, !DirLaws F, !Quiet F}.
Context `{!RedbOps D, !OpenOps D F, MapIterLaws, SetIterLaws, !NetParse, !Dial, !ControlRpc W}.
Context (L : W → Prop) {L' : W → Prop}.
Context (config : AgentConfig) (node_id : N) (env : NetEnv) `{!RpcLive node_id L L'}.
Context (content : gmap hash32 (list byte)).
Implicit Types (d : GameDir F) (n : Node W D F).

(** *** The blocks of a download *)

(** What was kept and what was taken is in the temporary blocks, and the rest is
    as it was. *)
Definition blocks_of d0 (kept : gset hash32) (dl : list hash32) d : Prop :=
  temp_only d0 d ∧ (∀ name b, gd_temp d !! name = Some b → lenN (f_data (df_file b)) < 2^32) ∧
  ∀ h, h ∈ kept ∨ h ∈ dl → ∃ b, gd_temp d !! block_name h = Some b ∧ f_healthy (df_file b) ∧
    content !! h = Some (f_data (df_file b)).

Lemma cafe_sink_takes now d0 kept dl h bs d :
  blocks_of d0 kept dl d → lenN bs < 2^32 → content !! h = Some bs →
  ∃ d', cafe_sink now h bs d = (d', Ok ()) ∧ blocks_of d0 kept (dl ++ [h]) d'.
Proof.
  intros (Ho & Hs & Hb) Hl Hc. unfold cafe_sink.
  destruct (q_write_file (df_file <$> gd_temp d !! block_name h) bs) as (f & Hw & Hh).
  rewrite Hw. pose proof (fs_write_file_ok _ _ _ Hw) as (f' & [= <-] & Hf).
  eexists. split; [done|]. split; [exact Ho|]. cbn [gd_temp set_temp]. split.
  - intros name b. destruct (decide (name = block_name h)) as [->|Hne].
    + rewrite lookup_partial_alter_eq. intros [= <-]. cbn. by rewrite Hf.
    + rewrite lookup_partial_alter_ne by done. apply Hs.
  - intros h' Hh'. destruct (decide (h' = h)) as [->|Hne].
    + rewrite lookup_partial_alter_eq. eexists. split; [done|]. cbn. by rewrite Hf.
    + rewrite lookup_partial_alter_ne by (by intros ->%block_name_inj). apply Hb.
      destruct Hh' as [?|[?|?%list_elem_of_singleton]%elem_of_app]; auto. done.
Qed.

(** *** The state an update starts from *)

(** The manifest the directory calls current is that of [old]; a directory without
    one is at no version. *)
Definition at_version (old : option GameIndex) d : Prop := ∃ bytes,
  current_manifest_bytes d = Ok bytes ∧ decode_old blake3 bytes = Ok old.

(** The temporary blocks an earlier download left: those of the version hold the
    bytes of its chunks. *)
Definition leftover (index : GameIndex) (temp : gset hash32) d : Prop :=
  collect_temp_hashes (Ok ()) d = Some (Ok temp) ∧ blocks_of d (temp ∩ chunk_set index) [] d.

(** A chunk the old version has is not downloaded: it is read from the old file of
    the same name, or from the file where the old version has it, which must stay; or
    [e] is missing, so its chunks are downloaded all the same, and then that file
    must be missing too, lest it is read. *)
Definition reusable (index : GameIndex) (old : option GameIndex) d (e : FileEntry) (h : hash32) : Prop :=
  match global_of old !! h with
  | None => True
  | Some (path, _, _) =>
    (is_Some (own_handle ((λ _, fe_name e) <$> old_files_of old !! fe_name e) d) ∧
     is_Some (m ← (file_chunk_map <$> old_files_of old) !! fe_name e; m !! h)) ∨
    (is_Some (gd_files d !! path) ∧ settled index old d path) ∨
    (gd_files d !! fe_name e = None ∧ gd_files d !! path = None ∧
     (path = fe_name e ∨ settled index old d path))
  end.

Definition same_dir d d' : Prop := temp_only d d' ∧ gd_temp d' = gd_temp d.

Lemma at_version_same old d d' : same_dir d d' → at_version old d → at_version old d'.
Proof.
  intros [[_ Hm] _] (bytes & Hb & Ho). exists bytes. split; [|done].
  unfold current_manifest_bytes, current_version in *. by rewrite Hm.
Qed.

Lemma leftover_same index temp d d' : same_dir d d' → leftover index temp d → leftover index temp d'.
Proof.
  intros [_ Ht] [Hc (_ & Hs & Hb)]. unfold leftover, collect_temp_hashes, blocks_of in *. by rewrite Ht.
Qed.

(** What is downloaded: the chunks neither the old version nor the temporary
    directory has, and every chunk of a file that is missing. *)
Lemma to_download_elem d index old temp h :
  h ∈ cafe_to_download d index (compute index old temp) ↔
  (h ∈ chunk_set index ∧ h ∉ default ∅ (chunk_set <$> old) ∧ h ∉ temp) ∨ h ∈ repair_chunks d index.
Proof.
  unfold cafe_to_download. rewrite dedup_elem, elem_of_sort_hashes, elem_of_app, elem_of_set_iter.
  rewrite (proj1 (compute_chunks_eq index old temp)), elem_of_firsts.
  assert (h ∈ map ck_hash (missing_chunks index old temp) ↔
    h ∈ chunk_set index ∧ h ∉ default ∅ (chunk_set <$> old) ∧ h ∉ temp) as ->.
  { unfold chunk_set at 1. rewrite elem_of_list_to_set, <- map_all_chunks. unfold missing_chunks.
    rewrite !list_elem_of_fmap. setoid_rewrite list_elem_of_filter. split.
    - intros (c & -> & [Ho Ht] & Hc). split; [by exists c|done].
    - intros [(c & -> & Hc) Hn]. by exists c. }
  set_solver.
Qed.

Lemma repair_elem d index h :
  h ∈ repair_chunks d index ↔
  ∃ e c, e ∈ gi_files index ∧ gd_files d !! fe_name e = None ∧ c ∈ fe_chunks e ∧ ck_hash c = h.
Proof.
  unfold repair_chunks. rewrite elem_of_list_to_set, list_elem_of_In, in_flat_map.
  setoid_rewrite <- list_elem_of_In. setoid_rewrite list_elem_of_filter.
  setoid_rewrite list_elem_of_fmap. naive_solver.
Qed.

Lemma to_download_chunk d index old temp h :
  h ∈ cafe_to_download d index (compute index old temp) → h ∈ chunk_set index.
Proof.
  rewrite to_download_elem, repair_elem. intros [[? _]|(e & c & He & _ & Hc & <-)]; [done|].
  apply elem_of_chunk_set, elem_of_chunk_list. by exists e, c.
Qed.

Lemma cafe_open_live old d : at_version old d →
  ∃ c, CafeStore.open blake3 (mkCafe d None) = (c, Ok ()) ∧ same_dir d (cf_dir c).
Proof.
  intros (bytes & Hb & Ho). unfold CafeStore.open. rewrite (M_bind_ok (modify _) _ _ _ () eq_refl).
  assert (∀ msg c, on_dir (dir_call msg id) c =
    (mkCafe (mkGameDir (gd_files (cf_dir c)) (gd_temp (cf_dir c)) (gd_manifests (cf_dir c)) (S (gd_calls (cf_dir c))))
       (cf_current c), Ok ())) as Hon by (intros msg c; unfold on_dir, zoom; by rewrite dir_call_quiet).
  rewrite (M_bind_ok _ _ _ _ _ (Hon _ _)), (M_bind_ok _ _ _ _ _ (Hon _ _)).
  rewrite (M_bind_ok get _ _ _ _ eq_refl).
  rewrite (M_bind_ok (lift _) _ _ (mkCafe (mkGameDir (gd_files d) (gd_temp d) (gd_manifests d)
    (S (S (gd_calls d)))) None) bytes).
  - destruct bytes as [bs|]; [|by eexists]. unfold decode_old in Ho.
    destruct (Manifest.decode blake3 bs) as [i|] eqn:Hdec; [|done].
    unfold set_current, lift, mbind, M_bind. rewrite Hdec. by eexists.
  - unfold lift. cbn [cf_dir cf_current]. unfold current_manifest_bytes, current_version in *.
    cbn [gd_manifests]. by rewrite Hb.
Qed.

Lemma cafe_store_entry_live g old n : at_version old (dir_of g n) →
  ∃ n', cafe_store_entry blake3 g n = (n', Ok ()) ∧ same_dir (dir_of g n) (dir_of g n') ∧
    no_world n' = no_world n.
Proof.
  intros Hd. unfold cafe_store_entry, mbind, M_bind, get. cbn beta iota.
  destruct (no_cafes n !! g); [by exists n|].
  destruct (cafe_open_live _ _ Hd) as (c & -> & Hs). eexists. split; [done|]. split; [|done].
  change (dir_of g (set_cafe g (cf_current c) (set_dir g (cf_dir c) n))) with (dir_of g (set_dir g (cf_dir c) n)).
  by rewrite dir_of_set.
Qed.

(** *** The steps of the task *)

(** The files of the version are made of the content. *)
Definition version_content (index : GameIndex) : Prop := ∀ e, e ∈ gi_files index →
  ∃ ds, Forall2 (λ c bs, content !! ck_hash c = Some bs) (fe_chunks e) ds ∧
    blake3 (mjoin ds) = fe_file_hash e.

(** The installed bytes of a chunk are those of the content. *)
Definition agrees (old : option GameIndex) d : Prop := ∀ o f file h path off len bs,
  old = Some o → f ∈ gi_files o → gd_files d !! fe_name f = Some file → occurs_in f h (path, off, len) →
  content !! h = Some bs → bs = span off len (f_data file).

(** The directory of a cafe at [old] (a first installation, an update, or the
    completion of one that was interrupted): the files of [old] that are there are
    right, the temporary blocks are, the names do not clash, and what the old version
    has of the new one can be reused. *)
Record dir_ready (index : GameIndex) (old : option GameIndex) (temp : gset hash32) d : Prop := {
  dr_old : at_version old d;
  dr_temp : leftover index temp d;
  dr_wf : wf_files (gi_files index);
  dr_clash : no_clash (fe_name <$> gi_files index) (dom (old_files_of old));
  dr_installed : installed blake3 old d;
  dr_agrees : agrees old d;
  dr_reuse e c : e ∈ gi_files index → need_merge (old_files_of old) d e = true →
    c ∈ fe_chunks e → reusable index old d e (ck_hash c)
}.

(** What the task needs besides: the version is made of the content, which the peers
    serve. *)
Record cafe_ready (task : Task) (index : GameIndex) (old : option GameIndex) (temp : gset hash32) n : Prop := {
  cr_dir : dir_ready index old temp (dir_of (pt_game_id task) n);
  cr_few : N.of_nat (base.size (chunk_set index)) < 2^32;
  cr_content h : h ∈ chunk_set index → is_Some (content !! h);
  cr_addressed h bs : content !! h = Some bs → blake3 bs = h ∧ lenN bs < 2^32;
  cr_version : version_content index;
  cr_peers : peers_serve content L config env (pt_game_id task);
  cr_origin : ac_origin_endpoint config = None;
  cr_bind : ne_bind env = Ok ()
}.

Lemma cafe_download_live now task index old temp n d w :
  let g := pt_game_id task in let missing := cafe_to_download d index (compute index old temp) in
  L w → cafe_ready task index old temp n → same_dir (dir_of g n) d →
  ∃ w' d' dl, download_missing blake3 config env (cafe_sink now) g missing ∅ (w, d) = ((w', d'), Ok dl) ∧
    L w' ∧ blocks_of (dir_of g n) (temp ∩ chunk_set index) dl d' ∧ missing ⊆ dl.
Proof.
  intros g missing Hw Hready [Ho2 Ht2]. set (kept := temp ∩ chunk_set index).
  assert (∀ dl h bs d, blocks_of (dir_of g n) kept dl d → content !! h = Some bs →
    ∃ d', cafe_sink now h bs d = (d', Ok ()) ∧ blocks_of (dir_of g n) kept (dl ++ [h]) d') as Htakes.
  { intros dl h bs d1 Hbl Hc. apply cafe_sink_takes; [done| |done]. by apply (cr_addressed _ _ _ _ _ Hready h). }
  apply (download_honest blake3 (cafe_sink now) content (blocks_of (dir_of g n) kept)
    (cr_addressed _ _ _ _ _ Hready) Htakes L config env g missing ∅ w d); try done.
  - apply Hready.
  - intros h Hh%to_download_chunk. by apply (cr_content _ _ _ _ _ Hready).
  - eapply N.le_lt_trans; [|apply (cr_few _ _ _ _ _ Hready)]. apply dedup_sort_short.
    intros h Hh. apply (to_download_chunk d index old temp). unfold cafe_to_download.
    by rewrite dedup_elem, elem_of_sort_hashes.
  - unfold origin_target. by rewrite (cr_origin _ _ _ _ _ Hready).
  - apply Hready.
  - destruct (dr_temp _ _ _ _ (cr_dir _ _ _ _ _ Hready)) as [_ (_ & Hs & Hb)]. split; [done|]. by rewrite Ht2.
Qed.

Lemma cafe_prepare_live now task index old temp n :
  let g := pt_game_id task in
  L (no_world n) → cafe_ready task index old temp n →
  ∃ n' dl, cafe_prepare blake3 config env (Ok ()) now g index n = (n', Ok old) ∧ L (no_world n') ∧
    blocks_of (dir_of g n) (temp ∩ chunk_set index) dl (dir_of g n') ∧
    cafe_to_download (dir_of g n) index (compute index old temp) ⊆ dl.
Proof.
  intros g Hw Hready. pose proof (dr_old _ _ _ _ (cr_dir _ _ _ _ _ Hready)) as Hd. fold g in Hd. unfold cafe_prepare.
  set (d1 := mkGameDir (gd_files (dir_of g n)) (gd_temp (dir_of g n)) (gd_manifests (dir_of g n))
    (S (gd_calls (dir_of g n)))).
  rewrite (M_bind_ok _ _ n (set_dir g d1 n) ())
    by (unfold on_game_dir, zoom, fallible, map_err_m; by rewrite dir_call_quiet).
  destruct (cafe_store_entry_live g old (set_dir g d1 n)) as (n2 & He & Hs2 & Hw2); [by rewrite dir_of_set|].
  rewrite dir_of_set in Hs2. rewrite (M_bind_ok _ _ _ _ _ He).
  assert (same_dir (dir_of g n) (dir_of g n2)) as Hs by (by destruct Hs2 as [[? ?] ?]).
  destruct (at_version_same old _ _ Hs Hd) as (bytes & Hbytes & Hold).
  destruct (leftover_same _ _ _ _ Hs (dr_temp _ _ _ _ (cr_dir _ _ _ _ _ Hready))) as [Htemp _].
  rewrite (M_bind_ok (modify _) _ n2 (serve_cafe g n2) () eq_refl).
  rewrite (M_bind_ok get _ _ _ _ eq_refl). cbv beta. change (dir_of g (serve_cafe g n2)) with (dir_of g n2).
  rewrite (M_bind_ok (lift _) _ _ (serve_cafe g n2) bytes) by (unfold lift; by rewrite Hbytes).
  rewrite (M_bind_ok (lift _) _ _ (serve_cafe g n2) old) by (unfold lift; by rewrite Hold).
  rewrite (M_bind_ok _ _ _ (serve_cafe g n2) temp)
    by (unfold temp_hashes; change (dir_of g (serve_cafe g n2)) with (dir_of g n2); by rewrite Htemp).
  rewrite (M_bind_ok get _ _ _ _ eq_refl). cbv beta zeta. change (dir_of g (serve_cafe g n2)) with (dir_of g n2).
  destruct (cafe_download_live now task index old temp n (dir_of g n2) (no_world n2))
    as (w' & d' & out & Hdl & Hw' & Hb & Hall); [by rewrite Hw2|done|exact Hs|]. fold g in Hdl, Hb.
  rewrite (M_bind_ok _ _ _ (set_world w' (set_dir g d' (serve_cafe g n2))) out)
    by (unfold zoom, fallible, map_err_m; cbn [no_world serve_cafe];
        change (dir_of g (serve_cafe g n2)) with (dir_of g n2); by rewrite Hdl).
  eexists _, out. split; [done|]. split; [done|].
  change (dir_of g (set_world w' (set_dir g d' (serve_cafe g n2)))) with (dir_of g (set_dir g d' (serve_cafe g n2))).
  rewrite dir_of_set. split; [done|]. unfold cafe_to_download, repair_chunks in *.
  destruct Hs as [[<- _] _]. done.
Qed.

(** The version to merge with is well formed: its manifest was decoded. *)
Lemma at_version_wf old d o : at_version old d → old = Some o → wf_files (gi_files o).
Proof.
  intros (bytes & _ & Hd) ->. unfold decode_old in Hd. destruct bytes as [bs|]; [|done].
  apply bind_Ok_inv in Hd as (i & Hi%with_context_Ok_inv & [= ->]). apply decode_Ok_inv in Hi as (body & flags & _ & _ & _ & _ & Hw & _). done.
Qed.

(** The bytes of a chunk are where the merge reads them, once a block holds those
    the old version has not or the file of which is missing. *)
Lemma source_of_block index old d e h bs :
  agrees old d → reusable index old d e h → content !! h = Some bs →
  (h ∉ default ∅ (chunk_set <$> old) ∨ gd_files d !! fe_name e = None →
   ∃ b, gd_temp d !! block_name h = Some b ∧ f_healthy (df_file b) ∧ bs = f_data (df_file b)) →
  source_ready index old d e h bs.
Proof.
  intros Hag Hre Hbs Hblk. unfold reusable in Hre. unfold source_ready.
  set (own := own_handle _ d) in *. set (at_own := (m ← _; m !! h)) in *.
  assert ((own = None ∨ at_own = None) ∨ is_Some own ∧ is_Some at_own) as Hcases
    by (destruct own, at_own; eauto 10).
  destruct Hcases as [Hno|[[p Hown] [[off len] Hm]]].
  - right. split; [done|]. destruct (global_of old !! h) as [[[path off] len]|] eqn:Hg.
    + destruct (global_in_old _ _ _ _ _ Hg) as (o & f & Ho & Hf & Hocc & _).
      destruct Hre as [[[? Ho1] [? Ho2]]|[[[file Hfile] Hset]|(He & Hp & Hset)]].
      * rewrite Ho1, Ho2 in Hno. by destruct Hno.
      * left. exists path, off, len, file. split_and!; [done..|].
        assert (path = fe_name f) as -> by (destruct Hocc as (? & ? & ? & _ & _ & [= -> _ _]); done).
        by apply (Hag o f file h (fe_name f) off len).
      * right. destruct Hblk as (b & ? & ? & ?); [by right|]. exists b. split_and!; [done..|].
        by intros ? ? ? [= <- <- <-].
    + right. destruct Hblk as (b & ? & ? & ?); [|exists b; by split_and!]. left.
      unfold global_of in Hg. destruct old as [o|]; cbn in Hg |- *; [|set_solver].
      rewrite <- build_map_dom, Hg. by intros [].
  - left. subst own at_own. unfold own_handle in Hown. rewrite lookup_fmap in Hm.
    destruct (old_files_of old !! fe_name e) as [prev|] eqn:Hprev; [|done]. cbn in Hown, Hm.
    destruct (gd_files d !! fe_name e) as [file|] eqn:Hfile; [|done].
    exists prev, off, len, file. split_and!; [done..|].
    apply old_files_of_Some in Hprev as (o & Ho & Hprev & Hn). rewrite <- Hn in Hfile.
    apply file_chunk_map_occurs in Hm. by apply (Hag o prev file h (fe_name prev) off len bs).
Qed.

(** The files and the blocks make up the version. *)
Lemma blocks_mergeable task index old temp n dl d :
  cafe_ready task index old temp n → blocks_of (dir_of (pt_game_id task) n) (temp ∩ chunk_set index) dl d →
  cafe_to_download (dir_of (pt_game_id task) n) index (compute index old temp) ⊆ dl →
  mergeable index old d ∧ installed blake3 old d ∧ available blake3 index old d.
Proof.
  intros Hready ([Hf _] & Hs & Hb) Hall. pose proof (cr_dir _ _ _ _ _ Hready) as [Hold _ Hwf Hclash Hin Hag Hre].
  unfold agrees in Hag. rewrite <- Hf in Hag. split; [|split].
  - split; [done| |exact Hs|exact Hclash]. intros o Ho. by eapply at_version_wf.
  - unfold installed. by rewrite Hf.
  - intros e He Hneed. destruct (cr_version _ _ _ _ _ Hready e He) as (ds & Hds & Hh). exists ds. split; [|done].
    apply Forall2_same_length_lookup. split; [by eapply Forall2_length|]. intros i c bs Hc Hbs.
    pose proof (Forall2_lookup_lr _ _ _ _ _ _ Hds Hc Hbs) as Hcont. apply list_elem_of_lookup_2 in Hc.
    apply source_of_block; [done| |done|].
    + specialize (Hre e c He). unfold reusable, own_handle, settled, need_merge in Hre, Hneed |- *. rewrite Hf in Hneed |- *. by apply Hre.
    + intros Hnew. destruct (Hb (ck_hash c)) as (b & ? & ? & ?); [|exists b; split_and!; [done..|congruence]].
      assert (ck_hash c ∈ chunk_set index) as Hc'.
      { apply elem_of_chunk_set, elem_of_chunk_list. by exists e, c. }
      rewrite Hf in Hnew. destruct Hnew as [Hnew|Hmiss].
      * destruct (decide (ck_hash c ∈ temp)); [left; set_solver|]. right.
        apply Hall, to_download_elem. by left.
      * right. apply Hall, to_download_elem. right. apply repair_elem. by exists e, c.
Qed.

Lemma save_manifest_live version manifest index (c : CafeStore F) :
  Manifest.decode blake3 manifest = Ok index → ∃ c', save_manifest blake3 version manifest c = (c', Ok ()).
Proof.
  intros Hdec. unfold save_manifest.
  assert (∀ msg name bs c1, ∃ c2, on_dir (write_manifest msg name bs) c1 = (c2, Ok ())) as Hwm.
  { intros msg name bs c1. unfold on_dir, zoom, write_manifest.
    destruct (q_write_file (gd_manifests (cf_dir c1) !! name) bs) as (f & -> & _). by eexists. }
  assert (∃ c1, on_dir (dir_call "创建清单目录失败" id) c = (c1, Ok ())) as [c1 Hc1]
    by (unfold on_dir, zoom; rewrite dir_call_quiet; by eexists).
  rewrite (M_bind_ok _ _ _ _ _ Hc1).
  destruct (Hwm "写入版本清单失败"%string (manifest_name version) manifest c1) as [c2 Hc2].
  rewrite (M_bind_ok _ _ _ _ _ Hc2).
  destruct (Hwm "写入当前版本号失败"%string CURRENT (str_bytes (dec version)) c2) as [c3 Hc3].
  rewrite (M_bind_ok _ _ _ _ _ Hc3). unfold set_current, lift, mbind, M_bind. rewrite Hdec. by eexists.
Qed.

Lemma cafe_finish_live g version index manifest old n :
  Manifest.decode blake3 manifest = Ok index → mergeable index old (dir_of g n) →
  installed blake3 old (dir_of g n) → available blake3 index old (dir_of g n) → L' (no_world n) →
  ∃ n', cafe_finish blake3 node_id g version index manifest old n = (n', Ok ()) ∧ L' (no_world n').
Proof.
  intros Hdec Hm Hi Ha Hw. unfold cafe_finish.
  destruct (merge_files_live blake3 index old (dir_of g n) Hm Hi Ha) as (d1 & s & Hmerge & Hno & _).
  rewrite (M_bind_ok _ _ _ (set_dir g d1 n) s)
    by (unfold on_game_dir, zoom, fallible, map_err_m; by rewrite Hmerge).
  rewrite bool_decide_true by done. cbn [negb].
  destruct (save_manifest_live version manifest index
    (mkCafe (dir_of g (set_dir g d1 n)) (default None (no_cafes (set_dir g d1 n) !! g))) Hdec) as [c Hsv].
  rewrite (M_bind_ok _ _ _ (set_cafe g (cf_current c) (set_dir g (cf_dir c) (set_dir g d1 n))) ())
    by (unfold on_cafe, zoom, fallible, map_err_m; by rewrite Hsv).
  destruct (report_chunks_live L node_id g (held index) (no_world n) Hw) as (w & Hr & Hw').
  eexists. split; [by apply with_world_ok|done].
Qed.

(** The run of the task, with the state it leaves the scheduler in. *)
Lemma cafe_task_live now task manifest index old temp addr n :
  let g := pt_game_id task in
  L (no_world n) → ac_control_addr config = Some addr → ac_node_type config = Configs.Cafe →
  version_known L task manifest → Manifest.decode blake3 manifest = Ok index →
  cafe_ready task index old temp n →
  ∃ n' w1 w2, run_task blake3 config node_id env (Ok ()) now task n = (n', Ok ()) ∧
    (∀ e, e ∈ gi_files index →
       ∃ f, gd_files (dir_of g n') !! fe_name e = Some f ∧ blake3 (f_data f) = fe_file_hash e) ∧
    (∀ p, p ∈ gone index old → gd_files (dir_of g n') !! p = None) ∧
    no_cafes n' !! g = Some (Some (build_map index)) ∧
    (∃ f v, gd_manifests (dir_of g n') !! manifest_name (pt_version task) = Some f ∧ f_data f = manifest ∧
       gd_manifests (dir_of g n') !! CURRENT = Some v ∧ f_data v = str_bytes (dec (pt_version task))) ∧
    L' (no_world n') ∧ report_chunks node_id g (held index) w1 = (w2, Ok ()) ∧
    control_report_task node_id (pt_id task) "done" "" w2 = (no_world n', Ok ()).
Proof.
  intros g Hw Ha Ht Hv Hdec Hready.
  destruct (run_task_started blake3 L config node_id env (Ok ()) now task manifest index addr n Hw Ha Hv Hdec)
    as (w & Hw1 & ->).
  assert (cafe_ready task index old temp (set_world w n)) as Hready' by (by destruct Hready).
  destruct (cafe_prepare_live now task index old temp (set_world w n) Hw1 Hready') as (n1 & dl & Hp & Hw2 & Hb & Hall).
  destruct (blocks_mergeable _ _ _ _ _ _ _ Hready' Hb Hall) as (Hm & Hi & Hav).
  destruct (cafe_finish_live g (pt_version task) index manifest old n1 Hdec Hm Hi Hav
    (live_reports _ Hw2)) as (n2 & Hf & Hw3).
  pose proof (cafe_finish_inv blake3 node_id g (pt_version task) index manifest old n1 n2 (Ok ()) Hdec Hm)
    as Hinv.
  destruct Hinv as [[_ []]|(Hfiles & Hgone & Hdone)];
    [intros o f file Ho Hin Hfile; by apply (Hi o f file Ho Hin Hfile)|exact Hf|exact I|].
  destruct (Hdone I) as (Hcur & Hman & w1 & Hrep).
  assert (run_node blake3 config node_id env (Ok ()) now task index manifest (set_world w n) = (n2, Ok ())) as Hrun.
  { unfold run_node, run_cafe. rewrite Ht. cbv zeta. by rewrite (M_bind_ok _ _ _ _ _ Hp). }
  unfold run_and_report. rewrite Hrun.
  destruct (control_report_end L node_id (pt_id task) "done" "" (no_world n2) Hw3) as (w2 & Hd & Hw4).
  rewrite (with_world_ok _ n2 w2 () Hd).
  by exists (set_world w2 n2), w1, (no_world n2).
Qed.

(** C11: The task of a cafe completes, be it a first installation, an update, or the
    completion of one that was interrupted.  The scheduler answers, has the version and
    names for each of its chunks a peer that can be used; every peer it names serves
    the version; no call of the file system fails; the installed files, the
    temporary blocks and the parts of the old version the new one reuses are in
    order ([cafe_ready]).  Then, in whatever order the transfers interleave,
    [run_task] returns; every file of the version is there with the hash of its
    entry, those it has dropped are gone, the version is the current one, and its
    chunks and the end of the task have been reported. *)
Theorem cafe_task_completes now task manifest index old temp addr n :
  let g := pt_game_id task in
  L (no_world n) → ac_control_addr config = Some addr → ac_node_type config = Configs.Cafe →
  version_known L task manifest → Manifest.decode blake3 manifest = Ok index →
  cafe_ready task index old temp n →
  ∃ n' w1 w2, run_task blake3 config node_id env (Ok ()) now task n = (n', Ok ()) ∧
    (∀ e, e ∈ gi_files index →
       ∃ f, gd_files (dir_of g n') !! fe_name e = Some f ∧ blake3 (f_data f) = fe_file_hash e) ∧
    (∀ p, p ∈ gone index old → gd_files (dir_of g n') !! p = None) ∧
    no_cafes n' !! g = Some (Some (build_map index)) ∧
    (∃ f v, gd_manifests (dir_of g n') !! manifest_name (pt_version task) = Some f ∧ f_data f = manifest ∧
       gd_manifests (dir_of g n') !! CURRENT = Some v ∧ f_data v = str_bytes (dec (pt_version task))) ∧
    report_chunks node_id g (held index) w1 = (w2, Ok ()) ∧
    control_report_task node_id (pt_id task) "done" "" w2 = (no_world n', Ok ()).
Proof.
  intros g Hw Ha Ht Hv Hdec Hready.
  destruct (cafe_task_live now task manifest index old temp addr n Hw Ha Ht Hv Hdec Hready)
    as (n' & w1 & w2 & Hrun & Hfiles & Hgone & Hcur & Hman & _ & Hrep).
  by exists n', w1, w2.
Qed.

End cafe.

(** ** An example: an update with the help of two peers

    The cafe is at a version of three files, one of which was lost, and kept a block
    of an interrupted download.  The new version changes a.bin, drops c.bin and adds
    b.bin: [llo] is read from the old a.bin, [bye] from c.bin, [he] from the block;
    [who] is downloaded again for the lost file and [tea] because it is new. *)

#[local] Existing Instance Mem_quiet.

Definition who : list byte := [x77; x68; x6f].
Definition tea : list byte := [x74; x65; x61].
Definition pub_chunks : list (list byte) := [he; llo; bye; who; tea].
Definition pub_content : gmap hash32 (list byte) := list_to_map ((λ d, (toy_hash d, d)) <$> pub_chunks).
Definition pub_old : GameIndex :=
  build toy_hash [entry_of "a.bin" [llo]; entry_of "c.bin" [bye]; entry_of "d.bin" [who]].
Definition pub_index : GameIndex :=
  build toy_hash [entry_of "a.bin" [he; llo]; entry_of "b.bin" [bye; he; tea]; entry_of "d.bin" [who]].
Definition pub_manifest : list byte := Manifest.encode pub_index.
Definition pub_peer (id : N) (endpoint : string) : Peer :=
  mkPeer id endpoint [mkPAddr (endpoint ++ ":42001") "config" ""] false.

#[local] Instance Pub_rpc : ControlRpc (list string) := {|
  rpc_connect _ := mret ();
  rpc_register _ := throw ["unused"%string];
  rpc_heartbeat _ _ := mret ();
  rpc_report_task r := modify (λ log, log ++ [tr_status r]);
  rpc_report_chunk _ := modify (λ log, log ++ ["chunk"%string]);
  rpc_query_peers _ := mret [pub_peer 1 "even"; pub_peer 2 "odd"];
  rpc_get_version _ v := mret (mkVersionInfo true v pub_manifest)
|}.
#[local] Instance Pub_parse : NetParse := {| parse_socket := Some; parse_endpoint := Ok |}.
#[local] Instance Pub_dial : Dial := {|
  dial_direct _ _ := Ok (); parse_relay := Ok; dial_relay _ _ := Ok ()
|}.
#[local] Instance Pub_live : RpcLive 4 (λ _ : list string, True) (λ _, True).
Proof.
  split; intros; try done; try (by eexists). exists w, [pub_peer 1 "even"; pub_peer 2 "odd"]. split_and!; [done..|].
  intros p a _ _. by eexists.
Qed.

(** A peer that reads the hashes of a request and answers with their frames. *)
Fixpoint answer_hashes (content : gmap hash32 (list byte)) (fuel : nat) (bs : list byte) : list byte :=
  match fuel, hash_of (take 32 bs) with
  | Datatypes.S fuel, Some h =>
    match content !! h with
    | Some d => frame d ++ answer_hashes content fuel (drop 32 bs)
    | None => []
    end
  | _, _ => []
  end.
Definition pub_exchange (req : list byte) : result error (list byte) :=
  Ok (answer_hashes pub_content (length req) (drop 12 req)).
Definition pub_env : NetEnv := mkNet (Ok ()) (λ _ _, pub_exchange) (λ _ n, n) (λ _, 0%nat).
Definition pub_config : AgentConfig :=
  agent_defaults (mkAgentToml Configs.Cafe "data" None None None None None None None None None None None None
    None (Some "http://scheduler"%string)).
Definition pub_task : Task := mkPTask 1 7 2 1 [].
Definition pub_dir : GameDir MemFile :=
  mkGameDir (list_to_map [("a.bin"%string, FileIO.mkFile llo 3); ("c.bin"%string, FileIO.mkFile bye 3)])
    {[block_name (toy_hash he) := mkDirFile (FileIO.mkFile he 3) 0]}
    (list_to_map [(CURRENT, FileIO.mkFile (str_bytes "1") 3);
                  (manifest_name 1, FileIO.mkFile (Manifest.encode pub_old) 3)]) 0.
Definition pub_node : Node (list string) MemDb MemFile := set_dir 7 pub_dir (mkNode [] ∅ ∅ ∅ ∅ ∅).

Lemma answer_hashes_frames content hs ds fuel :
  (λ h, content !! h) <$> hs = Some <$> ds → (length hs < fuel)%nat →
  answer_hashes content fuel (concat (map hash_bytes hs)) = concat (map frame ds).
Proof.
  revert ds fuel. induction hs as [|h hs IH]; intros [|d ds] [|fuel] Hds Hf; try done; try (cbn in Hf; lia).
  cbn in Hds, Hf. injection Hds as Hd Hds. cbn [map concat answer_hashes].
  rewrite take_app_length' by (by rewrite hash_bytes_length).
  rewrite drop_app_length' by (by rewrite hash_bytes_length).
  rewrite hash_of_bytes, Hd. by rewrite (IH ds) by (done || lia).
Qed.

Lemma pub_serves g : serves pub_exchange g pub_content.
Proof.
  intros hs ds _ Hds. unfold pub_exchange, request. do 2 f_equal.
  rewrite app_assoc, drop_app_length' by (by rewrite length_app, !be_encode_length).
  apply answer_hashes_frames; [done|]. rewrite !length_app, !be_encode_length.
  assert (length hs ≤ length (concat (map hash_bytes hs)))%nat; [|lia].
  clear. induction hs as [|h hs IH]; cbn; [lia|]. rewrite length_app, hash_bytes_length. unfold HASH_LEN. lia.
Qed.

Lemma pub_content_inv h bs : pub_content !! h = Some bs → bs ∈ pub_chunks ∧ toy_hash bs = h.
Proof.
  intros Hc. assert ((h, bs) ∈ (λ d, (toy_hash d, d)) <$> pub_chunks) as Hin by (by apply elem_of_list_to_map_2).
  apply list_elem_of_fmap in Hin as (d & [= -> ->] & Hd). done.
Qed.

Lemma pub_content_get d : d ∈ pub_chunks → pub_content !! toy_hash d = Some d.
Proof.
  intros Hd. revert d Hd. apply Forall_forall. apply (bool_decide_unpack _). vm_compute. exact I.
Qed.

(** A chunk of the content has the bytes its hash is computed from. *)
Lemma pub_content_eq d bs : d ∈ pub_chunks → pub_content !! toy_hash d = Some bs → bs = d.
Proof. intros Hd. rewrite pub_content_get by done. by intros [= ->]. Qed.

Lemma pub_index_cases e : e ∈ gi_files pub_index →
  e = entry_of "a.bin" [he; llo] ∨ e = entry_of "b.bin" [bye; he; tea] ∨ e = entry_of "d.bin" [who].
Proof.
  change (gi_files pub_index) with
    [entry_of "a.bin" [he; llo]; entry_of "b.bin" [bye; he; tea]; entry_of "d.bin" [who]]. set_solver.
Qed.

Lemma pub_old_file f file : f ∈ gi_files pub_old → gd_files pub_dir !! fe_name f = Some file →
  ∃ d, d ∈ [llo; bye] ∧ fe_chunks f = [mkChunk (toy_hash d) (lenN d)] ∧ file = FileIO.mkFile d 3 ∧
    fe_file_hash f = toy_hash d.
Proof.
  change (gi_files pub_old) with [entry_of "a.bin" [llo]; entry_of "c.bin" [bye]; entry_of "d.bin" [who]].
  rewrite !elem_of_cons, elem_of_nil. intros [->|[->|[->|[]]]] Hfile; vm_compute in Hfile;
    [injection Hfile as <-; exists llo|injection Hfile as <-; exists bye|discriminate Hfile];
    (split; [by repeat constructor|]); split_and!; vm_compute; reflexivity.
Qed.

Lemma pub_at_version : at_version toy_hash (Some pub_old) pub_dir.
Proof.
  exists (Some (Manifest.encode pub_old)). split; [vm_compute; reflexivity|].
  assert (match decode_old toy_hash (Some (Manifest.encode pub_old)) with
    | Ok j => bool_decide (j = Some pub_old) | Err _ => false end = true) as Hb by (vm_compute; reflexivity).
  destruct (decode_old _ _) as [j|]; [|done]. by apply bool_decide_eq_true in Hb as ->.
Qed.

Lemma pub_leftover : leftover pub_content pub_index {[toy_hash he]} pub_dir.
Proof.
  split.
  - assert (match collect_temp_hashes (Ok ()) pub_dir with
      | Some (Ok s) => bool_decide (s = {[toy_hash he]}) | _ => false end = true) as Hb by (vm_compute; reflexivity).
    destruct (collect_temp_hashes _ _) as [[s|]|]; [|done..]. by apply bool_decide_eq_true in Hb as ->.
  - split; [done|]. split.
    + intros name b Hb. unfold pub_dir in Hb. cbn [gd_temp] in Hb. apply lookup_singleton_Some in Hb as [_ <-]. vm_compute. reflexivity.
    + intros h [Hh|Hh]; [|by apply elem_of_nil in Hh].
      apply elem_of_intersection in Hh as [->%elem_of_singleton _].
      exists (mkDirFile (FileIO.mkFile he 3) 0). split_and!; [apply lookup_singleton_eq|vm_compute; reflexivity|].
      apply pub_content_get. set_solver.
Qed.

Lemma pub_settled path : path ∉ ["a.bin"; "b.bin"; "d.bin"]%string → settled pub_index (Some pub_old) pub_dir path.
Proof. intros Hp e [->|[->| ->]]%pub_index_cases _ <-; apply Hp; set_solver. Qed.

Lemma pub_reusable e c : e ∈ gi_files pub_index → c ∈ fe_chunks e →
  reusable pub_index (Some pub_old) pub_dir e (ck_hash c).
Proof.
  intros He Hc.
  assert (∀ d, global_of (Some pub_old) !! toy_hash d = None →
    reusable pub_index (Some pub_old) pub_dir e (toy_hash d)) as Hnew by (intros d Hd; unfold reusable; by rewrite Hd).
  apply pub_index_cases in He as [->|[->| ->]]; cbn in Hc; rewrite ?elem_of_cons, elem_of_nil in Hc.
  - destruct Hc as [->|[->|[]]]; cbn [ck_hash]; [by apply Hnew; vm_compute|].
    assert (global_of (Some pub_old) !! toy_hash llo = Some ("a.bin"%string, 0, 3)) as Hg by (vm_compute; reflexivity).
    unfold reusable. rewrite Hg. left. split; vm_compute; by eexists.
  - destruct Hc as [->|[->|[->|[]]]]; cbn [ck_hash]; [|by apply Hnew; vm_compute..].
    assert (global_of (Some pub_old) !! toy_hash bye = Some ("c.bin"%string, 0, 3)) as Hg by (vm_compute; reflexivity).
    unfold reusable. rewrite Hg. right; left. split; [by eexists|]. apply pub_settled.
    apply (bool_decide_unpack _). vm_compute. exact I.
  - destruct Hc as [->|[]]; cbn [ck_hash].
    assert (global_of (Some pub_old) !! toy_hash who = Some ("d.bin"%string, 0, 3)) as Hg by (vm_compute; reflexivity).
    unfold reusable. rewrite Hg. right; right. split; [done|]. split; [done|]. by left.
Qed.

Lemma pub_dir_ready : dir_ready toy_hash pub_content pub_index (Some pub_old) {[toy_hash he]} pub_dir.
Proof.
  split.
  - apply pub_at_version.
  - apply pub_leftover.
  - apply (bool_decide_unpack _). vm_compute. exact I.
  - split; [apply (bool_decide_unpack _); vm_compute; exact I|].
    assert (Forall (λ a, with_extension_new a ∉ (fe_name <$> gi_files pub_index) ∧
      with_extension_new a ∉ dom (old_files_of (Some pub_old))) (fe_name <$> gi_files pub_index)) as Hall
      by (apply (bool_decide_unpack _); vm_compute; exact I).
    rewrite Forall_forall in Hall. intros a b [Ha Hb]%Hall [Hc|Hc] <-; done.
  - intros o f file [= <-] Hf Hfile.
    destruct (pub_old_file f file Hf Hfile) as (d & Hd & Hc & -> & ->).
    rewrite !elem_of_cons, elem_of_nil in Hd.
    split; [|destruct Hd as [->|[->|[]]]; vm_compute; split_and!; reflexivity].
    exists [d]. rewrite Hc. cbn. rewrite app_nil_r. split; [done|]. by repeat constructor.
  - intros o f file h path off len bs [= <-] Hf Hfile (pre & c & post & Hc & <- & [= -> -> ->]) Hbs.
    destruct (pub_old_file f file Hf Hfile) as (d & Hd & Hc' & -> & _).
    rewrite Hc' in Hc. destruct pre as [|? [|]]; [|discriminate Hc..]. injection Hc as <- _.
    rewrite !elem_of_cons, elem_of_nil in Hd.
    assert (bs = d) as -> by (apply (pub_content_eq d); [destruct Hd as [->|[->|[]]]; by repeat constructor|exact Hbs]).
    destruct Hd as [->|[->|[]]]; vm_compute; reflexivity.
  - intros e c He _ Hc. by apply pub_reusable.
Qed.

Lemma pub_ready : cafe_ready toy_hash (λ _ : list string, True) pub_config pub_env pub_content pub_task
  pub_index (Some pub_old) {[toy_hash he]} pub_node.
Proof.
  split.
  - unfold pub_node. rewrite (dir_of_set 7). apply pub_dir_ready.
  - vm_compute. reflexivity.
  - intros h Hh%elem_of_chunk_set. revert h Hh. apply Forall_forall.
    apply (bool_decide_unpack _). vm_compute. exact I.
  - intros h bs Hc. apply pub_content_inv in Hc as [Hbs Hh]. split; [done|]. revert bs Hbs Hh.
    assert (Forall (λ bs, lenN bs < 2^32) pub_chunks) as Hall by (apply (bool_decide_unpack _); vm_compute; exact I).
    rewrite Forall_forall in Hall. auto.
  - intros e [->|[->| ->]]%pub_index_cases; [exists [he; llo]|exists [bye; he; tea]|exists [who]];
      (split; [|vm_compute; reflexivity]); repeat constructor; apply pub_content_get; set_solver.
  - intros h w Hh _. exists w, [pub_peer 1 "even"; pub_peer 2 "odd"]. split_and!; [done..| |].
    + exists (pub_peer 1 "even"). split; [left|vm_compute; reflexivity].
    + intros p target Hp Ht. unfold target_of in Ht. cbn in Ht.
      assert (is_Some (pick_by_hash h (pe_addrs p))) as [a Ha].
      { apply pick_by_hash_some. assert (p = pub_peer 1 "even" ∨ p = pub_peer 2 "odd") as [->| ->] by set_solver; done. }
      rewrite Ha in Ht. injection Ht as <-. split; [by eexists|]. split; [exact I|]. apply pub_serves.
  - reflexivity.
  - reflexivity.
Qed.

Lemma cafe_task_completes_witness :
  ∃ n', run_task toy_hash pub_config 4 pub_env (Ok ()) 0 pub_task pub_node = (n', Ok ()) ∧
    no_cafes n' !! 7 = Some (Some (build_map pub_index)) ∧
    gd_files (dir_of 7 n') !! "c.bin"%string = None ∧
    ∃ f, gd_files (dir_of 7 n') !! "b.bin"%string = Some f ∧ toy_hash (f_data f) = toy_hash (bye ++ he ++ tea).
Proof.
  assert (version_known (λ _ : list string, True) pub_task pub_manifest) as Hv by (intros w _; by eexists w, _).
  assert (Manifest.decode toy_hash pub_manifest = Ok pub_index) as Hdec.
  { assert (match Manifest.decode toy_hash pub_manifest with
      | Ok j => bool_decide (j = pub_index) | Err _ => false end = true) as Hb by (vm_compute; reflexivity).
    destruct (Manifest.decode toy_hash pub_manifest) as [j|]; [|done]. by apply bool_decide_eq_true in Hb as ->. }
  destruct (cafe_task_completes toy_hash (λ _, True) (L':=λ _, True) pub_config 4 pub_env pub_content 0 pub_task pub_manifest
    pub_index (Some pub_old) {[toy_hash he]} "http://scheduler"%string pub_node I eq_refl eq_refl Hv Hdec pub_ready)
    as (n' & w1 & w2 & Hrun & Hfiles & Hgone & Hcur & _).
  exists n'. split_and!; [exact Hrun|exact Hcur| |].
  - apply Hgone. apply (bool_decide_unpack _). vm_compute. exact I.
  - apply (Hfiles (entry_of "b.bin" [bye; he; tea])). right; left.
Defined.
