(* ===== verification/SchedLive.v ===== *)
(** * SchedLive: the scheduler answers its agents

    On a database that does not fail and whose records read back, every call an
    agent makes while it runs a task succeeds: the reports are recorded, a version
    is found, and the peers of a chunk are the online nodes of the ledger.  So a
    scheduler in process satisfies [RpcLive], and what a node has reported is in the
    ledger. *)

From S2P Require Import Prelude Bytes Text Redb SchedDb SchedDbSpec.
From S2P Require Import SchedControl SchedControlSpec SchedVersions MergeLive.
From S2P Require Import Configs AgentControl Executor ExecutorLive.

Section live.
Context {D : Type} `{RedbLaws D, !RedbHealthy D, SchedJsonLaws}.
Implicit Types (d : D) (c : ControlService D).

(** ** Transactions that go through *)

Definition tables_kept d d' : Prop := ∀ t, has_table d t → has_table d' t.

#[local] Instance tables_kept_refl : Reflexive tables_kept.
Proof. by intros d t. Qed.

Lemma write_txn_live {A} m1 m2 m3 t (body : D → result error (txn_end D A)) d :
  db_healthy d →
  (∀ w, db_healthy w → tables_kept d w → (∀ t', contents w t' = contents d t') →
     ∃ x, body w = Ok x ∧
       match x with Commit w' _ => db_healthy w' ∧ tables_kept w w' | Rollback _ => True end) →
  ∃ d' a, write_txn m1 m2 m3 t body d = (d', Ok a) ∧ db_healthy d' ∧ tables_kept d d'.
Proof.
  intros Hd Hbody. destruct (begin_write_healthy d Hd) as (w & Hw & Hwh).
  destruct (open_write_healthy w t Hwh) as (w2 & Hw2 & Hw2h).
  pose proof (begin_write_ok _ _ Hw) as He. pose proof (open_write_ok _ _ _ Hw2) as [Hc2 Ht2].
  assert (tables_kept d w2) as Hk.
  { intros t0 Ht0. apply Ht2. right. by apply (proj2 (He t0)). }
  destruct (Hbody w2 Hw2h Hk) as (x & Hb & Hx).
  { intros t'. rewrite Hc2. apply (proj1 (He t')). }
  unfold write_txn. rewrite Hw. cbn. rewrite Hw2. cbn. rewrite Hb. cbn.
  destruct x as [w3 a|a]; [|by exists d, a].
  destruct Hx as [Hw3 Hk3]. destruct (commit_healthy w3 Hw3) as (d' & Hc & Hd'). rewrite Hc. cbn.
  exists d', a. split; [done|]. split; [done|]. intros t' Ht'. by apply (proj2 (commit_ok _ _ Hc t')), Hk3, Hk.
Qed.

Lemma insert_live w t k v :
  db_healthy w → ∃ w', tbl_insert w t k v = Ok w' ∧ db_healthy w' ∧ tables_kept w w'.
Proof.
  intros Hw. destruct (insert_healthy w t k v Hw) as (w' & Hi & Hh). exists w'. split_and!; [done..|].
  intros t' Ht'. by apply (proj2 (proj2 (insert_ok _ _ _ _ _ Hi))).
Qed.

Lemma get_one_live m1 m2 t k d :
  db_healthy d → has_table d t → get_one m1 m2 t k d = Ok (contents d t !! k).
Proof.
  intros Hd Ht. unfold get_one.
  destruct (read_txn_healthy m1 t (λ snap, with_context m2 (tbl_get snap t k)) d Hd Ht) as (s & He & Hs & ->).
  destruct (get_healthy s t k Hs) as [v Hv]. rewrite Hv. cbn. by rewrite (get_ok _ _ _ _ Hv), (proj1 (He t)).
Qed.

Lemma encode_live {A} `{!JsonOps A, !JsonLaws A} (a : A) : ∃ text, encode a = Ok text ∧ from_str text = Ok a.
Proof.
  destruct (is_ok_inv _ (json_total a)) as [text Ht]. exists text. unfold encode. rewrite Ht.
  split; [done|by apply json_roundtrip].
Qed.

(** ** A database whose records read back *)

Record readable d : Prop := {
  rd_healthy : db_healthy d;
  rd_tables : has_table d NODES ∧ has_table d CHUNKS ∧ has_table d VERSIONS;
  rd_nodes k text : contents d NODES !! k = Some text → is_ok (decode (A:=NodeRecord) text);
  rd_tasks k text : contents d TASKS !! k = Some text → is_ok (decode (A:=TaskRecord) text);
  rd_chunks k text : contents d CHUNKS !! k = Some text → is_ok (from_str (A:=list N) text)
}.

(** A task is marked, or is unknown; nothing else changes. *)
Lemma update_task_live id status err d :
  readable d → ∃ d' b, update_task_status id status err d = (d', Ok b) ∧ readable d' ∧
    ∀ t, t ≠ TASKS → contents d' t = contents d t.
Proof.
  intros Hr. pose proof Hr as [Hh Ht Hn Hk Hc].
  assert (∃ d' b, update_task_status id status err d = (d', Ok b) ∧ db_healthy d' ∧ tables_kept d d')
    as (d' & b & Hu & Hh' & Hkept).
  { apply write_txn_live; [done|]. intros w Hw _ Hcw. destruct (get_healthy w TASKS id Hw) as [v Hv]. rewrite Hv.
    apply get_ok in Hv. cbn. destruct v as [text|]; [|by eexists].
    rewrite Hcw in Hv. symmetry in Hv. destruct (is_ok_inv _ (Hk id text Hv)) as [task Htask].
    rewrite Htask. cbn. destruct (encode_live (set_status status err task)) as (new & Hnew & _).
    rewrite Hnew. cbn. destruct (insert_live w TASKS id new Hw) as (w' & Hi & Hw' & Hk'). cbn in Hi. rewrite Hi. cbn.
    by eexists. }
  exists d', b. split; [done|]. apply update_task_status_ok in Hu. destruct b.
  - destruct Hu as (old & new & task & _ & _ & He & Hw1 & Ho). split; [|done].
    split; [done|destruct Ht as (? & ? & ?); split_and!; by apply Hkept|by rewrite Ho| |by rewrite Ho].
    intros k text. rewrite Hw1. intros [[_ <-]|[_ Hx]]%lookup_insert_Some; [|by eapply Hk].
    destruct (encode_live (set_status status err task)) as (new' & He' & Hd). rewrite He in He'. injection He' as <-.
    unfold decode. by rewrite Hd.
  - destruct Hu as [_ ->]. by split.
Qed.

(** The ledger after a report. *)
Definition add_holder (n : N) (l : list N) : list N := if decide (n ∈ l) then l else l ++ [n].

Lemma record_chunk_live n g h d :
  readable d → ∃ d', record_chunk_holder n g h d = (d', Ok ()) ∧ readable d' ∧
    (∀ t, t ≠ CHUNKS → contents d' t = contents d t) ∧
    ∀ key, ledger d' key = if decide (key = chunk_key g h) then add_holder n (ledger d key) else ledger d key.
Proof.
  intros [Hh Ht Hn Hk Hc].
  assert (∃ d' u, record_chunk_holder n g h d = (d', Ok u) ∧ db_healthy d' ∧ tables_kept d d')
    as (d' & [] & Hu & Hh' & Hkept).
  { apply write_txn_live; [done|]. intros w Hw _ Hcw.
    destruct (get_healthy w CHUNKS (chunk_key g h) Hw) as [v Hv]. rewrite Hv. cbn. case_bool_decide; [by eexists|].
    match goal with |- context [encode ?l] => destruct (encode_live l) as (new & Hnew & _) end.
    rewrite Hnew. cbn. destruct (insert_live w CHUNKS (chunk_key g h) new Hw) as (w' & Hi & Hw' & Hk').
    cbn in Hi. rewrite Hi. cbn. by eexists. }
  exists d'. split; [done|]. apply record_chunk_holder_ok in Hu. unfold add_holder.
  destruct Ht as (Ht1 & Ht2 & Ht3). destruct Hu as [[Hin Hsame]|(Hin & text & He & Hw1 & Ho)].
  - split; [split; [done|split_and!; by apply Hkept|by rewrite Hsame..]|]. split; [done|].
    intros key. unfold ledger. rewrite Hsame. case_decide as Hkey; [|done]. subst key. by rewrite decide_True.
  - destruct (encode_live (ledger d (chunk_key g h) ++ [n])) as (text' & He' & Hd).
    rewrite He in He'. injection He' as <-. split.
    { split; [done|split_and!; by apply Hkept|by rewrite Ho|by rewrite Ho|].
      intros k t. rewrite Hw1. intros [[_ <-]|[_ Hx]]%lookup_insert_Some; [by rewrite Hd|by eapply Hc]. }
    split; [done|]. intros key. unfold ledger at 1. rewrite Hw1. case_decide as Hkey.
    + subst key. rewrite lookup_insert_eq, Hd, decide_False by done. done.
    + by rewrite lookup_insert_ne.
Qed.

(** ** The answers *)

Lemma read_ids msg (f : string → result Prelude.error (list N)) (v : option string) :
  (∀ text, v = Some text → is_ok (f text)) →
  match v with Some text => with_context msg (f text) | None => mret [] end =
  Ok match v with Some text => default [] (ok (f text)) | None => [] end.
Proof. intros Hv. destruct v as [text|]; [|done]. destruct (is_ok_inv _ (Hv text eq_refl)) as [l Hl]. by rewrite Hl. Qed.

Lemma read_record {A} (f : string → result Prelude.error A) (v : option string) :
  (∀ text, v = Some text → is_ok (f text)) →
  ∃ r, match v with Some text => a ← f text; mret (Some a) | None => mret None end = Ok r.
Proof.
  intros Hv. destruct v as [text|]; [|by eexists].
  destruct (is_ok_inv _ (Hv text eq_refl)) as [a Ha]. rewrite Ha. by eexists.
Qed.

Lemma chunk_holders_live d g h : readable d → chunk_holders d g h = Ok (ledger d (chunk_key g h)).
Proof.
  intros [Hh (_ & Ht & _) _ _ Hc]. unfold chunk_holders, ledger. rewrite get_one_live by done.
  exact (read_ids _ _ (contents d CHUNKS !! chunk_key g h) (Hc (chunk_key g h))).
Qed.

Lemma collect_peers_live d ids :
  readable d → collect_peers d ids = Ok (map peer_of (online_of (nodes d) ids)).
Proof.
  intros Hr. assert (∃ ps, collect_peers d ids = Ok ps) as [ps Hps].
  { pose proof Hr as [Hh (Ht & _) Hn _ _]. induction ids as [|id ids [ps IH]]; [by eexists|]. cbn [collect_peers].
    assert (∃ r, get_node d id = Ok r) as [r Hg].
    { unfold get_node. rewrite get_one_live by done.
      exact (read_record _ (contents d NODES !! id) (Hn id)). }
    rewrite Hg. cbn. destruct r as [node|]; [|by exists ps]. destruct (negb _); [by exists ps|].
    rewrite IH. by eexists. }
  by rewrite (collect_peers_ok _ _ _ Hps) in Hps.
Qed.

Lemma query_peers_answer q c :
  readable (cs_store c) → query_peers q c =
    (c, Ok (map peer_of (online_of (nodes (cs_store c))
      (let holders := ledger (cs_store c) (chunk_key (pq_game_id q) (pq_chunk_hash q)) in
       if pq_limit q =? 0 then holders else take (N.to_nat (pq_limit q)) holders)))).
Proof.
  intros Hr. unfold query_peers. rewrite (M_bind_ok get _ c c c) by done. unfold lift at 1.
  rewrite chunk_holders_live by done. unfold lift, mbind, M_bind. cbn [map_err]. by rewrite collect_peers_live.
Qed.

Lemma get_version_answer g v manifest c :
  readable (cs_store c) → announced c g v = Some manifest →
  control_get_version g v c = (c, Ok (mkVersionInfo true v manifest)).
Proof.
  intros [Hh (_ & _ & Ht) _ _ _] Ha. unfold control_get_version, read_store.
  assert (get_version (cs_store c) g v = Ok (Some manifest)) as Hg.
  { unfold get_version. rewrite get_one_live by done. unfold announced, view in Ha.
    rewrite lookup_omap in Ha. revert Ha.
    assert (∀ (f : string → result Prelude.error (list byte)) (o : option string),
      (o ≫= λ text, ok (f text)) = Some manifest →
      match o with None => mret None | Some text => m ← f text; mret (Some m) end = Ok (Some manifest)) as Hgen.
    { intros f [text|] Hf; [|done]. cbn in Hf. destruct (f text); [|done]. cbn in Hf. by injection Hf as ->. }
    exact (Hgen decode (contents (cs_store c) VERSIONS !! version_key g v)). }
  unfold lift, mbind, M_bind, get. by rewrite Hg.
Qed.

(** ** The states an agent's calls keep *)

Context `{!NetParse} (to_error : Status → error) (now : N).
#[local] Instance agent_rpc : ControlRpc (ControlService D) := InProcess to_error now.

(** The version is announced, the nodes are [ns], and the recorded holders of each of
    its chunks [X] include [H] and are among [P]. *)
Record sched_view (ns : gmap N NodeRecord) (g v : N) (manifest : list byte) (X : gset hash32)
    (H P : N → Prop) c : Prop := {
  sv_readable : readable (cs_store c);
  sv_announced : announced c g v = Some manifest;
  sv_nodes : nodes (cs_store c) = ns;
  sv_holds h n : h ∈ X → H n → n ∈ ledger (cs_store c) (chunk_key g (hash_bytes h));
  sv_holders h n : h ∈ X → n ∈ ledger (cs_store c) (chunk_key g (hash_bytes h)) → P n
}.

Definition addrs_parse (ns : gmap N NodeRecord) : Prop := ∀ id node a,
  ns !! id = Some node → a ∈ nd_addrs node → is_Some (parse_socket (ad_addr a)).

Section view.
Context (ns : gmap N NodeRecord) (g v : N) (manifest : list byte) (X : gset hash32).
Abbreviation sched_is := (sched_view ns g v manifest X).
Implicit Types (P Q Low : N → Prop).

Lemma view_report Low P r c :
  sched_is Low P c → ∃ c', at_client to_error (report_task r) c = (c', Ok ()) ∧ sched_is Low P c' ∧
    ∀ key, ledger (cs_store c') key = ledger (cs_store c) key.
Proof.
  intros [Hr Ha Hn Hlow Hl]. destruct (update_task_live (tr_task_id r) (tr_status r) (tr_error r) _ Hr)
    as (d' & b & Hu & Hr' & Ho).
  eexists. split.
  { unfold at_client, map_err_m, report_task, on_store, zoom, mbind, M_bind, map_err_m. by rewrite Hu. }
  assert (∀ key, ledger d' key = ledger (cs_store c) key) as Hled by (intros key; unfold ledger; by rewrite Ho).
  split; [|exact Hled]. split; cbn; [done| | | |].
  - unfold announced, view in *. cbn. by rewrite Ho.
  - rewrite <- Hn. unfold nodes, view. by rewrite Ho.
  - intros h n Hh. rewrite Hled. by apply Hlow.
  - intros h n Hh. rewrite Hled. by apply Hl.
Qed.

Lemma add_holder_elem n l m : m ∈ add_holder n l ↔ m ∈ l ∨ m = n.
Proof.
  unfold add_holder. case_decide; [naive_solver|]. by rewrite elem_of_app, list_elem_of_singleton.
Qed.

Lemma view_chunk Low P rep c :
  P (cd_node_id rep) → sched_is Low P c →
  ∃ c', at_client to_error (report_chunk rep) c = (c', Ok ()) ∧ sched_is Low P c' ∧
    (∀ key n, n ∈ ledger (cs_store c) key → n ∈ ledger (cs_store c') key) ∧
    cd_node_id rep ∈ ledger (cs_store c') (chunk_key (cd_game_id rep) (cd_chunk_hash rep)).
Proof.
  intros Hp [Hr Ha Hn Hlow Hl].
  destruct (record_chunk_live (cd_node_id rep) (cd_game_id rep) (cd_chunk_hash rep) _ Hr)
    as (d' & Hu & Hr' & Ho & Hled).
  assert (∀ key n, n ∈ ledger d' key ↔ n ∈ ledger (cs_store c) key ∨
    (key = chunk_key (cd_game_id rep) (cd_chunk_hash rep) ∧ n = cd_node_id rep)) as Hin.
  { intros key n. rewrite Hled. case_decide; [rewrite add_holder_elem|]; naive_solver. }
  eexists. split.
  { unfold at_client, map_err_m, report_chunk, on_store, zoom, map_err_m. by rewrite Hu. }
  split; [|split; [intros key n Hkn; apply Hin; by left|apply Hin; by right]]. split; cbn; [done| | | |].
  - unfold announced, view in *. cbn. by rewrite Ho.
  - rewrite <- Hn. unfold nodes, view. by rewrite Ho.
  - intros h n Hh Hlo. apply Hin. left. by apply Hlow.
  - intros h n Hh [Hx|[_ ->]]%Hin; [by apply (Hl h)|done].
Qed.

Lemma view_mono Low Low' P Q c :
  (∀ n, Low' n → Low n) → (∀ n, P n → Q n) → sched_is Low P c → sched_is Low' Q c.
Proof.
  intros Hlo Hpq [Hr Ha Hn Hlow Hl]. split; [done..| |]; intros h n Hh Hx.
  - by apply Hlow, Hlo.
  - by apply Hpq, (Hl h).
Qed.

(** The scheduler answers an agent whose reports only add itself to the ledger. *)
Lemma view_live node_id Low P Q :
  addrs_parse ns → (∀ n, P n → Q n) → Q node_id → RpcLive node_id (sched_is Low P) (sched_is Low Q).
Proof.
  intros Hparse Hpq Hq. split.
  - intros c. by apply view_mono.
  - intros addr c Hc. by exists c.
  - intros r c Hc. destruct (view_report Low P r c Hc) as (c' & ? & ? & _). by exists c'.
  - intros q c Hc. pose proof Hc as [Hr _ Hn _ _]. eexists c, _. split.
    { cbn. unfold at_client, map_err_m. by rewrite query_peers_answer. }
    split; [done|]. intros p a Hp Ha. apply list_elem_of_fmap in Hp as (node & -> & Hin).
    apply list_elem_of_omap in Hin as (id & _ & Hid). rewrite Hn in Hid.
    destruct (ns !! id) as [node'|] eqn:Hns; [|done]. case_bool_decide; [|done]. injection Hid as ->.
    cbn in Ha. apply list_elem_of_fmap in Ha as (ar & -> & Har). by apply (Hparse id node ar).
  - intros rep c <- Hc. destruct (view_chunk Low Q rep c Hq Hc) as (c' & ? & ? & _). by exists c'.
  - intros r c Hc. destruct (view_report Low Q r c Hc) as (c' & ? & ? & _). by exists c'.
Qed.

Lemma view_version Low P task :
  pt_game_id task = g → pt_version task = v → version_known (sched_is Low P) task manifest.
Proof.
  intros <- <- c Hc. exists c, (pt_version task).
  split; [|done]. cbn. unfold at_client, map_err_m. by rewrite (get_version_answer _ _ manifest) by apply Hc.
Qed.

(** A chunk with one holder, an online node: that node is the one peer that is named. *)
Lemma view_peers id node h limit c :
  ns !! id = Some node → nd_status node = "online"%string → h ∈ X → sched_is (eq id) (eq id) c →
  ∃ ps, rpc_query_peers (mkQuery g (hash_bytes h) limit) c = (c, Ok ps) ∧
    peer_of node ∈ ps ∧ ∀ p, p ∈ ps → p = peer_of node.
Proof.
  intros Hnode Hon Hh [Hr _ Hn Hlow Hl]. eexists. split.
  { cbn. unfold at_client, map_err_m. by rewrite query_peers_answer. }
  cbn [pq_limit pq_game_id pq_chunk_hash]. specialize (Hlow h id Hh eq_refl). specialize (Hl h).
  set (holders := ledger _ _) in *. cbv zeta.
  assert (∃ rest, (if limit =? 0 then holders else take (N.to_nat limit) holders) = id :: rest ∧
    ∀ n, n ∈ rest → n = id) as (rest & -> & Hrest).
  { destruct holders as [|n holders]; [by apply elem_of_nil in Hlow|].
    assert (n = id) as -> by (symmetry; apply Hl; [done|by left]).
    destruct (N.eqb_spec limit 0) as [|Hz]; [exists holders|exists (take (Nat.pred (N.to_nat limit)) holders)].
    - split; [done|]. intros n' Hn'. symmetry. apply Hl; [done|by right].
    - split; [by destruct (N.to_nat limit) eqn:Hlim; [lia|]|]. intros n' Hn'. symmetry. apply Hl; [done|].
      right. by apply subseteq_take in Hn'. }
  rewrite Hn. assert (∀ l, (∀ n, n ∈ l → n = id) → ∀ p, p ∈ map peer_of (online_of ns l) → p = peer_of node) as Hall.
  { intros l Hids p Hp. apply list_elem_of_fmap in Hp as (node' & -> & Hp).
    apply list_elem_of_omap in Hp as (n & Hin & Hx). rewrite (Hids n Hin), Hnode in Hx.
    case_bool_decide; [by injection Hx as ->|done]. }
  split.
  - cbn. rewrite Hnode, bool_decide_true by done. left.
  - apply Hall. intros n [->|Hin]%elem_of_cons; [done|by apply Hrest].
Qed.

(** What a node has reported is in the ledger. *)
Lemma report_chunks_ledger node_id Low P hashes c c' :
  P node_id → sched_is Low P c → report_chunks node_id g hashes c = (c', Ok ()) →
  sched_is Low P c' ∧ (∀ key n, n ∈ ledger (cs_store c) key → n ∈ ledger (cs_store c') key) ∧
  ∀ h, h ∈ hashes → node_id ∈ ledger (cs_store c') (chunk_key g (hash_bytes h)).
Proof.
  intros Hp. revert c. induction hashes as [|h hashes IH]; intros c Hc; cbn [report_chunks].
  { intros [= <-]. split_and!; [done|done|]. by intros h ?%elem_of_nil. }
  destruct (view_chunk Low P (mkDone node_id g (hash_bytes h)) c Hp Hc) as (c1 & Hrc & Hc1 & Hm1 & Hin).
  rewrite (M_bind_ok _ _ _ c1 ()) by (unfold context_m, map_err_m; cbn [rpc_report_chunk agent_rpc InProcess];
    by rewrite Hrc). cbn [cd_node_id cd_game_id cd_chunk_hash] in Hin.
  intros Hrun. destruct (IH c1 Hc1 Hrun) as (Hc' & Hmono & Hall).
  split; [done|]. split; [intros key n Hn; by apply Hmono, Hm1|].
  intros h' [->|Hh']%elem_of_cons; [by apply Hmono|by apply Hall].
Qed.

Lemma report_task_ledger node_id Low P task_id status err c c' :
  sched_is Low P c → control_report_task node_id task_id status err c = (c', Ok ()) → sched_is Low P c'.
Proof.
  intros Hc. unfold control_report_task, context_m, map_err_m.
  destruct (view_report Low P (mkReport node_id task_id status err) c Hc) as (c1 & Hr & Hc1 & _).
  cbn [rpc_report_task agent_rpc InProcess]. rewrite Hr. by intros [= <-].
Qed.
End view.

End live.
