(* ===== verification/Delivery.v ===== *)
(** * Delivery: a version on its way from the origin to a cafe

    The parts together: the scheduler announces a version, the task of an IDC fetches
    its chunks from the origin's data plane and reports them, the scheduler then names
    the IDC for every chunk, and the task of a cafe fetches them from the IDC's data
    plane and builds the files.  Both agents call the handlers of one scheduler in
    process. *)

From S2P Require Import Prelude Bytes Text FileIO Redb Manifest.
From S2P Require Import UpdatePlan Storage StorageSpec UploadSpec SchedDb SchedDbSpec SchedControl SchedControlSpec SchedVersions.
From S2P Require Import Upload DataPath DataPathSpec DataPathLive CafeStore CafeSpec Merge MergeSpec MergeLive.
From S2P Require Import Configs AgentControl Executor ExecutorSpec ExecutorTasks ExecutorLive CafeLive System SchedLive.

Section delivery.
Context (blake3 : list byte → hash32).
Context {D E F K : Type} `{RedbLaws D, !RedbHealthy D, RedbLaws E, !RedbHealthy E, SchedJsonLaws}.
Context `{FileLaws F, !CompioOps F, !CompioLaws F, !DirOps F, !DirLaws F, !Quiet F}.
Context `{!OpenOps D F, !OpenLaws D F, ChunkSourceLaws K, MapIterLaws, SetIterLaws, !NetParse, !Dial}.
Context (to_error : Status → error) (now : N).

#[local] Instance scheduler : ControlRpc (ControlService E) := agent_rpc to_error now.

Abbreviation origin_state := (DataState D F (ControlService E) K).
Abbreviation agent := (Node (ControlService E) D F).
Implicit Types (s : origin_state) (n : agent) (ms : N → gmap hash32 (list byte)).

(** ** The version *)

(** The scheduler announces the version, its manifest is that of [index], the chunks
    at the origin make up its files, and no other data has the hash of one of them. *)
Record published s ms (g v : N) (manifest : list byte) (index : GameIndex) : Prop := {
  pb_inv : sys_inv blake3 ms s;
  pb_game : g < 2^64;
  pb_announced : announced (or_sched (ds_origin s)) g v = Some manifest;
  pb_decodes : Manifest.decode blake3 manifest = Ok index;
  pb_healthy : origin_healthy g (ds_origin s);
  pb_few : N.of_nat (base.size (chunk_set index)) < 2^32;
  pb_files : version_content blake3 (ms g) index;
  pb_binding h d d' : h ∈ chunk_set index → blake3 d = h → blake3 d' = h → d = d'
}.

(** The chunks of the version. *)
Definition chunks_of ms (g : N) (index : GameIndex) : gmap hash32 (list byte) :=
  filter (λ c, c.1 ∈ chunk_set index) (ms g).

Lemma chunks_of_lookup ms g index h d :
  chunks_of ms g index !! h = Some d ↔ ms g !! h = Some d ∧ h ∈ chunk_set index.
Proof. apply map_lookup_filter_Some. Qed.

Section version.
Context s ms (g v : N) (manifest : list byte) (index : GameIndex).
Hypothesis (Hpub : published s ms g v manifest index).

Lemma published_chunk h : h ∈ chunk_set index → is_Some (ms g !! h).
Proof.
  pose proof Hpub as [Hinv Hg _ Hdec _ _ _ _].
  destruct (si_announced _ _ _ Hinv g v manifest Hg (pb_announced _ _ _ _ _ _ Hpub)) as (i & Hd & Hall).
  rewrite Hdec in Hd. injection Hd as <-. apply Hall.
Qed.

Lemma published_addressed h d : ms g !! h = Some d → blake3 d = h ∧ lenN d < 2^32.
Proof.
  pose proof Hpub as [Hinv Hg _ _ _ _ _ _]. intros Hd. split; [by apply (si_addressed _ _ _ Hinv g Hg)|].
  by apply (origin_short ms (ds_origin s) g Hg (si_origin _ _ _ Hinv) h).
Qed.

Lemma published_serves ready : serves (answering ready s) g (ms g).
Proof.
  pose proof Hpub as [Hinv Hg _ _ Hh _ _ _]. apply answering_serves; [done|apply Hinv|done|].
  intros source Hs. by apply (si_nodes _ _ _ Hinv) in Hs.
Qed.

(** Whatever a node holds under the hash of a chunk is that chunk. *)
Lemma held_chunk m h d : addressed blake3 m → h ∈ chunk_set index → m !! h = Some d → ms g !! h = Some d.
Proof.
  intros Hm Hh Hd. destruct (published_chunk h Hh) as [d' Hd'].
  by rewrite (pb_binding _ _ _ _ _ _ Hpub h d d' Hh (Hm h d Hd) (proj1 (published_addressed h d' Hd'))).
Qed.

(** ** The IDC *)

(** Its task is for the version, its store is healthy and has the room, what it lacks
    is its share, and it reaches the data plane of the origin. *)
Record idc_set (config : AgentConfig) (env : NetEnv) (task : Task) n n0 (store : GameStore D F) m (B : N) : Prop := {
  is_task : pt_game_id task = g ∧ pt_version task = v;
  is_type : ac_node_type config = Idc;
  is_addr : is_Some (ac_control_addr config);
  is_world : no_world n = or_sched (ds_origin s);
  is_store : idc_store g n = (n0, Ok store);
  is_represents : represents store m;
  is_healthy : healthy store;
  is_addressed : addressed blake3 m;
  is_bound h d : h ∈ chunk_set index → ms g !! h = Some d → lenN d ≤ B;
  is_room : gs_size store + B * (N.of_nat (base.size (chunk_set index)) + IDC_BATCH_SIZE) < 2^32;
  is_bind : ne_bind env = Ok ();
  is_origin : ∃ target p ready, origin_target config = Ok (Some target) ∧ connect_peer target = Ok p ∧
    ne_exchange env 2 target = answering ready s;
  is_share h : h ∈ chunk_set index → m !! h = None → hash_bytes h ∈ pt_assigned_chunks task
}.

Lemma idc_set_ready config env task n n0 store m B :
  idc_set config env task n n0 store m B → idc_ready blake3 config env task index n n0 store m (ms g) B.
Proof.
  intros [[Ht _] _ _ _ Hst Hr Hh Hadd Hbd Hroom Hb (target & p & ready & Ho & Hp & Hx) Hshare].
  split; rewrite ?Ht; try done.
  - apply Hpub.
  - intros h d Hin Hd. destruct (published_chunk h Hin) as [d' Hd'].
    rewrite (pb_binding _ _ _ _ _ _ Hpub h d d' Hin Hd (proj1 (published_addressed h d' Hd'))). by apply (Hbd h).
  - exists target, p. split_and!; [done|done| |].
    + rewrite Hx. apply published_serves.
    + apply published_addressed.
  - intros h Hin _. by apply published_chunk.
Qed.

(** The record of the IDC at the scheduler: it is online, and for none of the chunks
    is another node recorded. *)
Record idc_known (id : N) (node : NodeRecord) : Prop := {
  ik_readable : readable (cs_store (or_sched (ds_origin s)));
  ik_parse : addrs_parse (nodes (cs_store (or_sched (ds_origin s))));
  ik_node : nodes (cs_store (or_sched (ds_origin s))) !! id = Some node;
  ik_online : nd_status node = "online"%string;
  ik_holders h i : h ∈ chunk_set index →
    i ∈ ledger (cs_store (or_sched (ds_origin s))) (chunk_key g (hash_bytes h)) → i = id
}.

Abbreviation view := (sched_view (nodes (cs_store (or_sched (ds_origin s)))) g v manifest (chunk_set index)).

(** After its task the IDC holds every chunk, and it is the recorded holder of each. *)
Lemma idc_delivered config env readable t task n n0 store m B id node :
  idc_set config env task n n0 store m B → idc_known id node →
  ∃ n' store' m', run_task blake3 config id env readable t task n = (n', Ok ()) ∧
    no_packs n' !! g = Some store' ∧ represents store' m' ∧ healthy store' ∧
    chunks_of ms g index ⊆ m' ∧ view (eq id) (eq id) (no_world n').
Proof.
  intros Hset [Hread Hparse Hnode Hon Hholders].
  pose proof Hset as [[Htg Htv] Hty [addr Ha] Hworld _ _ _ Hadd _ _ _ _ _].
  assert (view (λ _, False) (eq id) (no_world n)) as Hview.
  { rewrite Hworld. split; [done|apply Hpub|done|done|]. intros h i Hh Hi. symmetry. by apply (Hholders h). }
  assert (RpcLive id (view (λ _, False) (eq id)) (view (λ _, False) (eq id))) as Hlive
    by (by apply view_live).
  destruct (idc_task_live blake3 (view (λ _, False) (eq id)) config id env readable t task manifest index addr
    n n0 store m (ms g) B Hview Ha Hty) as (n' & store' & m' & w1 & w2 & Hrun & Hp & Hr & _ & Hall & Hadd' & Hh &
    Hw1 & _ & Hrep & Hend).
  - by apply view_version.
  - apply Hpub.
  - by apply idc_set_ready.
  - rewrite Htg in Hp, Hrep. exists n', store', m'. split_and!; [done..| |].
    + apply map_subseteq_spec. intros h d [Hd Hin]%chunks_of_lookup. destruct (Hall h Hin) as [d' Hd'].
      rewrite Hd'. f_equal. apply (held_chunk m' h d') in Hd'; [congruence|by apply Hadd'|done].
    + destruct (report_chunks_ledger to_error now _ _ _ _ _ id _ _ (held index) w1 w2 eq_refl Hw1 Hrep)
        as (Hw2 & _ & Hin).
      assert (view (eq id) (eq id) w2) as Hw2'.
      { destruct Hw2 as [? ? ? _ ?]. split; [done..| |done]. intros h i Hx <-. apply Hin.
        unfold held. by apply elem_of_sort_hashes, elem_of_set_iter. }
      by apply (report_task_ledger to_error now _ _ _ _ _ id _ _ (pt_id task) "done" "" w2).
Qed.

(** ** The cafe *)

(** The data plane of an IDC: it shares the pack stores of the node. *)
Definition plane_of n (plane : DataState D F () K) : Prop :=
  or_packs (ds_origin plane) = no_packs n ∧ ∀ g source, ds_nodes plane !! g ≠ Some (Storage.Cafe source).

(** Its task is for the version, its directory is in order, and it reaches the data
    plane of the IDC at every address the IDC has announced. *)
Record cafe_set (idc : agent) (node : NodeRecord) (config : AgentConfig) (env : NetEnv) (task : Task)
    (old : option GameIndex) (temp : gset hash32) n : Prop := {
  cs_task : pt_game_id task = g ∧ pt_version task = v;
  cs_type : ac_node_type config = Configs.Cafe;
  cs_addr : is_Some (ac_control_addr config);
  cs_world : no_world n = no_world idc;
  cs_dir : dir_ready blake3 (chunks_of ms g index) index old temp (dir_of g n);
  cs_origin : ac_origin_endpoint config = None;
  cs_bind : ne_bind env = Ok ();
  cs_candidate : candidate ∅ (peer_of node) = true;
  cs_reaches h target : target_of (ac_relay_url config) h (peer_of node) = Ok target →
    is_Some (pt_addr target) ∧ is_ok (connect_peer target) ∧
    ∃ plane ready, plane_of idc plane ∧ ne_exchange env 0 target = answering ready plane
}.

Lemma cafe_set_ready idc store m id node config env task old temp n :
  view (eq id) (eq id) (no_world idc) → nodes (cs_store (or_sched (ds_origin s))) !! id = Some node →
  nd_status node = "online"%string →
  no_packs idc !! g = Some store → represents store m → healthy store → chunks_of ms g index ⊆ m →
  cafe_set idc node config env task old temp n →
  cafe_ready blake3 (view (eq id) (eq id)) config env (chunks_of ms g index) task index old temp n.
Proof.
  intros Hview Hnode Hon Hpack Hr Hh Hsub [[Ht _] _ _ _ Hdir Ho Hb Hc Hreach].
  split; rewrite ?Ht; try done.
  - apply Hpub.
  - intros h Hin. destruct (published_chunk h Hin) as [d Hd]. exists d. by apply chunks_of_lookup.
  - intros h d [Hd _]%chunks_of_lookup. by apply published_addressed.
  - intros e He. destruct (pb_files _ _ _ _ _ _ Hpub e He) as (ds & Hds & Hhash). exists ds. split; [|done].
    apply Forall2_same_length_lookup. split; [by eapply Forall2_length|]. intros i c bs Hi Hbs.
    apply chunks_of_lookup. split; [exact (Forall2_lookup_lr _ _ _ _ _ _ Hds Hi Hbs)|].
    apply elem_of_chunk_set, elem_of_chunk_list. exists e, c. split_and!; [done|by eapply list_elem_of_lookup_2|done].
  - intros h c [d [_ Hin]%chunks_of_lookup] Hv.
    destruct (view_peers to_error now _ _ _ _ _ id node h 5 c Hnode Hon Hin Hv) as (ps & Hq & Hps & Hone).
    exists c, ps. split_and!; [done..| |].
    + by exists (peer_of node).
    + intros p target Hp Htarget. rewrite (Hone p Hp) in Htarget.
      destruct (Hreach h target Htarget) as (Ha & Hcon & plane & ready & [Hpl Hnc] & Hx).
      split; [done|]. split; [done|]. rewrite Hx. intros hs ds Hl Hds.
      apply (answering_pack ready plane g store m); [apply Hpub| |done|done|apply Hnc|done|].
      * apply pack_of_open. by rewrite Hpl.
      * revert ds Hds. induction hs as [|h' hs IH]; intros [|d' ds] Hds; try done. cbn in Hds |- *.
        injection Hds as Hd' Hds. rewrite (lookup_weaken _ _ _ _ Hd' Hsub). f_equal. apply IH; [|done].
        rewrite lenN_cons in Hl. lia.
Qed.
End version.

Lemma version_reaches s ms g v manifest index id node t1 t2 config env readable task n n0 store m B :
  published s ms g v manifest index → idc_known s g index id node →
  idc_set s ms g v index config env task n n0 store m B →
  ∃ n', run_task blake3 config id env readable t1 task n = (n', Ok ()) ∧
    ∀ cafe_id config' env' task' old temp c,
      cafe_set ms g v index n' node config' env' task' old temp c →
      ∃ c', run_task blake3 config' cafe_id env' (Ok ()) t2 task' c = (c', Ok ()) ∧
        (∀ e, e ∈ gi_files index →
           ∃ f, gd_files (dir_of g c') !! fe_name e = Some f ∧ blake3 (f_data f) = fe_file_hash e) ∧
        (∀ p, p ∈ gone index old → gd_files (dir_of g c') !! p = None) ∧
        no_cafes c' !! g = Some (Some (build_map index)) ∧
        ∃ f w, gd_manifests (dir_of g c') !! manifest_name v = Some f ∧ f_data f = manifest ∧
          gd_manifests (dir_of g c') !! CURRENT = Some w ∧ f_data w = str_bytes (dec v).
Proof.
  intros Hpub Hknown Hset.
  destruct (idc_delivered s ms g v manifest index Hpub config env readable t1 task n n0 store m B id node Hset Hknown)
    as (n' & store' & m' & Hrun & Hp & Hr & Hh & Hsub & Hview).
  exists n'. split; [done|]. intros cafe_id config' env' task' old temp c Hcafe.
  destruct Hknown as [_ Hparse Hnode Hon _].
  pose proof (cafe_set_ready s ms g v manifest index Hpub n' store' m' id node config' env' task' old temp c
    Hview Hnode Hon Hp Hr Hh Hsub Hcafe) as Hready.
  destruct Hcafe as [[<- <-] Hty [addr Ha] Hworld _ _ _ _ _].
  set (view := sched_view _ _ _ _ _) in *.
  assert (RpcLive cafe_id (view (eq id) (eq id)) (view (eq id) (λ i, id = i ∨ cafe_id = i))) as Hlive
    by (apply view_live; auto).
  destruct (cafe_task_live blake3 (view (eq id) (eq id)) config' cafe_id env' (chunks_of ms (pt_game_id task') index) t2 task' manifest
    index old temp addr c) as (c' & w1 & w2 & Hrun' & Hfiles & Hgone & Hcur & Hman & _).
  - by rewrite Hworld.
  - done.
  - done.
  - by apply view_version.
  - apply Hpub.
  - exact Hready.
  - by exists c'.
Qed.
(** C12: The whole way of a version.  The scheduler announces it, the origin holds it
    (as in every state the system reaches), and no call of the databases, the stores
    and the files fails.  An IDC that reaches the origin runs its task: the task
    completes.  From then on any cafe that reaches that IDC, whether it has no
    version, an old one or an interrupted update, completes its task for the version
    on the same scheduler: every file of the version is there with the hash of its
    entry, the files it has dropped are gone, and the version is the current one. *)
Theorem version_delivered s ms g v manifest index id node t1 t2 config env readable task n n0 store m B :
  published s ms g v manifest index → idc_known s g index id node →
  idc_set s ms g v index config env task n n0 store m B →
  ∃ n', run_task blake3 config id env readable t1 task n = (n', Ok ()) ∧
    ∀ cafe_id config' env' task' old temp c,
      cafe_set ms g v index n' node config' env' task' old temp c →
      ∃ c', run_task blake3 config' cafe_id env' (Ok ()) t2 task' c = (c', Ok ()) ∧
        (∀ e, e ∈ gi_files index →
           ∃ f, gd_files (dir_of g c') !! fe_name e = Some f ∧ blake3 (f_data f) = fe_file_hash e) ∧
        (∀ p, p ∈ gone index old → gd_files (dir_of g c') !! p = None) ∧
        no_cafes c' !! g = Some (Some (build_map index)) ∧
        ∃ f w, gd_manifests (dir_of g c') !! manifest_name v = Some f ∧ f_data f = manifest ∧
          gd_manifests (dir_of g c') !! CURRENT = Some w ∧ f_data w = str_bytes (dec v).
Proof. exact (version_reaches s ms g v manifest index id node t1 t2 config env readable task n n0 store m B). Qed.
End delivery.

(** ** An example: one chunk, from an upload to the file of a cafe *)

#[local] Existing Instance SchedDb.sched_json.
#[local] Existing Instance SchedDb.sched_json_laws.
#[local] Existing Instance Map_source.
#[local] Existing Instance Map_source_laws.
#[local] Existing Instance Loopback.
#[local] Existing Instance mem_client.
#[local] Existing Instance Mem_quiet.
#[local] Existing Instance Idc_parse.
#[local] Existing Instance wf_files_dec.

(** A hash that tells all data of up to 31 bytes apart: their length, the bytes and a
    padding. *)
Definition tag_hash (d : list byte) : hash32 :=
  default (hash_rep xff) (hash_of (byte_of (lenN d) :: d ++ replicate (31 - length d) x00)).

Lemma tag_hash_inj d d' : lenN d < 32 → tag_hash d' = tag_hash d → d' = d.
Proof.
  unfold tag_hash. intros Hd. set (b := _ :: d ++ _). set (b' := _ :: d' ++ _).
  assert (∃ h, hash_of b = Some h ∧ hash_bytes h = b) as (h & Hb & Hh).
  { destruct (hash_of b) as [h|] eqn:Hb; [exists h; split; [done|by apply hash_of_Some]|].
    unfold hash_of in Hb. destruct (decide _) as [|Hl]; [done|]. exfalso. apply Hl. subst b.
    cbn [length]. rewrite length_app, length_replicate. unfold HASH_LEN, lenN in *. lia. }
  rewrite Hb. cbn [default from_option]. destruct (hash_of b') as [h'|] eqn:Hb'; cbn [default from_option].
  - intros Hx. change (h' = h) in Hx. subst h'. apply hash_of_Some in Hb'.
    pose proof (hash_bytes_length h) as Hl. rewrite Hb' in Hl. rewrite Hh in Hb'. subst b b'.
    cbn [length] in Hl. rewrite length_app, length_replicate in Hl. injection Hb' as Hlen Hbody.
    apply (f_equal byte_val) in Hlen. rewrite !byte_val_of in Hlen. unfold HASH_LEN, lenN in *.
    rewrite !N.mod_small in Hlen by lia. by apply app_inj_1 in Hbody as [? _]; [|lia].
  - intros Hx. exfalso. change (hash_rep xff = h) in Hx. subst h. subst b. injection Hh as Hx _.
    apply (f_equal byte_val) in Hx. rewrite byte_val_of in Hx. rewrite N.mod_small in Hx by lia.
    change (byte_val xff) with 255 in Hx. lia.
Qed.

(** *** The origin and the scheduler *)

Definition way_data : list byte := [x68; x65; x6c; x6c; x6f].
Definition way_hash : hash32 := tag_hash way_data.
Definition way_index : GameIndex :=
  build tag_hash [mkFile "game.exe" way_hash [mkChunk way_hash 5]].
Definition way_manifest : list byte := Manifest.encode way_index.
Definition way_stream : list (result Status UploadChunk) := [Ok (mkUploadChunk 7 (hash_bytes way_hash) way_data 0)].
Definition way_commit : CommitRequest :=
  mkCommit 7 1 way_manifest (hash_bytes (gi_manifest_hash way_index)).

(** The IDC has registered. *)
Definition way_register : RegisterRequest :=
  mkRegister "idc" "idc-1" [mkPAddr "10.0.0.2:42001" "config" ""] "".
Definition way_sched : ControlService MemDb := (register 100 100 way_register (ControlService_new SchedDb.mem_sched)).1.
Definition way_origin0 : Origin MemDb MemFile (ControlService MemDb) := UploadService_new ∅ way_sched.
Definition way_origin1 := (process_upload tag_hash way_stream way_origin0).1.1.
Definition way_origin2 := (commit_version tag_hash (Some "scheduler"%string) way_commit way_origin1).1.
Abbreviation way_system := (DataState MemDb MemFile (ControlService MemDb) (gmap hash32 (list byte))).
Definition way0 : way_system := mkData way_origin0 ∅ (mkConn [] []).
Definition way1 : way_system := set_origin way_origin1 way0.
Definition way2 : way_system := set_origin way_origin2 way1.
Definition way_db : MemDb := cs_store (or_sched (ds_origin way2)).
Definition way_node : NodeRecord :=
  SchedDb.mkNode 1 "idc" "idc-1" (nd_token (default (SchedDb.mkNode 0 "" "" "" [] "" 0) (nodes way_db !! 1)))
    [mkAddr "10.0.0.2:42001" "config" ""] "online" 100.

Lemma way0_inv : sys_inv tag_hash (λ _, ∅) way0.
Proof.
  apply initial_inv. intros g v. change (announced way_sched g v = None).
  rewrite (keeps_announced (ControlService_new SchedDb.mem_sched)) by (vm_compute; reflexivity).
  unfold announced, view. cbn. by rewrite omap_empty, lookup_empty.
Qed.

Lemma way0_room n : n < 2^32 → room way_origin0 7 n.
Proof.
  intros Hn o1 st Hp. assert (gs_size st = 0) as ->; [|done].
  change st with (default st (ok (o1, Ok st : result Status _).2)). rewrite <- Hp. reflexivity.
Qed.

Lemma way_inv : ∃ ms, sys_inv tag_hash ms way2.
Proof.
  assert (rtc (step tag_hash st_message "admin" "admin123" "scheduler") way0 way2) as Hsteps.
  { apply (rtc_l _ _ way1); [|apply rtc_once].
    - apply (step_upload _ _ _ _ _ way0 way_stream way_origin1
        (process_upload tag_hash way_stream way_origin0).1.2 (process_upload tag_hash way_stream way_origin0).2).
      + intros c [= <-]. split; [reflexivity|]. apply way0_room. vm_compute. reflexivity.
      + unfold way_origin1. change (ds_origin way0) with way_origin0.
        by destruct (process_upload tag_hash way_stream way_origin0) as [[o acks] r].
    - apply (step_commit _ _ _ _ _ way1 true way_commit way_origin2
        (commit_version tag_hash (Some "scheduler"%string) way_commit way_origin1).2); [reflexivity|].
      exact (surjective_pairing (commit_version tag_hash (Some "scheduler"%string) way_commit way_origin1)). }
  destruct (steps_inv _ _ _ _ _ _ _ _ Hsteps way0_inv) as (ms & Hi & _). by exists ms.
Qed.

Lemma way_chunk h : h ∈ chunk_set way_index ↔ h = way_hash.
Proof.
  unfold chunk_set. rewrite elem_of_list_to_set. change (chunk_list way_index) with [way_hash].
  apply list_elem_of_singleton.
Qed.

Lemma way_announced : announced (or_sched (ds_origin way2)) 7 1 = Some way_manifest.
Proof.
  assert (get_version way_db 7 1 = Ok (Some way_manifest)) as Ha by (vm_compute; reflexivity).
  by apply get_version_view in Ha.
Qed.

Lemma way_decodes : Manifest.decode tag_hash way_manifest = Ok way_index.
Proof.
  assert (match Manifest.decode tag_hash way_manifest with
    | Ok j => bool_decide (j = way_index) | Err _ => false end = true) as Hb by (vm_compute; reflexivity).
  destruct (Manifest.decode tag_hash way_manifest) as [j|]; [|done]. by apply bool_decide_eq_true in Hb as ->.
Qed.

(** Whatever the store of the origin is, it has the one chunk. *)
Lemma way_content ms : sys_inv tag_hash ms way2 → ms 7 !! way_hash = Some way_data.
Proof.
  intros Hinv. destruct (si_announced _ _ _ Hinv 7 1 way_manifest eq_refl way_announced) as (i & Hd & Hall).
  rewrite way_decodes in Hd. injection Hd as <-. destruct (Hall way_hash) as [d Hd]; [by apply way_chunk|].
  rewrite Hd. f_equal. apply tag_hash_inj; [reflexivity|]. by apply (si_addressed _ _ _ Hinv 7 eq_refl).
Qed.

Lemma way_published ms : sys_inv tag_hash ms way2 → published tag_hash way2 ms 7 1 way_manifest way_index.
Proof.
  intros Hinv. split; [done|reflexivity|exact way_announced|exact way_decodes| | | |].
  - apply origin_healthy_open; [apply _|]. vm_compute. by split.
  - assert (base.size (chunk_set way_index) = 1%nat) as -> by (vm_compute; reflexivity). vm_compute. reflexivity.
  - intros e He. change (e ∈ [mkFile "game.exe" way_hash [mkChunk way_hash 5]]) in He.
    apply list_elem_of_singleton in He as ->. exists [way_data]. split; [|reflexivity].
    constructor; [|constructor]. by apply way_content.
  - intros h d d' ->%way_chunk Hd Hd'. apply tag_hash_inj in Hd; [|reflexivity]. apply tag_hash_inj in Hd'; [|reflexivity].
    congruence.
Qed.

(** *** The IDC *)

Lemma way_known : idc_known way2 7 way_index 1 way_node.
Proof.
  split.
  - split.
    + vm_compute. reflexivity.
    + split_and!; vm_compute; set_solver.
    + intros k text Hk. refine (map_Forall_lookup_1 (λ _ text, Is_true (is_ok (Redb.decode (A:=NodeRecord) text))) (contents way_db NODES : gmap N string) k text _ Hk).
      apply (bool_decide_unpack _). vm_compute. exact I.
    + intros k text Hk. refine (map_Forall_lookup_1 (λ _ text, Is_true (is_ok (Redb.decode (A:=TaskRecord) text))) (contents way_db TASKS : gmap N string) k text _ Hk).
      apply (bool_decide_unpack _). vm_compute. exact I.
    + intros k text Hk. refine (map_Forall_lookup_1 (λ _ text, Is_true (is_ok (from_str (A:=list N) text))) (contents way_db CHUNKS : gmap string string) k text _ Hk).
      apply (bool_decide_unpack _). vm_compute. exact I.
  - intros i node a _ _. by eexists.
  - vm_compute. reflexivity.
  - reflexivity.
  - intros h i _ Hi. vm_compute in Hi. by apply elem_of_nil in Hi.
Qed.

Definition way_idc_config : AgentConfig :=
  agent_defaults (mkAgentToml Idc "data" None None None None None None None
    (Some "origin"%string) (Some "10.0.0.1:42001"%string) None None None None (Some "http://scheduler"%string)).
Definition way_idc_env : NetEnv :=
  mkNet (Ok ()) (λ k _, if Nat.eqb k 2 then answering true way2 else λ _, Err ["unreachable"%string])
    (λ _ n, n) (λ _, 0%nat).
Definition way_idc_task : Task := mkPTask 1 7 1 0 [hash_bytes way_hash].
Definition way_idc : Node (ControlService MemDb) MemDb MemFile :=
  mkNode (or_sched (ds_origin way2)) ∅ {[7 := mem_store]} ∅ ∅ ∅.

Lemma way_idc_set ms : sys_inv tag_hash ms way2 →
  idc_set tag_hash way2 ms 7 1 way_index way_idc_config way_idc_env way_idc_task way_idc way_idc mem_store ∅ 5.
Proof.
  intros Hinv. split.
  - by split.
  - reflexivity.
  - by eexists.
  - reflexivity.
  - vm_compute. reflexivity.
  - exact mem_store_empty.
  - exact mem_store_healthy.
  - by intros h d.
  - intros h d ->%way_chunk. rewrite (way_content ms Hinv). intros [= <-]. vm_compute. discriminate.
  - vm_compute. reflexivity.
  - reflexivity.
  - exists (mkTarget "origin" (Some "10.0.0.1:42001"%string) None false), Direct, true. by split_and!.
  - intros h ->%way_chunk _. left.
Qed.

(** *** The cafe *)

Definition way_cafe_config : AgentConfig :=
  agent_defaults (mkAgentToml Configs.Cafe "data" None None None None None None None None None None None None
    None (Some "http://scheduler"%string)).
Definition way_plane (idc : Node (ControlService MemDb) MemDb MemFile) :
    DataState MemDb MemFile () (gmap hash32 (list byte)) :=
  mkData (mkOrigin ∅ (no_packs idc) ∅ ()) ∅ (mkConn [] []).
Definition way_cafe_env (idc : Node (ControlService MemDb) MemDb MemFile) : NetEnv :=
  mkNet (Ok ()) (λ _ _, answering true (way_plane idc)) (λ _ n, n) (λ _, 0%nat).
Definition way_cafe_task : Task := mkPTask 2 7 1 0 [].
Definition way_cafe (idc : Node (ControlService MemDb) MemDb MemFile) : Node (ControlService MemDb) MemDb MemFile :=
  mkNode (no_world idc) ∅ ∅ ∅ ∅ ∅.

(** A cafe without any version. *)
Lemma way_dir_ready content : dir_ready tag_hash content way_index None ∅ (mkGameDir (F:=MemFile) ∅ ∅ ∅ 0).
Proof.
  split.
  - by exists None.
  - split; [vm_compute; reflexivity|]. split; [done|]. split; [by intros name b|].
    intros h [Hh|Hh]; [set_solver|by apply elem_of_nil in Hh].
  - apply (bool_decide_unpack _). vm_compute. exact I.
  - split; [apply (bool_decide_unpack _); vm_compute; exact I|].
    intros a b Ha [Hb|Hb]; [|by apply not_elem_of_empty in Hb].
    change (a ∈ ["game.exe"%string]) in Ha. change (b ∈ ["game.exe"%string]) in Hb.
    apply list_elem_of_singleton in Ha as ->, Hb as ->. vm_compute. discriminate.
  - by intros o f file.
  - by intros o f file h path off len bs.
  - intros e c _ _ _. exact I.
Qed.

Lemma way_cafe_set ms idc :
  cafe_set tag_hash ms 7 1 way_index idc way_node way_cafe_config (way_cafe_env idc) way_cafe_task None ∅
    (way_cafe idc) (K:=gmap hash32 (list byte)).
Proof.
  split.
  - by split.
  - reflexivity.
  - by eexists.
  - reflexivity.
  - apply way_dir_ready.
  - reflexivity.
  - reflexivity.
  - vm_compute. reflexivity.
  - intros h target Ht. unfold target_of in Ht.
    assert (pick_by_hash h [mkPAddr "10.0.0.2:42001" "config" ""] = Some (mkPAddr "10.0.0.2:42001" "config" "")) as Hp.
    { unfold pick_by_hash. by rewrite N.mod_1_r. }
    change (pe_addrs (peer_of way_node)) with [mkPAddr "10.0.0.2:42001" "config" ""] in Ht. rewrite Hp in Ht.
    injection Ht as <-. split; [by eexists|]. split; [exact I|].
    exists (way_plane idc), true. by split.
Qed.

Lemma version_delivered_witness :
  ∃ n' c', run_task (ControlRpc0:=scheduler (λ st, [st_message st]) 0) tag_hash way_idc_config 1 way_idc_env (Ok ())
      200 way_idc_task way_idc = (n', Ok ()) ∧
    run_task (ControlRpc0:=scheduler (λ st, [st_message st]) 0) tag_hash way_cafe_config 4 (way_cafe_env n') (Ok ())
      300 way_cafe_task (way_cafe n') = (c', Ok ()) ∧
    ∃ f, gd_files (dir_of 7 c') !! "game.exe"%string = Some f ∧ f_data f = way_data.
Proof.
  destruct way_inv as [ms Hinv].
  destruct (version_delivered tag_hash (λ st, [st_message st]) 0 way2 ms 7 1 way_manifest way_index 1 way_node 200 300
    way_idc_config way_idc_env (Ok ()) way_idc_task way_idc way_idc mem_store ∅ 5 (way_published ms Hinv) way_known
    (way_idc_set ms Hinv)) as (n' & Hrun & Hcafe).
  destruct (Hcafe 4 way_cafe_config (way_cafe_env n') way_cafe_task None ∅ (way_cafe n') (way_cafe_set ms n'))
    as (c' & Hrun' & Hfiles & _).
  exists n', c'. split; [exact Hrun|]. split; [exact Hrun'|].
  destruct (Hfiles (mkFile "game.exe" way_hash [mkChunk way_hash 5])) as (f & Hf & Hh); [left|].
  exists f. split; [exact Hf|]. by apply (tag_hash_inj way_data) in Hh.
Defined.
