(* ===== verification/ExecutorExamples.v ===== *)
(** * ExecutorExamples: tasks run in memory

    Two peers that hold everything, a scheduler that names both, an IDC and a
    cafe.  The theorems of ExecutorSpec and ExecutorTasks are applied here, and
    the last example shows how a write that fails once loses chunks. *)

From S2P Require Import Prelude Bytes Text FileIO Redb Manifest.
From S2P Require Import UpdatePlan Storage StorageSpec StorageBatch UploadSpec SchedControl.
From S2P Require Import DataPath DataPathSpec CafeStore CafeSpec Merge MergeSpec.
From S2P Require Import Configs AgentControl Executor ExecutorSpec ExecutorTasks.

(** ** The world: a log of what was reported *)

Definition toy_peer (id : N) (endpoint : string) : Peer :=
  mkPeer id endpoint [mkPAddr (endpoint ++ ":4433") "config" ""] false.

#[local] Instance Toy_rpc : ControlRpc (list string) := {|
  rpc_connect _ := mret ();
  rpc_register _ := throw ["unused"%string];
  rpc_heartbeat _ _ := mret ();
  rpc_report_task r := modify (λ log, log ++ [tr_status r]);
  rpc_report_chunk _ := modify (λ log, log ++ ["chunk"%string]);
  rpc_query_peers _ := mret [toy_peer 1 "even"; toy_peer 2 "odd"];
  rpc_get_version _ _ := mret (mkVersionInfo false 0 [])
|}.
#[local] Instance Toy_parse : NetParse := {| parse_socket := Some; parse_endpoint := Ok |}.
#[local] Instance Toy_dial : Dial := {|
  dial_direct _ _ := Ok (); parse_relay := Ok; dial_relay _ _ := Ok ()
|}.

(** A peer answers every hash it knows. *)
Fixpoint toy_answer (content : gmap hash32 (list byte)) (fuel : nat) (bs : list byte) : list byte :=
  match fuel, hash_of (take 32 bs) with
  | S fuel, Some h =>
    match content !! h with
    | Some d => frame d ++ toy_answer content fuel (drop 32 bs)
    | None => []
    end
  | _, _ => []
  end.
Definition toy_env (content : gmap hash32 (list byte)) : NetEnv :=
  mkNet (Ok ()) (λ _ _ req, Ok (toy_answer content (length req) (drop 12 req))) (λ _ n, n) (λ _, 0%nat).

Definition toy_config (t : NodeType) : AgentConfig :=
  agent_defaults (mkAgentToml t "data" None None None None None None None None None None None None None
    (Some "http://scheduler"%string)).
Definition toy_content : gmap hash32 (list byte) :=
  list_to_map [(toy_hash he, he); (toy_hash llo, llo); (toy_hash bye, bye)].
Definition toy_task : Task := mkPTask 1 7 2 0 [].

(** ** download_missing *)

Definition toy_missing : list hash32 := [toy_hash he; toy_hash llo].
Definition toy_sink : hash32 → list byte → M (list (list byte)) error () :=
  λ _ d, modify (λ t, t ++ [d]).


(** ** An IDC *)

Definition idc_index : GameIndex := build toy_hash [entry_of "a.bin" [he; llo]; entry_of "b.bin" [bye]].
Definition idc_node : Node (list string) MemDb MemFile :=
  mkNode [] ∅ {[7 := mem_store]} ∅ ∅ ∅.


(** ** A cafe: the update of MergeSpec's example, with one block to download *)

Definition bytes_of (i : GameIndex) : list byte := Manifest.encode i.
Definition mem (bs : list byte) : MemFile := FileIO.mkFile bs 3.
Definition cafe_dir : GameDir MemFile :=
  mkGameDir (gd_files merge_dir) ∅
    (list_to_map [(CURRENT, mem (str_bytes "1")); (manifest_name 1, mem (bytes_of merge_old))]) 0.
Definition cafe_node : Node (list string) MemDb MemFile := mkNode [] ∅ ∅ {[7 := cafe_dir]} ∅ ∅.
Definition cafe_prepared : Node (list string) MemDb MemFile * result Stop (option GameIndex) :=
  cafe_prepare toy_hash (toy_config Cafe) (toy_env toy_content) (Ok ()) 0 7 merge_new cafe_node.

#[local] Instance DirFile_eq_dec : EqDecision (DirFile MemFile).
Proof. assert (EqDecision MemFile) by solve_decision. solve_decision. Defined.

Lemma cafe_prepared_run :
  cafe_prepared.2 = Ok (Some merge_old) ∧
  gd_temp (dir_of 7 cafe_prepared.1) = {[block_name (toy_hash llo) := mkDirFile (mem llo) 0]}.
Proof.
  split; [|apply (bool_decide_unpack _); vm_compute; exact I].
  assert (match cafe_prepared.2 with
          | Ok (Some i) => bool_decide (i = merge_old)
          | _ => false
          end = true) as Hb by (vm_compute; reflexivity).
  destruct cafe_prepared.2 as [[i|]|]; [|done..]. by apply bool_decide_eq_true in Hb as ->.
Qed.

Lemma decode_bytes_of i : match Manifest.decode toy_hash (bytes_of i) with
    | Ok j => bool_decide (j = i) | Err _ => false end = true →
  Manifest.decode toy_hash (bytes_of i) = Ok i.
Proof. destruct (Manifest.decode _ _); [|done]. by intros ->%bool_decide_eq_true. Qed.

Lemma cafe_mergeable old n1 :
  cafe_prepare toy_hash (toy_config Cafe) (toy_env toy_content) (Ok ()) 0 7 merge_new cafe_node =
    (n1, Ok old) → mergeable merge_new old (dir_of 7 n1).
Proof.
  intros Hp. change (cafe_prepared = (n1, Ok old)) in Hp.
  destruct cafe_prepared_run as [Hr Ht]. rewrite Hp in Hr, Ht. cbn [fst snd] in Hr, Ht.
  injection Hr as ->. destruct merge_example_mergeable as [H1 H2 H3 H4]. split; [exact H1|exact H2| |exact H4].
  intros n f Hf. rewrite Ht in Hf. apply lookup_singleton_Some in Hf as [_ <-]. vm_compute. reflexivity.
Qed.

Lemma cafe_intact o f file bytes :
  current_manifest_bytes (dir_of 7 cafe_node) = Ok (Some bytes) →
  Manifest.decode toy_hash bytes = Ok o → f ∈ gi_files o →
  gd_files (dir_of 7 cafe_node) !! fe_name f = Some file → toy_hash (f_data file) = fe_file_hash f.
Proof.
  intros Hb Hd Hf Hfile.
  assert (current_manifest_bytes (dir_of 7 cafe_node) = Ok (Some (bytes_of merge_old))) as Hb'
    by (vm_compute; reflexivity).
  rewrite Hb in Hb'. injection Hb' as ->.
  assert (Manifest.decode toy_hash (bytes_of merge_old) = Ok merge_old) as Hd'
    by (apply decode_bytes_of; vm_compute; reflexivity).
  rewrite Hd in Hd'. injection Hd' as ->.
  assert (f = entry_of "a.bin" [he; bye] ∨ f = entry_of "b.bin" [bye] ∨ f = entry_of "d.bin" [he])
    as [->|[->| ->]].
  { change (f ∈ [entry_of "a.bin" [he; bye]; entry_of "b.bin" [bye]; entry_of "d.bin" [he]]) in Hf.
    clear -Hf. set_solver. }
  all: vm_compute in Hfile; injection Hfile as <-; vm_compute; reflexivity.
Qed.


(** ** A batch that is lost

    The pending batch is shared by the transfers of a round.  When writing it
    fails, the transfer whose chunk filled it is counted as failed and its chunks
    are fetched again; the other chunks of the batch are counted as downloaded,
    though nothing holds them any more.  The next write succeeds, the task returns,
    and all 64 chunks are reported as held while the store has one. *)

(** A file whose first write fails. *)
Definition Flaky : Type := MemFile * bool.

#[local] Instance Flaky_ops : FileOps Flaky := {
  f_read f := f_read f.1;
  f_write f bs off :=
    if f.2 then ((f.1, false), bail "No space left on device")
    else let r := f_write f.1 bs off in ((r.1, false), r.2);
  f_data f := f_data f.1;
  f_healthy _ := False
}.
#[local] Instance Flaky_compio : CompioOps Flaky := {
  cp_open f := cp_open f.1;
  cp_create := f ← cp_create; Ok (f, false);
  cp_read_exact f := cp_read_exact f.1;
  cp_write_all f bs off := g ← cp_write_all f.1 bs off; Ok (g, f.2);
  cp_sync f := cp_sync f.1;
  cp_close f := cp_close f.1
}.
#[local] Instance Flaky_open : OpenOps MemDb Flaky := {
  dir_create := Ok ();
  db_create o := Ok (default mem_empty o);
  file_open_create o := Ok (default (FileIO.mkFile [] 3, true) o);
  file_len f := Ok (lenN (f_data f));
  file_rename := Ok ();
  file_reopen _ := Ok ()
}.
#[local] Instance Flaky_dir : DirOps Flaky := {
  fs_read f := fs_read f.1;
  fs_open f := fs_open f.1;
  fs_call _ := Ok ();
  fs_write_file _ bs := (Some (mem bs, false), Ok ())
}.

(** 63 chunks whose hash starts with an even byte, and one odd. *)
Definition lost_chunks : list (list byte) :=
  [byte_of 0] :: ((λ i, [byte_of (2 * N.of_nat i + 1)]) <$> seq 0 63).
Definition lost_index : GameIndex := build toy_hash [entry_of "a.bin" lost_chunks].
Definition lost_content : gmap hash32 (list byte) :=
  list_to_map ((λ d, (toy_hash d, d)) <$> lost_chunks).
Definition lost_env : NetEnv :=
  mkNet (Ok ()) (λ _ _ req, Ok (toy_answer lost_content (length req) (drop 12 req)))
    (λ _ n, if (n <? 63)%nat then 1%nat else 0%nat) (λ _, 0%nat).
Definition lost_run : Node (list string) MemDb Flaky * result Stop () :=
  run_idc toy_hash (toy_config Idc) 3 lost_env toy_task lost_index (mkNode [] ∅ ∅ ∅ ∅ ∅).

(** How many of the chunks of the version the store of the game has. *)
Definition stored_chunks (n : Node (list string) MemDb Flaky) : option nat :=
  store ← no_packs n !! 7;
  Some (length (filter (λ h, match GameStore_contains store h with Ok b => b | Err _ => false end = true)
    (elements (chunk_set lost_index)))).

(** The result of the run, its reports, and the chunks in the store afterwards. *)
Definition lost_outcome : bool * list string * option nat :=
  let r := lost_run in
  (match r.2 with Ok _ => true | Err _ => false end, no_world r.1, stored_chunks r.1).

Lemma idc_lost_batch : lost_outcome = (true, replicate 64 "chunk"%string, Some 1%nat).
Proof. vm_compute. reflexivity. Qed.
