(* ===== verification/ConfigsSpec.v ===== *)
(** * ConfigsSpec: what a configuration that loads is worth

    The four validations are a chain of refusals.  Here each is the conjunction
    of what the rest of the program relies on: ports above 10000, positive limits
    and intervals, addresses that parse, chunk sizes in order, an origin exactly
    where one is allowed. *)

From S2P Require Import Prelude Bytes Text FileIO Storage DataPath Configs AgentControl Executor.

(** ** Refusals *)

Lemma refuse_then {A} b msg (k : result error A) v :
  (refuse b msg;; k) = Ok v ↔ b = false ∧ k = Ok v.
Proof. destruct b; cbn; naive_solver. Qed.

Lemma refuse_ok b msg : refuse b msg = Ok () ↔ b = false.
Proof. destruct b; naive_solver. Qed.

Lemma then_ok {A} (m : result error ()) (k : result error A) v :
  (m;; k) = Ok v ↔ m = Ok () ∧ k = Ok v.
Proof. destruct m as [[]|e]; cbn; naive_solver. Qed.

Lemma load_with_ok `{!ReadText} {R C} (from_str : string → result error R) (fill : R → C) validate path c :
  load_with from_str fill validate path = Ok c ↔
  ∃ text raw, read_text path = Ok text ∧ from_str text = Ok raw ∧ c = fill raw ∧ validate c = Ok ().
Proof.
  unfold load_with. split.
  - intros Hl. apply bind_Ok_inv in Hl as (text & Ht%with_context_Ok_inv & Hl).
    apply bind_Ok_inv in Hl as (raw & Hr%with_context_Ok_inv & Hl). apply then_ok in Hl as [Hv [= <-]].
    by exists text, raw.
  - intros (text & raw & Ht & Hr & -> & Hv). rewrite Ht. cbn. rewrite Hr. cbn. by rewrite Hv.
Qed.

Section wf.
Context `{!NetParse, !ReadText}.

Definition socket_opt (addr : option string) : Prop := ∀ a, addr = Some a → is_Some (parse_socket a).
Definition http_opt (addr : option string) : Prop := ∀ a, addr = Some a → is_http a = true.

Lemma check_socket_ok msg addr : check_socket msg addr = Ok () ↔ socket_opt addr.
Proof.
  unfold check_socket, socket_opt. destruct addr as [a|]; [|naive_solver].
  rewrite refuse_ok, bool_decide_eq_false. split.
  - intros Hn a' [= <-]. destruct (parse_socket a); [by eexists|done].
  - intros Ha Hn. destruct (Ha a eq_refl) as [s Hs]. by rewrite Hs in Hn.
Qed.

Lemma check_http_ok msg addr : check_http msg addr = Ok () ↔ http_opt addr.
Proof.
  unfold check_http, http_opt. destruct addr as [a|]; [|naive_solver].
  rewrite refuse_ok, negb_false_iff. naive_solver.
Qed.

Lemma bind_addr_ok (addr : string) :
  negb (is_ok (bind_socket_addr addr)) = false ↔ is_Some (parse_socket addr).
Proof. unfold bind_socket_addr. destruct (parse_socket addr); cbn; split; try done; by intros []. Qed.

(** ** The four programs *)

Record agent_wf (c : AgentConfig) : Prop := {
  aw_data_dir : ac_data_dir c ≠ ""%string;
  aw_permits : 0 < ac_concurrent_games c ∧ 0 < ac_chunk_concurrency c;
  aw_disk : 0 < ac_disk_free_threshold c;
  aw_compact : unit_range (ac_compact_threshold c) = true;
  aw_listen : 10000 < ac_listen_port c;
  aw_ttl : 0 < ac_temp_ttl_hours c;
  aw_mbps mbps : ac_download_mbps c = Some mbps → 0 < mbps;
  aw_origin : is_Some (ac_origin_endpoint c) ↔ is_Some (ac_origin_addr c);
  aw_cafe : ac_node_type c = Cafe → ac_origin_endpoint c = None;
  aw_origin_addr : socket_opt (ac_origin_addr c);
  aw_keepalive port : ac_keepalive_port c = Some port → 10000 < port;
  aw_external : socket_opt (ac_external_addr c);
  aw_stun : socket_opt (ac_stun_addr c);
  aw_control : http_opt (ac_control_addr c)
}.

Record origin_wf (c : OriginConfig) : Prop := {
  ow_data_dir : oc_data_dir c ≠ ""%string;
  ow_bind : is_Some (parse_socket (oc_bind_addr c));
  ow_listen : 10000 < oc_listen_port c;
  ow_external : socket_opt (oc_external_addr c);
  ow_scheduler : http_opt (oc_scheduler_addr c);
  ow_compact : unit_range (oc_compact_threshold c) = true;
  ow_free : 0 < oc_min_free_bytes c
}.

Record sched_wf (c : SchedConfig) : Prop := {
  sw_data_dir : sc_data_dir c ≠ ""%string;
  sw_bind : is_Some (parse_socket (sc_bind_addr c));
  sw_http_bind : is_Some (parse_socket (sc_http_bind_addr c));
  sw_heartbeat : 0 < sc_heartbeat_interval_secs c;
  sw_offline : 0 < sc_offline_timeout_secs c;
  sw_two_beats : 2 * sc_heartbeat_interval_secs c ≤ sc_offline_timeout_secs c;
  sw_keepalive : 0 < sc_keepalive_interval_secs c ∧ 0 < sc_keepalive_fail_threshold c;
  sw_admin : sc_admin_user c ≠ ""%string ∧ sc_admin_password c ≠ ""%string;
  sw_backup : 0 < sc_backup_interval_hours c
}.

(** What [Cdc] needs of the chunk sizes. *)
Record producer_wf (is_dir : string → bool) (c : ProducerConfig) : Prop := {
  pw_game : 0 < pc_game_id c;
  pw_version : 0 < pc_version c;
  pw_min : DEFAULT_CHUNK_MIN ≤ cp_min_size (pc_chunk c);
  pw_order : cp_min_size (pc_chunk c) < cp_avg_size (pc_chunk c) ≤ cp_max_size (pc_chunk c);
  pw_source : is_dir (pc_source_dir c) = true
}.

Lemma agent_validate_ok c : agent_validate c = Ok () ↔ agent_wf c.
Proof.
  unfold agent_validate. rewrite !refuse_then, !then_ok, refuse_ok, !check_socket_ok, check_http_ok.
  rewrite String.eqb_neq, orb_false_iff, !N.eqb_neq, !N.ltb_ge, !negb_false_iff.
  rewrite andb_false_iff, orb_false_iff, !bool_decide_eq_false, <- !eq_None_not_Some.
  split.
  - intros (H1 & (H2 & H3) & H4 & H5 & H6 & H7 & H8 & H9 & H10 & H11 & H12 & H13 & H14 & H15).
    split; try done; try lia.
    + intros mbps Hm. rewrite Hm in H8. apply N.eqb_neq in H8. lia.
    + apply eqb_prop in H9. do 2 case_bool_decide; naive_solver.
    + naive_solver.
    + intros port Hp. rewrite Hp in H12. apply N.ltb_ge in H12. lia.
  - intros [H1 [H2 H3] H4 H5 H6 H7 H8 H9 H10 H11 H12 H13 H14 H15].
    split_and!; try done; try lia.
    + destruct (ac_download_mbps c) as [mbps|]; [|done]. apply N.eqb_neq. specialize (H8 _ eq_refl). lia.
    + apply eqb_true_iff. do 2 case_bool_decide; naive_solver.
    + destruct (decide (ac_node_type c = Cafe)) as [Ht|]; [right|by left]. split; [by apply H10|].
      apply eq_None_not_Some. rewrite <- H9, (H10 Ht). by intros [].
    + destruct (ac_keepalive_port c) as [port|]; [|done]. apply N.ltb_ge. specialize (H12 _ eq_refl). lia.
Qed.

Lemma origin_validate_ok c : origin_validate c = Ok () ↔ origin_wf c.
Proof.
  unfold origin_validate. rewrite !refuse_then, !then_ok, check_socket_ok, check_http_ok.
  rewrite !refuse_ok, bind_addr_ok, String.eqb_neq, N.eqb_neq, N.ltb_ge, negb_false_iff. split.
  - intros (H1 & H2 & H3 & H4 & H5 & H6 & H7). split; try done; lia.
  - intros [H1 H2 H3 H4 H5 H6 H7]. split_and!; try done; lia.
Qed.

(** TOML integers are below 2^63, so twice the interval does not wrap. *)
Lemma sched_validate_ok c :
  sc_heartbeat_interval_secs c < 2^63 → sched_validate c = Ok () ↔ sched_wf c.
Proof.
  intros Hb. unfold sched_validate. rewrite !refuse_then, refuse_ok.
  assert (as_u64 (sc_heartbeat_interval_secs c * 2) = 2 * sc_heartbeat_interval_secs c) as ->
    by (unfold as_u64; rewrite N.mod_small; lia).
  change (http_bind_socket_addr (sc_http_bind_addr c)) with
    (with_context ("http_bind_addr 非法: " ++ sc_http_bind_addr c)
      (ok_or ["invalid socket address syntax"%string] (parse_socket (sc_http_bind_addr c)))).
  rewrite bind_addr_ok, !orb_false_iff, !String.eqb_neq, !N.eqb_neq, N.ltb_ge. split.
  - intros (H1 & H2 & H3 & (H4 & H5) & H6 & (H7 & H8) & H9 & H10). split; try done; try lia.
    destruct (parse_socket (sc_http_bind_addr c)); [by eexists|done].
  - intros [H1 H2 [a H3] H4 H5 H6 H7 H8 H9]. rewrite H3. split_and!; try done; try lia; apply H8.
Qed.

Lemma producer_validate_ok is_dir c : producer_validate is_dir c = Ok () ↔ producer_wf is_dir c.
Proof.
  unfold producer_validate. cbv zeta. rewrite !refuse_then, refuse_ok.
  rewrite !negb_false_iff, andb_true_iff, !N.eqb_neq, N.ltb_ge, N.ltb_lt, N.leb_le. split.
  - intros (H1 & H2 & H3 & H4 & H5). split; try done; lia.
  - intros [H1 H2 H3 H4 H5]. split_and!; try done; lia.
Qed.

(** ** Loading *)

(** The integers of a TOML file are signed 64-bit. *)
Definition toml_ints (t : SchedToml) : Prop :=
  ∀ n, st_heartbeat_interval_secs t = Some n → n < 2^63.


(** ** The smallest files *)

(** Only the fields without a default. *)
Definition agent_min (t : NodeType) (dir : string) : AgentToml :=
  mkAgentToml t dir None None None None None None None None None None None None None None.
Definition origin_min (dir : string) : OriginToml := mkOriginToml dir None None None None None None None.
Definition sched_min (dir : string) : SchedToml :=
  mkSchedToml dir None None None None None None None None None None None.

Lemma minimal_files dir t :
  dir ≠ ""%string → is_Some (parse_socket ORIGIN_BIND_ADDR) → is_Some (parse_socket SCHED_BIND_ADDR) →
  is_Some (parse_socket DEFAULT_HTTP_BIND_ADDR) →
  agent_wf (agent_defaults (agent_min t dir)) ∧ origin_wf (origin_defaults (origin_min dir)) ∧
  sched_wf (sched_defaults (sched_min dir)).
Proof.
  intros Hd H1 H2 H3. split_and!; split; try done; try reflexivity; try (by split); cbn; by intros ?.
Qed.

End wf.

(** Twice the interval wraps at 64 bits: an interval no TOML file can hold passes. *)
Lemma sched_validate_wraps `{!NetParse} :
  is_Some (parse_socket SCHED_BIND_ADDR) → is_Some (parse_socket DEFAULT_HTTP_BIND_ADDR) →
  sched_validate (sched_defaults (mkSchedToml "data" None None (Some (2^63)) (Some 1) None None None None None
    None None)) = Ok ().
Proof.
  intros [a Ha] [b Hb]. unfold sched_validate, http_bind_socket_addr, bind_socket_addr. cbn [sched_defaults].
  cbn. unfold SCHED_BIND_ADDR, DEFAULT_HTTP_BIND_ADDR in *. by rewrite Ha, Hb.
Qed.
