(* ===== verification/Entry.v ===== *)
(** * Entry: the entry points of the programs (main.rs of agent, origin, scheduler
    and relay; load_from_args of their lib.rs; Config and run of relay/src/lib.rs)

    What each program does from its command line to the services it runs.  The
    relay's own servers are iroh's: an interface says whether they start and stop. *)

From S2P Require Import Prelude Bytes Text FileIO Redb SchedDb SchedControl SchedHttp Storage DataPath.
From S2P Require Import Configs AgentControl Executor ConfigsSpec Services.

(** ** The relay's configuration and arguments *)

(** The addresses are parsed by the TOML parser; there is no validation. *)
Record RelayConfig := mkRelayConfig {
  rl_udp_echo_addr : string; rl_data_relay_enabled : bool; rl_http_bind_addr : string;
  rl_https_bind_addr : string; rl_quic_bind_addr : string
}.

Definition relay_from_file `{!ReadText} (from_str : string → result error RelayConfig) (path : string) :
    result error RelayConfig :=
  text ← with_context ("读取配置文件失败: " ++ path) (read_text path);
  with_context "解析配置文件失败" (from_str text).

(** The arguments after the name of the program. *)
Definition relay_args (args : list string) : result error string :=
  config_arg ← ok_or ["缺少 --config 参数"%string] (args !! 0%nat);
  path ← ok_or ["缺少 --config 参数值"%string] (args !! 1%nat);
  if negb (String.eqb config_arg "--config") || bool_decide (is_Some (args !! 2%nat))
  then bail "用法: relay --config <配置文件>" else mret path.

(** ** Running the relay *)

(** Binding the echo socket and asking for its address; iroh's two servers and
    their shutdown. *)
Class RelayHost := {
  rh_bind : string → result error ();
  rh_local_addr : result error string;
  rh_iroh : RelayConfig → result error ();
  rh_quic : RelayConfig → result error ();
  rh_shutdown : result error ()
}.

(** What is running, in the order of its start. *)
Inductive RelayService := EchoService (addr : string) | IrohRelay | QuicAddress.

Section relay.
Context `{!RelayHost, !ReadText}.
Abbreviation relayM := (M (list RelayService) error).

Definition started (s : RelayService) : relayM () := modify (λ running, running ++ [s]).

Definition spawn_echo (addr : string) : relayM string :=
  lift (with_context ("绑定地址回显服务失败: " ++ addr) (rh_bind addr));;
  local ← lift (with_context "获取地址回显监听地址失败" rh_local_addr);
  started (EchoService local);;
  mret local.

Definition spawn_server (config : RelayConfig) : relayM () :=
  if rl_data_relay_enabled config then
    lift (with_context "启动 iroh relay 失败" (rh_iroh config));;
    started IrohRelay
  else
    lift (with_context "启动 QUIC 地址观测失败" (rh_quic config));;
    started QuicAddress.

(** Up to the wait for [stop]. *)
Definition relay_start (config : RelayConfig) : relayM () :=
  spawn_echo (rl_udp_echo_addr config);;
  spawn_server config.

(** After [stop]; an error of the shutdown leaves before the echo loop is told,
    but its channel closes with the function, which stops the loop as well. *)
Definition relay_stop : relayM () :=
  lift (with_context "relay 服务关闭失败" rh_shutdown);;
  modify (λ _, []).

Definition relay_run (config : RelayConfig) : relayM () :=
  relay_start config;;
  relay_stop.

Definition relay_main (from_str : string → result error RelayConfig) (args : list string) : relayM () :=
  path ← lift (relay_args args);
  config ← lift (relay_from_file from_str path);
  relay_run config.
End relay.

(** ** The other programs *)

Section mains.
Context `{!Host, !NetParse, !ReadText}.

Definition origin_load_from_args (from_str : string → result error OriginToml) (args : list string) :
    result error OriginConfig :=
  path ← parse_args "origin" args;
  config ← origin_load from_str path;
  mret config.

Definition sched_load_from_args (from_str : string → result error SchedToml) (args : list string) :
    result error SchedConfig :=
  path ← parse_args "scheduler" args;
  config ← sched_load from_str path;
  mret config.

Definition origin_main (from_str : string → result error OriginToml) (args : list string) :
    result error (list Service) :=
  config ← origin_load_from_args from_str args;
  origin_run config.

Definition sched_main {D} `{!RedbOps D, !SchedJson, !JsonOps Snapshot}
    (write_file : string → string → result error ()) (from_str : string → result error SchedToml)
    (args : list string) (opened : result error D) (secs : N) :
    result error (ControlService D * list Service) :=
  config ← sched_load_from_args from_str args;
  scheduler_run write_file config opened secs.

Definition agent_main {W} `{!ControlRpc W} (exchange : string → N → result error (string * string))
    (socket_ip : string → string) (from_str : string → result error AgentToml) (args : list string) :
    M W error AgentHandle :=
  path ← lift (parse_args "agent" args);
  config ← lift (agent_load from_str path);
  agent_start exchange socket_ip config.

(** [run_from_args] loads the configuration; nothing calls it. *)
Definition run_from_args (from_str : string → result error AgentToml) (args : list string) :
    result error () :=
  agent_resolve from_str args;;
  mret ().

(** ** A program that runs has a well-formed configuration *)

Lemma parse_args_ok program args path :
  parse_args program args = Ok path ↔ ∃ name, args = [name; "--config"%string; path].
Proof.
  split; [|by intros [name ->]]. destruct args as [|name [|opt [|p [|? args]]]]; try done. cbn.
  destruct (String.eqb_spec opt "--config") as [->|]; [|done]. intros [= ->]. by exists name.
Qed.

Lemma external_parses config exchange external :
  external_addr config exchange = Ok (Some external) → ∃ text, parse_socket text = Some external.
Proof.
  assert (∀ s a, socket_addr s = Ok a → parse_socket s = Some a) as Hs.
  { intros s a. unfold socket_addr. destruct (parse_socket s); [|done]. by intros [= ->]. }
  unfold external_addr. destruct (ac_external_addr config) as [addr|].
  - intros Hx. apply bind_Ok_inv in Hx as (a & Ha & [= ->]). exists addr. by apply Hs.
  - destruct (ac_stun_addr config) as [server|]; [|done]. intros Hx.
    apply bind_Ok_inv in Hx as (a & Ha & [= ->]). unfold discover in Ha.
    apply bind_Ok_inv in Ha as (sa & _ & Ha). apply bind_Ok_inv in Ha as ([text src] & _ & Ha).
    case_decide; [done|]. apply bind_Ok_inv in Ha as (addr_text & _ & Ha%with_context_Ok_inv).
    exists addr_text. by apply Hs.
Qed.

(** Which services an agent runs follows from its file. *)
Lemma agent_main_ok {W} `{!ControlRpc W} exchange socket_ip from_str args (w w' : W) handle :
  agent_main exchange socket_ip from_str args w = (w', Ok handle) →
  ∃ name path config, args = [name; "--config"%string; path] ∧ agent_load from_str path = Ok config ∧
    agent_wf config ∧ agent_start exchange socket_ip config w = (w', Ok handle).
Proof.
  intros Hm. unfold agent_main in Hm. m_step Hm as w1 path e Hp; unfold lift in Hp. injection Hp as <- Hp.
  m_step Hm as w1 config e Hl; unfold lift in Hl. injection Hl as <- Hl.
  apply parse_args_ok in Hp as [name ->]. exists name, path, config. split; [done|]. split; [done|].
  split; [|done]. unfold agent_load in Hl. apply load_with_ok in Hl as (text & t & _ & _ & -> & Hv).
  by apply agent_validate_ok.
Qed.

Lemma origin_main_ok from_str args services :
  origin_main from_str args = Ok services →
  ∃ config addr id, origin_wf config ∧ parse_socket (oc_bind_addr config) = Some addr ∧
    services = [UploadRpcServer addr (oc_scheduler_addr config); DataPlane id true].
Proof.
  intros Hm. apply bind_Ok_inv in Hm as (config & Hl & Hm). exists config.
  apply bind_Ok_inv in Hl as (path & _ & Hl). apply bind_Ok_inv in Hl as (c & Hl & [= ->]).
  unfold origin_load in Hl. apply load_with_ok in Hl as (text & t & _ & _ & -> & Hv).
  apply origin_validate_ok in Hv. unfold origin_run in Hm. apply then_ok in Hm as [_ Hm].
  apply bind_Ok_inv in Hm as (addr & Ha & Hm). apply then_ok in Hm as [_ Hm].
  apply bind_Ok_inv in Hm as (ext & _ & Hm). apply bind_Ok_inv in Hm as (handle & _ & [= <-]).
  exists addr, (dh_endpoint_id handle). split; [done|]. split; [|done].
  unfold bind_socket_addr in Ha. apply with_context_Ok_inv in Ha.
  destruct (parse_socket _); [by injection Ha as ->|done].
Qed.
End mains.

(** ** The two modes of the relay *)

(** Signalling always runs; the data relay only when it is enabled; and nothing is
    left running after a stop that succeeds. *)
Lemma relay_modes `{!RelayHost} config running :
  relay_start config [] = (running, Ok ()) →
  (∃ addr, EchoService addr ∈ running) ∧
  (IrohRelay ∈ running ↔ rl_data_relay_enabled config = true) ∧
  (QuicAddress ∈ running ↔ rl_data_relay_enabled config = false) ∧
  (is_ok rh_shutdown → relay_run config [] = ([], Ok ())).
Proof.
  intros Hs. assert (is_ok rh_shutdown → relay_run config [] = ([], Ok ())) as Hrun.
  { intros Hd. unfold relay_run. rewrite (M_bind_ok _ _ _ _ _ Hs). unfold relay_stop, lift, mbind, M_bind.
    by destruct rh_shutdown as [[]|]. }
  unfold relay_start, spawn_echo in Hs. m_step Hs as r1 local e He. m_step He as r2 [] e H1; unfold lift in H1.
  injection H1 as <- _. m_step He as r3 l e H2; unfold lift in H2. injection H2 as <- _.
  injection He as <- <-. unfold spawn_server in Hs. destruct (rl_data_relay_enabled config).
  all: m_step Hs as r4 [] e H3; unfold lift in H3; injection H3 as <- _; injection Hs as <-.
  all: cbn [app]; split_and!; [exists l; left|set_solver..|done].
Qed.
