(* ===== verification/Producer.v ===== *)
(** * Producer: making and publishing a version (crates/producer/src)

    The chunker, one run of the producer, and its upload client.  FastCDC, the
    calls of the file system and the origin behind its stub are interfaces; the
    state is the output directory, the set of staged hashes and the world behind
    the stub. *)

From S2P Require Import Prelude Bytes Text Manifest UpdatePlan SchedControl.
From S2P Require Import Upload Configs.

(** ** Directories

    A tree as the run sees it; a path is the list of its components. *)
Inductive Tree := TFile (data : list byte) | TDir (entries : list (string * Tree)) | TOther.
Definition path : Type := list string.

Fixpoint path_text (p : path) : string :=
  match p with
  | [] => ""
  | [name] => name
  | name :: p => (name ++ "/" ++ path_text p)%string
  end.

Definition child (name : string) (t : Tree) : option Tree :=
  match t with
  | TDir entries => snd <$> head (filter (λ e : string * Tree, e.1 = name) entries)
  | _ => None
  end.
Fixpoint subtree (t : Tree) (p : path) : option Tree :=
  match p with
  | [] => Some t
  | name :: p => t ← child name t; subtree t p
  end.
Definition file_data (t : Tree) (p : path) : option (list byte) :=
  match subtree t p with Some (TFile data) => Some data | _ => None end.

(** [root.join(rel).display()] *)
Definition display (root : string) (rel : path) : string :=
  match rel with [] => root | _ => (root ++ "/" ++ path_text rel)%string end.

(** [Path]'s order compares component by component. *)
Fixpoint path_leb (p q : path) : bool :=
  match p, q with
  | [], _ => true
  | _ :: _, [] => false
  | a :: p, b :: q => if decide (a = b) then path_leb p q else bool_decide (str_le a b)
  end.

(** [name.replace('\\', "/")] *)
Fixpoint replace_backslash (s : string) : string :=
  match s with
  | EmptyString => EmptyString
  | String c s => String (if decide (c = "092"%char) then "/"%char else c) (replace_backslash s)
  end.

(** ** Interfaces *)

(** [fastcdc::v2020::StreamCDC::new(reader, min, avg, max)]: its items. *)
Class Cdc := { stream_cdc : N → N → N → list byte → list (result error (list byte)) }.
(** The chunks tile what is read, and none is longer than the maximum. *)
Class CdcLaws `{!Cdc} : Prop := {
  cdc_tiles min avg max data chunks :
    mapM id (stream_cdc min avg max data) = Ok chunks → mjoin chunks = data;
  cdc_max min avg max data chunk :
    Ok chunk ∈ stream_cdc min avg max data → lenN chunk ≤ max
}.

(** What the calls on the file system answer. *)
Class ProducerFs := {
  fs_read_dir : path → result error ();
  fs_next_entry : path → result error ();
  fs_open_file : path → result error ();
  fs_read_file : path → result error ();
  fs_make_dir : string → result error ();
  fs_create_lock : result error ();
  fs_write_path : string → option (list byte) → list byte → option (list byte) * result error ();
  fs_read_path : string → result error ()
}.
Class ProducerFsLaws `{!ProducerFs} : Prop := {
  fs_write_path_ok name old bs new : fs_write_path name old bs = (new, Ok ()) → new = Some bs
}.

(** [UploadClient<Channel>]: the token is the metadata of a request. *)
Class UploadRpc (W : Type) := {
  up_metadata : string → bool;
  up_connect : string → M W error ();
  up_query : option string → ChunkQuery → M W error (list (list byte));
  up_upload : option string → list UploadChunk → M W error (list (result error UploadAck));
  up_commit : option string → CommitRequest → M W error CommitReply
}.

(** How a run ends early: an error, or a panic. *)
Inductive Halt := Raised (e : error) | Panicking.
Definition raising {S A} (m : M S error A) : M S Halt A := map_err_m Raised m.

(** ** The output directory *)

Record Delta := mkDelta {
  dj_game_id : N; dj_version : N; dj_files_to_download_count : N; dj_files_to_update_count : N;
  dj_files_to_delete_count : N; dj_new_chunk_count : N; dj_new_bytes : N;
  dj_chunk_hashes : list string
}.

Record Output := mkOutput {
  po_lock : bool;
  po_chunks : gmap string (list byte);
  po_index : gmap string (list byte);
  po_delta : gmap string (list byte)
}.
Definition set_lock (b : bool) (o : Output) : Output :=
  mkOutput b (po_chunks o) (po_index o) (po_delta o).
Definition set_chunks (m : gmap string (list byte)) (o : Output) : Output :=
  mkOutput (po_lock o) m (po_index o) (po_delta o).
Definition set_index (m : gmap string (list byte)) (o : Output) : Output :=
  mkOutput (po_lock o) (po_chunks o) m (po_delta o).
Definition set_delta (m : gmap string (list byte)) (o : Output) : Output :=
  mkOutput (po_lock o) (po_chunks o) (po_index o) m.

Section producer.
Context (blake3 : list byte → hash32) `{!Cdc, !ProducerFs}.

(** ** chunker.rs *)

(** The content of a file that was opened and read to its end. *)
Definition file_hash (root : string) (tree : Tree) (p : path) : result error hash32 :=
  with_context ("打开文件失败: " ++ display root p) (fs_open_file p);;
  with_context "读取文件失败" (fs_read_file p);;
  data ← ok_or ["读取文件失败"%string; "No such file or directory"%string] (file_data tree p);
  mret (blake3 data).

Definition block_file (hash : hash32) : string := (hex (hash_bytes hash) ++ ".blk")%string.

(** [std::fs::write] into a directory of the output. *)
Definition write_to (name : string) (bs : list byte) (m : gmap string (list byte)) :
    gmap string (list byte) * result error () :=
  let r := fs_write_path name (m !! name) bs in
  (partial_alter (λ _, r.1) name m, r.2).

(** Staging a new chunk; the state is the staged blocks and the hashes seen. *)
Abbreviation staging := (M (gmap string (list byte) * gset hash32) error).

Definition stage_chunk (stage : bool) (file : string) (hash : hash32) (data : list byte) : staging () :=
  if negb stage then mret () else
  s ← get;
  if bool_decide (hash ∈ s.2) then mret () else
  modify (λ s, (s.1, {[hash]} ∪ s.2));;
  s ← get;
  let '(blocks, r) := write_to (block_file hash) data s.1 in
  modify (λ s, (blocks, s.2));;
  lift (with_context ("写入暂存块失败: " ++ file) r).

Fixpoint chunk_loop (stage : bool) (file : string) (items : list (result error (list byte))) :
    staging (list ChunkMeta) :=
  match items with
  | [] => mret []
  | item :: items =>
    data ← lift (with_context "FastCDC 分块失败" item);
    let hash := blake3 data in
    stage_chunk stage file hash data;;
    metas ← chunk_loop stage file items;
    mret (mkChunk hash (as_u32 (lenN data)) :: metas)
  end.

Definition chunk_file (root : string) (tree : Tree) (params : ChunkParams) (stage : bool) (p : path) :
    staging (list ChunkMeta) :=
  lift (with_context ("打开文件失败: " ++ display root p) (fs_open_file p));;
  data ← lift (ok_or ["FastCDC 分块失败"%string] (file_data tree p));
  chunk_loop stage (display root p)
    (stream_cdc (cp_min_size params) (cp_avg_size params) (cp_max_size params) data).

(** Depth first, in the order in which the directory lists its entries. *)
Fixpoint collect_files (root : string) (rel : path) (t : Tree) : result error (list path) :=
  match t with
  | TFile _ => Ok [rel]
  | TOther => Ok []
  | TDir entries =>
    with_context ("读取目录失败: " ++ display root rel) (fs_read_dir rel);;
    (fix loop (entries : list (string * Tree)) : result error (list path) :=
       match entries with
       | [] => Ok []
       | (name, t) :: entries =>
         with_context "读取目录项失败" (fs_next_entry (rel ++ [name]));;
         files ← collect_files root (rel ++ [name]) t;
         rest ← loop entries;
         mret (files ++ rest)
       end) entries
  end.

(** What is at [root] must be a directory to be read. *)
Definition list_files (root : string) (dir : option Tree) : result error (list path) :=
  files ← match dir with
          | Some (TDir entries) => collect_files root [] (TDir entries)
          | Some _ => Err [("读取目录失败: " ++ root)%string; "Not a directory"%string]
          | None => Err [("读取目录失败: " ++ root)%string; "No such file or directory"%string]
          end;
  mret (sort_by path_leb files).

(** ** lib.rs *)

(** The loop over the files of one version. *)
Fixpoint entry_loop (root : string) (tree : Tree) (params : ChunkParams) (stage : bool) (files : list path) :
    staging (list FileEntry) :=
  match files with
  | [] => mret []
  | rel :: files =>
    chunks ← chunk_file root tree params stage rel;
    hash ← lift (file_hash root tree rel);
    entries ← entry_loop root tree params stage files;
    mret (mkFile (replace_backslash (path_text rel)) hash chunks :: entries)
  end.

Definition delta_of (config : ProducerConfig) (plan : UpdatePlan) : Delta :=
  mkDelta (pc_game_id config) (pc_version config) (lenN (files_to_download plan))
    (lenN (files_to_update plan)) (lenN (files_to_delete plan)) (lenN (chunks_to_download plan))
    (download_bytes plan) (map (λ h, hex (hash_bytes h)) (chunks_to_download plan)).

(** ** upload.rs *)

Record UploadSummary := mkSummary { us_uploaded : N; us_skipped : N; us_failed : list hash32 }.

Section client.
Context {W : Type} `{!UploadRpc W} (token : option string).

Definition attach_token : result error () :=
  match token with
  | Some t => if up_metadata ("Bearer " ++ t) then Ok () else bail "Token 格式非法"
  | None => Ok ()
  end.

(** [<[u8; 32]>::try_from(..).expect(..)] *)
Definition expect_hash (bs : list byte) : result Halt hash32 := ok_or Panicking (hash_of bs).

Definition query_existing (game_id : N) (hashes : list hash32) : M W Halt (list hash32) :=
  raising (lift attach_token);;
  existing ← raising (up_query token (mkChunkQuery game_id (map hash_bytes hashes)));
  lift (mapM expect_hash existing).

Definition upload_commit (game_id version : N) (manifest : list byte) (manifest_hash : hash32) :
    M W Halt () :=
  raising (lift attach_token);;
  reply ← raising (up_commit token (mkCommit game_id version manifest (hash_bytes manifest_hash)));
  if cp_published reply then mret () else
  throw (Raised [("版本发布失败: " ++ cp_error reply)%string]).

(** The task that reads the staged blocks: what it sends and what it cannot read. *)
Fixpoint read_blocks (game_id : N) (blocks : gmap string (list byte)) (seq : N)
    (hashes : list hash32) : list UploadChunk * list hash32 :=
  match hashes with
  | [] => ([], [])
  | hash :: hashes =>
    let rest := read_blocks game_id blocks (seq + 1) hashes in
    match fs_read_path (block_file hash), blocks !! block_file hash with
    | Ok _, Some data =>
      (mkUploadChunk game_id (hash_bytes hash) data (as_u32 seq) :: rest.1, rest.2)
    | _, _ => (rest.1, hash :: rest.2)
    end
  end.

Fixpoint ack_loop (acks : list (result error UploadAck)) (summary : UploadSummary) :
    result Halt UploadSummary :=
  match acks with
  | [] => Ok summary
  | ack :: acks =>
    ack ← map_err Raised ack;
    if ua_ok ack then
      ack_loop acks (mkSummary (us_uploaded summary + 1) (us_skipped summary) (us_failed summary))
    else
      hash ← expect_hash (ua_chunk_hash ack);
      ack_loop acks (mkSummary (us_uploaded summary) (us_skipped summary) (us_failed summary ++ [hash]))
  end.

(** The blocks that must be there before anything is sent. *)
Definition absent_block (blocks : gmap string (list byte)) (hashes : list hash32) : option hash32 :=
  head (filter (λ h, blocks !! block_file h = None) hashes).

Definition upload_delta (game_id : N) (stage_dir : string) (blocks : gmap string (list byte)) (hashes : list hash32) :
    M W Halt UploadSummary :=
  existing ← query_existing game_id hashes;
  let missing := filter (.∉ existing) hashes in
  let summary := mkSummary 0 (lenN existing) [] in
  if bool_decide (missing = []) then mret summary else
  match absent_block blocks missing with
  | Some h => throw (Raised [("暂存块缺失: " ++ stage_dir ++ "/" ++ block_file h)%string])
  | None =>
    let '(sent, unread) := read_blocks game_id blocks 0 missing in
    raising (lift attach_token);;
    acks ← raising (up_upload token sent);
    summary ← lift (ack_loop acks summary);
    match unread with
    | [] => mret summary
    | h :: _ => throw (Raised [("读取暂存块失败 " ++ dec (lenN unread) ++ " 块，示例: " ++
                                hex (hash_bytes h))%string])
    end
  end.
End client.

(** ** One run *)

Section run.
Context {W : Type} `{!UploadRpc W}.
Abbreviation runM := (M (W * Output) Halt).
(** The directories by their path, and [serde_json::to_vec_pretty]. *)
Context (dirs : string → option Tree) (delta_json : Delta → result error (list byte)).

Definition on_out {A} (m : M Output error A) : runM A := zoom snd (λ o s, (s.1, o)) (raising m).
Definition on_client {A} (m : M W Halt A) : runM A := zoom fst (λ w s, (w, s.2)) m.
Definition os_lift {A} (r : result error A) : runM A := lift (map_err Raised r).

(** The staged blocks and a fresh set of seen hashes. *)
Definition on_stage {A} (m : staging A) : runM A :=
  on_out (zoom (λ o, (po_chunks o, ∅)) (λ s, set_chunks s.1) m).

Definition write_out (getm : Output → gmap string (list byte))
    (setm : gmap string (list byte) → Output → Output) (msg dir name : string) (bs : list byte) :
    M Output error () :=
  o ← get;
  let '(files, r) := write_to name bs (getm o) in
  modify (setm files);;
  lift (with_context (msg ++ dir ++ "/" ++ name) r).

(** The manifest of the previous version; its chunks are not staged. *)
Definition previous_index (config : ProducerConfig) : runM (option GameIndex) :=
  match pc_previous_dir config with
  | Some prev =>
    match dirs prev with
    | Some (TDir es) =>
      files ← os_lift (list_files prev (Some (TDir es)));
      entries ← on_stage (entry_loop prev (TDir es) (pc_chunk config) false files);
      mret (Some (build blake3 entries))
    | _ => mret None
    end
  | None => mret None
  end.

Definition out_path (config : ProducerConfig) (sub : string) : string :=
  (pc_output_dir config ++ "/" ++ sub)%string.
Definition index_file (version : N) : string := (dec version ++ ".gameindex")%string.
Definition delta_file (version : N) : string := (dec version ++ ".json")%string.

(** Uploading and publishing, when an origin is configured. *)
Definition publish (config : ProducerConfig) (index : GameIndex) (plan : UpdatePlan) : runM () :=
  match pc_origin_addr config with
  | None => mret ()
  | Some addr =>
    s ← get;
    on_client (
      raising (map_err_m (cons ("连接原始节点失败: " ++ addr)%string) (up_connect addr));;
      upload_delta (pc_origin_token config) (pc_game_id config)
        (out_path config "chunks") (po_chunks s.2)
        (chunks_to_download plan);;
      upload_commit (pc_origin_token config) (pc_game_id config) (pc_version config) (encode index)
        (gi_manifest_hash index))
  end.

(** The run while it holds the lock; the result is the manifest. *)
Definition produce (config : ProducerConfig) : runM GameIndex :=
  files ← os_lift (list_files (pc_source_dir config) (dirs (pc_source_dir config)));
  let source := default TOther (dirs (pc_source_dir config)) in
  if bool_decide (files = []) then
    throw (Raised [("source_dir 下没有文件: " ++ pc_source_dir config)%string]) else
  os_lift (with_context ("创建暂存目录失败: " ++ out_path config "chunks") (fs_make_dir "chunks"));;
  os_lift (with_context ("创建清单目录失败: " ++ out_path config "index") (fs_make_dir "index"));;
  os_lift (with_context ("创建差异目录失败: " ++ out_path config "delta") (fs_make_dir "delta"));;
  entries ← on_stage (entry_loop (pc_source_dir config) source (pc_chunk config) true files);
  let index := build blake3 entries in
  on_out (write_out po_index set_index "写入版本清单失败: " (out_path config "index")
            (index_file (pc_version config)) (encode index));;
  old ← previous_index config;
  let plan := compute index old ∅ in
  json ← os_lift (delta_json (delta_of config plan));
  on_out (write_out po_delta set_delta "写入差异清单失败: " (out_path config "delta")
            (delta_file (pc_version config)) json);;
  publish config index plan;;
  mret index.

(** Dropping [OutputLock] removes the lock file, however the run ends. *)
Definition unlocking {A} (m : runM A) : runM A := λ s,
  let r := m s in ((r.1.1, set_lock false r.1.2), r.2).

Definition run_with_config (config : ProducerConfig) : runM GameIndex :=
  os_lift (with_context ("创建输出目录失败: " ++ pc_output_dir config) (fs_make_dir ""));;
  s ← get;
  match (if po_lock s.2 then bail "File exists" else fs_create_lock) with
  | Err e => throw (Raised (("已有制作实例占用输出目录: " ++ out_path config ".producer.lock")%string :: e))
  | Ok _ =>
    modify (λ s, (s.1, set_lock true s.2));;
    unlocking (produce config)
  end.
End run.
End producer.
