(* ===== verification/ProducerSpec.v ===== *)
(** * ProducerSpec: what a run of the producer guarantees

    The manifest of a run describes the files of its source directory, the chunks
    tile them, and every chunk is staged under its hash.  Publishing to an origin
    that runs the code of Upload leaves it with every chunk of the version. *)

From S2P Require Import Prelude Bytes Text Manifest UpdatePlan SchedControl.
From S2P Require Import Redb Upload Configs Producer.

(** ** Listing a directory *)

Inductive wf_tree : Tree → Prop :=
| wf_file data : wf_tree (TFile data)
| wf_other : wf_tree TOther
| wf_dir entries : NoDup entries.*1 → Forall (λ e, wf_tree e.2) entries → wf_tree (TDir entries).

Lemma tree_ind' (P : Tree → Prop) :
  (∀ data, P (TFile data)) → P TOther → (∀ es, Forall (λ e, P e.2) es → P (TDir es)) → ∀ t, P t.
Proof.
  intros Hf Ho Hd. fix IH 1. intros [data|es|]; [apply Hf| |apply Ho].
  apply Hd. induction es as [|[name t] es IHes]; constructor; [apply IH|exact IHes].
Qed.

Lemma child_Some name t entries :
  NoDup entries.*1 → child name (TDir entries) = Some t ↔ (name, t) ∈ entries.
Proof.
  intros Hnd. cbn. split.
  - destruct (filter _ entries) as [|e l] eqn:Hf; [done|]. intros [= <-].
    assert (e ∈ filter (λ e : string * Tree, e.1 = name) entries) as He by (rewrite Hf; left).
    apply list_elem_of_filter in He as [<- He]. by destruct e.
  - intros Hin. assert (filter (λ e : string * Tree, e.1 = name) entries = [(name, t)]) as ->; [|done].
    induction entries as [|e es IH]; [by apply elem_of_nil in Hin|].
    cbn in Hnd. apply NoDup_cons in Hnd as [Hne Hnd].
    assert (∀ u, (e.1, u) ∉ es) as Hno.
    { intros u Hu. apply Hne. by apply (list_elem_of_fmap_2 fst) in Hu. }
    rewrite filter_cons. apply elem_of_cons in Hin as [<-|Hin].
    + rewrite decide_True by done. f_equal.
      destruct (filter _ es) as [|[n u] l] eqn:Hf; [done|]. exfalso.
      assert ((n, u) ∈ filter (λ e : string * Tree, e.1 = name) es) as He by (rewrite Hf; left).
      apply list_elem_of_filter in He as [Hn He]. cbn in Hn. subst n. by eapply Hno.
    + rewrite decide_False by (intros <-; by eapply Hno). by apply IH.
Qed.

Section listing.
Context `{!ProducerFs}.

Lemma collect_files_ok root t rel files :
  wf_tree t → collect_files root rel t = Ok files →
  NoDup files ∧ ∀ p, p ∈ files ↔ ∃ q, p = rel ++ q ∧ is_Some (file_data t q).
Proof.
  revert rel files. induction t as [data| |es IH] using tree_ind'; intros rel files Hwf Hc.
  - injection Hc as <-. split; [apply NoDup_singleton|]. intros p. rewrite list_elem_of_singleton.
    split.
    + intros ->. exists []. rewrite app_nil_r. done.
    + intros ([|a q] & -> & Hq); [by rewrite app_nil_r|]. by destruct Hq.
  - injection Hc as <-. split; [constructor|]. intros p. split; [by intros ?%elem_of_nil|].
    intros ([|a q] & _ & Hq); by destruct Hq.
  - cbn [collect_files] in Hc. apply bind_Ok_inv in Hc as (_ & _ & Hc).
    inversion Hwf as [| |es' Hnd Hall]; subst es'.
    assert (NoDup files ∧ ∀ p, p ∈ files ↔ ∃ name t q, (name, t) ∈ es ∧ p = rel ++ name :: q ∧
      is_Some (file_data t q)) as [Hn Hin].
    { clear Hwf. revert files Hc.
      induction es as [|[name t] es IHes]; intros files Hc.
      - injection Hc as <-. split; [constructor|]. intros p. split; [by intros ?%elem_of_nil|].
        by intros (? & ? & ? & ?%elem_of_nil & _).
      - apply bind_Ok_inv in Hc as (_ & _ & Hc). apply bind_Ok_inv in Hc as (fs & Hfs & Hc).
        apply bind_Ok_inv in Hc as (rest & Hrest & Hc). injection Hc as <-.
        apply Forall_cons in IH as [IH1 IH2], Hall as [Hw1 Hw2].
        cbn in Hnd. apply NoDup_cons in Hnd as [Hne Hnd].
        destruct (IH1 _ _ Hw1 Hfs) as [Hn1 Hi1]. destruct (IHes IH2 Hnd Hw2 rest Hrest) as [Hn2 Hi2].
        assert (∀ p, p ∈ fs ↔ ∃ q, p = rel ++ name :: q ∧ is_Some (file_data t q)) as Hi1'.
        { intros p. rewrite Hi1. split; intros (q & -> & Hq); exists q; by rewrite <- app_assoc. }
        split.
        + apply NoDup_app. split_and!; [done| |done]. intros p Hp Hp'.
          apply Hi1' in Hp as (q & -> & _). apply Hi2 in Hp' as (n' & t' & q' & Hin & Heq & _).
          apply app_inv_head in Heq. injection Heq as <- _. apply Hne.
          by apply (list_elem_of_fmap_2 fst) in Hin.
        + intros p. rewrite elem_of_app, Hi1', Hi2. split.
          * intros [(q & -> & Hq)|(n' & t' & q & Hin & -> & Hq)].
            -- exists name, t, q. split_and!; [left|done|done].
            -- exists n', t', q. split_and!; [by right|done|done].
          * intros (n' & t' & q & Hin & -> & Hq). apply elem_of_cons in Hin as [[= -> ->]|Hin].
            -- left. by exists q.
            -- right. by exists n', t', q. }
    split; [done|]. intros p. rewrite Hin. split.
    + intros (name & t & q & Hi & -> & Hq). exists (name :: q). split; [done|].
      unfold file_data in *. cbn [subtree]. apply (child_Some name t es Hnd) in Hi. by rewrite Hi.
    + intros ([|name q] & -> & Hq); [by destruct Hq|]. unfold file_data in Hq. cbn [subtree] in Hq.
      destruct (child name (TDir es)) as [t|] eqn:Hc'; [|by destruct Hq].
      apply child_Some in Hc'; [|done]. by exists name, t, q.
Qed.

Lemma list_files_ok root t files :
  wf_tree t → list_files root (Some t) = Ok files →
  NoDup files ∧ ∀ p, p ∈ files ↔ is_Some (file_data t p).
Proof.
  intros Hwf Hl. apply bind_Ok_inv in Hl as (fs & Hc & Hl). injection Hl as <-.
  destruct t as [|es|]; [done| |done].
  apply collect_files_ok in Hc as [Hn Hin]; [|done]. split.
  - by rewrite sort_by_perm.
  - intros p. rewrite sort_by_perm, Hin. split; [by intros (q & -> & Hq)|by exists p].
Qed.
End listing.

(** ** Chunking and staging *)

Lemma block_file_inj h1 h2 : block_file h1 = block_file h2 → h1 = h2.
Proof. intros He%string_app_inj_r%hex_inj. by apply (inj hash_bytes). Qed.

Section staging.
Context (blake3 : list byte → hash32) `{CdcLaws, ProducerFsLaws}.
Implicit Types (blocks : gmap string (list byte)) (seen : gset hash32).

(** Every hash seen is staged with a block of that hash. *)
Definition staged blocks (h : hash32) : Prop :=
  ∃ data, blocks !! block_file h = Some data ∧ blake3 data = h.
Definition staging_ok (s : gmap string (list byte) * gset hash32) : Prop :=
  ∀ h, h ∈ s.2 → staged s.1 h.

Lemma staging_ok_empty blocks : staging_ok (blocks, ∅).
Proof. intros h Hh. by apply elem_of_empty in Hh. Qed.

Definition meta_of (chunk : list byte) : ChunkMeta := mkChunk (blake3 chunk) (as_u32 (lenN chunk)).

Lemma stage_chunk_ok stage file data s s' :
  staging_ok s → stage_chunk stage file (blake3 data) data s = (s', Ok ()) →
  staging_ok s' ∧ s.2 ⊆ s'.2 ∧ (stage = true → blake3 data ∈ s'.2) ∧ (stage = false → s' = s).
Proof.
  intros Hok Hs. unfold stage_chunk in Hs. destruct stage; cbn [negb] in Hs; last first.
  { injection Hs as <-. by split_and!. }
  destruct s as [blocks seen]. rewrite (M_bind_ok get _ _ (blocks, seen) (blocks, seen)) in Hs by done.
  cbn [snd] in Hs. case_bool_decide as Hin.
  { injection Hs as <-. by split_and!. }
  rewrite (M_bind_ok (modify _) _ _ (blocks, {[blake3 data]} ∪ seen) ()) in Hs by done.
  rewrite (M_bind_ok get _ _ (blocks, {[blake3 data]} ∪ seen) (blocks, {[blake3 data]} ∪ seen)) in Hs by done.
  unfold write_to in Hs. cbn [fst snd] in Hs.
  destruct (fs_write_path _ _ _) as [new r] eqn:Hw. cbn [fst snd] in Hs.
  rewrite (M_bind_ok (modify _) _ _
    (partial_alter (λ _, new) (block_file (blake3 data)) blocks, {[blake3 data]} ∪ seen) ()) in Hs by done.
  unfold lift in Hs. injection Hs as <- Hr. destruct r as [[]|]; [|done].
  apply fs_write_path_ok in Hw as ->. cbn [fst snd]. split_and!; [|set_solver|set_solver|done].
  unfold staging_ok. cbn [fst snd]. intros h [->%elem_of_singleton|Hh]%elem_of_union.
  - exists data. by rewrite lookup_partial_alter_eq.
  - destruct (Hok h Hh) as (d & Hd & Hb). exists d. split; [|done]. cbn [fst].
    rewrite lookup_partial_alter_ne; [exact Hd|]. intros He%block_file_inj. apply Hin. by rewrite He.
Qed.

Lemma chunk_loop_ok stage file items s s' metas :
  staging_ok s → chunk_loop blake3 stage file items s = (s', Ok metas) →
  ∃ chunks, mapM id items = Ok chunks ∧ metas = map meta_of chunks ∧
    staging_ok s' ∧ s.2 ⊆ s'.2 ∧ (stage = false → s' = s) ∧
    (stage = true → ∀ c, c ∈ chunks → blake3 c ∈ s'.2).
Proof.
  revert s metas. induction items as [|item items IH]; intros s metas Hok Hc.
  { injection Hc as <- <-. exists []. split_and!; try done. by intros _ c ?%elem_of_nil. }
  cbn [chunk_loop] in Hc. apply M_bind_Ok_inv in Hc as (s1 & data & Hd & Hc).
  apply lift_Ok_inv in Hd as [-> Hd%with_context_Ok_inv].
  apply M_bind_Ok_inv in Hc as (s2 & [] & Hs & Hc).
  apply stage_chunk_ok in Hs as (Hok2 & Hsub & Hin & Hsame); [|done].
  apply M_bind_Ok_inv in Hc as (s3 & ms & Hl & Hc). injection Hc as <- <-.
  destruct (IH _ _ Hok2 Hl) as (chunks & Hm & -> & Hok3 & Hsub3 & Hsame3 & Hin3).
  exists (data :: chunks). split_and!; try done.
  - cbn. rewrite Hd. cbn. by rewrite Hm.
  - by trans s2.2.
  - intros Hst. by rewrite Hsame3, Hsame.
  - intros Hst c [->|Hc]%elem_of_cons; [|by apply Hin3]. apply Hsub3. by apply Hin.
Qed.

(** What an entry of a manifest says of a file. *)
Definition describes (p : path) (data : list byte) (chunks : list (list byte)) (e : FileEntry) : Prop :=
  fe_name e = replace_backslash (path_text p) ∧ fe_file_hash e = blake3 data ∧
  mjoin chunks = data ∧ fe_chunks e = map meta_of chunks.

Lemma entry_loop_ok root tree params stage files s s' entries :
  staging_ok s → entry_loop blake3 root tree params stage files s = (s', Ok entries) →
  staging_ok s' ∧ s.2 ⊆ s'.2 ∧ (stage = false → s' = s) ∧
  Forall2 (λ p e, ∃ data chunks, file_data tree p = Some data ∧ describes p data chunks e ∧
    (∀ c, c ∈ chunks → lenN c ≤ cp_max_size params) ∧
    (stage = true → ∀ c, c ∈ chunks → blake3 c ∈ s'.2)) files entries.
Proof.
  revert s entries. induction files as [|p files IH]; intros s entries Hok He.
  { injection He as <- <-. by split_and!. }
  cbn [entry_loop] in He. apply M_bind_Ok_inv in He as (s1 & metas & Hc & He).
  apply M_bind_Ok_inv in He as (s2 & hash & Hh & He). apply lift_Ok_inv in Hh as [-> Hh].
  apply M_bind_Ok_inv in He as (s3 & es & Hl & He). injection He as <- <-.
  unfold chunk_file in Hc. apply M_bind_Ok_inv in Hc as (s4 & [] & Ho & Hc).
  apply lift_Ok_inv in Ho as [-> _]. apply M_bind_Ok_inv in Hc as (s5 & data & Hd & Hc).
  apply lift_Ok_inv in Hd as [-> Hd].
  assert (file_data tree p = Some data) as Hdata by (destruct (file_data tree p); simplify_eq/=; done).
  unfold file_hash in Hh. apply bind_Ok_inv in Hh as (_ & _ & Hh). apply bind_Ok_inv in Hh as (_ & _ & Hh).
  rewrite Hdata in Hh. injection Hh as <-.
  apply chunk_loop_ok in Hc as (chunks & Hm & -> & Hok1 & Hsub1 & Hsame1 & Hin1); [|done].
  destruct (IH _ _ Hok1 Hl) as (Hok3 & Hsub3 & Hsame3 & Hall).
  split_and!; [done|by trans s1.2|by intros Hst; rewrite Hsame3, Hsame1|].
  constructor; [|done]. exists data, chunks. split_and!; [done| | |].
  - split_and!; [done|done| |done]. by eapply cdc_tiles.
  - intros c Hcin. eapply (cdc_max _ _ _ data). apply mapM_Forall2 in Hm.
    apply list_elem_of_lookup in Hcin as (i & Hi).
    destruct (Forall2_lookup_r _ _ _ _ _ Hm Hi) as (item & Hitem & Hid). cbn in Hid. subst item.
    by eapply list_elem_of_lookup_2.
  - intros Hst c Hcin. apply Hsub3. by apply Hin1.
Qed.
End staging.

(** ** One run *)

Section run.
Context (blake3 : list byte → hash32) `{CdcLaws, ProducerFsLaws}.
Context {W : Type} `{!UploadRpc W}.
Context (dirs : string → option Tree) (delta_json : Delta → result error (list byte)).
Implicit Types (o : Output) (w : W).

Lemma on_stage_inv {A} (m : M (gmap string (list byte) * gset hash32) error A) w o s r :
  on_stage (W:=W) m (w, o) = (s, r) →
  ∃ st r', m (po_chunks o, ∅) = (st, r') ∧ s = (w, set_chunks st.1 o) ∧ r = map_err Raised r'.
Proof.
  unfold on_stage, on_out, zoom, raising, map_err_m. cbn [fst snd].
  destruct (m (po_chunks o, ∅)) as [st r'] eqn:Hm. intros [= <- <-]. by exists st, r'.
Qed.

Lemma os_lift_inv {A} (r : result error A) (s s' : W * Output) a :
  os_lift r s = (s', Ok a) → s' = s ∧ r = Ok a.
Proof. unfold os_lift, lift. intros [= <- Hr]. by apply map_err_Ok_inv in Hr. Qed.

(** Writing a file of the output and nothing else. *)
Lemma write_out_inv getm setm msg dir name bs w o s :
  on_out (write_out getm setm msg dir name bs) (w, o) = (s, Ok ()) →
  s = (w, setm (<[name := bs]> (getm o)) o).
Proof.
  unfold on_out, zoom, raising, map_err_m, write_out. cbn [fst snd].
  rewrite (M_bind_ok get _ o o o) by done. unfold write_to.
  destruct (fs_write_path _ _ _) as [new r] eqn:Hw. cbn [fst snd].
  unfold modify, lift, mbind, M_bind. intros [= <- Hr]. destruct r as [[]|]; [|done].
  by apply fs_write_path_ok in Hw as ->.
Qed.

(** Publishing leaves the output directory alone. *)
Lemma publish_output config index plan w o s r :
  publish config index plan (w, o) = (s, r) → s.2 = o.
Proof.
  unfold publish. destruct (pc_origin_addr config); [|by intros [= <- _]].
  rewrite (M_bind_ok get _ (w, o) (w, o) (w, o)) by done. unfold on_client, zoom.
  case_match. by intros [= <- _].
Qed.

Lemma previous_index_output config w o s old :
  previous_index blake3 dirs config (w, o) = (s, Ok old) → s = (w, o).
Proof.
  unfold previous_index. destruct (pc_previous_dir config) as [prev|]; [|by intros [= <- _]].
  destruct (dirs prev) as [[|es|]|]; try (by intros [= <- _]). intros Hp.
  apply M_bind_Ok_inv in Hp as (s1 & files & [-> Hl]%os_lift_inv & Hp).
  apply M_bind_Ok_inv in Hp as (s2 & entries & Hs & Hp). injection Hp as <- _.
  apply on_stage_inv in Hs as (st & r' & He & -> & Hr). symmetry in Hr. apply map_err_Ok_inv in Hr as ->.
  apply entry_loop_ok in He as (_ & _ & Hsame & _); [|done|done|apply staging_ok_empty].
  rewrite Hsame by done. by destruct o.
Qed.

(** The entry of a file, with its chunks staged. *)
Definition made (root : Tree) (max : N) o (p : path) (e : FileEntry) : Prop :=
  ∃ data chunks, file_data root p = Some data ∧ describes blake3 p data chunks e ∧
    ∀ c, c ∈ chunks → lenN c ≤ max ∧ staged blake3 (po_chunks o) (blake3 c).

Lemma produce_ok config root w o s index :
  dirs (pc_source_dir config) = Some root → wf_tree root →
  produce blake3 dirs delta_json config (w, o) = (s, Ok index) →
  po_index s.2 !! index_file (pc_version config) = Some (Manifest.encode index) ∧
  (∃ files, files ≠ [] ∧ NoDup files ∧ (∀ p, p ∈ files ↔ is_Some (file_data root p)) ∧
     Forall2 (made root (cp_max_size (pc_chunk config)) s.2) files (gi_files index)) ∧
  ∃ entries, index = build blake3 entries.
Proof.
  intros Hroot Hwf Hp. unfold produce in Hp. rewrite Hroot in Hp. cbn [default from_option id] in Hp.
  apply M_bind_Ok_inv in Hp as (s1 & files & [-> Hl]%os_lift_inv & Hp).
  apply list_files_ok in Hl as [Hnd Hin]; [|done].
  case_bool_decide as Hne; [done|].
  do 3 (apply M_bind_Ok_inv in Hp as (? & [] & [-> _]%os_lift_inv & Hp)).
  apply M_bind_Ok_inv in Hp as (s2 & entries & Hs & Hp).
  apply on_stage_inv in Hs as (st & r' & He & -> & Hr). symmetry in Hr. apply map_err_Ok_inv in Hr as ->.
  apply entry_loop_ok in He as (Hok & _ & _ & Hall); [|done|done|apply staging_ok_empty].
  apply M_bind_Ok_inv in Hp as (s3 & [] & ->%write_out_inv & Hp).
  apply M_bind_Ok_inv in Hp as (s4 & old & ->%previous_index_output & Hp).
  apply M_bind_Ok_inv in Hp as (s5 & json & [-> _]%os_lift_inv & Hp).
  apply M_bind_Ok_inv in Hp as (s6 & [] & ->%write_out_inv & Hp).
  apply M_bind_Ok_inv in Hp as (s7 & [] & Hpub%publish_output & Hp). injection Hp as <- <-.
  rewrite Hpub. split_and!; [apply lookup_insert_eq| |by exists entries].
  exists files. split_and!; [done..|]. cbn [build gi_files].
  eapply Forall2_impl; [exact Hall|]. intros p e (data & chunks & Hd & Hdesc & Hmax & Hst).
  exists data, chunks. split_and!; [done..|]. intros c Hc. split; [by apply Hmax|].
  apply Hok. by apply Hst.
Qed.

End run.
