(* ===== verification/ProducerPublish.v ===== *)
(** * ProducerPublish: publishing a version to an origin

    The upload client of Producer against the handlers of Upload.  Whatever fails,
    the stores of the origin only grow by verified chunks, and a publication that
    returns leaves the origin with the manifest and every chunk of it; when no call
    fails and the blocks are staged, every hash the origin lacks arrives. *)

From S2P Require Import Prelude Bytes Text Manifest UpdatePlan FileIO.
From S2P Require Import Redb Storage StorageSpec StorageBatch SchedControl Upload.
From S2P Require Import UploadSpec Configs Producer ProducerSpec.

(** The origin of this repository behind the stub; [to_error] is how a failed call
    shows at the client. *)
Definition OriginBehind {D F C} `{!RedbOps D, !FileOps F, !CompioOps F, !OpenOps D F}
    `{!PublishFs, !SchedulerClient C, !SetIter} (blake3 : list byte → hash32)
    (to_error : Status → error) (metadata : string → bool) (sched : option string) :
    UploadRpc (Origin D F C) := {|
  up_metadata := metadata;
  up_connect _ := mret ();
  up_query _ q := map_err_m to_error (r ← query_existing_chunks q; mret (ce_existing_hashes r));
  up_upload _ chunks := map_err_m to_error
    (acks ← upload_chunks blake3 (map Ok chunks); mret (map (map_err to_error) acks));
  up_commit _ c := map_err_m to_error (commit_version blake3 sched c)
|}.

(** ** What the client sends *)

Section client.
Context (blake3 : list byte → hash32) `{!ProducerFs}.

(** Every block found under the name of one of the hashes has that hash. *)
Definition blocks_ok (blocks : gmap string (list byte)) (hashes : list hash32) : Prop :=
  ∀ h data, h ∈ hashes → blocks !! block_file h = Some data → blake3 data = h.

Definition blocks_size (blocks : gmap string (list byte)) (hashes : list hash32) : N :=
  foldr (λ h n, lenN (default [] (blocks !! block_file h)) + n) 0 hashes.

Definition sends (g : N) (blocks : gmap string (list byte)) (h : hash32) (c : UploadChunk) : Prop :=
  uc_game_id c = g ∧ uc_chunk_hash c = hash_bytes h ∧ blocks !! block_file h = Some (uc_data c).

Lemma read_blocks_ok g blocks seq hashes sent :
  read_blocks g blocks seq hashes = (sent, []) → Forall2 (sends g blocks) hashes sent.
Proof.
  revert seq sent. induction hashes as [|h hashes IH]; intros seq sent Hr; cbn [read_blocks] in Hr.
  { injection Hr as <-. constructor. }
  destruct (read_blocks g blocks (seq + 1) hashes) as [sent' unread] eqn:Hrest. cbn [fst snd] in Hr.
  destruct (fs_read_path (block_file h)) as [[]|]; [|done].
  destruct (blocks !! block_file h) as [data|] eqn:Hd; [|done].
  injection Hr as <- ->. constructor; [by split_and!|]. by eapply IH.
Qed.

Lemma read_blocks_sent g blocks seq hashes :
  let sent := (read_blocks g blocks seq hashes).1 in
  Forall (λ c, uc_game_id c = g) sent ∧ upload_size (map Ok sent) ≤ blocks_size blocks hashes.
Proof.
  revert seq. induction hashes as [|h hashes IH]; intros seq; [by split|].
  cbn [read_blocks blocks_size foldr]. fold (blocks_size blocks hashes).
  destruct (IH (seq + 1)) as [Hg Hs]. destruct (fs_read_path (block_file h)) as [[]|]; cbn [fst];
    [|split; [done|lia]].
  destruct (blocks !! block_file h) as [data|]; cbn [fst]; [|split; [done|lia]].
  split; [by constructor|]. cbn. unfold upload_size in Hs. lia.
Qed.

Lemma read_blocks_all g blocks seq hashes :
  (∀ h, h ∈ hashes → is_Some (blocks !! block_file h) ∧ fs_read_path (block_file h) = Ok ()) →
  (read_blocks g blocks seq hashes).2 = [].
Proof.
  revert seq. induction hashes as [|h hashes IH]; intros seq Hall; [done|]. cbn [read_blocks].
  destruct (Hall h (list_elem_of_here _ _)) as [[data ->] ->]. cbn [snd].
  apply IH. intros h' Hh'. apply Hall. by right.
Qed.

Lemma blocks_size_filter blocks (P : hash32 → Prop) `{∀ h, Decision (P h)} hashes :
  blocks_size blocks (filter P hashes) ≤ blocks_size blocks hashes.
Proof.
  induction hashes as [|h hashes IH]; [done|]. rewrite filter_cons. case_decide; cbn [blocks_size foldr];
    fold (blocks_size blocks (filter P hashes)) (blocks_size blocks hashes); lia.
Qed.

Lemma mapM_expect_hash hs : mapM expect_hash (map hash_bytes hs) = Ok hs.
Proof.
  apply mapM_Forall2. induction hs as [|h hs IH]; [constructor|]. constructor; [|exact IH].
  unfold expect_hash. by rewrite hash_of_bytes.
Qed.

Lemma requested_hashes hs : requested (map hash_bytes hs) = hs.
Proof.
  induction hs as [|h hs IH]; [done|].
  change (requested (map hash_bytes (h :: hs))) with
    (match hash_of (hash_bytes h) with
     | Some y => y :: requested (map hash_bytes hs) | None => requested (map hash_bytes hs) end).
  by rewrite hash_of_bytes, IH.
Qed.

(** Acks that all confirm are counted, whatever their number. *)
Lemma ack_loop_confirmed acks summary :
  Forall (λ a : result error UploadAck, ∃ a', a = Ok a' ∧ ua_ok a' = true) acks →
  ack_loop acks summary =
    Ok (mkSummary (us_uploaded summary + lenN acks) (us_skipped summary) (us_failed summary)).
Proof.
  revert summary. induction acks as [|a acks IH]; intros summary Hall.
  { cbn. rewrite lenN_nil, N.add_0_r. by destruct summary. }
  apply Forall_cons in Hall as [(a' & -> & Ha) Hall]. cbn. rewrite Ha, IH by done. cbn [us_uploaded us_skipped us_failed].
  rewrite lenN_cons. do 2 f_equal. lia.
Qed.

End client.

(** ** The upload against an origin *)

Section upload.
Context (blake3 : list byte → hash32) `{!ProducerFs}.
Context {D F C : Type} `{RedbLaws D, FileLaws F, !CompioOps F, !OpenOps D F, !OpenLaws D F}.
Context `{PublishFsLaws, !SchedulerClient C, SetIterLaws}.
Context (to_error : Status → error) (metadata : string → bool) (sched : option string).
Implicit Types (o : Origin D F C) (ms : N → gmap hash32 (list byte)).

#[local] Instance origin_rpc : UploadRpc (Origin D F C) :=
  OriginBehind blake3 to_error metadata sched.

Lemma raising_inv {S A} (m : M S error A) (s s' : S) r :
  raising m s = (s', r) → ∃ r', m s = (s', r') ∧ r = map_err Raised r'.
Proof. unfold raising, map_err_m. destruct (m s) as [s1 r1]. intros [= <- <-]. by exists r1. Qed.

Lemma pack_entry_Err g o o1 e : pack_entry open_store_error g o = (o1, Err e) → o1 = o.
Proof.
  unfold pack_entry. rewrite (M_bind_ok get _ o o o) by done. destruct (or_packs o !! g); [done|].
  unfold mbind, M_bind, lift. destruct (map_err _ _); [done|]. by intros [= <- _].
Qed.

(** Opening the store is all a query does to the origin. *)
Lemma query_opens q o o' r :
  query_existing_chunks q o = (o', r) →
  o' = o ∨ ∃ s, pack_entry open_store_error (cq_game_id q) o = (o', Ok s).
Proof.
  unfold query_existing_chunks. destruct (_ =? 0); [intros [= <- <-]; by left|]. intros Hq.
  m_step Hq as o1 s e Hp.
  - right. exists s. unfold lift, mbind, M_bind in Hq. destruct (existing_loop _ _);
      by injection Hq as <- _.
  - left. by apply pack_entry_Err in Hp.
Qed.

Lemma room_opened g n o o1 s :
  pack_entry open_store_error g o = (o1, Ok s) → room o g n → room o1 g n.
Proof.
  intros Hp Hr o2 s2 Hp2. pose proof (pack_entry_again _ _ _ _ Hp) as Ha.
  rewrite Ha in Hp2. injection Hp2 as <- <-. by eapply Hr.
Qed.

Lemma room_le g n n' o : n' ≤ n → room o g n → room o g n'.
Proof. intros Hle Hr o1 s Hp. specialize (Hr _ _ Hp). lia. Qed.

(** What an upload leaves: a store that grew, still content-addressed. *)
Definition grown g ms (o' : Origin D F C) (m' : gmap hash32 (list byte)) : Prop :=
  origin_ok o' (update_at g m' ms) ∧ ms g ⊆ m' ∧ (addressed blake3 (ms g) → addressed blake3 m').

Lemma grown_same g ms o' : origin_ok o' ms → grown g ms o' (ms g).
Proof.
  intros Ho. split_and!; [|done|done]. intros g' Hg'. specialize (Ho g' Hg').
  unfold update_at. case_decide; [by subst|done].
Qed.

Lemma origin_query_inv token q o o' r :
  up_query (W:=Origin D F C) token q o = (o', r) →
  ∃ r', query_existing_chunks q o = (o', r') ∧
    r = map_err to_error (match r' with Ok x => Ok (ce_existing_hashes x) | Err e => Err e end).
Proof.
  cbn. unfold map_err_m, mbind, M_bind. destruct (query_existing_chunks q o) as [o1 [x|e]];
    intros [= <- <-]; by eexists.
Qed.

Lemma origin_upload_inv token sent o o' r :
  up_upload (W:=Origin D F C) token sent o = (o', r) →
  ∃ acks r', process_upload blake3 (map Ok sent) o = (o', acks, r') ∧
    r = Ok (map (map_err to_error) acks).
Proof.
  cbn. unfold map_err_m, mbind, M_bind, upload_chunks.
  destruct (process_upload blake3 (map Ok sent) o) as [[o1 acks] r1]. intros [= <- <-].
  by eexists _, _.
Qed.

Lemma query_healthy g hashes o ms :
  origin_ok o ms → g ≠ 0 → g < 2^64 → origin_healthy g o →
  is_ok (query_existing_chunks (mkChunkQuery g (map hash_bytes hashes)) o).2.
Proof.
  intros Ho Hg0 Hg (Hh & o1 & s & Hp & Hs). unfold query_existing_chunks. cbn [cq_game_id].
  rewrite (proj2 (N.eqb_neq _ _) Hg0), (M_bind_ok _ _ _ _ _ Hp).
  pose proof (pack_entry_ok _ _ _ _ _ _ Ho Hg Hp) as (_ & _ & _ & _ & Hr & _).
  pose proof (existing_loop_ok s _ (map hash_bytes hashes) Hr) as [_ Hl].
  destruct (existing_loop s (map hash_bytes hashes)) as [ex|e] eqn:He.
  - unfold lift, mbind, M_bind. cbn [cq_chunk_hashes]. by rewrite He.
  - exfalso. apply Hl; [|done..]. apply Forall_map, Forall_true. intros h. by rewrite hash_of_bytes.
Qed.

Lemma query_ok token g hashes o o' ms r :
  origin_ok o ms → g < 2^64 → query_existing token g hashes o = (o', r) →
  origin_ok o' ms ∧ same_rest o o' ∧
  (o' = o ∨ ∃ s, pack_entry open_store_error g o = (o', Ok s)) ∧
  (∀ existing, r = Ok existing →
     g ≠ 0 ∧ existing = filter (λ h, is_Some (ms g !! h)) hashes ∧ is_ok (attach_token (W:=Origin D F C) token)) ∧
  (g ≠ 0 → is_ok (attach_token (W:=Origin D F C) token) → origin_healthy g o → is_ok r).
Proof.
  intros Ho Hg Hq. unfold query_existing in Hq.
  destruct (attach_token token) as [[]|e] eqn:Ht; last first.
  { unfold raising, map_err_m, lift, mbind, M_bind in Hq. cbn in Hq. injection Hq as <- <-.
    split_and!; try done. by left. }
  rewrite (M_bind_ok _ _ o o ()) in Hq by done.
  set (q := mkChunkQuery g (map hash_bytes hashes)) in Hq.
  m_step Hq as o2 ex e Hu; apply raising_inv in Hu as (ru & Hu & Hru);
    apply origin_query_inv in Hu as (rq & Hu & ->); pose proof (query_opens _ _ _ _ Hu) as Hop;
    pose proof (query_existing_spec _ _ ms q _ Ho Hg Hu) as (Ho2 & Hsame & Hres);
    pose proof (query_healthy g hashes _ ms Ho) as Hhe; unfold q in *; rewrite Hu in Hhe;
    cbn [snd cq_game_id cq_chunk_hashes] in *; destruct rq as [x|e']; simplify_eq/=.
  - destruct Hres as (Hg0 & _ & Hex). rewrite Hex, requested_hashes, mapM_expect_hash in Hq.
    injection Hq as <- <-. split_and!; [done..| |done]. by intros ? [= <-].
  - split_and!; [done..|]. by intros Hg0 _ Hhl; apply Hhe.
Qed.
(** Chunks that match their hash are confirmed and stored. *)
Lemma acked_confirmed (strict : Prop) sent acks :
  strict → Forall (λ c, hash_of (uc_chunk_hash c) = Some (blake3 (uc_data c))) sent →
  Forall2 (acked blake3 strict) (map Ok sent) acks →
  Forall (λ a : result Status UploadAck, ∃ a', a = Ok a' ∧ ua_ok a' = true) acks ∧
  length acks = length sent ∧
  ∀ c, c ∈ sent → (blake3 (uc_data c), uc_data c) ∈ confirmed blake3 (map Ok sent) acks.
Proof.
  intros Hst. revert acks. induction sent as [|c sent IH]; intros acks Hall Hf.
  { inversion Hf. split_and!; [constructor|done|]. by intros c ?%elem_of_nil. }
  apply Forall_cons in Hall as [Hc Hall]. cbn [map] in Hf.
  inversion Hf as [|i ack l acks' Hack Hf' E1 E2]; subst.
  destruct Hack as (c' & h & a & [= <-] & Hh & -> & _ & _ & Hok).
  rewrite Hc in Hh. injection Hh as <-. specialize (Hok Hst eq_refl).
  destruct (IH _ Hall Hf') as (Ha & Hlen & Hin).
  split_and!; [constructor; [by eexists|done]|cbn; by rewrite Hlen|].
  cbn [map confirmed]. rewrite Hok. intros c' [->|Hc']%elem_of_cons; [left|right; by apply Hin].
Qed.

(** The chunks a client sends under one game. *)
Lemma process_sent g sent o o' ms acks r :
  origin_ok o ms → g ≠ 0 → g < 2^64 → Forall (λ c, uc_game_id c = g) sent →
  room o g (upload_size (map Ok sent)) →
  process_upload blake3 (map Ok sent) o = (o', acks, r) →
  ∃ m', grown g ms o' m' ∧ same_rest o o' ∧
    (origin_healthy g o →
     Forall (λ c, hash_of (uc_chunk_hash c) = Some (blake3 (uc_data c))) sent →
     Forall (λ a : result Status UploadAck, ∃ a', a = Ok a' ∧ ua_ok a' = true) acks ∧
     length acks = length sent ∧ (∀ c, c ∈ sent → is_Some (m' !! blake3 (uc_data c))) ∧
     origin_healthy g o').
Proof.
  intros Ho Hg0 Hg Hgs Hroom Hu.
  assert (same_rest o o') as Hsame.
  { refine (process_upload_rest _ _ _ _ _ _ _ Ho _ Hu). destruct Hgs as [|c sent Hc _]; [done|].
    cbn. intros ? [= <-]. by rewrite Hc. }
  destruct sent as [|c sent].
  { injection Hu as <- <- _. exists (ms g). split_and!; [by apply grown_same|done|].
    intros Hhe _. split_and!; [constructor|done| |done]. by intros c ?%elem_of_nil. }
  pose proof (Forall_inv Hgs) as Hc. cbn beta in Hc. cbn [map] in Hu, Hroom.
  assert (origin_healthy g o → origin_healthy g o') as Hhealthy.
  { rewrite <- Hc in Hg0, Hg, Hroom |- *. intros Hhe.
    exact (process_upload_healthy blake3 _ _ _ _ _ _ _ Ho Hg0 Hg Hroom Hhe Hu). }
  apply (process_upload_ok blake3 o o' ms c (map Ok sent)) in Hu; rewrite ?Hc; try done.
  rewrite Hc in Hu.
  destruct Hu as [(e & Hp & _ & _ & ->)|(dn & tail & m' & Hitems & Hf & -> & Ho' & Hin & Hadd & Hend)].
  { exists (ms g). split_and!; [by apply grown_same|done|].
    intros (_ & o1 & s & Hp' & _). rewrite Hp in Hp'. done. }
  eexists. split_and!; [split_and!; [exact Ho'|apply add_chunks_mono|exact Hadd]|done|].
  intros (Hh & o1 & s & Hp & Hs) Hall.
  assert (tail = []) as ->.
  { destruct r as [[]|e]; [done|]. destruct Hend as (item & tail' & -> & Hrej). exfalso.
    assert (item ∈ map (Ok (E:=Status)) (c :: sent)) as Hit by (cbn [map]; rewrite Hitems; set_solver).
    apply list_elem_of_fmap in Hit as (c' & -> & Hc').
    destruct Hrej as [?|(c2 & [= <-] & Hn & _)]; [done|].
    rewrite Forall_forall in Hall. by rewrite Hall in Hn. }
  rewrite app_nil_r in Hitems. subst dn. change (Ok c :: map Ok sent) with (map (Ok (E:=Status)) (c :: sent)) in *.
  apply acked_confirmed in Hf as (Hacks & Hlen & Hcf); [|split; [done|]; intros o2 s2 Hp2; rewrite Hp in Hp2; by injection Hp2 as _ <-|done].
  split_and!; [done..| |apply Hhealthy; split; [done|]; by exists o1, s].
  intros c' Hc'. rewrite Forall_forall in Hin. exact (Hin _ (Hcf _ Hc')).
Qed.
(** The hashes a client has to send are those the store lacks. *)
Lemma missing_hashes (m : gmap hash32 (list byte)) hashes :
  filter (.∉ (filter (λ h, is_Some (m !! h)) hashes : list hash32)) (hashes : list hash32) =
  filter (λ h, ¬ is_Some (m !! h)) hashes.
Proof.
  apply filter_ext_elem. intros h Hh. rewrite list_elem_of_filter. naive_solver.
Qed.

(** What the client asks of its output: the blocks the store lacks. *)
Definition can_send (blocks : gmap string (list byte)) (m : gmap hash32 (list byte))
    (hashes : list hash32) : Prop := ∀ h, h ∈ hashes → m !! h = None →
  fs_read_path (block_file h) = Ok () ∧ staged blake3 blocks h.

Lemma can_send_reads blocks m hashes :
  can_send blocks m hashes → let missing := filter (λ h, ¬ is_Some (m !! h)) hashes in
  absent_block blocks missing = None ∧
  ∀ g, ∃ sent, read_blocks g blocks 0 missing = (sent, []) ∧ Forall2 (sends g blocks) missing sent ∧
    Forall (λ c, hash_of (uc_chunk_hash c) = Some (blake3 (uc_data c))) sent.
Proof.
  intros Hcan missing.
  assert (∀ h, h ∈ missing → fs_read_path (block_file h) = Ok () ∧ staged blake3 blocks h) as Hall.
  { intros h [Hn Hh]%list_elem_of_filter. apply Hcan; [done|]. by apply eq_None_not_Some. }
  split.
  - unfold absent_block. destruct (filter _ missing) as [|h l] eqn:Hf; [done|]. exfalso.
    assert (h ∈ filter (λ h, blocks !! block_file h = None) missing) as Hin by (rewrite Hf; left).
    apply list_elem_of_filter in Hin as [Hn Hin]. destruct (Hall h Hin) as [_ (d & Hd & _)]. congruence.
  - intros g. destruct (read_blocks g blocks 0 missing) as [sent unread] eqn:Hr. exists sent.
    assert (unread = []) as ->.
    { change unread with (sent, unread).2. rewrite <- Hr. apply read_blocks_all.
      intros h Hh. destruct (Hall h Hh) as [? (d & Hd & _)]. split; [by eexists|done]. }
    apply read_blocks_ok in Hr. split_and!; [done..|]. apply Forall_forall. intros c Hc.
    apply list_elem_of_lookup in Hc as [i Hi].
    destruct (Forall2_lookup_r _ _ _ _ _ Hr Hi) as (h & Hh & _ & Hch & Hd).
    apply list_elem_of_lookup_2 in Hh. destruct (Hall h Hh) as [_ (d & Hd' & <-)].
    rewrite Hch, hash_of_bytes. congruence.
Qed.

Lemma lenN_filter_split {A} (P : A → Prop) `{∀ x, Decision (P x)} (l : list A) :
  lenN (filter P l) + lenN (filter (λ x, ¬ P x) l) = lenN l.
Proof. unfold lenN. rewrite <- Nat2N.inj_add, <- length_app. by rewrite filter_app_complement. Qed.

Lemma read_missing_ok blocks g (P : hash32 → Prop) `{∀ h, Decision (P h)} hashes sent unread o1 :
  read_blocks g blocks 0 (filter P hashes) = (sent, unread) → room o1 g (blocks_size blocks hashes) →
  Forall (λ c, uc_game_id c = g) sent ∧ room o1 g (upload_size (map Ok sent)).
Proof.
  intros Hr Hroom. destruct (read_blocks_sent g blocks 0 (filter P hashes)) as [Hg Hs].
  rewrite Hr in Hg, Hs. split; [done|]. eapply room_le; [|done].
  etrans; [exact Hs|apply blocks_size_filter].
Qed.

Lemma upload_delta_ok token g dir blocks hashes o o' ms r :
  origin_ok o ms → g < 2^64 → room o g (blocks_size blocks hashes) →
  upload_delta token g dir blocks hashes o = (o', r) →
  ∃ m', grown g ms o' m' ∧ same_rest o o' ∧
    (g ≠ 0 → is_ok (attach_token (W:=Origin D F C) token) → origin_healthy g o →
     can_send blocks (ms g) hashes →
     (∃ summary, r = Ok summary ∧ us_failed summary = [] ∧
        us_uploaded summary + us_skipped summary = lenN hashes) ∧
     (∀ h, h ∈ hashes → is_Some (m' !! h)) ∧ origin_healthy g o').
Proof.
  intros Ho Hg Hroom Hu. unfold upload_delta in Hu.
  m_step Hu as o1 existing e Hq;
    apply (query_ok _ _ _ _ _ _ _ Ho Hg) in Hq as (Ho1 & Hsame & Hop & Hex & Hlive); last first.
  { exists (ms g). split_and!; [by apply grown_same|done|]. intros Hg0 Ht Hh. exfalso. by apply Hlive. }
  destruct (Hex _ eq_refl) as (Hg0 & -> & Ht). clear Hex Hlive. rewrite missing_hashes in Hu.
  set (missing := filter (λ h, ¬ is_Some (ms g !! h)) hashes) in *. cbv zeta in Hu.
  set (skipped := lenN (filter (λ h, is_Some (ms g !! h)) hashes)) in *.
  assert (skipped + lenN missing = lenN hashes) as Hlen by exact (lenN_filter_split _ _).
  assert (room o1 g (blocks_size blocks hashes) ∧ (origin_healthy g o → origin_healthy g o1)) as [Hroom1 Hh1].
  { destruct Hop as [->|[s Hs]]; [done|]. split; [by eapply room_opened|by eapply origin_healthy_opened]. }
  case_bool_decide as Hmis.
  { injection Hu as <- <-. exists (ms g). split_and!; [by apply grown_same|done|]. intros _ _ Hhe _.
    rewrite Hmis, lenN_nil in Hlen. split_and!; [eexists; split_and!; [done|done|cbn; lia]| |by apply Hh1].
    intros h Hh. destruct (decide (is_Some (ms g !! h))) as [|Hn]; [done|].
    assert (h ∈ missing) as Hin by (by apply list_elem_of_filter). rewrite Hmis in Hin.
    by apply elem_of_nil in Hin. }
  destruct (absent_block blocks missing) as [h|] eqn:Habs.
  { injection Hu as <- <-. exists (ms g). split_and!; [by apply grown_same|done|]. intros _ _ _ Hcan.
    apply can_send_reads in Hcan as [Hcan _]. fold missing in Hcan. by rewrite Hcan in Habs. }
  destruct (read_blocks g blocks 0 missing) as [sent unread] eqn:Hread.
  destruct (read_missing_ok _ _ _ _ _ _ o1 Hread Hroom1) as [Hgs Hroom2].
  destruct (attach_token token) as [[]|] eqn:Htok; [|done].
  rewrite (M_bind_ok (raising _) _ _ o1 ()) in Hu by done.
  m_step Hu as o2 acks e Hup; apply raising_inv in Hup as (ru & Hup & Hru);
    apply origin_upload_inv in Hup as (acks' & r' & Hup & ->); [|done]. injection Hru as ->.
  destruct (process_sent _ _ _ _ _ _ _ Ho1 Hg0 Hg Hgs Hroom2 Hup) as (m' & Hgrown & Hrest & Hlive).
  unfold lift, mbind, M_bind in Hu.
  assert (o' = o2) as ->.
  { destruct (ack_loop _ _); [|by injection Hu as <- _]. destruct unread; by injection Hu as <- _. }
  exists m'. split_and!; [done|by destruct Hsame as (?&?&?), Hrest as (?&?&?); split_and!; etrans|].
  intros _ _ Hh Hcan. apply can_send_reads in Hcan as [_ Hcan]. fold missing in Hcan.
  destruct (Hcan g) as (sent' & Hread' & Hsends & Hhashes). rewrite Hread in Hread'.
  injection Hread' as <- ->. destruct (Hlive (Hh1 Hh) Hhashes) as (Hacks & Hal & Hin & Hhe).
  rewrite ack_loop_confirmed in Hu; last first.
  { apply Forall_map. eapply Forall_impl; [exact Hacks|]. cbn. intros a (a' & -> & Ha). by exists a'. }
  injection Hu as <-. split_and!; [| |done].
  - eexists. split_and!; [done|done|]. cbn [us_uploaded us_skipped us_failed].
    apply Forall2_length in Hsends. unfold lenN in *. rewrite length_map. lia.
  - intros h Hh'. destruct (decide (is_Some (ms g !! h))) as [[d Hd]|Hn].
    + exists d. destruct Hgrown as (_ & Hsub & _). by eapply lookup_weaken.
    + assert (h ∈ missing) as Hmh by (by apply list_elem_of_filter).
      apply list_elem_of_lookup in Hmh as [i Hi].
      destruct (Forall2_lookup_l _ _ _ _ _ Hsends Hi) as (c & Hc & _ & Hch & _).
      apply list_elem_of_lookup_2 in Hc. specialize (Hin _ Hc).
      rewrite Forall_forall in Hhashes. specialize (Hhashes _ Hc). rewrite Hch, hash_of_bytes in Hhashes.
      injection Hhashes as ->. done.
Qed.

(** C26: Whatever the origin answers, sending the blocks of a delta only adds chunks
    to the store of the game, each under its hash, and changes no published
    manifest and no other store.  When no call of the origin fails and every
    hash it lacks is staged and readable, all of them are counted as sent or
    skipped, none as failed, and the origin then holds every hash of the delta and
    goes on without a failure. *)
Theorem upload_delta_spec token g dir blocks hashes o o' ms r :
  origin_ok o ms → g < 2^64 → room o g (blocks_size blocks hashes) →
  upload_delta token g dir blocks hashes o = (o', r) →
  ∃ m', grown g ms o' m' ∧ same_rest o o' ∧
    (g ≠ 0 → is_ok (attach_token (W:=Origin D F C) token) → origin_healthy g o →
     can_send blocks (ms g) hashes →
     (∃ summary, r = Ok summary ∧ us_failed summary = [] ∧
        us_uploaded summary + us_skipped summary = lenN hashes) ∧
     (∀ h, h ∈ hashes → is_Some (m' !! h)) ∧ origin_healthy g o').
Proof. apply upload_delta_ok. Qed.

(** What a publication that succeeded has put at the origin. *)
Definition published_at (config : ProducerConfig) (index : GameIndex)
    (m : gmap hash32 (list byte)) o o' : Prop :=
  let g := pc_game_id config in let v := pc_version config in
  let manifest := Manifest.encode index in
  g ≠ 0 ∧ v ≠ 0 ∧ or_published o' !! (g, v) = Some manifest ∧
  (∃ i, Manifest.decode blake3 manifest = Ok i ∧ ∀ h, h ∈ chunk_set i → is_Some (m !! h)) ∧
  scheduler_takes sched g v manifest o ∧ or_sched o' = scheduler_after sched g v manifest o.

Lemma upload_commit_ok token config index o o' ms r :
  origin_ok o ms → pc_game_id config < 2^64 →
  upload_commit token (pc_game_id config) (pc_version config) (Manifest.encode index)
    (gi_manifest_hash index) o = (o', r) →
  origin_ok o' ms ∧
  (∀ gv, gv ≠ (pc_game_id config, pc_version config) → or_published o' !! gv = or_published o !! gv) ∧
  (is_ok r → published_at config index (ms (pc_game_id config)) o o').
Proof.
  intros Ho Hg Hu. unfold upload_commit in Hu.
  destruct (attach_token token) as [[]|e]; last first.
  { unfold raising, map_err_m, lift, mbind, M_bind in Hu. cbn in Hu. injection Hu as <- <-. by split_and!. }
  rewrite (M_bind_ok (raising _) _ o o ()) in Hu by done.
  set (c := mkCommit _ _ _ _) in Hu. unfold raising, map_err_m in Hu. cbn [up_commit origin_rpc OriginBehind] in Hu.
  unfold map_err_m, mbind, M_bind in Hu.
  destruct (commit_version blake3 sched c o) as [o1 rc] eqn:Hc.
  pose proof (commit_version_ok blake3 sched c o o1 ms rc Ho Hg Hc) as (Ho1 & Hoth & _ & Hpos & Hres).
  cbn [cr_game_id cr_version cr_manifest c] in Hoth, Hpos, Hres.
  destruct rc as [reply|e]; cbn in Hu; [|injection Hu as <- <-; by split_and!].
  destruct (cp_published reply) eqn:Hrep; injection Hu as <- <-; [|by split_and!].
  split_and!; [done..|]. intros _. destruct (Hpos I) as (Hg0 & Hv0 & _).
  destruct Hres as (i & Hdec & [(-> & _)|(Hall & Hpub & Hs & Hsc)]); [done|].
  split_and!; [done..|by exists i| |exact Hsc]. unfold scheduler_takes. destruct sched; [|done]. by rewrite <- Hs.
Qed.

(** C25: A publication leaves every store of the origin with at least the chunks it
    had, each still under its hash, and no manifest but the version's own can
    change.  When it returns, the origin publishes exactly the manifest of the
    run for this game and version, holds every chunk the manifest refers to, and
    a scheduler it is configured with has taken the version; the output
    directory is not touched. *)
Theorem publish_spec config index plan o out ms addr s r :
  origin_ok o ms → pc_game_id config < 2^64 → pc_origin_addr config = Some addr →
  room o (pc_game_id config) (blocks_size (po_chunks out) (chunks_to_download plan)) →
  publish config index plan (o, out) = (s, r) →
  s.2 = out ∧
  (∀ gv, gv ≠ (pc_game_id config, pc_version config) → or_published s.1 !! gv = or_published o !! gv) ∧
  ∃ m', grown (pc_game_id config) ms s.1 m' ∧ (is_ok r → published_at config index m' o s.1).
Proof.
  intros Ho Hg Haddr Hroom Hp. pose proof (publish_output _ _ _ _ _ _ _ Hp) as Hout.
  split; [done|]. unfold publish in Hp. rewrite Haddr in Hp.
  rewrite (M_bind_ok get _ (o, out) (o, out) (o, out)) in Hp by done.
  unfold on_client, zoom in Hp. cbn [fst snd] in Hp.
  match type of Hp with (let (_, _) := ?m o in _) = _ =>
    destruct (m o) as [o' r'] eqn:Hm end.
  injection Hp as <- <-. cbn [fst]. clear Hout.
  rewrite (M_bind_ok (raising _) _ o o ()) in Hm by done.
  m_step Hm as o1 summary e Hu; destruct (upload_delta_ok _ _ _ _ _ _ _ _ _ Ho Hg Hroom Hu)
    as (m' & Hgrown & (Hd & Hpub & Hsch) & _).
  - pose proof Hgrown as (Ho1 & Hsub & Hadd).
    destruct (upload_commit_ok _ _ _ _ _ _ _ Ho1 Hg Hm) as (Ho' & Hoth & Hok).
    split; [by intros gv Hgv; rewrite Hoth, Hpub|]. exists m'. split; [done|].
    intros Hr. specialize (Hok Hr). unfold update_at in Hok. rewrite decide_True in Hok by done.
    unfold published_at, scheduler_takes, scheduler_after in *. by rewrite Hsch in Hok.
  - split; [by intros gv _; rewrite Hpub|]. by exists m'.
Qed.

End upload.
