(* ===== verification/ProducerLive.v ===== *)
(** * ProducerLive: a run that publishes

    When the disk, the origin and the scheduler answer every call, a run of the
    producer returns, and the version it made is published with all of its chunks. *)

From S2P Require Import Prelude Bytes Text Manifest UpdatePlan FileIO.
From S2P Require Import Redb Storage StorageSpec StorageBatch SchedControl Upload.
From S2P Require Import UploadSpec Configs Producer ProducerSpec ProducerPublish.

Section live.
Context (blake3 : list byte → hash32) `{!Cdc, !CdcLaws, !ProducerFs, !ProducerFsLaws}.
Context {D F C : Type} `{RedbLaws D, FileLaws F, !CompioOps F, !OpenOps D F, !OpenLaws D F}.
Context `{PublishFsLaws, !SchedulerClient C, SetIterLaws}.
Context (to_error : Status → error) (metadata : string → bool) (sched : option string).
Context (dirs : string → option Tree) (delta_json : Delta → result error (list byte)).
Implicit Types (o : Origin D F C) (ms : N → gmap hash32 (list byte)).

#[local] Instance live_origin : UploadRpc (Origin D F C) :=
  origin_rpc blake3 to_error metadata sched.

(** ** Publishing *)

Lemma check_commit_built g v entries :
  g ≠ 0 → v ≠ 0 → wf_files entries →
  let i := build blake3 entries in
  check_commit blake3 (mkCommit g v (Manifest.encode i) (hash_bytes (gi_manifest_hash i))) = Ok i.
Proof.
  intros Hg Hv Hwf i. unfold check_commit. cbn [cr_game_id cr_version cr_manifest cr_manifest_hash].
  rewrite (proj2 (N.eqb_neq _ _) Hg), (proj2 (N.eqb_neq _ _) Hv). cbn [orb].
  pose proof (hash_bytes_length (gi_manifest_hash i)) as Hl.
  assert (length (Manifest.encode i) = length (encode_body i) + 32)%nat as Hlen.
  { unfold Manifest.encode. by rewrite length_app, Hl. }
  assert (length (Manifest.encode i) - 32 = length (encode_body i))%nat as Hcut by lia.
  rewrite (proj2 (N.ltb_ge _ _)) by (unfold lenN; lia).
  assert (take (length (Manifest.encode i) - 32) (Manifest.encode i) = encode_body i) as ->
    by (rewrite Hcut; apply take_app_length).
  rewrite hash_of_bytes. change (blake3 (encode_body i)) with (gi_manifest_hash i).
  unfold mbind, result_bind, ok_or. rewrite decide_False by (intros Hn; by apply Hn).
  unfold i. by rewrite decode_encode_index.
Qed.

Lemma upload_commit_live token g v entries o ms :
  let i := build blake3 entries in
  origin_ok o ms → g ≠ 0 → v ≠ 0 → g < 2^64 → wf_files entries → origin_healthy g o → publish_ready →
  is_ok (attach_token (W:=Origin D F C) token) → (∀ h, h ∈ chunk_set i → is_Some (ms g !! h)) →
  scheduler_takes sched g v (Manifest.encode i) o →
  ∃ o', upload_commit token g v (Manifest.encode i) (gi_manifest_hash i) o = (o', Ok ()) ∧
    origin_healthy g o'.
Proof.
  intros i Ho Hg0 Hv0 Hg Hwf Hh Hready Ht Hall Hs. unfold upload_commit.
  destruct (attach_token token) as [[]|]; [|done]. rewrite (M_bind_ok (raising _) _ o o ()) by done.
  set (c := mkCommit g v (Manifest.encode i) (hash_bytes (gi_manifest_hash i))).
  destruct (commit_version_live blake3 sched c o ms i Ho Hg Hh Hready
    (check_commit_built g v entries Hg0 Hv0 Hwf) Hall Hs) as (o' & Hc & Hh').
  exists o'. split; [|done]. unfold mbind, M_bind, raising, map_err_m. cbn [up_commit live_origin origin_rpc OriginBehind].
  unfold map_err_m. by rewrite Hc.
Qed.

(** What a publication needs of the origin and the scheduler. *)
Record ready_to_publish (config : ProducerConfig) (index : GameIndex) ms o : Prop := {
  rp_game : pc_game_id config ≠ 0 ∧ pc_game_id config < 2^64;
  rp_version : pc_version config ≠ 0;
  rp_origin : origin_ok o ms;
  rp_healthy : origin_healthy (pc_game_id config) o;
  rp_disk : publish_ready;
  rp_token : is_ok (attach_token (W:=Origin D F C) (pc_origin_token config));
  rp_sched : scheduler_takes sched (pc_game_id config) (pc_version config) (Manifest.encode index) o
}.

Lemma publish_live config entries old o out ms addr :
  let index := build blake3 entries in let plan := compute index old ∅ in
  let g := pc_game_id config in
  ready_to_publish config index ms o → wf_files entries → pc_origin_addr config = Some addr →
  room o g (blocks_size (po_chunks out) (chunks_to_download plan)) →
  can_send blake3 (po_chunks out) (ms g) (chunks_to_download plan) →
  (∀ h, h ∈ chunk_set index → h ∈ default ∅ (chunk_set <$> old) → is_Some (ms g !! h)) →
  ∃ o' m', publish config index plan (o, out) = ((o', out), Ok ()) ∧
    grown blake3 g ms o' m' ∧ published_at blake3 sched config index m' o o' ∧ origin_healthy g o'.
Proof.
  intros index plan g [[Hg0 Hg] Hv Ho Hh Hdisk Ht Hs] Hwf Haddr Hroom Hcan Hold. unfold publish.
  rewrite Haddr, (M_bind_ok get _ (o, out) (o, out) (o, out)) by done. unfold on_client, zoom.
  cbn [fst snd]. rewrite (M_bind_ok (raising _) _ o o ()) by done.
  destruct (upload_delta (pc_origin_token config) g (out_path config "chunks") (po_chunks out)
    (chunks_to_download plan) o) as [o1 r] eqn:Hu.
  destruct (upload_delta_ok blake3 to_error metadata sched _ _ _ _ _ _ _ ms _ Ho Hg Hroom Hu)
    as (m' & Hgrown & (_ & Hpub & Hsch) & Hlive).
  destruct (Hlive Hg0 Ht Hh Hcan) as ((summary & -> & _) & Hin & Hh1).
  rewrite (M_bind_ok _ _ _ _ _ Hu). pose proof Hgrown as (Ho1 & Hsub & _).
  assert (update_at g m' ms g = m') as Hupd by (unfold update_at; by rewrite decide_True).
  assert (scheduler_takes sched g (pc_version config) (Manifest.encode index) o1) as Hs1.
  { unfold scheduler_takes in *. by rewrite Hsch. }
  destruct (upload_commit_live (pc_origin_token config) g (pc_version config) entries o1
    (update_at g m' ms) Ho1 Hg0 Hv Hg Hwf Hh1 Hdisk Ht) as (o' & Hc & Hh'); [|exact Hs1|].
  { rewrite Hupd. intros h Hh'. destruct (decide (h ∈ default ∅ (chunk_set <$> old))) as [Ho'|Hn].
    - destruct (Hold h Hh' Ho') as [d Hd]. exists d. by eapply lookup_weaken.
    - apply Hin, elem_of_compute_chunks. split_and!; [done|done|apply not_elem_of_empty]. }
  fold index in Hc. exists o', m'. unfold g in Hc. rewrite Hc. split; [done|].
  destruct (upload_commit_ok blake3 to_error metadata sched _ config index o1 o' _ _ Ho1 Hg Hc)
    as (Ho' & _ & Hpubl). specialize (Hpubl I). unfold g in Hupd. rewrite Hupd in Hpubl. split_and!; [| |done].
  - destruct Hgrown as (_ & ? & ?). by split_and!.
  - unfold published_at, scheduler_takes, scheduler_after in *. by rewrite Hsch in Hpubl.
Qed.

(** ** A whole run *)

(** What a run needs of its own machine, and what it finds there. *)
Record run_ready (config : ProducerConfig) (out : Output) (files : list path)
    (blocks : gmap string (list byte) * gset hash32) (entries : list FileEntry)
    (old : option GameIndex) : Prop := {
  rr_lock : fs_create_lock = Ok ();
  rr_dirs name : fs_make_dir name = Ok ();
  rr_write name before bs : fs_write_path name before bs = (Some bs, Ok ());
  rr_read h : fs_read_path (block_file h) = Ok ();
  rr_json d : is_ok (delta_json d);
  rr_files : list_files (pc_source_dir config) (dirs (pc_source_dir config)) = Ok files ∧ files ≠ [];
  rr_entries : entry_loop blake3 (pc_source_dir config) (default TOther (dirs (pc_source_dir config)))
    (pc_chunk config) true files (po_chunks out, ∅) = (blocks, Ok entries);
  rr_format : wf_files entries;
  rr_previous (s : Origin D F C * Output) : previous_index blake3 dirs config s = (s, Ok old)
}.

Lemma os_lift_ok {A} (s : Origin D F C * Output) (r : result error A) a :
  r = Ok a → os_lift r s = (s, Ok a).
Proof. by intros ->. Qed.

Lemma write_out_live getm setm msg dir name bs (s : Origin D F C * Output) :
  (∀ before, fs_write_path name before bs = (Some bs, Ok ())) →
  on_out (write_out getm setm msg dir name bs) s = ((s.1, setm (<[name := bs]> (getm s.2)) s.2), Ok ()).
Proof.
  intros Hw. destruct s as [o out]. unfold on_out, zoom, raising, map_err_m, write_out. cbn [fst snd].
  rewrite (M_bind_ok get _ out out out) by done. unfold write_to. by rewrite Hw.
Qed.

Lemma produce_live config o out files blocks entries old addr ms :
  let index := build blake3 entries in let plan := compute index old ∅ in
  let g := pc_game_id config in
  run_ready config out files blocks entries old →
  ready_to_publish config index ms o → pc_origin_addr config = Some addr →
  room o g (blocks_size blocks.1 (chunks_to_download plan)) →
  (∀ h, h ∈ default ∅ (chunk_set <$> old) → is_Some (ms g !! h)) →
  ∃ o' out' m', produce blake3 dirs delta_json config (o, out) = ((o', out'), Ok index) ∧
    grown blake3 g ms o' m' ∧ published_at blake3 sched config index m' o o' ∧ origin_healthy g o'.
Proof.
  intros index plan g [_ Hmk Hwr Hrd Hjson [Hfiles Hne] Hent Hfmt Hprev] Hready Haddr Hroom Hold.
  destruct (entry_loop_ok blake3 _ _ _ _ _ _ _ _ (staging_ok_empty _ _) Hent) as (Hst & _ & _ & Hall).
  unfold produce. rewrite (M_bind_ok _ _ _ _ _ (os_lift_ok _ _ _ Hfiles)).
  rewrite bool_decide_false by done.
  do 3 rewrite (M_bind_ok (os_lift _) _ (o, out) (o, out) ()) by (rewrite Hmk; reflexivity).
  rewrite (M_bind_ok (on_stage _) _ (o, out) (o, set_chunks blocks.1 out) entries); last first.
  { unfold on_stage, on_out, zoom, raising, map_err_m. cbn [fst snd]. by rewrite Hent. }
  rewrite (M_bind_ok _ _ _ _ _ (write_out_live _ _ _ _ _ _ _ (λ b, Hwr _ b _))). cbn [fst snd].
  rewrite (M_bind_ok _ _ _ _ _ (Hprev _)).
  destruct (delta_json _) as [json|e] eqn:Hj; [|exfalso; match type of Hj with
    delta_json ?d = _ => specialize (Hjson d); by rewrite Hj in Hjson end].
  rewrite (M_bind_ok (os_lift _) _ _ _ _ (os_lift_ok _ _ _ eq_refl)).
  rewrite (M_bind_ok _ _ _ _ _ (write_out_live _ _ _ _ _ _ _ (λ b, Hwr _ b _))). cbn [fst snd].
  match goal with |- context [(o, ?out1)] => destruct (publish_live config entries old o out1 ms addr
    Hready Hfmt Haddr Hroom) as (o' & m' & Hp & Hrest) end.
  - intros h Hh _. split; [apply Hrd|].
    apply elem_of_compute_chunks in Hh as (Hh & _). apply elem_of_chunk_set, elem_of_chunk_list in Hh
      as (f & c & Hf & Hc & ->). apply list_elem_of_lookup in Hf as [j Hj'].
    destruct (Forall2_lookup_r _ _ _ _ _ Hall Hj') as (p & _ & data & chunks & _ & (_ & _ & _ & Hmeta) & _ & Hseen).
    rewrite Hmeta in Hc. apply list_elem_of_fmap in Hc as (d & -> & Hd). apply Hst. by apply Hseen.
  - intros h _. by apply Hold.
  - rewrite (M_bind_ok _ _ _ _ _ Hp). by eexists _, _, m'.
Qed.

Lemma run_live config o out files blocks entries old addr ms :
  let index := build blake3 entries in let plan := compute index old ∅ in
  let g := pc_game_id config in
  po_lock out = false → run_ready config out files blocks entries old →
  ready_to_publish config index ms o → pc_origin_addr config = Some addr →
  room o g (blocks_size blocks.1 (chunks_to_download plan)) →
  (∀ h, h ∈ default ∅ (chunk_set <$> old) → is_Some (ms g !! h)) →
  ∃ o' out' m', run_with_config blake3 dirs delta_json config (o, out) = ((o', out'), Ok index) ∧
    po_lock out' = false ∧ grown blake3 g ms o' m' ∧ published_at blake3 sched config index m' o o' ∧
    origin_healthy g o'.
Proof.
  intros index plan g Hl Hrun Hready Haddr Hroom Hold. pose proof Hrun as [Hcl Hmk].
  unfold run_with_config.
  rewrite (M_bind_ok (os_lift _) _ (o, out) (o, out) ()) by (rewrite Hmk; reflexivity).
  rewrite (M_bind_ok get _ (o, out) (o, out) (o, out)) by done. cbn [snd]. rewrite Hl, Hcl.
  rewrite (M_bind_ok (modify _) _ (o, out) (o, set_lock true out) ()) by done. unfold unlocking.
  destruct (produce_live config o (set_lock true out) files blocks entries old addr ms)
    as (o' & out' & m' & Hp & Hg & Hpub & Hh); [|done..|].
  { by destruct Hrun. }
  exists o', (set_lock false out'), m'. by rewrite Hp.
Qed.


End live.
