(* ===== verification/ProducerExamples.v ===== *)
(** * ProducerExamples: one run of the producer, from a directory to the scheduler

    A source directory with two files is chunked, staged and published to an
    origin in memory, which announces the version to the scheduler of this
    repository; the theorems of ProducerSpec and ProducerPublish apply to the run. *)

From S2P Require Import Prelude Bytes Text Manifest UpdatePlan SchedControl.
From S2P Require Import FileIO Redb Storage Upload UploadSpec Configs.
From S2P Require Import Producer ProducerSpec ProducerPublish ProducerLive.

(** A chunker that cuts nothing and fails on files over the maximum. *)
#[local] Instance whole_cdc : Cdc := {|
  stream_cdc min avg max data :=
    if max <? lenN data then [Err ["chunk"%string]] else [Ok data]
|}.
#[local] Instance whole_cdc_laws : CdcLaws.
Proof.
  split; intros min avg max data chunks; cbn; destruct (N.ltb_spec max (lenN data)); cbn; try done.
  - intros [= <-]. apply app_nil_r.
  - by intros ?%list_elem_of_singleton.
  - intros [= ->]%list_elem_of_singleton. done.
Qed.

(** A disk on which every call succeeds. *)
#[local] Instance ready_fs : ProducerFs := {|
  fs_read_dir _ := Ok (); fs_next_entry _ := Ok (); fs_open_file _ := Ok ();
  fs_read_file _ := Ok (); fs_make_dir _ := Ok (); fs_create_lock := Ok ();
  fs_write_path _ _ bs := (Some bs, Ok ()); fs_read_path _ := Ok ()
|}.
#[local] Instance ready_fs_laws : ProducerFsLaws.
Proof. split. by intros name old bs new [= <-]. Qed.

#[local] Existing Instance SchedDb.sched_json.
#[local] Existing Instance mem_client.
#[local] Instance origin_stub : UploadRpc (Origin MemDb MemFile (ControlService MemDb)) :=
  origin_rpc toy_hash (λ st, [st_message st]) (λ _, true) (Some "scheduler"%string).

Definition src_tree : Tree := TDir [
  ("readme.txt"%string, TFile [x61]); ("bin"%string, TDir [("game.exe"%string, TFile up_data)])].
Definition src_dirs (p : string) : option Tree :=
  if decide (p = "src"%string) then Some src_tree else None.
Definition src_json (d : Delta) : result error (list byte) := Ok [].
Definition src_config : ProducerConfig :=
  mkProducerConfig 7 1 "src" None "out" (Some "origin"%string) (Some "secret"%string) (mkParams 1 2 8).
Definition out0 : Output := mkOutput false ∅ ∅ ∅.

Lemma src_tree_wf : wf_tree src_tree.
Proof.
  assert (∀ A (l : list A) `{EqDecision A}, bool_decide (NoDup l) = true → NoDup l) as Hnd.
  { intros A l ?. apply bool_decide_eq_true. }
  repeat first [constructor 1|constructor 3; [apply (Hnd _ _ _); vm_compute; reflexivity|]|constructor].
Qed.

Definition src_run := run_with_config toy_hash src_dirs src_json src_config (origin0, out0).

(** The run returns, and the scheduler has the manifest under its version. *)
Example src_run_published :
  match src_run with
  | ((o, out), Ok index) =>
    map fe_name (gi_files index) = ["bin/game.exe"; "readme.txt"]%string ∧
    or_published o !! (7, 1) = Some (Manifest.encode index) ∧
    SchedDb.get_version (cs_store (or_sched o)) 7 1 = Ok (Some (Manifest.encode index)) ∧
    po_index out !! "1.gameindex"%string = Some (Manifest.encode index)
  | _ => False
  end.
Proof. vm_compute. done. Qed.

(** ** Witnesses *)


Definition staged_blocks : gmap string (list byte) := {[ block_file up_hash := up_data ]}.
Definition delta_hashes : list hash32 := [up_hash].

Lemma mem_room n : n < 2^32 → room origin0 7 n.
Proof.
  intros Hn o1 s Hp. assert (gs_size s = 0) as ->; [|done].
  change s with (default s (ok (o1, Ok s : result Status _).2)). rewrite <- Hp. reflexivity.
Qed.

Definition delta_run :=
  upload_delta (Some "secret"%string) 7 "out" staged_blocks delta_hashes origin0.

Lemma origin0_healthy : origin_healthy 7 origin0.
Proof.
  split; [apply _|]. eexists _, _. split; [reflexivity|]. split; [|done]. vm_compute. done.
Qed.

Lemma upload_delta_spec_witness :
  ∃ o' m', delta_run = (o', Ok (mkSummary 1 0 [])) ∧
    origin_ok o' (update_at 7 m' (λ _, ∅)) ∧ is_Some (m' !! up_hash).
Proof.
  assert (delta_run.2 = Ok (mkSummary 1 0 [])) as Hok by (vm_compute; reflexivity).
  destruct delta_run as [o' r] eqn:Hu. cbn [snd] in Hok. subst r. unfold delta_run, origin_stub in Hu.
  destruct (upload_delta_spec toy_hash (λ st, [st_message st]) (λ _, true) (Some "scheduler"%string)
    (Some "secret"%string) 7 "out" staged_blocks delta_hashes origin0 o' (λ _, ∅) (Ok (mkSummary 1 0 [])) origin0_ok eq_refl
    (mem_room (blocks_size staged_blocks delta_hashes) ltac:(vm_compute; reflexivity)) Hu) as (m' & (Ho & _) & _ & Hlive).
  exists o', m'. split; [reflexivity|]. split; [exact Ho|].
  apply Hlive; [done|exact I|exact origin0_healthy| |left].
  intros h Hh _. split; [done|]. exists up_data. apply list_elem_of_singleton in Hh as ->.
  split; [apply lookup_singleton_eq|reflexivity].
Defined.

Definition src_plan : UpdatePlan := compute up_index None ∅.
Definition staged_out : Output := set_chunks staged_blocks out0.
Definition src_publish := publish src_config up_index src_plan (origin0, staged_out).

Lemma publish_spec_witness :
  ∃ o' out, src_publish = ((o', out), Ok ()) ∧
    or_published o' !! (7, 1) = Some (Manifest.encode up_index).
Proof.
  assert (src_publish.2 = Ok ()) as Hok by (vm_compute; reflexivity).
  destruct src_publish as [[o' out] r] eqn:Hp. cbn [snd] in Hok. subst r. unfold src_publish, origin_stub in Hp.
  destruct (publish_spec toy_hash (λ st, [st_message st]) (λ _, true) (Some "scheduler"%string)
    src_config up_index src_plan origin0 staged_out (λ _, ∅) "origin" (o', out) (Ok ()) origin0_ok eq_refl eq_refl
    (mem_room (blocks_size (po_chunks staged_out) (chunks_to_download src_plan)) ltac:(vm_compute; reflexivity)) Hp) as (_ & _ & m' & _ & Hpub).
  exists o', out. split; [reflexivity|]. destruct (Hpub I) as (_ & _ & H & _). exact H.
Defined.

(** The run above, from its assumptions. *)
Definition src_files : list path := [["bin"; "game.exe"]; ["readme.txt"]]%string.
Definition src_loop := entry_loop toy_hash "src" src_tree (pc_chunk src_config) true src_files
  (∅ : gmap string (list byte), ∅ : gset hash32).
Definition src_entries : list FileEntry := Eval vm_compute in default [] (ok src_loop.2).
Definition src_blocks := Eval vm_compute in src_loop.1.

Lemma src_ready : run_ready (D:=MemDb) (F:=MemFile) (C:=ControlService MemDb) toy_hash src_dirs src_json src_config out0
  src_files src_blocks src_entries None.
Proof.
  split; try done. split; [done|].
  apply Forall_forall. intros f Hf. unfold src_entries in Hf.
  repeat (apply elem_of_cons in Hf as [->|Hf]; [split_and!; [vm_compute; reflexivity..|];
    apply Forall_singleton; vm_compute; reflexivity|]).
  by apply elem_of_nil in Hf.
Qed.

Lemma src_publishable :
  ready_to_publish toy_hash (λ st, [st_message st]) (λ _, true) (Some "scheduler"%string)
    src_config (build toy_hash src_entries) (λ _, ∅) origin0.
Proof.
  split; [done|done|exact origin0_ok|exact origin0_healthy|by split|exact I|].
  vm_compute. exact I.
Qed.

