(* ===== verification/Directory.v ===== *)
(** * Directory: a directory on its way to the players

    The whole system: a run of the producer cuts a source directory into chunks,
    uploads them and commits the version; the origin announces it to the scheduler; an
    IDC takes the chunks from the origin and a cafe takes them from the IDC.  What the
    cafe has in the end is the directory. *)

From S2P Require Import Prelude Bytes Text FileIO Redb Manifest.
From S2P Require Import UpdatePlan Storage StorageSpec UploadSpec SchedDb SchedDbSpec SchedControl SchedControlSpec SchedVersions.
From S2P Require Import Upload DataPath DataPathSpec DataPathLive CafeStore CafeSpec Merge MergeSpec MergeLive.
From S2P Require Import Configs AgentControl Executor ExecutorSpec ExecutorTasks ExecutorLive CafeLive System SchedLive Delivery.
From S2P Require Import Producer ProducerSpec ProducerPublish ProducerLive ProducerExamples.

Section directory.
Context (blake3 : list byte → hash32) `{!Cdc, !CdcLaws, !ProducerFs, !ProducerFsLaws}.
Context {D E F K : Type} `{RedbLaws D, !RedbHealthy D, RedbLaws E, !RedbHealthy E, SchedJsonLaws}.
Context `{FileLaws F, !CompioOps F, !CompioLaws F, !DirOps F, !DirLaws F, !Quiet F}.
Context `{!OpenOps D F, !OpenLaws D F, ChunkSourceLaws K, MapIterLaws, SetIterLaws, !NetParse, !Dial, PublishFsLaws}.
Context (display : Status → string) (reachable : bool) (sched_addr : string).
Context (to_error : Status → error) (metadata : string → bool) (now : N).
Context (dirs : string → option Tree) (delta_json : Delta → result error (list byte)).

(** The origin calls the scheduler of this system. *)
#[local] Instance stub : SchedulerClient (ControlService E) := control_client display reachable.
#[local] Instance origin_calls : UploadRpc (Origin D F (ControlService E)) :=
  origin_rpc blake3 to_error metadata (Some sched_addr).
#[local] Instance scheduler_calls : ControlRpc (ControlService E) := agent_rpc to_error now.

Abbreviation origin_state := (DataState D F (ControlService E) K).
Implicit Types (s : origin_state) (ms : N → gmap hash32 (list byte)).

(** ** The manifest of the run *)

Lemma run_entries config root out files blocks entries old :
  dirs (pc_source_dir config) = Some root → wf_tree root →
  run_ready (D:=D) (F:=F) (C:=ControlService E) blake3 dirs delta_json config out files blocks entries old →
  (∀ p data, file_data root p = Some data → ∃ e chunks, e ∈ entries ∧ describes blake3 p data chunks e) ∧
  ∀ e, e ∈ entries → ∃ p data chunks, file_data root p = Some data ∧ describes blake3 p data chunks e.
Proof.
  intros Hroot Hwf Hrun. destruct (rr_files _ _ _ _ _ _ _ _ _ Hrun) as [Hfiles _].
  pose proof (rr_entries _ _ _ _ _ _ _ _ _ Hrun) as Hent. rewrite Hroot in Hfiles, Hent.
  apply list_files_ok in Hfiles as [_ Hin]; [|done].
  destruct (entry_loop_ok blake3 _ _ _ _ _ _ _ _ (staging_ok_empty _ _) Hent) as (_ & _ & _ & Hall). split.
  - intros p data Hp. assert (p ∈ files) as Hpf by (by apply Hin; exists data).
    apply list_elem_of_lookup in Hpf as [i Hi].
    destruct (Forall2_lookup_l _ _ _ _ _ Hall Hi) as (e & He & data' & chunks & Hd & Hdesc & _).
    cbn [default from_option id] in Hd. rewrite Hp in Hd. injection Hd as <-.
    exists e, chunks. split; [by eapply list_elem_of_lookup_2|done].
  - intros e He. apply list_elem_of_lookup in He as [i Hi].
    destruct (Forall2_lookup_r _ _ _ _ _ Hall Hi) as (p & _ & data & chunks & Hd & Hdesc & _).
    by exists p, data, chunks.
Qed.

(** No other data has the hash of one of the files, or of one of their chunks. *)
Record distinct (root : Tree) (index : GameIndex) : Prop := {
  di_chunks h d d' : h ∈ chunk_set index → blake3 d = h → blake3 d' = h → d = d';
  di_files p data d : file_data root p = Some data → blake3 d = blake3 data → d = data
}.

Lemma content_of_run root entries (m : gmap hash32 (list byte)) :
  let index := build blake3 entries in
  (∀ e, e ∈ entries → ∃ p data chunks, file_data root p = Some data ∧ describes blake3 p data chunks e) →
  distinct root index → addressed blake3 m → (∀ h, h ∈ chunk_set index → is_Some (m !! h)) →
  version_content blake3 m index.
Proof.
  intros index Hent Hdist Hadd Hall e He.
  destruct (Hent e He) as (p & data & chunks & Hp & _ & Hhash & Hjoin & Hck). exists chunks.
  split; [|by rewrite Hjoin]. rewrite Hck. apply Forall2_fmap_l, Forall_Forall2_diag, Forall_forall.
  intros c Hc. assert (blake3 c ∈ chunk_set index) as Hin.
  { apply elem_of_chunk_set, elem_of_chunk_list. exists e, (meta_of blake3 c).
    split_and!; [done| |done]. rewrite Hck. by apply list_elem_of_fmap_2. }
  destruct (Hall _ Hin) as [d Hd]. change (m !! blake3 c = Some c). rewrite Hd. f_equal.
  by apply (di_chunks _ _ Hdist (blake3 c)); [|by apply Hadd|].
Qed.

(** ** The publication *)

Lemma publish_taken (addr : string) g v manifest (c c' : ControlService E) :
  publish_to_scheduler addr g v manifest c = (c', Ok ()) → announced c' g v = Some manifest.
Proof.
  unfold publish_to_scheduler. intros Hp. m_step Hp as c0 [] e Hc; apply connect_control_same in Hc as ->.
  assert (∃ reply, publish_version (mkPublish g v manifest) c = (c', Ok reply)) as [reply Hpv].
  { revert Hp. unfold map_err_m, lift, mbind, M_bind. cbn [sc_publish stub control_client].
    unfold map_err_m. destruct (publish_version _ c) as [c1 [reply|e]]; cbn; intros [= <- _]; by exists reply. }
  apply publish_version_announced in Hpv as [[_ []]|Hv]; [done|]. rewrite Hv. by rewrite decide_True.
Qed.

Lemma publication_inv s ms g o' m' manifest v :
  g < 2^64 → sys_inv blake3 ms s → grown blake3 g ms o' m' → complete blake3 m' manifest →
  or_sched o' = scheduler_after (Some sched_addr) g v manifest (ds_origin s) →
  sys_inv blake3 (update_at g m' ms) (set_origin o' s).
Proof.
  intros Hg [Ho Hadd Hn Han] (Ho' & Hsub & Hadd') Hcomplete Hsched. split; cbn; [done| |done|].
  - intros g' Hg'. unfold update_at. case_decide; [subst; by apply Hadd', Hadd|by apply Hadd].
  - intros g' v' manifest' Hg' Ha. rewrite Hsched in Ha. cbn [scheduler_after] in Ha.
    match type of Ha with context [(?p).1] => destruct p as [c' rp] eqn:Hp end.
    destruct (publish_to_scheduler_announced _ _ _ _ _ _ _ _ _ Hp g' v') as [Heq|[Heq Heq']].
    + cbn [fst] in Ha. rewrite Heq in Ha. eapply complete_mono; [by apply update_at_sub|by eapply Han].
    + injection Heq as -> ->. cbn [fst] in Ha. rewrite Heq' in Ha. injection Ha as <-.
      unfold update_at. by rewrite decide_True.
Qed.

Section run.
Context s ms (config : ProducerConfig) (root : Tree) (files : list path) (blocks : gmap string (list byte) * gset hash32).
Context (entries : list FileEntry) (old : option GameIndex) (out : Output) (addr : string).
Let g := pc_game_id config.
Let v := pc_version config.
Let index := build blake3 entries.

(** The source directory, the producer's machine, the origin and the scheduler are
    ready for the run. *)
Record publishable : Prop := {
  pu_inv : sys_inv blake3 ms s;
  pu_source : dirs (pc_source_dir config) = Some root ∧ wf_tree root;
  pu_lock : po_lock out = false;
  pu_run : run_ready (D:=D) (F:=F) (C:=ControlService E) blake3 dirs delta_json config out files blocks entries old;
  pu_publish : ready_to_publish blake3 to_error metadata (Some sched_addr) config index ms (ds_origin s);
  pu_addr : pc_origin_addr config = Some addr;
  pu_room : room (ds_origin s) g (blocks_size blocks.1 (chunks_to_download (compute index old ∅)));
  pu_old h : h ∈ default ∅ (chunk_set <$> old) → is_Some (ms g !! h);
  pu_few : N.of_nat (base.size (chunk_set index)) < 2^32;
  pu_distinct : distinct root index
}.

Lemma directory_published : publishable →
  ∃ o' out' m', run_with_config blake3 dirs delta_json config (ds_origin s, out) = ((o', out'), Ok index) ∧
    published blake3 (set_origin o' s) (update_at g m' ms) g v (Manifest.encode index) index.
Proof.
  intros [Hinv [Hroot Hwf] Hl Hrun Hready Haddr Hroom Hold Hfew Hdist].
  destruct (run_live blake3 to_error metadata (Some sched_addr) dirs delta_json config (ds_origin s) out files blocks
    entries old addr ms Hl Hrun Hready Haddr Hroom Hold) as (o' & out' & m' & Hr & _ & Hgrown & Hpub & Hhealthy).
  exists o', out', m'. split; [done|].
  destruct Hpub as (_ & _ & _ & (i & Hdec & Hall) & Htakes & Hsched).
  assert (Manifest.decode blake3 (Manifest.encode index) = Ok index) as Hdec'.
  { apply decode_encode_index; [done|apply Hrun|done]. }
  pose proof (eq_trans (eq_sym Hdec') Hdec) as [= <-].
  destruct (rp_game _ _ _ _ _ _ _ _ Hready) as [_ Hg].
  assert (sys_inv blake3 (update_at g m' ms) (set_origin o' s)) as Hinv'.
  { apply (publication_inv s ms g o' m' (Manifest.encode index) v); [done..| |done]. by exists index. }
  split; try done.
  - change (announced (or_sched o') g v = Some (Manifest.encode index)). rewrite Hsched.
    change (Is_true (is_ok (publish_to_scheduler sched_addr g v (Manifest.encode index) (or_sched (ds_origin s))).2)) in Htakes.
    apply (publish_taken sched_addr _ _ _ (or_sched (ds_origin s))).
    change (scheduler_after _ _ _ _ _) with (publish_to_scheduler sched_addr g v (Manifest.encode index) (or_sched (ds_origin s))).1.
    by destruct (publish_to_scheduler _ _ _ _ _) as [c' [[]|e]]; [|destruct Htakes].
  - destruct (run_entries _ _ _ _ _ _ _ Hroot Hwf Hrun) as [_ Hent].
    assert (update_at g m' ms g = m') as -> by (unfold update_at; by rewrite decide_True).
    apply (content_of_run root); [done|done| |done].
    apply Hgrown, (si_addressed _ _ _ Hinv g Hg).
  - apply Hdist.
Qed.

(** C13: A directory reaches the players.  When no call fails, a run of the producer
    returns and the version is published.  Any IDC that then runs the task for it
    completes, and so does any cafe that reaches this IDC, new, updating or resuming:
    every file of the source directory is there under its name with its bytes, the
    files that the version has dropped are gone, and the version is the current one. *)
Theorem directory_delivered : publishable →
  ∃ o' out' m', run_with_config blake3 dirs delta_json config (ds_origin s, out) = ((o', out'), Ok index) ∧
    published blake3 (set_origin o' s) (update_at g m' ms) g v (Manifest.encode index) index ∧
    ∀ id node t1 t2 idc_config env readable task n n0 store m B,
      idc_known (set_origin o' s) g index id node →
      idc_set blake3 (set_origin o' s) (update_at g m' ms) g v index idc_config env task n n0 store m B →
      ∃ n', run_task blake3 idc_config id env readable t1 task n = (n', Ok ()) ∧
        ∀ cafe_id config' env' task' installed temp c,
          cafe_set blake3 (update_at g m' ms) g v index n' node config' env' task' installed temp c (K:=K) →
          ∃ c', run_task blake3 config' cafe_id env' (Ok ()) t2 task' c = (c', Ok ()) ∧
            (∀ p data, file_data root p = Some data →
               ∃ f, gd_files (dir_of g c') !! replace_backslash (path_text p) = Some f ∧ f_data f = data) ∧
            (∀ name, name ∈ gone index installed → gd_files (dir_of g c') !! name = None) ∧
            no_cafes c' !! g = Some (Some (build_map index)).
Proof.
  intros Hready. destruct (directory_published Hready) as (o' & out' & m' & Hr & Hpub). exists o', out', m'. do 2 (split; [done|]).
  destruct Hready as [_ [Hroot Hwf] _ Hrun _ _ _ _ _ Hdist].
  destruct (run_entries _ _ _ _ _ _ _ Hroot Hwf Hrun) as [Hent _].
  intros id node t1 t2 idc_config env readable task n n0 store m B Hknown Hset.
  destruct (version_reaches blake3 to_error now _ _ g v _ index id node t1 t2 idc_config env readable task n n0 store m B
    Hpub Hknown Hset) as (n' & Hrun' & Hcafe). exists n'. split; [done|].
  intros cafe_id config' env' task' installed temp c Hcset.
  destruct (Hcafe cafe_id config' env' task' installed temp c Hcset) as (c' & Hc & Hfiles & Hgone & Hcur & _).
  exists c'. split_and!; [done| |done|done]. intros p data Hp.
  destruct (Hent p data Hp) as (e & chunks & He & Hname & Hhash & _).
  destruct (Hfiles e He) as (f & Hf & Hh). exists f. rewrite <- Hname. split; [done|].
  apply (di_files _ _ Hdist p); [done|]. by rewrite Hh.
Qed.
End run.
End directory.

(** ** An example: a directory with one file *)

#[local] Existing Instance whole_cdc.
#[local] Existing Instance whole_cdc_laws.
#[local] Existing Instance ready_fs.
#[local] Existing Instance ready_fs_laws.
#[local] Existing Instance SchedDb.sched_json.
#[local] Existing Instance SchedDb.sched_json_laws.
#[local] Existing Instance Map_source.
#[local] Existing Instance Map_source_laws.
#[local] Existing Instance Loopback.
#[local] Existing Instance Mem_quiet.
#[local] Existing Instance Idc_parse.
#[local] Existing Instance wf_files_dec.

Definition dir_tree : Tree := TDir [("logs"%string, TDir []); ("game.exe"%string, TFile way_data)].
Definition dir_dirs (p : string) : option Tree :=
  if decide (p = "src"%string) then Some dir_tree else None.
#[local] Instance dir_origin_calls : UploadRpc (Origin MemDb MemFile (ControlService MemDb)) :=
  origin_calls tag_hash st_message true "scheduler" (λ st, [st_message st]) (λ _, true).
Definition dir_run := run_with_config tag_hash dir_dirs src_json src_config (way_origin0, out0).

Definition dir_files : list path := [["game.exe"%string]].
Definition dir_loop := entry_loop tag_hash "src" dir_tree (pc_chunk src_config) true dir_files
  (∅ : gmap string (list byte), ∅ : gset hash32).
Definition dir_entries : list FileEntry := [mkFile "game.exe" way_hash [mkChunk way_hash 5]].
Definition dir_blocks := Eval vm_compute in dir_loop.1.

Lemma dir_tree_wf : wf_tree dir_tree.
Proof.
  assert (∀ A (l : list A) `{EqDecision A}, bool_decide (NoDup l) = true → NoDup l) as Hnd.
  { intros A l ?. apply bool_decide_eq_true. }
  repeat first [constructor 1|constructor 3; [apply (Hnd _ _ _); vm_compute; reflexivity|]|constructor].
Qed.

Lemma dir_ready_run : run_ready (D:=MemDb) (F:=MemFile) (C:=ControlService MemDb) tag_hash dir_dirs src_json src_config
  out0 dir_files dir_blocks dir_entries None.
Proof.
  split; try done. apply (bool_decide_unpack _). vm_compute. exact I.
Qed.

Lemma dir_ready_publish :
  ready_to_publish tag_hash (λ st, [st_message st]) (λ _, true) (Some "scheduler"%string)
    (SchedulerClient0:=control_client st_message true) src_config way_index (λ _, ∅) way_origin0.
Proof.
  split; [done|done|apply (si_origin _ _ _ way0_inv)| |by split|exact I|].
  - apply origin_healthy_open; [apply _|]. vm_compute. by split.
  - vm_compute. exact I.
Qed.

Lemma dir_file p data : file_data dir_tree p = Some data → data = way_data.
Proof.
  intros Hp. assert (list_files "src" (Some dir_tree) = Ok dir_files) as Hl by (vm_compute; reflexivity).
  apply list_files_ok in Hl as [_ Hin]; [|exact dir_tree_wf].
  assert (p ∈ dir_files) as ->%list_elem_of_singleton by (apply Hin; by exists data).
  vm_compute in Hp. by injection Hp as <-.
Qed.

Lemma dir_publishable :
  publishable tag_hash st_message true "scheduler" (λ st, [st_message st]) (λ _, true) dir_dirs src_json
    way0 (λ _, ∅) src_config dir_tree dir_files dir_blocks dir_entries None out0 "origin".
Proof.
  split.
  - exact way0_inv.
  - split; [reflexivity|exact dir_tree_wf].
  - reflexivity.
  - exact dir_ready_run.
  - exact dir_ready_publish.
  - reflexivity.
  - apply way0_room. vm_compute. reflexivity.
  - intros h Hh. by apply elem_of_empty in Hh.
  - vm_compute. reflexivity.
  - split.
    + intros h d d' ->%way_chunk Hd%tag_hash_inj Hd'%tag_hash_inj; [congruence|reflexivity..].
    + intros p data d ->%dir_file Hd. by apply tag_hash_inj in Hd.
Qed.

Lemma dir_run_origin : dir_run.1.1 = way_origin2.
Proof. vm_compute. reflexivity. Qed.

(** The directory is published, and one IDC and one cafe take it from there. *)
Lemma directory_delivered_witness :
  ∃ o' out' n' c', dir_run = ((o', out'), Ok way_index) ∧
    run_task (ControlRpc0:=scheduler (λ st, [st_message st]) 0) tag_hash way_idc_config 1 way_idc_env (Ok ())
      200 way_idc_task way_idc = (n', Ok ()) ∧
    run_task (ControlRpc0:=scheduler (λ st, [st_message st]) 0) tag_hash way_cafe_config 4 (way_cafe_env n') (Ok ())
      300 way_cafe_task (way_cafe n') = (c', Ok ()) ∧
    ∃ f, gd_files (dir_of 7 c') !! "game.exe"%string = Some f ∧ f_data f = way_data.
Proof.
  destruct (directory_delivered tag_hash st_message true "scheduler" (λ st, [st_message st]) (λ _, true) 0 dir_dirs
    src_json way0 (λ _, ∅) src_config dir_tree dir_files dir_blocks dir_entries None out0 "origin" dir_publishable)
    as (o' & out' & m' & Hr & Hpub & Hall).
  assert (o' = way_origin2) as -> by exact (eq_trans (eq_sym (f_equal (λ x, x.1.1) Hr)) dir_run_origin).
  pose proof (pb_inv _ _ _ _ _ _ _ Hpub) as Hinv.
  destruct (Hall 1 way_node 200 300 way_idc_config way_idc_env (Ok ()) way_idc_task way_idc way_idc mem_store ∅ 5
    way_known (way_idc_set _ Hinv)) as (n' & Hrun & Hcafe).
  destruct (Hcafe 4 way_cafe_config (way_cafe_env n') way_cafe_task None ∅ (way_cafe n') (way_cafe_set _ n'))
    as (c' & Hrun' & Hfiles & _).
  exists way_origin2, out', n', c'. split; [exact Hr|]. split; [exact Hrun|]. split; [exact Hrun'|].
  exact (Hfiles ["game.exe"%string] way_data eq_refl).
Defined.
